(* ===== verification/_CoqProject ===== *)
-Q . S2P
Prelude.v
Ctype.v
ShMath.v
ShMathSafety.v
ShMathNum.v
ShMathSem.v
Words.v
HashBuf.v
Md5.v
Sha1.v
Sha2.v
HashCtx.v
Bitops.v
Hmac.v
Sha3.v
Aes.v
Gcm.v
Mem.v
TlsRecord.v
TlsRead.v
TlsWrite.v
TlsLink.v
WinPath.v
Spawn.v
Fe.v
BcNum.v
BcDigits.v
BcAdd.v
BcMul.v
BcDiv.v
BcPow.v
Dname.v
Pstm.v
PstmVal.v
PstmOps.v
PstmMul.v
PstmDiv.v
PstmMont.v
PstmExp.v
Rsa.v
RsaSpec.v
Der.v
DerSpec.v
Kex.v
KexSpec.v
