(* ===== verification/Prelude.v ===== *)
(** * BusyBox for Windows: a verification library

    BusyBox is one executable that holds a few hundred small Unix programs
    ("applets"), two shells and the library libbb they share; busybox-w32 adds
    a layer, win32/, that implements the POSIX calls they need on Windows.
    This library models the parts of it that compute: the arithmetic of the
    shell, the cryptography and the record layer of the TLS client, the
    quoting and the search that starting a program on Windows needs, the
    arbitrary-precision numbers of bc and dc, the domain names of the DHCP
    client, and the integers, RSA and key parser of TLS. Every definition is translated from the C source and can be run.

    ** Conventions

    - A machine integer of [w] bits is a [Z] that is wrapped where C wraps
      ([u8], [u32], [u64], [s64], here; [s8] in BcNum). A byte array or a C
      string is a [list Z]; a string ends where its list ends.
    - A structure is a [Record], a function that changes it returns the new
      one. Memory that was allocated and not written is an argument of the
      functions (the old contents of a context, [garbage] in BcNum and Dname):
      the theorems hold for all contents.
    - Code that can stop with a message, leave its memory or not end has the
      type [res] of Mem: [Ok], [Die], [Fault], [Diverge]. Accesses to arrays
      go through [load], [store], [load1] and [store1], which check bounds.
      A theorem that such code [ends] or is [safe] says that neither [Fault]
      nor [Diverge] happens.
    - A loop that is not structural has fuel. Its theorem says that the fuel
      the definition passes is enough: the recursion of the evaluator is
      bounded by the number of variables and its loop by the length of the
      text, the hash loops by the length of the data, the chain of
      interpreters by the depth the source allows, Karatsuba's recursion by
      the length of the operands, a quotient digit by 9, an exponent by its 64
      bits, the decoding of domain names by the jumps it allows from each byte.
      In Pstm a division makes fewer than 6 corrections of a digit ([DIV_FIX])
      and fewer than 4 subtractions for the top digit ([DIV_TOP]); a carry moves at most over the
      digits of its array, and an exponent has 32 bits in each digit.
    - Code that is not in the source tree is a parameter with what the code
      relies on: the variables of the shell (class [ShellVars]), the random
      bytes of TLS, the network (a list of events), the files of the system,
      the code page, and the rules by which the C runtime of Windows splits a
      command line (a specification in Spawn).

    ** The files

    - Prelude, Ctype, Words, Mem: integers, characters (include/libbb.h,
      libbb/skip_whitespace.c, libbb/endofname.c), words and bytes, results
      and checked memory.
    - ShMath models shell/math.c: [arith], [evaluate_string], [arith_apply]
      and the lexers, with the two stacks as arrays of the size the C code
      allocates. ShMathSafety: the stacks never overflow, the evaluator ends
      on every text, and one text makes it read below the operator stack.
      ShMathNum: the operators and the literals compute what they should on
      64-bit integers. ShMathSem: on the text of every well-formed expression
      the evaluator agrees with a reference evaluator on syntax trees; numbers
      survive printing and reading.
    - HashBuf, Md5, Sha1, Sha2, HashCtx, Sha3 model libbb/hash_md5_sha.c and
      hash_sha256_block.c, in every size configuration: data in any pieces
      gives the digests of RFC 1321, FIPS 180 and FIPS 202. Hmac models
      libbb/hash_hmac.c, the pseudo-random function of networking/tls.c and
      PBKDF2 of libbb/yescrypt/alg-sha256.c over any hash that satisfies the
      class [StreamHash]; SHA-1 and SHA-256 do.
    - Bitops, Aes, Gcm model libbb/bitops.c, networking/tls_aes.c and
      tls_aesgcm.c: AES of FIPS 197, CBC and its inverse, GHASH of NIST SP
      800-38D.
    - TlsRecord models the record layer of networking/tls.c, on a buffer with
      checked accesses and a network that delivers bytes in any pieces.
      TlsRead: reading is memory safe whatever arrives. TlsWrite: writing
      produces the records of RFC 5246 and RFC 5288. TlsLink: what one side
      writes the other side reads; and a handshake record after the handshake
      dereferences a null pointer.
    - Fe models networking/tls_fe.c: field arithmetic modulo 2^255 - 19 on
      arrays of bytes and the Montgomery ladder of Curve25519.
    - WinPath models win32/dirname.c and the name tests of win32/mingw.c;
      Spawn models win32/process.c from the arguments to the call of the C
      runtime, with libbb/executable.c: quoted arguments are split again into
      the same arguments, scripts get the arguments they get on Unix, the
      search finds the first executable, and the chain of interpreters ends.
    - BcNum models the numbers of miscutils/bc.c. BcDigits: the value of a
      digit array and the invariant [ok] of numbers. BcAdd, BcMul, BcDiv,
      BcPow: addition, subtraction and comparison are exact; products,
      quotients, remainders and powers are exact up to the scale and stay in
      their buffers; powers modulo a number are right; and a zero exponent
      that was computed at a scale makes the code read behind an array.
    - Dname models networking/udhcp/domain_codec.c: decoding is memory safe
      and ends on all bytes, also when pointers form a loop; it expands what
      RFC 1035 describes; encoding gives names of that form, which decode to
      the text they came from; and an empty first name destroys the prefix.
    - Pstm models networking/tls_pstm.c with tls_pstm_mul_comba.c,
      tls_pstm_sqr_comba.c and tls_pstm_montgomery_reduce.c: integers of
      32-bit digits in allocated arrays, with checked accesses. PstmVal: the
      value of a number and its invariant. PstmOps, PstmMul: comparison,
      shifts, addition, subtraction, products and squares are exact. PstmDiv:
      remainders are right, unless an intermediate remainder comes as close to
      the divisor as [far] excludes; there the subtraction of the source
      loses a borrow, and an example gives a wrong remainder. PstmMont:
      Montgomery reduction is right, and leaves its array when that is shorter
      than it needs (the code compares bytes with digits). PstmExp: the sliding
      window computes powers modulo an odd number; where the base does not have
      the size that [base_fits] asks for, the code leaves its array.
    - Rsa models networking/tls_rsa.c: padding, the three ways to use a key
      and the Chinese remainders. RsaSpec: what is encrypted with the public
      key is decrypted with the private key; and a ciphertext of zero bytes
      makes the private operation leave its array.
    - Der models the parsing of certificates, server keys and private keys in
      networking/tls.c. DerSpec: on all bytes the parser ends and stays in its
      array, when 13 bytes are there behind a certificate; a private key in the format of PKCS 1
      or PKCS 8 is read back with the components it was written with; and
      examples show a certificate and a key message that are read beyond
      their ends.
    - Kex models the end of the handshake in networking/tls.c: the client's key
      exchange, the derivation of the keys, the change of the cipher and the
      finished messages, on both sides. KexSpec: with an RSA key the server
      accepts what the client sends, both have the master secret and the keys
      of RFC 5246, and their record layers are those that TlsLink connects.

    ** How the parts meet

    The TLS record layer calls the HMAC, AES and GHASH models; these call the
    hashes and the exclusive or. HMAC is proved against the interface
    [StreamHash], which the hash files discharge. The process starter uses the
    path functions. The arithmetic of bc is layered as in the source: the
    digit arrays under addition, addition under Karatsuba's product, both under
    the remainder, all under powers. RSA calls the integers of Pstm, as the
    parser of keys does to build the components. The key exchange stands on RSA,
    the pseudo-random function, AES and the record layer.

    ** Not modelled

    The applets are for the most part input and output around system calls,
    and the Windows layer is for the most part calls of the Windows API: there
    is little to prove of these without a model of the system. The shells, awk,
    sed, vi, the archivers and decompressors, the regular expressions, the
    rest of the DHCP client and server, the hello messages of the TLS handshake
    and the order of its messages, the P-256 curve (an argument of Kex), and
    the language of bc compute a great deal and could be modelled in the same
    way; they are not yet. Assembly versions of the hashes and the big-endian
    branches of the source are not modelled, nor are timing and the
    allocation failures, after which every applet exits. *)

From Stdlib Require Import Ascii String ZArith List Lia Bool.
Import ListNotations.
Local Open Scope Z_scope.

(** ** Machine integers

    An integer of [w] bits is a [Z]; every C operation that can leave the
    range wraps its result explicitly. *)

Definition wrap (w z : Z) : Z := z mod 2 ^ w.
Definition u8 (z : Z) : Z := wrap 8 z.
Definition u32 (z : Z) : Z := wrap 32 z.
Definition u64 (z : Z) : Z := wrap 64 z.

(** A signed 64-bit value, two's complement. *)
Definition s64 (z : Z) : Z := (z + 2 ^ 63) mod 2 ^ 64 - 2 ^ 63.

Definition in_u (w z : Z) : Prop := 0 <= z < 2 ^ w.
Definition in_s64 (z : Z) : Prop := - 2 ^ 63 <= z < 2 ^ 63.

(** ** Characters and C strings

    A C string is the list of its bytes before the terminating NUL; reading
    the head of an exhausted string reads that NUL. *)

Definition chr (a : ascii) : Z := Z.of_N (N_of_ascii a).
Arguments chr a%_char_scope.

Fixpoint bytes_of (s : string) : list Z :=
  match s with
  | EmptyString => []
  | String a s => chr a :: bytes_of s
  end.

Definition char_at (i : nat) (s : list Z) : Z := nth i s 0.

(** ** Booleans as C ints *)

Definition b2z (b : bool) : Z := if b then 1 else 0.

(** ** Array update *)

Fixpoint upd {A} (l : list A) (i : nat) (v : A) : list A :=
  match l, i with
  | [], _ => []
  | _ :: l, O => v :: l
  | x :: l, S i => x :: upd l i v
  end.

(** ** Loops *)

(** [do body while (again)]; [fuel] bounds the iterations. *)
Fixpoint do_while {S} (fuel : nat) (body : S -> S) (again : S -> bool) (s : S) : S :=
  match fuel with
  | O => s
  | S fuel => let s := body s in if again s then do_while fuel body again s else s
  end.

(** A list that grows by one element computed from those before. *)
Fixpoint grow {A} (next : list A -> A) (l : list A) (n : nat) : list A :=
  match n with
  | O => l
  | S n => let w := grow next l n in w ++ [next w]
  end.

(** ** Computations that may run out of fuel *)

Definition bind {A B} (m : option A) (f : A -> option B) : option B :=
  match m with Some a => f a | None => None end.

Declare Scope bb_scope.
Delimit Scope bb_scope with bb.
Notation "'let*' x ':=' m 'in' k" := (bind m (fun x => k))
  (at level 10, x as pattern, m at level 100, k at level 200) : bb_scope.

(** The calls [f s x] for every [x] of a list, in order. *)
Fixpoint fold_opt {A B} (f : A -> B -> option A) (l : list B) (a : A) : option A :=
  match l with
  | [] => Some a
  | x :: l => bind (f a x) (fold_opt f l)
  end.

(** ** Lemmas *)

Lemma wrap_range w z : 0 <= w -> in_u w (wrap w z).
Proof. intros; apply Z.mod_pos_bound, Z.pow_pos_nonneg; lia. Qed.

Lemma wrap_small w z : in_u w z -> wrap w z = z.
Proof. apply Z.mod_small. Qed.

Lemma s64_range z : in_s64 (s64 z).
Proof.
  unfold in_s64, s64. pose proof (Z.mod_pos_bound (z + 2 ^ 63) (2 ^ 64)). lia.
Qed.

Lemma s64_small z : in_s64 z -> s64 z = z.
Proof. unfold in_s64, s64; intros; rewrite Z.mod_small; lia. Qed.

(** [s64] is reduction modulo [2^64] into the signed window. *)
Lemma s64_eqm z : exists k, s64 z = z + k * 2 ^ 64.
Proof.
  exists (- ((z + 2 ^ 63) / 2 ^ 64)). unfold s64.
  rewrite Z.mod_eq by lia. ring.
Qed.

Lemma s64_unique z k v : in_s64 v -> v = z + k * 2 ^ 64 -> s64 z = v.
Proof.
  intros Hv ->. rewrite <- (s64_small _ Hv). unfold s64.
  f_equal. rewrite <- (Z_mod_plus_full (z + 2 ^ 63) k). f_equal. ring.
Qed.

Lemma s64_idem z : s64 (s64 z) = s64 z.
Proof. apply s64_small, s64_range. Qed.

Lemma s64_mod z : s64 z mod 2 ^ 64 = z mod 2 ^ 64.
Proof. destruct (s64_eqm z) as [k ->]. apply Z_mod_plus_full. Qed.

Lemma s64_ext a b : a mod 2 ^ 64 = b mod 2 ^ 64 -> s64 a = s64 b.
Proof.
  intros E. unfold s64. f_equal.
  rewrite Zplus_mod, E, <- Zplus_mod. reflexivity.
Qed.

(** [s64] may be dropped inside a sum, a difference or a product that is
    itself reduced. *)
Lemma s64_add_l a b : s64 (s64 a + b) = s64 (a + b).
Proof. apply s64_ext. rewrite Zplus_mod, s64_mod, <- Zplus_mod. reflexivity. Qed.
Lemma s64_mul_l a b : s64 (s64 a * b) = s64 (a * b).
Proof. apply s64_ext. rewrite Zmult_mod, s64_mod, <- Zmult_mod. reflexivity. Qed.
Lemma s64_mul_r a b : s64 (a * s64 b) = s64 (a * b).
Proof. rewrite Z.mul_comm, s64_mul_l, Z.mul_comm. reflexivity. Qed.
Lemma s64_opp a : s64 (- s64 a) = s64 (- a).
Proof.
  replace (- s64 a) with (s64 a * -1) by ring. rewrite s64_mul_l. f_equal; ring.
Qed.
Lemma s64_pow a n : 0 <= n -> s64 (s64 a ^ n) = s64 (a ^ n).
Proof.
  intros Hn. revert n Hn. apply natlike_ind; [reflexivity|].
  intros n Hn IH. rewrite !Z.pow_succ_r by assumption.
  rewrite s64_mul_l, <- s64_mul_r, IH, s64_mul_r. reflexivity.
Qed.

Lemma length_upd {A} (l : list A) i v : length (upd l i v) = length l.
Proof. revert i; induction l as [|x l IH]; intros [|i]; simpl; auto. Qed.

Lemma nth_upd_eq {A} (l : list A) i v d :
  (i < length l)%nat -> nth i (upd l i v) d = v.
Proof.
  revert i; induction l as [|x l IH]; intros [|i] H; simpl in *; try lia; auto.
  apply IH; lia.
Qed.

Lemma nth_upd_ne {A} (l : list A) i j v d :
  i <> j -> nth j (upd l i v) d = nth j l d.
Proof.
  revert i j; induction l as [|x l IH]; intros [|i] [|j] H; simpl; auto; try lia.
Qed.

Lemma firstn_upd {A} (l : list A) i v :
  (i < length l)%nat -> firstn (S i) (upd l i v) = firstn i l ++ [v].
Proof.
  revert i; induction l as [|x l IH]; intros [|i] Hi; cbn [length] in Hi; try lia; [reflexivity|].
  change (x :: firstn (S i) (upd l i v) = x :: firstn i l ++ [v]). rewrite IH by lia. reflexivity.
Qed.

Lemma Forall_upd {A} (P : A -> Prop) (l : list A) i v : Forall P l -> P v -> Forall P (upd l i v).
Proof.
  intros Hl Hv. revert i; induction Hl as [|x l Hx Hl IH]; intros [|i]; cbn [upd]; constructor; auto.
Qed.

Lemma skipn_upd {A} (l : list A) p v k : (p < k)%nat -> skipn k (upd l p v) = skipn k l.
Proof.
  revert p k; induction l as [|x l IH]; intros [|p] [|k] H; try lia; cbn [upd skipn]; auto. apply IH. lia.
Qed.

Lemma firstn_upd_above {A} (l : list A) p v k : (k <= p)%nat -> firstn k (upd l p v) = firstn k l.
Proof.
  revert p k; induction l as [|x l IH]; intros [|p] [|k] H; try lia; cbn [upd firstn]; auto. f_equal. apply IH. lia.
Qed.

Lemma nth_of_skipn {A} (l m : list A) k d : skipn k l = skipn k m -> nth k l d = nth k m d.
Proof. intros E. pose proof (nth_skipn k l 0 d) as H1. rewrite E, nth_skipn in H1. rewrite !Nat.add_0_r in H1. auto. Qed.

Lemma skipn_weaken {A} (l m : list A) k : skipn k l = skipn k m -> skipn (S k) l = skipn (S k) m.
Proof. intros E. change (S k) with (1 + k)%nat. rewrite <- !(skipn_skipn 1 k), E. reflexivity. Qed.

Lemma skipn_cons {A} (l : list A) i d : (i < length l)%nat -> skipn i l = nth i l d :: skipn (S i) l.
Proof.
  revert i; induction l as [|x l IH]; intros [|i] H; cbn [length skipn nth] in *; try lia; [reflexivity|]. apply IH. lia.
Qed.

Lemma Forall_firstn {A} (P : A -> Prop) n l : Forall P l -> Forall P (firstn n l).
Proof. rewrite <- (firstn_skipn n l) at 1. intros H. apply Forall_app in H. apply H. Qed.
Lemma Forall_skipn {A} (P : A -> Prop) n l : Forall P l -> Forall P (skipn n l).
Proof. rewrite <- (firstn_skipn n l) at 1. intros H. apply Forall_app in H. apply H. Qed.

Lemma firstn_S_nth {A} (l : list A) i d :
  (i < length l)%nat -> firstn (S i) l = firstn i l ++ [nth i l d].
Proof.
  revert i; induction l as [|x l IH]; intros [|i] Hi; cbn [length] in Hi; try lia; [reflexivity|].
  change (x :: firstn (S i) l = x :: firstn i l ++ [nth i l d]). rewrite (IH i) by lia. reflexivity.
Qed.

(** A counter that goes round with the quotient it counts. *)
Lemma div_mod_succ i n :
  (0 < n)%nat ->
  if (i mod n + 1 =? n)%nat then (S i mod n = 0 /\ S i / n = i / n + 1)%nat
  else (S i mod n = i mod n + 1 /\ S i / n = i / n)%nat.
Proof.
  intros Hn. pose proof (Nat.div_mod_eq i n) as E. pose proof (Nat.mod_upper_bound i n ltac:(lia)) as Hb.
  destruct (Nat.eqb_spec (i mod n + 1) n).
  - split; symmetry; [apply Nat.mod_unique with (i / n + 1)%nat|apply Nat.div_unique with 0%nat]; nia.
  - split; symmetry; [apply Nat.mod_unique with (i / n)%nat|apply Nat.div_unique with (i mod n + 1)%nat]; lia.
Qed.

Lemma app_split {A} (a b c d : list A) : a ++ b = c ++ d -> length a = length c -> a = c /\ b = d.
Proof.
  revert c; induction a as [|x a IH]; intros [|y c] E Hl; cbn in *; try discriminate; [auto|].
  injection E as -> E. destruct (IH c E ltac:(lia)) as [-> ->]. auto.
Qed.

Lemma seq_map_add n a k : map (fun i => n + i)%nat (seq a k) = seq (n + a) k.
Proof.
  revert a; induction k as [|k IH]; intros a; cbn [seq map]; [reflexivity|].
  f_equal. rewrite IH, Nat.add_succ_r. reflexivity.
Qed.

Lemma fold_left_map {A B C} (f : A -> B -> A) (g : C -> B) l a :
  fold_left f (map g l) a = fold_left (fun a c => f a (g c)) l a.
Proof. revert a; induction l as [|c l IH]; intros a; simpl; auto. Qed.

Lemma fold_left_ext {A B} (f g : A -> B -> A) l a :
  (forall a b, In b l -> f a b = g a b) -> fold_left f l a = fold_left g l a.
Proof.
  revert a; induction l as [|b l IH]; intros a Hfg; [reflexivity|]. cbn [fold_left].
  rewrite Hfg by (left; reflexivity). apply IH. intros; apply Hfg; right; assumption.
Qed.

Lemma fold_inv {A B} (I : A -> Prop) (f : A -> B -> A) l a :
  (forall a b, I a -> I (f a b)) -> I a -> I (fold_left f l a).
Proof. intros Hf. revert a; induction l as [|b l IH]; intros a Ha; cbn [fold_left]; auto. Qed.

(** Calls that take a message in pieces: [R s m] says [s] was given [m]. *)
Lemma fold_opt_concat {A B} (R : A -> list B -> Prop) (P : list B -> Prop) f :
  (forall s m d, R s m -> P d -> exists s', f s d = Some s' /\ R s' (m ++ d)) ->
  forall l s m, Forall P l -> R s m ->
  exists s', fold_opt f l s = Some s' /\ R s' (m ++ concat l).
Proof.
  intros Hf l s m Hl. revert s m.
  induction Hl as [|d l Hd _ IH]; intros s m Hs; cbn [fold_opt concat].
  - exists s. rewrite app_nil_r. auto.
  - destruct (Hf s m d Hs Hd) as (s1 & -> & H1). cbn [bind].
    destruct (IH _ _ H1) as (s2 & -> & H2). exists s2. rewrite <- app_assoc in H2. auto.
Qed.

Lemma nth_map_seq {A} (f : nat -> A) n t d :
  (t < n)%nat -> nth t (map f (seq 0 n)) d = f t.
Proof.
  intros Ht. rewrite (nth_indep _ d (f 0%nat)) by (rewrite length_map, length_seq; lia).
  rewrite map_nth, seq_nth by assumption. reflexivity.
Qed.

Lemma length_grow {A} next (l : list A) n : length (grow next l n) = (length l + n)%nat.
Proof. induction n as [|n IH]; cbn [grow]; [|rewrite length_app, IH; cbn [length]]; lia. Qed.

Lemma firstn_grow {A} next (l : list A) n m :
  (n <= m)%nat -> firstn (length l + n) (grow next l m) = grow next l n.
Proof.
  intros Hnm. induction Hnm as [|m Hnm IH].
  - rewrite <- (length_grow next l n). apply firstn_all.
  - cbn [grow]. rewrite firstn_app, length_grow, IH.
    replace (length l + n - (length l + m))%nat with 0%nat by lia. apply app_nil_r.
Qed.

Lemma nth_grow {A} next (l : list A) n t d :
  (length l <= t < length l + n)%nat ->
  nth t (grow next l n) d = next (firstn t (grow next l n)).
Proof.
  intros Ht. set (k := (t - length l)%nat).
  replace t with (length l + k)%nat at 2 by lia. rewrite firstn_grow by lia.
  rewrite <- (firstn_skipn (length l + S k) (grow next l n)), firstn_grow by lia. cbn [grow].
  rewrite app_nth1 by (rewrite length_app, length_grow; cbn [length]; lia).
  rewrite app_nth2, length_grow by (rewrite length_grow; lia).
  replace (t - (length l + k))%nat with 0%nat by lia. reflexivity.
Qed.

(** A loop of [m] iterations, with an invariant that counts them. *)
Lemma do_while_inv {St} (I : nat -> St -> Prop) (m fuel : nat) body again s :
  (forall i s, (i < m)%nat -> I i s -> I (S i) (body s)) ->
  (forall i s, (0 < i < m)%nat -> I i s -> again s = true) ->
  (forall s, I m s -> again s = false) ->
  (0 < m <= fuel)%nat -> I O s -> I m (do_while fuel body again s).
Proof.
  intros Hb Hc He Hm H0.
  assert (H : forall k i s fuel, (i + S k = m)%nat -> (S k <= fuel)%nat -> I i s ->
            I m (do_while fuel body again s)).
  { induction k as [|k IH]; intros i s0 f Hi Hf Hs; (destruct f as [|f]; [lia|]); cbn [do_while];
      pose proof (Hb i s0 ltac:(lia) Hs) as Hs'.
    - replace (S i) with m in Hs' by lia. rewrite (He _ Hs'). exact Hs'.
    - rewrite (Hc (S i) _ ltac:(lia) Hs'). apply (IH (S i)); auto; lia. }
  apply (H (m - 1)%nat O); auto; lia.
Qed.

(** An invariant of a loop over consecutive indices. *)
Lemma fold_seq_inv {St} (I : nat -> St -> Prop) (f : St -> nat -> St) a n s :
  (forall i s, (a <= i < a + n)%nat -> I i s -> I (S i) (f s i)) -> I a s ->
  I (a + n)%nat (fold_left f (seq a n) s).
Proof.
  revert a s; induction n as [|n IH]; intros a s Hf Hs; cbn [seq fold_left].
  - rewrite Nat.add_0_r. exact Hs.
  - rewrite Nat.add_succ_r, <- Nat.add_succ_l. apply IH; [intros; apply Hf; auto; lia|].
    apply Hf; [lia|exact Hs].
Qed.

(** ** Tactics *)

(** Evaluate every character literal of the goal and the context. *)
Ltac chars :=
  repeat match goal with
  | |- context [chr ?a] => let v := eval vm_compute in (chr a) in change (chr a) with v
  | H : context [chr ?a] |- _ =>
      let v := eval vm_compute in (chr a) in change (chr a) with v in H
  end.

(** Split on the first boolean integer comparison in sight. *)
Ltac zb :=
  match goal with
  | |- context [?a =? ?b] => destruct (Z.eqb_spec a b)
  | |- context [?a <? ?b] => destruct (Z.ltb_spec a b)
  | |- context [?a <=? ?b] => destruct (Z.leb_spec a b)
  | H : context [?a =? ?b] |- _ => destruct (Z.eqb_spec a b)
  | H : context [?a <? ?b] |- _ => destruct (Z.ltb_spec a b)
  | H : context [?a <=? ?b] |- _ => destruct (Z.leb_spec a b)
  end.

(** Case analysis on the discriminee of a match in the goal. *)
Ltac case_match :=
  match goal with
  | |- context [match ?x with _ => _ end] => destruct x eqn:?
  end.

Create HintDb bbox.
Create Rewrite HintDb len.
#[export] Hint Resolve wrap_range s64_range : bbox.
#[export] Hint Rewrite @length_upd length_app length_map length_rev length_seq
  length_firstn length_skipn repeat_length : len.
