(* ===== verification/Ctype.v ===== *)
(** * Character classes and string scanning of libbb

    The ctype macros that [include/libbb.h] redefines, and the scanning
    helpers of [libbb/skip_whitespace.c] and [libbb/endofname.c] on which the
    shell's arithmetic rests. *)

From Stdlib Require Import Ascii String ZArith List Lia Bool.
From S2P Require Import Prelude.
Import ListNotations.
Local Open Scope Z_scope.

(** ** Definitions *)

Definition isdigit (a : Z) : bool := u8 (a - chr "0") <=? 9.
Definition isalpha (a : Z) : bool :=
  u8 (Z.lor a 32 - chr "a") <=? chr "z" - chr "a".
Definition isspace (a : Z) : bool :=
  let bb__isspace := u8 (a - 9) in
  (bb__isspace =? chr " " - 9) || (bb__isspace <=? 13 - 9).

Definition isalnum (a : Z) : bool :=
  let b := u8 (a - chr "0") in
  if b <=? 9 then true
  else let b := u8 (Z.lor a 32 - chr "a") in b <=? chr "z" - chr "a".

(** Advance while the current character is a space or one of 9..13. *)
Fixpoint skip_whitespace (s : list Z) : list Z :=
  match s with
  | [] => []
  | ch :: s' =>
      if (u8 ch =? chr " ") || (u8 (ch - 9) <=? 13 - 9) then skip_whitespace s' else s
  end.

Definition is_name (c : Z) : bool := (c =? chr "_") || isalpha c.
Definition is_in_name (c : Z) : bool := (c =? chr "_") || isalnum c.

Fixpoint skip_in_name (s : list Z) : list Z :=
  match s with
  | [] => []
  | ch :: s' => if is_in_name ch then skip_in_name s' else s
  end.

(** The suffix of [name] after the variable name it starts with; [name]
    itself when it starts with none. *)
Definition endofname (name : list Z) : list Z :=
  match name with
  | [] => []
  | ch :: rest => if is_name ch then skip_in_name rest else name
  end.

(** ** Theorems *)

Lemma isspace_alt a : isspace a = (u8 a =? chr " ") || (u8 (a - 9) <=? 13 - 9).
Proof.
  unfold isspace, u8, wrap. chars. change (2 ^ 8) with 256.
  destruct (Z.eqb_spec ((a - 9) mod 256) (32 - 9)) as [E|E],
           (Z.eqb_spec (a mod 256) 32) as [F|F]; auto; simpl.
  all: exfalso; Z.div_mod_to_equations; lia.
Qed.

Lemma u8_sub_mod a k : u8 (a - k) = u8 (a mod 256 - k).
Proof.
  unfold u8, wrap. change (2 ^ 8) with 256.
  rewrite Zminus_mod_idemp_l. reflexivity.
Qed.

Lemma lor_mod256 a k : 0 <= k < 256 -> Z.lor a k mod 256 = Z.lor (a mod 256) k.
Proof.
  intros Hk. change 256 with (2 ^ 8). rewrite <- !Z.land_ones by lia.
  rewrite Z.land_lor_distr_l. f_equal.
  rewrite Z.land_ones by lia. apply Z.mod_small. exact Hk.
Qed.

(** Every class depends on the low byte only, so a fact that holds for the
    256 bytes holds. *)
Lemma class_byte (f : Z -> bool) :
  (forall a, f a = f (a mod 256)) ->
  forallb f (map Z.of_nat (seq 0 256)) = true -> forall a, f a = true.
Proof.
  intros Hf H a. rewrite Hf. rewrite forallb_forall in H. apply H.
  apply in_map_iff. exists (Z.to_nat (a mod 256)).
  pose proof (Z.mod_pos_bound a 256). split; [lia|]. apply in_seq. lia.
Qed.

Lemma isspace_mod a : isspace a = isspace (a mod 256).
Proof. unfold isspace. rewrite u8_sub_mod. reflexivity. Qed.

Lemma isdigit_mod a : isdigit a = isdigit (a mod 256).
Proof. unfold isdigit. rewrite u8_sub_mod. reflexivity. Qed.

Lemma alpha_mod a k : u8 (Z.lor a 32 - k) = u8 (Z.lor (a mod 256) 32 - k).
Proof. rewrite u8_sub_mod, lor_mod256 by lia. reflexivity. Qed.

Lemma isalpha_mod a : isalpha a = isalpha (a mod 256).
Proof. unfold isalpha. rewrite alpha_mod. reflexivity. Qed.

Lemma isalnum_mod a : isalnum a = isalnum (a mod 256).
Proof. unfold isalnum. rewrite u8_sub_mod, alpha_mod. reflexivity. Qed.

Lemma isalnum_not_space a : isalnum a = true -> isspace a = false.
Proof.
  pose proof (class_byte (fun a => negb (isalnum a) || negb (isspace a))) as H.
  intros Ha. specialize (H (fun a => ltac:(cbv beta; rewrite <- isalnum_mod, <- isspace_mod; reflexivity))
                           eq_refl a).
  cbv beta in H. rewrite Ha in H. simpl in H. destruct (isspace a); auto.
Qed.

Lemma isalpha_isalnum a : isalpha a = true -> isalnum a = true.
Proof. unfold isalpha, isalnum. intros ->. destruct (_ <=? 9); reflexivity. Qed.

Lemma isdigit_isalnum a : isdigit a = true -> isalnum a = true.
Proof. unfold isdigit, isalnum. intros ->. reflexivity. Qed.

Lemma is_name_in_name a : is_name a = true -> is_in_name a = true.
Proof.
  unfold is_name, is_in_name. destruct (a =? chr "_"); simpl; auto using isalpha_isalnum.
Qed.

Lemma isdigit_in_name a : isdigit a = true -> is_in_name a = true.
Proof. unfold is_in_name. intros H; rewrite isdigit_isalnum by assumption. apply orb_true_r. Qed.

Lemma in_name_not_space a : is_in_name a = true -> isspace a = false.
Proof.
  unfold is_in_name. destruct (Z.eqb_spec a (chr "_")) as [->|_]; [reflexivity|].
  simpl. apply isalnum_not_space.
Qed.

(** What a scan leaves does not start with what it skips. *)
Definition starts (f : Z -> bool) (s : list Z) : bool :=
  match s with [] => false | ch :: _ => f ch end.

Lemma skip_in_name_stop s : starts is_in_name (skip_in_name s) = false.
Proof.
  induction s as [|ch s IH]; simpl; auto.
  destruct (is_in_name ch) eqn:E; auto.
Qed.

Lemma endofname_name ch s :
  is_name ch = true -> endofname (ch :: s) = skip_in_name s.
Proof. intros E; simpl; rewrite E; reflexivity. Qed.

Inductive suffix : list Z -> list Z -> Prop :=
| suffix_refl s : suffix s s
| suffix_cons x s t : suffix s t -> suffix s (x :: t).
#[export] Hint Constructors suffix : bbox.

Lemma suffix_trans a b c : suffix a b -> suffix b c -> suffix a c.
Proof. intros Hab Hbc; revert Hab; induction Hbc; eauto with bbox. Qed.

Lemma suffix_length a b : suffix a b -> (List.length a <= List.length b)%nat.
Proof. induction 1; simpl; lia. Qed.

Lemma suffix_Forall (P : Z -> Prop) a b : suffix a b -> Forall P b -> Forall P a.
Proof. induction 1; auto. intros Hf; inversion Hf; auto. Qed.

Lemma suffix_skipn n s : suffix (skipn n s) s.
Proof.
  revert s; induction n as [|n IH]; intros [|x s]; simpl; auto with bbox.
Qed.

Lemma skip_whitespace_suffix s : suffix (skip_whitespace s) s.
Proof. induction s as [|ch s IH]; simpl; [constructor|]. destruct (_ || _); auto with bbox. Qed.

Lemma skip_in_name_suffix s : suffix (skip_in_name s) s.
Proof. induction s as [|ch s IH]; simpl; [constructor|]. destruct (is_in_name ch); auto with bbox. Qed.
