(* ===== verification/ShMath.v ===== *)
(** * The shell's arithmetic evaluator: definitions

    A translation of [shell/math.c], the evaluator behind [$((...))], [let]
    and [${v:N:M}]: operator tokens, [arith_apply], the number lexer, the
    main loop of [evaluate_string] and the recursive evaluation of variables.
    Theorems are in [ShMathNum], [ShMathSafety] and [ShMathSem]. *)

From Stdlib Require Import Ascii String ZArith List Lia Bool.
From S2P Require Import Prelude Ctype.
Import ListNotations.
Local Open Scope Z_scope.

(** ** Operator tokens *)

Definition tok_decl (prec id : Z) : Z := Z.lor (Z.shiftl id 5) prec.
Definition PREC (op : Z) : Z := Z.land op 31.

Definition PREC_LPAREN : Z := 0.
Definition TOK_LPAREN : Z := tok_decl 0 0.
Definition TOK_RPAREN : Z := tok_decl 1 1.
Definition TOK_COMMA : Z := tok_decl 1 0.

Definition PREC_ASSIGN1 : Z := 2.
Definition TOK_ASSIGN : Z := tok_decl 2 0.
Definition TOK_AND_ASSIGN : Z := tok_decl 2 1.
Definition TOK_OR_ASSIGN : Z := tok_decl 2 2.
Definition TOK_XOR_ASSIGN : Z := tok_decl 2 3.
Definition TOK_ADD_ASSIGN : Z := tok_decl 2 4.
Definition TOK_SUB_ASSIGN : Z := tok_decl 2 5.
Definition TOK_LSHIFT_ASSIGN : Z := tok_decl 2 6.
Definition TOK_RSHIFT_ASSIGN : Z := tok_decl 2 7.

Definition PREC_ASSIGN2 : Z := 3.
Definition TOK_MUL_ASSIGN : Z := tok_decl 3 0.
Definition DIV_ID1 : Z := 1.
Definition TOK_DIV_ASSIGN : Z := tok_decl 3 DIV_ID1.
Definition TOK_REM_ASSIGN : Z := tok_decl 3 2.

Definition fix_assignment_prec (prec : Z) : Z := prec - b2z (prec =? 3).

Definition TOK_CONDITIONAL : Z := tok_decl 4 0.
Definition TOK_CONDITIONAL_SEP : Z := tok_decl 4 1.
Definition TOK_OR : Z := tok_decl 5 0.
Definition TOK_AND : Z := tok_decl 6 0.
Definition TOK_BOR : Z := tok_decl 7 0.
Definition TOK_BXOR : Z := tok_decl 8 0.
Definition TOK_BAND : Z := tok_decl 9 0.
Definition TOK_EQ : Z := tok_decl 10 0.
Definition TOK_NE : Z := tok_decl 10 1.
Definition TOK_LT : Z := tok_decl 11 0.
Definition TOK_GT : Z := tok_decl 11 1.
Definition TOK_GE : Z := tok_decl 11 2.
Definition TOK_LE : Z := tok_decl 11 3.
Definition TOK_LSHIFT : Z := tok_decl 12 0.
Definition TOK_RSHIFT : Z := tok_decl 12 1.
Definition TOK_ADD : Z := tok_decl 13 0.
Definition TOK_SUB : Z := tok_decl 13 1.
Definition TOK_MUL : Z := tok_decl 14 0.
Definition TOK_DIV : Z := tok_decl 14 DIV_ID1.
Definition TOK_REM : Z := tok_decl 14 2.
Definition TOK_EXPONENT : Z := tok_decl 15 1.

Definition UNARYPREC : Z := 16.
Definition TOK_BNOT : Z := tok_decl UNARYPREC 0.
Definition TOK_NOT : Z := tok_decl UNARYPREC 1.
Definition TOK_UMINUS : Z := tok_decl (UNARYPREC + 1) 0.
Definition PREC_PRE : Z := UNARYPREC + 2.
Definition TOK_PRE_INC : Z := tok_decl PREC_PRE 0.
Definition TOK_PRE_DEC : Z := tok_decl PREC_PRE 1.
Definition PREC_POST : Z := UNARYPREC + 3.
Definition TOK_POST_INC : Z := tok_decl PREC_POST 0.
Definition TOK_POST_DEC : Z := tok_decl PREC_POST 1.
Definition TOK_VALUE : Z := tok_decl PREC_POST 2.

Definition is_assign_op (op : Z) : bool :=
  let prec := PREC op in
  (prec =? PREC_ASSIGN1) || (prec =? PREC_ASSIGN2)
  || (prec =? PREC_PRE) || (prec =? PREC_POST).

Definition is_right_associative (prec : Z) : bool :=
  (prec =? PREC TOK_ASSIGN) || (prec =? PREC TOK_EXPONENT)
  || (prec =? PREC TOK_CONDITIONAL).

(** ** State *)

(** A slot of the value stack. [var_name] is the pointer into the expression
    text, [None] for NULL: the rest of the text from the name on. *)
Record var_or_num_t := mk_von { val : Z; var_name : option (list Z) }.

Inductive arith_err : Set :=
| syntax_err          (* "arithmetic syntax error" *)
| malformed_cond      (* "malformed ?: operator" *)
| exponent_negative   (* "exponent less than 0" *)
| divide_by_zero      (* "divide by zero" *)
| recursion_loop.     (* "expression recursion loop detected" *)

(** What a shell provides through the [lookupvar] and [setvar] hooks. *)
Class ShellVars (W : Type) := {
  lookupvar : W -> list Z -> option (list Z);
  setvar : W -> list Z -> list Z -> W
}.

(** What the evaluator relies on: a variable reads back as it was last set,
    and setting one leaves the others alone. *)
Class ShellVarsLaws (W : Type) `{ShellVars W} := {
  lookup_set_eq : forall w name v, lookupvar (setvar w name v) name = Some v;
  lookup_set_ne : forall w name name' v,
    name <> name' -> lookupvar (setvar w name v) name' = lookupvar w name'
}.

(** The text of the variable name at the head of [s]. *)
Definition name_text (s : list Z) : list Z :=
  firstn (List.length s - List.length (endofname s)) s.

(** ** Applying an operator *)

(** The shift count of a 64-bit shift instruction is taken modulo 64. *)
Definition shift_count (n : Z) : Z := n mod 64.

(** The exponentiation loop; [fuel] counts its iterations. *)
Fixpoint exp_loop (fuel : nat) (c rez right_side_val : Z) : Z :=
  match fuel with
  | O => c
  | S fuel =>
      if right_side_val =? 0 then c
      else
        let '(rez, right_side_val) :=
          if Z.land right_side_val 1 =? 0
          then (s64 (rez * rez), Z.shiftr right_side_val 1)
          else (rez, right_side_val) in
        exp_loop fuel (s64 (c * rez)) rez (right_side_val - 1)
  end.

(** Each pair of iterations at least halves a non-negative 64-bit exponent. *)
Definition exp_fuel : nat := 130.

(** The value of a binary operator, or the error it reports. *)
Definition binary_op (op rez right_side_val : Z) : Z + arith_err :=
  if (op =? TOK_BOR) || (op =? TOK_OR_ASSIGN) then inl (Z.lor rez right_side_val)
  else if op =? TOK_OR then
    inl (b2z (negb (right_side_val =? 0) || negb (rez =? 0)))
  else if (op =? TOK_BAND) || (op =? TOK_AND_ASSIGN) then inl (Z.land rez right_side_val)
  else if (op =? TOK_BXOR) || (op =? TOK_XOR_ASSIGN) then inl (Z.lxor rez right_side_val)
  else if op =? TOK_AND then
    inl (b2z (negb (rez =? 0) && negb (right_side_val =? 0)))
  else if op =? TOK_EQ then inl (b2z (rez =? right_side_val))
  else if op =? TOK_NE then inl (b2z (negb (rez =? right_side_val)))
  else if op =? TOK_GE then inl (b2z (right_side_val <=? rez))
  else if (op =? TOK_RSHIFT) || (op =? TOK_RSHIFT_ASSIGN) then
    inl (Z.shiftr rez (shift_count right_side_val))
  else if (op =? TOK_LSHIFT) || (op =? TOK_LSHIFT_ASSIGN) then
    inl (s64 (Z.shiftl rez (shift_count right_side_val)))
  else if op =? TOK_GT then inl (b2z (right_side_val <? rez))
  else if op =? TOK_LT then inl (b2z (rez <? right_side_val))
  else if op =? TOK_LE then inl (b2z (rez <=? right_side_val))
  else if (op =? TOK_MUL) || (op =? TOK_MUL_ASSIGN) then inl (s64 (rez * right_side_val))
  else if (op =? TOK_ADD) || (op =? TOK_ADD_ASSIGN) then inl (s64 (rez + right_side_val))
  else if (op =? TOK_SUB) || (op =? TOK_SUB_ASSIGN) then inl (s64 (rez - right_side_val))
  else if (op =? TOK_ASSIGN) || (op =? TOK_COMMA) then inl right_side_val
  else if op =? TOK_EXPONENT then
    if right_side_val <? 0 then inr exponent_negative
    else inl (exp_loop exp_fuel 1 rez right_side_val)
  else
    if right_side_val =? 0 then inr divide_by_zero
    else
      let right_side_val :=
        if (right_side_val =? -1) && (s64 (Z.shiftl rez 1) =? 0) then 1 else right_side_val in
      if negb (Z.land op (Z.shiftl DIV_ID1 5) =? 0)
      then inl (Z.quot rez right_side_val)
      else inl (Z.rem rez right_side_val).

(** [sprintf(buf, "%lld", rez)] *)
Fixpoint digits (fuel : nat) (n : Z) (acc : list Z) : list Z :=
  match fuel with
  | O => acc
  | S fuel =>
      let acc := (chr "0" + n mod 10) :: acc in
      if n / 10 =? 0 then acc else digits fuel (n / 10) acc
  end.

Definition print_arith_t (rez : Z) : list Z :=
  if rez <? 0 then chr "-" :: digits 20 (- rez) [] else digits 20 rez [].

(** ** The lexer *)

(** [op_tokens]: "longest must be first". *)
Definition op_tokens : list (list Z * Z) :=
  map (fun '(s, t) => (bytes_of s, t))
  [ ("<<=", TOK_LSHIFT_ASSIGN); (">>=", TOK_RSHIFT_ASSIGN); ("<<", TOK_LSHIFT);
    (">>", TOK_RSHIFT); ("||", TOK_OR); ("&&", TOK_AND); ("!=", TOK_NE);
    ("<=", TOK_LE); (">=", TOK_GE); ("==", TOK_EQ); ("|=", TOK_OR_ASSIGN);
    ("&=", TOK_AND_ASSIGN); ("*=", TOK_MUL_ASSIGN); ("/=", TOK_DIV_ASSIGN);
    ("%=", TOK_REM_ASSIGN); ("+=", TOK_ADD_ASSIGN); ("-=", TOK_SUB_ASSIGN);
    ("--", TOK_POST_DEC); ("^=", TOK_XOR_ASSIGN); ("++", TOK_POST_INC);
    ("**", TOK_EXPONENT); ("!", TOK_NOT); ("<", TOK_LT); (">", TOK_GT);
    ("=", TOK_ASSIGN); ("|", TOK_BOR); ("&", TOK_BAND); ("*", TOK_MUL);
    ("/", TOK_DIV); ("%", TOK_REM); ("+", TOK_ADD); ("-", TOK_SUB);
    ("^", TOK_BXOR); ("~", TOK_BNOT); (",", TOK_COMMA); ("?", TOK_CONDITIONAL);
    (":", TOK_CONDITIONAL_SEP); (")", TOK_RPAREN); ("(", TOK_LPAREN) ]%string.

(** The text after [p] when [e] starts with [p]. *)
Fixpoint strip_prefix (p e : list Z) : option (list Z) :=
  match p, e with
  | [], _ => Some e
  | x :: p, y :: e => if x =? y then strip_prefix p e else None
  | _ :: _, [] => None
  end.

(** The scan of [op_tokens] for the operator at the head of the text. *)
Fixpoint find_op (tokens : list (list Z * Z)) (expr : list Z) : option (Z * list Z) :=
  match tokens with
  | [] => None
  | (p, t) :: tokens =>
      match strip_prefix p expr with
      | Some e => Some (t, e)
      | None => find_op tokens expr
      end
  end.

(** The digit a character stands for in [base], [None] where the loop of
    [parse_with_base] stops. *)
Definition digit_value (ch base : Z) : option Z :=
  let digit := u32 (ch - chr "0") in
  let digit :=
    if (10 <=? digit) && (digit <=? chr "z" - chr "0") then
      let digit := u32 (Z.lor ch 32 - (chr "a" - 10)) in
      let digit :=
        if (36 <? base) && (ch <=? chr "_") then
          if ch =? chr "_" then Some 63
          else if ch =? chr "@" then Some 62
          else if digit <? 36 then Some (digit + (36 - 10))
          else None
        else Some digit in
      match digit with
      | Some digit => if digit <? 10 then None else Some digit
      | None => None
      end
    else Some digit in
  match digit with
  | Some digit => if base <=? digit then None else Some digit
  | None => None
  end.

Fixpoint parse_digits (n : Z) (nptr : list Z) (base : Z) : Z * list Z :=
  match nptr with
  | [] => (n, nptr)
  | ch :: rest =>
      match digit_value ch base with
      | Some digit => parse_digits (s64 (n * base + digit)) rest base
      | None => (n, nptr)
      end
  end.

(** [parse_with_base]: the value and the end pointer, [None] for NULL.
    [before] is the character before the number, [start[-1]]. *)
Definition parse_with_base (before : Z) (nptr : list Z) (base : Z)
  : Z * option (list Z) :=
  let '(n, endptr) := parse_digits 0 nptr base in
  if (Nat.eqb (List.length endptr) (List.length nptr))
     && (negb (base =? 16) || negb (Z.lor before 32 =? chr "x"))
  then (n, None)
  else (n, Some endptr).

Definition strto_arith_t (nptr : list Z) : Z * option (list Z) :=
  let base := u32 (char_at 0 nptr - chr "0") in
  if base =? 0 then
    if Z.lor (char_at 1 nptr) 32 =? chr "x"
    then parse_with_base (char_at 1 nptr) (skipn 2 nptr) 16
    else parse_with_base 0 nptr 8
  else if (char_at 1 nptr =? chr "#") && (1 <? base) then
    parse_with_base (char_at 1 nptr) (skipn 2 nptr) base
  else if isdigit (char_at 1 nptr) && (char_at 2 nptr =? chr "#")
          && (10 * base + (char_at 1 nptr - chr "0") <=? 64) then
    parse_with_base (char_at 2 nptr) (skipn 3 nptr) (10 * base + (char_at 1 nptr - chr "0"))
  else parse_with_base 0 nptr 10.

(** The size estimate at the start of [evaluate_string]: the length of the
    text with each run of white space counted as one character. *)
Fixpoint expr_len_from (in_space : bool) (p : list Z) : Z :=
  match p with
  | [] => 0
  | ch :: p =>
      if isspace ch
      then (if in_space then 0 else 1) + expr_len_from true p
      else 1 + expr_len_from false p
  end.
Definition expr_len (expr : list Z) : Z := expr_len_from false expr.

(** Slots allocated for the operator and the value stack. *)
Definition opstack_size (expr : list Z) : Z := expr_len expr + 1.
Definition numstack_size (expr : list Z) : Z := (expr_len expr + 1) / 2 + 1.

Section Evaluator.
Context {W : Type} `{ShellVars W}.

(** The shell store and the fields of [arith_state_t] ([errmsg] is the error
    result of the functions below). *)
Record math_state_t := mk_ms {
  world : W;
  evaluation_disabled : Z;
  list_of_recursed_names : list (list Z)
}.

Definition set_world (ms : math_state_t) (w : W) : math_state_t :=
  mk_ms w (evaluation_disabled ms) (list_of_recursed_names ms).
Definition set_disabled (ms : math_state_t) (d : Z) : math_state_t :=
  mk_ms (world ms) d (list_of_recursed_names ms).
Definition set_names (ms : math_state_t) (l : list (list Z)) : math_state_t :=
  mk_ms (world ms) (evaluation_disabled ms) l.

(** The code after the operator's value is known: suppress it in a disabled
    branch, store it to a variable, leave it on the stack. [top] is the slot
    the result goes to, [below] the rest of the stack. *)
Definition store_result (ms : math_state_t) (op rez : Z)
    (top : var_or_num_t) (below : list var_or_num_t)
  : (math_state_t * list var_or_num_t) + arith_err :=
  if negb (evaluation_disabled ms =? 0) then inl (ms, top :: below)
  else if is_assign_op op then
    match var_name top with
    | None => inr syntax_err
    | Some name =>
        let ms := set_world ms (setvar (world ms) (name_text name) (print_arith_t rez)) in
        if PREC op =? PREC_POST then inl (ms, mk_von (val top) None :: below)
        else inl (ms, mk_von rez None :: below)
    end
  else inl (ms, mk_von rez None :: below).

(** [arith_apply]: the value stack is a list with its top first. *)
Definition arith_apply (ms : math_state_t) (op : Z) (numstack : list var_or_num_t)
  : (math_state_t * list var_or_num_t) + arith_err :=
  match numstack with
  | [] => inr syntax_err
  | top_of_stack :: below =>
      if op =? TOK_CONDITIONAL_SEP then
        match below with
        | expr2 :: expr1 :: below =>
            let rez := if negb (val expr1 =? 0) then val expr2 else val top_of_stack in
            inl (ms, mk_von rez None :: below)
        | _ => inr malformed_cond
        end
      else if op =? TOK_CONDITIONAL then inr malformed_cond
      else
        let rez := val top_of_stack in
        if op =? TOK_UMINUS then store_result ms op (s64 (- rez)) top_of_stack below
        else if op =? TOK_NOT then store_result ms op (b2z (rez =? 0)) top_of_stack below
        else if op =? TOK_BNOT then store_result ms op (Z.lnot rez) top_of_stack below
        else if (op =? TOK_POST_INC) || (op =? TOK_PRE_INC) then
          store_result ms op (s64 (rez + 1)) top_of_stack below
        else if (op =? TOK_POST_DEC) || (op =? TOK_PRE_DEC) then
          store_result ms op (s64 (rez - 1)) top_of_stack below
        else
          match below with
          | [] => inr syntax_err
          | left_side :: below' =>
              if negb (evaluation_disabled ms =? 0) then inl (ms, below)
              else
                match binary_op op (val left_side) rez with
                | inr e => inr e
                | inl rez => store_result ms op rez left_side below'
                end
          end
  end.

(** ** The main loop *)

(** Where [expr] points: into the expression text, or at [END_POINTER]. *)
Inductive ptr : Type :=
| InExpr (s : list Z)
| END_POINTER.

(** The locals of [evaluate_string]; both stacks have their top first. *)
Record ev_state := mk_ev {
  ms : math_state_t;
  numstack : list var_or_num_t;
  opstack : list Z;
  lasttok : Z;
  ternary_level : Z;
  expr : ptr
}.

(** An access outside the memory the stacks were given. *)
Inductive oob : Set :=
| opstack_overflow | opstack_underflow | numstack_overflow | numstack_underflow.

Inductive outcome : Type :=
| Returned (ms : math_state_t) (v : Z)
| Failed (ms : math_state_t) (e : arith_err)
| Out_of_bounds (o : oob)
| No_fuel.

(** How the loop that pops operators ends: at the matching parenthesis
    ([goto next]), with [op] still to be pushed ([check_cond]), or by leaving
    the function. *)
Inductive popped : Type :=
| Pop_paren (ms : math_state_t) (ns : list var_or_num_t) (ops : list Z) (tl : Z)
| Pop_check (ms : math_state_t) (ns : list var_or_num_t) (ops : list Z) (tl : Z)
| Pop_exit (o : outcome).

Fixpoint pop_ops (op prec : Z) (ops : list Z) (ms : math_state_t)
    (ns : list var_or_num_t) (tl : Z) : popped :=
  match ops with
  | [] => if op =? TOK_RPAREN then Pop_exit (Failed ms syntax_err) else Pop_check ms ns [] tl
  | prev_op :: ops' =>
      let prev_prec := fix_assignment_prec (PREC prev_op) in
      let prec := fix_assignment_prec prec in
      if (op =? TOK_RPAREN) && (prev_op =? TOK_LPAREN) then
        match ns with
        | [] => Pop_exit (Out_of_bounds numstack_underflow)
        | x :: ns => Pop_paren ms (mk_von (val x) None :: ns) ops' tl
        end
      else if negb (op =? TOK_RPAREN)
              && ((prev_prec <? prec)
                  || ((prev_prec =? prec) && is_right_associative prec)) then
        Pop_check ms ns ops tl
      else
        match arith_apply ms prev_op ns with
        | inr e => Pop_exit (Failed ms e)
        | inl (ms, ns) =>
            if prev_op =? TOK_CONDITIONAL_SEP then
              match ops' with
              | [] => Pop_exit (Out_of_bounds opstack_underflow)
              | cond :: ops'' =>
                  if negb (cond =? TOK_CONDITIONAL) then Pop_exit (Failed ms malformed_cond)
                  else
                    let ms :=
                      if tl =? evaluation_disabled ms then set_disabled ms 0 else ms in
                    pop_ops op prec ops'' ms ns (u32 (tl - 1))
              end
            else pop_ops op prec ops' ms ns tl
        end
  end.

(** What handling one operator token leads to. [Tok_continue]: unary plus is
    dropped; [Tok_next]: the code after the label [next]. *)
Inductive tok_result : Type :=
| Tok_continue (st : ev_state)
| Tok_next (st : ev_state)
| Tok_exit (o : outcome).

(** From [tok_found1] to the push of the operator. *)
Definition push_op (opsize : Z) (st : ev_state) (op : Z) : tok_result :=
  if Z.of_nat (List.length (opstack st)) <? opsize then
    Tok_next (mk_ev (ms st) (numstack st) (op :: opstack st) op (ternary_level st) (expr st))
  else Tok_exit (Out_of_bounds opstack_overflow).

Definition unary_form (lasttok op : Z) : option Z :=
  if lasttok =? TOK_VALUE then Some op
  else if op =? TOK_ADD then None
  else if op =? TOK_SUB then Some TOK_UMINUS
  else if op =? TOK_POST_INC then Some TOK_PRE_INC
  else if op =? TOK_POST_DEC then Some TOK_PRE_DEC
  else Some op.

Definition check_cond (opsize : Z) (st : ev_state) (op : Z) : tok_result :=
  if op =? TOK_CONDITIONAL then
    let tl := u32 (ternary_level st + 1) in
    match numstack st with
    | [] => Tok_exit (Out_of_bounds numstack_underflow)
    | x :: _ =>
        let ms :=
          if (val x =? 0) && (evaluation_disabled (ms st) =? 0)
          then set_disabled (ms st) tl else ms st in
        push_op opsize (mk_ev ms (numstack st) (opstack st) (lasttok st) tl (expr st)) op
    end
  else push_op opsize st op.

Definition tok_found1 (opsize : Z) (st : ev_state) (op : Z) : tok_result :=
  let lasttok := if PREC (lasttok st) =? PREC_POST then TOK_VALUE else lasttok st in
  match unary_form lasttok op with
  | None => Tok_continue (mk_ev (ms st) (numstack st) (opstack st) lasttok
                                (ternary_level st) (expr st))
  | Some op =>
      let prec := PREC op in
      if negb (prec =? PREC_LPAREN) && (prec <? UNARYPREC) then
        if negb (lasttok =? TOK_VALUE) then Tok_exit (Failed (ms st) syntax_err)
        else
          match pop_ops op prec (opstack st) (ms st) (numstack st) (ternary_level st) with
          | Pop_exit o => Tok_exit o
          | Pop_paren ms ns ops tl => Tok_next (mk_ev ms ns ops TOK_VALUE tl (expr st))
          | Pop_check ms ns ops tl =>
              check_cond opsize (mk_ev ms ns ops lasttok tl (expr st)) op
          end
      else push_op opsize st op
  end.

(** The toggle of the "do not evaluate" state when ":" is reached. *)
Definition toggle_disabled (st : ev_state) : ev_state :=
  let ms := ms st in
  let ms :=
    if evaluation_disabled ms =? 0 then set_disabled ms (ternary_level st)
    else if ternary_level st =? evaluation_disabled ms then set_disabled ms 0
    else ms in
  mk_ev ms (numstack st) (opstack st) (lasttok st) (ternary_level st) (expr st).

Inductive step_result : Type :=
| Continue (st : ev_state)
| Exit (o : outcome).

Definition no_insert (r : tok_result) : step_result :=
  match r with
  | Tok_continue st | Tok_next st => Continue st
  | Tok_exit o => Exit o
  end.

(** From [tok_found]: the operator [op] was read. "?" is followed by an
    inserted "(", and ":" is preceded by the inserted ")". *)
Definition tok_found (opsize : Z) (st : ev_state) (op : Z) : step_result :=
  if op =? TOK_CONDITIONAL then
    match tok_found1 opsize st op with
    | Tok_next st => no_insert (tok_found1 opsize st TOK_LPAREN)
    | r => no_insert r
    end
  else if op =? TOK_CONDITIONAL_SEP then
    match tok_found1 opsize st TOK_RPAREN with
    | Tok_next st => no_insert (tok_found1 opsize (toggle_disabled st) TOK_CONDITIONAL_SEP)
    | r => no_insert r
    end
  else no_insert (tok_found1 opsize st op).

Definition push_value (st : ev_state) (ms : math_state_t)
    (x : var_or_num_t) (rest : list Z) : step_result :=
  Continue (mk_ev ms (x :: numstack st) (opstack st) TOK_VALUE (ternary_level st)
                  (InExpr rest)).

(** "VAR++", "++VAR": is the doubled sign at the head of the text not such an
    operator but two signs? *)
Definition not_incdec (ns : list var_or_num_t) (expr : list Z) : bool :=
  match expr with
  | c0 :: c1 :: rest =>
      ((c0 =? chr "+") || (c0 =? chr "-")) && (c1 =? c0)
      && match ns with
         | [] => true
         | x :: _ => match var_name x with None => true | Some _ => false end
         end
      && negb (let next := char_at 0 (skip_whitespace rest) in
               isalpha next || (next =? chr "_"))
  | _ => false
  end.

Section Step.
(** Bytes allocated for the stacks, the recursive evaluation of a variable,
    and what an unwritten slot of the value stack holds (it is read before it
    is written by "++v=1"), keyed by the text left where it is read. *)
Variables (opsize numsize : Z).
Variable lookup : math_state_t -> list Z -> outcome.
Variable uninit : list Z -> Z.

(** A variable name at the head of the text. *)
Definition step_name (st : ev_state) (s : list Z) : step_result :=
  if numsize <=? Z.of_nat (List.length (numstack st)) then Exit (Out_of_bounds numstack_overflow)
  else
    let p := endofname s in
    if evaluation_disabled (ms st) =? 0 then
      let rest := skip_whitespace p in
      if negb (char_at 0 rest =? chr "=") || (char_at 1 rest =? chr "=") then
        match lookup (ms st) s with
        | Returned ms v => push_value st ms (mk_von v (Some s)) rest
        | o => Exit o
        end
      else push_value st (ms st) (mk_von (uninit rest) (Some s)) rest
    else push_value st (ms st) (mk_von 0 None) p.

(** A number at the head of the text. *)
Definition step_number (st : ev_state) (s : list Z) : step_result :=
  if numsize <=? Z.of_nat (List.length (numstack st)) then Exit (Out_of_bounds numstack_overflow)
  else
    match strto_arith_t s with
    | (_, None) => Exit (Failed (ms st) syntax_err)
    | (v, Some rest) =>
        if isalnum (char_at 0 rest) || (char_at 0 rest =? chr "_")
        then Exit (Failed (ms st) syntax_err)
        else push_value st (ms st) (mk_von v None) rest
    end.

(** An operator at the head of the text. *)
Definition step_op (st : ev_state) (s : list Z) : step_result :=
  let at_ rest := mk_ev (ms st) (numstack st) (opstack st) (lasttok st)
                        (ternary_level st) (InExpr rest) in
  if not_incdec (numstack st) s then
    no_insert (tok_found1 opsize (at_ (skipn 1 s))
                 (if char_at 0 s =? chr "+" then TOK_ADD else TOK_SUB))
  else
    match find_op op_tokens s with
    | None => Exit (Failed (ms st) syntax_err)
    | Some (op, rest) => tok_found opsize (at_ rest) op
    end.

(** One iteration of [while (1)]. [start] is the length of [start_expr]. *)
Definition ev_step (start : nat) (st : ev_state) : step_result :=
  match expr st with
  | END_POINTER =>
      match numstack st with
      | [x] => Exit (Returned (ms st) (val x))
      | _ => Exit (Failed (ms st) syntax_err)
      end
  | InExpr s =>
      match skip_whitespace s with
      | [] =>
          if Nat.eqb start 0 then Exit (Returned (ms st) 0)
          else
            no_insert (tok_found1 opsize
              (mk_ev (ms st) (numstack st) (opstack st) (lasttok st) (ternary_level st)
                     END_POINTER) TOK_RPAREN)
      | (ch :: _) as s =>
          if is_name ch then step_name st s
          else if isdigit ch then step_number st s
          else step_op st s
      end
  end.

(** [fuel] bounds the iterations. *)
Fixpoint ev_loop (fuel : nat) (start : nat) (st : ev_state) : outcome :=
  match fuel with
  | O => No_fuel
  | S fuel =>
      match ev_step start st with
      | Exit o => o
      | Continue st => ev_loop fuel start st
      end
  end.
End Step.

(** ** Recursion through variables *)

Definition isalnum_ (c : Z) : bool := isalnum c || (c =? chr "_").

Fixpoint list_eqb (a b : list Z) : bool :=
  match a, b with
  | [], [] => true
  | x :: a, y :: b => (x =? y) && list_eqb a b
  | _, _ => false
  end.

(** Is [name] the remembered name [cur]? *)
Definition same_name (name cur : list Z) : bool :=
  let len := List.length (name_text name) in
  list_eqb (firstn len cur) (firstn len name) && negb (isalnum_ (char_at len cur)).

Definition arith_lookup_val (evaluate_string : math_state_t -> list Z -> outcome)
    (ms : math_state_t) (name : list Z) : outcome :=
  match lookupvar (world ms) (name_text name) with
  | Some p =>
      if existsb (same_name name) (list_of_recursed_names ms) then Failed ms recursion_loop
      else
        match evaluate_string (set_names ms (name :: list_of_recursed_names ms)) p with
        | Returned ms' v => Returned (set_names ms' (list_of_recursed_names ms)) v
        | Failed ms' e => Failed (set_names ms' (list_of_recursed_names ms)) e
        | o => o
        end
  | None => Returned ms 0
  end.

(** One iteration per character, one to append the closing parenthesis and
    one to return. *)
Definition ev_fuel (expr : list Z) : nat := List.length expr + 3.

(** [depth] bounds the nesting of variable evaluations. *)
Fixpoint evaluate_string (uninit : list Z -> Z) (depth : nat) (ms : math_state_t)
    (expr : list Z) : outcome :=
  match depth with
  | O => No_fuel
  | S depth =>
      let expr := skip_whitespace expr in
      ev_loop (opstack_size expr) (numstack_size expr)
              (arith_lookup_val (evaluate_string uninit depth)) uninit
              (ev_fuel expr) (List.length expr)
              (mk_ev ms [] [TOK_LPAREN] TOK_LPAREN 0 (InExpr expr))
  end.

(** [arith]: the entry point of the shells. *)
Definition arith (uninit : list Z -> Z) (depth : nat) (w : W) (expr : list Z) : outcome :=
  evaluate_string uninit depth (mk_ms w 0 []) expr.
End Evaluator.
Arguments math_state_t W : clear implicits.
Arguments outcome W : clear implicits.
Arguments ev_state W : clear implicits.

(** ** A concrete shell store: an association list *)

Definition vars := list (list Z * list Z).
Fixpoint vars_lookup (w : vars) (name : list Z) : option (list Z) :=
  match w with
  | [] => None
  | (n, v) :: w => if list_eqb n name then Some v else vars_lookup w name
  end.

Lemma list_eqb_spec a b : list_eqb a b = true <-> a = b.
Proof.
  revert b; induction a as [|x a IH]; intros [|y b]; simpl; try (intuition congruence).
  rewrite andb_true_iff, Z.eqb_eq, IH. intuition congruence.
Qed.

#[export] Instance vars_shell : ShellVars vars := {|
  lookupvar := vars_lookup;
  setvar w name v := (name, v) :: w
|}.

#[export] Instance vars_shell_laws : ShellVarsLaws vars.
Proof.
  split; intros; cbn [lookupvar setvar vars_shell vars_lookup].
  - rewrite (proj2 (list_eqb_spec name name) eq_refl). reflexivity.
  - destruct (list_eqb name name') eqn:E; [|reflexivity].
    apply list_eqb_spec in E. contradiction.
Qed.
