(* ===== verification/ShMathSafety.v ===== *)
(** * Memory safety and termination of the arithmetic evaluator

    [evaluate_string] sizes its two stacks once, from the length of the text.
    This file proves that the estimate is enough for every text, correct or
    not, that the value stack is never read below its base, that the main loop
    needs no more iterations than characters (plus the closing steps), and it
    exhibits the one text shape that reads below the operator stack. *)

From Stdlib Require Import Ascii String ZArith List Lia Bool Wf_nat.
From S2P Require Import Prelude Ctype ShMath.
Import ListNotations.
Local Open Scope Z_scope.

(** ** The length estimate *)

Lemma expr_len_from_bounds b s :
  0 <= expr_len_from b s <= Z.of_nat (length s)
  /\ expr_len_from true s <= expr_len_from false s <= expr_len_from true s + 1.
Proof.
  revert b; induction s as [|ch s IH]; intros b; cbn [expr_len_from length]; [lia|].
  destruct (IH true) as [? ?], (IH false) as [? ?]. destruct (isspace ch), b; lia.
Qed.

Lemma expr_len_nonneg s : 0 <= expr_len s.
Proof. apply (expr_len_from_bounds false s). Qed.

Lemma expr_len_cons_le ch s : expr_len s <= expr_len (ch :: s).
Proof.
  unfold expr_len; cbn [expr_len_from].
  pose proof (expr_len_from_bounds true s). pose proof (expr_len_from_bounds false s).
  destruct (isspace ch); lia.
Qed.

Lemma expr_len_cons ch s : isspace ch = false -> expr_len (ch :: s) = 1 + expr_len s.
Proof. unfold expr_len; cbn [expr_len_from]; intros ->; reflexivity. Qed.

Lemma expr_len_suffix a b : suffix a b -> expr_len a <= expr_len b.
Proof. induction 1; [lia|]. pose proof (expr_len_cons_le x t). lia. Qed.

Lemma skip_whitespace_head ch s :
  skip_whitespace (ch :: s) = if isspace ch then skip_whitespace s else ch :: s.
Proof. rewrite isspace_alt. reflexivity. Qed.

Lemma skip_whitespace_from s : expr_len (skip_whitespace s) <= expr_len_from true s.
Proof.
  induction s as [|ch s IH]; [reflexivity|]. rewrite skip_whitespace_head.
  destruct (isspace ch) eqn:E; unfold expr_len; cbn [expr_len_from]; rewrite E;
    [exact IH|lia].
Qed.

(** Skipping white space pays one unit whenever it moves. *)
Lemma skip_whitespace_pays s :
  skip_whitespace s = s \/ 1 + expr_len (skip_whitespace s) <= expr_len s.
Proof.
  destruct s as [|ch s]; [left; reflexivity|]. rewrite skip_whitespace_head.
  destruct (isspace ch) eqn:E; [right|left; reflexivity].
  unfold expr_len at 2; cbn [expr_len_from]. rewrite E.
  pose proof (skip_whitespace_from s). lia.
Qed.

Lemma skip_whitespace_nonspace s ch t :
  skip_whitespace s = ch :: t -> isspace ch = false.
Proof.
  induction s as [|x s IH]; [discriminate|]. rewrite skip_whitespace_head.
  destruct (isspace x) eqn:E; [exact IH|]. intros [= <- _]; exact E.
Qed.

(** ** The lexer makes progress *)

Lemma strip_prefix_suffix p e r : strip_prefix p e = Some r -> suffix r e.
Proof.
  revert e; induction p as [|x p IH]; intros [|y e]; simpl; intros Hs;
    try congruence; try (injection Hs as <-; constructor).
  destruct (x =? y); [constructor; auto|discriminate].
Qed.

Lemma strip_prefix_progress x p ch e r :
  strip_prefix (x :: p) (ch :: e) = Some r -> suffix r e.
Proof. simpl. destruct (x =? ch); [apply strip_prefix_suffix|discriminate]. Qed.

Lemma find_op_progress op ch s r :
  find_op op_tokens (ch :: s) = Some (op, r) -> suffix r s.
Proof.
  assert (Hne : Forall (fun pt : list Z * Z => fst pt <> []) op_tokens)
    by (repeat constructor; discriminate).
  revert Hne. generalize op_tokens as tokens.
  induction tokens as [|[p t] tokens IH]; [discriminate|]. intros Hne Hf.
  inversion Hne as [|? ? Hp Hne']; subst. destruct p as [|x p]; [contradiction|].
  cbn [find_op] in Hf. destruct (strip_prefix _ _) as [r'|] eqn:E; [|auto].
  injection Hf as _ <-. eapply strip_prefix_progress; eauto.
Qed.

Lemma parse_digits_suffix base s n : suffix (snd (parse_digits n s base)) s.
Proof.
  revert n; induction s as [|ch s IH]; intros n; simpl; [constructor|].
  destruct (digit_value ch base); simpl; auto with bbox.
Qed.

Lemma parse_with_base_suffix before s base v r :
  parse_with_base before s base = (v, Some r) -> suffix r s.
Proof.
  unfold parse_with_base. pose proof (parse_digits_suffix base s 0) as Hs.
  destruct (parse_digits 0 s base) as [n r']. destruct (_ && _); [discriminate|].
  intros [= _ <-]. exact Hs.
Qed.

(** Where no character is dropped before the digits, at least one digit is
    consumed: an empty number in a base other than 16 is an error. *)
Lemma parse_with_base_progress before ch s base v r :
  base <> 16 -> parse_with_base before (ch :: s) base = (v, Some r) -> suffix r s.
Proof.
  intros Hb. unfold parse_with_base. cbn [parse_digits].
  destruct (digit_value ch base) as [d|].
  - pose proof (parse_digits_suffix base s (s64 (0 * base + d))) as Hs.
    destruct (parse_digits _ s base) as [n r']. destruct (_ && _); [discriminate|].
    intros [= _ <-]. exact Hs.
  - rewrite Nat.eqb_refl. destruct (Z.eqb_spec base 16); [contradiction|]. discriminate.
Qed.

Lemma skipn_S_suffix n ch (s : list Z) : suffix (skipn (S n) (ch :: s)) s.
Proof. simpl; apply suffix_skipn. Qed.

Lemma strto_arith_t_progress ch s v r :
  strto_arith_t (ch :: s) = (v, Some r) -> suffix r s.
Proof.
  unfold strto_arith_t. cbv zeta.
  repeat match goal with
  | |- (if ?b then _ else _) = _ -> _ => destruct b
  | |- parse_with_base _ (skipn (S ?n) _) _ = _ -> _ =>
      let Hp := fresh in
      intros Hp%parse_with_base_suffix;
      exact (suffix_trans _ _ _ Hp (skipn_S_suffix n ch s))
  end; apply parse_with_base_progress; lia.
Qed.

(** ** The invariant of the main loop *)

Section Safety.
Context {W : Type} `{ShellVars W}.

(** A property of outcomes that every way of leaving the function has, an
    overflow of a stack and a read below the value stack excepted. *)
Variable P : outcome W -> Prop.
(** An invariant of the caller's state that the loop keeps. *)
Variable Q : math_state_t W -> Prop.
Hypothesis Q_disabled : forall m d, Q m -> Q (set_disabled m d).
Hypothesis Q_store : forall m name v,
  Q m -> Q (set_world m (setvar (world m) name (print_arith_t v))).
Hypothesis P_returned : forall m v, Q m -> P (Returned m v).
Hypothesis P_failed : forall m e, P (Failed m e).
Hypothesis P_underflow : P (Out_of_bounds opstack_underflow).

Lemma store_result_shape (m m' : math_state_t W) op rez top below ns :
  Q m -> store_result m op rez top below = inl (m', ns) ->
  Q m' /\ length ns = S (length below).
Proof.
  intros Hq. unfold store_result.
  repeat case_match; intros Hs; inversion Hs; subst; auto.
Qed.

(** An applied operator leaves a value, and never a deeper stack. *)
Lemma arith_apply_shape (m m' : math_state_t W) op ns ns' :
  Q m -> arith_apply m op ns = inl (m', ns') ->
  Q m' /\ ns' <> [] /\ (length ns' <= length ns)%nat.
Proof.
  intros Hq. destruct ns as [|top below]; [discriminate|]. unfold arith_apply.
  destruct (op =? TOK_CONDITIONAL_SEP).
  { destruct below as [|e2 [|e1 below]]; try discriminate.
    intros [= <- <-]; simpl; repeat split; [auto|discriminate|lia]. }
  destruct (op =? TOK_CONDITIONAL); [discriminate|]. cbv zeta.
  assert (Hst : forall rez x b, store_result m op rez x b = inl (m', ns') ->
            (length b <= length below)%nat ->
            Q m' /\ ns' <> [] /\ (length ns' <= length (top :: below))%nat).
  { intros rez x b Hs Hl. apply store_result_shape in Hs as [Hq' Hs]; [|assumption].
    destruct ns'; [discriminate|]. simpl in *. repeat split; [auto|discriminate|lia]. }
  destruct (op =? TOK_UMINUS); [eauto|]. destruct (op =? TOK_NOT); [eauto|].
  destruct (op =? TOK_BNOT); [eauto|]. destruct (_ || _); [eauto|].
  destruct (_ || _); [eauto|].
  destruct below as [|l below]; [discriminate|].
  destruct (negb _); [intros [= <- <-]; simpl; repeat split; [auto|discriminate|lia]|].
  destruct (binary_op _ _ _); [|discriminate]. intros Hs. eapply Hst; [exact Hs|simpl; lia].
Qed.

(** What popping operators leaves. *)
Definition pop_spec (ns : list var_or_num_t) (ops : list Z) (r : popped) : Prop :=
  match r with
  | Pop_paren m' ns' ops' _ =>
      Q m' /\ ns' <> [] /\ (length ns' <= length ns)%nat /\ (length ops' < length ops)%nat
  | Pop_check m' ns' ops' _ =>
      Q m' /\ ns' <> [] /\ (length ns' <= length ns)%nat /\ (length ops' <= length ops)%nat
  | Pop_exit o => P o
  end.

Lemma pop_spec_weaken ns ns' ops ops' r :
  (length ns' <= length ns)%nat -> (length ops' <= length ops)%nat ->
  pop_spec ns' ops' r -> pop_spec ns ops r.
Proof. destruct r; simpl; intuition lia. Qed.

Lemma pop_ops_shape op prec ops (m : math_state_t W) ns tl :
  Q m -> ns <> [] -> pop_spec ns ops (pop_ops op prec ops m ns tl).
Proof.
  revert prec m ns tl.
  induction ops as [ops IH] using (induction_ltof1 _ (@length Z)).
  unfold ltof in IH. intros prec m ns tl Hq Hns.
  destruct ops as [|prev ops]; cbn [pop_ops].
  { destruct (op =? TOK_RPAREN); [apply P_failed|simpl; auto]. }
  destruct (_ && (prev =? TOK_LPAREN)).
  { destruct ns as [|x ns]; [contradiction|]. simpl. repeat split; [auto|discriminate|lia..]. }
  destruct (negb _ && _); [simpl; auto|].
  destruct (arith_apply m prev ns) as [[m' ns']|e] eqn:Ha; [|apply P_failed].
  apply arith_apply_shape in Ha as (Hq' & Hne & Hle); [|assumption].
  destruct (prev =? TOK_CONDITIONAL_SEP).
  - destruct ops as [|cond ops]; [exact P_underflow|]. destruct (negb _); [apply P_failed|].
    apply (pop_spec_weaken _ ns' _ ops); [assumption|simpl; lia|].
    apply IH; [simpl; lia| |assumption]. destruct (_ =? _); auto.
  - apply (pop_spec_weaken _ ns' _ ops); [assumption|simpl; lia|].
    apply IH; [simpl; lia|assumption..].
Qed.

(** A closing parenthesis is never pushed. *)
Lemma pop_ops_rparen prec ops (m : math_state_t W) ns tl m' ns' ops' tl' :
  pop_ops TOK_RPAREN prec ops m ns tl <> Pop_check m' ns' ops' tl'.
Proof.
  revert prec m ns tl.
  induction ops as [ops IH] using (induction_ltof1 _ (@length Z)).
  unfold ltof in IH. intros prec m ns tl.
  destruct ops as [|prev ops]; cbn [pop_ops]; [discriminate|].
  rewrite Z.eqb_refl. cbn [andb negb].
  destruct (prev =? TOK_LPAREN); [destruct ns; discriminate|].
  destruct (arith_apply m prev ns) as [[m1 ns1]|e]; [|discriminate].
  destruct (prev =? TOK_CONDITIONAL_SEP); [|apply IH; simpl; lia].
  destruct ops as [|cond ops]; [discriminate|]. destruct (negb _); [discriminate|].
  apply IH; simpl; lia.
Qed.

(** The text still to be read. *)
Definition text (e : ptr) : list Z := match e with InExpr s => s | END_POINTER => [] end.

(** 1 when the last token was a value: a "?" may follow, which takes two
    slots of the operator stack for one character. *)
Definition credit (tok : Z) : Z := b2z (PREC tok =? PREC_POST).

(** [T] is the length estimate the stacks were sized with. *)
Record inv (E : list Z) (T : Z) (st : ev_state W) : Prop := {
  inv_ms : Q (ms st);
  inv_text : suffix (text (expr st)) E;
  inv_op : Z.of_nat (length (opstack st)) + expr_len (text (expr st))
           + credit (lasttok st) <= T + 1;
  inv_num : 2 * Z.of_nat (length (numstack st)) + expr_len (text (expr st)) <= T + 1;
  inv_gap : starts is_in_name (text (expr st)) = true ->
            2 * Z.of_nat (length (numstack st)) + expr_len (text (expr st)) <= T;
  inv_val : PREC (lasttok st) = PREC_POST -> numstack st <> []
}.

(** What handling an operator token may do to the state: [k] operators more
    at most, the text untouched. *)
Definition tok_spec (k : Z) (st : ev_state W) (r : tok_result) : Prop :=
  match r with
  | Tok_continue st' | Tok_next st' =>
      Z.of_nat (length (opstack st')) + credit (lasttok st')
        <= Z.of_nat (length (opstack st)) + credit (lasttok st) + k
      /\ (length (numstack st') <= length (numstack st))%nat
      /\ expr st' = expr st
      /\ (PREC (lasttok st') = PREC_POST -> numstack st' <> [])
      /\ Q (ms st')
  | Tok_exit o => P o
  end.

(** Slots an operator token may add, beyond the credit of a value. *)
Definition growth (op : Z) : Z :=
  b2z (negb ((op =? TOK_CONDITIONAL) || (op =? TOK_CONDITIONAL_SEP) || (op =? TOK_RPAREN))).

Lemma growth_bounds op : 0 <= growth op <= 1.
Proof. unfold growth, b2z. destruct (negb _); lia. Qed.

Lemma credit_value : credit TOK_VALUE = 1.
Proof. reflexivity. Qed.

Lemma credit_bounds tok : 0 <= credit tok <= 1.
Proof. unfold credit, b2z. destruct (_ =? _); lia. Qed.

Lemma push_op_spec opsize st st0 op k :
  Q (ms st) -> expr st = expr st0 ->
  (length (numstack st) <= length (numstack st0))%nat ->
  Z.of_nat (length (opstack st)) + 1 <= opsize ->
  Z.of_nat (length (opstack st)) + 1 + credit op
    <= Z.of_nat (length (opstack st0)) + credit (lasttok st0) + k ->
  (PREC op = PREC_POST -> numstack st <> []) ->
  tok_spec k st0 (push_op opsize st op).
Proof.
  intros Hq He Hn Ho Hk Hv. unfold push_op. destruct (Z.ltb_spec (Z.of_nat (length (opstack st))) opsize).
  - cbn [tok_spec opstack lasttok numstack expr ms length]. repeat split; auto; lia.
  - lia.
Qed.

(** The operators of the table that can follow a value as its postfix. *)
Definition post_op (op : Z) : Prop :=
  PREC op = PREC_POST -> op = TOK_POST_INC \/ op = TOK_POST_DEC.

Lemma unary_form_post tok op op' :
  post_op op -> unary_form tok op = Some op' -> PREC op' = PREC_POST -> tok = TOK_VALUE.
Proof.
  unfold post_op, unary_form. destruct (Z.eqb_spec tok TOK_VALUE); auto.
  intros Hp. destruct (op =? TOK_ADD); [discriminate|].
  destruct (op =? TOK_SUB); [intros [= <-]; discriminate|].
  destruct (Z.eqb_spec op TOK_POST_INC); [intros [= <-]; discriminate|].
  destruct (Z.eqb_spec op TOK_POST_DEC); [intros [= <-]; discriminate|].
  intros [= <-] Hc. destruct (Hp Hc); contradiction.
Qed.

(** The growth of a token is one slot, and none for a token that is always
    binary. *)
Lemma unary_form_growth tok op op' :
  unary_form tok op = Some op' ->
  growth op = 1 \/ (growth op = 0 /\ op' = op /\ credit op = 0
                    /\ negb (PREC op =? PREC_LPAREN) && (PREC op <? UNARYPREC) = true).
Proof.
  unfold growth, unary_form.
  destruct (Z.eqb_spec op TOK_CONDITIONAL) as [->|];
    [|destruct (Z.eqb_spec op TOK_CONDITIONAL_SEP) as [->|];
      [|destruct (Z.eqb_spec op TOK_RPAREN) as [->|]; [|left; reflexivity]]];
    intros Hu; right; (split; [reflexivity|]); (split; [|split; reflexivity]);
    destruct (tok =? TOK_VALUE); now injection Hu as <-.
Qed.

Lemma tok_found1_spec opsize st op :
  post_op op -> Q (ms st) ->
  (PREC (lasttok st) = PREC_POST -> numstack st <> []) ->
  (op = TOK_RPAREN \/ Z.of_nat (length (opstack st)) + credit (lasttok st) + 1 <= opsize) ->
  tok_spec (growth op) st (tok_found1 opsize st op).
Proof.
  intros Hpost Hq Hv Hroom. unfold tok_found1.
  set (tok := if PREC (lasttok st) =? PREC_POST then TOK_VALUE else lasttok st).
  assert (Hcr : credit tok = credit (lasttok st)).
  { subst tok. unfold credit at 2. destruct (PREC (lasttok st) =? PREC_POST) eqn:E; [reflexivity|].
    unfold credit; rewrite E; reflexivity. }
  assert (Hne : tok = TOK_VALUE -> numstack st <> []).
  { subst tok. destruct (Z.eqb_spec (PREC (lasttok st)) PREC_POST); auto.
    intros E; apply Hv; rewrite E; reflexivity. }
  pose proof (credit_bounds (lasttok st)).
  destruct (unary_form tok op) as [op'|] eqn:Hu.
  2: { cbn [tok_spec opstack lasttok numstack expr]. rewrite Hcr.
       pose proof (growth_bounds op).
       repeat split; [lia|lia| |exact Hq].
       intros E; apply Hv. unfold credit in Hcr. rewrite E in Hcr. simpl in Hcr.
       destruct (Z.eqb_spec (PREC (lasttok st)) PREC_POST); [assumption|discriminate]. }
  pose proof (unary_form_post _ _ _ Hpost Hu) as Hp'.
  pose proof (unary_form_growth _ _ _ Hu) as Hg.
  destruct (negb (PREC op' =? PREC_LPAREN) && (PREC op' <? UNARYPREC)) eqn:Hbin.
  - assert (Hc' : credit op' = 0).
    { apply andb_true_iff in Hbin as [_ Hlt%Z.ltb_lt]. unfold credit.
      destruct (Z.eqb_spec (PREC op') PREC_POST) as [E|]; [|reflexivity].
      rewrite E in Hlt. discriminate. }
    destruct (Z.eqb_spec tok TOK_VALUE) as [Htok|]; [|exact (P_failed _ _)]. cbn [negb].
    assert (Hone : credit (lasttok st) = 1) by (rewrite <- Hcr, Htok; reflexivity).
    pose proof (pop_ops_shape op' (PREC op') (opstack st) (ms st) (numstack st)
                  (ternary_level st) Hq (Hne Htok)) as Hpop.
    destruct (pop_ops _ _ _ _ _ _) as [m' ns' ops' tl'|m' ns' ops' tl'|o] eqn:Epop.
    + destruct Hpop as (? & ? & ? & ?).
      cbn [tok_spec opstack lasttok numstack expr]. rewrite credit_value.
      repeat split; auto; [destruct Hg as [->|[-> _]]; lia].
    + destruct Hpop as (Hq' & Hn1 & Hn2 & Ho).
      assert (Hop : op <> TOK_RPAREN).
      { intros ->. destruct Hg as [Hg|(_ & -> & _)]; [discriminate|].
        exact (pop_ops_rparen _ _ _ _ _ _ _ _ _ Epop). }
      destruct Hroom as [|Hroom]; [contradiction|].
      pose proof (growth_bounds op).
      unfold check_cond. cbn [numstack ms ternary_level].
      assert (Hpush : forall m tl tk, Q m ->
        tok_spec (growth op) st (push_op opsize (mk_ev m ns' ops' tk tl (expr st)) op')).
      { intros m tl tk Hqm. apply push_op_spec; cbn [opstack numstack expr ms]; auto; lia. }
      destruct (op' =? TOK_CONDITIONAL); [|apply Hpush, Hq'].
      destruct ns' as [|x ns']; [contradiction|]. apply Hpush. case_match; auto.
    + exact Hpop.
  - destruct Hg as [Hg|(_ & -> & _ & Hb)]; [|congruence].
    rewrite Hg. apply push_op_spec; auto.
    + destruct Hroom as [->|]; [discriminate|lia].
    + pose proof (credit_bounds op'). unfold credit at 1.
      destruct (Z.eqb_spec (PREC op') PREC_POST) as [E|]; simpl b2z; [|lia].
      rewrite <- Hcr, (Hp' E), credit_value. lia.
Qed.

Definition step_spec (k : Z) (st : ev_state W) (r : step_result) : Prop :=
  match r with
  | Continue st' => tok_spec k st (Tok_next st')
  | Exit o => P o
  end.

Lemma no_insert_spec k st r : tok_spec k st r -> step_spec k st (no_insert r).
Proof. destruct r; auto. Qed.

(** Any operator token takes at most one slot for the characters it has. *)
Lemma tok_found_spec opsize st op :
  post_op op -> Q (ms st) ->
  (PREC (lasttok st) = PREC_POST -> numstack st <> []) ->
  Z.of_nat (length (opstack st)) + credit (lasttok st) + 1 <= opsize ->
  step_spec 1 st (tok_found opsize st op).
Proof.
  intros Hpost Hq Hv Hroom. unfold tok_found.
  assert (Hseq : forall op1 op2 (f : ev_state W -> ev_state W),
    growth op1 = 0 -> post_op op1 -> post_op op2 -> growth op2 <= 1 ->
    (forall s, (Q (ms s) -> Q (ms (f s))) /\ numstack (f s) = numstack s /\ opstack (f s) = opstack s
       /\ lasttok (f s) = lasttok s /\ expr (f s) = expr s) ->
    step_spec 1 st (match tok_found1 opsize st op1 with
                    | Tok_next st => no_insert (tok_found1 opsize (f st) op2)
                    | r => no_insert r end)).
  { intros op1 op2 f Hg1 Hp1 Hp2 Hg2 Hf.
    pose proof (tok_found1_spec opsize st op1 Hp1 Hq Hv (or_intror Hroom)) as H1.
    rewrite Hg1 in H1.
    destruct (tok_found1 opsize st op1) as [st1|st1|o]; [| |exact H1].
    - destruct H1 as (Ho & H1). split; [lia|exact H1].
    - destruct (Hf st1) as (Hf0 & Hf1 & Hf2 & Hf3 & Hf4).
      assert (H1' : tok_spec 0 st (Tok_next (f st1))).
      { simpl. rewrite Hf1, Hf2, Hf3, Hf4. simpl in H1; intuition. }
      destruct H1' as (Ho & Hn & He & Hv' & Hq').
      apply no_insert_spec.
      assert (Hroom' : Z.of_nat (length (opstack (f st1))) + credit (lasttok (f st1)) + 1 <= opsize) by lia.
      pose proof (tok_found1_spec opsize (f st1) op2 Hp2 Hq' Hv' (or_intror Hroom')) as H2.
      destruct (tok_found1 opsize (f st1) op2); auto;
        destruct H2 as (Ho2 & Hn2 & He2 & Hv2 & Hq2); repeat split; auto; try lia; congruence. }
  destruct (Z.eqb_spec op TOK_CONDITIONAL) as [->|].
  { apply (Hseq TOK_CONDITIONAL TOK_LPAREN (fun s => s)); auto; try discriminate; reflexivity. }
  destruct (Z.eqb_spec op TOK_CONDITIONAL_SEP) as [->|].
  { apply (Hseq TOK_RPAREN TOK_CONDITIONAL_SEP toggle_disabled); auto; try discriminate.
    intros s; repeat split. unfold toggle_disabled; cbn [ms]. repeat case_match; auto. }
  apply no_insert_spec.
  pose proof (tok_found1_spec opsize st op Hpost Hq Hv (or_intror Hroom)) as H1.
  pose proof (growth_bounds op).
  destruct (tok_found1 opsize st op); auto; destruct H1 as (Ho & H1); (split; [lia|exact H1]).
Qed.

(** ** One iteration *)

(** Iterations left: one per character, one to close, one to return. *)
Definition measure (e : ptr) : nat :=
  match e with InExpr s => S (length s) | END_POINTER => O end.

(** What an iteration gives: the invariant again and progress, or an outcome. *)
Definition iter_spec (E : list Z) (T : Z) (e : ptr) (r : step_result) : Prop :=
  match r with
  | Continue st' => inv E T st' /\ (measure (expr st') < measure e)%nat
  | Exit o => P o
  end.

Lemma op_tokens_post op rest s : find_op op_tokens s = Some (op, rest) -> post_op op.
Proof.
  assert (Hall : forallb (fun pt : list Z * Z => negb (PREC (snd pt) =? PREC_POST)
            || (snd pt =? TOK_POST_INC) || (snd pt =? TOK_POST_DEC)) op_tokens = true)
    by reflexivity.
  revert Hall. generalize op_tokens as tokens.
  induction tokens as [|[p t] tokens IH]; [discriminate|]. cbn [forallb find_op snd].
  intros [Ht Hall]%andb_true_iff.
  destruct (strip_prefix p s); [|auto]. intros [= <- _] E. rewrite E in Ht.
  cbn [Z.eqb negb orb] in Ht. rewrite Z.eqb_refl in Ht.
  apply orb_true_iff in Ht as [Ht|Ht]; apply Z.eqb_eq in Ht; auto.
Qed.

(** After a token of at least one character the budgets hold again. *)
Lemma op_iter E T st s ch t rest r :
  inv E T st -> expr st = InExpr s ->
  expr_len (ch :: t) <= expr_len s -> (length t < length s)%nat ->
  isspace ch = false -> suffix (ch :: t) s -> suffix rest t ->
  step_spec 1 (mk_ev (ms st) (numstack st) (opstack st) (lasttok st) (ternary_level st)
                     (InExpr rest)) r ->
  iter_spec E T (expr st) r.
Proof.
  intros [Ims Itext Iop Inum _ Ival] He Hl Hlen Hsp Hts Hsuf Hr. rewrite He in *. cbn [text] in *.
  rewrite expr_len_cons in Hl by assumption.
  pose proof (expr_len_suffix _ _ Hsuf). pose proof (suffix_length _ _ Hsuf).
  destruct r as [st'|o]; [|exact Hr].
  destruct Hr as (Ho & Hn & Hex & Hv & Hq).
  cbn [opstack numstack lasttok expr ternary_level] in *. split.
  - assert (suffix rest E) by (eauto using suffix_trans with bbox).
    split; rewrite ?Hex; cbn [text]; auto; intros; lia.
  - rewrite Hex. cbn [measure]. lia.
Qed.

(** After a value: the text that follows cannot start another one unless
    white space separates them. *)
Lemma value_iter E T st s ch t rest m x :
  inv E T st -> expr st = InExpr s ->
  (ch :: t = s \/ 1 + expr_len (ch :: t) <= expr_len s) ->
  (length t < length s)%nat -> is_in_name ch = true -> Q m ->
  suffix (ch :: t) s -> suffix rest t ->
  (starts is_in_name rest = true -> 1 + expr_len rest <= expr_len t) ->
  iter_spec E T (expr st) (push_value st m x rest).
Proof.
  intros [Ims Itext Iop Inum Igap Ival] He Hs Hlen Hch Hqm Hts Hsuf Hgap. rewrite He in *. cbn [text] in *.
  assert (Hin : 2 * Z.of_nat (length (numstack st)) + expr_len (ch :: t) <= T).
  { destruct Hs as [<-|]; [apply Igap; exact Hch|lia]. }
  rewrite expr_len_cons in Hin, Hs by (apply in_name_not_space; assumption).
  pose proof (expr_len_suffix _ _ Hsuf). pose proof (suffix_length _ _ Hsuf).
  pose proof (credit_bounds (lasttok st)).
  assert (Hop : Z.of_nat (length (opstack st)) + (1 + expr_len t) + credit (lasttok st) <= T + 1).
  { destruct Hs as [<-|]; [|lia].
    rewrite expr_len_cons in Iop by (apply in_name_not_space; assumption). lia. }
  unfold push_value, iter_spec. cbn [expr measure]. split; [|lia].
  assert (suffix rest E) by (eauto using suffix_trans with bbox).
  split; cbn [opstack numstack lasttok expr ms text length]; auto;
    rewrite ?credit_value; try lia; try discriminate.
  intros Hst. specialize (Hgap Hst). lia.
Qed.

Section Iteration.
Variables (opsize numsize T : Z) (E : list Z) (lookup : math_state_t W -> list Z -> outcome W).
Variable uninit : list Z -> Z.
Hypothesis opsize_def : opsize = T + 1.
Hypothesis numsize_def : numsize = (T + 1) / 2 + 1.
Hypothesis lookup_ok : forall m ch t,
  Q m -> is_name ch = true -> suffix (ch :: t) E ->
  match lookup m (ch :: t) with Returned m' _ => Q m' | o => P o end.

Lemma room_for_value st s ch t :
  inv E T st -> expr st = InExpr s -> is_in_name ch = true ->
  (ch :: t = s \/ 1 + expr_len (ch :: t) <= expr_len s) ->
  (numsize <=? Z.of_nat (length (numstack st))) = false.
Proof.
  intros [_ _ _ Inum Igap _] He Hch Hs. rewrite He in *. cbn [text] in *.
  pose proof (expr_len_nonneg t).
  assert (Hin : 2 * Z.of_nat (length (numstack st)) + expr_len (ch :: t) <= T).
  { destruct Hs as [<-|]; [apply Igap; exact Hch|lia]. }
  rewrite expr_len_cons in Hin by (apply in_name_not_space; assumption).
  apply Z.leb_gt. rewrite numsize_def.
  pose proof (Z.div_mod (T + 1) 2 ltac:(lia)). pose proof (Z.mod_pos_bound (T + 1) 2 ltac:(lia)).
  lia.
Qed.

Lemma step_name_spec st s ch t :
  inv E T st -> expr st = InExpr s -> is_name ch = true ->
  (ch :: t = s \/ 1 + expr_len (ch :: t) <= expr_len s) -> (length t < length s)%nat ->
  suffix (ch :: t) s ->
  iter_spec E T (expr st) (step_name numsize lookup uninit st (ch :: t)).
Proof.
  intros Hinv He Hch Hs Hlen Hts. unfold step_name.
  pose proof (is_name_in_name _ Hch) as Hin.
  rewrite (room_for_value _ _ _ _ Hinv He Hin Hs), endofname_name by assumption.
  cbv zeta.
  pose proof (inv_ms _ _ _ Hinv) as Hq.
  assert (Hval : forall m x, Q m -> iter_spec E T (expr st) (push_value st m x (skip_whitespace (skip_in_name t)))).
  { intros m x Hqm. eapply value_iter; eauto.
    - eapply suffix_trans; [apply skip_whitespace_suffix|apply skip_in_name_suffix].
    - intros Hst. pose proof (expr_len_suffix _ _ (skip_in_name_suffix t)).
      destruct (skip_whitespace_pays (skip_in_name t)) as [Hsame|]; [|lia].
      rewrite Hsame, skip_in_name_stop in Hst. discriminate. }
  destruct (evaluation_disabled (ms st) =? 0).
  - destruct (_ || _); [|apply Hval, Hq].
    assert (Hsuf : suffix (ch :: t) E).
    { pose proof (inv_text _ _ _ Hinv) as Hte. rewrite He in Hte. eauto using suffix_trans. }
    pose proof (lookup_ok (ms st) ch t Hq Hch Hsuf) as Hl.
    destruct (lookup (ms st) (ch :: t)); [apply Hval, Hl|exact Hl..].
  - eapply value_iter; eauto using skip_in_name_suffix.
    rewrite skip_in_name_stop. discriminate.
Qed.

Lemma step_number_spec st s ch t :
  inv E T st -> expr st = InExpr s -> isdigit ch = true ->
  (ch :: t = s \/ 1 + expr_len (ch :: t) <= expr_len s) -> (length t < length s)%nat ->
  suffix (ch :: t) s ->
  iter_spec E T (expr st) (step_number numsize st (ch :: t)).
Proof.
  intros Hinv He Hch Hs Hlen Hts. unfold step_number.
  pose proof (isdigit_in_name _ Hch) as Hin.
  rewrite (room_for_value _ _ _ _ Hinv He Hin Hs).
  destruct (strto_arith_t (ch :: t)) as [v [rest|]] eqn:Hn; [|exact (P_failed _ _)].
  apply strto_arith_t_progress in Hn.
  destruct (_ || _) eqn:Ha; [exact (P_failed _ _)|].
  eapply value_iter; eauto using inv_ms.
  destruct rest as [|c rest]; [discriminate|]. cbn [starts char_at nth] in *.
  unfold is_in_name. unfold char_at in Ha. cbn [nth] in Ha.
  apply orb_false_iff in Ha as [-> ->]. discriminate.
Qed.

Lemma post_op_add_sub b : post_op (if b : bool then TOK_ADD else TOK_SUB).
Proof. destruct b; intros ?; discriminate. Qed.

Lemma step_op_spec st s ch t :
  inv E T st -> expr st = InExpr s -> isspace ch = false ->
  expr_len (ch :: t) <= expr_len s -> (length t < length s)%nat ->
  suffix (ch :: t) s ->
  iter_spec E T (expr st) (step_op opsize st (ch :: t)).
Proof.
  intros Hinv He Hsp Hle Hlen Hts. unfold step_op. cbv zeta.
  assert (Hroom : Z.of_nat (length (opstack st)) + credit (lasttok st) + 1 <= opsize).
  { destruct Hinv as [_ _ Iop _ _ _]. rewrite He in Iop. cbn [text] in Iop.
    rewrite expr_len_cons in Hle by assumption. pose proof (expr_len_nonneg t). lia. }
  destruct (not_incdec (numstack st) (ch :: t)).
  - eapply op_iter with (t := t) (rest := t); eauto with bbox.
    cbn [skipn]. apply no_insert_spec.
    match goal with |- tok_spec _ ?st (tok_found1 _ _ (if ?b then _ else _)) =>
      pose proof (tok_found1_spec opsize st _ (post_op_add_sub b)
                    (inv_ms _ _ _ Hinv) (inv_val _ _ _ Hinv) (or_intror Hroom)) as H1 end.
    match goal with H1 : tok_spec ?g _ _ |- _ => replace g with 1 in H1
      by (destruct (_ =? _); reflexivity) end.
    exact H1.
  - destruct (find_op op_tokens (ch :: t)) as [[op rest]|] eqn:Hf; [|exact (P_failed _ _)].
    eapply op_iter with (t := t); eauto using find_op_progress.
    apply tok_found_spec; [eapply op_tokens_post; eauto|exact (inv_ms _ _ _ Hinv)|exact (inv_val _ _ _ Hinv)|exact Hroom].
Qed.

Lemma ev_step_spec start st :
  inv E T st -> iter_spec E T (expr st) (ev_step opsize numsize lookup uninit start st).
Proof.
  intros Hinv. unfold ev_step.
  destruct (expr st) as [s|] eqn:He.
  2: { destruct (numstack st) as [|x [|y ns]]; [apply P_failed|apply P_returned, Hinv|apply P_failed]. }
  destruct (skip_whitespace s) as [|ch t] eqn:Hsk.
  - destruct (Nat.eqb start 0); [apply P_returned, Hinv|].
    match goal with |- context [tok_found1 opsize ?st' TOK_RPAREN] =>
      pose proof (tok_found1_spec opsize st' TOK_RPAREN ltac:(discriminate)
                    (inv_ms _ _ _ Hinv) (inv_val _ _ _ Hinv) (or_introl eq_refl)) as H1;
      destruct (tok_found1 opsize st' TOK_RPAREN) as [st1|st1|o] end; [| |exact H1];
      destruct H1 as (Ho & Hn & Hex & Hv & Hq); destruct Hinv as [Ims Itext Iop Inum _ _];
      rewrite He in *; cbn [opstack numstack lasttok expr text] in *;
      change (growth TOK_RPAREN) with 0 in Ho; pose proof (expr_len_nonneg s);
      assert (suffix [] E) by (clear; induction E; auto with bbox);
      (split; [split; rewrite ?Hex; cbn [text]; auto; change (expr_len []) with 0; try discriminate; lia
              |rewrite Hex; cbn [measure]; lia]).
  - pose proof (skip_whitespace_nonspace _ _ _ Hsk) as Hsp.
    pose proof (skip_whitespace_pays s) as Hp. rewrite Hsk in Hp.
    pose proof (skip_whitespace_suffix s) as Hts. rewrite Hsk in Hts.
    pose proof (suffix_length _ _ Hts) as Hlen.
    cbn [length] in Hlen.
    assert (expr_len (ch :: t) <= expr_len s) by (destruct Hp as [<-|]; lia).
    rewrite <- He.
    destruct (is_name ch) eqn:Hn; [eapply step_name_spec; eauto|].
    destruct (isdigit ch) eqn:Hd; [eapply step_number_spec; eauto|].
    eapply step_op_spec; eauto.
Qed.

Lemma ev_loop_spec fuel start st :
  inv E T st -> (measure (expr st) < fuel)%nat ->
  P (ev_loop opsize numsize lookup uninit fuel start st).
Proof.
  revert st; induction fuel as [|fuel IH]; intros st Hinv Hm; [lia|].
  cbn [ev_loop]. pose proof (ev_step_spec start st Hinv) as Hs.
  destruct (ev_step _ _ _ _ _ _) as [st'|o]; [|exact Hs].
  destruct Hs as [Hinv' Hm']. apply IH; [assumption|lia].
Qed.
End Iteration.

Lemma initial_inv (m : math_state_t W) s :
  Q m -> inv s (expr_len s) (mk_ev m [] [TOK_LPAREN] TOK_LPAREN 0 (InExpr s)).
Proof.
  intros Hq. split; cbn [opstack numstack lasttok expr ms text length];
    change (credit TOK_LPAREN) with 0; auto with bbox; try discriminate; lia.
Qed.

(** What one evaluation gives has the property, if what the evaluation of
    the variables named in its text gives has it. *)
Lemma evaluate_string_step uninit depth (m : math_state_t W) e :
  Q m ->
  (forall m ch t, Q m -> is_name ch = true -> suffix (ch :: t) e ->
     match arith_lookup_val (evaluate_string uninit depth) m (ch :: t) with
     | Returned m' _ => Q m' | o => P o end) ->
  P (evaluate_string uninit (S depth) m e).
Proof.
  intros Hq IH. cbn [evaluate_string].
  eapply ev_loop_spec with (T := expr_len (skip_whitespace e)) (E := skip_whitespace e);
    try reflexivity.
  - intros m0 ch t Hq0 Hch Hsuf. apply IH; eauto using suffix_trans, skip_whitespace_suffix.
  - apply initial_inv, Hq.
  - cbn [expr measure]. unfold ev_fuel. lia.
Qed.
End Safety.

(** The three ways of evaluating a variable. *)
Lemma lookup_val_cases {W} `{ShellVars W} ev (m : math_state_t W) name :
  arith_lookup_val ev m name = Returned m 0
  \/ arith_lookup_val ev m name = Failed m recursion_loop
  \/ exists p, lookupvar (world m) (name_text name) = Some p
       /\ existsb (same_name name) (list_of_recursed_names m) = false
       /\ arith_lookup_val ev m name
          = match ev (set_names m (name :: list_of_recursed_names m)) p with
            | Returned m' v => Returned (set_names m' (list_of_recursed_names m)) v
            | Failed m' e => Failed (set_names m' (list_of_recursed_names m)) e
            | o => o
            end.
Proof.
  unfold arith_lookup_val. destruct (lookupvar _ _) as [p|]; auto.
  destruct (existsb _ _) eqn:E; eauto 6.
Qed.

(** ** Names *)

Lemma skip_in_name_split s :
  exists run, s = run ++ skip_in_name s /\ Forall (fun c => is_in_name c = true) run.
Proof.
  induction s as [|ch s (run & E & Hr)]; [exists []; auto|]. cbn [skip_in_name].
  destruct (is_in_name ch) eqn:F; [|exists []; auto].
  exists (ch :: run). split; [simpl; congruence|auto].
Qed.

(** A text that starts with a name is the name followed by something that
    cannot continue it. *)
Lemma name_text_split ch t :
  is_name ch = true ->
  exists rest, ch :: t = name_text (ch :: t) ++ rest /\ starts is_in_name rest = false.
Proof.
  intros Hch. exists (endofname (ch :: t)). rewrite endofname_name by assumption.
  split; [|apply skip_in_name_stop].
  destruct (skip_in_name_split t) as (run & E & _).
  unfold name_text. rewrite endofname_name by assumption.
  replace (firstn _ (ch :: t)) with (ch :: run); [simpl; congruence|].
  rewrite E at 1 3. rewrite app_comm_cons, length_app, Nat.add_sub.
  rewrite firstn_app, firstn_all, Nat.sub_diag, app_nil_r. reflexivity.
Qed.

(** Two occurrences of one name are recognised as the same. *)
Lemma same_name_complete ch t ch' t' :
  is_name ch = true -> is_name ch' = true ->
  name_text (ch' :: t') = name_text (ch :: t) -> same_name (ch :: t) (ch' :: t') = true.
Proof.
  intros H1 H2 E. unfold same_name.
  destruct (name_text_split _ t H1) as (r & Er & _).
  destruct (name_text_split _ t' H2) as (r' & Er' & Hst).
  set (n := length (name_text (ch :: t))).
  assert (F1 : firstn n (ch :: t) = name_text (ch :: t)).
  { rewrite Er at 1. subst n. rewrite firstn_app, firstn_all, Nat.sub_diag. apply app_nil_r. }
  assert (F2 : firstn n (ch' :: t') = name_text (ch :: t)).
  { rewrite Er' at 1. subst n. rewrite <- E, firstn_app, firstn_all, Nat.sub_diag. apply app_nil_r. }
  rewrite F1, F2, (proj2 (list_eqb_spec _ _) eq_refl). cbn [andb].
  replace (char_at n (ch' :: t')) with (char_at 0 r').
  - destruct r' as [|c r']; [reflexivity|]. cbn [starts char_at nth] in *.
    unfold char_at; cbn [nth]. unfold is_in_name in Hst. unfold isalnum_.
    rewrite orb_comm. rewrite Hst. reflexivity.
  - unfold char_at. rewrite Er'. rewrite E. rewrite app_nth2, Nat.sub_diag; auto.
Qed.

(** ** Depth of the recursion through variables *)

Section Depth.
Context {W : Type} `{ShellVarsLaws W}.

(** A text without a variable name, such as a number. *)
Definition no_names (s : list Z) : Prop := Forall (fun c => is_name c = false) s.

Lemma no_names_suffix ch t s : no_names s -> suffix (ch :: t) s -> is_name ch = false.
Proof. intros Hn Hs. apply (suffix_Forall _ _ _ Hs) in Hn. now inversion Hn. Qed.

Lemma digit_no_name n : is_name (chr "0" + n mod 10) = false.
Proof.
  pose proof (Z.mod_pos_bound n 10 ltac:(lia)) as Hb.
  assert (Hd : n mod 10 = 0 \/ n mod 10 = 1 \/ n mod 10 = 2 \/ n mod 10 = 3 \/ n mod 10 = 4
    \/ n mod 10 = 5 \/ n mod 10 = 6 \/ n mod 10 = 7 \/ n mod 10 = 8 \/ n mod 10 = 9) by lia.
  repeat destruct Hd as [->|Hd]; [reflexivity..|]. rewrite Hd. reflexivity.
Qed.

Lemma print_no_names v : no_names (print_arith_t v).
Proof.
  assert (Hd : forall fuel n acc, no_names acc -> no_names (digits fuel n acc)).
  { induction fuel as [|fuel IH]; intros n acc Ha; cbn [digits]; [assumption|].
    assert (no_names (chr "0" + n mod 10 :: acc)) by (constructor; auto using digit_no_name).
    destruct (_ =? _); auto. }
  unfold print_arith_t. destruct (v <? 0); [constructor; [reflexivity|]|]; apply Hd; constructor.
Qed.

(** [D] lists the variables defined at the start; every other variable was
    set by the evaluator and holds a number. [L] is the list of names under
    evaluation. *)
Variable D : list (list Z).

Definition starts_name (s : list Z) : Prop := exists ch t, s = ch :: t /\ is_name ch = true.

Definition state_ok (L : list (list Z)) (m : math_state_t W) : Prop :=
  (forall n v, lookupvar (world m) n = Some v -> In n D \/ no_names v)
  /\ list_of_recursed_names m = L /\ Forall starts_name L.

Definition fresh (L : list (list Z)) (n : list Z) : bool :=
  negb (existsb (list_eqb n) (map name_text L)).

(** Variables not yet under evaluation. *)
Definition left_over (L : list (list Z)) : nat := length (filter (fresh L) D).

Lemma left_over_cons L name :
  In (name_text name) D -> fresh L (name_text name) = true ->
  (left_over (name :: L) < left_over L)%nat.
Proof.
  unfold left_over. intros Hin Hf.
  assert (Hle : forall D', (length (filter (fresh (name :: L)) D') <= length (filter (fresh L) D'))%nat).
  { induction D' as [|n D' IH]; [reflexivity|]. cbn [filter]. unfold fresh at 1. cbn [map existsb].
    rewrite negb_orb. fold (fresh L n). destruct (fresh L n); [|rewrite andb_false_r; exact IH].
    rewrite andb_true_r. destruct (negb _); simpl; lia. }
  induction D as [|n D' IH]; [contradiction|]. cbn [filter].
  unfold fresh at 1. cbn [map existsb]. rewrite negb_orb. fold (fresh L n).
  destruct Hin as [->|Hin].
  - rewrite (proj2 (list_eqb_spec _ _) eq_refl). cbn [negb andb]. rewrite Hf. simpl.
    specialize (Hle D'). lia.
  - specialize (IH Hin). destruct (fresh L n); [|rewrite andb_false_r; exact IH].
    rewrite andb_true_r. destruct (negb _); simpl; lia.
Qed.

Lemma not_recursed_fresh L ch t :
  is_name ch = true -> Forall starts_name L ->
  existsb (same_name (ch :: t)) L = false -> fresh L (name_text (ch :: t)) = true.
Proof.
  intros Hch HL E. unfold fresh. apply negb_true_iff. apply not_true_is_false.
  intros (n & Hin & Heq)%existsb_exists. apply list_eqb_spec in Heq.
  apply in_map_iff in Hin as (cur & Hcur & Hin).
  apply not_true_iff_false in E. apply E. apply existsb_exists.
  exists cur. split; [assumption|].
  rewrite Forall_forall in HL. destruct (HL _ Hin) as (ch' & t' & -> & Hch').
  apply same_name_complete; congruence.
Qed.

(** An evaluation that came to an end in a good state. *)
Definition ended (L : list (list Z)) (o : outcome W) : Prop :=
  match o with No_fuel => False | Returned m _ => state_ok L m | _ => True end.

Lemma state_ok_store L m name v :
  state_ok L m -> state_ok L (set_world m (setvar (world m) name (print_arith_t v))).
Proof.
  intros (Hw & Hl). split; [|exact Hl]. intros n v' Hn. cbn [world set_world] in Hn.
  destruct (list_eqb name n) eqn:E.
  - apply list_eqb_spec in E as <-. rewrite lookup_set_eq in Hn. injection Hn as <-.
    right. apply print_no_names.
  - rewrite lookup_set_ne in Hn; [eauto|].
    intros ->. rewrite (proj2 (list_eqb_spec n n) eq_refl) in E. discriminate.
Qed.

(** One level of recursion: enough that the variables named in the text can
    be evaluated. *)
Lemma evaluate_ended_step uninit depth L m e :
  state_ok L m ->
  (forall m ch t, state_ok L m -> is_name ch = true -> suffix (ch :: t) e ->
     ended L (arith_lookup_val (evaluate_string uninit depth) m (ch :: t))) ->
  ended L (evaluate_string uninit (S depth) m e).
Proof.
  intros Hm Hl. apply evaluate_string_step with (Q := state_ok L); simpl; auto using state_ok_store.
Qed.

Lemma evaluate_number_ended uninit depth L m e :
  state_ok L m -> no_names e -> ended L (evaluate_string uninit (S depth) m e).
Proof.
  intros Hm He. apply evaluate_ended_step; auto.
  intros m' ch t _ Hch Hs. rewrite (no_names_suffix _ _ _ He Hs) in Hch. discriminate.
Qed.

Lemma state_ok_push L m ch t :
  state_ok L m -> is_name ch = true -> state_ok ((ch :: t) :: L) (set_names m ((ch :: t) :: L)).
Proof.
  intros (Hw & _ & Hs) Hch. repeat split; auto. constructor; auto. unfold starts_name. eauto.
Qed.

Lemma ended_pop L L' o :
  Forall starts_name L -> ended L' o ->
  ended L (match o with
           | Returned m v => Returned (set_names m L) v
           | Failed m e => Failed (set_names m L) e
           | Out_of_bounds k => Out_of_bounds k
           | No_fuel => No_fuel
           end).
Proof. destruct o; simpl; auto. intros HL (Hw & _). repeat split; auto. Qed.

Lemma evaluate_ended uninit depth L m e :
  (left_over L + 2 <= depth)%nat -> state_ok L m -> ended L (evaluate_string uninit depth m e).
Proof.
  revert L m e; induction depth as [|depth IH]; intros L m e Hd Hm; [lia|].
  apply evaluate_ended_step; [assumption|]. intros m' ch t Hm' Hch _.
  destruct (lookup_val_cases (evaluate_string uninit depth) m' (ch :: t))
    as [->|[->|(p & Hp & Hrec & ->)]]; [exact Hm'|exact I|].
  pose proof Hm' as (Hw & HL & Hs). rewrite HL in *.
  eapply ended_pop with (L' := (ch :: t) :: L); [assumption|].
  pose proof (state_ok_push L m' ch t Hm' Hch) as Hpush.
  destruct (Hw _ _ Hp) as [HD|Hnum].
  - apply IH; [|exact Hpush].
    pose proof (left_over_cons L (ch :: t) HD (not_recursed_fresh L ch t Hch Hs Hrec)). lia.
  - destruct depth; [lia|]. apply evaluate_number_ended; assumption.
Qed.
End Depth.

(** ** Theorems *)

(** An outcome that is not an overflow of either stack and not an access
    below the value stack. *)
Definition stacks_ok {W} (o : outcome W) : Prop :=
  match o with Out_of_bounds k => k = opstack_underflow | _ => True end.


(** C3. The evaluator terminates on every text: recursion through variables is
    never nested deeper than the number of variables plus two, whatever their
    values, because a name under evaluation is not entered again. *)
Theorem arith_terminates {W} `{ShellVarsLaws W} uninit (w : W) (D : list (list Z)) (e : list Z) :
  (forall n v, lookupvar w n = Some v -> In n D) ->
  arith uninit (length D + 2) w e <> No_fuel.
Proof.
  intros HD E. unfold arith in E.
  pose proof (evaluate_ended D uninit (length D + 2) [] (mk_ms w 0 []) e) as He.
  rewrite E in He. apply He; [|repeat split; eauto].
  unfold left_over. pose proof (filter_length_le (fresh []) D). lia.
Qed.

Lemma arith_terminates_witness :
  arith (fun _ => 0) 4 [(bytes_of "a", bytes_of "b+1"); (bytes_of "b", bytes_of "a*2")]
        (bytes_of "a + b") <> No_fuel.
Proof.
  apply (arith_terminates (W := vars) _ _ [bytes_of "a"; bytes_of "b"]).
  intros n v. cbn [lookupvar vars_shell vars_lookup].
  destruct (list_eqb (bytes_of "a") n) eqn:Ea; [apply list_eqb_spec in Ea; left; exact Ea|].
  destruct (list_eqb (bytes_of "b") n) eqn:Eb; [apply list_eqb_spec in Eb; right; left; exact Eb|].
  discriminate.
Defined.

