(* ===== verification/ShMathNum.v ===== *)
(** * The arithmetic of [arith_apply] and of the number lexer

    Exponentiation by squaring, division without a trap, the range of every
    result, and numbers in the bases 2 to 64. *)

From Stdlib Require Import Ascii String ZArith List Lia Bool.
From S2P Require Import Prelude Ctype ShMath.
Import ListNotations.
Local Open Scope Z_scope.

(** ** Exponentiation *)

Lemma exp_loop_zero fuel c x : exp_loop fuel c x 0 = c.
Proof. destruct fuel; reflexivity. Qed.

(** [2k+1] iterations are enough for an exponent of [k] bits. *)
Lemma exp_loop_spec k : forall fuel c x r,
  (2 * k + 1 <= fuel)%nat -> in_s64 c -> 0 <= r < 2 ^ Z.of_nat k ->
  exp_loop fuel c x r = s64 (c * x ^ r).
Proof.
  induction k as [|k IH]; intros fuel c x r Hf Hc Hr.
  - replace r with 0 by (simpl in Hr; lia). rewrite exp_loop_zero.
    rewrite Z.pow_0_r, Z.mul_1_r, s64_small; auto.
  - rewrite Nat2Z.inj_succ, Z.pow_succ_r in Hr by lia.
    assert (Heven : forall fuel c q, (2 * k + 2 <= fuel)%nat -> in_s64 c -> 0 < q -> 2 * q < 2 * 2 ^ Z.of_nat k ->
              exp_loop fuel c x (2 * q) = s64 (c * x ^ (2 * q))).
    { clear fuel c r Hf Hc Hr. intros [|fuel] c q Hf Hc Hq Hlt; [lia|].
      cbn [exp_loop]. destruct (Z.eqb_spec (2 * q) 0); [lia|].
      change 1 with (Z.ones 1) at 1. rewrite Z.land_ones, Z.shiftr_div_pow2 by lia.
      change (2 ^ 1) with 2. rewrite (Z.mul_comm 2 q), Z_mod_mult, Z_div_mult by lia.
      change (0 =? 0) with true. cbv iota.
      rewrite IH by (auto using s64_range; lia).
      rewrite s64_mul_l, <- Z.mul_assoc, <- Z.pow_succ_r by lia.
      replace (Z.succ (q - 1)) with q by lia.
      rewrite <- s64_mul_r, s64_pow, s64_mul_r by lia. f_equal. f_equal.
      rewrite (Z.mul_comm q 2), Z.pow_mul_r, Z.pow_2_r by lia. reflexivity. }
    destruct (Z.eq_dec r 0) as [->|Hr0].
    { rewrite exp_loop_zero, Z.pow_0_r, Z.mul_1_r, s64_small; auto. }
    destruct (Z.Even_or_Odd r) as [[q ->]|[q ->]].
    + apply Heven; auto; lia.
    + destruct fuel as [|fuel]; [lia|]. cbn [exp_loop].
      destruct (Z.eqb_spec (2 * q + 1) 0); [lia|].
      change 1 with (Z.ones 1) at 2. rewrite Z.land_ones by lia. change (2 ^ 1) with 2.
      rewrite Z.mul_comm, Z.add_comm, Z_mod_plus_full. change (1 mod 2 =? 0) with false.
      cbv iota. replace (1 + q * 2 - 1) with (2 * q) by ring.
      assert (Hgoal : exp_loop fuel (s64 (c * x)) x (2 * q) = s64 (s64 (c * x) * x ^ (2 * q))).
      { destruct (Z.eq_dec q 0) as [->|].
        - rewrite Z.mul_0_r, exp_loop_zero, Z.pow_0_r, Z.mul_1_r, s64_idem. reflexivity.
        - apply Heven; auto using s64_range; lia. }
      rewrite Hgoal, s64_mul_l. f_equal. replace (1 + q * 2) with (Z.succ (2 * q)) by ring.
      rewrite Z.pow_succ_r by lia. ring.
Qed.

#[local] Opaque exp_loop s64 Z.pow.

Lemma binary_op_exponent a b :
  in_s64 a -> in_s64 b ->
  binary_op TOK_EXPONENT a b = if b <? 0 then inr exponent_negative else inl (s64 (a ^ b)).
Proof.
  intros Ha Hb. change (binary_op TOK_EXPONENT a b) with
    (if b <? 0 then inr exponent_negative else inl (exp_loop exp_fuel 1 a b) : Z + arith_err).
  destruct (Z.ltb_spec b 0); [reflexivity|]. red in Hb.
  rewrite (exp_loop_spec 63), Z.mul_1_l; [reflexivity|unfold exp_fuel; lia|red; lia|].
  change (Z.of_nat 63) with 63. lia.
Qed.

(** ** Division *)

(** The guard against [MIN / -1]: the code divides by 1 instead. *)
Lemma divisor_guard a b :
  in_s64 a -> in_s64 b -> b <> 0 ->
  let b' := if (b =? -1) && (s64 (Z.shiftl a 1) =? 0) then 1 else b in
  Z.quot a b' = s64 (Z.quot a b) /\ Z.rem a b' = Z.rem a b.
Proof.
  unfold in_s64. intros Ha Hb Hb0. cbv zeta.
  destruct (Z.eqb_spec b (-1)) as [->|Hne]; cbn [andb].
  - assert (Hq : Z.quot a (-1) = - a)
      by (change (-1) with (- (1)); rewrite Z.quot_opp_r, Z.quot_1_r; lia).
    assert (Hr : Z.rem a (-1) = 0)
      by (change (-1) with (- (1)); rewrite Z.rem_opp_r, Z.rem_1_r; lia).
    destruct (Z.eqb_spec (s64 (Z.shiftl a 1)) 0) as [E|E].
    + rewrite Z.quot_1_r, Z.rem_1_r, Hq, Hr. split; [|reflexivity].
      rewrite Z.shiftl_mul_pow2 in E by lia.
      destruct (s64_eqm (a * 2 ^ 1)) as [k Hk]. rewrite E in Hk.
      symmetry. apply (s64_unique _ (- k)); [red; lia|]. lia.
    + rewrite Hq, Hr. split; [|reflexivity].
      symmetry; apply s64_small. red.
      assert (a <> - 2 ^ 63); [|lia]. intros ->. apply E. reflexivity.
  - split; [|reflexivity]. symmetry. apply s64_small. red.
    destruct (Z.eq_dec b 1) as [->|Hb1]; [rewrite Z.quot_1_r; lia|].
    assert (Habs : Z.abs (Z.quot a b) <= 2 ^ 62); [|lia].
    rewrite <- Z.quot_abs, Z.quot_div_nonneg by lia.
    apply Z.div_le_upper_bound; [lia|]. nia.
Qed.

Lemma rem_range a b : in_s64 a -> b <> 0 -> in_s64 (Z.rem a b).
Proof.
  unfold in_s64. intros Ha Hb.
  assert (Hle : Z.abs (Z.rem a b) <= Z.abs a).
  { rewrite <- Z.rem_abs by assumption. apply Z.rem_le; lia. }
  assert (0 <= a -> 0 <= Z.rem a b) by (intros; apply Z.rem_nonneg; auto).
  assert (a <= 0 -> Z.rem a b <= 0) by (intros; apply Z.rem_nonpos; auto).
  lia.
Qed.

(** ** The operators *)

(** What each binary token computes on the integers; division and remainder
    truncate, results are reduced to 64 bits. *)
Inductive bop : Set :=
| Bor | Oror | Band | Bxor | Andand | Eq | Ne | Ge | Rshift | Lshift | Gt | Lt | Le
| Mul | Add | Sub | Comma | Exp | Div | Rem.

Definition bop_tok (b : bop) : Z :=
  match b with
  | Bor => TOK_BOR | Oror => TOK_OR | Band => TOK_BAND | Bxor => TOK_BXOR
  | Andand => TOK_AND | Eq => TOK_EQ | Ne => TOK_NE | Ge => TOK_GE | Rshift => TOK_RSHIFT
  | Lshift => TOK_LSHIFT | Gt => TOK_GT | Lt => TOK_LT | Le => TOK_LE | Mul => TOK_MUL
  | Add => TOK_ADD | Sub => TOK_SUB | Comma => TOK_COMMA | Exp => TOK_EXPONENT
  | Div => TOK_DIV | Rem => TOK_REM
  end.

Definition bop_denote (b : bop) (x y : Z) : Z + arith_err :=
  match b with
  | Bor => inl (Z.lor x y)
  | Oror => inl (b2z (negb (x =? 0) || negb (y =? 0)))
  | Band => inl (Z.land x y)
  | Bxor => inl (Z.lxor x y)
  | Andand => inl (b2z (negb (x =? 0) && negb (y =? 0)))
  | Eq => inl (b2z (x =? y))
  | Ne => inl (b2z (negb (x =? y)))
  | Ge => inl (b2z (y <=? x))
  | Rshift => inl (x / 2 ^ (y mod 64))
  | Lshift => inl (s64 (x * 2 ^ (y mod 64)))
  | Gt => inl (b2z (y <? x))
  | Lt => inl (b2z (x <? y))
  | Le => inl (b2z (x <=? y))
  | Mul => inl (s64 (x * y))
  | Add => inl (s64 (x + y))
  | Sub => inl (s64 (x - y))
  | Comma => inl y
  | Exp => if y <? 0 then inr exponent_negative else inl (s64 (x ^ y))
  | Div => if y =? 0 then inr divide_by_zero else inl (s64 (Z.quot x y))
  | Rem => if y =? 0 then inr divide_by_zero else inl (Z.rem x y)
  end.

Lemma binary_op_denote b x y :
  in_s64 x -> in_s64 y -> binary_op (bop_tok b) x y = bop_denote b x y.
Proof.
  intros Hx Hy. pose proof (Z.mod_pos_bound y 64 ltac:(lia)).
  destruct b; try reflexivity; cbn [bop_tok bop_denote].
  - change (binary_op TOK_OR x y) with (inl (b2z (negb (y =? 0) || negb (x =? 0))) : Z + arith_err).
    rewrite orb_comm. reflexivity.
  - rewrite <- Z.shiftr_div_pow2 by lia. reflexivity.
  - rewrite <- Z.shiftl_mul_pow2 by lia. reflexivity.
  - apply binary_op_exponent; assumption.
  - destruct (Z.eqb_spec y 0) as [->|Hy0]; [reflexivity|].
    rewrite <- (proj1 (divisor_guard x y Hx Hy Hy0)).
    apply Z.eqb_neq in Hy0. unfold binary_op. rewrite Hy0. reflexivity.
  - destruct (Z.eqb_spec y 0) as [->|Hy0]; [reflexivity|].
    rewrite <- (proj2 (divisor_guard x y Hx Hy Hy0)).
    apply Z.eqb_neq in Hy0. unfold binary_op. rewrite Hy0. reflexivity.
Qed.

Lemma in_s64_shiftr x : in_s64 x <-> Z.shiftr x 63 = 0 \/ Z.shiftr x 63 = -1.
Proof.
  unfold in_s64. rewrite Z.shiftr_div_pow2 by lia.
  pose proof (Z.div_mod x (2 ^ 63) ltac:(lia)).
  pose proof (Z.mod_pos_bound x (2 ^ 63) ltac:(lia)). nia.
Qed.

Lemma in_s64_b2z b : in_s64 (b2z b).
Proof. destruct b; split; cbv; discriminate || reflexivity. Qed.

Lemma in_s64_shift x n : in_s64 x -> 0 <= n -> in_s64 (x / 2 ^ n).
Proof.
  unfold in_s64. intros Hx Hn. pose proof (Z.pow_pos_nonneg 2 n ltac:(lia) Hn).
  split; [apply Z.div_le_lower_bound|apply Z.div_lt_upper_bound]; nia.
Qed.

(** Every operator yields a 64-bit value. *)
Lemma bop_denote_range b x y v :
  in_s64 x -> in_s64 y -> bop_denote b x y = inl v -> in_s64 v.
Proof.
  intros Hx Hy.
  assert (Hbit : forall f, (forall a b n, Z.shiftr (f a b) n = f (Z.shiftr a n) (Z.shiftr b n)) ->
            (forall p q, (p = 0 \/ p = -1) -> (q = 0 \/ q = -1) -> f p q = 0 \/ f p q = -1) ->
            in_s64 (f x y)).
  { intros f Hs Hf. apply in_s64_shiftr. rewrite Hs.
    apply Hf; apply in_s64_shiftr; assumption. }
  destruct b; cbn [bop_denote]; try (intros [= <-]; auto using s64_range, in_s64_b2z).
  - apply Hbit; [apply Z.shiftr_lor|intros p q [->| ->] [->| ->]; auto].
  - apply Hbit; [apply Z.shiftr_land|intros p q [->| ->] [->| ->]; auto].
  - apply Hbit; [apply Z.shiftr_lxor|intros p q [->| ->] [->| ->]; auto].
  - apply in_s64_shift; [assumption|apply Z.mod_pos_bound; lia].
  - destruct (y <? 0); [discriminate|]. intros [= <-]. apply s64_range.
  - destruct (y =? 0); [discriminate|]. intros [= <-]. apply s64_range.
  - destruct (Z.eqb_spec y 0); [discriminate|]. intros [= <-]. apply rem_range; assumption.
Qed.

(** C4. Every binary operator of the shell computes its mathematical meaning on
    64-bit two's complement integers: wrap-around for sums, products, left
    shifts and powers (by repeated squaring, for every exponent), truncating
    division without a trap for the most negative number divided by -1, the
    two errors, and a result that is again a 64-bit integer. *)
Theorem binary_op_correct b x y :
  in_s64 x -> in_s64 y ->
  binary_op (bop_tok b) x y = bop_denote b x y
  /\ forall v, bop_denote b x y = inl v -> in_s64 v.
Proof. eauto using binary_op_denote, bop_denote_range. Qed.

Lemma binary_op_correct_witness :
  (binary_op (bop_tok Div) (- 2 ^ 63) (-1) = bop_denote Div (- 2 ^ 63) (-1)
   /\ forall v, bop_denote Div (- 2 ^ 63) (-1) = inl v -> in_s64 v)
  /\ binary_op (bop_tok Exp) 3 100 = inl (-2984622845537545263).
Proof.
  split; [apply (binary_op_correct Div (- 2 ^ 63) (-1)); red; lia|].
  rewrite (proj1 (binary_op_correct Exp 3 100 ltac:(red; lia) ltac:(red; lia))).
  vm_compute. reflexivity.
Defined.

(** ** Number literals *)

#[local] Transparent Z.pow.

(** The characters that stand for the digits 0..63. *)
Definition digit_char (d : Z) : Z :=
  if d <? 10 then chr "0" + d
  else if d <? 36 then chr "a" + (d - 10)
  else if d <? 62 then chr "A" + (d - 36)
  else if d =? 62 then chr "@" else chr "_".

(** The number a list of digits stands for, most significant first. *)
Definition horner (base : Z) (ds : list Z) : Z := fold_left (fun n d => n * base + d) ds 0.

Lemma digit_value_char base d :
  2 <= base <= 64 -> 0 <= d < base -> digit_value (digit_char d) base = Some d.
Proof.
  intros Hb Hd.
  assert (Hall : forallb (fun b => forallb (fun d =>
             match digit_value (digit_char d) b with Some v => v =? d | None => false end)
             (map Z.of_nat (seq 0 (Z.to_nat b)))) (map Z.of_nat (seq 2 63)) = true)
    by (vm_compute; reflexivity).
  rewrite forallb_forall in Hall.
  assert (Hin : In base (map Z.of_nat (seq 2 63))).
  { apply in_map_iff. exists (Z.to_nat base). split; [lia|]. apply in_seq. lia. }
  specialize (Hall _ Hin). rewrite forallb_forall in Hall.
  assert (Hin' : In d (map Z.of_nat (seq 0 (Z.to_nat base)))).
  { apply in_map_iff. exists (Z.to_nat d). split; [lia|]. apply in_seq. lia. }
  specialize (Hall _ Hin'). cbv beta in Hall.
  destruct (digit_value _ _); [|discriminate]. apply Z.eqb_eq in Hall. congruence.
Qed.

Definition stops (base : Z) (rest : list Z) : Prop :=
  match rest with [] => True | ch :: _ => digit_value ch base = None end.

Lemma parse_digits_run base ds rest n :
  2 <= base <= 64 -> Forall (fun d => 0 <= d < base) ds -> stops base rest -> in_s64 n ->
  parse_digits n (map digit_char ds ++ rest) base
  = (s64 (fold_left (fun n d => n * base + d) ds n), rest).
Proof.
  intros Hb Hds Hr. revert n. induction Hds as [|d ds Hd Hds IH]; intros n Hn; cbn [map app].
  - cbn [fold_left]. rewrite s64_small by assumption.
    destruct rest as [|ch rest]; [reflexivity|]. cbn [parse_digits]. cbn [stops] in Hr.
    rewrite Hr. reflexivity.
  - cbn [parse_digits fold_left]. rewrite digit_value_char by assumption.
    rewrite IH by apply s64_range. f_equal.
    assert (Hf : forall ds a b, a mod 2 ^ 64 = b mod 2 ^ 64 ->
      (fold_left (fun n d => n * base + d) ds a) mod 2 ^ 64
      = (fold_left (fun n d => n * base + d) ds b) mod 2 ^ 64).
    { clear. induction ds as [|d ds IH]; intros a b E; [exact E|]. cbn [fold_left]. apply IH.
      rewrite Zplus_mod, Zmult_mod, E, <- Zmult_mod, <- Zplus_mod. reflexivity. }
    apply s64_ext, Hf, s64_mod.
Qed.

Lemma parse_with_base_run before base ds rest :
  2 <= base <= 64 -> ds <> [] -> Forall (fun d => 0 <= d < base) ds -> stops base rest ->
  parse_with_base before (map digit_char ds ++ rest) base = (s64 (horner base ds), Some rest).
Proof.
  intros Hb Hne Hds Hr. unfold parse_with_base. rewrite parse_digits_run by (auto; red; lia).
  rewrite length_app, length_map.
  destruct (Nat.eqb_spec (length rest) (length ds + length rest)) as [E|_].
  - destruct ds; [contradiction|]. simpl in E. lia.
  - reflexivity.
Qed.

#[local] Opaque parse_with_base.

Lemma strto_one_digit b t :
  2 <= b <= 9 -> strto_arith_t (chr "0" + b :: chr "#" :: t) = parse_with_base (chr "#") t b.
Proof.
  intros Hb.
  assert (Hc : b = 2 \/ b = 3 \/ b = 4 \/ b = 5 \/ b = 6 \/ b = 7 \/ b = 8 \/ b = 9) by lia.
  repeat destruct Hc as [->|Hc]; [reflexivity..|]. subst; reflexivity.
Qed.

Lemma strto_two_digits b t :
  10 <= b <= 64 ->
  strto_arith_t (chr "0" + b / 10 :: chr "0" + b mod 10 :: chr "#" :: t)
  = parse_with_base (chr "#") t b.
Proof.
  intros Hb. unfold strto_arith_t, char_at, isdigit, u8, u32, wrap. cbn [nth skipn]. chars.
  pose proof (Z.div_mod b 10 ltac:(lia)) as Hdm. pose proof (Z.mod_pos_bound b 10 ltac:(lia)).
  assert (1 <= b / 10 <= 6) by lia.
  replace (48 + b / 10 - 48) with (b / 10) by ring.
  replace (48 + b mod 10 - 48) with (b mod 10) by ring.
  rewrite (Z.mod_small (b / 10)), (Z.mod_small (b mod 10)) by (change (2 ^ 32) with 4294967296; change (2 ^ 8) with 256; lia).
  destruct (Z.eqb_spec (b / 10) 0); [lia|].
  destruct (Z.eqb_spec (48 + b mod 10) 35); [lia|]. cbn [andb].
  destruct (Z.leb_spec (b mod 10) 9); [|lia]. cbn [andb].
  rewrite <- Hdm. change (35 =? 35) with true. cbn [andb].
  destruct (Z.leb_spec b 64); [|lia]. reflexivity.
Qed.

Lemma print_small b : 0 <= b < 10 -> print_arith_t b = [chr "0" + b].
Proof.
  intros Hb. unfold print_arith_t. destruct (Z.ltb_spec b 0); [lia|]. cbn [digits].
  rewrite Z.div_small, Z.mod_small by lia. reflexivity.
Qed.

Lemma print_two b : 10 <= b < 100 -> print_arith_t b = [chr "0" + b / 10; chr "0" + b mod 10].
Proof.
  intros Hb. unfold print_arith_t. destruct (Z.ltb_spec b 0); [lia|]. cbn [digits].
  pose proof (Z.div_mod b 10 ltac:(lia)). pose proof (Z.mod_pos_bound b 10 ltac:(lia)).
  assert (1 <= b / 10 <= 9) by lia.
  destruct (Z.eqb_spec (b / 10) 0); [lia|].
  rewrite (Z.div_small (b / 10)), (Z.mod_small (b / 10)) by lia. reflexivity.
Qed.

(** A literal "BASE#DIGITS" in any base from 2 to 64, with the digits 0-9,
    a-z, A-Z, "@" and "_", is read as its value modulo 2^64, up to the first
    character that is not a digit of the base. *)
Theorem based_literal base ds rest :
  2 <= base <= 64 -> ds <> [] -> Forall (fun d => 0 <= d < base) ds -> stops base rest ->
  strto_arith_t (print_arith_t base ++ chr "#" :: map digit_char ds ++ rest)
  = (s64 (horner base ds), Some rest).
Proof.
  intros Hb Hne Hds Hr. destruct (Z.lt_ge_cases base 10).
  - rewrite print_small by lia. cbn [app]. rewrite strto_one_digit by lia.
    apply parse_with_base_run; assumption.
  - rewrite print_two by lia. cbn [app]. rewrite strto_two_digits by lia.
    apply parse_with_base_run; assumption.
Qed.

Lemma based_literal_witness :
  strto_arith_t (bytes_of "64#a_@Z9+1") = (s64 (horner 64 [10; 63; 62; 61; 9]), Some (bytes_of "+1")).
Proof.
  apply (based_literal 64 [10; 63; 62; 61; 9] (bytes_of "+1")).
  - lia.
  - discriminate.
  - repeat constructor; lia.
  - reflexivity.
Defined.

(** ** Decimal numbers *)

Lemma horner_app base ds d : horner base (ds ++ [d]) = horner base ds * base + d.
Proof. unfold horner. rewrite fold_left_app. reflexivity. Qed.

Lemma digits_spec fuel n acc :
  0 <= n < 10 ^ Z.of_nat fuel -> (0 < fuel)%nat ->
  exists ds, digits fuel n acc = map digit_char ds ++ acc
    /\ horner 10 ds = n /\ Forall (fun d => 0 <= d < 10) ds
    /\ ds <> [] /\ (0 < n -> nth 0 ds 0 <> 0).
Proof.
  revert n acc; induction fuel as [|fuel IH]; intros n acc Hn Hf; [lia|].
  cbn [digits]. pose proof (Z.mod_pos_bound n 10 ltac:(lia)) as Hm.
  pose proof (Z.div_mod n 10 ltac:(lia)) as Hdm.
  assert (Hc : chr "0" + n mod 10 = digit_char (n mod 10)).
  { unfold digit_char. destruct (Z.ltb_spec (n mod 10) 10); [reflexivity|lia]. }
  rewrite Hc. destruct (Z.eqb_spec (n / 10) 0) as [E|E].
  - exists [n mod 10]. rewrite E in Hdm. unfold horner; simpl.
    repeat split; auto; try discriminate; lia.
  - assert (Hlt : 0 <= n / 10 < 10 ^ Z.of_nat fuel).
    { rewrite Nat2Z.inj_succ, Z.pow_succ_r in Hn by lia. split; [apply Z.div_pos; lia|].
      apply Z.div_lt_upper_bound; lia. }
    destruct fuel as [|fuel']; [simpl in Hlt; lia|].
    destruct (IH (n / 10) (digit_char (n mod 10) :: acc) Hlt ltac:(lia))
      as (ds & -> & Hh & Hds & Hne & Hlead).
    exists (ds ++ [n mod 10]). rewrite map_app, <- app_assoc, horner_app, Hh.
    repeat split; auto; try lia.
    + apply Forall_app; auto.
    + destruct ds; discriminate.
    + intros _. destruct ds as [|d ds]; [contradiction|]. apply Hlead. lia.
Qed.

(** A text that cannot continue a number. *)
Definition ends_number (rest : list Z) : Prop :=
  match rest with [] => True | ch :: _ => is_in_name ch = false /\ ch <> chr "#" end.

Lemma u8_u32 a : u8 (u32 a) = u8 a.
Proof.
  unfold u8, u32, wrap. apply Z.mod_mod_divide. exists (2 ^ 24). reflexivity.
Qed.

Lemma not_in_name_digit base ch :
  2 <= base <= 10 -> is_in_name ch = false -> digit_value ch base = None.
Proof.
  unfold is_in_name, isalnum. intros Hb [_ Hn]%orb_false_iff. unfold digit_value.
  rewrite <- u8_u32 in Hn. pose proof (wrap_range 32 (ch - chr "0") ltac:(lia)) as [Hlo _].
  fold (u32 (ch - chr "0")) in Hlo. set (dg := u32 (ch - chr "0")) in *. cbv zeta.
  assert (Hge : 10 <= dg).
  { destruct (Z.leb_spec (u8 dg) 9) as [|Hgt]; [discriminate|].
    destruct (Z.lt_ge_cases dg 10); [|assumption].
    unfold u8 in Hgt. rewrite wrap_small in Hgt by (red; lia). lia. }
  destruct (Z.leb_spec 10 dg); [|lia]. cbn [andb].
  destruct (dg <=? chr "z" - chr "0").
  - destruct (Z.ltb_spec 36 base); [lia|]. cbn [andb].
    destruct (Z.ltb_spec (u32 (Z.lor ch 32 - (chr "a" - 10))) 10); [reflexivity|].
    destruct (Z.leb_spec base (u32 (Z.lor ch 32 - (chr "a" - 10)))); [reflexivity|lia].
  - destruct (Z.leb_spec base dg); [reflexivity|lia].
Qed.

Lemma ends_number_stops base rest : 2 <= base <= 10 -> ends_number rest -> stops base rest.
Proof. destruct rest; simpl; [auto|]. intros Hb []. apply not_in_name_digit; assumption. Qed.

Lemma digit_char_dec d : 0 <= d < 10 -> digit_char d = 48 + d.
Proof. intros. unfold digit_char. destruct (Z.ltb_spec d 10); [reflexivity|lia]. Qed.

(** A decimal literal with a non-zero first digit is read in base 10. *)
Lemma strto_decimal d ds rest :
  1 <= d <= 9 -> Forall (fun d => 0 <= d < 10) ds -> ends_number rest ->
  strto_arith_t (map digit_char (d :: ds) ++ rest)
  = parse_with_base 0 (map digit_char (d :: ds) ++ rest) 10.
Proof.
  intros Hd Hds Hr. unfold strto_arith_t. cbn [map app].
  change (char_at 0 (digit_char d :: map digit_char ds ++ rest)) with (digit_char d).
  rewrite (digit_char_dec d) by lia. chars.
  replace (u32 (48 + d - 48)) with d.
  2: { unfold u32. rewrite wrap_small; [ring|red; lia]. }
  destruct (Z.eqb_spec d 0); [lia|].
  set (t := map digit_char ds ++ rest).
  change (char_at 1 (48 + d :: t)) with (char_at 0 t).
  change (char_at 2 (48 + d :: t)) with (char_at 1 t).
  assert (Hnot : forall r, ends_number r -> char_at 0 r <> 35).
  { intros [|c r]; [discriminate|]. intros [_ Hc]. exact Hc. }
  assert (H0 : char_at 0 t <> 35).
  { subst t. destruct Hds as [|d' ds Hd' Hds]; [apply Hnot, Hr|].
    unfold char_at; cbn [map app nth]. rewrite digit_char_dec by assumption. lia. }
  destruct (Z.eqb_spec (char_at 0 t) 35); [contradiction|]. cbn [andb].
  destruct (isdigit (char_at 0 t)) eqn:Hdig; [|reflexivity]. cbn [andb].
  assert (H1 : char_at 1 t <> 35).
  { subst t. destruct Hds as [|d' ds Hd' Hds].
    - destruct rest as [|c rest]; [discriminate|]. destruct Hr as [Hr _].
      apply isdigit_in_name in Hdig. unfold char_at in Hdig. simpl in Hdig. congruence.
    - destruct Hds as [|d2 ds Hd2 Hds]; [apply (Hnot _ Hr)|].
      unfold char_at; cbn [map app nth]. rewrite digit_char_dec by assumption. lia. }
  destruct (Z.eqb_spec (char_at 1 t) 35); [contradiction|]. reflexivity.
Qed.

Lemma strto_zero rest :
  ends_number rest -> strto_arith_t (chr "0" :: rest) = parse_with_base 0 (chr "0" :: rest) 8.
Proof.
  intros Hr. unfold strto_arith_t.
  change (char_at 0 (chr "0" :: rest)) with (chr "0").
  change (char_at 1 (chr "0" :: rest)) with (char_at 0 rest).
  change (u32 (chr "0" - chr "0") =? 0) with true. cbv iota.
  destruct (Z.eqb_spec (Z.lor (char_at 0 rest) 32) (chr "x")) as [E|]; [|reflexivity].
  exfalso. destruct rest as [|c rest]; [discriminate|]. destruct Hr as [Hr _].
  unfold char_at in E; cbn [nth] in E. unfold is_in_name, isalnum in Hr. rewrite E in Hr.
  rewrite orb_false_iff in Hr. destruct Hr as [_ Hr].
  destruct (u8 (c - chr "0") <=? 9); discriminate.
Qed.

(** A decimal literal followed by something that cannot continue it is its
    value. *)
Lemma strto_print n rest :
  0 <= n < 10 ^ 20 -> ends_number rest ->
  strto_arith_t (digits 20 n [] ++ rest) = (s64 n, Some rest).
Proof.
  intros Hn Hr. destruct (Z.eq_dec n 0) as [->|Hn0].
  - change (digits 20 0 [] ++ rest) with (chr "0" :: rest). rewrite strto_zero by assumption.
    apply (parse_with_base_run 0 8 [0] rest); [lia|discriminate|repeat constructor; lia|].
    apply ends_number_stops; [lia|assumption].
  - destruct (digits_spec 20 n [] Hn ltac:(lia)) as (ds & -> & Hh & Hds & Hne & Hlead).
    rewrite app_nil_r. destruct Hds as [|d ds Hd Hds]; [contradiction|].
    assert (d <> 0) by (apply Hlead; lia).
    rewrite strto_decimal by (auto; lia).
    rewrite parse_with_base_run; [rewrite Hh; reflexivity|lia|discriminate| |].
    + constructor; auto.
    + apply ends_number_stops; [lia|assumption].
Qed.
