(* ===== verification/ShMathSem.v ===== *)
(** * What an arithmetic expression evaluates to

    The grammar of [shell/math.c] as a syntax tree with precedence levels, a
    reference evaluator on trees, and the theorem that running
    [evaluate_string] on the text of a tree computes what the reference
    evaluator does: values, assignments, errors, and the branch of "?:" that
    is not taken. *)

From Stdlib Require Import Ascii String ZArith List Lia Bool.
From S2P Require Import Prelude Ctype ShMath ShMathNum ShMathSafety.
Import ListNotations.
Local Open Scope Z_scope.

(** ** Expressions *)

Inductive uop : Set := Neg | Not | Bnot.

(** The operators of [x op= e]. *)
Inductive aop : Set := Aor | Aand | Axor | Aadd | Asub | Alsh | Arsh | Amul | Adiv | Arem.

Inductive aexpr : Type :=
| ENum (n : Z)
| EVar (x : list Z)
| EParen (e : aexpr)
| EUn (u : uop) (e : aexpr)
| EBin (b : bop) (e1 e2 : aexpr)
| ECond (c e1 e2 : aexpr)
| EAsg (o : option aop) (x : list Z) (e : aexpr)
| EPre (inc : bool) (x : list Z)
| EPost (inc : bool) (x : list Z).

Definition uop_tok (u : uop) : Z :=
  match u with Neg => TOK_UMINUS | Not => TOK_NOT | Bnot => TOK_BNOT end.

Definition aop_bop (a : aop) : bop :=
  match a with
  | Aor => Bor | Aand => Band | Axor => Bxor | Aadd => Add | Asub => Sub
  | Alsh => Lshift | Arsh => Rshift | Amul => Mul | Adiv => Div | Arem => Rem
  end.

Definition asg_tok (o : option aop) : Z :=
  match o with
  | None => TOK_ASSIGN
  | Some Aor => TOK_OR_ASSIGN | Some Aand => TOK_AND_ASSIGN | Some Axor => TOK_XOR_ASSIGN
  | Some Aadd => TOK_ADD_ASSIGN | Some Asub => TOK_SUB_ASSIGN
  | Some Alsh => TOK_LSHIFT_ASSIGN | Some Arsh => TOK_RSHIFT_ASSIGN
  | Some Amul => TOK_MUL_ASSIGN | Some Adiv => TOK_DIV_ASSIGN | Some Arem => TOK_REM_ASSIGN
  end.

(** ** Text *)

Definition uop_text (u : uop) : list Z :=
  bytes_of (match u with Neg => "-" | Not => "!" | Bnot => "~" end).
Definition bop_text (b : bop) : list Z :=
  bytes_of (match b with
  | Bor => "|" | Oror => "||" | Band => "&" | Bxor => "^" | Andand => "&&" | Eq => "=="
  | Ne => "!=" | Ge => ">=" | Rshift => ">>" | Lshift => "<<" | Gt => ">" | Lt => "<"
  | Le => "<=" | Mul => "*" | Add => "+" | Sub => "-" | Comma => "," | Exp => "**"
  | Div => "/" | Rem => "%"
  end).
Definition asg_text (o : option aop) : list Z :=
  bytes_of (match o with
  | None => "=" | Some Aor => "|=" | Some Aand => "&=" | Some Axor => "^="
  | Some Aadd => "+=" | Some Asub => "-=" | Some Alsh => "<<=" | Some Arsh => ">>="
  | Some Amul => "*=" | Some Adiv => "/=" | Some Arem => "%="
  end).
Definition incdec_text (inc : bool) : list Z := bytes_of (if inc then "++" else "--").

(** The tokens of an expression, each followed by the white space [ws]. *)
Fixpoint etext (ws : list Z) (e : aexpr) : list Z :=
  match e with
  | ENum n => digits 20 n [] ++ ws
  | EVar x => x ++ ws
  | EParen e => bytes_of "(" ++ ws ++ etext ws e ++ bytes_of ")" ++ ws
  | EUn u e => uop_text u ++ ws ++ etext ws e
  | EBin b e1 e2 => etext ws e1 ++ bop_text b ++ ws ++ etext ws e2
  | ECond c e1 e2 =>
      etext ws c ++ bytes_of "?" ++ ws ++ etext ws e1 ++ bytes_of ":" ++ ws ++ etext ws e2
  | EAsg o x e => x ++ ws ++ asg_text o ++ ws ++ etext ws e
  | EPre inc x => incdec_text inc ++ ws ++ x ++ ws
  | EPost inc x => x ++ ws ++ incdec_text inc ++ ws
  end.

(** ** Precedence *)

Definition bop_level (b : bop) : Z := PREC (bop_tok b).

Definition level (e : aexpr) : Z :=
  match e with
  | ENum _ | EVar _ | EParen _ => 20
  | EPost _ _ => 19
  | EPre _ _ | EUn _ _ => 16
  | EBin b _ _ => bop_level b
  | ECond _ _ _ => 4
  | EAsg _ _ _ => 2
  end.

Definition valid_name (x : list Z) : Prop :=
  match x with
  | [] => False
  | ch :: t => is_name ch = true /\ Forall (fun c => is_in_name c = true) t
  end.

(** The text of the tree parses as the tree: operands bind at least as
    tightly as their operator, on the associative side; the exponent is right
    associative, the others left associative. *)
Fixpoint wf (e : aexpr) : Prop :=
  match e with
  | ENum n => 0 <= n < 10 ^ 20
  | EVar x | EPre _ x | EPost _ x => valid_name x
  | EParen e => wf e
  | EUn _ e => wf e /\ 16 <= level e
  | EBin Exp e1 e2 => wf e1 /\ wf e2 /\ 16 <= level e1 /\ 15 <= level e2
  | EBin b e1 e2 => wf e1 /\ wf e2 /\ bop_level b <= level e1 /\ bop_level b < level e2
  | ECond c e1 e2 => wf c /\ wf e1 /\ wf e2 /\ 5 <= level c /\ 4 <= level e2
  | EAsg _ x e => valid_name x /\ wf e /\ 2 <= level e
  end.

Fixpoint no_post (e : aexpr) : Prop :=
  match e with
  | ENum _ | EVar _ | EPre _ _ => True
  | EPost _ _ => False
  | EParen e | EUn _ e | EAsg _ _ e => no_post e
  | EBin _ e1 e2 => no_post e1 /\ no_post e2
  | ECond c e1 e2 => no_post c /\ no_post e1 /\ no_post e2
  end.

(** No "x++" in a branch of "?:" (the evaluator rejects it in the branch not
    taken, see [postfix_in_skipped_branch] below). *)
Fixpoint branches_ok (e : aexpr) : Prop :=
  match e with
  | ENum _ | EVar _ | EPre _ _ | EPost _ _ => True
  | EParen e | EUn _ e | EAsg _ _ e => branches_ok e
  | EBin _ e1 e2 => branches_ok e1 /\ branches_ok e2
  | ECond c e1 e2 => branches_ok c /\ no_post e1 /\ no_post e2 /\ branches_ok e1 /\ branches_ok e2
  end.

Fixpoint cond_depth (e : aexpr) : Z :=
  match e with
  | ENum _ | EVar _ | EPre _ _ | EPost _ _ => 0
  | EParen e | EUn _ e | EAsg _ _ e => cond_depth e
  | EBin _ e1 e2 => Z.max (cond_depth e1) (cond_depth e2)
  | ECond c e1 e2 => Z.max (cond_depth c) (1 + Z.max (cond_depth e1) (cond_depth e2))
  end.

Lemma cond_depth_nonneg e : 0 <= cond_depth e.
Proof. induction e; cbn [cond_depth]; lia. Qed.

(** ** The reference evaluator *)

Section Reference.
Context {W : Type} `{ShellVars W}.

(** The number a variable's text stands for. *)
Definition read_arith_t (v : list Z) : Z :=
  match v with
  | ch :: t => if ch =? chr "-" then s64 (- fst (strto_arith_t t)) else fst (strto_arith_t v)
  | [] => 0
  end.

Definition getv (w : W) (x : list Z) : Z :=
  match lookupvar w x with Some v => read_arith_t v | None => 0 end.
Definition setv (w : W) (x : list Z) (v : Z) : W := setvar w x (print_arith_t v).

Definition uop_denote (u : uop) (v : Z) : Z :=
  match u with Neg => s64 (- v) | Not => b2z (v =? 0) | Bnot => Z.lnot v end.

(** The final store and the value, or the store at the time of the error. *)
Fixpoint eval (w : W) (e : aexpr) : (W * Z) + (W * arith_err) :=
  match e with
  | ENum n => inl (w, s64 n)
  | EVar x => inl (w, getv w x)
  | EParen e => eval w e
  | EUn u e =>
      match eval w e with inl (w, v) => inl (w, uop_denote u v) | r => r end
  | EBin b e1 e2 =>
      match eval w e1 with
      | inl (w, v1) =>
          match eval w e2 with
          | inl (w, v2) =>
              match bop_denote b v1 v2 with inl v => inl (w, v) | inr e => inr (w, e) end
          | r => r
          end
      | r => r
      end
  | ECond c e1 e2 =>
      match eval w c with
      | inl (w, v) => if v =? 0 then eval w e2 else eval w e1
      | r => r
      end
  | EAsg None x e =>
      match eval w e with inl (w, v) => inl (setv w x v, v) | r => r end
  | EAsg (Some a) x e =>
      let old := getv w x in
      match eval w e with
      | inl (w, v) =>
          match bop_denote (aop_bop a) old v with
          | inl v => inl (setv w x v, v)
          | inr e => inr (w, e)
          end
      | r => r
      end
  | EPre inc x =>
      let v := s64 (if inc then getv w x + 1 else getv w x - 1) in inl (setv w x v, v)
  | EPost inc x =>
      let v := getv w x in inl (setv w x (s64 (if inc then v + 1 else v - 1)), v)
  end.

(** Every variable holds a number the way the shell stores it. *)
Definition numeric (w : W) : Prop :=
  forall x v, lookupvar w x = Some v -> exists n, in_s64 n /\ v = print_arith_t n.
End Reference.

(** ** Lexing the text of an expression *)

Definition blank (c : Z) : Prop := In c [9; 10; 11; 12; 13; 32].

Ltac split_in H :=
  repeat match type of H with
  | _ \/ _ => destruct H as [H|H]
  | False => destruct H
  end.

Lemma skip_blank c s : blank c -> skip_whitespace (c :: s) = skip_whitespace s.
Proof. intros Hc. cbn in Hc. split_in Hc; subst; reflexivity. Qed.

Lemma skip_blanks ws s : Forall blank ws -> skip_whitespace (ws ++ s) = skip_whitespace s.
Proof.
  induction 1 as [|c ws Hc _ IH]; [reflexivity|]. cbn [app]. rewrite skip_blank; assumption.
Qed.

Lemma blank_not_in_name c : blank c -> is_in_name c = false.
Proof. intros Hc. cbn in Hc. split_in Hc; subst; reflexivity. Qed.

(** Every token of the table is found when a blank follows it. *)
Lemma find_op_blank p op c t :
  In (p, op) op_tokens -> blank c -> find_op op_tokens (p ++ c :: t) = Some (op, c :: t).
Proof.
  intros Hp Hc. cbn in Hp, Hc.
  split_in Hp; injection Hp as <- <-; split_in Hc; subst c; reflexivity.
Qed.

Definition op_char (ch : Z) : bool :=
  negb (is_name ch) && negb (isdigit ch) && negb (isspace ch).

Lemma op_tokens_head p op :
  In (p, op) op_tokens -> exists ch t, p = ch :: t /\ op_char ch = true.
Proof.
  intros Hp. cbn in Hp. split_in Hp; injection Hp as <- <-; eauto.
Qed.

Definition incdec (op : Z) : bool := (op =? TOK_POST_INC) || (op =? TOK_POST_DEC).

Lemma not_incdec_op ns p op c t :
  In (p, op) op_tokens -> blank c -> incdec op = false -> not_incdec ns (p ++ c :: t) = false.
Proof.
  intros Hp Hc Hop. cbn in Hp, Hc.
  split_in Hp; injection Hp as <- <-; try discriminate Hop; split_in Hc; subst c; reflexivity.
Qed.

(** "++" and "--" are taken as operators next to a name. *)
Lemma not_incdec_name ns inc t :
  match ns with x :: _ => var_name x <> None | [] => False end
  \/ is_name (char_at 0 (skip_whitespace t)) = true ->
  not_incdec ns (incdec_text inc ++ t) = false.
Proof.
  intros Hn. unfold not_incdec.
  assert (E : exists c, incdec_text inc = [c; c]) by (destruct inc; eexists; reflexivity).
  destruct E as [c ->]. cbn [app]. destruct Hn as [Hn|Hn].
  - destruct ns as [|x ns]; [contradiction|]. destruct (var_name x); [|contradiction].
    rewrite andb_false_r. reflexivity.
  - unfold is_name in Hn. rewrite orb_comm in Hn. cbv zeta. rewrite Hn, andb_false_r. reflexivity.
Qed.

Lemma skip_in_name_run x k :
  Forall (fun c => is_in_name c = true) x -> starts is_in_name k = false ->
  skip_in_name (x ++ k) = k.
Proof.
  intros Hx Hk. induction Hx as [|c x Hc _ IH]; cbn [app skip_in_name].
  - destruct k as [|c k]; [reflexivity|]. cbn [starts skip_in_name] in *. rewrite Hk. reflexivity.
  - rewrite Hc. exact IH.
Qed.

Lemma endofname_run x k :
  valid_name x -> starts is_in_name k = false -> endofname (x ++ k) = k.
Proof.
  destruct x as [|ch x]; [contradiction|]. intros [Hch Hx] Hk. cbn [app].
  rewrite endofname_name by assumption. apply skip_in_name_run; assumption.
Qed.

Lemma name_text_run x k :
  valid_name x -> starts is_in_name k = false -> name_text (x ++ k) = x.
Proof.
  intros Hx Hk. unfold name_text. rewrite endofname_run by assumption.
  rewrite length_app, Nat.add_sub, firstn_app, Nat.sub_diag, firstn_all. apply app_nil_r.
Qed.

Definition decimal (ch : Z) : Prop := In ch [48; 49; 50; 51; 52; 53; 54; 55; 56; 57].

Lemma decimal_class ch : decimal ch -> isdigit ch = true /\ is_name ch = false.
Proof. intros Hc. cbn in Hc. split_in Hc; subst; split; reflexivity. Qed.

Lemma digits_head n :
  0 <= n < 10 ^ 20 -> exists ch t, digits 20 n [] = ch :: t /\ decimal ch.
Proof.
  intros Hn. destruct (digits_spec 20 n [] Hn ltac:(lia)) as (ds & -> & _ & Hds & Hne & _).
  destruct Hds as [|d ds Hd _]; [contradiction|]. cbn [map app].
  do 2 eexists. split; [reflexivity|]. rewrite digit_char_dec by assumption. unfold decimal. cbn [In]. lia.
Qed.

(** The text of an expression starts with its first token. *)
Definition token_head (s : list Z) : Prop :=
  match s with [] => False | ch :: _ => isspace ch = false end.

Lemma token_head_app s t : token_head s -> token_head (s ++ t).
Proof. destruct s; [contradiction|auto]. Qed.

Lemma skip_token s : token_head s -> skip_whitespace s = s.
Proof. destruct s; [contradiction|]. cbn [token_head]. intros E. rewrite skip_whitespace_head, E. reflexivity. Qed.

Lemma valid_name_head x : valid_name x -> token_head x.
Proof.
  destruct x; [contradiction|]. intros [Hx _]. apply in_name_not_space, is_name_in_name, Hx.
Qed.

Lemma etext_head ws e : wf e -> token_head (etext ws e).
Proof.
  induction e; cbn [etext wf]; intros Hw; repeat apply token_head_app;
    try solve [tauto | apply valid_name_head; tauto].
  - destruct (digits_head _ Hw) as (ch & t & -> & [Hd _]%decimal_class).
    apply in_name_not_space, isdigit_in_name, Hd.
  - reflexivity.
  - destruct u; reflexivity.
  - apply IHe1. destruct b; tauto.
  - destruct inc; reflexivity.
Qed.

(** ** Room on the stacks *)

Fixpoint ntok (e : aexpr) : Z :=
  match e with
  | ENum _ | EVar _ => 1
  | EParen e | EAsg _ _ e => 2 + ntok e
  | EUn _ e => 1 + ntok e
  | EBin _ e1 e2 => 1 + ntok e1 + ntok e2
  | ECond c e1 e2 => 2 + ntok c + ntok e1 + ntok e2
  | EPre _ _ | EPost _ _ => 2
  end.

Lemma ntok_pos e : 1 <= ntok e.
Proof. induction e; cbn [ntok]; lia. Qed.

Lemma expr_len_from_app b s t :
  Forall (fun c => isspace c = false) s -> s <> [] ->
  expr_len_from b (s ++ t) = Z.of_nat (length s) + expr_len_from false t.
Proof.
  intros Hs. revert b. induction Hs as [|c s Hc Hs IH]; intros b Hne; [contradiction|].
  cbn [app expr_len_from]. rewrite Hc. destruct s as [|c' s].
  - reflexivity.
  - rewrite IH by discriminate. cbn [length]. lia.
Qed.

Lemma blank_space c : blank c -> isspace c = true.
Proof. intros Hc. cbn in Hc. split_in Hc; subst; reflexivity. Qed.

Lemma expr_len_from_blanks ws t : Forall blank ws -> expr_len_from true (ws ++ t) = expr_len_from true t.
Proof.
  induction 1 as [|c ws Hc _ IH]; [reflexivity|]. cbn [app expr_len_from].
  rewrite blank_space by assumption. exact IH.
Qed.

(** A token and the blanks after it. *)
Lemma expr_len_token b s ws t :
  Forall (fun c => isspace c = false) s -> s <> [] -> Forall blank ws -> ws <> [] ->
  2 + expr_len_from true t <= expr_len_from b (s ++ ws ++ t).
Proof.
  intros Hs Hne Hws Hw. rewrite expr_len_from_app by assumption.
  destruct Hws as [|c ws Hc Hws]; [contradiction|]. cbn [app expr_len_from].
  rewrite blank_space, expr_len_from_blanks by assumption.
  destruct s; [contradiction|]. cbn [length]. lia.
Qed.

Definition token_text (s : list Z) : Prop := Forall (fun c => isspace c = false) s /\ s <> [].

Lemma token_text_dec s :
  forallb (fun c => negb (isspace c)) s = true -> s <> [] -> token_text s.
Proof.
  intros Hs Hne. split; [|assumption]. apply Forall_forall. intros c Hc.
  rewrite forallb_forall in Hs. apply negb_true_iff, Hs, Hc.
Qed.

Lemma valid_name_token x : valid_name x -> token_text x.
Proof.
  destruct x as [|ch x]; [contradiction|]. intros [Hc Hx]. split; [|discriminate].
  constructor; [apply in_name_not_space, is_name_in_name, Hc|].
  eapply Forall_impl; [|exact Hx]. apply in_name_not_space.
Qed.

Lemma digits_token n : 0 <= n < 10 ^ 20 -> token_text (digits 20 n []).
Proof.
  intros Hn. destruct (digits_spec 20 n [] Hn ltac:(lia)) as (ds & -> & _ & Hds & Hne & _).
  rewrite app_nil_r. split.
  - apply Forall_map. eapply Forall_impl; [|exact Hds]. intros d Hd. cbv beta in Hd.
    apply in_name_not_space, isdigit_in_name, decimal_class.
    rewrite digit_char_dec by assumption. unfold decimal. cbn [In]. lia.
  - destruct ds; [contradiction|discriminate].
Qed.

Lemma wf_bin b e1 e2 : wf (EBin b e1 e2) -> wf e1 /\ wf e2.
Proof. destruct b; cbn [wf]; tauto. Qed.

(** The text has two characters of room for each token. *)
Lemma etext_len ws e : Forall blank ws -> ws <> [] -> wf e -> forall b k,
  2 * ntok e + expr_len_from true k <= expr_len_from b (etext ws e ++ k).
Proof.
  intros Hws Hne.
  assert (T : forall s b t, token_text s -> 2 + expr_len_from true t <= expr_len_from b (s ++ ws ++ t)).
  { intros s b t []. apply expr_len_token; assumption. }
  assert (L : forall s, forallb (fun c => negb (isspace c)) s = true -> s <> [] -> token_text s)
    by apply token_text_dec.
  induction e; intros Hw bb k; cbn [etext ntok]; rewrite <- ?app_assoc.
  - apply T, digits_token, Hw.
  - apply T, valid_name_token, Hw.
  - pose proof (T (bytes_of "(") bb (etext ws e ++ bytes_of ")" ++ ws ++ k)).
    pose proof (IHe Hw true (bytes_of ")" ++ ws ++ k)).
    pose proof (T (bytes_of ")") true k).
    assert (token_text (bytes_of "(") /\ token_text (bytes_of ")")) as []
      by (split; apply L; [reflexivity|discriminate|reflexivity|discriminate]). intuition lia.
  - pose proof (T (uop_text u) bb (etext ws e ++ k)). destruct Hw as [Hw _].
    pose proof (IHe Hw true k).
    assert (token_text (uop_text u)) by (apply L; destruct u; reflexivity || discriminate). intuition lia.
  - apply wf_bin in Hw as [H1 H2]. pose proof (IHe1 H1 bb (bop_text b ++ ws ++ etext ws e2 ++ k)).
    pose proof (T (bop_text b) true (etext ws e2 ++ k)). pose proof (IHe2 H2 true k).
    assert (token_text (bop_text b)) by (apply L; destruct b; reflexivity || discriminate). intuition lia.
  - destruct Hw as (H0 & H1 & H2 & _).
    pose proof (IHe1 H0 bb (bytes_of "?" ++ ws ++ etext ws e2 ++ bytes_of ":" ++ ws ++ etext ws e3 ++ k)).
    pose proof (T (bytes_of "?") true (etext ws e2 ++ bytes_of ":" ++ ws ++ etext ws e3 ++ k)).
    pose proof (IHe2 H1 true (bytes_of ":" ++ ws ++ etext ws e3 ++ k)).
    pose proof (T (bytes_of ":") true (etext ws e3 ++ k)). pose proof (IHe3 H2 true k).
    assert (token_text (bytes_of "?") /\ token_text (bytes_of ":")) as []
      by (split; apply L; [reflexivity|discriminate|reflexivity|discriminate]). intuition lia.
  - destruct Hw as (Hx & Hw & _). apply valid_name_token in Hx.
    pose proof (T x bb (asg_text o ++ ws ++ etext ws e ++ k)).
    pose proof (T (asg_text o) true (etext ws e ++ k)). pose proof (IHe Hw true k).
    assert (token_text (asg_text o)) by (apply L; destruct o as [[]|]; reflexivity || discriminate).
    intuition lia.
  - apply valid_name_token in Hw. pose proof (T (incdec_text inc) bb (x ++ ws ++ k)).
    pose proof (T x true k).
    assert (token_text (incdec_text inc)) by (apply L; destruct inc; reflexivity || discriminate).
    intuition lia.
  - apply valid_name_token in Hw. pose proof (T x bb (incdec_text inc ++ ws ++ k)).
    pose proof (T (incdec_text inc) true k).
    assert (token_text (incdec_text inc)) by (apply L; destruct inc; reflexivity || discriminate).
    intuition lia.
Qed.

(** ** Popping the operator stack *)

Lemma fix_prec_idem p : fix_assignment_prec (fix_assignment_prec p) = fix_assignment_prec p.
Proof.
  unfold fix_assignment_prec. destruct (Z.eqb_spec p 3) as [->|H]; [reflexivity|]. cbn [b2z].
  rewrite Z.sub_0_r. destruct (Z.eqb_spec p 3); [contradiction|]. cbn [b2z]. lia.
Qed.

(** [op], about to be pushed or a closing parenthesis, makes pending
    operators of level [p] be applied. *)
Definition reduces (op p : Z) : Prop :=
  op = TOK_RPAREN \/
  fix_assignment_prec (PREC op) < p
  \/ fix_assignment_prec (PREC op) = p /\ is_right_associative p = false.

(** Operators of level [p] are not applied to what the stack [ops] holds. *)
Definition shields (p : Z) (ops : list Z) : Prop :=
  match ops with
  | [] => False
  | prev :: _ =>
      fix_assignment_prec (PREC prev) < p
      \/ fix_assignment_prec (PREC prev) = p /\ is_right_associative p = true
  end.

Lemma reduces_mono op p p' : reduces op p -> p <= p' -> reduces op p'.
Proof.
  unfold reduces. intros [H|[H|[H H']]] Hp; [auto|right; left; lia|].
  destruct (Z.eq_dec p p') as [<-|]; [auto|right; left; lia].
Qed.

Lemma shields_mono p p' ops : shields p ops -> p <= p' -> shields p' ops.
Proof.
  destruct ops as [|prev ops]; [auto|]. cbn [shields]. intros [H|[H H']] Hp; [left; lia|].
  destruct (Z.eq_dec p p') as [<-|]; [auto|left; lia].
Qed.

Section Stacks.
Context {W : Type} `{ShellVars W}.

Lemma pop_ops_fix op p ops (m : math_state_t W) ns tl :
  pop_ops op (fix_assignment_prec p) ops m ns tl = pop_ops op p ops m ns tl.
Proof. destruct ops; [reflexivity|]. cbn [pop_ops]. rewrite fix_prec_idem. reflexivity. Qed.

Lemma pop_stops op ops (m : math_state_t W) ns tl :
  op <> TOK_RPAREN -> shields (fix_assignment_prec (PREC op)) ops ->
  pop_ops op (PREC op) ops m ns tl = Pop_check m ns ops tl.
Proof.
  intros Hop Hs. destruct ops as [|prev ops]; [contradiction|]. cbn [pop_ops shields] in *.
  apply Z.eqb_neq in Hop. rewrite Hop. cbn [negb andb].
  destruct Hs as [Hs|[-> ->]].
  - apply Z.ltb_lt in Hs. rewrite Hs. reflexivity.
  - rewrite Z.eqb_refl, orb_true_r. reflexivity.
Qed.

(** The condition under which the loop goes on to apply [prev]. *)
Lemma reduces_go op prev :
  reduces op (fix_assignment_prec (PREC prev)) -> prev <> TOK_LPAREN ->
  ((op =? TOK_RPAREN) && (prev =? TOK_LPAREN)) = false
  /\ (negb (op =? TOK_RPAREN)
      && ((fix_assignment_prec (PREC prev) <? fix_assignment_prec (PREC op))
          || ((fix_assignment_prec (PREC prev) =? fix_assignment_prec (PREC op))
              && is_right_associative (fix_assignment_prec (PREC op))))) = false.
Proof.
  intros Hr Hp. apply Z.eqb_neq in Hp. rewrite Hp, andb_false_r. split; [reflexivity|].
  destruct Hr as [->|[Hr|[Hr Ha]]]; [reflexivity| |].
  - apply andb_false_intro2. destruct (Z.ltb_spec (fix_assignment_prec (PREC prev)) (fix_assignment_prec (PREC op))); [lia|].
    destruct (Z.eqb_spec (fix_assignment_prec (PREC prev)) (fix_assignment_prec (PREC op))); [lia|reflexivity].
  - rewrite Hr, Ha, Z.ltb_irrefl, andb_false_r. apply andb_false_r.
Qed.

Lemma pop_apply op prev ops (m : math_state_t W) ns tl :
  reduces op (fix_assignment_prec (PREC prev)) -> prev <> TOK_LPAREN ->
  prev <> TOK_CONDITIONAL_SEP ->
  pop_ops op (PREC op) (prev :: ops) m ns tl
  = match arith_apply m prev ns with
    | inr e => Pop_exit (Failed m e)
    | inl (m', ns') => pop_ops op (PREC op) ops m' ns' tl
    end.
Proof.
  intros Hr Hp Hs. cbn [pop_ops]. destruct (reduces_go _ _ Hr Hp) as [-> ->].
  apply Z.eqb_neq in Hs. rewrite Hs.
  destruct (arith_apply m prev ns) as [[m' ns']|e]; [apply pop_ops_fix|reflexivity].
Qed.

Lemma pop_cond op ops (m : math_state_t W) x3 x2 x1 ns tl :
  reduces op 4 ->
  pop_ops op (PREC op) (TOK_CONDITIONAL_SEP :: TOK_CONDITIONAL :: ops) m (x3 :: x2 :: x1 :: ns) tl
  = pop_ops op (PREC op) ops
      (if tl =? evaluation_disabled m then set_disabled m 0 else m)
      (mk_von (if negb (val x1 =? 0) then val x2 else val x3) None :: ns) (u32 (tl - 1)).
Proof.
  intros Hr. cbn [pop_ops].
  destruct (reduces_go op TOK_CONDITIONAL_SEP Hr ltac:(discriminate)) as [-> ->].
  change (negb (TOK_CONDITIONAL =? TOK_CONDITIONAL)) with false. cbv iota.
  change (TOK_CONDITIONAL_SEP =? TOK_CONDITIONAL_SEP) with true. cbv iota.
  cbn [arith_apply]. change (TOK_CONDITIONAL_SEP =? TOK_CONDITIONAL_SEP) with true. cbv iota.
  apply pop_ops_fix.
Qed.

Lemma pop_paren prec ops (m : math_state_t W) x ns tl :
  pop_ops TOK_RPAREN prec (TOK_LPAREN :: ops) m (x :: ns) tl
  = Pop_paren m (mk_von (val x) None :: ns) ops tl.
Proof. reflexivity. Qed.

(** ** Applying an operator in either mode *)

Definition M (w : W) (d : Z) : math_state_t W := mk_ms w d [].

Lemma apply_unary (w : W) d u x ns :
  arith_apply (M w d) (uop_tok u) (x :: ns)
  = inl (M w d, (if d =? 0 then mk_von (uop_denote u (val x)) None else x) :: ns).
Proof.
  unfold arith_apply, store_result. cbn [evaluation_disabled M].
  destruct (Z.eqb_spec d 0) as [->|Hd]; destruct u; reflexivity.
Qed.

Lemma apply_binary (w : W) d b x y ns :
  (d = 0 -> in_s64 (val x) /\ in_s64 (val y)) ->
  arith_apply (M w d) (bop_tok b) (y :: x :: ns)
  = if d =? 0
    then match bop_denote b (val x) (val y) with
         | inl v => inl (M w d, mk_von v None :: ns)
         | inr e => inr e
         end
    else inl (M w d, x :: ns).
Proof.
  intros Hxy. unfold arith_apply, store_result. cbn [evaluation_disabled M].
  destruct (Z.eqb_spec d 0) as [Hd|Hd].
  - destruct (Hxy Hd). rewrite <- binary_op_denote by assumption. destruct b; reflexivity.
  - destruct b; reflexivity.
Qed.

Lemma binary_op_asg a x y : binary_op (asg_tok (Some a)) x y = binary_op (bop_tok (aop_bop a)) x y.
Proof. destruct a; reflexivity. Qed.

(** What an assignment stores. *)
Definition asg_denote (o : option aop) (x y : Z) : Z + arith_err :=
  match o with None => inl y | Some a => bop_denote (aop_bop a) x y end.

Lemma asg_op_denote o x y :
  (o <> None -> in_s64 x) -> in_s64 y -> binary_op (asg_tok o) x y = asg_denote o x y.
Proof.
  destruct o as [a|]; [|reflexivity]. intros Hx Hy. rewrite binary_op_asg.
  apply binary_op_denote; [apply Hx; discriminate|assumption].
Qed.

Lemma apply_asg (w : W) o x n y ns :
  (o <> None -> in_s64 x) -> in_s64 (val y) ->
  arith_apply (M w 0) (asg_tok o) (y :: mk_von x (Some n) :: ns)
  = match asg_denote o x (val y) with
    | inl v => inl (M (setv w (name_text n) v) 0, mk_von v None :: ns)
    | inr e => inr e
    end.
Proof.
  intros Hx Hy. rewrite <- asg_op_denote by assumption.
  unfold arith_apply, store_result, setv. cbn [evaluation_disabled M val].
  destruct o as [[]|]; reflexivity.
Qed.

Lemma apply_asg_disabled (w : W) d o y x ns :
  d <> 0 -> arith_apply (M w d) (asg_tok o) (y :: x :: ns) = inl (M w d, x :: ns).
Proof.
  intros Hd. apply Z.eqb_neq in Hd. unfold arith_apply. cbn [evaluation_disabled M]. rewrite Hd.
  destruct o as [[]|]; reflexivity.
Qed.

Definition pre_tok (inc : bool) : Z := if inc then TOK_PRE_INC else TOK_PRE_DEC.
Definition post_tok (inc : bool) : Z := if inc then TOK_POST_INC else TOK_POST_DEC.

Lemma apply_pre (w : W) (inc : bool) x n ns :
  let v := s64 (if inc then x + 1 else x - 1) in
  arith_apply (M w 0) (pre_tok inc) (mk_von x (Some n) :: ns)
  = inl (M (setv w (name_text n) v) 0, mk_von v None :: ns).
Proof. destruct inc; reflexivity. Qed.

Lemma apply_pre_disabled (w : W) d inc x ns :
  d <> 0 -> arith_apply (M w d) (pre_tok inc) (x :: ns) = inl (M w d, x :: ns).
Proof.
  intros Hd. apply Z.eqb_neq in Hd. unfold arith_apply, store_result. cbn [evaluation_disabled M].
  rewrite Hd. destruct inc; reflexivity.
Qed.

Lemma apply_post (w : W) (inc : bool) x n ns :
  arith_apply (M w 0) (post_tok inc) (mk_von x (Some n) :: ns)
  = inl (M (setv w (name_text n) (s64 (if inc then x + 1 else x - 1))) 0, mk_von x None :: ns).
Proof. destruct inc; reflexivity. Qed.
End Stacks.

(** ** Numbers as the shell stores them *)

Lemma strto_digits n : 0 <= n < 10 ^ 20 -> strto_arith_t (digits 20 n []) = (s64 n, Some []).
Proof.
  intros Hn. rewrite <- (app_nil_r (digits 20 n [])). apply strto_print; [assumption|exact I].
Qed.

Lemma read_print n : in_s64 n -> read_arith_t (print_arith_t n) = n.
Proof.
  intros Hn. pose proof Hn as [Hlo Hhi]. unfold print_arith_t.
  destruct (Z.ltb_spec n 0) as [Hneg|Hpos].
  - cbn [read_arith_t]. rewrite Z.eqb_refl, strto_digits by lia. cbn [fst].
    rewrite s64_opp, Z.opp_involutive. apply s64_small, Hn.
  - assert (Hr : 0 <= n < 10 ^ 20) by lia. pose proof (strto_digits n Hr) as Hs.
    destruct (digits_head n Hr) as (ch & t & E & [Hd _]%decimal_class). rewrite E in *.
    unfold read_arith_t. rewrite Hs. cbn [fst].
    destruct (Z.eqb_spec ch (chr "-")) as [->|]; [discriminate Hd|]. apply s64_small, Hn.
Qed.

Section Store.
Context {W : Type} `{ShellVarsLaws W}.

Lemma getv_range (w : W) x : numeric w -> in_s64 (getv w x).
Proof.
  intros Hw. unfold getv. destruct (lookupvar w x) as [v|] eqn:E; [|red; lia].
  destruct (Hw _ _ E) as (n & Hn & ->). rewrite read_print; assumption.
Qed.

Lemma numeric_setv (w : W) x v : numeric w -> in_s64 v -> numeric (setv w x v).
Proof.
  intros Hw Hv y t Hy. unfold setv in Hy. destruct (list_eqb x y) eqn:E.
  - apply list_eqb_spec in E as <-. rewrite lookup_set_eq in Hy. injection Hy as <-. eauto.
  - rewrite lookup_set_ne in Hy; [eauto|]. intros ->.
    rewrite (proj2 (list_eqb_spec y y) eq_refl) in E. discriminate.
Qed.

Lemma uop_range u v : in_s64 v -> in_s64 (uop_denote u v).
Proof.
  destruct u; cbn [uop_denote]; auto using s64_range, in_s64_b2z.
  unfold in_s64, Z.lnot. lia.
Qed.

(** Values are 64-bit, and a numeric store stays numeric. *)
Lemma eval_range e (w : W) :
  numeric w ->
  match eval w e with inl (w', v) => numeric w' /\ in_s64 v | inr _ => True end.
Proof.
  revert w; induction e; intros w Hw; cbn [eval]; auto using s64_range, getv_range.
  - apply IHe, Hw.
  - specialize (IHe w Hw). destruct (eval w e) as [[w' v]|]; [|exact I].
    split; [tauto|apply uop_range; tauto].
  - specialize (IHe1 w Hw). destruct (eval w e1) as [[w1 v1]|]; [|exact I].
    destruct IHe1 as [Hw1 Hv1]. specialize (IHe2 w1 Hw1).
    destruct (eval w1 e2) as [[w2 v2]|]; [|exact I]. destruct IHe2 as [Hw2 Hv2].
    destruct (bop_denote b v1 v2) eqn:E; [|exact I].
    split; [assumption|]. eapply bop_denote_range; [exact Hv1|exact Hv2|exact E].
  - specialize (IHe1 w Hw). destruct (eval w e1) as [[w1 v1]|]; [|exact I].
    destruct (v1 =? 0); [apply IHe3|apply IHe2]; tauto.
  - specialize (IHe w Hw). destruct o as [a|]; destruct (eval w e) as [[w1 v1]|]; try exact I;
      destruct IHe as [Hw1 Hv1].
    + destruct (bop_denote _ _ _) eqn:E; [|exact I].
      assert (in_s64 z) by (eapply bop_denote_range; [apply getv_range, Hw|exact Hv1|exact E]).
      auto using numeric_setv.
    + auto using numeric_setv.
  - auto using numeric_setv, s64_range.
  - auto using numeric_setv, s64_range, getv_range.
Qed.

End Store.

(** ** Single steps of the loop *)

Section Steps.
Context {W : Type} `{ShellVars W}.
Variables (opsize numsize : Z) (lookup : math_state_t W -> list Z -> outcome W).
Variable uninit : list Z -> Z.
Variable start : nat.

Lemma push_room (m : math_state_t W) ns ops lt tl e op :
  Z.of_nat (length ops) < opsize ->
  push_op opsize (mk_ev m ns ops lt tl e) op = Tok_next (mk_ev m ns (op :: ops) op tl e).
Proof. intros Hl. unfold push_op. cbn [opstack]. apply Z.ltb_lt in Hl. rewrite Hl. reflexivity. Qed.

(** A binary operator, "?", ":" or ")" after a value. *)
Lemma found_binary (m : math_state_t W) ns ops lt tl e op :
  PREC lt = PREC_POST -> 0 < PREC op < UNARYPREC ->
  tok_found1 opsize (mk_ev m ns ops lt tl e) op
  = match pop_ops op (PREC op) ops m ns tl with
    | Pop_exit o => Tok_exit o
    | Pop_paren m ns ops tl => Tok_next (mk_ev m ns ops TOK_VALUE tl e)
    | Pop_check m ns ops tl => check_cond opsize (mk_ev m ns ops TOK_VALUE tl e) op
    end.
Proof.
  intros Hlt Hop. unfold tok_found1. cbn [lasttok]. rewrite Hlt, Z.eqb_refl.
  unfold unary_form. rewrite Z.eqb_refl. unfold PREC_LPAREN.
  destruct (Z.eqb_spec (PREC op) 0); [lia|]. destruct (Z.ltb_spec (PREC op) UNARYPREC); [|lia].
  cbn [negb andb]. reflexivity.
Qed.

Definition is_prefix (op : Z) : bool := negb (negb (PREC op =? PREC_LPAREN) && (PREC op <? UNARYPREC)).

(** A prefix operator, or "(". *)
Lemma found_prefix (m : math_state_t W) ns ops lt tl e op op' :
  PREC lt <> PREC_POST -> unary_form lt op = Some op' -> is_prefix op' = true ->
  Z.of_nat (length ops) < opsize ->
  tok_found1 opsize (mk_ev m ns ops lt tl e) op = Tok_next (mk_ev m ns (op' :: ops) op' tl e).
Proof.
  intros Hlt Hu Hp Hl. unfold tok_found1. cbn [lasttok]. apply Z.eqb_neq in Hlt. rewrite Hlt, Hu.
  unfold is_prefix in Hp. apply negb_true_iff in Hp. cbv zeta. rewrite Hp. apply push_room, Hl.
Qed.

Lemma not_value lt : PREC lt <> PREC_POST -> (lt =? TOK_VALUE) = false.
Proof. intros Hv. apply Z.eqb_neq. intros ->. apply Hv. reflexivity. Qed.

(** The loop at the text [s]. *)
Lemma step_char (m : math_state_t W) ns ops lt tl r ch t :
  skip_whitespace r = ch :: t ->
  ev_step opsize numsize lookup uninit start (mk_ev m ns ops lt tl (InExpr r))
  = let st := mk_ev m ns ops lt tl (InExpr r) in
    if is_name ch then step_name numsize lookup uninit st (ch :: t)
    else if isdigit ch then step_number numsize st (ch :: t)
    else step_op opsize st (ch :: t).
Proof. intros E. unfold ev_step. cbn [expr]. rewrite E. reflexivity. Qed.

Lemma step_end (m : math_state_t W) ns ops lt tl r :
  skip_whitespace r = [] -> start <> 0%nat ->
  ev_step opsize numsize lookup uninit start (mk_ev m ns ops lt tl (InExpr r))
  = no_insert (tok_found1 opsize (mk_ev m ns ops lt tl END_POINTER) TOK_RPAREN).
Proof.
  intros E Hs. unfold ev_step. cbn [expr]. rewrite E. apply Nat.eqb_neq in Hs. rewrite Hs. reflexivity.
Qed.

(** A number after which the text cannot continue it. *)
Lemma step_literal (m : math_state_t W) ns ops lt tl r n k :
  skip_whitespace r = digits 20 n [] ++ k -> 0 <= n < 10 ^ 20 -> ends_number k ->
  Z.of_nat (length ns) < numsize ->
  ev_step opsize numsize lookup uninit start (mk_ev m ns ops lt tl (InExpr r))
  = Continue (mk_ev m (mk_von (s64 n) None :: ns) ops TOK_VALUE tl (InExpr k)).
Proof.
  intros E Hn Hk Hl. destruct (digits_head n Hn) as (ch & t & Ed & [Hd Hna]%decimal_class).
  pose proof (strto_print n k Hn Hk) as Hs. rewrite Ed in *. cbn [app] in *.
  rewrite (step_char _ _ _ _ _ _ _ _ E). cbv zeta. rewrite Hna, Hd.
  unfold step_number. cbn [numstack]. apply Z.leb_gt in Hl. rewrite Hl, Hs.
  replace (isalnum (char_at 0 k) || (char_at 0 k =? chr "_")) with false; [reflexivity|].
  destruct k as [|c k]; [reflexivity|]. destruct Hk as [Hk _]. unfold is_in_name in Hk.
  unfold char_at; cbn [nth]. rewrite orb_comm, Hk. reflexivity.
Qed.
End Steps.

(** A variable that holds a number evaluates to it, whatever names are
    under evaluation. *)
Lemma evaluate_number {W} `{ShellVars W} uninit depth (w : W) L n :
  in_s64 n ->
  evaluate_string uninit (S depth) (mk_ms w 0 L) (print_arith_t n) = Returned (mk_ms w 0 L) n.
Proof.
  intros Hn. pose proof Hn as [Hlo Hhi]. cbn [evaluate_string]. unfold print_arith_t.
  destruct (Z.ltb_spec n 0) as [Hneg|Hpos].
  - destruct (digits_head (- n) ltac:(lia)) as (ch & t & E & Hd).
    assert (Hch : isspace ch = false)
      by (apply in_name_not_space, isdigit_in_name, decimal_class, Hd).
    set (e := chr "-" :: digits 20 (- n) []).
    change (skip_whitespace e) with e. unfold ev_fuel.
    assert (Hlen : expr_len e = 2 + expr_len t).
    { unfold e. rewrite E, !expr_len_cons by (assumption || reflexivity). lia. }
    pose proof (expr_len_nonneg t).
    replace (length e + 3)%nat with (S (S (S (S (length t + 1))))) by (unfold e; rewrite E; simpl; lia).
    cbn [ev_loop]. erewrite step_char by reflexivity. cbv zeta.
    change (is_name (chr "-")) with false. change (isdigit (chr "-")) with false. cbv iota.
    assert (Hop : forall opsize (st : ev_state W), step_op opsize st e =
      no_insert (tok_found1 opsize (mk_ev (ms st) (numstack st) (opstack st) (lasttok st) (ternary_level st)
         (InExpr (digits 20 (- n) []))) TOK_SUB)).
    { intros opsize st. unfold step_op, e. rewrite E. cbv zeta.
      clear E Hch Hlen e. cbn in Hd. split_in Hd; subst ch; reflexivity. }
    rewrite Hop. cbn [ms numstack opstack lasttok ternary_level].
    erewrite found_prefix; [|discriminate|reflexivity|reflexivity|unfold opstack_size; simpl; lia].
    cbn [no_insert]. rewrite step_literal with (n := - n) (k := []);
      [|rewrite app_nil_r; apply skip_token; rewrite E; exact Hch|lia|exact I|].
    2: { unfold numstack_size. simpl. pose proof (Z.div_pos (expr_len e + 1) 2). lia. }
    erewrite step_end; [|reflexivity|discriminate]. cbn.
    rewrite s64_opp, Z.opp_involutive, s64_small by exact Hn. reflexivity.
  - destruct (digits_head n ltac:(lia)) as (ch & t & E & [Hd _]%decimal_class).
    assert (Hch : isspace ch = false) by (apply in_name_not_space, isdigit_in_name, Hd).
    set (e := digits 20 n []) in *.
    replace (skip_whitespace e) with e by (symmetry; apply skip_token; rewrite E; exact Hch).
    unfold ev_fuel.
    replace (length e + 3)%nat with (S (S (S (S (length t))))) by (rewrite E; simpl; lia).
    assert (Hlen : expr_len e = 1 + expr_len t) by (rewrite E; apply expr_len_cons, Hch).
    pose proof (expr_len_nonneg t).
    cbn [ev_loop]. rewrite step_literal with (n := n) (k := []);
      [|rewrite app_nil_r; apply skip_token; fold e; rewrite E; exact Hch|lia|exact I|].
    2: { unfold numstack_size. simpl. pose proof (Z.div_pos (expr_len e + 1) 2). lia. }
    erewrite step_end; [|reflexivity|rewrite E; discriminate]. cbn.
    rewrite s64_small by exact Hn. reflexivity.
Qed.

(** ** Reading an expression *)

Lemma skip_idem s : skip_whitespace (skip_whitespace s) = skip_whitespace s.
Proof.
  induction s as [|ch s IH]; [reflexivity|]. rewrite skip_whitespace_head.
  destruct (isspace ch) eqn:E; [exact IH|]. rewrite skip_whitespace_head, E. reflexivity.
Qed.

(** The name before [k] is read, not assigned by "=". *)
Definition follow (k : list Z) : Prop :=
  let s := skip_whitespace k in
  negb (char_at 0 s =? chr "=") || (char_at 1 s =? chr "=") = true.

Lemma follow_op p op c t :
  In (p, op) op_tokens -> op <> TOK_ASSIGN -> blank c -> follow (p ++ c :: t).
Proof.
  intros Hp Ha Hc. cbn in Hp, Hc.
  split_in Hp; injection Hp as <- <-; try contradiction; split_in Hc; subst c; reflexivity.
Qed.

Ltac in_tokens := repeat first [left; reflexivity | right].

Lemma bop_in_tokens b : In (bop_text b, bop_tok b) op_tokens.
Proof. destruct b; in_tokens. Qed.
Lemma asg_in_tokens o : In (asg_text o, asg_tok o) op_tokens.
Proof. destruct o as [[]|]; in_tokens. Qed.
Lemma incdec_in_tokens inc : In (incdec_text inc, post_tok inc) op_tokens.
Proof. destruct inc; in_tokens. Qed.

(** "-" is read as subtraction before [unary_form] makes it a sign. *)
Definition uop_read (u : uop) : Z := match u with Neg => TOK_SUB | _ => uop_tok u end.

Lemma uop_in_tokens u : In (uop_text u, uop_read u) op_tokens.
Proof. destruct u; in_tokens. Qed.

(** The operator ":" first acts as ")". *)
Definition first_op (op : Z) : Z := if op =? TOK_CONDITIONAL_SEP then TOK_RPAREN else op.

Section Reading.
Context {W : Type} `{ShellVarsLaws W}.
Variables (opsize numsize : Z) (lookup : math_state_t W -> list Z -> outcome W).
Variable uninit : list Z -> Z.
Variable start : nat.
Variable ws : list Z.
Hypothesis ws_blank : Forall blank ws.
Hypothesis ws_some : ws <> [].
Hypothesis lookup_ok : forall (w : W) x k,
  numeric w -> valid_name x -> starts is_in_name k = false ->
  lookup (M w 0) (x ++ k) = Returned (M w 0) (getv w x).

Abbreviation step := (ev_step opsize numsize lookup uninit start).
Abbreviation loop := (ev_loop opsize numsize lookup uninit).

(** The loop gets from [st] to the state or the outcome [r]. *)
Definition goes (st : ev_state W) (r : ev_state W + outcome W) : Prop :=
  exists n, forall fuel,
    loop (n + fuel) start st = match r with inl st' => loop fuel start st' | inr o => o end.

Lemma goes_refl st : goes st (inl st).
Proof. exists O. reflexivity. Qed.

Lemma goes_step st st' r : step st = Continue st' -> goes st' r -> goes st r.
Proof. intros E [n Hn]. exists (S n). intros fuel. cbn [Nat.add ev_loop]. rewrite E. apply Hn. Qed.

Lemma goes_exit st o : step st = Exit o -> goes st (inr o).
Proof. intros E. exists 1%nat. intros fuel. cbn [Nat.add ev_loop]. rewrite E. reflexivity. Qed.

Lemma goes_trans st st' r : goes st (inl st') -> goes st' r -> goes st r.
Proof.
  intros [n Hn] [n' Hn']. exists (n + n')%nat. intros fuel.
  rewrite <- Nat.add_assoc, Hn. apply Hn'.
Qed.

Lemma ws_cons : exists c t, ws = c :: t /\ blank c.
Proof. destruct ws_blank as [|c t Hc]; [contradiction|eauto]. Qed.

Lemma starts_ws k : starts is_in_name (ws ++ k) = false.
Proof. destruct ws_cons as (c & t & -> & Hc). apply blank_not_in_name, Hc. Qed.

Lemma ends_ws k : ends_number (ws ++ k).
Proof.
  destruct ws_cons as (c & t & -> & Hc). split; [apply blank_not_in_name, Hc|].
  intros ->. cbn in Hc. split_in Hc; discriminate.
Qed.

Lemma skip_ws k : skip_whitespace (ws ++ k) = skip_whitespace k.
Proof. apply skip_blanks, ws_blank. Qed.

Lemma follow_token p op k : In (p, op) op_tokens -> op <> TOK_ASSIGN -> follow (p ++ ws ++ k).
Proof. destruct ws_cons as (c & t & -> & Hc). intros. cbn [app]. eapply follow_op; eassumption. Qed.

Lemma not_incdec_token ns p op k :
  In (p, op) op_tokens -> incdec op = false -> not_incdec ns (p ++ ws ++ k) = false.
Proof. destruct ws_cons as (c & t & -> & Hc). intros. cbn [app]. eapply not_incdec_op; eassumption. Qed.

Lemma skip_op_text p op k : In (p, op) op_tokens -> skip_whitespace (p ++ k) = p ++ k.
Proof.
  intros Hp. apply skip_token. destruct (op_tokens_head _ _ Hp) as (ch & t & -> & Hc).
  unfold op_char in Hc. cbn [app token_head]. destruct (isspace ch); [|reflexivity].
  rewrite andb_false_r in Hc. discriminate.
Qed.

Lemma step_token m ns ops lt tl r p op k :
  In (p, op) op_tokens -> skip_whitespace r = p ++ ws ++ k ->
  not_incdec ns (p ++ ws ++ k) = false ->
  step (mk_ev m ns ops lt tl (InExpr r))
  = tok_found opsize (mk_ev m ns ops lt tl (InExpr (ws ++ k))) op.
Proof.
  intros Hp E Hn. destruct (op_tokens_head _ _ Hp) as (ch & t & Ep & Hc).
  rewrite (step_char _ _ _ _ _ _ _ _ _ _ _ ch (t ++ ws ++ k)) by (rewrite E, Ep; reflexivity).
  unfold op_char in Hc. cbv zeta.
  destruct (is_name ch); [discriminate|]. destruct (isdigit ch); [discriminate|].
  change (ch :: t ++ ws ++ k) with ((ch :: t) ++ ws ++ k). rewrite <- Ep.
  unfold step_op. cbn [numstack]. rewrite Hn.
  destruct ws_cons as (c & t' & Ews & Hb). rewrite Ews at 1. cbn [app].
  rewrite (find_op_blank p op c _ Hp Hb), Ews. reflexivity.
Qed.

(** Reading a name: its value, an assignment target, or nothing where
    evaluation is disabled. *)
Lemma step_name_text m ns ops lt tl r x k :
  valid_name x -> skip_whitespace r = x ++ ws ++ k ->
  step (mk_ev m ns ops lt tl (InExpr r))
  = step_name numsize lookup uninit (mk_ev m ns ops lt tl (InExpr r)) (x ++ ws ++ k).
Proof.
  intros Hx E. destruct x as [|ch x]; [contradiction|]. destruct Hx as [Hch Hx].
  rewrite (step_char _ _ _ _ _ _ _ _ _ _ _ ch (x ++ ws ++ k) E). cbv zeta. rewrite Hch. reflexivity.
Qed.

Lemma step_var w ns ops lt tl r x k :
  valid_name x -> numeric w -> Z.of_nat (length ns) < numsize ->
  skip_whitespace r = x ++ ws ++ k -> follow k ->
  step (mk_ev (M w 0) ns ops lt tl (InExpr r))
  = Continue (mk_ev (M w 0) (mk_von (getv w x) (Some (x ++ ws ++ k)) :: ns) ops TOK_VALUE tl
                    (InExpr (skip_whitespace k))).
Proof.
  intros Hx Hw Hl E Hf. rewrite (step_name_text _ _ _ _ _ _ _ _ Hx E). unfold step_name.
  cbn [numstack ms evaluation_disabled M]. apply Z.leb_gt in Hl. rewrite Hl.
  rewrite endofname_run by (assumption || apply starts_ws).
  rewrite skip_ws. unfold follow in Hf. cbv zeta in *. rewrite Hf.
  change (mk_ms w 0 []) with (M w 0). rewrite lookup_ok by (assumption || apply starts_ws).
  reflexivity.
Qed.

Lemma step_target w ns ops lt tl r x k :
  valid_name x -> Z.of_nat (length ns) < numsize ->
  skip_whitespace r = x ++ ws ++ bytes_of "=" ++ ws ++ k ->
  exists v, step (mk_ev (M w 0) ns ops lt tl (InExpr r))
  = Continue (mk_ev (M w 0) (mk_von v (Some (x ++ ws ++ bytes_of "=" ++ ws ++ k)) :: ns) ops
                    TOK_VALUE tl (InExpr (bytes_of "=" ++ ws ++ k))).
Proof.
  intros Hx Hl E. rewrite (step_name_text _ _ _ _ _ _ _ _ Hx E). unfold step_name.
  cbn [numstack ms evaluation_disabled M]. apply Z.leb_gt in Hl. rewrite Hl.
  rewrite endofname_run by (assumption || apply starts_ws).
  rewrite skip_ws. cbv zeta.
  change (skip_whitespace (bytes_of "=" ++ ws ++ k)) with (bytes_of "=" ++ ws ++ k).
  destruct ws_cons as (c & t & -> & Hc). cbn in Hc.
  eexists. split_in Hc; subst c; reflexivity.
Qed.

Lemma step_var_disabled w d ns ops lt tl r x k :
  valid_name x -> d <> 0 -> Z.of_nat (length ns) < numsize ->
  skip_whitespace r = x ++ ws ++ k ->
  step (mk_ev (M w d) ns ops lt tl (InExpr r))
  = Continue (mk_ev (M w d) (mk_von 0 None :: ns) ops TOK_VALUE tl (InExpr (ws ++ k))).
Proof.
  intros Hx Hd Hl E. rewrite (step_name_text _ _ _ _ _ _ _ _ Hx E). unfold step_name.
  cbn [numstack ms evaluation_disabled M]. apply Z.leb_gt in Hl. rewrite Hl.
  rewrite endofname_run by (assumption || apply starts_ws).
  apply Z.eqb_neq in Hd. rewrite Hd. reflexivity.
Qed.

(** *** What reading an expression amounts to *)

(** The result of [e]: that of the reference evaluator, or, where evaluation
    is disabled, some value and the store unchanged. *)
Definition spec (d : Z) (w : W) (e : aexpr) (res : (W * Z) + (W * arith_err)) : Prop :=
  if d =? 0 then res = eval w e else exists v, res = inl (w, v).

(** What is left of [e] on the stacks, its pending operators [opse] and
    values [nse], becomes its result when an operator that binds less tightly
    than [p] or a closing parenthesis comes. *)
Definition pend (p d tl : Z) (m : math_state_t W) (opse : list Z)
    (nse : list var_or_num_t) (tl' : Z) (res : (W * Z) + (W * arith_err)) : Prop :=
  forall op ops ns, reduces op p ->
  match res with
  | inl (w', v) => exists vn,
      pop_ops op (PREC op) (opse ++ ops) m (nse ++ ns) tl'
      = pop_ops op (PREC op) ops (M w' d) (mk_von v vn :: ns) tl
  | inr (w', err) =>
      pop_ops op (PREC op) (opse ++ ops) m (nse ++ ns) tl' = Pop_exit (Failed (M w' 0) err)
  end.

Definition reads (e : aexpr) w d tl ns ops lt r k : Prop :=
  exists res, spec d w e res /\
  ((exists m' nse opse lt' tl' r',
      goes (mk_ev (M w d) ns ops lt tl (InExpr r))
           (inl (mk_ev m' (nse ++ ns) (opse ++ ops) lt' tl' (InExpr r')))
      /\ PREC lt' = PREC_POST /\ skip_whitespace r' = skip_whitespace k
      /\ pend (level e) d tl m' opse nse tl' res)
   \/ (exists w' err, res = inr (w', err)
      /\ goes (mk_ev (M w d) ns ops lt tl (InExpr r)) (inr (Failed (M w' 0) err)))).

Lemma pend_value p d tl w v vn :
  pend p d tl (M w d) [] [mk_von v vn] tl (inl (w, v)).
Proof. intros op ops ns _. exists vn. reflexivity. Qed.

(** Applying [prev] to the result [res2] of its last operand gives [res]. *)
Definition applies (d prev : Z) (xs : list var_or_num_t)
    (res2 res : (W * Z) + (W * arith_err)) : Prop :=
  match res2 with
  | inl (w2, v2) => forall vn ns,
      match arith_apply (M w2 d) prev (mk_von v2 vn :: xs ++ ns) with
      | inl (m', ns') => exists w' v' vn',
          res = inl (w', v') /\ m' = M w' d /\ ns' = mk_von v' vn' :: ns
      | inr err => res = inr (w2, err) /\ d = 0
      end
  | inr x => res = inr x
  end.

(** An operator [prev] that takes [e], still pending, as its last operand. *)
Lemma pend_push p p2 d tl m opse nse tl' res2 prev xs res :
  pend p2 d tl m opse nse tl' res2 ->
  prev <> TOK_LPAREN -> prev <> TOK_CONDITIONAL_SEP ->
  p <= fix_assignment_prec (PREC prev) -> p <= p2 ->
  applies d prev xs res2 res ->
  pend p d tl m (opse ++ [prev]) (nse ++ xs) tl' res.
Proof.
  intros Hp Hl Hs Hprev Hp2 Happ op ops ns Hr. unfold applies in Happ.
  specialize (Hp op (prev :: ops) (xs ++ ns) (reduces_mono _ _ _ Hr Hp2)).
  rewrite <- !app_assoc. cbn [app]. destruct res2 as [[w2 v2]|[w2 err]].
  - destruct Hp as [vn Hp]. rewrite Hp, pop_apply by eauto using reduces_mono.
    specialize (Happ vn ns). destruct (arith_apply _ _ _) as [[m' ns']|err].
    + destruct Happ as (w' & v' & vn' & -> & -> & ->). eauto.
    + destruct Happ as [-> ->]. reflexivity.
  - rewrite Happ. exact Hp.
Qed.

(** What reading [e] and then the token [op] leads to. *)
Definition reads_token (e : aexpr) w d tl ns ops lt r op k : Prop :=
  (exists w' err, spec d w e (inr (w', err))
     /\ goes (mk_ev (M w d) ns ops lt tl (InExpr r)) (inr (Failed (M w' 0) err)))
  \/ (exists w' v vn m' ns' ops' lt' tl' r', spec d w e (inl (w', v))
     /\ goes (mk_ev (M w d) ns ops lt tl (InExpr r)) (inl (mk_ev m' ns' ops' lt' tl' (InExpr r')))
     /\ step (mk_ev m' ns' ops' lt' tl' (InExpr r'))
        = tok_found opsize (mk_ev m' ns' ops' lt' tl' (InExpr (ws ++ k))) op
     /\ PREC lt' = PREC_POST
     /\ pop_ops (first_op op) (PREC (first_op op)) ops' m' ns' tl'
        = pop_ops (first_op op) (PREC (first_op op)) ops (M w' d) (mk_von v vn :: ns) tl).

Lemma found_exit (m : math_state_t W) ns ops lt tl e op o :
  PREC lt = PREC_POST -> 0 < PREC op < UNARYPREC ->
  pop_ops (first_op op) (PREC (first_op op)) ops m ns tl = Pop_exit o ->
  tok_found opsize (mk_ev m ns ops lt tl e) op = Exit o.
Proof.
  intros Hlt Hop Hpop. unfold tok_found, first_op in *.
  destruct (Z.eqb_spec op TOK_CONDITIONAL) as [->|_].
  - change (TOK_CONDITIONAL =? TOK_CONDITIONAL_SEP) with false in Hpop. cbv iota in Hpop.
    rewrite found_binary, Hpop by assumption. reflexivity.
  - destruct (Z.eqb_spec op TOK_CONDITIONAL_SEP) as [->|_].
    + rewrite found_binary, Hpop by (assumption || (cbv; split; reflexivity)). reflexivity.
    + rewrite found_binary, Hpop by assumption. reflexivity.
Qed.

Lemma reads_next e w d tl ns ops lt r p op k :
  reads e w d tl ns ops lt r (p ++ ws ++ k) -> In (p, op) op_tokens -> incdec op = false ->
  0 < PREC op < UNARYPREC -> reduces (first_op op) (level e) ->
  reads_token e w d tl ns ops lt r op k.
Proof.
  intros (res & Hs & [(m' & nse & opse & lt' & tl' & r' & Hg & Hlt & Hr' & Hp)|(w' & err & -> & Hg)])
    Hin Hinc Hop Hred; [|left; eauto].
  rewrite (skip_op_text p op) in Hr' by assumption.
  pose proof (step_token m' (nse ++ ns) (opse ++ ops) lt' tl' r' p op k Hin Hr'
                (not_incdec_token _ _ _ _ Hin Hinc)) as Hstep.
  specialize (Hp (first_op op) ops ns Hred). destruct res as [[w' v]|[w' err]].
  - destruct Hp as [vn Hp]. right. do 9 eexists. eauto.
  - left. exists w', err. split; [assumption|]. eapply goes_trans; [exact Hg|].
    apply goes_exit. rewrite Hstep. apply found_exit; assumption.
Qed.

(** When the text of [e] can be read. *)
Record pre (e : aexpr) (w : W) (d tl : Z) (ns : list var_or_num_t) (ops : list Z)
    (lt : Z) (r k : list Z) : Prop := {
  pre_wf : wf e;
  pre_branches : branches_ok e;
  pre_post : d <> 0 -> no_post e;
  pre_numeric : numeric w;
  pre_disabled : 0 <= d <= tl;
  pre_depth : tl + cond_depth e < 2 ^ 32;
  pre_shields : level e < UNARYPREC -> shields (level e) ops;
  pre_ops : Z.of_nat (length ops) + 2 * ntok e <= opsize;
  pre_nums : Z.of_nat (length ns) + ntok e <= numsize;
  pre_last : PREC lt <> PREC_POST;
  pre_text : skip_whitespace r = etext ws e ++ k;
  pre_follow : follow k
}.

Definition readable (e : aexpr) : Prop :=
  forall w d tl ns ops lt r k, pre e w d tl ns ops lt r k -> reads e w d tl ns ops lt r k.

Lemma spec_numeric d w e w' v :
  spec d w e (inl (w', v)) -> numeric w -> numeric w' /\ (d = 0 -> in_s64 v).
Proof.
  unfold spec. intros Hs Hw. destruct (Z.eqb_spec d 0) as [->|Hd].
  - pose proof (eval_range e w Hw) as He. rewrite <- Hs in He. tauto.
  - destruct Hs as [v' [= -> ->]]. split; [assumption|contradiction].
Qed.

Lemma spec_fails d w e x : spec d w e (inr x) -> d = 0 /\ eval w e = inr x.
Proof.
  unfold spec. destruct (Z.eqb_spec d 0) as [->|Hd]; [auto|]. intros [v ?]; discriminate.
Qed.

(** *** Literals and names *)

Lemma read_num n : readable (ENum n).
Proof.
  intros w d tl ns ops lt r k [Hwf _ _ _ _ _ _ _ Hn _ Ht _]. cbn [etext] in Ht. rewrite <- app_assoc in Ht.
  exists (inl (w, s64 n)). split; [unfold spec; destruct (d =? 0); cbn [eval]; eauto|].
  left. exists (M w d), [mk_von (s64 n) None], [], TOK_VALUE, tl, (ws ++ k).
  split; [|split; [reflexivity|split; [apply skip_ws|apply pend_value]]].
  eapply goes_step; [|apply goes_refl]. cbn [ntok] in Hn.
  rewrite step_literal with (n := n) (k := ws ++ k); [reflexivity|exact Ht|exact Hwf|apply ends_ws|lia].
Qed.

(** A name that is not assigned to. *)
Lemma read_name w d ns ops lt tl r x k :
  valid_name x -> numeric w -> Z.of_nat (length ns) < numsize ->
  skip_whitespace r = x ++ ws ++ k -> follow k ->
  exists v vn r', step (mk_ev (M w d) ns ops lt tl (InExpr r))
    = Continue (mk_ev (M w d) (mk_von v vn :: ns) ops TOK_VALUE tl (InExpr r'))
    /\ skip_whitespace r' = skip_whitespace k
    /\ (d = 0 -> v = getv w x /\ vn = Some (x ++ ws ++ k)).
Proof.
  intros Hx Hw Hl Ht Hf. destruct (Z.eq_dec d 0) as [->|Hd].
  - do 3 eexists. split; [apply (step_var w ns ops lt tl r x k); assumption|]. auto using skip_idem.
  - do 3 eexists. split; [apply (step_var_disabled w d ns ops lt tl r x k); assumption|].
    split; [apply skip_ws|contradiction].
Qed.

Lemma read_var x : readable (EVar x).
Proof.
  intros w d tl ns ops lt r k [Hwf _ _ Hw _ _ _ _ Hn _ Ht Hf]. cbn [etext ntok] in *.
  rewrite <- app_assoc in Ht.
  destruct (read_name w d ns ops lt tl r x k Hwf Hw ltac:(lia) Ht Hf) as (v & vn & r' & Hst & Hr & Hv).
  exists (inl (w, v)). split.
  { unfold spec. destruct (Z.eqb_spec d 0) as [E|]; [|eauto]. cbn [eval]. destruct (Hv E); congruence. }
  left. exists (M w d), [mk_von v vn], [], TOK_VALUE, tl, r'.
  split; [|split; [reflexivity|split; [exact Hr|apply pend_value]]].
  eapply goes_step; [exact Hst|apply goes_refl].
Qed.

(** *** Prefix operators and parentheses *)

Lemma step_prefix m ns ops lt tl r p op op' k :
  In (p, op) op_tokens -> skip_whitespace r = p ++ ws ++ k ->
  not_incdec ns (p ++ ws ++ k) = false -> op <> TOK_CONDITIONAL -> op <> TOK_CONDITIONAL_SEP ->
  PREC lt <> PREC_POST -> unary_form lt op = Some op' -> is_prefix op' = true ->
  Z.of_nat (length ops) < opsize ->
  step (mk_ev m ns ops lt tl (InExpr r))
  = Continue (mk_ev m ns (op' :: ops) op' tl (InExpr (ws ++ k))).
Proof.
  intros Hin Ht Hinc Hc Hs Hlt Hu Hp Hl. rewrite (step_token _ _ _ _ _ _ _ _ _ Hin Ht Hinc).
  unfold tok_found. apply Z.eqb_neq in Hc, Hs. rewrite Hc, Hs.
  rewrite (found_prefix _ _ _ _ _ _ _ _ _ Hlt Hu Hp Hl). reflexivity.
Qed.

Lemma level_pos e : 1 <= level e.
Proof. destruct e; cbn [level]; try lia. destruct b; cbv; discriminate. Qed.

Lemma skip_etext e k : wf e -> skip_whitespace (ws ++ etext ws e ++ k) = etext ws e ++ k.
Proof. intros Hw. rewrite skip_ws. apply skip_token, token_head_app, etext_head, Hw. Qed.

Lemma shields_lparen p ops : 1 <= p -> shields p (TOK_LPAREN :: ops).
Proof. intros. left. change (fix_assignment_prec (PREC TOK_LPAREN)) with 0. lia. Qed.

Lemma read_paren e : readable e -> readable (EParen e).
Proof.
  intros IH w d tl ns ops lt r k [Hwf Hb Hpost Hw Hd Hdep Hsh Ho Hn Hlt Ht Hf].
  cbn [etext ntok wf branches_ok no_post cond_depth] in *. rewrite <- !app_assoc in Ht.
  pose proof (ntok_pos e). pose proof (level_pos e).
  pose proof (step_prefix (M w d) ns ops lt tl r _ TOK_LPAREN TOK_LPAREN _
    ltac:(in_tokens) Ht (not_incdec_token _ _ TOK_LPAREN _ ltac:(in_tokens) eq_refl)
    ltac:(discriminate) ltac:(discriminate) Hlt
    ltac:(unfold unary_form; rewrite not_value by assumption; reflexivity) eq_refl ltac:(lia)) as Hstep.
  assert (Hpre : pre e w d tl ns (TOK_LPAREN :: ops) TOK_LPAREN
            (ws ++ etext ws e ++ bytes_of ")" ++ ws ++ k) (bytes_of ")" ++ ws ++ k)).
  { split; auto; try (cbn [length]; lia); try discriminate.
    - intros _. apply shields_lparen. lia.
    - apply skip_etext, Hwf.
    - apply (follow_token _ TOK_RPAREN); [in_tokens|discriminate]. }
  pose proof (reads_next _ _ _ _ _ _ _ _ _ TOK_RPAREN _ (IH _ _ _ _ _ _ _ _ Hpre)
    ltac:(in_tokens) eq_refl ltac:(split; reflexivity) (or_introl eq_refl))
    as [(w' & err & Hs & Hg)|(w' & v & vn & m' & ns' & ops' & lt' & tl' & r' & Hs & Hg & Hst & Hlt' & Hpop)].
  - exists (inr (w', err)). split; [exact Hs|]. right. exists w', err. split; [reflexivity|].
    eapply goes_step; eassumption.
  - exists (inl (w', v)). split; [exact Hs|]. left.
    exists (M w' d), [mk_von v None], [], TOK_VALUE, tl, (ws ++ k).
    split; [|split; [reflexivity|split; [apply skip_ws|apply pend_value]]].
    eapply goes_step; [exact Hstep|]. eapply goes_trans; [exact Hg|].
    eapply goes_step; [|apply goes_refl]. rewrite Hst.
    change (tok_found opsize ?st TOK_RPAREN) with (no_insert (tok_found1 opsize st TOK_RPAREN)).
    rewrite found_binary by (assumption || (split; reflexivity)).
    change (first_op TOK_RPAREN) with TOK_RPAREN in Hpop. rewrite Hpop, pop_paren. reflexivity.
Qed.

Lemma uop_facts u :
  uop_read u <> TOK_CONDITIONAL /\ uop_read u <> TOK_CONDITIONAL_SEP
  /\ incdec (uop_read u) = false /\ is_prefix (uop_tok u) = true
  /\ uop_tok u <> TOK_LPAREN /\ uop_tok u <> TOK_CONDITIONAL_SEP
  /\ 16 <= fix_assignment_prec (PREC (uop_tok u)) /\ PREC (uop_tok u) <> PREC_POST
  /\ forall lt, (lt =? TOK_VALUE) = false -> unary_form lt (uop_read u) = Some (uop_tok u).
Proof.
  destruct u; repeat split; try discriminate; intros lt Hlt; unfold unary_form; rewrite Hlt; reflexivity.
Qed.

(** The last operand [e] of the operator [prev] of the expression [e']. *)
Lemma reads_push e e' w0 w d tl ns ops lt0 lt r0 r k prev xs :
  goes (mk_ev (M w0 d) ns ops lt0 tl (InExpr r0))
       (inl (mk_ev (M w d) (xs ++ ns) (prev :: ops) lt tl (InExpr r))) ->
  reads e w d tl (xs ++ ns) (prev :: ops) lt r k ->
  prev <> TOK_LPAREN -> prev <> TOK_CONDITIONAL_SEP ->
  level e' <= fix_assignment_prec (PREC prev) -> level e' <= level e ->
  (forall res2, spec d w e res2 -> exists res, spec d w0 e' res /\ applies d prev xs res2 res) ->
  reads e' w0 d tl ns ops lt0 r0 k.
Proof.
  intros Hg0 (res2 & Hs2 & Hread) Hl Hsep Hprev Hle Happ.
  destruct (Happ _ Hs2) as (res & Hs & Ha). exists res. split; [exact Hs|].
  destruct Hread as [(m' & nse & opse & lt' & tl' & r' & Hg & Hlt' & Hr' & Hp)|(w' & err & -> & Hg)].
  - left. exists m', (nse ++ xs), (opse ++ [prev]), lt', tl', r'.
    rewrite <- !app_assoc. split; [eapply goes_trans; eassumption|].
    split; [assumption|]. split; [assumption|].
    eapply pend_push; [exact Hp|assumption..|exact Ha].
  - right. exists w', err. split; [exact Ha|]. eapply goes_trans; eassumption.
Qed.

Lemma read_un u e : readable e -> readable (EUn u e).
Proof.
  intros IH w d tl ns ops lt r k [[Hwf Hle] Hb Hpost Hw Hd Hdep Hsh Ho Hn Hlt Ht Hf].
  cbn [etext ntok branches_ok no_post cond_depth] in *. rewrite <- !app_assoc in Ht.
  destruct (uop_facts u) as (F1 & F2 & F3 & F4 & F5 & F6 & F7 & F8 & F9). pose proof (ntok_pos e).
  pose proof (step_prefix (M w d) ns ops lt tl r _ _ _ _ (uop_in_tokens u) Ht
    (not_incdec_token _ _ _ _ (uop_in_tokens u) F3) F1 F2 Hlt (F9 _ (not_value _ Hlt)) F4 ltac:(lia))
    as Hstep.
  assert (Hpre : pre e w d tl ns (uop_tok u :: ops) (uop_tok u) (ws ++ etext ws e ++ k) k).
  { split; auto; try (cbn [length]; lia).
    - unfold UNARYPREC. lia.
    - apply skip_etext, Hwf. }
  eapply reads_push with (xs := []); [|exact (IH _ _ _ _ _ _ _ _ Hpre)|assumption..|].
  - eapply goes_step; [exact Hstep|apply goes_refl].
  - unfold spec, applies. cbn [eval app]. intros res2 Hs2.
    destruct (Z.eqb_spec d 0) as [->|Hd0].
    + subst res2. eexists. split; [reflexivity|]. destruct (eval w e) as [[w2 v2]|x]; [|reflexivity].
      intros vn ns'. rewrite apply_unary. do 3 eexists. repeat split.
    + destruct Hs2 as [v ->]. exists (inl (w, v)). split; [eauto|].
      intros vn ns'. rewrite apply_unary. apply Z.eqb_neq in Hd0. rewrite Hd0. eauto 6.
Qed.

(** An operator that changes the variable on top of the value stack. *)
Lemma pend_incdec p d tl w v vn prev res :
  prev <> TOK_LPAREN -> prev <> TOK_CONDITIONAL_SEP -> p <= fix_assignment_prec (PREC prev) ->
  (forall ns, exists w' v' vn', res = inl (w', v')
     /\ arith_apply (M w d) prev (mk_von v vn :: ns) = inl (M w' d, mk_von v' vn' :: ns)) ->
  pend p d tl (M w d) [prev] [mk_von v vn] tl res.
Proof.
  intros Hl Hs Hp Ha op ops ns Hr. destruct (Ha ns) as (w' & v' & vn' & -> & E). exists vn'.
  cbn [app]. rewrite pop_apply by eauto using reduces_mono. rewrite E. reflexivity.
Qed.

Lemma read_pre inc x : readable (EPre inc x).
Proof.
  intros w d tl ns ops lt r k [Hwf Hb Hpost Hw Hd Hdep Hsh Ho Hn Hlt Ht Hf].
  cbn [etext ntok wf] in *. rewrite <- !app_assoc in Ht.
  assert (Hname : skip_whitespace (ws ++ x ++ ws ++ k) = x ++ ws ++ k).
  { rewrite skip_ws. apply skip_token, token_head_app, valid_name_head, Hwf. }
  pose proof (step_prefix (M w d) ns ops lt tl r _ _ (pre_tok inc) _ (incdec_in_tokens inc) Ht
    ltac:(apply not_incdec_name; right; rewrite Hname; destruct x; [contradiction|apply Hwf])
    ltac:(destruct inc; discriminate) ltac:(destruct inc; discriminate) Hlt
    ltac:(unfold unary_form; rewrite not_value by assumption; destruct inc; reflexivity)
    ltac:(destruct inc; reflexivity) ltac:(lia)) as Hstep.
  destruct (read_name w d ns (pre_tok inc :: ops) (pre_tok inc) tl (ws ++ x ++ ws ++ k) x k
              Hwf Hw ltac:(lia) Hname Hf) as (v & vn & r' & Hst & Hr & Hv).
  exists (if d =? 0 then eval w (EPre inc x) else inl (w, v)).
  split; [unfold spec; destruct (d =? 0); eauto|].
  left. exists (M w d), [mk_von v vn], [pre_tok inc], TOK_VALUE, tl, r'.
  split; [eapply goes_step; [exact Hstep|eapply goes_step; [exact Hst|apply goes_refl]]|].
  split; [reflexivity|split; [exact Hr|]].
  apply pend_incdec; try (destruct inc; discriminate).
  intros ns'. destruct (Z.eqb_spec d 0) as [->|Hd0].
  - destruct (Hv eq_refl) as [-> ->]. rewrite apply_pre, name_text_run by (assumption || apply starts_ws).
    cbn [eval]. eauto 6.
  - rewrite apply_pre_disabled by assumption. eauto 6.
Qed.

Lemma read_post inc x : readable (EPost inc x).
Proof.
  intros w d tl ns ops lt r k [Hwf Hb Hpost Hw Hd Hdep Hsh Ho Hn Hlt Ht Hf].
  cbn [etext ntok wf no_post] in *. rewrite <- !app_assoc in Ht.
  destruct (Z.eq_dec d 0) as [->|Hd0]; [|contradiction (Hpost Hd0)].
  pose proof (step_var w ns ops lt tl r x _ Hwf Hw ltac:(lia) Ht
    (follow_token _ (post_tok inc) _ (incdec_in_tokens inc) ltac:(destruct inc; discriminate))) as Hst.
  rewrite (skip_op_text _ _ _ (incdec_in_tokens inc)) in Hst.
  set (nx := x ++ ws ++ incdec_text inc ++ ws ++ k) in *.
  set (ns1 := mk_von (getv w x) (Some nx) :: ns) in *.
  assert (Hpush : step (mk_ev (M w 0) ns1 ops TOK_VALUE tl (InExpr (incdec_text inc ++ ws ++ k)))
    = Continue (mk_ev (M w 0) ns1 (post_tok inc :: ops) (post_tok inc) tl (InExpr (ws ++ k)))).
  { rewrite (step_token _ _ _ _ _ _ _ _ k (incdec_in_tokens inc) (skip_op_text _ _ _ (incdec_in_tokens inc))).
    2: { apply not_incdec_name. left. discriminate. }
    destruct inc; unfold tok_found; simpl; unfold tok_found1; simpl; rewrite push_room by lia; reflexivity. }
  exists (eval w (EPost inc x)). split; [reflexivity|].
  left. exists (M w 0), [mk_von (getv w x) (Some nx)], [post_tok inc], (post_tok inc), tl, (ws ++ k).
  split; [eapply goes_step; [exact Hst|eapply goes_step; [exact Hpush|apply goes_refl]]|].
  split; [destruct inc; reflexivity|split; [apply skip_ws|]].
  apply pend_incdec; try (destruct inc; discriminate).
  intros ns'. subst nx. rewrite apply_post, name_text_run by (assumption || apply starts_ws).
  cbn [eval]. eauto 6.
Qed.

(** *** Binary operators *)

Lemma found_push (m m' : math_state_t W) ns ns' ops ops' lt tl tl' e op :
  PREC lt = PREC_POST -> 0 < PREC op < UNARYPREC ->
  op <> TOK_RPAREN -> op <> TOK_CONDITIONAL -> op <> TOK_CONDITIONAL_SEP ->
  pop_ops op (PREC op) ops' m' ns' tl' = pop_ops op (PREC op) ops m ns tl ->
  shields (fix_assignment_prec (PREC op)) ops -> Z.of_nat (length ops) < opsize ->
  tok_found opsize (mk_ev m' ns' ops' lt tl' e) op = Continue (mk_ev m ns (op :: ops) op tl e).
Proof.
  intros Hlt Hop Hr Hc Hs Hpop Hsh Hl. unfold tok_found. apply Z.eqb_neq in Hc, Hs. rewrite Hc, Hs.
  rewrite found_binary, Hpop, pop_stops by assumption. unfold check_cond. rewrite Hc.
  rewrite push_room by assumption. reflexivity.
Qed.

Lemma bop_facts b :
  incdec (bop_tok b) = false /\ 0 < PREC (bop_tok b) < UNARYPREC
  /\ bop_tok b <> TOK_RPAREN /\ bop_tok b <> TOK_CONDITIONAL /\ bop_tok b <> TOK_CONDITIONAL_SEP
  /\ bop_tok b <> TOK_LPAREN /\ bop_tok b <> TOK_ASSIGN /\ PREC (bop_tok b) <> PREC_POST
  /\ fix_assignment_prec (PREC (bop_tok b)) = bop_level b /\ first_op (bop_tok b) = bop_tok b.
Proof. destruct b; repeat split; discriminate. Qed.

(** The left operand is complete when the operator comes, and the operator
    waits for the right operand. *)
Lemma wf_bin_levels b e1 e2 ops :
  wf (EBin b e1 e2) ->
  bop_level b <= level e1 /\ bop_level b <= level e2
  /\ reduces (bop_tok b) (level e1) /\ shields (level e2) (bop_tok b :: ops).
Proof.
  destruct b; cbn [wf]; intros (_ & _ & H1 & H2).
  all: try match type of H1 with bop_level ?b <= _ =>
         split; [exact H1|split; [apply Z.lt_le_incl, H2|split; [|left; exact H2]]];
         apply (reduces_mono _ (bop_level b)); [right; right; split; reflexivity|exact H1]
       end.
  change (bop_level Exp) with 15. repeat split; try lia.
  - right; left. change (fix_assignment_prec (PREC (bop_tok Exp))) with 15. lia.
  - apply shields_mono with 15; [right; split; reflexivity|exact H2].
Qed.

Lemma read_bin b e1 e2 : readable e1 -> readable e2 -> readable (EBin b e1 e2).
Proof.
  intros IH1 IH2 w d tl ns ops lt r k [Hwf Hb Hpost Hw Hd Hdep Hsh Ho Hn Hlt Ht Hf].
  destruct (wf_bin_levels b e1 e2 ops Hwf) as (L1 & L2 & Lr & Ls).
  apply wf_bin in Hwf as [Hwf1 Hwf2].
  cbn [etext ntok branches_ok no_post cond_depth level] in *. rewrite <- !app_assoc in Ht.
  destruct (bop_facts b) as (F1 & F2 & F3 & F4 & F5 & F6 & F7 & F8 & F9 & F10).
  pose proof (ntok_pos e1). pose proof (ntok_pos e2).
  assert (Hsh' : shields (bop_level b) ops) by (apply Hsh; unfold bop_level; lia).
  assert (Hpre1 : pre e1 w d tl ns ops lt r (bop_text b ++ ws ++ etext ws e2 ++ k)).
  { split; auto; try tauto; try lia.
    - eauto using shields_mono.
    - apply (follow_token _ _ _ (bop_in_tokens b) F7). }
  pose proof (reads_next _ _ _ _ _ _ _ _ _ _ _ (IH1 _ _ _ _ _ _ _ _ Hpre1) (bop_in_tokens b) F1 F2
    ltac:(rewrite F10; exact Lr))
    as [(w' & err & Hs & Hg)|(w1 & v1 & vn & m' & ns' & ops' & lt' & tl' & r' & Hs & Hg & Hst & Hlt' & Hpop)].
  - apply spec_fails in Hs as [-> Hs]. exists (inr (w', err)). split; [cbv beta; unfold spec; cbn; rewrite Hs; reflexivity|].
    right. eauto.
  - rewrite F10 in Hpop.
    rewrite (found_push _ _ _ _ _ _ _ _ _ _ _ Hlt' F2 F3 F4 F5 Hpop ltac:(rewrite F9; exact Hsh') ltac:(lia)) in Hst.
    destruct (spec_numeric _ _ _ _ _ Hs Hw) as [Hw1 Hv1].
    assert (Hpre2 : pre e2 w1 d tl (mk_von v1 vn :: ns) (bop_tok b :: ops) (bop_tok b)
              (ws ++ etext ws e2 ++ k) k).
    { split; auto; try tauto; try (cbn [length]; lia). apply skip_etext, Hwf2. }
    eapply reads_push with (xs := [mk_von v1 vn]);
      [|exact (IH2 _ _ _ _ _ _ _ _ Hpre2)|assumption|assumption|rewrite F9; reflexivity|exact L2|].
    + eapply goes_trans; [exact Hg|]. eapply goes_step; [exact Hst|apply goes_refl].
    + intros res2 Hs2. unfold spec in *. destruct (Z.eqb_spec d 0) as [->|Hd0].
      * subst res2. eexists. split; [reflexivity|]. cbn [eval]. rewrite <- Hs.
        pose proof (eval_range e2 w1 Hw1) as Hr2.
        destruct (eval w1 e2) as [[w2 v2]|x]; [|reflexivity]. destruct Hr2 as [_ Hv2].
        intros vn' ns0. cbn [app]. rewrite apply_binary by auto. cbn [Z.eqb val].
        destruct (bop_denote b v1 v2); [do 3 eexists; repeat split|split; reflexivity].
      * destruct Hs as [v1' [= -> ->]]. destruct Hs2 as [v2 ->]. exists (inl (w, v1')).
        split; [eauto|]. intros vn' ns0. cbn [app]. rewrite apply_binary by contradiction.
        apply Z.eqb_neq in Hd0. rewrite Hd0. eauto 6.
Qed.

(** *** Assignments *)

Lemma asg_facts o :
  incdec (asg_tok o) = false /\ 0 < PREC (asg_tok o) < UNARYPREC
  /\ asg_tok o <> TOK_RPAREN /\ asg_tok o <> TOK_CONDITIONAL /\ asg_tok o <> TOK_CONDITIONAL_SEP
  /\ asg_tok o <> TOK_LPAREN /\ PREC (asg_tok o) <> PREC_POST
  /\ fix_assignment_prec (PREC (asg_tok o)) = 2.
Proof. destruct o as [[]|]; repeat split; discriminate. Qed.

Lemma read_target w d ns ops lt tl r o x k :
  valid_name x -> numeric w -> Z.of_nat (length ns) < numsize ->
  skip_whitespace r = x ++ ws ++ asg_text o ++ ws ++ k ->
  exists v vn r', step (mk_ev (M w d) ns ops lt tl (InExpr r))
    = Continue (mk_ev (M w d) (mk_von v vn :: ns) ops TOK_VALUE tl (InExpr r'))
    /\ skip_whitespace r' = asg_text o ++ ws ++ k
    /\ (d = 0 -> vn = Some (x ++ ws ++ asg_text o ++ ws ++ k) /\ (o <> None -> v = getv w x)).
Proof.
  intros Hx Hw Hl Ht. pose proof (skip_op_text _ _ (ws ++ k) (asg_in_tokens o)) as Hsk.
  destruct o as [a|].
  - destruct (read_name w d ns ops lt tl r x _ Hx Hw Hl Ht) as (v & vn & r' & Hst & Hr & Hv).
    { apply (follow_token _ _ _ (asg_in_tokens (Some a))). destruct a; discriminate. }
    exists v, vn, r'. rewrite Hr. split; [exact Hst|]. split; [exact Hsk|]. tauto.
  - destruct (Z.eq_dec d 0) as [->|Hd].
    + destruct (step_target w ns ops lt tl r x k Hx Hl Ht) as [v Hv].
      do 3 eexists. split; [exact Hv|]. split; [exact Hsk|]. split; [reflexivity|contradiction].
    + do 3 eexists. split; [apply (step_var_disabled w d ns ops lt tl r x _ Hx Hd Hl Ht)|].
      rewrite skip_ws. split; [exact Hsk|contradiction].
Qed.

Lemma eval_asg w o x e :
  eval w (EAsg o x e)
  = match eval w e with
    | inl (w', v) =>
        match asg_denote o (getv w x) v with
        | inl v => inl (setv w' x v, v)
        | inr err => inr (w', err)
        end
    | r => r
    end.
Proof. destruct o; reflexivity. Qed.

Lemma asg_denote_ext o x x' y : (o <> None -> x = x') -> asg_denote o x y = asg_denote o x' y.
Proof. destruct o; [|reflexivity]. intros Hx. rewrite Hx by discriminate. reflexivity. Qed.

Lemma read_asg o x e : readable e -> readable (EAsg o x e).
Proof.
  intros IH w d tl ns ops lt r k [(Hx & Hwf & Hle) Hb Hpost Hw Hd Hdep Hsh Ho Hn Hlt Ht Hf].
  cbn [etext ntok branches_ok no_post cond_depth] in *. rewrite <- !app_assoc in Ht.
  destruct (asg_facts o) as (F1 & F2 & F3 & F4 & F5 & F6 & F7 & F8). pose proof (ntok_pos e).
  destruct (read_target w d ns ops lt tl r o x _ Hx Hw ltac:(lia) Ht)
    as (v & vn & r' & Hst & Hr & Hv).
  pose proof (step_token (M w d) (mk_von v vn :: ns) ops TOK_VALUE tl r' _ _ _ (asg_in_tokens o) Hr
    (not_incdec_token _ _ _ _ (asg_in_tokens o) F1)) as Hop.
  rewrite (found_push (M w d) (M w d) (mk_von v vn :: ns) _ ops ops TOK_VALUE tl tl _ _
    eq_refl F2 F3 F4 F5 eq_refl ltac:(rewrite F8; apply Hsh; reflexivity) ltac:(lia)) in Hop.
  assert (Hpre : pre e w d tl (mk_von v vn :: ns) (asg_tok o :: ops) (asg_tok o)
            (ws ++ etext ws e ++ k) k).
  { split; auto; try (cbn [length]; lia).
    - intros _. apply shields_mono with 2; [right; split; [exact F8|reflexivity]|exact Hle].
    - apply skip_etext, Hwf. }
  eapply reads_push with (xs := [mk_von v vn]);
    [|exact (IH _ _ _ _ _ _ _ _ Hpre)|assumption|assumption|rewrite F8; reflexivity|exact Hle|].
  - eapply goes_step; [exact Hst|]. eapply goes_step; [exact Hop|apply goes_refl].
  - intros res2 Hs2. unfold spec in *. destruct (Z.eqb_spec d 0) as [->|Hd0].
    + destruct (Hv eq_refl) as [-> Hval]. subst res2. eexists. split; [reflexivity|].
      rewrite eval_asg. pose proof (eval_range e w Hw) as Hr2.
      destruct (eval w e) as [[w2 v2]|]; [|reflexivity]. destruct Hr2 as [_ Hv2].
      intros vn' ns0. cbn [app]. rewrite apply_asg.
      * cbn [val]. rewrite (asg_denote_ext o v (getv w x)) by exact Hval.
        rewrite name_text_run by (assumption || apply starts_ws).
        destruct (asg_denote o (getv w x) v2); [do 3 eexists; repeat split|split; reflexivity].
      * intros Hne. rewrite Hval by assumption. apply getv_range, Hw.
      * exact Hv2.
    + destruct Hs2 as [v2 ->]. exists (inl (w, v)). split; [eauto|].
      intros vn' ns0. cbn [app]. rewrite apply_asg_disabled by assumption. eauto 6.
Qed.

(** *** The conditional operator *)

(** The mode in which each branch is read, after a condition [v] at the
    nesting level [tl], in the mode [d]. *)
Definition mode1 (v d tl : Z) : Z := if (v =? 0) && (d =? 0) then tl + 1 else d.
Definition mode2 (v d tl : Z) : Z :=
  let d1 := mode1 v d tl in
  if d1 =? 0 then tl + 1 else if tl + 1 =? d1 then 0 else d1.

Lemma modes v d tl :
  0 <= d <= tl ->
  (if tl + 1 =? mode2 v d tl then 0 else mode2 v d tl) = d
  /\ 0 <= mode1 v d tl <= tl + 1 /\ 0 <= mode2 v d tl <= tl + 1
  /\ (d <> 0 -> mode1 v d tl = d /\ mode2 v d tl = d)
  /\ (d = 0 -> if v =? 0 then mode1 v d tl <> 0 /\ mode2 v d tl = 0
                else mode1 v d tl = 0 /\ mode2 v d tl <> 0).
Proof.
  intros Hd. unfold mode2, mode1.
  destruct (Z.eqb_spec d 0) as [->|Hd0]; destruct (v =? 0); cbn [andb]; repeat (zb; try lia).
Qed.

Lemma found_cond (m' : math_state_t W) w d x ns ns' ops ops' lt tl tl' e :
  PREC lt = PREC_POST ->
  pop_ops TOK_CONDITIONAL (PREC TOK_CONDITIONAL) ops' m' ns' tl'
  = pop_ops TOK_CONDITIONAL (PREC TOK_CONDITIONAL) ops (M w d) (x :: ns) tl ->
  shields 4 ops -> Z.of_nat (length ops) + 1 < opsize -> 0 <= tl < 2 ^ 32 - 1 ->
  tok_found opsize (mk_ev m' ns' ops' lt tl' e) TOK_CONDITIONAL
  = Continue (mk_ev (M w (mode1 (val x) d tl)) (x :: ns) (TOK_LPAREN :: TOK_CONDITIONAL :: ops)
                    TOK_LPAREN (tl + 1) e).
Proof.
  intros Hlt Hpop Hsh Hl Htl. unfold tok_found. rewrite Z.eqb_refl.
  rewrite found_binary, Hpop, pop_stops by (assumption || discriminate || (split; reflexivity)).
  unfold check_cond. rewrite Z.eqb_refl. cbn [numstack ternary_level ms opstack lasttok expr M evaluation_disabled].
  unfold u32. rewrite wrap_small by (red; lia). rewrite push_room by lia.
  rewrite (found_prefix _ _ _ _ TOK_CONDITIONAL _ _ TOK_LPAREN TOK_LPAREN)
    by (discriminate || reflexivity || (cbn [length]; lia)).
  unfold mode1. destruct ((val x =? 0) && (d =? 0)); reflexivity.
Qed.

Lemma found_sep (m' : math_state_t W) w v d x ns ns' ops ops' lt tl tl' e :
  PREC lt = PREC_POST ->
  pop_ops TOK_RPAREN (PREC TOK_RPAREN) ops' m' ns' tl'
  = pop_ops TOK_RPAREN (PREC TOK_RPAREN) (TOK_LPAREN :: TOK_CONDITIONAL :: ops)
      (M w (mode1 v d tl)) (x :: ns) (tl + 1) ->
  Z.of_nat (length ops) + 1 < opsize ->
  tok_found opsize (mk_ev m' ns' ops' lt tl' e) TOK_CONDITIONAL_SEP
  = Continue (mk_ev (M w (mode2 v d tl)) (mk_von (val x) None :: ns)
                    (TOK_CONDITIONAL_SEP :: TOK_CONDITIONAL :: ops) TOK_CONDITIONAL_SEP (tl + 1) e).
Proof.
  intros Hlt Hpop Hl. unfold tok_found.
  change (TOK_CONDITIONAL_SEP =? TOK_CONDITIONAL) with false. rewrite Z.eqb_refl.
  rewrite found_binary, Hpop, pop_paren by (assumption || (split; reflexivity)).
  unfold toggle_disabled. cbn [numstack ternary_level ms opstack lasttok expr M evaluation_disabled].
  rewrite found_binary, pop_stops
    by (reflexivity || discriminate || (split; reflexivity) || (right; split; reflexivity)).
  unfold check_cond. change (TOK_CONDITIONAL_SEP =? TOK_CONDITIONAL) with false. cbv iota.
  rewrite push_room by (cbn [length]; lia). cbn [no_insert].
  unfold mode2. cbv zeta. destruct (mode1 v d tl =? 0); [reflexivity|].
  destruct (tl + 1 =? mode1 v d tl); reflexivity.
Qed.

Definition cond_res (v v1 : Z) (res2 : (W * Z) + (W * arith_err)) : (W * Z) + (W * arith_err) :=
  match res2 with
  | inl (w3, v3) => inl (w3, if negb (v =? 0) then v1 else v3)
  | inr x => inr x
  end.

Lemma pend_cond p2 v v1 vn1 vn d tl m opse nse tl' res2 :
  4 <= p2 -> 0 <= d <= tl -> tl < 2 ^ 32 - 1 ->
  pend p2 (mode2 v d tl) (tl + 1) m opse nse tl' res2 ->
  pend 4 d tl m (opse ++ [TOK_CONDITIONAL_SEP; TOK_CONDITIONAL])
       (nse ++ [mk_von v1 vn1; mk_von v vn]) tl' (cond_res v v1 res2).
Proof.
  intros Hp2 Hd Htl Hp op ops ns Hr.
  specialize (Hp op (TOK_CONDITIONAL_SEP :: TOK_CONDITIONAL :: ops)
                (mk_von v1 vn1 :: mk_von v vn :: ns) (reduces_mono _ _ _ Hr Hp2)).
  rewrite <- !app_assoc. cbn [app]. destruct res2 as [[w3 v3]|[w3 err]]; cbn [cond_res]; [|exact Hp].
  destruct Hp as [vn3 Hp]. exists None. rewrite Hp, pop_cond by assumption. cbn [val].
  unfold u32. rewrite wrap_small by (red; lia). replace (tl + 1 - 1) with tl by ring.
  cbn [evaluation_disabled M set_disabled world list_of_recursed_names].
  destruct (modes v d tl Hd) as [Hm _].
  destruct (tl + 1 =? mode2 v d tl); [rewrite <- Hm; reflexivity|rewrite Hm; reflexivity].
Qed.

(** How the results of the parts make that of the conditional. *)
Lemma spec_cond v d tl w w1 w2 c e1 e2 v1 res2 :
  0 <= d <= tl -> spec d w c (inl (w1, v)) ->
  spec (mode1 v d tl) w1 e1 (inl (w2, v1)) -> spec (mode2 v d tl) w2 e2 res2 ->
  spec d w (ECond c e1 e2) (cond_res v v1 res2).
Proof.
  intros Hd Hc H1 H2. destruct (modes v d tl Hd) as (_ & _ & _ & Hdis & Hen).
  unfold spec in *. cbn [eval]. destruct (Z.eqb_spec d 0) as [->|Hd0].
  - specialize (Hen eq_refl). rewrite <- Hc. unfold cond_res. destruct (v =? 0).
    + destruct Hen as [E1 E2]. apply Z.eqb_neq in E1. rewrite E1 in H1. rewrite E2 in H2.
      destruct H1 as [v' [= -> ->]]. cbn in H2. subst res2. cbn [negb].
      destruct (eval w1 e2) as [[]|]; reflexivity.
    + destruct Hen as [E1 E2]. apply Z.eqb_neq in E2. rewrite E2 in H2. rewrite E1 in H1.
      destruct H2 as [v' ->]. cbn in H1. rewrite <- H1. reflexivity.
  - destruct (Hdis Hd0) as [E1 E2]. rewrite E1 in H1. rewrite E2 in H2.
    apply Z.eqb_neq in Hd0. rewrite Hd0 in *.
    destruct Hc as [? [= -> ->]], H1 as [? [= -> ->]], H2 as [? ->]. cbn [cond_res]. eauto.
Qed.

Lemma spec_cond_fails v d tl w w1 c e1 e2 x :
  0 <= d <= tl -> spec d w c (inl (w1, v)) -> spec (mode1 v d tl) w1 e1 (inr x) ->
  spec d w (ECond c e1 e2) (inr x).
Proof.
  intros Hd Hc H1. destruct (modes v d tl Hd) as (_ & _ & _ & Hdis & Hen).
  apply spec_fails in H1 as [E1 H1]. unfold spec in *.
  destruct (Z.eqb_spec d 0) as [->|Hd0]; [|destruct (Hdis Hd0); lia].
  specialize (Hen eq_refl). cbn [eval]. rewrite <- Hc. destruct (v =? 0); [destruct Hen; contradiction|].
  congruence.
Qed.

Lemma read_cond c e1 e2 :
  readable c -> readable e1 -> readable e2 -> readable (ECond c e1 e2).
Proof.
  intros IHc IH1 IH2 w d tl ns ops lt r k
    [(Hwc & Hw1 & Hw2 & Hlc & Hl2) (Hbc & Hp1 & Hp2 & Hb1 & Hb2) Hpost Hw Hd Hdep Hsh Ho Hn Hlt Ht Hf].
  cbn [etext ntok cond_depth level no_post] in *. rewrite <- !app_assoc in Ht.
  pose proof (ntok_pos c). pose proof (ntok_pos e1). pose proof (ntok_pos e2).
  pose proof (cond_depth_nonneg e1). pose proof (level_pos e1). assert (Hsh4 : shields 4 ops) by (apply Hsh; reflexivity).
  assert (Hprec : pre c w d tl ns ops lt r (bytes_of "?" ++ ws ++ etext ws e1 ++ bytes_of ":" ++ ws ++ etext ws e2 ++ k)).
  { split; auto; try tauto; try lia.
    - intros _. apply shields_mono with 4; [assumption|lia].
    - apply (follow_token _ TOK_CONDITIONAL); [in_tokens|discriminate]. }
  pose proof (reads_next _ _ _ _ _ _ _ _ _ TOK_CONDITIONAL _ (IHc _ _ _ _ _ _ _ _ Hprec)
    ltac:(in_tokens) eq_refl ltac:(split; reflexivity)
    ltac:(right; left; change (fix_assignment_prec (PREC (first_op TOK_CONDITIONAL))) with 4; lia))
    as [(w' & err & Hs & Hg)|(w1 & v & vn & m1 & ns1 & ops1 & lt1 & tl1 & r1 & Hs & Hg & Hst & Hlt1 & Hpop)].
  { apply spec_fails in Hs as [-> Hs]. exists (inr (w', err)).
    split; [unfold spec; cbn; rewrite Hs; reflexivity|right; eauto]. }
  change (first_op TOK_CONDITIONAL) with TOK_CONDITIONAL in Hpop.
  rewrite (found_cond _ _ _ _ _ _ _ _ _ _ _ _ Hlt1 Hpop Hsh4 ltac:(lia) ltac:(lia)) in Hst. cbn [val] in Hst.
  destruct (spec_numeric _ _ _ _ _ Hs Hw) as [Hnum1 _].
  destruct (modes v d tl Hd) as (_ & Hm1 & Hm2 & _).
  assert (Hpre1 : pre e1 w1 (mode1 v d tl) (tl + 1) (mk_von v vn :: ns) (TOK_LPAREN :: TOK_CONDITIONAL :: ops)
    TOK_LPAREN (ws ++ etext ws e1 ++ bytes_of ":" ++ ws ++ etext ws e2 ++ k) (bytes_of ":" ++ ws ++ etext ws e2 ++ k)).
  { split; auto; try (cbn [length]; lia); try discriminate.
    - intros _. apply shields_lparen. lia.
    - apply skip_etext, Hw1.
    - apply (follow_token _ TOK_CONDITIONAL_SEP); [in_tokens|discriminate]. }
  pose proof (reads_next _ _ _ _ _ _ _ _ _ TOK_CONDITIONAL_SEP _ (IH1 _ _ _ _ _ _ _ _ Hpre1)
    ltac:(in_tokens) eq_refl ltac:(split; reflexivity) (or_introl eq_refl))
    as [(w' & err & Hs1 & Hg1)|(w2 & v1 & vn1 & m2 & ns2 & ops2 & lt2 & tl2 & r2 & Hs1 & Hg1 & Hst1 & Hlt2 & Hpop1)].
  { exists (inr (w', err)). split; [eapply spec_cond_fails; eassumption|]. right. exists w', err.
    split; [reflexivity|]. eapply goes_trans; [exact Hg|]. eapply goes_step; eassumption. }
  change (first_op TOK_CONDITIONAL_SEP) with TOK_RPAREN in Hpop1.
  rewrite (found_sep _ _ _ _ _ _ _ _ _ _ _ _ _ Hlt2 Hpop1 ltac:(lia)) in Hst1. cbn [val] in Hst1.
  destruct (spec_numeric _ _ _ _ _ Hs1 Hnum1) as [Hnum2 _].
  assert (Hpre2 : pre e2 w2 (mode2 v d tl) (tl + 1) (mk_von v1 None :: mk_von v vn :: ns)
    (TOK_CONDITIONAL_SEP :: TOK_CONDITIONAL :: ops) TOK_CONDITIONAL_SEP (ws ++ etext ws e2 ++ k) k).
  { split; auto; try (cbn [length]; lia); try discriminate.
    - intros _. apply shields_mono with 4; [right; split; reflexivity|exact Hl2].
    - apply skip_etext, Hw2. }
  assert (Hgo : forall x, goes (mk_ev (M w2 (mode2 v d tl)) (mk_von v1 None :: mk_von v vn :: ns)
    (TOK_CONDITIONAL_SEP :: TOK_CONDITIONAL :: ops) TOK_CONDITIONAL_SEP (tl + 1) (InExpr (ws ++ etext ws e2 ++ k))) x
    -> goes (mk_ev (M w d) ns ops lt tl (InExpr r)) x).
  { intros x Hx. eapply goes_trans; [exact Hg|]. eapply goes_step; [exact Hst|].
    eapply goes_trans; [exact Hg1|]. eapply goes_step; [exact Hst1|exact Hx]. }
  destruct (IH2 _ _ _ _ _ _ _ _ Hpre2)
    as (res2 & Hs2 & [(m' & nse & opse & lt' & tl' & r' & Hg2 & Hlt' & Hr' & Hp)|(w' & err & -> & Hg2)]);
    (eexists; split; [eapply spec_cond; eassumption|]).
  - left. exists m', (nse ++ [mk_von v1 None; mk_von v vn]),
      (opse ++ [TOK_CONDITIONAL_SEP; TOK_CONDITIONAL]), lt', tl', r'.
    rewrite <- !app_assoc. split; [apply Hgo, Hg2|]. split; [assumption|]. split; [assumption|].
    eapply pend_cond; [exact Hl2|assumption|lia|exact Hp].
  - right. exists w', err. split; [reflexivity|apply Hgo, Hg2].
Qed.

Lemma all_readable e : readable e.
Proof.
  induction e; auto using read_num, read_var, read_paren, read_un, read_bin, read_cond,
    read_asg, read_pre, read_post.
Qed.

(** The outcome the reference evaluator stands for. *)
Definition outcome_of (res : (W * Z) + (W * arith_err)) : outcome W :=
  match res with
  | inl (w', v) => Returned (mk_ms w' 0 []) v
  | inr (w', err) => Failed (mk_ms w' 0 []) err
  end.

(** The closing parenthesis put after the text completes the evaluation. *)
Lemma read_whole e w r :
  pre e w 0 0 [] [TOK_LPAREN] TOK_LPAREN r [] -> start <> 0%nat ->
  goes (mk_ev (M w 0) [] [TOK_LPAREN] TOK_LPAREN 0 (InExpr r)) (inr (outcome_of (eval w e))).
Proof.
  intros Hpre Hstart.
  destruct (all_readable e _ _ _ _ _ _ _ _ Hpre)
    as (res & Hs & [(m' & nse & opse & lt' & tl' & r' & Hg & Hlt' & Hr' & Hp)|(w' & err & -> & Hg)]);
    unfold spec in Hs; cbn [Z.eqb] in Hs; rewrite <- Hs; [|exact Hg].
  eapply goes_trans; [exact Hg|].
  pose proof (step_end opsize numsize lookup uninit start m' (nse ++ []) (opse ++ [TOK_LPAREN]) lt' tl' r'
                Hr' Hstart) as Hst.
  rewrite found_binary in Hst by (assumption || (split; reflexivity)).
  specialize (Hp TOK_RPAREN [TOK_LPAREN] [] (or_introl eq_refl)). destruct res as [[w' v]|[w' err]].
  - destruct Hp as [vn Hp]. rewrite Hp, pop_paren in Hst.
    eapply goes_step; [exact Hst|]. apply goes_exit. reflexivity.
  - rewrite Hp in Hst. apply goes_exit, Hst.
Qed.
End Reading.

(** ** Theorems *)

Lemma ev_loop_more {W} `{ShellVars W} opsize numsize lookup uninit start fuel more (st : ev_state W) :
  ev_loop opsize numsize lookup uninit fuel start st <> No_fuel ->
  ev_loop opsize numsize lookup uninit (fuel + more) start st
  = ev_loop opsize numsize lookup uninit fuel start st.
Proof.
  revert st; induction fuel as [|fuel IH]; intros st Hn; [contradiction|].
  cbn [Nat.add ev_loop] in *. destruct (ev_step _ _ _ _ _ _); [apply IH, Hn|reflexivity].
Qed.

Lemma lookup_numeric {W} `{ShellVarsLaws W} uninit depth (w : W) x k :
  numeric w -> valid_name x -> starts is_in_name k = false ->
  arith_lookup_val (evaluate_string uninit (S depth)) (M w 0) (x ++ k)
  = Returned (M w 0) (getv w x).
Proof.
  intros Hw Hx Hk. unfold arith_lookup_val, getv. cbn [world M].
  rewrite name_text_run by assumption. destruct (lookupvar w x) as [v|] eqn:E; [|reflexivity].
  destruct (Hw _ _ E) as (n & Hn & ->).
  change (existsb _ (list_of_recursed_names (M w 0))) with false. cbv iota.
  unfold set_names at 1. cbn [world evaluation_disabled M].
  rewrite evaluate_number, read_print by assumption. reflexivity.
Qed.

Lemma numeric_ends {W} `{ShellVarsLaws W} uninit depth (w : W) e :
  numeric w -> evaluate_string uninit (S (S depth)) (M w 0) e <> No_fuel.
Proof.
  intros Hw E. pose proof (evaluate_ended [] uninit (S (S depth)) [] (M w 0) e) as He.
  rewrite E in He. apply He; [unfold left_over; simpl; lia|].
  split; [|split; [reflexivity|constructor]].
  intros n v Hv. destruct (Hw _ _ Hv) as (z & _ & ->). right. apply print_no_names.
Qed.


Lemma numeric_vars (w : vars) :
  Forall (fun nv => exists n, in_s64 n /\ snd nv = print_arith_t n) w -> numeric w.
Proof.
  intros Hw x v. cbn [lookupvar vars_shell]. induction Hw as [|[n t] w Ht _ IH]; [discriminate|].
  cbn [vars_lookup]. destruct (list_eqb n x); [intros [= <-]; exact Ht|exact IH].
Qed.

(** "a += 2 ** 3 * - ( 1 - 4 ) , a > 9 ? b = a % 7 : 1 / 0" with a = 5. *)
Definition sample : aexpr :=
  let a := bytes_of "a" in
  EBin Comma
    (EAsg (Some Aadd) a
       (EBin Mul (EBin Exp (ENum 2) (ENum 3)) (EUn Neg (EParen (EBin Sub (ENum 1) (ENum 4))))))
    (ECond (EBin Gt (EVar a) (ENum 9))
       (EAsg None (bytes_of "b") (EBin Rem (EVar a) (ENum 7)))
       (EBin Div (ENum 1) (ENum 0))).


(** C5. Evaluating the text that the evaluator itself stores for a number gives
    that number back, for every 64-bit value, the most negative one included,
    and at any point of the recursion through variables. *)
Theorem number_roundtrip {W} `{ShellVars W} uninit depth (w : W) L n :
  in_s64 n ->
  evaluate_string uninit (S depth) (mk_ms w 0 L) (print_arith_t n) = Returned (mk_ms w 0 L) n.
Proof. apply evaluate_number. Qed.

Lemma number_roundtrip_witness :
  evaluate_string (fun _ => 0) 1 (mk_ms ([] : vars) 0 []) (bytes_of "-9223372036854775808")
  = Returned (mk_ms [] 0 []) (- 2 ^ 63).
Proof. apply (number_roundtrip (W := vars) (fun _ => 0) 0 [] [] (- 2 ^ 63)). red; lia. Defined.

(** ** Surprises *)

(** A postfix increment in the branch of "?:" that is not taken is a syntax
    error, in either branch, although the same prefix increment is accepted:
    the name is pushed without its [var_name] there, so "a++" is lexed as
    "a + +". *)
Example postfix_in_skipped_branch uninit :
  let w := [(bytes_of "a", bytes_of "5")] : vars in
  arith uninit 2 w (bytes_of "1 ? 2 : a++") = Failed (mk_ms w 1 []) syntax_err
  /\ arith uninit 2 w (bytes_of "0 ? a++ : 2") = Failed (mk_ms w 1 []) syntax_err
  /\ arith uninit 2 w (bytes_of "0 ? ++a : 2") = Returned (mk_ms w 0 []) 2.
Proof. split; [|split]; vm_compute; reflexivity. Qed.

(** "--7" is two signs after a number but a syntax error after a variable:
    the test for "VAR--" looks at the last value pushed, whether or not an
    operator came since. *)
Example signs_after_variable uninit :
  let w := [(bytes_of "a", bytes_of "1")] : vars in
  arith uninit 2 w (bytes_of "1 - --7") = Returned (mk_ms w 0 []) (-6)
  /\ arith uninit 2 w (bytes_of "a - --7") = Failed (mk_ms w 0 []) syntax_err.
Proof. split; vm_compute; reflexivity. Qed.

(** "++a=5" stores into [a] one more than whatever an unwritten slot of the
    value stack holds, before the syntax error is found. *)
Example uninitialised_store :
  arith (fun _ => 41) 2 ([] : vars) (bytes_of "++a=5")
  = Failed (mk_ms [(bytes_of "a", bytes_of "42")] 0 []) syntax_err
  /\ arith (fun _ => 0) 2 ([] : vars) (bytes_of "++a=5")
  = Failed (mk_ms [(bytes_of "a", bytes_of "1")] 0 []) syntax_err.
Proof. split; vm_compute; reflexivity. Qed.
