(* ===== verification/Words.v ===== *)
(** * Words and bytes

    Rotations, byte order and byte/word conversion as the hash functions of
    [libbb/hash_md5_sha.c] use them, on a little-endian target
    ([BB_LITTLE_ENDIAN], as every Windows target is). *)

From Stdlib Require Import Ascii String ZArith List Lia Bool.
From S2P Require Import Prelude.
Import ListNotations.
Local Open Scope Z_scope.

(** ** Definitions *)

(** Tables of bytes, written as hexadecimal digits. *)
Definition hex_digit (c : ascii) : Z :=
  let z := chr c in if z <? 58 then z - 48 else z - 87.
Fixpoint hex (s : string) : list Z :=
  match s with
  | String a (String b s) => 16 * hex_digit a + hex_digit b :: hex s
  | _ => []
  end.

(** Sums of [uint32_t] and [uint64_t]. *)
Definition add32 (a b : Z) : Z := u32 (a + b).
Definition add64 (a b : Z) : Z := u64 (a + b).

(** [~x] *)
Definition not32 (x : Z) : Z := u32 (Z.lnot x).
Definition not64 (x : Z) : Z := u64 (Z.lnot x).

Definition rotl32 (x n : Z) : Z := Z.lor (u32 (Z.shiftl x n)) (Z.shiftr x (32 - n)).
Definition rotr32 (x n : Z) : Z := Z.lor (Z.shiftr x n) (u32 (Z.shiftl x (32 - n))).
Definition rotr64 (x n : Z) : Z := Z.lor (Z.shiftr x n) (u64 (Z.shiftl x (64 - n))).
Definition rotl64 (x n : Z) : Z := Z.lor (u64 (Z.shiftl x n)) (Z.shiftr x (64 - n)).

(** The value of bytes in memory, and the bytes of a value. *)
Fixpoint le_word (bs : list Z) : Z :=
  match bs with [] => 0 | b :: bs => b + 256 * le_word bs end.
Fixpoint le_bytes (n : nat) (z : Z) : list Z :=
  match n with O => [] | S n => z mod 256 :: le_bytes n (z / 256) end.
Definition be_word (bs : list Z) : Z := le_word (rev bs).
Definition be_bytes (n : nat) (z : Z) : list Z := rev (le_bytes n z).

(** [bb_bswap_32], [bb_bswap_64]; also [SWAP_BE32] and [SWAP_BE64]. *)
Definition bswap_32 (x : Z) : Z := le_word (rev (le_bytes 4 x)).
Definition bswap_64 (x : Z) : Z := le_word (rev (le_bytes 8 x)).

(** The [i]-th aligned word of [n] bytes, [((uintN_t* )buf)[i]]. *)
Definition slice {A} (i n : nat) (l : list A) : list A := firstn n (skipn i l).
Definition word_at (n i : nat) (buf : list Z) : Z := le_word (slice (n * i) n buf).

(** [memcpy(buf + pos, data, len)]. *)
Definition blit {A} (buf : list A) (pos : nat) (data : list A) : list A :=
  firstn pos buf ++ data ++ skipn (pos + length data) buf.

Definition bytes (l : list Z) : Prop := Forall (in_u 8) l.

(** ** Ranges *)

Lemma in_u_shiftr w x : 0 <= w -> in_u w x <-> Z.shiftr x w = 0.
Proof.
  intros Hw. unfold in_u. rewrite Z.shiftr_div_pow2 by assumption.
  pose proof (Z.pow_pos_nonneg 2 w ltac:(lia) Hw).
  pose proof (Z.div_mod x (2 ^ w) ltac:(lia)). pose proof (Z.mod_pos_bound x (2 ^ w) ltac:(lia)).
  split; intros; [apply Z.div_small; lia|nia].
Qed.

Lemma in_u_lor w x y : 0 <= w -> in_u w x -> in_u w y -> in_u w (Z.lor x y).
Proof.
  intros Hw. rewrite !in_u_shiftr, Z.shiftr_lor by assumption. intros -> ->. reflexivity.
Qed.
Lemma in_u_land w x y : 0 <= w -> in_u w x -> in_u w y -> in_u w (Z.land x y).
Proof.
  intros Hw. rewrite !in_u_shiftr, Z.shiftr_land by assumption. intros -> ->. reflexivity.
Qed.
Lemma in_u_lxor w x y : 0 <= w -> in_u w x -> in_u w y -> in_u w (Z.lxor x y).
Proof.
  intros Hw. rewrite !in_u_shiftr, Z.shiftr_lxor by assumption. intros -> ->. reflexivity.
Qed.
Lemma in_u_shr w x n : 0 <= w -> 0 <= n -> in_u w x -> in_u w (Z.shiftr x n).
Proof.
  intros Hw Hn. rewrite !in_u_shiftr, Z.shiftr_shiftr, Z.add_comm by assumption.
  rewrite <- Z.shiftr_shiftr by assumption. intros ->. apply Z.shiftr_0_l.
Qed.

Lemma in_u32 x : in_u 32 (u32 x).
Proof. apply wrap_range; lia. Qed.
Lemma in_u64 x : in_u 64 (u64 x).
Proof. apply wrap_range; lia. Qed.
Lemma in_u8 x : in_u 8 (u8 x).
Proof. apply wrap_range; lia. Qed.
#[export] Hint Resolve in_u32 in_u64 in_u8 in_u_lor in_u_land in_u_lxor in_u_shr : bbox.

Lemma rotl32_range x n : 0 <= n <= 32 -> in_u 32 x -> in_u 32 (rotl32 x n).
Proof. intros. unfold rotl32. apply in_u_lor; try lia; auto with bbox. apply in_u_shr; auto; lia. Qed.
Lemma rotl64_range x n : 0 <= n <= 64 -> in_u 64 x -> in_u 64 (rotl64 x n).
Proof. intros. unfold rotl64. apply in_u_lor; try lia; auto with bbox. apply in_u_shr; auto; lia. Qed.
Lemma rotr32_range x n : 0 <= n <= 32 -> in_u 32 x -> in_u 32 (rotr32 x n).
Proof. intros. unfold rotr32. apply in_u_lor; try lia; auto with bbox. apply in_u_shr; auto; lia. Qed.
Lemma rotr64_range x n : 0 <= n <= 64 -> in_u 64 x -> in_u 64 (rotr64 x n).
Proof. intros. unfold rotr64. apply in_u_lor; try lia; auto with bbox. apply in_u_shr; auto; lia. Qed.

(** ** Bits *)

Lemma wrap_testbit w x i :
  0 <= w -> 0 <= i -> Z.testbit (wrap w x) i = (i <? w) && Z.testbit x i.
Proof.
  intros Hw Hi. unfold wrap. destruct (Z.ltb_spec i w).
  - rewrite Z.mod_pow2_bits_low by lia. reflexivity.
  - rewrite Z.mod_pow2_bits_high by lia. reflexivity.
Qed.

Lemma in_u_testbit w x i : 0 <= w -> in_u w x -> w <= i -> Z.testbit x i = false.
Proof.
  intros Hw Hx Hi. rewrite <- (wrap_small w x Hx), wrap_testbit by lia.
  destruct (Z.ltb_spec i w); [lia|reflexivity].
Qed.

(** ** Sums *)

Lemma wrap_add_l w a b : 0 <= w -> wrap w (wrap w a + b) = wrap w (a + b).
Proof. intros. unfold wrap. apply Zplus_mod_idemp_l. Qed.
Lemma wrap_add_r w a b : 0 <= w -> wrap w (a + wrap w b) = wrap w (a + b).
Proof. intros. unfold wrap. apply Zplus_mod_idemp_r. Qed.

Lemma add32_range a b : in_u 32 (add32 a b).
Proof. apply in_u32. Qed.
Lemma add64_range a b : in_u 64 (add64 a b).
Proof. apply in_u64. Qed.
#[export] Hint Resolve add32_range add64_range : bbox.

Lemma add32_comm a b : add32 a b = add32 b a.
Proof. unfold add32. f_equal. lia. Qed.
Lemma add32_assoc a b c : add32 a (add32 b c) = add32 (add32 a b) c.
Proof. unfold add32, u32. rewrite wrap_add_l, wrap_add_r by lia. f_equal. lia. Qed.
Lemma add64_comm a b : add64 a b = add64 b a.
Proof. unfold add64. f_equal. lia. Qed.
Lemma add64_assoc a b c : add64 a (add64 b c) = add64 (add64 a b) c.
Proof. unfold add64, u64. rewrite wrap_add_l, wrap_add_r by lia. f_equal. lia. Qed.
Lemma add32_swap a b c : add32 (add32 a b) c = add32 (add32 a c) b.
Proof. rewrite <- !add32_assoc. f_equal. apply add32_comm. Qed.

(** Equality of sums of words up to the order of the additions. *)
Ltac sums :=
  rewrite ?add32_assoc, ?add64_assoc; unfold add32, add64, u32, u64;
  repeat (rewrite wrap_add_l by lia; rewrite <- ?Z.add_assoc); rewrite ?wrap_add_r by lia;
  match goal with |- wrap ?n _ = wrap ?n _ => apply (f_equal (wrap n)) end; lia.

(** ** Byte order *)

Lemma length_le_bytes n z : length (le_bytes n z) = n.
Proof. revert z; induction n; intros; simpl; auto. Qed.
#[export] Hint Rewrite length_le_bytes : len.

Lemma bytes_le_bytes n z : bytes (le_bytes n z).
Proof.
  revert z; induction n as [|n IH]; intros z; constructor; [|apply IH].
  red. pose proof (Z.mod_pos_bound z 256). lia.
Qed.

Lemma le_word_bytes n z : le_word (le_bytes n z) = z mod 256 ^ Z.of_nat n.
Proof.
  revert z; induction n as [|n IH]; intros z; cbn [le_bytes le_word].
  - rewrite Z.mod_1_r. reflexivity.
  - rewrite IH, Nat2Z.inj_succ, Z.pow_succ_r by lia.
    pose proof (Z.pow_pos_nonneg 256 (Z.of_nat n) ltac:(lia) ltac:(lia)).
    rewrite Z.rem_mul_r by lia. reflexivity.
Qed.

Lemma le_bytes_word bs : bytes bs -> le_bytes (length bs) (le_word bs) = bs.
Proof.
  induction 1 as [|b bs Hb _ IH]; [reflexivity|]. cbn [length le_bytes le_word]. red in Hb.
  rewrite (Z.mul_comm 256), Z_mod_plus_full, Z.mod_small by lia.
  rewrite Z_div_plus_full, Z.div_small by lia. rewrite Z.add_0_l, IH. reflexivity.
Qed.

Lemma le_word_range bs : bytes bs -> 0 <= le_word bs < 256 ^ Z.of_nat (length bs).
Proof.
  induction 1 as [|b bs Hb _ IH]; [simpl; lia|]. cbn [length le_word]. red in Hb.
  rewrite Nat2Z.inj_succ, Z.pow_succ_r by lia. lia.
Qed.

Lemma bytes_slice i n l : bytes l -> bytes (slice i n l).
Proof.
  intros Hl. unfold slice, bytes in *. rewrite Forall_forall in *. intros x Hx.
  apply Hl. eapply incl_tran; [apply incl_refl| |exact Hx].
  intros y Hy. rewrite <- (firstn_skipn i l). apply in_or_app. right.
  rewrite <- (firstn_skipn n (skipn i l)). apply in_or_app. left. exact Hy.
Qed.

Lemma length_slice {A} i n (l : list A) : length (slice i n l) = Nat.min n (length l - i).
Proof. unfold slice. autorewrite with len. reflexivity. Qed.
#[export] Hint Rewrite @length_slice : len.

(** Reading a word little-endian and swapping it reads it big-endian. *)
Lemma bswap_32_le bs : bytes bs -> length bs = 4%nat -> bswap_32 (le_word bs) = be_word bs.
Proof. intros Hb Hl. unfold bswap_32, be_word. rewrite <- Hl, le_bytes_word by assumption. reflexivity. Qed.
Lemma bswap_64_le bs : bytes bs -> length bs = 8%nat -> bswap_64 (le_word bs) = be_word bs.
Proof. intros Hb Hl. unfold bswap_64, be_word. rewrite <- Hl, le_bytes_word by assumption. reflexivity. Qed.

Lemma bytes_rev l : bytes l -> bytes (rev l).
Proof. unfold bytes. rewrite !Forall_forall. intros Hl x Hx. apply Hl, in_rev, Hx. Qed.

(** Storing a swapped word stores it big-endian. *)
Lemma le_bytes_bswap_32 x : le_bytes 4 (bswap_32 x) = be_bytes 4 x.
Proof.
  unfold bswap_32, be_bytes. rewrite <- (le_bytes_word (rev (le_bytes 4 x))) at 2
    by apply bytes_rev, bytes_le_bytes. reflexivity.
Qed.
Lemma le_bytes_bswap_64 x : le_bytes 8 (bswap_64 x) = be_bytes 8 x.
Proof.
  unfold bswap_64, be_bytes. rewrite <- (le_bytes_word (rev (le_bytes 8 x))) at 2
    by apply bytes_rev, bytes_le_bytes. reflexivity.
Qed.

Lemma be_word_range bs : bytes bs -> 0 <= be_word bs < 256 ^ Z.of_nat (length bs).
Proof.
  intros Hb. unfold be_word. rewrite <- (length_rev bs). apply le_word_range, bytes_rev, Hb.
Qed.

Lemma bswap_32_range x : in_u 32 (bswap_32 x).
Proof.
  unfold bswap_32. pose proof (le_word_range (rev (le_bytes 4 x)) (bytes_rev _ (bytes_le_bytes 4 x))) as H.
  rewrite length_rev, length_le_bytes in H. exact H.
Qed.

(** ** Copying into a buffer *)

Lemma length_blit {A} (buf : list A) pos data :
  (pos + length data <= length buf)%nat -> length (blit buf pos data) = length buf.
Proof. intros. unfold blit. autorewrite with len. lia. Qed.

Lemma firstn_blit {A} (buf : list A) pos data :
  (pos + length data <= length buf)%nat ->
  firstn (pos + length data) (blit buf pos data) = firstn pos buf ++ data.
Proof.
  intros. unfold blit. rewrite app_assoc, firstn_app.
  assert (E : length (firstn pos buf ++ data) = (pos + length data)%nat) by (autorewrite with len; lia).
  rewrite <- E at 1. rewrite firstn_all, E, Nat.sub_diag, app_nil_r. reflexivity.
Qed.

Lemma blit_blit {A} (wb lo hi : list A) pos :
  (pos + length hi + length lo <= length wb)%nat ->
  blit (blit wb (pos + length hi) lo) pos hi = blit wb pos (hi ++ lo).
Proof.
  intros Hl. unfold blit. rewrite !firstn_app, !skipn_app, firstn_firstn, length_app.
  rewrite !length_firstn.
  replace (Nat.min pos (pos + length hi)) with pos by lia.
  replace (pos - Nat.min (pos + length hi) (length wb))%nat with 0%nat by lia.
  replace (pos + length hi - Nat.min (pos + length hi) (length wb))%nat with 0%nat by lia.
  rewrite (skipn_all2 (firstn _ wb)) by (rewrite length_firstn; lia).
  cbn [firstn skipn app]. rewrite !app_nil_r, <- !app_assoc. f_equal. f_equal. f_equal.
  rewrite Nat.sub_0_l, Nat.add_assoc. reflexivity.
Qed.
(** ** Words in memory *)

Lemma le_bytes_eqm n a b :
  a mod 256 ^ Z.of_nat n = b mod 256 ^ Z.of_nat n -> le_bytes n a = le_bytes n b.
Proof.
  intros E. rewrite <- (le_bytes_word (le_bytes n a)), <- (le_bytes_word (le_bytes n b))
    by apply bytes_le_bytes.
  rewrite !le_word_bytes, E, !length_le_bytes. reflexivity.
Qed.

Lemma le_bytes_app n m z :
  le_bytes (n + m) z = le_bytes n z ++ le_bytes m (z / 256 ^ Z.of_nat n).
Proof.
  revert z; induction n as [|n IH]; intros z.
  - cbn [Nat.add le_bytes app]. rewrite Z.div_1_r. reflexivity.
  - cbn [Nat.add le_bytes app]. rewrite IH, Nat2Z.inj_succ, Z.pow_succ_r, Z.div_div by lia. reflexivity.
Qed.

(** Deciding [bytes] on a concrete list. *)
Definition is_bytes (l : list Z) : bool := forallb (fun x => (0 <=? x) && (x <? 256)) l.

Lemma is_bytes_ok l : is_bytes l = true -> bytes l.
Proof.
  intros H. apply Forall_forall. intros x Hx. unfold is_bytes in H. rewrite forallb_forall in H.
  specialize (H x Hx). apply andb_prop in H as [H0 H1]. apply Z.leb_le in H0. apply Z.ltb_lt in H1. split; assumption.
Qed.

Lemma bytes_app a b : bytes a -> bytes b -> bytes (a ++ b).
Proof. intros Ha Hb. apply Forall_app. auto. Qed.
Lemma bytes_firstn n l : bytes l -> bytes (firstn n l).
Proof. apply Forall_firstn. Qed.
Lemma bytes_skipn n l : bytes l -> bytes (skipn n l).
Proof. apply Forall_skipn. Qed.

Lemma bytes_nil : bytes [].
Proof. constructor. Qed.
Lemma bytes_one b : in_u 8 b -> bytes [b].
Proof. intros Hb. constructor; [exact Hb|constructor]. Qed.
Lemma bytes_zeros k : bytes (repeat 0 k).
Proof. apply Forall_forall. intros x ->%repeat_spec. red; lia. Qed.

Lemma bytes_be_bytes n z : bytes (be_bytes n z).
Proof. apply bytes_rev, bytes_le_bytes. Qed.

Lemma length_be_bytes n z : length (be_bytes n z) = n.
Proof. unfold be_bytes. rewrite length_rev. apply length_le_bytes. Qed.
#[export] Hint Rewrite length_be_bytes : len.

(** A sum without carries. *)
Lemma add_shiftl_lxor k a b : 0 <= k -> in_u k a -> a + Z.shiftl b k = Z.lxor a (Z.shiftl b k).
Proof.
  intros Hk Ha. apply Z.add_nocarry_lxor. apply Z.bits_inj'. intros i Hi.
  rewrite Z.land_spec, Z.bits_0, Z.shiftl_spec by lia.
  destruct (Z_lt_dec i k); [rewrite (Z.testbit_neg_r b) by lia; apply andb_false_r|].
  rewrite (in_u_testbit k a i) by (auto; lia). reflexivity.
Qed.

Lemma lor_shiftl k a b : 0 <= k -> in_u k b -> Z.lor (Z.shiftl a k) b = a * 2 ^ k + b.
Proof.
  intros Hk Hb. rewrite <- Z.shiftl_mul_pow2, Z.add_comm, add_shiftl_lxor by assumption.
  rewrite Z.lxor_comm. symmetry. apply Z.lxor_lor. apply Z.bits_inj'. intros i Hi.
  rewrite Z.land_spec, Z.bits_0, Z.shiftl_spec by lia.
  destruct (Z_lt_dec i k); [rewrite (Z.testbit_neg_r a) by lia; reflexivity|].
  rewrite (in_u_testbit k b i) by (auto; lia). apply andb_false_r.
Qed.

(** A 32-bit word by its bytes. *)
Lemma word_bytes x :
  in_u 32 x -> exists a b c d, in_u 8 a /\ in_u 8 b /\ in_u 8 c /\ in_u 8 d
    /\ be_bytes 4 x = [a; b; c; d] /\ x = ((a * 256 + b) * 256 + c) * 256 + d.
Proof.
  intros Hx. pose proof (bytes_be_bytes 4 x) as Hb.
  pose proof (le_word_bytes 4 x) as Hw. rewrite Z.mod_small in Hw by exact Hx.
  unfold be_bytes in *. cbn [le_bytes rev app le_word] in *.
  repeat match goal with H : bytes (_ :: _) |- _ => inversion H; clear H; subst end.
  repeat match goal with H : Forall _ (_ :: _) |- _ => inversion H; clear H; subst end.
  exists (x / 256 / 256 / 256 mod 256), (x / 256 / 256 mod 256), (x / 256 mod 256), (x mod 256).
  repeat (split; [assumption|]). split; [reflexivity|]. rewrite <- Hw at 1. ring.
Qed.

Lemma word_parts a b c d :
  in_u 8 a -> in_u 8 b -> in_u 8 c -> in_u 8 d ->
  let x := ((a * 256 + b) * 256 + c) * 256 + d in
  in_u 32 x /\ Z.shiftr x 24 = a /\ Z.land (Z.shiftr x 16) 255 = b /\ Z.land (Z.shiftr x 8) 255 = c
  /\ Z.land x 255 = d /\ be_word [a; b; c; d] = x.
Proof.
  intros Ha Hb Hc Hd x. unfold in_u in *. change (2 ^ 8) with 256 in *.
  change 255 with (Z.ones 8). rewrite !Z.land_ones, !Z.shiftr_div_pow2 by lia.
  change (2 ^ 8) with 256. change (2 ^ 16) with 65536. change (2 ^ 24) with 16777216. change (2 ^ 32) with 4294967296.
  assert (H16 : x / 65536 = a * 256 + b) by (symmetry; apply Z.div_unique with (c * 256 + d); lia).
  assert (H8 : x / 256 = (a * 256 + b) * 256 + c) by (symmetry; apply Z.div_unique with d; lia).
  rewrite H16, H8. repeat split; try lia.
  - symmetry. apply Z.div_unique with ((b * 256 + c) * 256 + d); lia.
  - symmetry. apply Z.mod_unique with a; lia.
  - symmetry. apply Z.mod_unique with (a * 256 + b); lia.
  - symmetry. apply Z.mod_unique with ((a * 256 + b) * 256 + c); lia.
  - unfold be_word. cbn [rev app le_word]. lia.
Qed.

Lemma le_word_app a b :
  bytes a -> le_word (a ++ b) = Z.lxor (le_word a) (Z.shiftl (le_word b) (8 * Z.of_nat (length a))).
Proof.
  intros Ha. rewrite <- add_shiftl_lxor.
  - induction Ha as [|x a Hx Ha IH]; cbn [app le_word length].
    + rewrite Z.shiftl_0_r. lia.
    + rewrite IH, !Z.shiftl_mul_pow2 by lia. rewrite Nat2Z.inj_succ, Z.mul_succ_r, Z.pow_add_r by lia.
      change (2 ^ 8) with 256. ring.
  - lia.
  - pose proof (le_word_range a Ha) as H. rewrite <- (Z.pow_mul_r 2 8) in H by lia. exact H.
Qed.

Lemma be_word_app a b :
  bytes b -> be_word (a ++ b) = Z.lxor (be_word b) (Z.shiftl (be_word a) (8 * Z.of_nat (length b))).
Proof.
  intros Hb. unfold be_word. rewrite rev_app_distr, le_word_app, length_rev by apply bytes_rev, Hb. reflexivity.
Qed.

Lemma be_word_be_bytes n z : be_word (be_bytes n z) = z mod 256 ^ Z.of_nat n.
Proof. unfold be_word, be_bytes. rewrite rev_involutive. apply le_word_bytes. Qed.

Lemma be_bytes_be_word l : bytes l -> be_bytes (length l) (be_word l) = l.
Proof.
  intros Hl. unfold be_word, be_bytes. rewrite <- length_rev, le_bytes_word by apply bytes_rev, Hl.
  apply rev_involutive.
Qed.

Lemma be_word_u l : bytes l -> in_u (8 * Z.of_nat (length l)) (be_word l).
Proof. intros Hl. pose proof (be_word_range l Hl) as H. rewrite <- (Z.pow_mul_r 2 8) in H by lia. exact H. Qed.

(** Equal lengths and equal values: equal bytes. *)
Lemma be_word_inj a b : bytes a -> bytes b -> length a = length b -> be_word a = be_word b -> a = b.
Proof.
  intros Ha Hb Hl E. rewrite <- (be_bytes_be_word a), <- (be_bytes_be_word b), E, Hl by assumption. reflexivity.
Qed.

(** A bit of a word is a bit of one of its bytes. *)
Lemma be_word_bit l i j :
  bytes l -> (i < length l)%nat -> 0 <= j < 8 ->
  Z.testbit (be_word l) (8 * (Z.of_nat (length l) - 1 - Z.of_nat i) + j) = Z.testbit (nth i l 0) j.
Proof.
  intros Hl Hi Hj. rewrite <- (firstn_skipn i l) at 1.
  rewrite (skipn_cons l i 0) by exact Hi. change (nth i l 0 :: skipn (S i) l) with ([nth i l 0] ++ skipn (S i) l).
  rewrite app_assoc. set (t := skipn (S i) l).
  assert (Ht : Z.of_nat (length t) = Z.of_nat (length l) - 1 - Z.of_nat i) by (unfold t; rewrite length_skipn; lia).
  assert (Hx : in_u 8 (nth i l 0)) by (unfold bytes in Hl; rewrite Forall_forall in Hl; apply Hl, nth_In, Hi).
  rewrite be_word_app, Z.lxor_spec, <- Ht, Z.shiftl_spec by (lia || apply bytes_skipn, Hl).
  rewrite (in_u_testbit (8 * Z.of_nat (length t))) by (lia || apply be_word_u, bytes_skipn, Hl).
  rewrite xorb_false_l, be_word_app by apply bytes_one, Hx.
  replace (8 * Z.of_nat (length t) + j - 8 * Z.of_nat (length t)) with j by lia.
  rewrite Z.lxor_spec, Z.shiftl_spec_low by (cbn [length]; lia). rewrite xorb_false_r.
  unfold be_word. cbn [rev app le_word]. f_equal. lia.
Qed.

(** A property of all bytes, by evaluation. *)
Lemma all_bytes (P : Z -> bool) :
  forallb P (map Z.of_nat (seq 0 256)) = true -> forall x, in_u 8 x -> P x = true.
Proof.
  intros Hall x [H0 H1]. rewrite forallb_forall in Hall. apply Hall.
  rewrite <- (Z2Nat.id x) by exact H0. apply in_map, in_seq. change (2 ^ 8) with 256 in H1. lia.
Qed.

Lemma all_bytes_eq (f g : Z -> Z) :
  forallb (fun x => f x =? g x) (map Z.of_nat (seq 0 256)) = true -> forall x, in_u 8 x -> f x = g x.
Proof. intros Hall x Hx. apply Z.eqb_eq. exact (all_bytes _ Hall x Hx). Qed.

(** An array whose elements are replaced one by one. *)
Lemma fold_upd_map (f : Z -> Z) (h rest : list Z) :
  fold_left (fun h i => upd h i (f (nth i h 0))) (seq 0 (length h)) (h ++ rest) = map f h ++ rest.
Proof.
  enough (H : forall done, fold_left (fun h i => upd h i (f (nth i h 0)))
    (seq (length done) (length h)) (done ++ h ++ rest) = done ++ map f h ++ rest) by apply (H []).
  induction h as [|x h IH]; intros done; [reflexivity|]. cbn [length seq fold_left map].
  replace (upd (done ++ (x :: h) ++ rest) _ _) with ((done ++ [f x]) ++ h ++ rest).
  - replace (S (length done)) with (length (done ++ [f x])) by (rewrite length_app; simpl; lia).
    rewrite IH, <- app_assoc. reflexivity.
  - rewrite app_nth2, Nat.sub_diag by lia. cbn [nth app].
    clear IH. induction done as [|y done IH]; cbn; [reflexivity|]. f_equal. exact IH.
Qed.

Create HintDb bytes.
#[export] Hint Resolve bytes_app bytes_firstn bytes_skipn bytes_slice bytes_rev bytes_nil bytes_one
  bytes_zeros bytes_le_bytes bytes_be_bytes : bytes.
