(* ===== verification/HashBuf.v ===== *)
(** * Block buffering of the hash functions

    The loops of [md5_hash], [sha512_hash], [common64_end] and
    [sha512384_end] in [libbb/hash_md5_sha.c]: data arrives in pieces of any
    size, is copied to an aligned buffer, and whole blocks are processed; at
    the end the message is padded with its length. The theorem: the pieces do
    not matter, the hash is that of the padded message, block by block. *)

From Stdlib Require Import ZArith List Lia Bool.
From S2P Require Import Prelude Words.
Import ListNotations.
Local Open Scope Z_scope.

(** ** Definitions *)

Section Loops.
(** The block size in bytes, and the block function of the hash: it takes
    [ctx->hash] and [ctx->wbuffer] and gives the new [ctx->hash]. *)
Variable bs : Z.
Variable process : list Z -> list Z -> list Z.

(** The loop of [md5_hash] and [sha512_hash]; [buffer] is the data left, its
    length is [len]. The result is [ctx->hash] and [ctx->wbuffer]. *)
Fixpoint hash_loop (fuel : nat) (hash wbuffer : list Z) (bufpos : Z) (buffer : list Z)
  : option (list Z * list Z) :=
  match fuel with
  | O => None
  | S fuel =>
      let len := Z.of_nat (length buffer) in
      let remaining := u32 (bs - bufpos) in
      let remaining := if len <? remaining then len else remaining in
      let wbuffer := blit wbuffer (Z.to_nat bufpos) (firstn (Z.to_nat remaining) buffer) in
      let buffer := skipn (Z.to_nat remaining) buffer in
      let bufpos := u32 (bufpos + remaining) in
      let bufpos := u32 (bufpos - bs) in
      if negb (bufpos =? 0) then Some (hash, wbuffer)
      else hash_loop fuel (process hash wbuffer) wbuffer bufpos buffer
  end.

(** The loop of [common64_end] and [sha512384_end]: [need] bytes are needed
    for the length, which [store] puts at the end of the buffer. *)
Fixpoint end_loop (fuel : nat) (need : Z) (store : list Z -> list Z)
    (hash wbuffer : list Z) (bufpos : Z) : option (list Z * list Z) :=
  match fuel with
  | O => None
  | S fuel =>
      let remaining := u32 (bs - bufpos) in
      let wbuffer := blit wbuffer (Z.to_nat bufpos) (repeat 0 (Z.to_nat remaining)) in
      let wbuffer := if need <=? remaining then store wbuffer else wbuffer in
      let hash := process hash wbuffer in
      if need <=? remaining then Some (hash, wbuffer)
      else end_loop fuel need store hash wbuffer 0
  end.

(** ** The reference: a message as a sequence of blocks *)

Definition block_bytes : nat := Z.to_nat bs.

(** All whole blocks of a message; a part of a block at the end is left. *)
Definition absorb (h : list Z) (msg : list Z) : list Z :=
  fold_left (fun h i => process h (slice (block_bytes * i) block_bytes msg))
            (seq 0 (length msg / block_bytes)) h.

(** The part of a block at the end of a message. *)
Definition tail_of (msg : list Z) : list Z :=
  skipn (block_bytes * (length msg / block_bytes)) msg.

(** ** Theorems *)

Hypothesis bs_pos : 0 < bs < 2 ^ 31.

Let B := block_bytes.

Lemma B_pos : (0 < B)%nat.
Proof. unfold B, block_bytes. lia. Qed.

Lemma B_of_nat : Z.of_nat B = bs.
Proof. unfold B, block_bytes. lia. Qed.

Lemma absorb_short h msg : (length msg < B)%nat -> absorb h msg = h.
Proof. intros Hl. unfold absorb. fold B. rewrite Nat.div_small by assumption. reflexivity. Qed.

Lemma slice_app_r {A} i n (a b : list A) : slice (length a + i) n (a ++ b) = slice i n b.
Proof.
  unfold slice. rewrite skipn_app, skipn_all2 by lia.
  replace (length a + i - length a)%nat with i by lia. reflexivity.
Qed.

Lemma absorb_block h blk rest :
  length blk = B -> absorb h (blk ++ rest) = absorb (process h blk) rest.
Proof.
  intros Hb. pose proof B_pos. unfold absorb. fold B.
  rewrite length_app, Hb, <- (Nat.mul_1_l B) at 1.
  rewrite (Nat.add_comm (1 * B)), Nat.div_add, Nat.add_comm by lia. cbn [Nat.add seq fold_left].
  rewrite Nat.mul_0_r. unfold slice at 2. cbn [skipn].
  rewrite firstn_app, <- Hb, firstn_all, Nat.sub_diag. cbn [firstn]. rewrite app_nil_r.
  rewrite <- seq_shift, fold_left_map, Hb.
  apply fold_left_ext. intros h' i _. f_equal.
  rewrite Nat.mul_succ_r, Nat.add_comm, <- Hb at 1. apply slice_app_r.
Qed.

Lemma absorb_one h blk : length blk = B -> absorb h blk = process h blk.
Proof.
  intros Hb. rewrite <- (app_nil_r blk) at 1. rewrite absorb_block by assumption.
  apply absorb_short. exact B_pos.
Qed.

Lemma absorb_app n h a b :
  length a = (B * n)%nat -> absorb h (a ++ b) = absorb (absorb h a) b.
Proof.
  revert h a; induction n as [|n IH]; intros h a Ha.
  - rewrite Nat.mul_0_r in Ha. destruct a; [|discriminate]. rewrite (absorb_short h []); auto using B_pos.
  - rewrite Nat.mul_succ_r in Ha.
    assert (Hf : length (firstn B a) = B) by (rewrite length_firstn; lia).
    rewrite <- (firstn_skipn B a) at 1 2. rewrite <- app_assoc.
    rewrite (absorb_block h _ (skipn B a ++ b) Hf), (absorb_block h _ (skipn B a) Hf).
    apply IH. rewrite length_skipn. lia.
Qed.

Lemma tail_of_length msg : length (tail_of msg) = (length msg mod B)%nat.
Proof.
  pose proof B_pos. unfold tail_of. fold B. rewrite length_skipn.
  pose proof (Nat.div_mod_eq (length msg) B). lia.
Qed.

Lemma full_tail msg :
  exists full, msg = full ++ tail_of msg /\ length full = (B * (length msg / B))%nat.
Proof.
  exists (firstn (B * (length msg / B)) msg). unfold tail_of. fold B. rewrite firstn_skipn.
  split; [reflexivity|]. rewrite length_firstn. pose proof B_pos.
  pose proof (Nat.Div0.mul_div_le (length msg) B). lia.
Qed.

Lemma tail_of_app n a b : length a = (B * n)%nat -> tail_of (a ++ b) = tail_of b.
Proof.
  intros Ha. pose proof B_pos. unfold tail_of. fold B. rewrite length_app, Ha.
  rewrite (Nat.mul_comm B n), Nat.add_comm, Nat.div_add by lia.
  rewrite skipn_app, skipn_all2 by (rewrite Ha; lia). cbn [app]. f_equal. lia.
Qed.

Lemma tail_of_short msg : (length msg < B)%nat -> tail_of msg = msg.
Proof. intros. unfold tail_of. fold B. rewrite Nat.div_small, Nat.mul_0_r by assumption. reflexivity. Qed.

Lemma tail_of_tail msg : tail_of (tail_of msg) = tail_of msg.
Proof. apply tail_of_short. rewrite tail_of_length. apply Nat.mod_upper_bound. pose proof B_pos. lia. Qed.

Lemma absorb_tail h msg rest : absorb h (msg ++ rest) = absorb (absorb h msg) (tail_of msg ++ rest).
Proof.
  destruct (full_tail msg) as (full & E & Hf). rewrite E at 1 2.
  rewrite <- app_assoc, (absorb_app _ _ _ _ Hf), (absorb_app _ _ _ _ Hf).
  rewrite (absorb_short _ (tail_of msg)); [reflexivity|].
  rewrite tail_of_length. apply Nat.mod_upper_bound. pose proof B_pos. lia.
Qed.

Lemma tail_app msg rest : tail_of (msg ++ rest) = tail_of (tail_of msg ++ rest).
Proof.
  destruct (full_tail msg) as (full & E & Hf). rewrite E at 1.
  rewrite <- app_assoc. apply (tail_of_app _ _ _ Hf).
Qed.

Lemma firstn_blit_full (wb pend data : list Z) :
  length wb = B -> firstn (length pend) wb = pend -> (length pend + length data)%nat = B ->
  blit wb (length pend) data = pend ++ data.
Proof.
  intros Hwb Hp Hl. unfold blit. rewrite Hp, skipn_all2, app_nil_r by lia. reflexivity.
Qed.

(** One call with the data [data] after the bytes [pend] left of earlier
    calls. *)
Lemma hash_loop_spec fuel hash wb pend data :
  length wb = B -> (length pend < B)%nat -> firstn (length pend) wb = pend ->
  ((length pend + length data) / B < fuel)%nat ->
  exists wb', hash_loop fuel hash wb (Z.of_nat (length pend)) data
              = Some (absorb hash (pend ++ data), wb')
    /\ length wb' = B
    /\ firstn (length (tail_of (pend ++ data))) wb' = tail_of (pend ++ data).
Proof.
  pose proof B_pos. pose proof B_of_nat.
  revert hash wb pend data; induction fuel as [|fuel IH]; intros hash wb pend data Hwb Hpl Hp Hf; [lia|].
  cbn [hash_loop]. unfold u32. rewrite (wrap_small 32 (bs - _)) by (red; lia).
  destruct (Z.ltb_spec (Z.of_nat (length data)) (bs - Z.of_nat (length pend))) as [Hs|Hs].
  - rewrite !Nat2Z.id, firstn_all. rewrite (wrap_small 32 (Z.of_nat _ + _)) by (red; lia).
    replace (wrap 32 _ =? 0) with false.
    2: { symmetry. apply Z.eqb_neq. unfold wrap.
         rewrite <- (Z_mod_plus_full _ 1), Z.mod_small by lia. lia. }
    cbn [negb]. eexists. split; [rewrite absorb_short by (rewrite length_app; lia); reflexivity|].
    rewrite tail_of_short by (rewrite length_app; lia). split; [rewrite length_blit; lia|].
    rewrite length_app, firstn_blit by lia. rewrite Hp. reflexivity.
  - replace (Z.to_nat (bs - Z.of_nat (length pend))) with (B - length pend)%nat by lia.
    set (r := (B - length pend)%nat).
    assert (Hfr : length (firstn r data) = r) by (rewrite length_firstn; lia).
    rewrite Nat2Z.id, (firstn_blit_full wb pend _ Hwb Hp) by lia.
    rewrite (wrap_small 32 (Z.of_nat _ + _)) by (red; lia).
    replace (Z.of_nat (length pend) + (bs - Z.of_nat (length pend)) - bs) with 0 by lia.
    change (wrap 32 0) with (Z.of_nat (length (@nil Z))). cbn [length Z.of_nat Z.eqb negb].
    destruct (IH (process hash (pend ++ firstn r data)) (pend ++ firstn r data) [] (skipn r data))
      as (wb' & E & Hl' & Ht); [rewrite length_app; lia|assumption|reflexivity| |].
    { cbn [length Nat.add]. rewrite length_skipn.
      replace (length pend + length data)%nat with ((length data - r) + 1 * B)%nat in Hf by lia.
      rewrite Nat.div_add in Hf by lia. lia. }
    exists wb'. cbn [app length Z.of_nat] in *. rewrite E.
    assert (Ed : pend ++ data = (pend ++ firstn r data) ++ skipn r data)
      by (rewrite <- app_assoc, firstn_skipn; reflexivity).
    rewrite Ed, absorb_block by (rewrite length_app; lia).
    rewrite (tail_of_app 1) by (rewrite length_app; lia). auto.
Qed.

(** The zero bytes between the byte 0x80 and the length. *)
Definition pad_zeros (need len : nat) : nat :=
  let p := (len mod block_bytes + 1)%nat in
  if (p + need <=? block_bytes)%nat then block_bytes - need - p
  else 2 * block_bytes - need - p.

(** [msg] padded: a byte 0x80, zeros, and [lb], to a whole number of blocks. *)
Definition pad (lb msg : list Z) : list Z :=
  msg ++ [128] ++ repeat 0 (pad_zeros (length lb) (length msg)) ++ lb.

Lemma end_loop_spec lb hash wb p :
  (length lb < B)%nat -> length wb = B -> (length p <= B)%nat -> firstn (length p) wb = p ->
  (1 <= length p)%nat ->
  let z := if (length p + length lb <=? B)%nat then (B - length lb - length p)%nat
           else (2 * B - length lb - length p)%nat in
  exists wb', end_loop 2 (Z.of_nat (length lb)) (fun wb => blit wb (B - length lb) lb)
                hash wb (Z.of_nat (length p))
              = Some (absorb hash (p ++ repeat 0 z ++ lb), wb') /\ length wb' = B.
Proof.
  pose proof B_pos. pose proof B_of_nat. intros Hlb Hwb Hpl Hp Hp1. cbv zeta.
  assert (Hblit : forall q k, length q = k -> (k + length lb)%nat = B ->
    blit (q ++ repeat 0 (B - k)) (B - length lb) lb = q ++ lb).
  { intros q k Hq Hk. unfold blit.
    rewrite firstn_app, (skipn_all2 (q ++ _)) by (autorewrite with len; lia).
    replace (B - length lb - length q)%nat with 0%nat by lia.
    rewrite firstn_all2 by lia. cbn [firstn]. rewrite !app_nil_r. reflexivity. }
  assert (Hstore : forall q, (length q + length lb <= B)%nat ->
    blit (q ++ repeat 0 (B - length q)) (B - length lb) lb
    = q ++ repeat 0 (B - length lb - length q) ++ lb).
  { intros q Hq. rewrite app_assoc.
    rewrite <- (Hblit (q ++ repeat 0 (B - length lb - length q)) (B - length lb)%nat)
      by (autorewrite with len; lia).
    f_equal. rewrite <- app_assoc, <- repeat_app. do 2 f_equal. lia. }
  cbn [end_loop]. unfold u32. rewrite (wrap_small 32 (bs - _)) by (red; lia).
  replace (Z.to_nat (bs - Z.of_nat (length p))) with (B - length p)%nat by lia.
  rewrite Nat2Z.id, (firstn_blit_full wb p) by (auto; autorewrite with len; lia).
  destruct (Nat.leb_spec (length p + length lb) B) as [Hc|Hc].
  - replace (Z.of_nat (length lb) <=? bs - Z.of_nat (length p)) with true
      by (symmetry; apply Z.leb_le; lia).
    rewrite Hstore by lia. rewrite absorb_one by (autorewrite with len; lia).
    eexists. split; [reflexivity|autorewrite with len; lia].
  - replace (Z.of_nat (length lb) <=? bs - Z.of_nat (length p)) with false
      by (symmetry; apply Z.leb_gt; lia).
    rewrite (wrap_small 32 (bs - 0)) by (red; lia).
    replace (Z.of_nat (length lb) <=? bs - 0) with true by (symmetry; apply Z.leb_le; lia).
    replace (Z.to_nat (bs - 0)) with B by lia. change (Z.to_nat 0) with (length (@nil Z)).
    rewrite (firstn_blit_full _ []) by (auto; autorewrite with len; cbn [length]; lia).
    pose proof (Hstore [] ltac:(simpl; lia)) as Hst. cbn [app length] in Hst.
    rewrite Nat.sub_0_r in Hst. cbn [app]. rewrite Hst, Nat.sub_0_r.
    replace (2 * B - length lb - length p)%nat with ((B - length p) + (B - length lb))%nat by lia.
    rewrite repeat_app, <- app_assoc, app_assoc, absorb_block by (autorewrite with len; lia).
    rewrite absorb_one by (autorewrite with len; lia).
    eexists. split; [reflexivity|autorewrite with len; lia].
Qed.

(** Only the result of [store] on a whole buffer matters. *)
Lemma end_loop_ext fuel need store store' h wb pos :
  (forall wb, length wb = B -> store wb = store' wb /\ length (store wb) = B) ->
  length wb = B -> 0 <= pos <= bs ->
  end_loop fuel need store h wb pos = end_loop fuel need store' h wb pos.
Proof.
  pose proof B_pos. pose proof B_of_nat. intros Hst.
  revert h wb pos; induction fuel as [|fuel IH]; intros h wb pos Hwb Hpos; [reflexivity|].
  cbn [end_loop]. unfold u32. rewrite (wrap_small 32 (bs - _)) by (red; lia).
  set (wb' := blit wb _ _).
  assert (Hl : length wb' = B).
  { unfold wb'. rewrite length_blit; [exact Hwb|]. rewrite repeat_length. lia. }
  destruct (Hst wb' Hl) as [<- Hl2]. destruct (need <=? bs - pos); [reflexivity|].
  apply IH; [exact Hl|lia].
Qed.
End Loops.

(** *** Against a reference *)

Section Sim.
Variable bs : Z.
Hypothesis bs_pos : 0 < bs < 2 ^ 31.
#[local] Abbreviation B := (block_bytes bs).
Variable process : list Z -> list Z -> list Z.
(** [process] works on the first words of an array as [spec] does, and keeps
    [rest]. *)
Variable spec : list Z -> list Z -> list Z.
Variable good : list Z -> Prop.
Variable rest : list Z.
Hypothesis process_spec : forall h blk,
  good h -> length blk = B -> bytes blk -> process (h ++ rest) blk = spec h blk ++ rest.
Hypothesis spec_good : forall h blk, good h -> good (spec h blk).

Lemma absorb_sim h msg :
  good h -> bytes msg ->
  absorb bs process (h ++ rest) msg = absorb bs spec h msg ++ rest /\ good (absorb bs spec h msg).
Proof.
  intros Hh Hm. pose proof (B_pos bs bs_pos). unfold absorb.
  assert (Hin : forall i, In i (seq 0 (length msg / B)) -> length (slice (B * i) B msg) = B).
  { intros i Hi%in_seq. rewrite length_slice. pose proof (Nat.Div0.mul_div_le (length msg) B).
    assert (B * (i + 1) <= B * (length msg / B))%nat by (apply Nat.mul_le_mono_l; lia). lia. }
  revert h Hh Hin; generalize (seq 0 (length msg / B)) as l.
  induction l as [|i l IH]; intros h Hh Hin; [auto|]. cbn [fold_left].
  rewrite process_spec; [|assumption|apply Hin; left; reflexivity|apply bytes_slice, Hm].
  apply IH; [auto|]. intros; apply Hin; right; assumption.
Qed.

(** The state of a context that was given [msg]. *)
Definition buffered (h0 msg hash wb : list Z) : Prop :=
  length wb = B /\ firstn (length (tail_of bs msg)) wb = tail_of bs msg /\ good h0 /\ bytes msg
  /\ hash = absorb bs process (h0 ++ rest) msg.

Lemma buffered_nil h0 wb : length wb = B -> good h0 -> buffered h0 [] (h0 ++ rest) wb.
Proof.
  intros. pose proof (B_pos bs bs_pos). split; [assumption|]. rewrite tail_of_short by assumption.
  repeat split; auto; [constructor|]. rewrite absorb_short by assumption. reflexivity.
Qed.

Lemma buffered_hash h0 msg hash wb data fuel :
  buffered h0 msg hash wb -> bytes data -> (length data / B + 1 < fuel)%nat ->
  exists hash' wb',
    hash_loop bs process fuel hash wb (Z.of_nat (length msg mod B)) data = Some (hash', wb')
    /\ buffered h0 (msg ++ data) hash' wb'.
Proof.
  intros (Hl & Ht & Hg & Hm & ->) Hd Hf. pose proof (B_pos bs bs_pos).
  rewrite <- tail_of_length by exact bs_pos.
  pose proof (Nat.mod_upper_bound (length msg) B ltac:(lia)) as Htl.
  rewrite <- tail_of_length in Htl by exact bs_pos.
  destruct (hash_loop_spec bs process bs_pos fuel (absorb bs process (h0 ++ rest) msg) wb
              (tail_of bs msg) data) as (wb' & E & Hl' & Ht'); [assumption..| |].
  { eapply Nat.le_lt_trans; [|exact Hf]. rewrite <- Nat.div_add by lia.
    apply Nat.Div0.div_le_mono. lia. }
  rewrite <- tail_app in Ht' by exact bs_pos. rewrite <- absorb_tail in E by exact bs_pos.
  eexists _, wb'. split; [exact E|]. repeat split; auto. apply Forall_app; auto.
Qed.

Lemma buffered_end h0 msg hash wb lb store :
  buffered h0 msg hash wb -> bytes lb -> (length lb < B)%nat ->
  (forall wb, length wb = B -> store wb = blit wb (B - length lb) lb) ->
  exists wb', end_loop bs process 2 (Z.of_nat (length lb)) store hash
                (upd wb (length msg mod B) 128) (Z.of_nat (length msg mod B) + 1)
              = Some (absorb bs spec h0 (pad bs lb msg) ++ rest, wb') /\ length wb' = B.
Proof.
  intros (Hl & Ht & Hg & Hm & ->) Hb Hlb Hst.
  pose proof (B_pos bs bs_pos). pose proof (B_of_nat bs bs_pos).
  pose proof (Nat.mod_upper_bound (length msg) B ltac:(lia)) as Htl.
  rewrite (end_loop_ext bs process bs_pos _ _ _ (fun wb => blit wb (B - length lb) lb));
    [|intros w Hw; rewrite (Hst w Hw); split; [reflexivity|rewrite length_blit; lia]
     |rewrite length_upd; exact Hl|lia].
  rewrite <- (tail_of_length bs bs_pos) in *.
  destruct (end_loop_spec bs process bs_pos lb (absorb bs process (h0 ++ rest) msg)
              (upd wb (length (tail_of bs msg)) 128) (tail_of bs msg ++ [128]))
    as (wb' & E & Hl').
  1-5: rewrite ?length_upd, ?length_app; cbn [length]; try lia.
  { rewrite Nat.add_1_r, firstn_upd, Ht by lia. reflexivity. }
  exists wb'. rewrite length_app in E. cbn [length] in E. rewrite Nat2Z.inj_add in E.
  change (Z.of_nat 1) with 1 in E. rewrite E. split; [|exact Hl'].
  do 2 f_equal. destruct (absorb_sim h0 (pad bs lb msg) Hg) as [<- _].
  - unfold pad, bytes in *. rewrite !Forall_app. split; [exact Hm|]. split; [|split; [|exact Hb]].
    + constructor; [red; lia|constructor].
    + apply Forall_forall. intros x ->%repeat_spec. red; lia.
  - unfold pad. rewrite (absorb_tail bs process bs_pos _ msg), <- app_assoc. unfold pad_zeros. 
    rewrite <- tail_of_length by exact bs_pos. reflexivity.
Qed.
End Sim.
