(* ===== verification/Md5.v ===== *)
(** * MD5

    The block function of MD5 in [libbb/hash_md5_sha.c], in the four sizes
    that [CONFIG_MD5_SMALL] selects (0: unrolled, 1: rounds of four steps, 2:
    a loop per round, 3: one loop), and the proof that all four compute the
    function of RFC 1321. *)

From Stdlib Require Import ZArith List Lia Bool.
From S2P Require Import Prelude Words.
Import ListNotations.
Local Open Scope Z_scope.

Module MD5.

(** ** The code *)

(** [MD5_SMALL] of a configuration. *)
Definition MD5_SMALL (config : Z) : Z :=
  if config <? 0 then 0 else if 3 <? config then 3 else config.

Definition FF (b c d : Z) : Z := Z.lxor d (Z.land b (Z.lxor c d)).
Definition FG (b c d : Z) : Z := FF d b c.
Definition FH (b c d : Z) : Z := Z.lxor (Z.lxor b c) d.
Definition FI (b c d : Z) : Z := Z.lxor c (Z.lor b (not32 d)).

Definition C_array : list Z := [
  0xd76aa478; 0xe8c7b756; 0x242070db; 0xc1bdceee;
  0xf57c0faf; 0x4787c62a; 0xa8304613; 0xfd469501;
  0x698098d8; 0x8b44f7af; 0xffff5bb1; 0x895cd7be;
  0x6b901122; 0xfd987193; 0xa679438e; 0x49b40821;
  0xf61e2562; 0xc040b340; 0x265e5a51; 0xe9b6c7aa;
  0xd62f105d; 0x02441453; 0xd8a1e681; 0xe7d3fbc8;
  0x21e1cde6; 0xc33707d6; 0xf4d50d87; 0x455a14ed;
  0xa9e3e905; 0xfcefa3f8; 0x676f02d9; 0x8d2a4c8a;
  0xfffa3942; 0x8771f681; 0x6d9d6122; 0xfde5380c;
  0xa4beea44; 0x4bdecfa9; 0xf6bb4b60; 0xbebfbc70;
  0x289b7ec6; 0xeaa127fa; 0xd4ef3085; 0x4881d05;
  0xd9d4d039; 0xe6db99e5; 0x1fa27cf8; 0xc4ac5665;
  0xf4292244; 0x432aff97; 0xab9423a7; 0xfc93a039;
  0x655b59c3; 0x8f0ccc92; 0xffeff47d; 0x85845dd1;
  0x6fa87e4f; 0xfe2ce6e0; 0xa3014314; 0x4e0811a1;
  0xf7537e82; 0xbd3af235; 0x2ad7d2bb; 0xeb86d391 ].

(** [P_array]; its first row is there when [MD5_SMALL > 1]. *)
Definition P_array_rest : list nat := [
  1; 6; 11; 0; 5; 10; 15; 4; 9; 14; 3; 8; 13; 2; 7; 12;
  5; 8; 11; 14; 1; 4; 7; 10; 13; 0; 3; 6; 9; 12; 15; 2;
  0; 7; 14; 5; 12; 3; 10; 1; 8; 15; 6; 13; 4; 11; 2; 9 ]%nat.
Definition P_array : list nat :=
  [0; 1; 2; 3; 4; 5; 6; 7; 8; 9; 10; 11; 12; 13; 14; 15]%nat ++ P_array_rest.
Definition S_array : list Z := [7; 12; 17; 22; 5; 9; 14; 20; 4; 11; 16; 23; 6; 10; 15; 21].

(** The locals A, B, C, D. *)
Record regs := mk_regs { rA : Z; rB : Z; rC : Z; rD : Z }.
Inductive reg : Set := A | B | C | D.
Definition get (r : regs) (x : reg) : Z :=
  match x with A => rA r | B => rB r | C => rC r | D => rD r end.
Definition set (r : regs) (x : reg) (v : Z) : regs :=
  match x with
  | A => mk_regs v (rB r) (rC r) (rD r)
  | B => mk_regs (rA r) v (rC r) (rD r)
  | C => mk_regs (rA r) (rB r) v (rD r)
  | D => mk_regs (rA r) (rB r) (rC r) v
  end.

Section Block.
(** [words[k]] *)
Variable words : nat -> Z.

(** The macro [OP] of rounds 2 to 4: [OP(f, a, b, c, d, k, s, T)]. *)
Definition OP (f : Z -> Z -> Z -> Z) (a b c d : reg) (k : nat) (s T : Z) (r : regs) : regs :=
  let r := set r a (add32 (get r a)
             (add32 (add32 (f (get r b) (get r c) (get r d)) (words k)) T)) in
  let r := set r a (rotl32 (get r a) s) in
  set r a (add32 (get r a) (get r b)).

(** The macro [OP] of round 1, [OP(a, b, c, d, s, T)], which takes the word
    at the pointer [words] and advances it. *)
Definition OP1 (a b c d : reg) (s T : Z) (st : regs * nat) : regs * nat :=
  let '(r, p) := st in (OP FF a b c d p s T r, S p).

(** *** MD5_SMALL == 0: the calls of the macros, in their order *)

Definition round1_unrolled : list (reg * reg * reg * reg * Z * Z) := [
  (A, B, C, D, 7, 0xd76aa478); (D, A, B, C, 12, 0xe8c7b756);
  (C, D, A, B, 17, 0x242070db); (B, C, D, A, 22, 0xc1bdceee);
  (A, B, C, D, 7, 0xf57c0faf); (D, A, B, C, 12, 0x4787c62a);
  (C, D, A, B, 17, 0xa8304613); (B, C, D, A, 22, 0xfd469501);
  (A, B, C, D, 7, 0x698098d8); (D, A, B, C, 12, 0x8b44f7af);
  (C, D, A, B, 17, 0xffff5bb1); (B, C, D, A, 22, 0x895cd7be);
  (A, B, C, D, 7, 0x6b901122); (D, A, B, C, 12, 0xfd987193);
  (C, D, A, B, 17, 0xa679438e); (B, C, D, A, 22, 0x49b40821) ].

Definition round2_unrolled : list (reg * reg * reg * reg * nat * Z * Z) := [
  (A, B, C, D, 1%nat, 5, 0xf61e2562); (D, A, B, C, 6%nat, 9, 0xc040b340);
  (C, D, A, B, 11%nat, 14, 0x265e5a51); (B, C, D, A, 0%nat, 20, 0xe9b6c7aa);
  (A, B, C, D, 5%nat, 5, 0xd62f105d); (D, A, B, C, 10%nat, 9, 0x02441453);
  (C, D, A, B, 15%nat, 14, 0xd8a1e681); (B, C, D, A, 4%nat, 20, 0xe7d3fbc8);
  (A, B, C, D, 9%nat, 5, 0x21e1cde6); (D, A, B, C, 14%nat, 9, 0xc33707d6);
  (C, D, A, B, 3%nat, 14, 0xf4d50d87); (B, C, D, A, 8%nat, 20, 0x455a14ed);
  (A, B, C, D, 13%nat, 5, 0xa9e3e905); (D, A, B, C, 2%nat, 9, 0xfcefa3f8);
  (C, D, A, B, 7%nat, 14, 0x676f02d9); (B, C, D, A, 12%nat, 20, 0x8d2a4c8a) ].

Definition round3_unrolled : list (reg * reg * reg * reg * nat * Z * Z) := [
  (A, B, C, D, 5%nat, 4, 0xfffa3942); (D, A, B, C, 8%nat, 11, 0x8771f681);
  (C, D, A, B, 11%nat, 16, 0x6d9d6122); (B, C, D, A, 14%nat, 23, 0xfde5380c);
  (A, B, C, D, 1%nat, 4, 0xa4beea44); (D, A, B, C, 4%nat, 11, 0x4bdecfa9);
  (C, D, A, B, 7%nat, 16, 0xf6bb4b60); (B, C, D, A, 10%nat, 23, 0xbebfbc70);
  (A, B, C, D, 13%nat, 4, 0x289b7ec6); (D, A, B, C, 0%nat, 11, 0xeaa127fa);
  (C, D, A, B, 3%nat, 16, 0xd4ef3085); (B, C, D, A, 6%nat, 23, 0x04881d05);
  (A, B, C, D, 9%nat, 4, 0xd9d4d039); (D, A, B, C, 12%nat, 11, 0xe6db99e5);
  (C, D, A, B, 15%nat, 16, 0x1fa27cf8); (B, C, D, A, 2%nat, 23, 0xc4ac5665) ].

Definition round4_unrolled : list (reg * reg * reg * reg * nat * Z * Z) := [
  (A, B, C, D, 0%nat, 6, 0xf4292244); (D, A, B, C, 7%nat, 10, 0x432aff97);
  (C, D, A, B, 14%nat, 15, 0xab9423a7); (B, C, D, A, 5%nat, 21, 0xfc93a039);
  (A, B, C, D, 12%nat, 6, 0x655b59c3); (D, A, B, C, 3%nat, 10, 0x8f0ccc92);
  (C, D, A, B, 10%nat, 15, 0xffeff47d); (B, C, D, A, 1%nat, 21, 0x85845dd1);
  (A, B, C, D, 8%nat, 6, 0x6fa87e4f); (D, A, B, C, 15%nat, 10, 0xfe2ce6e0);
  (C, D, A, B, 6%nat, 15, 0xa3014314); (B, C, D, A, 13%nat, 21, 0x4e0811a1);
  (A, B, C, D, 4%nat, 6, 0xf7537e82); (D, A, B, C, 11%nat, 10, 0xbd3af235);
  (C, D, A, B, 2%nat, 15, 0x2ad7d2bb); (B, C, D, A, 9%nat, 21, 0xeb86d391) ].

Definition run_round1 (st : regs * nat) (i : reg * reg * reg * reg * Z * Z) : regs * nat :=
  let '(a, b, c, d, s, T) := i in OP1 a b c d s T st.
Definition run_round (f : Z -> Z -> Z -> Z) (r : regs)
    (i : reg * reg * reg * reg * nat * Z * Z) : regs :=
  let '(a, b, c, d, k, s, T) := i in OP f a b c d k s T r.

Definition md5_rounds_0 (r : regs) : regs :=
  let '(r, _) := fold_left run_round1 round1_unrolled (r, 0%nat) in
  let r := fold_left (run_round FG) round2_unrolled r in
  let r := fold_left (run_round FH) round3_unrolled r in
  fold_left (run_round FI) round4_unrolled r.

(** *** MD5_SMALL == 1: a loop of four steps per round *)

(** The macro with [*pc++] for the constant. *)
Definition OP1_pc (a b c d : reg) (s : Z) (st : (regs * nat) * nat) : (regs * nat) * nat :=
  let '(st, pc) := st in (OP1 a b c d s (nth pc C_array 0) st, S pc).
(** The macro with [*pp++] for the index and [*pc++] for the constant. *)
Definition OP_pc (f : Z -> Z -> Z -> Z) (a b c d : reg) (s : Z) (st : regs * nat * nat)
  : regs * nat * nat :=
  let '(r, pp, pc) := st in
  (OP f a b c d (nth pp P_array_rest 0%nat) s (nth pc C_array 0) r, S pp, S pc).

Definition round1_small (st : (regs * nat) * nat) (_ : nat) : (regs * nat) * nat :=
  let st := OP1_pc A B C D 7 st in
  let st := OP1_pc D A B C 12 st in
  let st := OP1_pc C D A B 17 st in
  OP1_pc B C D A 22 st.
Definition round2_small (st : regs * nat * nat) (_ : nat) : regs * nat * nat :=
  let st := OP_pc FG A B C D 5 st in
  let st := OP_pc FG D A B C 9 st in
  let st := OP_pc FG C D A B 14 st in
  OP_pc FG B C D A 20 st.
Definition round3_small (st : regs * nat * nat) (_ : nat) : regs * nat * nat :=
  let st := OP_pc FH A B C D 4 st in
  let st := OP_pc FH D A B C 11 st in
  let st := OP_pc FH C D A B 16 st in
  OP_pc FH B C D A 23 st.
Definition round4_small (st : regs * nat * nat) (_ : nat) : regs * nat * nat :=
  let st := OP_pc FI A B C D 6 st in
  let st := OP_pc FI D A B C 10 st in
  let st := OP_pc FI C D A B 15 st in
  OP_pc FI B C D A 21 st.

Definition md5_rounds_1 (r : regs) : regs :=
  let '(r, _, pc) := fold_left round1_small (seq 0 4) ((r, 0%nat), 0%nat) in
  let st := fold_left round2_small (seq 0 4) (r, 0%nat, pc) in
  let st := fold_left round3_small (seq 0 4) st in
  let '(r, _, _) := fold_left round4_small (seq 0 4) st in r.

(** *** MD5_SMALL == 2: a loop per round *)

(** The body of the loops; [ps] points to the row of shifts. *)
Definition loop_body (f : Z -> Z -> Z -> Z) (ps : nat) (st : regs * nat * nat) (i : nat)
  : regs * nat * nat :=
  let '(r, pp, pc) := st in
  let temp := add32 (add32 (add32 (rA r) (f (rB r) (rC r) (rD r)))
                           (words (nth pp P_array 0%nat))) (nth pc C_array 0) in
  let temp := rotl32 temp (nth (ps + Nat.land i 3) S_array 0) in
  let temp := add32 temp (rB r) in
  (mk_regs (rD r) temp (rB r) (rC r), S pp, S pc).

Definition md5_rounds_2 (r : regs) : regs :=
  let st := fold_left (loop_body FF 0) (seq 0 16) (r, 0%nat, 0%nat) in
  let st := fold_left (loop_body FG 4) (seq 0 16) st in
  let st := fold_left (loop_body FH 8) (seq 0 16) st in
  let '(r, _, _) := fold_left (loop_body FI 12) (seq 0 16) st in r.

(** *** MD5_SMALL == 3: one loop *)

(** [ps] is [ps + 4] of the code, which starts four entries before the
    table. *)
Definition loop64_body (st : regs * nat * nat * nat) (i : nat) : regs * nat * nat * nat :=
  let '(r, pp, pc, ps) := st in
  let ps := if Nat.eqb (Nat.land i 15) 0 then (ps + 4)%nat else ps in
  let temp := rA r in
  let temp := match Nat.shiftr i 4 with
              | 0%nat => add32 temp (FF (rB r) (rC r) (rD r))
              | 1%nat => add32 temp (FG (rB r) (rC r) (rD r))
              | 2%nat => add32 temp (FH (rB r) (rC r) (rD r))
              | _ => add32 temp (FI (rB r) (rC r) (rD r))
              end in
  let temp := add32 temp (add32 (words (nth pp P_array 0%nat)) (nth pc C_array 0)) in
  let temp := rotl32 temp (nth (ps - 4 + Nat.land i 3) S_array 0) in
  let temp := add32 temp (rB r) in
  (mk_regs (rD r) temp (rB r) (rC r), S pp, S pc, ps).

Definition md5_rounds_3 (r : regs) : regs :=
  let '(r, _, _, _) := fold_left loop64_body (seq 0 64) (r, 0%nat, 0%nat, 0%nat) in r.
End Block.

Definition md5_rounds (config : Z) : (nat -> Z) -> regs -> regs :=
  let small := MD5_SMALL config in
  if 2 <=? small then if small =? 3 then md5_rounds_3 else md5_rounds_2
  else if small =? 1 then md5_rounds_1 else md5_rounds_0.

(** [md5_process_block64] under [CONFIG_MD5_SMALL = config]: [ctx->hash] and
    [ctx->wbuffer] to the new [ctx->hash]. *)
Definition md5_process_block64 (config : Z) (hash wbuffer : list Z) : list Z :=
  let words k := word_at 4 k wbuffer in
  let r := mk_regs (nth 0 hash 0) (nth 1 hash 0) (nth 2 hash 0) (nth 3 hash 0) in
  let r := md5_rounds config words r in
  let hash := upd hash 0 (add32 (nth 0 hash 0) (rA r)) in
  let hash := upd hash 1 (add32 (nth 1 hash 0) (rB r)) in
  let hash := upd hash 2 (add32 (nth 2 hash 0) (rC r)) in
  upd hash 3 (add32 (nth 3 hash 0) (rD r)).

(** ** RFC 1321 *)

Definition rfc_F (x y z : Z) : Z := Z.lor (Z.land x y) (Z.land (not32 x) z).
Definition rfc_G (x y z : Z) : Z := Z.lor (Z.land x z) (Z.land y (not32 z)).
Definition rfc_H (x y z : Z) : Z := Z.lxor (Z.lxor x y) z.
Definition rfc_I (x y z : Z) : Z := Z.lxor y (Z.lor x (not32 z)).

(** The function, the word index, the shift and the constant of step [i]. *)
Definition rfc_fun (i : nat) : Z -> Z -> Z -> Z :=
  nth (i / 16) [rfc_F; rfc_G; rfc_H; rfc_I] rfc_I.
Definition rfc_k (i : nat) : nat :=
  match (i / 16)%nat with
  | 0%nat => i
  | 1%nat => (5 * i + 1) mod 16
  | 2%nat => (3 * i + 5) mod 16
  | _ => (7 * i) mod 16
  end.
Definition rfc_s (i : nat) : Z :=
  nth (i mod 4) (nth (i / 16) [[7; 12; 17; 22]; [5; 9; 14; 20]; [4; 11; 16; 23]; [6; 10; 15; 21]] []) 0.
Definition rfc_T (i : nat) : Z := nth i C_array 0.

(** a = b + ((a + f(b,c,d) + X[k] + T[i]) <<< s), then the registers turn. *)
Definition rfc_step (X : nat -> Z) (r : regs) (i : nat) : regs :=
  let sum := rA r + rfc_fun i (rB r) (rC r) (rD r) + X (rfc_k i) + rfc_T i in
  mk_regs (rD r) (u32 (rB r + rotl32 (u32 sum) (rfc_s i))) (rB r) (rC r).

Definition rfc_compress (h : list Z) (block : list Z) : list Z :=
  let X k := word_at 4 k block in
  let r := fold_left (rfc_step X) (seq 0 64)
             (mk_regs (nth 0 h 0) (nth 1 h 0) (nth 2 h 0) (nth 3 h 0)) in
  [u32 (nth 0 h 0 + rA r); u32 (nth 1 h 0 + rB r); u32 (nth 2 h 0 + rC r); u32 (nth 3 h 0 + rD r)].

(** ** The code computes the function of the RFC *)

Lemma FF_rfc x y z : in_u 32 x -> in_u 32 y -> in_u 32 z -> FF x y z = rfc_F x y z.
Proof.
  intros Hx Hy Hz. apply Z.bits_inj'. intros i Hi. unfold FF, rfc_F, not32, u32.
  rewrite Z.lor_spec, Z.lxor_spec, !Z.land_spec, Z.lxor_spec, wrap_testbit, Z.lnot_spec by lia.
  destruct (Z.ltb_spec i 32); [cbn [andb]; destruct (Z.testbit x i), (Z.testbit y i), (Z.testbit z i); reflexivity|].
  rewrite !(in_u_testbit 32) by (assumption || lia). reflexivity.
Qed.

Lemma FG_rfc x y z : in_u 32 x -> in_u 32 y -> in_u 32 z -> FG x y z = rfc_G x y z.
Proof.
  intros Hx Hy Hz. unfold FG. rewrite FF_rfc by assumption. unfold rfc_F, rfc_G.
  rewrite (Z.land_comm z x), (Z.land_comm _ y). reflexivity.
Qed.

Definition code_fun (i : nat) : Z -> Z -> Z -> Z := nth (i / 16) [FF; FG; FH; FI] FI.

Lemma code_fun_rfc i x y z :
  in_u 32 x -> in_u 32 y -> in_u 32 z -> code_fun i x y z = rfc_fun i x y z.
Proof.
  intros. unfold code_fun, rfc_fun.
  destruct (i / 16)%nat as [|[|[|[|n]]]]; cbn [nth]; auto using FF_rfc, FG_rfc;
    destruct n; reflexivity.
Qed.

Section Steps.
Variable words : nat -> Z.

(** The new value of the register [a] in a step. *)
Definition turn (f : Z -> Z -> Z -> Z) (k : nat) (s T a b c d : Z) : Z :=
  add32 (rotl32 (add32 a (add32 (add32 (f b c d) (words k)) T)) s) b.

(** One step with turning registers. *)
Definition step (f : Z -> Z -> Z -> Z) (k : nat) (s T : Z) (r : regs) : regs :=
  mk_regs (rD r) (turn f k s T (rA r) (rB r) (rC r) (rD r)) (rB r) (rC r).

Definition code_step (r : regs) (i : nat) : regs :=
  step (code_fun i) (rfc_k i) (rfc_s i) (rfc_T i) r.

Lemma OP_A f k s T a b c d :
  OP words f A B C D k s T (mk_regs a b c d) = mk_regs (turn f k s T a b c d) b c d.
Proof. reflexivity. Qed.
Lemma OP_D f k s T a b c d :
  OP words f D A B C k s T (mk_regs a b c d) = mk_regs a b c (turn f k s T d a b c).
Proof. reflexivity. Qed.
Lemma OP_C f k s T a b c d :
  OP words f C D A B k s T (mk_regs a b c d) = mk_regs a b (turn f k s T c d a b) d.
Proof. reflexivity. Qed.
Lemma OP_B f k s T a b c d :
  OP words f B C D A k s T (mk_regs a b c d) = mk_regs a (turn f k s T b c d a) c d.
Proof. reflexivity. Qed.

(** Four calls of the macro, each on the next register, are four steps. *)
Lemma OP_quad f k1 k2 k3 k4 s1 s2 s3 s4 T1 T2 T3 T4 r :
  OP words f B C D A k4 s4 T4 (OP words f C D A B k3 s3 T3
    (OP words f D A B C k2 s2 T2 (OP words f A B C D k1 s1 T1 r)))
  = step f k4 s4 T4 (step f k3 s3 T3 (step f k2 s2 T2 (step f k1 s1 T1 r))).
Proof. destruct r as [a b c d]. rewrite OP_A, OP_D, OP_C, OP_B. unfold step. cbn [rA rB rC rD]. reflexivity. Qed.

(** A program of such calls from its parameters. *)
Fixpoint quads (ps : list (nat * Z * Z)) : list (reg * reg * reg * reg * nat * Z * Z) :=
  match ps with
  | (k1, s1, T1) :: (k2, s2, T2) :: (k3, s3, T3) :: (k4, s4, T4) :: ps =>
      (A, B, C, D, k1, s1, T1) :: (D, A, B, C, k2, s2, T2) :: (C, D, A, B, k3, s3, T3)
      :: (B, C, D, A, k4, s4, T4) :: quads ps
  | _ => []
  end.

Lemma quads_steps f n ps r :
  length ps = (4 * n)%nat ->
  fold_left (run_round words f) (quads ps) r
  = fold_left (fun r '(k, s, T) => step f k s T r) ps r.
Proof.
  revert ps r; induction n as [|n IH]; intros ps r Hl.
  - destruct ps; [reflexivity|discriminate].
  - do 4 (destruct ps as [|[[? ?] ?] ps]; [discriminate || (simpl in Hl; lia)|]).
    cbn [quads fold_left run_round]. rewrite OP_quad. apply IH. simpl in Hl. lia.
Qed.

Definition params (i : nat) : nat * Z * Z := (rfc_k i, rfc_s i, rfc_T i).

(** The steps of round [q], all with the function [f]. *)
Lemma round_steps f q (r : regs) :
  (forall i, In i (seq (16 * q) 16) -> code_fun i = f) ->
  fold_left (fun r '(k, s, T) => step f k s T r) (map params (seq (16 * q) 16)) r
  = fold_left code_step (seq (16 * q) 16) r.
Proof.
  intros Hf. rewrite fold_left_map. apply fold_left_ext. intros r' i Hi.
  unfold params, code_step. rewrite Hf by assumption. reflexivity.
Qed.

Definition rounds (r : regs) : regs := fold_left (code_step) (seq 0 64) r.

Lemma rounds_split r :
  rounds r = fold_left code_step (seq (16 * 3) 16) (fold_left code_step (seq (16 * 2) 16)
               (fold_left code_step (seq (16 * 1) 16) (fold_left code_step (seq (16 * 0) 16) r))).
Proof.
  unfold rounds. change (seq 0 64) with (seq 0 16 ++ seq 16 16 ++ seq 32 16 ++ seq 48 16).
  rewrite !fold_left_app. reflexivity.
Qed.

(** The calls of round 1 with the word index written out. *)
Fixpoint numbered (p : nat) (l : list (reg * reg * reg * reg * Z * Z))
  : list (reg * reg * reg * reg * nat * Z * Z) :=
  match l with
  | [] => []
  | (a, b, c, d, s, T) :: l => (a, b, c, d, p, s, T) :: numbered (S p) l
  end.

Lemma numbered_run l r p :
  fold_left (run_round1 words) l (r, p)
  = (fold_left (run_round words FF) (numbered p l) r, (p + length l)%nat).
Proof.
  revert r p; induction l as [|[[[[[a b] c] d] s] T] l IH]; intros r p.
  - cbn. rewrite Nat.add_0_r. reflexivity.
  - cbn [fold_left run_round1 OP1 numbered run_round length]. rewrite IH. f_equal. lia.
Qed.

Lemma unrolled_round f q l r :
  l = quads (map params (seq (16 * q) 16)) ->
  (forall i, In i (seq (16 * q) 16) -> code_fun i = f) ->
  fold_left (run_round words f) l r = fold_left code_step (seq (16 * q) 16) r.
Proof.
  intros -> Hf. rewrite (quads_steps f 4) by reflexivity. apply round_steps, Hf.
Qed.

Ltac each_step := intros i Hi; cbn in Hi; repeat destruct Hi as [<-|Hi]; [reflexivity..|contradiction].

Lemma rounds_0 r : md5_rounds_0 words r = rounds r.
Proof.
  unfold md5_rounds_0. rewrite numbered_run, rounds_split.
  rewrite (unrolled_round FF 0) by (reflexivity || each_step).
  rewrite (unrolled_round FG 1) by (reflexivity || each_step).
  rewrite (unrolled_round FH 2) by (reflexivity || each_step).
  rewrite (unrolled_round FI 3) by (reflexivity || each_step). reflexivity.
Qed.

Ltac unroll :=
  cbv [fold_left seq round1_small round2_small round3_small round4_small OP1_pc OP_pc OP1
       run_round1 run_round round1_unrolled round2_unrolled round3_unrolled round4_unrolled
       nth C_array P_array_rest]; reflexivity.

(** The loops of [MD5_SMALL == 1] make the calls of the unrolled code. *)
Lemma rounds_1 r : md5_rounds_1 words r = rounds r.
Proof.
  transitivity (md5_rounds_0 words r); [|exact (rounds_0 r)]. unfold md5_rounds_1, md5_rounds_0.
  assert (E1 : fold_left (round1_small words) (seq 0 4) (r, 0%nat, 0%nat)
               = (fold_left (run_round1 words) round1_unrolled (r, 0%nat), 16%nat)) by unroll.
  rewrite E1. destruct (fold_left (run_round1 words) round1_unrolled (r, 0%nat)) as [r1 p].
  assert (E2 : fold_left (round2_small words) (seq 0 4) (r1, 0%nat, 16%nat)
               = (fold_left (run_round words FG) round2_unrolled r1, 16%nat, 32%nat)) by unroll.
  rewrite E2. generalize (fold_left (run_round words FG) round2_unrolled r1) as r2; intros r2.
  assert (E3 : fold_left (round3_small words) (seq 0 4) (r2, 16%nat, 32%nat)
               = (fold_left (run_round words FH) round3_unrolled r2, 32%nat, 48%nat)) by unroll.
  rewrite E3. generalize (fold_left (run_round words FH) round3_unrolled r2) as r3; intros r3.
  assert (E4 : fold_left (round4_small words) (seq 0 4) (r3, 32%nat, 48%nat)
               = (fold_left (run_round words FI) round4_unrolled r3, 48%nat, 64%nat)) by unroll.
  rewrite E4. reflexivity.
Qed.

(** The tables of the code are those of the RFC. *)
Lemma tables i :
  (i < 64)%nat ->
  nth i P_array 0%nat = rfc_k i
  /\ nth (4 * (i / 16) + Nat.land (i mod 16) 3) S_array 0 = rfc_s i
  /\ Nat.land i 3 = Nat.land (i mod 16) 3.
Proof.
  intros Hi.
  assert (Hall : forallb (fun i => Nat.eqb (nth i P_array 0%nat) (rfc_k i)
    && (nth (4 * (i / 16) + Nat.land (i mod 16) 3) S_array 0 =? rfc_s i)
    && Nat.eqb (Nat.land i 3) (Nat.land (i mod 16) 3)) (seq 0 64) = true) by reflexivity.
  rewrite forallb_forall in Hall. specialize (Hall i ltac:(apply in_seq; lia)).
  rewrite !andb_true_iff, !Nat.eqb_eq, Z.eqb_eq in Hall. tauto.
Qed.

Lemma sum_left a f w T : add32 (add32 (add32 a f) w) T = add32 a (add32 (add32 f w) T).
Proof. rewrite !add32_assoc. reflexivity. Qed.

Lemma loop_body_step f q i r :
  (i < 16)%nat -> (q < 4)%nat ->
  loop_body words f (4 * q) (r, 16 * q + i, 16 * q + i)%nat i
  = (step f (rfc_k (16 * q + i)) (rfc_s (16 * q + i)) (rfc_T (16 * q + i)) r,
     S (16 * q + i), S (16 * q + i)).
Proof.
  intros Hi Hq. destruct (tables (16 * q + i) ltac:(lia)) as (Hk & Hs & _).
  unfold loop_body. rewrite Hk.
  replace ((16 * q + i) / 16)%nat with q in Hs
    by (rewrite Nat.mul_comm, Nat.add_comm, Nat.div_add, Nat.div_small by lia; lia).
  replace ((16 * q + i) mod 16)%nat with i in Hs
    by (rewrite Nat.mul_comm, Nat.add_comm, Nat.Div0.mod_add, Nat.mod_small by lia; lia).
  rewrite Hs, sum_left. reflexivity.
Qed.

Lemma loop_round f q n i r :
  (i + n <= 16)%nat -> (q < 4)%nat ->
  (forall j, In j (seq (16 * q) 16) -> code_fun j = f) ->
  fold_left (loop_body words f (4 * q)) (seq i n) (r, 16 * q + i, 16 * q + i)%nat
  = (fold_left code_step (seq (16 * q + i) n) r, 16 * q + i + n, 16 * q + i + n)%nat.
Proof.
  intros Hn Hq Hf. revert i r Hn; induction n as [|n IH]; intros i r Hn.
  - cbn [seq fold_left]. rewrite Nat.add_0_r. reflexivity.
  - cbn [seq fold_left]. rewrite loop_body_step by lia.
    unfold code_step at 2. rewrite Hf by (apply in_seq; lia).
    rewrite <- !Nat.add_succ_r, IH by lia. rewrite Nat.add_succ_r. f_equal; [f_equal|]; lia.
Qed.

Lemma rounds_2 r : md5_rounds_2 words r = rounds r.
Proof.
  etransitivity; [|symmetry; exact (rounds_split r)]. unfold md5_rounds_2.
  pose proof (loop_round FF 0 16 0 r ltac:(lia) ltac:(lia) ltac:(each_step)) as E1.
  cbn [Nat.mul Nat.add] in E1 |- *. rewrite E1. generalize (fold_left code_step (seq 0 16) r) as r1; intros r1.
  pose proof (loop_round FG 1 16 0 r1 ltac:(lia) ltac:(lia) ltac:(each_step)) as E2.
  cbn [Nat.mul Nat.add] in E2. rewrite E2. generalize (fold_left code_step (seq 16 16) r1) as r2; intros r2.
  pose proof (loop_round FH 2 16 0 r2 ltac:(lia) ltac:(lia) ltac:(each_step)) as E3.
  cbn [Nat.mul Nat.add] in E3. rewrite E3. generalize (fold_left code_step (seq 32 16) r2) as r3; intros r3.
  pose proof (loop_round FI 3 16 0 r3 ltac:(lia) ltac:(lia) ltac:(each_step)) as E4.
  cbn [Nat.mul Nat.add] in E4. rewrite E4. reflexivity.
Qed.

Lemma row_pointer i :
  (i < 64)%nat ->
  (if Nat.eqb (Nat.land i 15) 0 then 4 * ((i + 15) / 16) + 4 else 4 * ((i + 15) / 16))%nat
  = (4 * ((S i + 15) / 16))%nat
  /\ (4 * ((S i + 15) / 16) - 4 = 4 * (i / 16))%nat /\ Nat.shiftr i 4 = (i / 16)%nat.
Proof.
  intros Hi.
  assert (Hall : forallb (fun i =>
      Nat.eqb (if Nat.eqb (Nat.land i 15) 0 then 4 * ((i + 15) / 16) + 4 else 4 * ((i + 15) / 16))
              (4 * ((S i + 15) / 16))
      && Nat.eqb (4 * ((S i + 15) / 16) - 4) (4 * (i / 16))
      && Nat.eqb (Nat.shiftr i 4) (i / 16)) (seq 0 64) = true) by reflexivity.
  rewrite forallb_forall in Hall. specialize (Hall i ltac:(apply in_seq; lia)).
  rewrite !andb_true_iff, !Nat.eqb_eq in Hall. tauto.
Qed.

Lemma loop64_step i r :
  (i < 64)%nat ->
  loop64_body words (r, i, i, 4 * ((i + 15) / 16))%nat i
  = (code_step r i, S i, S i, 4 * ((S i + 15) / 16))%nat.
Proof.
  intros Hi. destruct (tables i Hi) as (Hk & Hs & Hl). destruct (row_pointer i Hi) as (Hp & Hq & Hr).
  unfold loop64_body. rewrite Hp, Hq, Hk, Hl, Hs, Hr. unfold code_step, step, turn, code_fun.
  destruct (i / 16)%nat as [|[|[|q]]]; cbn [nth];
    try (rewrite <- !add32_assoc; reflexivity).
  destruct q as [|q]; [|destruct q]; cbn [nth]; rewrite <- !add32_assoc; reflexivity.
Qed.

Lemma loop64 n i r :
  (i + n <= 64)%nat ->
  fold_left (loop64_body words) (seq i n) (r, i, i, 4 * ((i + 15) / 16))%nat
  = (fold_left code_step (seq i n) r, i + n, i + n, 4 * ((i + n + 15) / 16))%nat.
Proof.
  revert i r; induction n as [|n IH]; intros i r Hn.
  - cbn [seq fold_left]. rewrite Nat.add_0_r. reflexivity.
  - cbn [seq fold_left]. rewrite loop64_step, IH by lia. rewrite !Nat.add_succ_r. reflexivity.
Qed.

Lemma rounds_3 r : md5_rounds_3 words r = rounds r.
Proof.
  unfold md5_rounds_3. pose proof (loop64 64 0 r ltac:(lia)) as E.
  change (4 * ((0 + 15) / 16))%nat with 0%nat in E. rewrite E. reflexivity.
Qed.

Lemma rounds_all config r : md5_rounds config words r = rounds r.
Proof.
  unfold md5_rounds. repeat case_match; auto using rounds_0, rounds_1, rounds_2, rounds_3.
Qed.

(** *** In range, the steps are those of the RFC *)

Definition regs_ok (r : regs) : Prop :=
  in_u 32 (rA r) /\ in_u 32 (rB r) /\ in_u 32 (rC r) /\ in_u 32 (rD r).

Lemma code_step_rfc r i : regs_ok r -> code_step r i = rfc_step words r i /\ regs_ok (code_step r i).
Proof.
  intros (Ha & Hb & Hc & Hd). split.
  - unfold code_step, step, turn, rfc_step. rewrite code_fun_rfc by assumption.
    unfold add32, u32. rewrite !wrap_add_l, !wrap_add_r by lia.
    rewrite (Z.add_comm (rotl32 _ _)), !Z.add_assoc. reflexivity.
  - unfold code_step, step, turn, regs_ok. cbn [rA rB rC rD]. auto using add32_range.
Qed.

Lemma rounds_rfc r : regs_ok r -> rounds r = fold_left (rfc_step words) (seq 0 64) r.
Proof.
  intros Hr. unfold rounds. revert r Hr. induction (seq 0 64) as [|i l IH]; intros r Hr; [reflexivity|].
  cbn [fold_left]. destruct (code_step_rfc r i Hr) as [<- Hr']. apply IH, Hr'.
Qed.
End Steps.

(** Every size of the code computes the compression function of RFC 1321 and
    leaves the words of [ctx->hash] it does not use alone. *)
Lemma md5_block_rfc config hash wbuffer :
  (4 <= length hash)%nat -> Forall (in_u 32) hash ->
  md5_process_block64 config hash wbuffer
  = rfc_compress (firstn 4 hash) wbuffer ++ skipn 4 hash.
Proof.
  intros Hl Hh. do 4 (destruct hash as [|? hash]; [simpl in Hl; lia|]).
  repeat match goal with H : Forall _ (_ :: _) |- _ => inversion H; clear H; subst end.
  unfold md5_process_block64, rfc_compress. cbv zeta. cbn [firstn skipn nth].
  rewrite rounds_all, rounds_rfc by (unfold regs_ok; auto).
  cbn [upd nth app]. reflexivity.
Qed.
End MD5.
