(* ===== verification/Sha1.v ===== *)
(** * SHA-1

    The block function of SHA-1 in [libbb/hash_md5_sha.c], in the three sizes
    that [CONFIG_SHA1_SMALL] selects (0: unrolled, 1: middle-sized, others:
    compact), and the proof that all three compute the function of FIPS 180.
    The assembly versions for i386 and x86-64 are not modelled. *)

From Stdlib Require Import ZArith List Lia Bool.
From S2P Require Import Prelude Words.
Import ListNotations.
Local Open Scope Z_scope.

Module SHA1.

(** ** The code *)

Definition rconsts : list Z := [0x5A827999; 0x6ED9EBA1; 0x8F1BBCDC; 0xCA62C1D6].

(** The definitions of [EXPR(b,c,d)] for the four rounds. *)
Definition EXPR1 (b c d : Z) : Z := Z.lxor (Z.land (Z.lxor c d) b) d.
Definition EXPR2 (b c d : Z) : Z := Z.lxor (Z.lxor c d) b.
Definition EXPR3 (b c d : Z) : Z := Z.lor (Z.land (Z.lor b c) d) (Z.land b c).

(** The locals a, b, c, d, e. *)
Record regs := mk_regs { ra : Z; rb : Z; rc : Z; rd : Z; re : Z }.
Inductive reg : Set := a | b | c | d | e.
Definition get (r : regs) (x : reg) : Z :=
  match x with a => ra r | b => rb r | c => rc r | d => rd r | e => re r end.
Definition set (r : regs) (x : reg) (v : Z) : regs :=
  match x with
  | a => mk_regs v (rb r) (rc r) (rd r) (re r)
  | b => mk_regs (ra r) v (rc r) (rd r) (re r)
  | c => mk_regs (ra r) (rb r) v (rd r) (re r)
  | d => mk_regs (ra r) (rb r) (rc r) v (re r)
  | e => mk_regs (ra r) (rb r) (rc r) (rd r) v
  end.

Section Block.
(** [((uint32_t* )ctx->wbuffer)[n]] *)
Variable words : nat -> Z.

(** *** CONFIG_SHA1_SMALL == 0 *)

(** The new value of [W[n & 15]]. *)
Definition next_W (W : list Z) (n : nat) : Z :=
  if (n <=? 15)%nat then bswap_32 (words n)
  else rotl32 (Z.lxor (Z.lxor (Z.lxor (nth (Nat.land (n + 13) 15) W 0)
                                      (nth (Nat.land (n + 8) 15) W 0))
                              (nth (Nat.land (n + 2) 15) W 0))
                      (nth (Nat.land n 15) W 0)) 1.

(** The macro [OP(A,B,C,D,E, n)]. *)
Definition OP (EXPR : Z -> Z -> Z -> Z) (A B C D E : reg) (n : nat) (st : regs * list Z)
  : regs * list Z :=
  let '(r, W) := st in
  let work := EXPR (get r B) (get r C) (get r D) in
  let w := next_W W n in
  let W := upd W (Nat.land n 15) w in
  let work := add32 work w in
  let r := set r E (add32 (get r E)
             (add32 (add32 work (rotl32 (get r A) 5)) (nth (n / 20) rconsts 0))) in
  (set r B (rotl32 (get r B) 30), W).

(** The macro [OP20(n)]. *)
Definition OP20 (EXPR : Z -> Z -> Z -> Z) (n : nat) (st : regs * list Z) : regs * list Z :=
  fold_left (fun st '(A, B, C, D, E, k) => OP EXPR A B C D E (n + k) st)
    [ (a, b, c, d, e, 0); (e, a, b, c, d, 1); (d, e, a, b, c, 2); (c, d, e, a, b, 3);
      (b, c, d, e, a, 4);
      (a, b, c, d, e, 5); (e, a, b, c, d, 6); (d, e, a, b, c, 7); (c, d, e, a, b, 8);
      (b, c, d, e, a, 9);
      (a, b, c, d, e, 10); (e, a, b, c, d, 11); (d, e, a, b, c, 12); (c, d, e, a, b, 13);
      (b, c, d, e, a, 14);
      (a, b, c, d, e, 15); (e, a, b, c, d, 16); (d, e, a, b, c, 17); (c, d, e, a, b, 18);
      (b, c, d, e, a, 19) ]%nat st.

(** [W] starts with whatever is on the stack. *)
Definition sha1_rounds_0 (W : list Z) (r : regs) : regs :=
  let st := OP20 EXPR1 0 (r, W) in
  let st := OP20 EXPR2 20 st in
  let st := OP20 EXPR3 40 st in
  fst (OP20 EXPR2 60 st).

(** *** CONFIG_SHA1_SMALL == 1 *)

(** Rotate by one for next time. *)
Definition shift_regs (r : regs) (work : Z) : regs :=
  mk_regs work (ra r) (rotl32 (rb r) 30) (rc r) (rd r).

(** [W[n] = W[n+16] = v] *)
Definition store2 (W : list Z) (n : nat) (v : Z) : list Z := upd (upd W (n + 16) v) n v.

(** [rotl32(W[n+13] ^ W[n+8] ^ W[n+2] ^ W[n], 1)] *)
Definition mix_W (W : list Z) (n : nat) : Z :=
  rotl32 (Z.lxor (Z.lxor (Z.lxor (nth (n + 13) W 0) (nth (n + 8) W 0)) (nth (n + 2) W 0))
                 (nth n W 0)) 1.

(** The end of each loop body, from [work += W[n]]. *)
Definition finish (r : regs) (W : list Z) (n : nat) (work K : Z) : regs :=
  let work := add32 work (nth n W 0) in
  shift_regs r (add32 work (add32 (add32 (re r) (rotl32 (ra r) 5)) K)).

(** The loops: a state is the registers, [W], [n] and [j]. *)
Definition mid_load (st : regs * list Z * nat * Z) : regs * list Z * nat * Z :=
  let '(r, W, n, j) := st in
  let work := EXPR1 (rb r) (rc r) (rd r) in
  let W := store2 W n (bswap_32 (words n)) in
  (finish r W n work (nth 0 rconsts 0), W, Nat.land (n + 1) 15, j).
Definition mid_first (st : regs * list Z * nat * Z) : regs * list Z * nat * Z :=
  let '(r, W, n, j) := st in
  let work := EXPR1 (rb r) (rc r) (rd r) in
  let W := store2 W n (mix_W W n) in
  (finish r W n work (nth 0 rconsts 0), W, (n + 1)%nat, j).
Definition mid_round (EXPR : Z -> Z -> Z -> Z) (i : nat) (st : regs * list Z * nat * Z)
  : regs * list Z * nat * Z :=
  let '(r, W, n, j) := st in
  let work := EXPR (rb r) (rc r) (rd r) in
  let W := store2 W n (mix_W W n) in
  (finish r W n work (nth i rconsts 0), W, Nat.land (n + 1) 15, j - 1).

Definition n_of (st : regs * list Z * nat * Z) : nat := snd (fst st).
Definition j_of (st : regs * list Z * nat * Z) : Z := snd st.
Definition set_j (st : regs * list Z * nat * Z) (j : Z) : regs * list Z * nat * Z := (fst st, j).

Definition sha1_rounds_1 (W : list Z) (r : regs) : regs :=
  let st := (r, W, 0%nat, 0) in
  let st := do_while 16 mid_load (fun st => negb (Nat.eqb (n_of st) 0)) st in
  let st := do_while 4 mid_first (fun st => negb (Nat.eqb (n_of st) 4)) st in
  let st := do_while 20 (mid_round EXPR2 1) (fun st => 0 <=? j_of st) (set_j st 19) in
  let st := do_while 20 (mid_round EXPR3 2) (fun st => 0 <=? j_of st) (set_j st 19) in
  let st := do_while 20 (mid_round EXPR2 3) (fun st => 0 <=? j_of st) (set_j st 19) in
  fst (fst (fst st)).

(** *** Compact version *)

Definition small_body (i : nat) (st : regs * list Z * nat * Z) : regs * list Z * nat * Z :=
  let '(r, W, n, j) := st in
  let work := Z.lxor (rc r) (rd r) in
  let '(work, ge16) :=
    if Nat.eqb i 0 then (Z.lxor (Z.land work (rb r)) (rd r), j <=? 3)
    else (if Nat.eqb i 2
          then Z.lor (Z.land (Z.lor (rb r) (rc r)) (rd r)) (Z.land (rb r) (rc r))
          else Z.lxor work (rb r), true) in
  let W := if ge16 then store2 W n (mix_W W n) else W in
  (finish r W n work (nth i rconsts 0), W, Nat.land (n + 1) 15, j - 1).

Definition sha1_rounds_2 (W : list Z) (r : regs) : regs :=
  let W := fold_left (fun W i => store2 W i (bswap_32 (words i))) (seq 0 16) W in
  let st := fold_left (fun st i =>
              do_while 20 (small_body i) (fun st => 0 <=? j_of st) (set_j st 19))
              (seq 0 4) (r, W, 0%nat, 0) in
  fst (fst (fst st)).
End Block.

(** [sha1_process_block64] under [CONFIG_SHA1_SMALL = config]; [junk] is what
    the array [W] holds at the start. *)
Definition sha1_rounds (config : Z) (junk : list Z) (words : nat -> Z) (r : regs) : regs :=
  if config =? 0 then sha1_rounds_0 words (firstn 16 junk) r
  else if config =? 1 then sha1_rounds_1 words junk r
  else sha1_rounds_2 words junk r.

Definition sha1_process_block64 (config : Z) (junk hash wbuffer : list Z) : list Z :=
  let words n := word_at 4 n wbuffer in
  let r := mk_regs (nth 0 hash 0) (nth 1 hash 0) (nth 2 hash 0) (nth 3 hash 0) (nth 4 hash 0) in
  let r := sha1_rounds config junk words r in
  let hash := upd hash 0 (add32 (nth 0 hash 0) (ra r)) in
  let hash := upd hash 1 (add32 (nth 1 hash 0) (rb r)) in
  let hash := upd hash 2 (add32 (nth 2 hash 0) (rc r)) in
  let hash := upd hash 3 (add32 (nth 3 hash 0) (rd r)) in
  upd hash 4 (add32 (nth 4 hash 0) (re r)).

(** ** FIPS 180 *)

Definition Ch (x y z : Z) : Z := Z.lxor (Z.land x y) (Z.land (not32 x) z).
Definition Parity (x y z : Z) : Z := Z.lxor (Z.lxor x y) z.
Definition Maj (x y z : Z) : Z := Z.lxor (Z.lxor (Z.land x y) (Z.land x z)) (Z.land y z).

Definition fips_f (t : nat) : Z -> Z -> Z -> Z := nth (t / 20) [Ch; Parity; Maj; Parity] Parity.
Definition fips_K (t : nat) : Z := nth (t / 20) [0x5a827999; 0x6ed9eba1; 0x8f1bbcdc; 0xca62c1d6] 0.

(** The message schedule: the 16 words of the block, big-endian, and [n] more. *)
Fixpoint fips_sched (block : list Z) (n : nat) : list Z :=
  match n with
  | O => map (fun i => be_word (slice (4 * i) 4 block)) (seq 0 16)
  | S n =>
      let W := fips_sched block n in
      let t := length W in
      W ++ [rotl32 (Z.lxor (Z.lxor (Z.lxor (nth (t - 3) W 0) (nth (t - 8) W 0))
                                   (nth (t - 14) W 0)) (nth (t - 16) W 0)) 1]
  end.

Definition fips_step (W : list Z) (r : regs) (t : nat) : regs :=
  let T := u32 (rotl32 (ra r) 5 + fips_f t (rb r) (rc r) (rd r) + re r + fips_K t + nth t W 0) in
  mk_regs T (ra r) (rotl32 (rb r) 30) (rc r) (rd r).

Definition fips_compress (h block : list Z) : list Z :=
  let r := fold_left (fips_step (fips_sched block 64)) (seq 0 80)
             (mk_regs (nth 0 h 0) (nth 1 h 0) (nth 2 h 0) (nth 3 h 0) (nth 4 h 0)) in
  [u32 (nth 0 h 0 + ra r); u32 (nth 1 h 0 + rb r); u32 (nth 2 h 0 + rc r);
   u32 (nth 3 h 0 + rd r); u32 (nth 4 h 0 + re r)].

(** ** The schedule *)

Lemma length_sched block n : length (fips_sched block n) = (16 + n)%nat.
Proof. induction n as [|n IH]; [reflexivity|]. cbn [fips_sched]. rewrite length_app, IH. simpl. lia. Qed.

Lemma sched_0 block :
  fips_sched block 0 = map (fun i => be_word (slice (4 * i) 4 block)) (seq 0 16).
Proof. reflexivity. Qed.

Lemma sched_S block n :
  fips_sched block (S n)
  = fips_sched block n
    ++ [rotl32 (Z.lxor (Z.lxor (Z.lxor (nth (16 + n - 3) (fips_sched block n) 0)
                                       (nth (16 + n - 8) (fips_sched block n) 0))
                               (nth (16 + n - 14) (fips_sched block n) 0))
                       (nth (16 + n - 16) (fips_sched block n) 0)) 1].
Proof. cbn [fips_sched]. rewrite length_sched. reflexivity. Qed.

Lemma sched_prefix block n m t :
  (n <= m)%nat -> (t < 16 + n)%nat -> nth t (fips_sched block m) 0 = nth t (fips_sched block n) 0.
Proof.
  intros Hnm Ht. induction Hnm as [|m Hnm IH]; [reflexivity|]. rewrite sched_S.
  rewrite app_nth1 by (rewrite length_sched; lia). exact IH.
Qed.

(** The word [t] of the schedule. *)
Definition w (block : list Z) (t : nat) : Z := nth t (fips_sched block 64) 0.

Lemma w_sched block n t :
  (n <= 64)%nat -> (t < 16 + n)%nat -> w block t = nth t (fips_sched block n) 0.
Proof. apply (sched_prefix block n 64). Qed.

Lemma w_def block t : nth t (fips_sched block 64) 0 = w block t.
Proof. unfold w. reflexivity. Qed.

#[local] Opaque w fips_sched.

Lemma w_load block t : (t < 16)%nat -> w block t = be_word (slice (4 * t) 4 block).
Proof.
  intros Ht. rewrite (w_sched block 0) by lia. rewrite sched_0.
  apply (nth_map_seq (fun i => be_word (slice (4 * i) 4 block))). lia.
Qed.

Lemma w_mix block t :
  (16 <= t < 80)%nat ->
  w block t = rotl32 (Z.lxor (Z.lxor (Z.lxor (w block (t - 3)) (w block (t - 8)))
                                     (w block (t - 14))) (w block (t - 16))) 1.
Proof.
  intros Ht. rewrite (w_sched block (S (t - 16)) t) by lia.
  rewrite !(w_sched block (t - 16)) by lia. rewrite sched_S.
  rewrite app_nth2, length_sched by (rewrite length_sched; lia).
  replace (t - (16 + (t - 16)))%nat with 0%nat by lia. cbn [nth].
  replace (16 + (t - 16))%nat with t by lia. reflexivity.
Qed.

Lemma land_15 n : Nat.land n 15 = (n mod 16)%nat.
Proof. change 15%nat with (Nat.ones 4). apply Nat.land_ones. Qed.

(** The last 16 words before [t] are in the circular array [W]. *)
Definition circular (block W : list Z) (t : nat) : Prop :=
  length W = 16%nat /\ forall j, (j < t <= j + 16)%nat -> nth (j mod 16) W 0 = w block j.

Lemma circular_store block W t :
  circular block W t -> circular block (upd W (t mod 16) (w block t)) (S t).
Proof.
  intros [Hl HW]. split; [rewrite length_upd; exact Hl|]. intros j Hj.
  pose proof (Nat.mod_upper_bound t 16 ltac:(lia)).
  destruct (Nat.eq_dec j t) as [->|Hne]; [apply nth_upd_eq; lia|].
  rewrite nth_upd_ne; [apply HW; lia|].
  intros E. pose proof (Nat.div_mod_eq t 16). pose proof (Nat.div_mod_eq j 16). lia.
Qed.

Lemma circular_mix block words W t :
  circular block W t -> (16 <= t < 80)%nat -> next_W words W t = w block t.
Proof.
  intros [_ HW] Ht. unfold next_W. destruct (Nat.leb_spec t 15); [lia|].
  rewrite w_mix, !land_15 by assumption.
  rewrite <- !HW by lia.
  replace ((t - 3) mod 16)%nat with ((t + 13) mod 16)%nat
    by (replace (t + 13)%nat with (t - 3 + 1 * 16)%nat by lia; apply Nat.Div0.mod_add).
  replace ((t - 8) mod 16)%nat with ((t + 8) mod 16)%nat
    by (replace (t + 8)%nat with (t - 8 + 1 * 16)%nat by lia; apply Nat.Div0.mod_add).
  replace ((t - 14) mod 16)%nat with ((t + 2) mod 16)%nat
    by (replace (t + 2)%nat with (t - 14 + 1 * 16)%nat by lia; apply Nat.Div0.mod_add).
  replace ((t - 16) mod 16)%nat with (t mod 16)%nat
    by (replace t with (t - 16 + 1 * 16)%nat at 1 by lia; apply Nat.Div0.mod_add).
  reflexivity.
Qed.

(** The array of 32 words that holds each of them twice. *)
Definition circular2 (block W : list Z) (t : nat) : Prop :=
  length W = 32%nat /\ forall j, (j < t <= j + 16)%nat ->
    nth (j mod 16) W 0 = w block j /\ nth (j mod 16 + 16) W 0 = w block j.

Lemma circular2_store block W t :
  circular2 block W t -> circular2 block (store2 W (t mod 16) (w block t)) (S t).
Proof.
  intros [Hl HW]. unfold store2. split; [rewrite !length_upd; exact Hl|]. intros j Hj.
  pose proof (Nat.mod_upper_bound t 16 ltac:(lia)). pose proof (Nat.mod_upper_bound j 16 ltac:(lia)).
  destruct (Nat.eq_dec j t) as [->|Hne].
  - split; [apply nth_upd_eq; rewrite length_upd; lia|].
    rewrite nth_upd_ne by lia. apply nth_upd_eq. lia.
  - assert (t mod 16 <> j mod 16)%nat.
    { intros E. pose proof (Nat.div_mod_eq t 16). pose proof (Nat.div_mod_eq j 16). lia. }
    rewrite !nth_upd_ne by lia. apply HW. lia.
Qed.

Lemma circular2_nth block W t k :
  circular2 block W t -> (1 <= k <= 16)%nat -> (16 <= t)%nat ->
  nth (t mod 16 + (16 - k)) W 0 = w block (t - k).
Proof.
  intros [_ HW] Hk Ht. destruct (HW (t - k)%nat ltac:(lia)) as [H1 H2].
  pose proof (Nat.div_mod_eq t 16). pose proof (Nat.mod_upper_bound t 16 ltac:(lia)).
  pose proof (Nat.div_mod_eq (t - k) 16). pose proof (Nat.mod_upper_bound (t - k) 16 ltac:(lia)).
  destruct (Nat.lt_ge_cases (t mod 16 + (16 - k)) 16).
  - rewrite <- H1. f_equal. lia.
  - rewrite <- H2. f_equal. lia.
Qed.

Lemma circular2_mix block W t :
  circular2 block W t -> (16 <= t < 80)%nat -> mix_W W (t mod 16) = w block t.
Proof.
  intros HW Ht. unfold mix_W. rewrite w_mix by assumption.
  rewrite <- (circular2_nth block W t 3), <- (circular2_nth block W t 8),
    <- (circular2_nth block W t 14), <- (circular2_nth block W t 16) by (auto; lia).
  rewrite Nat.sub_diag, Nat.add_0_r. reflexivity.
Qed.

(** ** The three sizes run the same steps *)

Section Runs.
Variables (block : list Z) (words : nat -> Z).
Hypothesis load : forall n, (n < 16)%nat -> bswap_32 (words n) = w block n.

Definition code_f (t : nat) : Z -> Z -> Z -> Z := nth (t / 20) [EXPR1; EXPR2; EXPR3; EXPR2] EXPR2.

(** A step with turning registers. *)
Definition turn (r : regs) (t : nat) : regs :=
  let T := add32 (re r) (add32 (add32 (add32 (code_f t (rb r) (rc r) (rd r)) (w block t))
                                      (rotl32 (ra r) 5)) (nth (t / 20) rconsts 0)) in
  mk_regs T (ra r) (rotl32 (rb r) 30) (rc r) (rd r).

Definition run (r : regs) (t : nat) : regs := fold_left turn (seq 0 t) r.

Lemma run_S r t : run r (S t) = turn (run r t) t.
Proof. unfold run. rewrite seq_S, fold_left_app. reflexivity. Qed.

Variable r0 : regs.

(** *** The unrolled code *)

Definition perm : Type := (reg * reg * reg * reg * reg)%type.
Definition perms : list perm :=
  [(a, b, c, d, e); (e, a, b, c, d); (d, e, a, b, c); (c, d, e, a, b); (b, c, d, e, a)].

(** The registers under the names that the macro gives them. *)
Definition view (p : perm) (r : regs) : regs :=
  let '(A, B, C, D, E) := p in mk_regs (get r A) (get r B) (get r C) (get r D) (get r E).

Definition nth_perm (t : nat) : perm := nth (t mod 5) perms (a, b, c, d, e).

Lemma next_perm t :
  let '(A, B, C, D, E) := nth_perm t in nth_perm (S t) = (E, A, B, C, D).
Proof.
  unfold nth_perm. pose proof (Nat.mod_upper_bound t 5 ltac:(lia)).
  replace (S t mod 5)%nat with ((t mod 5 + 1) mod 5)%nat
    by (rewrite Nat.Div0.add_mod_idemp_l, Nat.add_1_r; reflexivity).
  destruct (t mod 5)%nat as [|[|[|[|[|k]]]]]; try reflexivity. lia.
Qed.

(** One call of the macro is a step under the next names. *)
Lemma OP_turn EXPR t (r : regs) W :
  circular block W t -> (t < 80)%nat -> code_f t = EXPR ->
  let '(A, B, C, D, E) := nth_perm t in
  let '(r', W') := OP words EXPR A B C D E t (r, W) in
  view (nth_perm (S t)) r' = turn (view (nth_perm t) r) t /\ circular block W' (S t).
Proof.
  intros HW Ht Hf. pose proof (next_perm t) as Hn.
  assert (Hw : next_W words W t = w block t).
  { destruct (Nat.lt_ge_cases t 16); [|apply (circular_mix block); auto; lia].
    unfold next_W. destruct (Nat.leb_spec t 15); [apply load; assumption|lia]. }
  destruct (nth_perm t) as [[[[A B] C] D] E] eqn:Ep. unfold OP. rewrite Hw, land_15, Hn.
  split; [|apply circular_store, HW].
  assert (Hin : In (A, B, C, D, E) perms).
  { rewrite <- Ep. apply nth_In. change (length perms) with 5%nat.
    apply Nat.mod_upper_bound. lia. }
  unfold turn. rewrite Hf. clear Hf Hw HW Hn Ep.
  cbn in Hin. destruct Hin as [Hin|[Hin|[Hin|[Hin|[Hin|[]]]]]]; injection Hin as <- <- <- <- <-; reflexivity.
Qed.

Definition inv0 (t : nat) (st : regs * list Z) : Prop :=
  view (nth_perm t) (fst st) = run r0 t /\ circular block (snd st) t.

Lemma OP20_fold EXPR n st :
  OP20 words EXPR n st
  = fold_left (fun st k => let '(A, B, C, D, E) := nth_perm k in OP words EXPR A B C D E (n + k) st)
      (seq 0 20) st.
Proof.
  unfold OP20.
  transitivity (fold_left (fun st '(p, k) => let '(A, B, C, D, E) := p in OP words EXPR A B C D E (n + k) st)
                  (map (fun k => (nth_perm k, k)) (seq 0 20)) st); [reflexivity|].
  rewrite fold_left_map. reflexivity.
Qed.

Lemma OP20_inv EXPR q st :
  (q < 4)%nat -> nth q [EXPR1; EXPR2; EXPR3; EXPR2] EXPR2 = EXPR ->
  inv0 (20 * q) st -> inv0 (20 * q + 20) (OP20 words EXPR (20 * q) st).
Proof.
  intros Hq Hf Hst. rewrite OP20_fold.
  apply (fold_seq_inv (fun k st => inv0 (20 * q + k) st)
           (fun st k => let '(A, B, C, D, E) := nth_perm k in OP words EXPR A B C D E (20 * q + k) st) 0 20).
  - intros k [r W] Hk [Hr HW]. cbn [fst snd] in *.
    assert (Hp : nth_perm k = nth_perm (20 * q + k)).
    { unfold nth_perm. replace (20 * q + k)%nat with (k + 4 * q * 5)%nat by lia.
      rewrite Nat.Div0.mod_add. reflexivity. }
    assert (Hc : code_f (20 * q + k) = EXPR).
    { unfold code_f. replace ((20 * q + k) / 20)%nat with q; [exact Hf|].
      rewrite Nat.mul_comm, Nat.add_comm, Nat.div_add, Nat.div_small by lia. lia. }
    pose proof (OP_turn EXPR (20 * q + k) r W HW ltac:(lia) Hc) as Hop. rewrite Hp.
    destruct (nth_perm (20 * q + k)) as [[[[A B] C] D] E] eqn:Ep.
    destruct (OP words EXPR A B C D E (20 * q + k) (r, W)) as [r' W'].
    rewrite Nat.add_succ_r. unfold inv0. cbn [fst snd]. rewrite run_S, <- Hr. exact Hop.
  - rewrite Nat.add_0_r. exact Hst.
Qed.

Lemma run_0 W : length W = 16%nat -> sha1_rounds_0 words W r0 = run r0 80.
Proof.
  intros HW. unfold sha1_rounds_0.
  assert (H0 : inv0 (20 * 0) (r0, W)).
  { split; [destruct r0; reflexivity|]. split; [exact HW|]. intros; lia. }
  apply (OP20_inv EXPR1 0) in H0; [|lia|reflexivity].
  apply (OP20_inv EXPR2 1) in H0; [|lia|reflexivity].
  apply (OP20_inv EXPR3 2) in H0; [|lia|reflexivity].
  apply (OP20_inv EXPR2 3) in H0; [|lia|reflexivity].
  destruct H0 as [H0 _]. cbn [Nat.mul Nat.add] in *. rewrite <- H0.
  change (nth_perm 80) with (a, b, c, d, e). cbn [view].
  match goal with |- ?x = _ => destruct x end. reflexivity.
Qed.

(** *** The middle-sized code *)

Lemma finish_turn r W t :
  nth (t mod 16) W 0 = w block t ->
  finish r W (t mod 16) (code_f t (rb r) (rc r) (rd r)) (nth (t / 20) rconsts 0) = turn r t.
Proof.
  intros Hw. unfold finish, shift_regs, turn. rewrite Hw. f_equal. sums.
Qed.

Lemma store_turn r W t :
  circular2 block W t ->
  let W' := store2 W (t mod 16) (w block t) in
  finish r W' (t mod 16) (code_f t (rb r) (rc r) (rd r)) (nth (t / 20) rconsts 0) = turn r t
  /\ circular2 block W' (S t).
Proof.
  intros HW W'. pose proof (circular2_store block W t HW) as HW'. split; [|exact HW'].
  apply finish_turn. destruct HW' as [_ HW']. apply HW'. lia.
Qed.

Lemma next_n t : Nat.land (t mod 16 + 1) 15 = (S t mod 16)%nat.
Proof. rewrite land_15, Nat.Div0.add_mod_idemp_l, Nat.add_1_r. reflexivity. Qed.

(** At the step [t0 + i] of a loop. *)
Definition inv1 (t0 i : nat) (st : regs * list Z * nat * Z) : Prop :=
  let '(r, W, n, j) := st in
  r = run r0 (t0 + i) /\ circular2 block W (t0 + i) /\ n = ((t0 + i) mod 16)%nat.

Lemma mid_load_inv W :
  length W = 32%nat ->
  inv1 0 16 (do_while 16 (mid_load words) (fun st => negb (Nat.eqb (n_of st) 0)) (r0, W, 0%nat, 0)).
Proof.
  intros HW. apply (do_while_inv (inv1 0)); [| | |lia|].
  - intros i [[[r W'] n] j] Hi (-> & HW' & ->). unfold mid_load. cbn [Nat.add] in *.
    assert (Hl : bswap_32 (words (i mod 16)) = w block i)
      by (rewrite Nat.mod_small by lia; apply load; lia). rewrite Hl.
    destruct (store_turn (run r0 i) W' i HW') as [Ht HS].
    unfold inv1. cbn [Nat.add]. rewrite run_S, <- Ht, next_n.
    replace (code_f i) with EXPR1 by (unfold code_f; rewrite Nat.div_small by lia; reflexivity).
    replace (i / 20)%nat with 0%nat by (rewrite Nat.div_small by lia; reflexivity). auto.
  - intros i [[[r W'] n] j] Hi (_ & _ & ->). cbn [n_of fst snd Nat.add]. rewrite Nat.mod_small by lia.
    destruct i; [lia|reflexivity].
  - intros [[[r W'] n] j] (_ & _ & ->). reflexivity.
  - split; [reflexivity|]. split; [split; [exact HW|intros; lia]|reflexivity].
Qed.

Lemma mid_first_inv st :
  inv1 16 0 st -> inv1 16 4 (do_while 4 mid_first (fun st => negb (Nat.eqb (n_of st) 4)) st).
Proof.
  intros Hst. apply (do_while_inv (inv1 16)); [| | |lia|exact Hst].
  - intros i [[[r W'] n] j] Hi (-> & HW' & ->). unfold mid_first.
    rewrite (circular2_mix block) by (assumption || lia).
    destruct (store_turn (run r0 (16 + i)) W' (16 + i) HW') as [Ht HS].
    unfold inv1. rewrite Nat.add_succ_r, run_S, <- Ht.
    replace (code_f (16 + i)) with EXPR1 by (unfold code_f; rewrite Nat.div_small by lia; reflexivity).
    replace ((16 + i) / 20)%nat with 0%nat by (rewrite Nat.div_small by lia; reflexivity).
    split; [reflexivity|]. split; [exact HS|].
    do 4 (destruct i; [reflexivity|]). lia.
  - intros i [[[r W'] n] j] Hi (_ & _ & ->). do 4 (destruct i; [reflexivity || lia|]). lia.
  - intros [[[r W'] n] j] (_ & _ & ->). reflexivity.
Qed.

Definition inv1j (t0 i : nat) (st : regs * list Z * nat * Z) : Prop :=
  inv1 t0 i st /\ j_of st = 19 - Z.of_nat i.

Lemma j_again t0 i st : inv1j t0 i st -> (0 <=? j_of st) = (i <=? 19)%nat.
Proof.
  intros [_ ->]. destruct (Z.leb_spec 0 (19 - Z.of_nat i)), (Nat.leb_spec i 19); lia || reflexivity.
Qed.

Lemma mid_round_inv q EXPR st :
  (1 <= q < 4)%nat -> nth q [EXPR1; EXPR2; EXPR3; EXPR2] EXPR2 = EXPR ->
  inv1 (20 * q) 0 st ->
  inv1 (20 * q) 20 (do_while 20 (mid_round EXPR q) (fun st => 0 <=? j_of st) (set_j st 19)).
Proof.
  intros Hq Hf Hst. apply (do_while_inv (inv1j (20 * q)) 20); [| | |lia|].
  - intros i [[[r W'] n] j] Hi [(-> & HW' & ->) Hj]. unfold mid_round. cbn [j_of snd] in Hj.
    rewrite (circular2_mix block) by (assumption || lia).
    destruct (store_turn (run r0 (20 * q + i)) W' (20 * q + i) HW') as [Ht HS].
    assert (Hdiv : ((20 * q + i) / 20)%nat = q)
      by (rewrite Nat.mul_comm, Nat.add_comm, Nat.div_add, Nat.div_small by lia; lia).
    unfold inv1j, inv1. rewrite Nat.add_succ_r, run_S, <- Ht, next_n, Hdiv.
    replace (code_f (20 * q + i)) with EXPR by (unfold code_f; rewrite Hdiv; symmetry; exact Hf).
    cbn [j_of snd]. split; [split; [reflexivity|split; [exact HS|reflexivity]]|lia].
  - intros i s0 Hi Hs. rewrite (j_again _ _ _ Hs). apply Nat.leb_le. lia.
  - intros s0 Hs. rewrite (j_again _ _ _ Hs). reflexivity.
  - destruct st as [[[r W'] n] j]. split; [exact Hst|reflexivity].
Qed.

Lemma inv1_next t0 n st : inv1 t0 n st -> inv1 (t0 + n) 0 st.
Proof. destruct st as [[[r W'] k] j]. unfold inv1. rewrite Nat.add_0_r. auto. Qed.

Lemma run_1 W : length W = 32%nat -> sha1_rounds_1 words W r0 = run r0 80.
Proof.
  intros HW. unfold sha1_rounds_1.
  pose proof (inv1_next _ _ _ (mid_load_inv W HW)) as H1.
  pose proof (inv1_next _ _ _ (mid_first_inv _ H1)) as H2.
  pose proof (inv1_next _ _ _ (mid_round_inv 1 EXPR2 _ ltac:(lia) eq_refl H2)) as H3.
  pose proof (inv1_next _ _ _ (mid_round_inv 2 EXPR3 _ ltac:(lia) eq_refl H3)) as H4.
  pose proof (mid_round_inv 3 EXPR2 _ ltac:(lia) eq_refl H4) as H5.
  match goal with |- fst (fst (fst ?st)) = _ => destruct st as [[[r W'] n] j] end.
  destruct H5 as [H5 _]. exact H5.
Qed.

(** *** The compact code *)

(** The first 16 words are there from the start. *)
Definition inv2 (t0 i : nat) (st : regs * list Z * nat * Z) : Prop :=
  let '(r, W, n, j) := st in
  r = run r0 (t0 + i) /\ circular2 block W (Nat.max 16 (t0 + i)) /\ n = ((t0 + i) mod 16)%nat.
Definition inv2j (t0 i : nat) (st : regs * list Z * nat * Z) : Prop :=
  inv2 t0 i st /\ j_of st = 19 - Z.of_nat i.

Lemma j_again2 t0 i st : inv2j t0 i st -> (0 <=? j_of st) = (i <=? 19)%nat.
Proof.
  intros [_ ->]. destruct (Z.leb_spec 0 (19 - Z.of_nat i)), (Nat.leb_spec i 19); lia || reflexivity.
Qed.

Lemma preload W :
  length W = 32%nat ->
  circular2 block (fold_left (fun W i => store2 W i (bswap_32 (words i))) (seq 0 16) W) 16.
Proof.
  intros HW. apply (fold_seq_inv (fun t W => circular2 block W t) _ 0 16).
  - intros i W' Hi HW'. rewrite load by lia.
    pose proof (circular2_store block W' i HW') as HS. rewrite Nat.mod_small in HS by lia. exact HS.
  - split; [exact HW|intros; lia].
Qed.

(** Which function and whether a word is mixed, at the step [20 * q + i]. *)
Lemma small_choice q i (r : regs) j :
  (q < 4)%nat -> (i < 20)%nat -> j = 19 - Z.of_nat i ->
  (let work := Z.lxor (rc r) (rd r) in
   if Nat.eqb q 0 then (Z.lxor (Z.land work (rb r)) (rd r), j <=? 3)
   else (if Nat.eqb q 2
         then Z.lor (Z.land (Z.lor (rb r) (rc r)) (rd r)) (Z.land (rb r) (rc r))
         else Z.lxor work (rb r), true))
  = (code_f (20 * q + i) (rb r) (rc r) (rd r), (16 <=? 20 * q + i)%nat).
Proof.
  intros Hq Hi ->.
  assert (Hdiv : ((20 * q + i) / 20)%nat = q)
    by (rewrite Nat.mul_comm, Nat.add_comm, Nat.div_add, Nat.div_small by lia; lia).
  unfold code_f. rewrite Hdiv.
  destruct q as [|[|[|[|q]]]]; [| | | |lia]; cbn [Nat.eqb nth]; f_equal.
  destruct (Z.leb_spec (19 - Z.of_nat i) 3), (Nat.leb_spec 16 (20 * 0 + i)); lia || reflexivity.
Qed.

Lemma small_body_inv q i st :
  (q < 4)%nat -> (i < 20)%nat -> inv2j (20 * q) i st -> inv2j (20 * q) (S i) (small_body q st).
Proof.
  intros Hq Hi. destruct st as [[[r W] n] j]. intros [(-> & HW & ->) Hj]. cbn [j_of snd] in Hj.
  unfold small_body. rewrite (small_choice q i _ j Hq Hi Hj).
  assert (Hdiv : ((20 * q + i) / 20)%nat = q)
    by (rewrite Nat.mul_comm, Nat.add_comm, Nat.div_add, Nat.div_small by lia; lia).
  set (t := (20 * q + i)%nat) in *. unfold inv2j, inv2. rewrite Nat.add_succ_r. fold t.
  rewrite run_S, next_n, <- Hdiv. cbn [j_of snd].
  destruct (Nat.leb_spec 16 t) as [Ht|Ht].
  - replace (Nat.max 16 t) with t in HW by lia. rewrite (circular2_mix block) by (assumption || lia).
    destruct (store_turn (run r0 t) W t HW) as [Hturn HS]. rewrite Hturn.
    split; [|lia]. split; [reflexivity|]. split; [|reflexivity].
    replace (Nat.max 16 (S t)) with (S t) by lia. exact HS.
  - replace (Nat.max 16 t) with 16%nat in HW by lia. rewrite finish_turn by (apply HW; lia).
    split; [|lia]. split; [reflexivity|]. split; [|reflexivity].
    replace (Nat.max 16 (S t)) with 16%nat by lia. exact HW.
Qed.

Lemma small_round q st :
  (q < 4)%nat -> inv2 (20 * q) 0 st ->
  inv2 (20 * q) 20 (do_while 20 (small_body q) (fun st => 0 <=? j_of st) (set_j st 19)).
Proof.
  intros Hq Hst. apply (do_while_inv (inv2j (20 * q)) 20); [| | |lia|].
  - intros i s0 Hi. apply small_body_inv; assumption.
  - intros i s0 Hi Hs. rewrite (j_again2 _ _ _ Hs). apply Nat.leb_le. lia.
  - intros s0 Hs. rewrite (j_again2 _ _ _ Hs). reflexivity.
  - destruct st as [[[r W'] n] j]. split; [exact Hst|reflexivity].
Qed.

Lemma run_2 W : length W = 32%nat -> sha1_rounds_2 words W r0 = run r0 80.
Proof.
  intros HW. unfold sha1_rounds_2.
  pose proof (fold_seq_inv (fun q st => inv2 (20 * q) 0 st)
    (fun st i => do_while 20 (small_body i) (fun st => 0 <=? j_of st) (set_j st 19)) 0 4
    (r0, fold_left (fun W i => store2 W i (bswap_32 (words i))) (seq 0 16) W, 0%nat, 0)) as Hinv.
  cbv beta zeta in *.
  match type of Hinv with _ -> _ -> inv2 _ _ ?st => destruct st as [[[r W'] n] j] end.
  destruct Hinv as [H _].
  - intros q st Hq Hst. apply small_round in Hst; [|lia].
    destruct (do_while 20 _ _ _) as [[[r' W''] n'] j']. unfold inv2 in *.
    replace (20 * S q + 0)%nat with (20 * q + 20)%nat by lia. exact Hst.
  - split; [reflexivity|]. split; [apply preload, HW|reflexivity].
  - exact H.
Qed.
End Runs.

(** ** In range, the steps are those of FIPS 180 *)

Lemma EXPR1_Ch x y z : in_u 32 x -> in_u 32 y -> in_u 32 z -> EXPR1 x y z = Ch x y z.
Proof.
  intros Hx Hy Hz. apply Z.bits_inj'. intros i Hi. unfold EXPR1, Ch, not32, u32.
  rewrite !Z.lxor_spec, !Z.land_spec, Z.lxor_spec, wrap_testbit, Z.lnot_spec by lia.
  destruct (Z.ltb_spec i 32).
  - destruct (Z.testbit x i), (Z.testbit y i), (Z.testbit z i); reflexivity.
  - rewrite !(in_u_testbit 32) by (assumption || lia). reflexivity.
Qed.

Lemma EXPR2_Parity x y z : EXPR2 x y z = Parity x y z.
Proof. unfold EXPR2, Parity. rewrite (Z.lxor_comm _ x), Z.lxor_assoc. reflexivity. Qed.

Lemma EXPR3_Maj x y z : EXPR3 x y z = Maj x y z.
Proof.
  apply Z.bits_inj'. intros i Hi. unfold EXPR3, Maj.
  rewrite Z.lor_spec, !Z.lxor_spec, !Z.land_spec, Z.lor_spec.
  destruct (Z.testbit x i), (Z.testbit y i), (Z.testbit z i); reflexivity.
Qed.

Lemma code_f_fips t x y z :
  in_u 32 x -> in_u 32 y -> in_u 32 z -> code_f t x y z = fips_f t x y z.
Proof.
  intros. unfold code_f, fips_f.
  destruct (t / 20)%nat as [|[|[|[|n]]]]; cbn [nth]; auto using EXPR1_Ch, EXPR2_Parity, EXPR3_Maj.
  destruct n; apply EXPR2_Parity.
Qed.

Definition regs_ok (r : regs) : Prop :=
  in_u 32 (ra r) /\ in_u 32 (rb r) /\ in_u 32 (rc r) /\ in_u 32 (rd r) /\ in_u 32 (re r).

Lemma turn_fips block r t :
  regs_ok r -> turn block r t = fips_step (fips_sched block 64) r t /\ regs_ok (turn block r t).
Proof.
  intros (Ha & Hb & Hc & Hd & He). split.
  - unfold turn, fips_step. rewrite code_f_fips by assumption. rewrite w_def.
    f_equal. change (nth (t / 20) rconsts 0) with (fips_K t). unfold add32 at 1. sums.
  - unfold turn, regs_ok. cbn [ra rb rc rd re].
    assert (in_u 32 (rotl32 (rb r) 30)) by (apply rotl32_range; [lia|assumption]).
    auto using add32_range.
Qed.

Lemma run_fips block r :
  regs_ok r -> run block r 80 = fold_left (fips_step (fips_sched block 64)) (seq 0 80) r.
Proof.
  unfold run. revert r. induction (seq 0 80) as [|t l IH]; intros r Hr; [reflexivity|].
  cbn [fold_left]. destruct (turn_fips block r t Hr) as [<- Hr']. apply IH, Hr'.
Qed.

(** Every size of the code computes the compression function of FIPS 180,
    whatever the array on the stack holds, and leaves the words of
    [ctx->hash] it does not use alone. *)
Lemma sha1_block_fips config junk hash wbuffer :
  (5 <= length hash)%nat -> Forall (in_u 32) hash ->
  length wbuffer = 64%nat -> bytes wbuffer -> length junk = 32%nat ->
  sha1_process_block64 config junk hash wbuffer
  = fips_compress (firstn 5 hash) wbuffer ++ skipn 5 hash.
Proof.
  intros Hl Hh Hw Hb Hj. do 5 (destruct hash as [|? hash]; [simpl in Hl; lia|]).
  repeat match goal with H : Forall _ (_ :: _) |- _ => inversion H; clear H; subst end.
  unfold sha1_process_block64, fips_compress. cbv zeta. cbn [firstn skipn nth].
  assert (Hload : forall n, (n < 16)%nat -> bswap_32 (word_at 4 n wbuffer) = w wbuffer n).
  { intros n Hn. rewrite w_load by assumption. unfold word_at.
    apply bswap_32_le; [apply bytes_slice, Hb|rewrite length_slice; lia]. }
  assert (Hrun : forall r, regs_ok r -> sha1_rounds config junk (fun n => word_at 4 n wbuffer) r
            = fold_left (fips_step (fips_sched wbuffer 64)) (seq 0 80) r).
  { intros r Hr. transitivity (run wbuffer r 80); [|apply run_fips, Hr]. unfold sha1_rounds.
    destruct (config =? 0); [apply run_0; auto; rewrite length_firstn; lia|].
    destruct (config =? 1); [apply run_1|apply run_2]; auto. }
  rewrite Hrun by (unfold regs_ok; cbn [ra rb rc rd re]; auto).
  cbn [upd nth app]. reflexivity.
Qed.
End SHA1.
