(* ===== verification/Sha2.v ===== *)
(** * SHA-256, SHA-384 and SHA-512

    The block functions [sha256_process_block64] and
    [sha512_process_block128] of [libbb/hash_md5_sha.c] and their constants,
    and the proof that they compute the functions of FIPS 180. The two
    functions have the same text at two word sizes; the model says so once. *)

From Stdlib Require Import ZArith List Lia Bool.
From S2P Require Import Prelude Words.
Import ListNotations.
Local Open Scope Z_scope.

Module SHA2.

(** ** The code *)

(** The table as written; [sha_K] is either the whole 64-bit words, when
    [NEED_SHA512], or the high halves of the first 64. *)
Definition K_table : list Z := [
  0x428a2f98d728ae22; 0x7137449123ef65cd; 0xb5c0fbcfec4d3b2f; 0xe9b5dba58189dbbc;
  0x3956c25bf348b538; 0x59f111f1b605d019; 0x923f82a4af194f9b; 0xab1c5ed5da6d8118;
  0xd807aa98a3030242; 0x12835b0145706fbe; 0x243185be4ee4b28c; 0x550c7dc3d5ffb4e2;
  0x72be5d74f27b896f; 0x80deb1fe3b1696b1; 0x9bdc06a725c71235; 0xc19bf174cf692694;
  0xe49b69c19ef14ad2; 0xefbe4786384f25e3; 0x0fc19dc68b8cd5b5; 0x240ca1cc77ac9c65;
  0x2de92c6f592b0275; 0x4a7484aa6ea6e483; 0x5cb0a9dcbd41fbd4; 0x76f988da831153b5;
  0x983e5152ee66dfab; 0xa831c66d2db43210; 0xb00327c898fb213f; 0xbf597fc7beef0ee4;
  0xc6e00bf33da88fc2; 0xd5a79147930aa725; 0x06ca6351e003826f; 0x142929670a0e6e70;
  0x27b70a8546d22ffc; 0x2e1b21385c26c926; 0x4d2c6dfc5ac42aed; 0x53380d139d95b3df;
  0x650a73548baf63de; 0x766a0abb3c77b2a8; 0x81c2c92e47edaee6; 0x92722c851482353b;
  0xa2bfe8a14cf10364; 0xa81a664bbc423001; 0xc24b8b70d0f89791; 0xc76c51a30654be30;
  0xd192e819d6ef5218; 0xd69906245565a910; 0xf40e35855771202a; 0x106aa07032bbd1b8;
  0x19a4c116b8d2d0c8; 0x1e376c085141ab53; 0x2748774cdf8eeb99; 0x34b0bcb5e19b48a8;
  0x391c0cb3c5c95a63; 0x4ed8aa4ae3418acb; 0x5b9cca4f7763e373; 0x682e6ff3d6b2b8a3;
  0x748f82ee5defb2fc; 0x78a5636f43172f60; 0x84c87814a1f0ab72; 0x8cc702081a6439ec;
  0x90befffa23631e28; 0xa4506cebde82bde9; 0xbef9a3f7b2c67915; 0xc67178f2e372532b;
  0xca273eceea26619c; 0xd186b8c721c0c207; 0xeada7dd6cde0eb1e; 0xf57d4f7fee6ed178;
  0x06f067aa72176fba; 0x0a637dc5a2c898a6; 0x113f9804bef90dae; 0x1b710b35131c471b;
  0x28db77f523047d84; 0x32caab7b40c72493; 0x3c9ebe0a15c9bebc; 0x431d67c49c100d4c;
  0x4cc5d4becb3e42b6; 0x597f299cfc657e2a; 0x5fcb6fab3ad6faec; 0x6c44198c4a475817 ].

Definition sha_K (need_sha512 : bool) : list Z :=
  if need_sha512 then K_table else map (fun v => u32 (Z.shiftr v 32)) (firstn 64 K_table).

(** The locals a to h. *)
Record regs := mk_regs { ra : Z; rb : Z; rc : Z; rd : Z; re : Z; rf : Z; rg : Z; rh : Z }.

(** What differs between the word sizes. *)
Record ops := mk_ops {
  add : Z -> Z -> Z; not : Z -> Z;
  S0 : Z -> Z; S1 : Z -> Z; R0 : Z -> Z; R1 : Z -> Z;
  rounds : nat
}.

Definition ops32 : ops := {|
  add := add32; not := not32;
  S0 x := Z.lxor (Z.lxor (rotr32 x 2) (rotr32 x 13)) (rotr32 x 22);
  S1 x := Z.lxor (Z.lxor (rotr32 x 6) (rotr32 x 11)) (rotr32 x 25);
  R0 x := Z.lxor (Z.lxor (rotr32 x 7) (rotr32 x 18)) (Z.shiftr x 3);
  R1 x := Z.lxor (Z.lxor (rotr32 x 17) (rotr32 x 19)) (Z.shiftr x 10);
  rounds := 64
|}.
Definition ops64 : ops := {|
  add := add64; not := not64;
  S0 x := Z.lxor (Z.lxor (rotr64 x 28) (rotr64 x 34)) (rotr64 x 39);
  S1 x := Z.lxor (Z.lxor (rotr64 x 14) (rotr64 x 18)) (rotr64 x 41);
  R0 x := Z.lxor (Z.lxor (rotr64 x 1) (rotr64 x 8)) (Z.shiftr x 7);
  R1 x := Z.lxor (Z.lxor (rotr64 x 19) (rotr64 x 61)) (Z.shiftr x 6);
  rounds := 80
|}.

Section Block.
Variable o : ops.

Definition Ch (x y z : Z) : Z := Z.lxor (Z.land x y) (Z.land (not o x) z).
Definition Maj (x y z : Z) : Z := Z.lxor (Z.lxor (Z.land x y) (Z.land x z)) (Z.land y z).

(** The message schedule: [load t] is the big-endian word [t] of the block,
    and [W] starts with whatever is on the stack. *)
Definition schedule (load : nat -> Z) (W : list Z) : list Z :=
  let W := fold_left (fun W t => upd W t (load t)) (seq 0 16) W in
  fold_left (fun W t =>
      upd W t (add o (add o (add o (R1 o (nth (t - 2) W 0)) (nth (t - 7) W 0))
                            (R0 o (nth (t - 15) W 0))) (nth (t - 16) W 0)))
    (seq 16 (rounds o - 16)) W.

(** One iteration of the main loop. *)
Definition round_body (K : nat -> Z) (W : list Z) (r : regs) (t : nat) : regs :=
  let T1 := add o (add o (add o (add o (rh r) (S1 o (re r))) (Ch (re r) (rf r) (rg r))) (K t))
                  (nth t W 0) in
  let T2 := add o (S0 o (ra r)) (Maj (ra r) (rb r) (rc r)) in
  mk_regs (add o T1 T2) (ra r) (rb r) (rc r) (add o (rd r) T1) (re r) (rf r) (rg r).

(** The whole function; [hash[i] += ...] at the end. *)
Definition process_block (K : nat -> Z) (load : nat -> Z) (junk hash : list Z) : list Z :=
  let W := schedule load junk in
  let r := mk_regs (nth 0 hash 0) (nth 1 hash 0) (nth 2 hash 0) (nth 3 hash 0)
                   (nth 4 hash 0) (nth 5 hash 0) (nth 6 hash 0) (nth 7 hash 0) in
  let r := fold_left (round_body K W) (seq 0 (rounds o)) r in
  let hash := upd hash 0 (add o (nth 0 hash 0) (ra r)) in
  let hash := upd hash 1 (add o (nth 1 hash 0) (rb r)) in
  let hash := upd hash 2 (add o (nth 2 hash 0) (rc r)) in
  let hash := upd hash 3 (add o (nth 3 hash 0) (rd r)) in
  let hash := upd hash 4 (add o (nth 4 hash 0) (re r)) in
  let hash := upd hash 5 (add o (nth 5 hash 0) (rf r)) in
  let hash := upd hash 6 (add o (nth 6 hash 0) (rg r)) in
  upd hash 7 (add o (nth 7 hash 0) (rh r)).
End Block.

Definition sha256_process_block64 (need_sha512 : bool) (junk hash wbuffer : list Z) : list Z :=
  process_block ops32
    (fun t => let k := nth t (sha_K need_sha512) 0 in
              if need_sha512 then Z.shiftr k 32 else k)
    (fun t => bswap_32 (word_at 4 t wbuffer)) junk hash.

Definition sha512_process_block128 (junk hash wbuffer : list Z) : list Z :=
  process_block ops64 (fun t => nth t (sha_K true) 0)
    (fun t => bswap_64 (word_at 8 t wbuffer)) junk hash.

Definition init256 : list Z := [
  0; 0;
  0x6a09e667; 0xbb67ae85; 0x3c6ef372; 0xa54ff53a; 0x510e527f; 0x9b05688c; 0x1f83d9ab; 0x5be0cd19 ].
Definition init512_lo : list Z := [
  0; 0;
  0xf3bcc908; 0x84caa73b; 0xfe94f82b; 0x5f1d36f1; 0xade682d1; 0x2b3e6c1f; 0xfb41bd6b; 0x137e2179 ].
Definition init384 : list Z := [
  0; 0;
  0xcbbb9d5dc1059ed8; 0x629a292a367cd507; 0x9159015a3070dd17; 0x152fecd8f70e5939;
  0x67332667ffc00b31; 0x8eb44a8768581511; 0xdb0c2e0d64f98fa7; 0x47b5481dbefa4fa4 ].

(** ** FIPS 180 *)

(** The prime numbers below [n], in order. *)
Definition primes (n : nat) : list Z :=
  filter (fun p => forallb (fun d => negb (p mod d =? 0)) (map Z.of_nat (seq 2 (Z.to_nat p - 2))))
         (map Z.of_nat (seq 2 (n - 2))).

(** The integer cube root of [x], its [n] bits found from the highest. *)
Definition cbrt (n : nat) (x : Z) : Z :=
  fold_left (fun r i => let r' := r + 2 ^ Z.of_nat (n - 1 - i) in if r' ^ 3 <=? x then r' else r)
            (seq 0 n) 0.

(** Sections 4.2.2 and 4.2.3: the first [w] bits of the fractional parts of
    the cube roots of the first primes. *)
Definition fips_K (w : Z) (p : Z) : Z := cbrt 72 (p * 2 ^ (3 * w)) mod 2 ^ w.
Definition fips_K256 : list Z := map (fips_K 32) (firstn 64 (primes 410)).
Definition fips_K512 : list Z := map (fips_K 64) (firstn 80 (primes 410)).

(** Section 5.3: the first [w] bits of the fractional parts of the square
    roots of primes. *)
Definition fips_IV (w : Z) (p : Z) : Z := Z.sqrt (p * 2 ^ (2 * w)) mod 2 ^ w.

Section Fips.
Variable o : ops.

(** The message schedule: the words of the block and [n] more. *)
Fixpoint fips_sched (M : list Z) (n : nat) : list Z :=
  match n with
  | O => M
  | S n =>
      let W := fips_sched M n in
      let t := length W in
      W ++ [add o (add o (R1 o (nth (t - 2) W 0)) (nth (t - 7) W 0))
                  (add o (R0 o (nth (t - 15) W 0)) (nth (t - 16) W 0))]
  end.

Definition fips_step (K W : list Z) (r : regs) (t : nat) : regs :=
  let T1 := add o (rh r) (add o (S1 o (re r)) (add o (Ch o (re r) (rf r) (rg r))
              (add o (nth t K 0) (nth t W 0)))) in
  let T2 := add o (S0 o (ra r)) (Maj (ra r) (rb r) (rc r)) in
  mk_regs (add o T1 T2) (ra r) (rb r) (rc r) (add o (rd r) T1) (re r) (rf r) (rg r).

Definition fips_compress (K M h : list Z) : list Z :=
  let r := fold_left (fips_step K (fips_sched M (rounds o - 16))) (seq 0 (rounds o))
             (mk_regs (nth 0 h 0) (nth 1 h 0) (nth 2 h 0) (nth 3 h 0)
                      (nth 4 h 0) (nth 5 h 0) (nth 6 h 0) (nth 7 h 0)) in
  [add o (nth 0 h 0) (ra r); add o (nth 1 h 0) (rb r); add o (nth 2 h 0) (rc r);
   add o (nth 3 h 0) (rd r); add o (nth 4 h 0) (re r); add o (nth 5 h 0) (rf r);
   add o (nth 6 h 0) (rg r); add o (nth 7 h 0) (rh r)].
End Fips.

Definition fips_sha256 (h block : list Z) : list Z :=
  fips_compress ops32 fips_K256 (map (fun i => be_word (slice (4 * i) 4 block)) (seq 0 16)) h.
Definition fips_sha512 (h block : list Z) : list Z :=
  fips_compress ops64 fips_K512 (map (fun i => be_word (slice (8 * i) 8 block)) (seq 0 16)) h.

(** ** The code computes the functions of FIPS 180 *)

Section Correct.
Variable o : ops.
Hypothesis add_assoc : forall x y z, add o x (add o y z) = add o (add o x y) z.
Variable M : list Z.
Hypothesis M_length : length M = 16%nat.

Lemma sha2_length_sched n : length (fips_sched o M n) = (16 + n)%nat.
Proof.
  induction n as [|n IH]; [cbn; lia|]. cbn [fips_sched]. rewrite length_app, IH. simpl. lia.
Qed.

Lemma sha2_sched_S n :
  let W := fips_sched o M n in
  fips_sched o M (S n)
  = W ++ [add o (add o (R1 o (nth (16 + n - 2) W 0)) (nth (16 + n - 7) W 0))
                (add o (R0 o (nth (16 + n - 15) W 0)) (nth (16 + n - 16) W 0))].
Proof. cbn [fips_sched]. rewrite sha2_length_sched. reflexivity. Qed.

Lemma sha2_sched_prefix n m t :
  (n <= m)%nat -> (t < 16 + n)%nat -> nth t (fips_sched o M m) 0 = nth t (fips_sched o M n) 0.
Proof.
  intros Hnm Ht. induction Hnm as [|m Hnm IH]; [reflexivity|]. rewrite sha2_sched_S.
  rewrite app_nth1 by (rewrite sha2_length_sched; lia). exact IH.
Qed.

Lemma sha2_sched_mix N t :
  (16 <= t < 16 + N)%nat ->
  let W := fips_sched o M N in
  nth t W 0 = add o (add o (R1 o (nth (t - 2) W 0)) (nth (t - 7) W 0))
                    (add o (R0 o (nth (t - 15) W 0)) (nth (t - 16) W 0)).
Proof.
  intros Ht W. subst W. rewrite (sha2_sched_prefix (S (t - 16)) N t), sha2_sched_S by lia.
  rewrite !(sha2_sched_prefix (t - 16) N) by lia.
  rewrite app_nth2, sha2_length_sched by (rewrite sha2_length_sched; lia).
  replace (t - (16 + (t - 16)))%nat with 0%nat by lia. cbn [nth].
  replace (16 + (t - 16))%nat with t by lia. reflexivity.
Qed.

(** The first [t] words of the array are those of the schedule. *)
Definition filled (N t : nat) (W : list Z) : Prop :=
  length W = (16 + N)%nat /\ forall j, (j < t)%nat -> nth j W 0 = nth j (fips_sched o M N) 0.

Lemma filled_upd N t W v :
  filled N t W -> (t < 16 + N)%nat -> v = nth t (fips_sched o M N) 0 -> filled N (S t) (upd W t v).
Proof.
  intros [Hl HW] Ht ->. split; [rewrite length_upd; exact Hl|]. intros j Hj.
  destruct (Nat.eq_dec j t) as [->|Hne]; [apply nth_upd_eq; lia|].
  rewrite nth_upd_ne by auto. apply HW. lia.
Qed.

Lemma schedule_filled load junk :
  (16 <= rounds o)%nat -> length junk = rounds o ->
  (forall t, (t < 16)%nat -> load t = nth t M 0) ->
  filled (rounds o - 16) (rounds o) (schedule o load junk).
Proof.
  intros Hr Hj Hload. unfold schedule. set (N := (rounds o - 16)%nat).
  replace (rounds o) with (16 + N)%nat at 1 by lia.
  apply (fold_seq_inv (filled N) (fun W t => upd W t _) 16 N).
  - intros t W Ht HW. apply filled_upd; [exact HW|lia|].
    destruct HW as [_ HW]. rewrite sha2_sched_mix, !HW by lia. symmetry. apply add_assoc.
  - apply (fold_seq_inv (filled N) (fun W t => upd W t (load t)) 0 16).
    + intros t W Ht HW. apply filled_upd; [exact HW|lia|].
      rewrite Hload, (sha2_sched_prefix 0 N) by lia. reflexivity.
    + split; [lia|intros; lia].
Qed.

Lemma sha2_round_fips K K' W W' r t :
  K t = nth t K' 0 -> nth t W 0 = nth t W' 0 -> round_body o K W r t = fips_step o K' W' r t.
Proof.
  intros HK HW. unfold round_body, fips_step. rewrite HK, HW, !add_assoc. reflexivity.
Qed.

Lemma sha2_process_fips K K' load junk h rest :
  (16 <= rounds o)%nat -> length junk = rounds o ->
  (forall t, (t < rounds o)%nat -> K t = nth t K' 0) ->
  (forall t, (t < 16)%nat -> load t = nth t M 0) -> length h = 8%nat ->
  process_block o K load junk (h ++ rest) = fips_compress o K' M h ++ rest.
Proof.
  intros Hr Hj HK Hload Hh. do 8 (destruct h as [|? h]; [discriminate|]). destruct h; [|discriminate].
  unfold process_block, fips_compress. cbv zeta. cbn [app nth].
  destruct (schedule_filled load junk Hr Hj Hload) as [_ HW].
  rewrite (fold_left_ext (round_body o K (schedule o load junk))
             (fips_step o K' (fips_sched o M (rounds o - 16)))).
  - cbn [upd nth app]. reflexivity.
  - intros r t Ht%in_seq. apply sha2_round_fips; [apply HK; lia|apply HW; lia].
Qed.
End Correct.

Lemma K256_high b t :
  (t < 64)%nat -> (let k := nth t (sha_K b) 0 in if b then Z.shiftr k 32 else k) = nth t fips_K256 0.
Proof.
  intros Ht.
  assert (Hall : forallb (fun t => (let k := nth t (sha_K b) 0 in if b then Z.shiftr k 32 else k)
                                   =? nth t fips_K256 0) (seq 0 64) = true)
    by (destruct b; vm_compute; reflexivity).
  rewrite forallb_forall in Hall. apply Z.eqb_eq, Hall, in_seq. lia.
Qed.

Lemma K512_fips : K_table = fips_K512.
Proof. vm_compute. reflexivity. Qed.

Lemma sha256_block_fips b junk h rest wbuffer :
  length h = 8%nat -> length wbuffer = 64%nat -> bytes wbuffer -> length junk = 64%nat ->
  sha256_process_block64 b junk (h ++ rest) wbuffer = fips_sha256 h wbuffer ++ rest.
Proof.
  intros Hh Hw Hb Hj. apply sha2_process_fips; auto.
  - exact add32_assoc.
  - cbn [rounds ops32]. lia.
  - intros t Ht. apply K256_high, Ht.
  - intros t Ht. rewrite (nth_map_seq (fun i => be_word (slice (4 * i) 4 wbuffer))) by assumption.
    apply bswap_32_le; [apply bytes_slice, Hb|rewrite length_slice; lia].
Qed.

Lemma sha512_block_fips junk h rest wbuffer :
  length h = 8%nat -> length wbuffer = 128%nat -> bytes wbuffer -> length junk = 80%nat ->
  sha512_process_block128 junk (h ++ rest) wbuffer = fips_sha512 h wbuffer ++ rest.
Proof.
  intros Hh Hw Hb Hj. apply sha2_process_fips; [| | |exact Hj| | |exact Hh].
  - exact add64_assoc.
  - reflexivity.
  - cbn [rounds ops64]. lia.
  - intros t _. rewrite <- K512_fips. reflexivity.
  - intros t Ht. rewrite (nth_map_seq (fun i => be_word (slice (8 * i) 8 wbuffer))) by assumption.
    apply bswap_64_le; [apply bytes_slice, Hb|rewrite length_slice; lia].
Qed.
End SHA2.
