(* ===== verification/HashCtx.v ===== *)
(** * Hash contexts: MD5, SHA-1 and SHA-2 over data in pieces

    The [begin], [hash] and [end] functions of [libbb/hash_md5_sha.c] for
    [md5_ctx_t] (MD5, SHA-1, SHA-256) and [sha512_ctx_t] (SHA-384, SHA-512),
    on a little-endian machine without hardware hashing. The theorems: for
    every build configuration, and however the message is cut into pieces,
    the bytes written are the digest RFC 1321 and FIPS 180 define. *)

From Stdlib Require Import ZArith List Lia Bool.
From S2P Require Import Prelude Words HashBuf Md5 Sha1 Sha2.
Import ListNotations.
Local Open Scope Z_scope.
Local Open Scope bb_scope.

Module HashCtx.

(** ** Definitions *)

(** The build configuration, and what uninitialised locals hold: [stack n h
    b] are the [n] words of the array [W] when a block function is entered
    with the hash [h] and the buffer [b]. *)
Record config := {
  MD5_SMALL : Z;
  SHA1_SMALL : Z;
  NEED_SHA512 : bool;
  stack : nat -> list Z -> list Z -> list Z
}.

(** The functions [ctx->process_block] may point to. *)
Inductive block_fn := md5_process_block64 | sha1_process_block64 | sha256_process_block64.

Record md5_ctx_t := mk_ctx {
  wbuffer : list Z;
  process_block : block_fn;
  total64 : Z;
  hash : list Z
}.

Record sha512_ctx_t := mk_ctx512 {
  total64_512 : Z * Z;
  hash512 : list Z;
  wbuffer512 : list Z
}.

Section Code.
Variable cfg : config.

(** The call [ctx->process_block(ctx)]: the new [ctx->hash]. *)
Definition call_block (f : block_fn) (hash wbuffer : list Z) : list Z :=
  match f with
  | md5_process_block64 => MD5.md5_process_block64 (MD5_SMALL cfg) hash wbuffer
  | sha1_process_block64 =>
      SHA1.sha1_process_block64 (SHA1_SMALL cfg) (stack cfg 32 hash wbuffer) hash wbuffer
  | sha256_process_block64 =>
      SHA2.sha256_process_block64 (NEED_SHA512 cfg) (stack cfg 64 hash wbuffer) hash wbuffer
  end.

Definition common64_end (ctx : md5_ctx_t) (swap_needed : bool) : option md5_ctx_t :=
  let bufpos := Z.land (total64 ctx) 63 in
  let wb := upd (wbuffer ctx) (Z.to_nat bufpos) 0x80 in
  let bufpos := u32 (bufpos + 1) in
  let t := u64 (Z.shiftl (total64 ctx) 3) in
  let t := if swap_needed then bswap_64 t else t in
  let* (h, wb) := end_loop 64 (call_block (process_block ctx)) 2 8
                    (fun wb => blit wb (64 - 8) (le_bytes 8 t)) (hash ctx) wb bufpos in
  Some (mk_ctx wb (process_block ctx) (total64 ctx) h).

Definition md5_begin (ctx : md5_ctx_t) : md5_ctx_t :=
  let h := upd (hash ctx) 0 0x67452301 in
  let h := upd h 1 0xefcdab89 in
  let h := upd h 2 0x98badcfe in
  let h := upd h 3 0x10325476 in
  mk_ctx (wbuffer ctx) md5_process_block64 0 h.

(** Used also for SHA-1 and SHA-256. *)
Definition md5_hash (ctx : md5_ctx_t) (buffer : list Z) : option md5_ctx_t :=
  let bufpos := Z.land (total64 ctx) 63 in
  let total := add64 (total64 ctx) (Z.of_nat (length buffer)) in
  let* (h, wb) := hash_loop 64 (call_block (process_block ctx)) (length buffer / 64 + 2)
                    (hash ctx) (wbuffer ctx) bufpos buffer in
  Some (mk_ctx wb (process_block ctx) total h).

(** The result is the context left, the bytes at [resbuf] and the value
    returned. *)
Definition md5_end (ctx : md5_ctx_t) : option (md5_ctx_t * list Z * Z) :=
  let* ctx := common64_end ctx false in
  Some (ctx, concat (map (le_bytes 4) (firstn 4 (hash ctx))), 4 * 4).

Definition sha1_begin (ctx : md5_ctx_t) : md5_ctx_t :=
  let h := upd (hash ctx) 0 0x67452301 in
  let h := upd h 1 0xefcdab89 in
  let h := upd h 2 0x98badcfe in
  let h := upd h 3 0x10325476 in
  let h := upd h 4 0xc3d2e1f0 in
  mk_ctx (wbuffer ctx) sha1_process_block64 0 h.

(** The copy of [init256] covers [total64] and [hash]. *)
Definition sha256_begin (ctx : md5_ctx_t) : md5_ctx_t :=
  mk_ctx (wbuffer ctx) sha256_process_block64
    (le_word (concat (map (le_bytes 4) (firstn 2 SHA2.init256)))) (skipn 2 SHA2.init256).

(** Used also for SHA-256. *)
Definition sha1_end (ctx : md5_ctx_t) : option (md5_ctx_t * list Z * Z) :=
  let* ctx := common64_end ctx true in
  let hash_size := match process_block ctx with sha1_process_block64 => 5%nat | _ => 8%nat end in
  let h := fold_left (fun h i => upd h i (bswap_32 (nth i h 0))) (seq 0 hash_size) (hash ctx) in
  let ctx := mk_ctx (wbuffer ctx) (process_block ctx) (total64 ctx) h in
  Some (ctx, concat (map (le_bytes 4) (firstn hash_size h)), Z.of_nat hash_size * 4).

Definition sha256_block (ctx : md5_ctx_t) (buf : list Z) : option (list Z) :=
  let* ctx := md5_hash (sha256_begin ctx) buf in
  let* (_, out, _) := sha1_end ctx in
  Some out.

Definition call_block512 (hash wbuffer : list Z) : list Z :=
  SHA2.sha512_process_block128 (stack cfg 80 hash wbuffer) hash wbuffer.

Definition sha384_begin (ctx : sha512_ctx_t) : sha512_ctx_t :=
  mk_ctx512 (nth 0 SHA2.init384 0, nth 1 SHA2.init384 0) (skipn 2 SHA2.init384) (wbuffer512 ctx).

Definition sha512_begin (ctx : sha512_ctx_t) : sha512_ctx_t :=
  let tp i := add64 (u64 (Z.shiftl (nth i SHA2.init256 0) 32)) (nth i SHA2.init512_lo 0) in
  mk_ctx512 (tp 0%nat, tp 1%nat) (map tp (seq 2 8)) (wbuffer512 ctx).

Definition sha512_hash (ctx : sha512_ctx_t) (buffer : list Z) : option sha512_ctx_t :=
  let '(t0, t1) := total64_512 ctx in
  let len := Z.of_nat (length buffer) in
  let bufpos := Z.land t0 127 in
  let t0 := add64 t0 len in
  let t1 := if t0 <? len then add64 t1 1 else t1 in
  let* (h, wb) := hash_loop 128 call_block512 (length buffer / 128 + 2)
                    (hash512 ctx) (wbuffer512 ctx) bufpos buffer in
  Some (mk_ctx512 (t0, t1) h wb).

Definition sha512384_end (ctx : sha512_ctx_t) (outsize : nat)
  : option (sha512_ctx_t * list Z * Z) :=
  let '(t0, t1) := total64_512 ctx in
  let bufpos := Z.land t0 127 in
  let wb := upd (wbuffer512 ctx) (Z.to_nat bufpos) 0x80 in
  let bufpos := u32 (bufpos + 1) in
  let store wb :=
    let wb := blit wb (128 - 8) (le_bytes 8 (bswap_64 (u64 (Z.shiftl t0 3)))) in
    blit wb (128 - 16)
         (le_bytes 8 (bswap_64 (Z.lor (u64 (Z.shiftl t1 3)) (Z.shiftr t0 61)))) in
  let* (h, wb) := end_loop 128 call_block512 2 16 store (hash512 ctx) wb bufpos in
  let h := fold_left (fun h i => upd h i (bswap_64 (nth i h 0))) (seq 0 8) h in
  Some (mk_ctx512 (t0, t1) h wb, firstn outsize (concat (map (le_bytes 8) h)), Z.of_nat outsize).

Definition SHA512_OUTSIZE : nat := 64.
Definition SHA384_OUTSIZE : nat := 48.
Definition sha512_end (ctx : sha512_ctx_t) := sha512384_end ctx SHA512_OUTSIZE.
Definition sha384_end (ctx : sha512_ctx_t) := sha512384_end ctx SHA384_OUTSIZE.
End Code.

(** ** The digests of RFC 1321 and FIPS 180 *)

(** The length of the hash in words, the initial value and the compression
    function. *)
Definition words (f : block_fn) : nat :=
  match f with md5_process_block64 => 4 | sha1_process_block64 => 5 | sha256_process_block64 => 8 end.
Definition iv (f : block_fn) : list Z :=
  match f with
  | md5_process_block64 => [0x67452301; 0xefcdab89; 0x98badcfe; 0x10325476]
  | sha1_process_block64 => [0x67452301; 0xefcdab89; 0x98badcfe; 0x10325476; 0xc3d2e1f0]
  | sha256_process_block64 => map (SHA2.fips_IV 32) (firstn 8 (SHA2.primes 60))
  end.
Definition compress (f : block_fn) : list Z -> list Z -> list Z :=
  match f with
  | md5_process_block64 => MD5.rfc_compress
  | sha1_process_block64 => SHA1.fips_compress
  | sha256_process_block64 => SHA2.fips_sha256
  end.
(** MD5 writes numbers with the least significant byte first. *)
Definition put (f : block_fn) : nat -> Z -> list Z :=
  match f with md5_process_block64 => le_bytes | _ => be_bytes end.

Definition digest (f : block_fn) (msg : list Z) : list Z :=
  let len := put f 8 (8 * Z.of_nat (length msg)) in
  concat (map (put f 4) (absorb 64 (compress f) (iv f) (pad 64 len msg))).

Definition iv512 : list Z := map (SHA2.fips_IV 64) (firstn 8 (SHA2.primes 60)).
Definition iv384 : list Z := map (SHA2.fips_IV 64) (slice 8 8 (SHA2.primes 60)).

Definition digest512 (iv : list Z) (outsize : nat) (msg : list Z) : list Z :=
  let len := be_bytes 16 (8 * Z.of_nat (length msg)) in
  firstn outsize (concat (map (be_bytes 8) (absorb 128 SHA2.fips_sha512 iv (pad 128 len msg)))).

(** ** Theorems *)

(** A context in memory, before any call. *)
Definition ctx_ok (ctx : md5_ctx_t) : Prop :=
  length (wbuffer ctx) = 64%nat /\ length (hash ctx) = 8%nat /\ Forall (in_u 32) (hash ctx).

(** The array [W] has as many words as it is declared with. *)
Definition stack_ok (cfg : config) : Prop := forall n h wb, length (stack cfg n h wb) = n.

Definition good (f : block_fn) (h : list Z) : Prop :=
  length h = words f /\ Forall (in_u 32) h.

Lemma compress_good f h blk : good f h -> good f (compress f h blk).
Proof.
  intros _. destruct f; (split; [reflexivity|]); repeat constructor; apply in_u32 || apply add32_range.
Qed.

(** The tables hold what the standard defines. *)
Lemma iv256_table : iv sha256_process_block64 = skipn 2 SHA2.init256.
Proof. vm_compute. reflexivity. Qed.
Lemma iv512_table ctx : hash512 (sha512_begin ctx) = iv512.
Proof. vm_compute. reflexivity. Qed.
Lemma iv384_table ctx : hash512 (sha384_begin ctx) = iv384.
Proof. vm_compute. reflexivity. Qed.
Lemma length_iv512 : length iv512 = 8%nat.
Proof. reflexivity. Qed.
Lemma length_iv384 : length iv384 = 8%nat.
Proof. reflexivity. Qed.

#[local] Opaque SHA2.fips_IV SHA2.primes.

Lemma iv_good f : good f (iv f).
Proof.
  destruct f; [| |rewrite iv256_table]; (split; [reflexivity|]);
    repeat constructor; vm_compute; congruence.
Qed.

(** The position in the buffer is the length modulo the block size. *)
Lemma bufpos_mod len k :
  (k <= 64)%nat -> Z.land (u64 (Z.of_nat len)) (2 ^ Z.of_nat k - 1) = Z.of_nat (len mod 2 ^ k).
Proof.
  intros Hk.
  replace (2 ^ Z.of_nat k - 1) with (Z.ones (Z.of_nat k)) by (rewrite Z.ones_equiv; lia).
  rewrite Z.land_ones by lia. unfold u64, wrap.
  replace (2 ^ 64) with (2 ^ (64 - Z.of_nat k) * 2 ^ Z.of_nat k)
    by (rewrite <- Z.pow_add_r by lia; f_equal; lia).
  rewrite (Z.mul_comm (2 ^ (64 - _))), Z.rem_mul_r by (try apply Z.pow_nonzero; try apply Z.pow_pos_nonneg; lia).
  rewrite Z.mul_comm, Z_mod_plus_full, Z.mod_mod by (apply Z.pow_nonzero; lia).
  rewrite Nat2Z.inj_mod, Nat2Z.inj_pow. reflexivity.
Qed.

Section Correct.
Variable cfg : config.
Hypothesis Hstack : stack_ok cfg.

Lemma call_spec f rest h blk :
  length rest = (8 - words f)%nat -> Forall (in_u 32) rest ->
  good f h -> length blk = block_bytes 64 -> bytes blk ->
  call_block cfg f (h ++ rest) blk = compress f h blk ++ rest.
Proof.
  intros Hr Hru [Hh Hhu] Hb Hby. change (block_bytes 64) with 64%nat in Hb.
  assert (Hu : Forall (in_u 32) (h ++ rest)) by (apply Forall_app; auto).
  assert (Hfs : firstn (words f) (h ++ rest) = h /\ skipn (words f) (h ++ rest) = rest).
  { rewrite <- Hh, firstn_app, skipn_app, Nat.sub_diag, firstn_all, skipn_all, firstn_O, app_nil_r.
    auto. }
  destruct Hfs as [Hf Hs].
  destruct f; cbn [call_block compress words] in *.
  - rewrite MD5.md5_block_rfc, Hf, Hs by (auto; rewrite length_app; lia). reflexivity.
  - rewrite SHA1.sha1_block_fips, Hf, Hs by (auto; rewrite length_app; lia). reflexivity.
  - apply SHA2.sha256_block_fips; auto.
Qed.

(** A context that was given the message [msg]. *)
Definition represents (f : block_fn) (ctx : md5_ctx_t) (msg : list Z) : Prop :=
  process_block ctx = f /\ total64 ctx = u64 (Z.of_nat (length msg))
  /\ exists rest, length rest = (8 - words f)%nat /\ Forall (in_u 32) rest
     /\ buffered 64 (call_block cfg f) (good f) rest (iv f) msg (hash ctx) (wbuffer ctx).

Lemma block64 : 0 < 64 < 2 ^ 31.
Proof. lia. Qed.
Lemma block128 : 0 < 128 < 2 ^ 31.
Proof. lia. Qed.

(** [begin]: any of the three, on a context with anything in it. *)
Lemma begin_represents f ctx ctx' rest :
  ctx_ok ctx -> wbuffer ctx' = wbuffer ctx -> process_block ctx' = f -> total64 ctx' = 0 ->
  hash ctx' = iv f ++ rest -> length rest = (8 - words f)%nat -> Forall (in_u 32) rest ->
  represents f ctx' [].
Proof.
  intros (Hw & _ & _) Ew Ep Et Eh Hr Hru. split; [exact Ep|]. split; [exact Et|].
  exists rest. split; [exact Hr|]. split; [exact Hru|].
  rewrite Eh, Ew. apply buffered_nil; [exact block64|exact Hw|apply iv_good].
Qed.

Lemma md5_begin_represents ctx : ctx_ok ctx -> represents md5_process_block64 (md5_begin ctx) [].
Proof.
  intros Hok. apply (begin_represents _ ctx _ (skipn 4 (hash ctx))); auto.
  all: destruct Hok as (_ & Hl & Hu), (hash ctx) as [|? [|? [|? [|? h]]]] eqn:E; try discriminate.
  all: cbn [skipn words length] in *.
  - unfold md5_begin. cbn [HashCtx.hash]. rewrite E. reflexivity.
  - lia.
  - do 4 (inversion Hu as [|? ? _ Hu']; subst; clear Hu; rename Hu' into Hu). exact Hu.
Qed.

Lemma sha1_begin_represents ctx : ctx_ok ctx -> represents sha1_process_block64 (sha1_begin ctx) [].
Proof.
  intros Hok. apply (begin_represents _ ctx _ (skipn 5 (hash ctx))); auto.
  all: destruct Hok as (_ & Hl & Hu), (hash ctx) as [|? [|? [|? [|? [|? h]]]]] eqn:E; try discriminate.
  all: cbn [skipn words length] in *.
  - unfold sha1_begin. cbn [HashCtx.hash]. rewrite E. reflexivity.
  - lia.
  - do 5 (inversion Hu as [|? ? _ Hu']; subst; clear Hu; rename Hu' into Hu). exact Hu.
Qed.

Lemma sha256_begin_represents ctx :
  ctx_ok ctx -> represents sha256_process_block64 (sha256_begin ctx) [].
Proof.
  intros Hok. apply (begin_represents _ ctx _ []);
    [exact Hok|reflexivity..| |reflexivity|constructor].
  rewrite iv256_table, app_nil_r. reflexivity.
Qed.

Lemma hash_represents f ctx msg data :
  represents f ctx msg -> bytes data ->
  exists ctx', md5_hash cfg ctx data = Some ctx' /\ represents f ctx' (msg ++ data).
Proof.
  intros (Ep & Et & rest & Hr & Hru & Hb) Hd.
  destruct (buffered_hash 64 block64 _ _ _ _ _ _ _ data (length data / 64 + 2) Hb Hd)
    as (h' & wb' & E & Hb'); [change (block_bytes 64) with 64%nat; lia|].
  unfold md5_hash. rewrite Ep, Et, (bufpos_mod _ 6) by lia.
  change (block_bytes 64) with (2 ^ 6)%nat in E. rewrite E. cbn [bind].
  eexists. split; [reflexivity|]. split; [reflexivity|]. split; [|exists rest; auto].
  cbn [total64]. unfold add64, u64. rewrite wrap_add_l, length_app, Nat2Z.inj_add by lia. reflexivity.
Qed.

(** The count of bits stored at the end, in either byte order. *)
Lemma length_field (swap : bool) len :
  le_bytes 8 (let t := u64 (Z.shiftl (u64 (Z.of_nat len)) 3) in if swap then bswap_64 t else t)
  = (if swap then be_bytes else le_bytes) 8%nat (8 * Z.of_nat len).
Proof.
  assert (E : le_bytes 8 (u64 (Z.shiftl (u64 (Z.of_nat len)) 3)) = le_bytes 8 (8 * Z.of_nat len)).
  { apply le_bytes_eqm. change (256 ^ Z.of_nat 8) with (2 ^ 64). unfold u64, wrap.
    rewrite Z.mod_mod, Z.shiftl_mul_pow2, Zmult_mod_idemp_l by lia. f_equal. lia. }
  cbv zeta. destruct swap; [|exact E].
  rewrite le_bytes_bswap_64. unfold be_bytes. rewrite E. reflexivity.
Qed.

Lemma common64_end_spec f ctx msg swap :
  represents f ctx msg -> swap = (match f with md5_process_block64 => false | _ => true end) ->
  exists wb' t rest, common64_end cfg ctx swap
    = Some (mk_ctx wb' f t (absorb 64 (compress f) (iv f)
              (pad 64 (put f 8 (8 * Z.of_nat (length msg))) msg) ++ rest))
    /\ length wb' = 64%nat /\ length rest = (8 - words f)%nat /\ Forall (in_u 32) rest.
Proof.
  intros (Ep & Et & rest & Hr & Hru & Hb) Hs.
  assert (Hput : put f = if swap then be_bytes else le_bytes) by (rewrite Hs; destruct f; reflexivity).
  set (lb := put f 8 (8 * Z.of_nat (length msg))).
  assert (Hlb : length lb = 8%nat /\ bytes lb).
  { unfold lb. rewrite Hput. destruct swap;
      auto using length_be_bytes, length_le_bytes, bytes_be_bytes, bytes_le_bytes. }
  destruct Hlb as [Hl8 Hlb].
  edestruct (buffered_end 64 block64 (call_block cfg f) (compress f) (good f) rest)
    with (store := fun wb => blit wb (64 - 8) lb) (lb := lb) as (wb' & E & Hw'); [| |exact Hb|exact Hlb|..].
  - intros h blk. apply call_spec; assumption.
  - apply compress_good.
  - rewrite Hl8. change (block_bytes 64) with 64%nat. lia.
  - intros wb _. rewrite Hl8. reflexivity.
  - exists wb', (total64 ctx), rest. split; [|auto]. unfold common64_end. rewrite Ep, Et, length_field, <- Hput.
    rewrite (bufpos_mod _ 6), Nat2Z.id by lia. fold lb.
    change (block_bytes 64) with (2 ^ 6)%nat in E. rewrite Hl8 in E.
    unfold u32. rewrite wrap_small; [change (Z.of_nat 8) with 8 in E; rewrite E; reflexivity|].
    pose proof (Nat.mod_upper_bound (length msg) (2 ^ 6) ltac:(discriminate)).
    change (2 ^ 6)%nat with 64%nat in *. red. lia.
Qed.

Lemma absorb_good f h msg : good f h -> good f (absorb 64 (compress f) h msg).
Proof.
  intros Hh. unfold absorb. apply (fold_inv (good f)); [|exact Hh].
  intros; apply compress_good; assumption.
Qed.

Lemma md5_end_digest ctx msg :
  represents md5_process_block64 ctx msg ->
  exists ctx', md5_end cfg ctx = Some (ctx', digest md5_process_block64 msg, 16).
Proof.
  intros Hr. unfold md5_end, digest.
  destruct (common64_end_spec _ _ _ false Hr eq_refl) as (wb & t & rest & -> & _). cbn [bind hash].
  set (h := absorb _ _ _ _).
  assert (Hh : length h = 4%nat) by (apply (absorb_good md5_process_block64), iv_good).
  rewrite firstn_app, <- Hh, firstn_all, Nat.sub_diag, firstn_O, app_nil_r.
  eexists. reflexivity.
Qed.

Lemma sha1_end_digest f ctx msg :
  f <> md5_process_block64 -> represents f ctx msg ->
  exists ctx', sha1_end cfg ctx = Some (ctx', digest f msg, 4 * Z.of_nat (words f)) /\ ctx_ok ctx'.
Proof.
  intros Hf Hr. unfold sha1_end, digest.
  destruct (common64_end_spec f _ _ true Hr) as (wb & t & rest & -> & Hw & Hr' & Hu);
    [destruct f; congruence|].
  cbn [bind hash process_block wbuffer total64]. set (h := absorb _ _ _ _).
  assert (Hh : length h = words f) by (apply (absorb_good f), iv_good).
  replace (match f with sha1_process_block64 => 5%nat | _ => 8%nat end) with (words f)
    by (destruct f; [congruence|reflexivity..]).
  rewrite <- Hh, fold_upd_map, firstn_app, length_map, Nat.sub_diag, firstn_O, app_nil_r.
  rewrite <- (length_map bswap_32 h), firstn_all, map_map.
  rewrite (map_ext _ (put f 4)), Z.mul_comm; [eexists; split; [reflexivity|]|].
  { unfold ctx_ok. cbn [wbuffer HashCtx.hash]. split; [exact Hw|].
    split; [rewrite length_app, length_map, Hh; destruct f; cbn [words] in *; lia|].
    apply Forall_app. split; [|exact Hu]. apply Forall_map, Forall_forall. intros; apply bswap_32_range. }
  intros x. rewrite le_bytes_bswap_32. destruct f; [congruence|reflexivity..].
Qed.

(** *** SHA-384 and SHA-512 *)

Definition ctx512_ok (ctx : sha512_ctx_t) : Prop := length (wbuffer512 ctx) = 128%nat.

Definition good512 (h : list Z) : Prop := length h = 8%nat.

Lemma call512_spec h blk :
  good512 h -> length blk = block_bytes 128 -> bytes blk ->
  call_block512 cfg (h ++ []) blk = SHA2.fips_sha512 h blk ++ [].
Proof. intros. apply SHA2.sha512_block_fips; auto. Qed.

(** The two words of [total64] are the length modulo [2^128]. *)
Definition represents512 (iv : list Z) (ctx : sha512_ctx_t) (msg : list Z) : Prop :=
  let len := Z.of_nat (length msg) in
  total64_512 ctx = (len mod 2 ^ 64, len / 2 ^ 64 mod 2 ^ 64)
  /\ buffered 128 (call_block512 cfg) good512 [] iv msg (hash512 ctx) (wbuffer512 ctx).

Lemma begin512_represents iv ctx ctx' :
  ctx512_ok ctx -> wbuffer512 ctx' = wbuffer512 ctx -> total64_512 ctx' = (0, 0) ->
  hash512 ctx' = iv -> length iv = 8%nat -> represents512 iv ctx' [].
Proof.
  intros Hw Ew Et Eh Hl. split; [exact Et|]. rewrite Eh, Ew.
  pose proof (buffered_nil 128 block128 (call_block512 cfg) good512 [] iv (wbuffer512 ctx) Hw Hl) as H.
  rewrite app_nil_r in H. exact H.
Qed.

(** Adding a length to the counter, with the carry. *)
Lemma total_carry len n :
  0 <= len -> 0 <= n < 2 ^ 64 ->
  let t0 := add64 (len mod 2 ^ 64) n in
  (t0, if t0 <? n then add64 (len / 2 ^ 64 mod 2 ^ 64) 1 else len / 2 ^ 64 mod 2 ^ 64)
  = ((len + n) mod 2 ^ 64, (len + n) / 2 ^ 64 mod 2 ^ 64).
Proof.
  intros Hlen Hn t0. unfold t0, add64, u64, wrap.
  rewrite !Zplus_mod_idemp_l. f_equal.
  pose proof (Z.div_mod len (2 ^ 64) ltac:(lia)). pose proof (Z.mod_pos_bound len (2 ^ 64) ltac:(lia)).
  set (q := len / 2 ^ 64) in *. set (r := len mod 2 ^ 64) in *.
  destruct (Z_lt_dec (r + n) (2 ^ 64)) as [Hc|Hc].
  - replace ((len + n) mod 2 ^ 64) with (r + n) by (apply (Z.mod_unique _ _ q); lia).
    replace ((len + n) / 2 ^ 64) with q by (apply (Z.div_unique _ _ _ (r + n)); lia).
    destruct (Z.ltb_spec (r + n) n); [lia|reflexivity].
  - replace ((len + n) mod 2 ^ 64) with (r + n - 2 ^ 64) by (apply (Z.mod_unique _ _ (q + 1)); lia).
    replace ((len + n) / 2 ^ 64) with (q + 1) by (apply (Z.div_unique _ _ _ (r + n - 2 ^ 64)); lia).
    destruct (Z.ltb_spec (r + n - 2 ^ 64) n); [reflexivity|lia].
Qed.

Lemma bufpos_127 len : Z.land (Z.of_nat len mod 2 ^ 64) 127 = Z.of_nat (len mod 2 ^ 7).
Proof. exact (bufpos_mod len 7 ltac:(lia)). Qed.

Definition small_piece (data : list Z) : Prop := bytes data /\ Z.of_nat (length data) < 2 ^ 64.

Lemma hash512_represents iv ctx msg data :
  represents512 iv ctx msg -> small_piece data ->
  exists ctx', sha512_hash cfg ctx data = Some ctx' /\ represents512 iv ctx' (msg ++ data).
Proof.
  intros [Et Hb] [Hd Hs].
  destruct (buffered_hash 128 block128 _ _ _ _ _ _ _ data (length data / 128 + 2) Hb Hd)
    as (h' & wb' & E & Hb'); [change (block_bytes 128) with 128%nat; lia|].
  unfold sha512_hash. rewrite Et, bufpos_127. change (block_bytes 128) with (2 ^ 7)%nat in E. rewrite E.
  cbn [bind]. eexists. split; [reflexivity|]. split; [|exact Hb'].
  cbn [total64_512]. rewrite length_app, Nat2Z.inj_add. apply total_carry; lia.
Qed.

(** The two halves of the counter of bits, as one big-endian number. *)
Lemma length_field128 len :
  0 <= len ->
  be_bytes 8 (Z.lor (u64 (Z.shiftl (len / 2 ^ 64 mod 2 ^ 64) 3)) (Z.shiftr (len mod 2 ^ 64) 61))
  ++ be_bytes 8 (u64 (Z.shiftl (len mod 2 ^ 64) 3))
  = be_bytes 16 (8 * len).
Proof.
  intros Hlen. unfold be_bytes. rewrite <- rev_app_distr. f_equal.
  rewrite (le_bytes_app 8 8).
  f_equal; apply le_bytes_eqm; change (256 ^ Z.of_nat 8) with (2 ^ 64); unfold u64, wrap.
  - rewrite Z.mod_mod, Z.shiftl_mul_pow2, Zmult_mod_idemp_l by lia. f_equal. lia.
  - apply Z.bits_inj'. intros i Hi. rewrite !Z.testbit_mod_pow2 by lia.
    destruct (Z.ltb_spec i 64) as [H64|H64]; [|reflexivity]. cbn [andb].
    rewrite Z.lor_spec, Z.testbit_mod_pow2, Z.shiftl_spec, Z.shiftr_spec by lia.
    rewrite <- !Z.shiftr_div_pow2, Z.shiftr_spec by lia.
    replace (8 * len) with (Z.shiftl len 3) by (rewrite Z.shiftl_mul_pow2; lia).
    rewrite Z.shiftl_spec by lia.
    replace (i <? 64) with true by (symmetry; apply Z.ltb_lt; lia). cbn [andb].
    destruct (Z.ltb_spec i 3) as [H3|H3].
    + rewrite (Z.testbit_neg_r _ (i - 3)) by lia. rewrite Z.testbit_mod_pow2 by lia.
      replace (i + 61 <? 64) with true by (symmetry; apply Z.ltb_lt; lia). cbn [orb andb]. f_equal. lia.
    + rewrite !Z.testbit_mod_pow2, Z.shiftr_spec by lia.
      replace (i + 61 <? 64) with false by (symmetry; apply Z.ltb_ge; lia).
      replace (i - 3 <? 64) with true by (symmetry; apply Z.ltb_lt; lia).
      cbn [andb]. rewrite orb_false_r. f_equal. lia.
Qed.


Lemma absorb_good512 h msg : good512 h -> good512 (absorb 128 SHA2.fips_sha512 h msg).
Proof. intros Hh. unfold absorb. apply (fold_inv good512); [reflexivity|exact Hh]. Qed.

Lemma end512_digest iv ctx msg outsize :
  represents512 iv ctx msg ->
  exists ctx', sha512384_end cfg ctx outsize
               = Some (ctx', digest512 iv outsize msg, Z.of_nat outsize).
Proof.
  intros [Et Hb]. unfold sha512384_end, digest512. rewrite Et, bufpos_127. cbv zeta.
  set (lb := be_bytes 16 (8 * Z.of_nat (length msg))).
  assert (Hl16 : length lb = 16%nat) by apply length_be_bytes.
  match goal with |- context [end_loop _ _ _ _ ?st _ _ _] => set (store := st) end.
  destruct (buffered_end 128 block128 _ SHA2.fips_sha512 good512 [] call512_spec
              (fun _ _ _ => eq_refl) iv msg _ _ lb store Hb) as (wb' & E & _).
  - apply bytes_be_bytes.
  - rewrite Hl16. change (block_bytes 128) with 128%nat. lia.
  - intros wb Hwb. change (block_bytes 128) with 128%nat in Hwb. unfold store, lb.
    rewrite !le_bytes_bswap_64, <- (length_field128 (Z.of_nat (length msg))) by lia.
    rewrite <- blit_blit; autorewrite with len; [reflexivity|]. change (block_bytes 128) with 128%nat. lia.
  - rewrite Hl16 in E. change (block_bytes 128) with (2 ^ 7)%nat in E.
    pose proof (Nat.mod_upper_bound (length msg) (2 ^ 7) ltac:(discriminate)) as Hm.
    change (2 ^ 7)%nat with 128%nat in *. unfold u32. rewrite wrap_small by (red; lia).
    rewrite Nat2Z.id. change (Z.of_nat 16) with 16 in E. rewrite E. cbn [bind].
    set (h := absorb _ _ _ _).
    assert (Hh : length h = 8%nat) by (apply absorb_good512, Hb).
    pose proof (fold_upd_map bswap_64 h []) as Ef. rewrite Hh in Ef. rewrite Ef, app_nil_r, map_map.
    rewrite (map_ext _ (be_bytes 8)) by exact le_bytes_bswap_64. eexists. reflexivity.
Qed.
End Correct.

(** C7. MD5: on a context with any contents, [md5_begin], then [md5_hash] on
    any pieces, then [md5_end] return, and write the 16 bytes of the digest
    RFC 1321 defines of the whole message, in each of the code's four
    size/speed configurations. *)
Theorem md5_stream cfg ctx chunks :
  stack_ok cfg -> ctx_ok ctx -> Forall bytes chunks ->
  exists ctx', (let* ctx := fold_opt (md5_hash cfg) chunks (md5_begin ctx) in md5_end cfg ctx)
               = Some (ctx', digest md5_process_block64 (concat chunks), 16).
Proof.
  intros Hs Hc Hb.
  destruct (fold_opt_concat _ _ _ (hash_represents cfg md5_process_block64) _ _ _ Hb
              (md5_begin_represents cfg ctx Hc)) as (ctx1 & -> & H1).
  apply md5_end_digest; assumption.
Qed.

(** SHA-1: begin, hash on any pieces and end write the 20 bytes of the
    digest FIPS 180 defines of the whole message, in each configuration. *)
Theorem sha1_stream cfg ctx chunks :
  stack_ok cfg -> ctx_ok ctx -> Forall bytes chunks ->
  exists ctx', (let* ctx := fold_opt (md5_hash cfg) chunks (sha1_begin ctx) in sha1_end cfg ctx)
               = Some (ctx', digest sha1_process_block64 (concat chunks), 20).
Proof.
  intros Hs Hc Hb.
  destruct (fold_opt_concat _ _ _ (hash_represents cfg sha1_process_block64) _ _ _ Hb
              (sha1_begin_represents cfg ctx Hc)) as (ctx1 & -> & H1).
  destruct (sha1_end_digest cfg Hs sha1_process_block64 _ _ ltac:(discriminate) H1) as (ctx2 & E & _).
  exists ctx2. exact E.
Qed.

(** C8. SHA-256: begin, hash on any pieces and end write the 32 bytes of the
    digest FIPS 180 defines of the whole message, whether the round constants
    are kept as 32-bit words or as the upper halves of those of SHA-512. *)
Theorem sha256_stream cfg ctx chunks :
  stack_ok cfg -> ctx_ok ctx -> Forall bytes chunks ->
  exists ctx', (let* ctx := fold_opt (md5_hash cfg) chunks (sha256_begin ctx) in sha1_end cfg ctx)
               = Some (ctx', digest sha256_process_block64 (concat chunks), 32).
Proof.
  intros Hs Hc Hb.
  destruct (fold_opt_concat _ _ _ (hash_represents cfg sha256_process_block64) _ _ _ Hb
              (sha256_begin_represents cfg ctx Hc)) as (ctx1 & -> & H1).
  destruct (sha1_end_digest cfg Hs sha256_process_block64 _ _ ltac:(discriminate) H1) as (ctx2 & E & _).
  exists ctx2. exact E.
Qed.


(** *** Witnesses: the message "abc" in two pieces *)

Definition abc : list (list Z) := [[97]; [98; 99]].
Definition cfg0 : config :=
  {| MD5_SMALL := 1; SHA1_SMALL := 0; NEED_SHA512 := true; stack := fun n _ _ => repeat 7 n |}.
Definition ctx0 : md5_ctx_t := mk_ctx (repeat 1 64) md5_process_block64 5 (repeat 9 8).
Definition ctx512_0 : sha512_ctx_t := mk_ctx512 (3, 4) (repeat 9 8) (repeat 1 128).

Lemma stack0 : stack_ok cfg0.
Proof. intros n h wb. apply repeat_length. Qed.
Lemma ctx0_ok : ctx_ok ctx0.
Proof. split; [reflexivity|]. split; [reflexivity|]. repeat constructor; vm_compute; congruence. Qed.
Lemma abc_bytes : Forall bytes abc.
Proof. repeat constructor; vm_compute; congruence. Qed.
Lemma abc_small : Forall small_piece abc.
Proof. repeat constructor; vm_compute; congruence. Qed.

Lemma md5_stream_witness :
  exists ctx', (let* ctx := fold_opt (md5_hash cfg0) abc (md5_begin ctx0) in md5_end cfg0 ctx)
  = Some (ctx', [144; 1; 80; 152; 60; 210; 79; 176; 214; 150; 63; 125; 40; 225; 127; 114], 16).
Proof. exact (md5_stream cfg0 ctx0 abc stack0 ctx0_ok abc_bytes). Defined.

Lemma sha1_stream_witness :
  exists ctx', (let* ctx := fold_opt (md5_hash cfg0) abc (sha1_begin ctx0) in sha1_end cfg0 ctx)
  = Some (ctx', [169; 153; 62; 54; 71; 6; 129; 106; 186; 62; 37; 113; 120; 80; 194; 108; 156; 208;
                 216; 157], 20).
Proof. exact (sha1_stream cfg0 ctx0 abc stack0 ctx0_ok abc_bytes). Defined.

Lemma sha256_stream_witness :
  exists ctx', (let* ctx := fold_opt (md5_hash cfg0) abc (sha256_begin ctx0) in sha1_end cfg0 ctx)
  = Some (ctx', [186; 120; 22; 191; 143; 1; 207; 234; 65; 65; 64; 222; 93; 174; 34; 35; 176; 3; 97;
                 163; 150; 23; 122; 156; 180; 16; 255; 97; 242; 0; 21; 173], 32).
Proof.
  destruct (sha256_stream cfg0 ctx0 abc stack0 ctx0_ok abc_bytes) as (ctx' & E).
  exists ctx'. rewrite E. vm_compute. reflexivity.
Defined.

End HashCtx.
