(* ===== verification/Bitops.v ===== *)
(** * Exclusive or of buffers

    [libbb/bitops.c]: the exclusive or of two byte buffers, done in words of
    [long] where that is faster. The theorem: every variant is the exclusive
    or byte by byte. The variants in inline assembly for SSE are not modelled. *)

From Stdlib Require Import ZArith List Lia Bool.
From S2P Require Import Prelude Words.
Import ListNotations.
Local Open Scope Z_scope.

(** ** Definitions *)

(** The exclusive or of two buffers, byte by byte. *)
Definition xor_bytes (a b : list Z) : list Z := map (fun '(x, y) => Z.lxor x y) (combine a b).

(** [*(long* )d = *(long* )s1 ^ *(long* )s2], with a [long] of [sz] bytes:
    the bytes stored. *)
Definition xor_at (sz : nat) (s1 s2 : list Z) : list Z :=
  le_bytes sz (Z.lxor (le_word (firstn sz s1)) (le_word (firstn sz s2))).

(** The loop on bytes: [while (count--)]. *)
Fixpoint xorbuf_bytes (s1 s2 : list Z) (count : nat) : list Z :=
  match count with
  | O => []
  | S count => Z.lxor (nth 0 s1 0) (nth 0 s2 0) :: xorbuf_bytes (tl s1) (tl s2) count
  end.

(** The loop on words, then that on bytes; the result is what is stored at
    [dst]. The sources are read before the destination is written, word by
    word, so [dst] may be one of them. *)
Fixpoint xorbuf_longs (fuel sz : nat) (s1 s2 : list Z) (count : nat) : list Z :=
  match fuel with
  | O => []
  | S fuel =>
      if (sz <=? count)%nat
      then xor_at sz s1 s2 ++ xorbuf_longs fuel sz (skipn sz s1) (skipn sz s2) (count - sz)
      else xorbuf_bytes s1 s2 count
  end.

Definition xorbuf_3 (unaligned_ok : bool) (sz : nat) (src1 src2 : list Z) (count : nat) : list Z :=
  if unaligned_ok then xorbuf_longs (count + 1) sz src1 src2 count
  else xorbuf_bytes src1 src2 count.

(** The new contents of [dst]. *)
Definition xorbuf (unaligned_ok : bool) (sz : nat) (dst src : list Z) (count : nat) : list Z :=
  xorbuf_3 unaligned_ok sz dst src count ++ skipn count dst.

(** [d[0] ^= s[0]; d[1] ^= s[1]] and, for a [long] of four bytes, two more. *)
Definition xorbuf16_aligned_long (sz : nat) (dst src : list Z) : list Z :=
  let step d i := blit d (sz * i) (xor_at sz (skipn (sz * i) d) (skipn (sz * i) src)) in
  let d := step (step dst 0%nat) 1%nat in
  if (sz =? 4)%nat then step (step d 2%nat) 3%nat else d.

(** [do ... while (--count != 0)] *)
Definition xorbuf64_3_aligned64 (sz : nat) (src1 src2 : list Z) : list Z :=
  concat (map (fun k => le_bytes sz (Z.lxor (word_at sz k src1) (word_at sz k src2)))
              (seq 0 (64 / sz))).

Definition xorbuf16 (unaligned_ok aligned : bool) (sz : nat) (dst src : list Z) : list Z :=
  if unaligned_ok || aligned then xorbuf16_aligned_long sz dst src
  else xorbuf unaligned_ok sz dst src 16.

(** ** Theorems *)

Lemma lxor_word x y w v :
  in_u 8 x -> in_u 8 y -> Z.lxor (x + 256 * w) (y + 256 * v) = Z.lxor x y + 256 * Z.lxor w v.
Proof.
  intros Hx Hy. change 256 with (2 ^ 8). rewrite !(Z.mul_comm (2 ^ 8)), <- !Z.shiftl_mul_pow2 by lia.
  rewrite !add_shiftl_lxor by (try apply in_u_lxor; auto; lia). rewrite Z.shiftl_lxor.
  rewrite !Z.lxor_assoc. f_equal. rewrite <- !Z.lxor_assoc. f_equal. apply Z.lxor_comm.
Qed.

Lemma lxor_bytes a b :
  bytes a -> bytes b -> length a = length b ->
  Z.lxor (le_word a) (le_word b) = le_word (xor_bytes a b).
Proof.
  intros Ha. revert b. induction Ha as [|x a Hx Ha IH]; intros [|y b] Hb Hl; try discriminate; [reflexivity|].
  inversion Hb; subst. cbn [le_word xor_bytes combine map].
  rewrite lxor_word, IH by auto. reflexivity.
Qed.

Lemma bytes_xor a b : bytes a -> bytes b -> bytes (xor_bytes a b).
Proof.
  intros Ha. revert b. induction Ha as [|x a Hx Ha IH]; intros [|y b] Hb; try constructor.
  - inversion Hb; subst. apply in_u_lxor; auto; lia.
  - inversion Hb; subst. apply IH; auto.
Qed.

Lemma length_xor a b : length a = length b -> length (xor_bytes a b) = length b.
Proof. intros E. unfold xor_bytes. rewrite length_map, length_combine. lia. Qed.

Lemma xor_app a a' b b' :
  length a = length b -> xor_bytes (a ++ a') (b ++ b') = xor_bytes a b ++ xor_bytes a' b'.
Proof.
  revert b; induction a as [|x a IH]; intros [|y b] E; try discriminate; [reflexivity|].
  unfold xor_bytes in *. cbn [app combine map]. f_equal. apply IH. injection E; auto.
Qed.

Lemma xor_comm a b : xor_bytes a b = xor_bytes b a.
Proof.
  revert b; induction a as [|x a IH]; intros [|y b]; try reflexivity.
  unfold xor_bytes in *. cbn [combine map]. rewrite IH, Z.lxor_comm. reflexivity.
Qed.

Lemma xor_rev a b : length a = length b -> xor_bytes (rev a) (rev b) = rev (xor_bytes a b).
Proof.
  revert b; induction a as [|x a IH]; intros [|y b] E; try discriminate; [reflexivity|]. injection E as E.
  cbn [rev]. rewrite xor_app, IH by (rewrite ?length_rev; exact E). reflexivity.
Qed.

Lemma xor_word sz a b :
  bytes a -> bytes b -> length a = sz -> length b = sz ->
  le_bytes sz (Z.lxor (le_word a) (le_word b)) = xor_bytes a b.
Proof.
  intros Ha Hb La Lb. rewrite lxor_bytes by (auto; lia).
  rewrite <- Lb, <- (length_xor a b) by lia. apply le_bytes_word, bytes_xor; assumption.
Qed.

Lemma xor_words sz n T U :
  bytes T -> bytes U -> length T = (sz * n)%nat -> length U = (sz * n)%nat ->
  concat (map (fun k => le_bytes sz (Z.lxor (word_at sz k T) (word_at sz k U))) (seq 0 n))
  = xor_bytes T U.
Proof.
  revert T U; induction n as [|n IH]; intros T U HT HU LT LU.
  - rewrite Nat.mul_0_r in *. destruct T; [reflexivity|discriminate].
  - rewrite Nat.mul_succ_r in *. cbn [seq map concat].
    rewrite <- seq_shift, map_map.
    assert (Hw : forall k X, word_at sz (S k) X = word_at sz k (skipn sz X)).
    { intros k X. unfold word_at, slice. rewrite skipn_skipn. do 3 f_equal. lia. }
    rewrite (map_ext _ (fun k => le_bytes sz (Z.lxor (word_at sz k (skipn sz T)) (word_at sz k (skipn sz U)))))
      by (intros k; rewrite !Hw; reflexivity).
    rewrite IH by (rewrite ?length_skipn; auto using bytes_skipn; lia).
    unfold word_at, slice. rewrite Nat.mul_0_r. cbn [skipn].
    rewrite xor_word, <- xor_app, !firstn_skipn by (rewrite ?length_firstn; auto using bytes_firstn; lia).
    reflexivity.
Qed.

Lemma xorbuf_bytes_spec s1 s2 count :
  (count <= length s1)%nat -> (count <= length s2)%nat ->
  xorbuf_bytes s1 s2 count = xor_bytes (firstn count s1) (firstn count s2).
Proof.
  revert s1 s2; induction count as [|count IH]; intros [|x s1] [|y s2] H1 H2; cbn in *; try lia; try reflexivity.
  unfold xor_bytes. cbn [combine map]. f_equal. apply IH; lia.
Qed.

Lemma xor_split k s1 s2 count :
  (k <= count)%nat -> (count <= length s1)%nat -> (count <= length s2)%nat ->
  xor_bytes (firstn count s1) (firstn count s2)
  = xor_bytes (firstn k s1) (firstn k s2)
    ++ xor_bytes (firstn (count - k) (skipn k s1)) (firstn (count - k) (skipn k s2)).
Proof.
  intros Hk H1 H2. rewrite <- xor_app by (rewrite !length_firstn; lia).
  f_equal; rewrite <- (firstn_skipn k (firstn count _)), firstn_firstn, skipn_firstn_comm; f_equal; f_equal; lia.
Qed.

Lemma xor_at_spec sz s1 s2 :
  bytes s1 -> bytes s2 -> (sz <= length s1)%nat -> (sz <= length s2)%nat ->
  xor_at sz s1 s2 = xor_bytes (firstn sz s1) (firstn sz s2).
Proof. intros. apply xor_word; auto with bytes; rewrite length_firstn; lia. Qed.

Lemma xorbuf_longs_spec fuel sz s1 s2 count :
  (0 < sz)%nat -> bytes s1 -> bytes s2 -> (count < fuel)%nat ->
  (count <= length s1)%nat -> (count <= length s2)%nat ->
  xorbuf_longs fuel sz s1 s2 count = xor_bytes (firstn count s1) (firstn count s2).
Proof.
  intros Hsz. revert s1 s2 count; induction fuel as [|fuel IH]; intros s1 s2 count B1 B2 Hf H1 H2; [lia|].
  cbn [xorbuf_longs]. destruct (Nat.leb_spec sz count); [|apply xorbuf_bytes_spec; assumption].
  rewrite xor_at_spec, IH by (auto with bytes; rewrite ?length_skipn; lia).
  rewrite <- xor_split by assumption. reflexivity.
Qed.

Lemma xorbuf_3_spec unaligned_ok sz s1 s2 count :
  (0 < sz)%nat -> bytes s1 -> bytes s2 -> (count <= length s1)%nat -> (count <= length s2)%nat ->
  xorbuf_3 unaligned_ok sz s1 s2 count = xor_bytes (firstn count s1) (firstn count s2).
Proof.
  intros. unfold xorbuf_3. destruct unaligned_ok; [apply xorbuf_longs_spec|apply xorbuf_bytes_spec]; auto; lia.
Qed.

(** One word of a buffer replaced by its exclusive or. *)
Lemma blit_xor sz i d s :
  bytes d -> bytes s -> length s = length d -> (sz * i + sz <= length d)%nat ->
  blit (xor_bytes (firstn (sz * i) d) (firstn (sz * i) s) ++ skipn (sz * i) d) (sz * i)
       (xor_at sz (skipn (sz * i) (xor_bytes (firstn (sz * i) d) (firstn (sz * i) s) ++ skipn (sz * i) d))
                  (skipn (sz * i) s))
  = xor_bytes (firstn (sz * S i) d) (firstn (sz * S i) s) ++ skipn (sz * S i) d.
Proof.
  intros Bd Bs Hl Hi. set (k := (sz * i)%nat) in *.
  replace (sz * S i)%nat with (k + sz)%nat by lia.
  set (h := xor_bytes (firstn k d) (firstn k s)).
  assert (Hh : length h = k) by (unfold h; rewrite length_xor; rewrite !length_firstn; lia).
  assert (Hsk : forall m, skipn (k + m) (h ++ skipn k d) = skipn (k + m) d).
  { intros m. rewrite skipn_app, skipn_all2, Hh, skipn_skipn by lia. cbn [app]. f_equal. lia. }
  rewrite <- (Nat.add_0_r k) at 3. rewrite Hsk, Nat.add_0_r.
  rewrite xor_at_spec by (auto with bytes; rewrite length_skipn; lia).
  rewrite (xor_split k d s (k + sz)) by lia. replace (k + sz - k)%nat with sz by lia. fold h.
  unfold blit. rewrite firstn_app, Hh, Nat.sub_diag, firstn_O, app_nil_r, <- Hh, firstn_all, Hh.
  rewrite <- app_assoc. do 2 f_equal. rewrite length_xor; rewrite !length_firstn, !length_skipn; [|lia].
  rewrite Nat.min_l, Hsk by lia. reflexivity.
Qed.

Lemma xorbuf16_aligned_spec sz d s :
  sz = 4%nat \/ sz = 8%nat -> bytes d -> bytes s -> length d = 16%nat -> length s = 16%nat ->
  xorbuf16_aligned_long sz d s = xor_bytes d s.
Proof.
  intros Hsz Bd Bs Ld Ls.
  set (st := fun d i => blit d (sz * i) (xor_at sz (skipn (sz * i) d) (skipn (sz * i) s))).
  assert (H : forall n, (sz * n <= 16)%nat ->
    fold_left st (seq 0 n) d = xor_bytes (firstn (sz * n) d) (firstn (sz * n) s) ++ skipn (sz * n) d).
  { induction n as [|n IH]; intros Hn; [rewrite Nat.mul_0_r; reflexivity|].
    rewrite seq_S, fold_left_app, IH by lia. apply blit_xor; auto; lia. }
  destruct Hsz as [-> | ->].
  - change (fold_left st (seq 0 4) d = xor_bytes d s). rewrite H by lia.
    rewrite !firstn_all2, skipn_all2, app_nil_r by lia. reflexivity.
  - change (fold_left st (seq 0 2) d = xor_bytes d s). rewrite H by lia.
    rewrite !firstn_all2, skipn_all2, app_nil_r by lia. reflexivity.
Qed.

Lemma xorbuf16_spec unaligned_ok aligned sz d s :
  sz = 4%nat \/ sz = 8%nat -> bytes d -> bytes s -> length d = 16%nat -> length s = 16%nat ->
  xorbuf16 unaligned_ok aligned sz d s = xor_bytes d s.
Proof.
  intros Hsz Bd Bs Ld Ls. unfold xorbuf16, xorbuf.
  destruct (unaligned_ok || aligned); [apply xorbuf16_aligned_spec; assumption|].
  rewrite xorbuf_3_spec, !firstn_all2, skipn_all2, app_nil_r by (auto; destruct Hsz; lia). reflexivity.
Qed.

(** Every way the code has of xoring buffers (by words of four or eight
    bytes then bytes, or by bytes; in place; 16 bytes aligned or not; 64 bytes)
    gives the exclusive or byte by byte, and leaves the bytes after [count]. *)
Theorem xorbuf_correct unaligned_ok aligned sz d s count :
  sz = 4%nat \/ sz = 8%nat -> bytes d -> bytes s -> length s = length d -> (count <= length d)%nat ->
  xorbuf unaligned_ok sz d s count = xor_bytes (firstn count d) (firstn count s) ++ skipn count d
  /\ (length d = 16%nat -> xorbuf16 unaligned_ok aligned sz d s = xor_bytes d s)
  /\ (length d = 64%nat -> xorbuf64_3_aligned64 sz d s = xor_bytes d s).
Proof.
  intros Hsz Bd Bs Hl Hc. split; [|split].
  - unfold xorbuf. rewrite xorbuf_3_spec by (auto; destruct Hsz; lia). reflexivity.
  - intros Ld. apply xorbuf16_spec; auto; lia.
  - intros Ld. apply xor_words; auto; destruct Hsz as [-> | ->]; simpl; lia.
Qed.

Lemma xorbuf_correct_witness :
  xorbuf true 8 [1; 2; 3; 4; 5; 6; 7; 8; 9; 10] [1; 1; 1; 1; 1; 1; 1; 1; 1; 1] 9
  = [0; 3; 2; 5; 4; 7; 6; 9; 8; 10].
Proof.
  apply (xorbuf_correct true true 8 [1; 2; 3; 4; 5; 6; 7; 8; 9; 10] [1; 1; 1; 1; 1; 1; 1; 1; 1; 1] 9);
    [right; reflexivity|repeat constructor; vm_compute; congruence..|reflexivity|vm_compute; lia].
Defined.
