(* ===== verification/Hmac.v ===== *)
(** * HMAC, the TLS pseudo-random function and PBKDF2

    [libbb/hash_hmac.c] (the version without the Windows CNG API),
    [prf_hmac_sha256] of [networking/tls.c] and [PBKDF2_SHA256] of
    [libbb/yescrypt/alg-sha256.c]. They use a hash through three functions;
    what those promise is the class [StreamHash], which the contexts of
    [HashCtx] implement, and the theorems here are proved against it: the
    code computes HMAC of RFC 2104, [P_hash] of RFC 5246 and PBKDF2 of
    RFC 8018. *)

From Stdlib Require Import ZArith List Lia Bool.
From S2P Require Import Prelude Words Bitops HashBuf Md5 Sha1 Sha2 HashCtx.
Import ListNotations.
Import HashCtx.
Local Open Scope Z_scope.
Local Open Scope bb_scope.

Module Hmac.

(** ** Definitions *)

Definition SHA2_INSIZE : nat := 64.
Definition SHA256_OUTSIZE : nat := 32.

Section Code.
(** The hash context type, with [begin], [md5sha_hash] and [sha_end]. *)
Context {md5sha_ctx_t : Type}.
Variable begin : md5sha_ctx_t -> md5sha_ctx_t.
Variable md5sha_hash : md5sha_ctx_t -> list Z -> option md5sha_ctx_t.
Variable sha_end : md5sha_ctx_t -> option (md5sha_ctx_t * list Z * Z).

Record hmac_ctx_t := mk_hmac {
  hashed_key_xor_ipad : md5sha_ctx_t;
  hashed_key_xor_opad : md5sha_ctx_t
}.

(** The two loops that fill [key_xor_ipad] or [key_xor_opad]; the array
    holds anything before. *)
Definition fill_key_xor (pad : Z) (key : list Z) (key_xor_pad : list Z) : list Z :=
  let key_size := length key in
  let a := fold_left (fun a i => upd a i (Z.lxor (nth i key 0) pad)) (seq 0 key_size) key_xor_pad in
  fold_left (fun a i => upd a i pad) (seq key_size (SHA2_INSIZE - key_size)) a.

(** [ipad0] and [opad0]: the uninitialised arrays. *)
Definition hmac_begin (ipad0 opad0 : list Z) (ctx : hmac_ctx_t) (key : list Z) : option hmac_ctx_t :=
  let* (ictx, key) :=
    (if (SHA2_INSIZE <? length key)%nat then
       let ictx := begin (hashed_key_xor_ipad ctx) in
       let* ictx := md5sha_hash ictx key in
       let* (ictx, tempkey, key_size) := sha_end ictx in
       Some (ictx, firstn (Z.to_nat key_size) tempkey)
     else Some (hashed_key_xor_ipad ctx, key)) in
  let key_xor_ipad := fill_key_xor 0x36 key ipad0 in
  let key_xor_opad := fill_key_xor 0x5c key opad0 in
  let ictx := begin ictx in
  let octx := begin (hashed_key_xor_opad ctx) in
  let* ictx := md5sha_hash ictx (firstn SHA2_INSIZE key_xor_ipad) in
  let* octx := md5sha_hash octx (firstn SHA2_INSIZE key_xor_opad) in
  Some (mk_hmac ictx octx).

Definition hmac_hash (ctx : hmac_ctx_t) (data : list Z) : option hmac_ctx_t :=
  let* ictx := md5sha_hash (hashed_key_xor_ipad ctx) data in
  Some (mk_hmac ictx (hashed_key_xor_opad ctx)).

(** The bytes at [out] and the value returned. *)
Definition hmac_end (ctx : hmac_ctx_t) : option (hmac_ctx_t * list Z * Z) :=
  let* (ictx, out, len) := sha_end (hashed_key_xor_ipad ctx) in
  let* octx := md5sha_hash (hashed_key_xor_opad ctx) (firstn (Z.to_nat len) out) in
  let* (octx, out, len) := sha_end octx in
  Some (mk_hmac ictx octx, out, len).

Definition hmac_block (ipad0 opad0 : list Z) (ctx : hmac_ctx_t) (key data : list Z)
  : option (list Z * Z) :=
  let* ctx := hmac_begin ipad0 opad0 ctx key in
  let* ctx := hmac_hash ctx data in
  let* (_, out, len) := hmac_end ctx in
  Some (out, len).

(** The arguments up to the [NULL] are the blocks of [va]. *)
Definition hmac_hash_v (ctx : hmac_ctx_t) (va : list (list Z)) : option hmac_ctx_t :=
  fold_opt (fun ctx block =>
    let* ictx := md5sha_hash (hashed_key_xor_ipad ctx) block in
    Some (mk_hmac ictx (hashed_key_xor_opad ctx))) va ctx.

(** Works on a copy; the caller's context is not changed. *)
Definition hmac_peek_hash (ctx : hmac_ctx_t) (va : list (list Z)) : option (list Z * Z) :=
  let tmpctx := ctx in
  let* tmpctx := hmac_hash_v tmpctx va in
  let* (_, out, len) := hmac_end tmpctx in
  Some (out, len).

(** The loop of [prf_hmac_sha256]; [a] is the buffer [a], the result the
    bytes stored from [out_p] on. *)
Fixpoint prf_loop (fuel : nat) (ctx : hmac_ctx_t) (label seed a : list Z) (outbuf_size : nat)
  : option (list Z) :=
  match fuel with
  | O => None
  | S fuel =>
      let MAC_size := SHA256_OUTSIZE in
      if (outbuf_size <=? MAC_size)%nat then
        let* (a, _) := hmac_peek_hash ctx [a; label; seed] in
        Some (firstn outbuf_size a)
      else
        let* (out, _) := hmac_peek_hash ctx [a; label; seed] in
        let* (a, _) := hmac_peek_hash ctx [a] in
        let* rest := prf_loop fuel ctx label seed a (outbuf_size - MAC_size) in
        Some (out ++ rest)
  end.

Definition prf_hmac_sha256 (ipad0 opad0 : list Z) (ctx : hmac_ctx_t)
    (outbuf_size : nat) (secret label seed : list Z) : option (list Z) :=
  let* ctx := hmac_begin ipad0 opad0 ctx secret in
  let* (a, _) := hmac_peek_hash ctx [label; seed] in
  prf_loop (outbuf_size / SHA256_OUTSIZE + 1) ctx label seed a outbuf_size.

(** [T[k] ^= U[k]] over the words of the type [long], of [sz] bytes. *)
Definition xor_longs (sz : nat) (T U : list Z) : list Z :=
  concat (map (fun k => le_bytes sz (Z.lxor (word_at sz k T) (word_at sz k U))) (seq 0 (32 / sz))).

(** One iteration of the loop over [j]. *)
Definition pbkdf2_inner (sz : nat) (Phctx : hmac_ctx_t) (st : option (list Z * list Z))
  : option (list Z * list Z) :=
  let* (U, T) := st in
  let* (U, _) := hmac_peek_hash Phctx [U] in
  Some (U, xor_longs sz T U).

Fixpoint pbkdf2_loop (fuel : nat) (sz : nat) (Phctx PShctx : hmac_ctx_t) (c i : Z) (dkLen : nat)
  : option (list Z) :=
  if (dkLen =? 0)%nat then Some [] else
  match fuel with
  | O => None
  | S fuel =>
      let i := u32 (i + 1) in
      let ivec := bswap_32 i in
      let* (T, _) := hmac_peek_hash PShctx [le_bytes 4 ivec] in
      let* (_, T) :=
        (if 1 <? c then Nat.iter (Z.to_nat (c - 1)) (pbkdf2_inner sz Phctx) (Some (T, T))
         else Some (T, T)) in
      let clen := if (32 <? dkLen)%nat then 32%nat else dkLen in
      let* rest := pbkdf2_loop fuel sz Phctx PShctx c i (dkLen - clen) in
      Some (firstn clen T ++ rest)
  end.

Definition PBKDF2_SHA256 (sz : nat) (ipad0 opad0 : list Z) (ctx : hmac_ctx_t)
    (passwd salt : list Z) (c : Z) (dkLen : nat) : option (list Z) :=
  let* Phctx := hmac_begin ipad0 opad0 ctx passwd in
  let* PShctx := hmac_hash Phctx salt in
  pbkdf2_loop (dkLen / 32 + 1) sz Phctx PShctx c 0 dkLen.
End Code.
Arguments hmac_ctx_t : clear implicits.

(** ** The definitions of the RFCs *)

Section Rfc.
Variable H : list Z -> list Z.

(** RFC 2104, with the block length 64. *)
Definition key64 (key : list Z) : list Z :=
  let key := if (64 <? length key)%nat then H key else key in
  key ++ repeat 0 (64 - length key).
Definition rfc_hmac (key text : list Z) : list Z :=
  H (map (Z.lxor 0x5c) (key64 key) ++ H (map (Z.lxor 0x36) (key64 key) ++ text)).

(** RFC 5246, section 5: [A n] is A(n). *)
Fixpoint A (secret seed : list Z) (n : nat) : list Z :=
  match n with
  | O => seed
  | S n => rfc_hmac secret (A secret seed n)
  end.
Definition P_hash (secret seed : list Z) (blocks : nat) : list Z :=
  concat (map (fun i => rfc_hmac secret (A secret seed i ++ seed)) (seq 1 blocks)).

(** RFC 8018, section 5.2: [U n] is U_(n+1). *)
Fixpoint U (P S : list Z) (i : Z) (n : nat) : list Z :=
  match n with
  | O => rfc_hmac P (S ++ be_bytes 4 i)
  | Datatypes.S n => rfc_hmac P (U P S i n)
  end.
Definition F (P S : list Z) (c : nat) (i : Z) : list Z :=
  fold_left (fun t n => xor_bytes t (U P S i n)) (seq 1 (c - 1)) (U P S i 0).
Definition rfc_pbkdf2 (P S : list Z) (c dkLen : nat) : list Z :=
  firstn dkLen (concat (map (fun i => F P S c (Z.of_nat i)) (seq 1 (dkLen / 32 + 1)))).
End Rfc.

(** ** What a hash promises *)

(** [ok c]: [c] is memory [begin] can be called on; [fed c m]: since [begin],
    [c] was given the bytes [m]. *)
Class StreamHash {ctx : Type} (begin : ctx -> ctx) (hash : ctx -> list Z -> option ctx)
    (fin : ctx -> option (ctx * list Z * Z)) := {
  H : list Z -> list Z;
  outsize : nat;
  ok : ctx -> Prop;
  fed : ctx -> list Z -> Prop;
  begin_fed : forall c, ok c -> fed (begin c) [];
  hash_fed : forall c m d, fed c m -> bytes d -> exists c', hash c d = Some c' /\ fed c' (m ++ d);
  end_fed : forall c m, fed c m -> exists c', fin c = Some (c', H m, Z.of_nat outsize) /\ ok c';
  H_length : forall m, length (H m) = outsize;
  H_bytes : forall m, bytes (H m);
  outsize_le : (outsize <= 64)%nat
}.

(** ** Theorems *)

Lemma xor_longs_bytes sz T U :
  sz = 4%nat \/ sz = 8%nat -> bytes T -> bytes U -> length T = 32%nat -> length U = 32%nat ->
  xor_longs sz T U = xor_bytes T U.
Proof. intros [-> | ->] **; apply xor_words; assumption. Qed.

(** *** HMAC *)

Lemma fill_key_xor_spec pad key a :
  length a = 64%nat -> (length key <= 64)%nat ->
  fill_key_xor pad key a = map (Z.lxor pad) (key ++ repeat 0 (64 - length key)).
Proof.
  intros Ha Hk. set (R := map _ _). set (I := fun t a => length a = 64%nat /\
    forall j, (j < t)%nat -> nth j a 0 = nth j R 0).
  assert (Hupd : forall t a v, (t < 64)%nat -> I t a -> v = nth t R 0 -> I (S t) (upd a t v)).
  { intros t b v Ht [Hl Hb] ->. split; [rewrite length_upd; exact Hl|]. intros j Hj.
    destruct (Nat.eq_dec j t) as [->|Hne]; [apply nth_upd_eq; lia|].
    rewrite nth_upd_ne by auto. apply Hb. lia. }
  assert (HR : forall t, (t < 64)%nat -> nth t R 0 = Z.lxor pad (nth t key 0)).
  { intros t Ht. unfold R. rewrite (nth_indep _ 0 (Z.lxor pad 0)), map_nth
      by (autorewrite with len; lia). f_equal.
    destruct (Nat.lt_ge_cases t (length key)); [apply app_nth1; assumption|].
    rewrite app_nth2, nth_repeat, nth_overflow by assumption. reflexivity. }
  assert (HI : I 64%nat (fill_key_xor pad key a)).
  { unfold fill_key_xor, SHA2_INSIZE. replace 64%nat with (length key + (64 - length key))%nat at 1 by lia.
    apply (fold_seq_inv I (fun a i => upd a i pad)).
    - intros i b Hi Hb. apply Hupd; [lia|exact Hb|].
      rewrite HR, nth_overflow, Z.lxor_0_r by lia. reflexivity.
    - apply (fold_seq_inv I (fun a i => upd a i (Z.lxor (nth i key 0) pad)) 0).
      + intros i b Hi Hb. apply Hupd; [lia|exact Hb|]. rewrite HR by lia. apply Z.lxor_comm.
      + split; [exact Ha|intros; lia]. }
  destruct HI as [Hl Hn]. apply (nth_ext _ _ 0 0).
  - rewrite Hl. unfold R. autorewrite with len. lia.
  - rewrite Hl. exact Hn.
Qed.

Section Client.
Context {ctx : Type} {begin : ctx -> ctx} {hash : ctx -> list Z -> option ctx}.
Context {fin : ctx -> option (ctx * list Z * Z)}.
Context {SH : StreamHash begin hash fin}.

(** Since [hmac_begin] with [key], the context was given [text]. *)
Definition hmac_fed (key : list Z) (c : hmac_ctx_t ctx) (text : list Z) : Prop :=
  fed (hashed_key_xor_ipad c) (map (Z.lxor 0x36) (key64 H key) ++ text)
  /\ fed (hashed_key_xor_opad c) (map (Z.lxor 0x5c) (key64 H key)).

Definition hmac_ok (c : hmac_ctx_t ctx) : Prop :=
  ok (hashed_key_xor_ipad c) /\ ok (hashed_key_xor_opad c).

Lemma length_key64 key : length (key64 H key) = 64%nat.
Proof.
  unfold key64. pose proof outsize_le. cbv zeta.
  destruct (Nat.ltb_spec 64 (length key)); autorewrite with len; rewrite ?H_length; lia.
Qed.

Lemma bytes_key64 pad key : in_u 8 pad -> bytes key -> bytes (map (Z.lxor pad) (key64 H key)).
Proof.
  intros Hp Hk. apply Forall_map.
  assert (Hb : bytes (key64 H key)).
  { unfold key64. apply Forall_app. split; [destruct (64 <? length key)%nat; [apply H_bytes|exact Hk]|].
    apply Forall_forall. intros x ->%repeat_spec. red; lia. }
  eapply Forall_impl; [|exact Hb]. intros x Hx. apply in_u_lxor; auto; lia.
Qed.

Lemma hmac_begin_fed ipad0 opad0 c key :
  length ipad0 = 64%nat -> length opad0 = 64%nat -> hmac_ok c -> bytes key ->
  exists c', hmac_begin begin hash fin ipad0 opad0 c key = Some c' /\ hmac_fed key c' [].
Proof.
  intros Hi Ho [Oi Oo] Hk. pose proof outsize_le. unfold hmac_begin.
  set (key' := if (64 <? length key)%nat then H key else key).
  assert (Hstart : exists ictx, ok ictx /\ (if (SHA2_INSIZE <? length key)%nat then
       bind (hash (begin (hashed_key_xor_ipad c)) key) (fun ictx => bind (fin ictx)
         (fun '(ictx, tempkey, key_size) => Some (ictx, firstn (Z.to_nat key_size) tempkey)))
     else Some (hashed_key_xor_ipad c, key)) = Some (ictx, key')).
  { unfold key'. change SHA2_INSIZE with 64%nat. destruct (64 <? length key)%nat; [|eauto].
    destruct (hash_fed _ [] key (begin_fed _ Oi) Hk) as (c1 & -> & H1). cbn [bind app] in *.
    destruct (end_fed _ _ H1) as (c2 & -> & H2). cbn [bind]. exists c2. split; [exact H2|].
    rewrite Nat2Z.id, <- (H_length key), firstn_all. reflexivity. }
  destruct Hstart as (ictx & Oi' & ->). cbn [bind].
  assert (Hk' : (length key' <= 64)%nat).
  { unfold key'. destruct (Nat.ltb_spec 64 (length key)); rewrite ?H_length; lia. }
  rewrite !fill_key_xor_spec by assumption. fold key'.
  change (key' ++ repeat 0 (64 - length key')) with (key64 H key).
  rewrite !firstn_all2 by (rewrite length_map, length_key64; reflexivity).
  destruct (hash_fed _ [] (map (Z.lxor 0x36) (key64 H key)) (begin_fed _ Oi')) as (c1 & -> & H1);
    [apply bytes_key64; [red; lia|exact Hk]|].
  destruct (hash_fed _ [] (map (Z.lxor 0x5c) (key64 H key)) (begin_fed _ Oo)) as (c2 & -> & H2);
    [apply bytes_key64; [red; lia|exact Hk]|].
  cbn [bind app] in *. eexists. split; [reflexivity|]. split; [|exact H2]. rewrite app_nil_r. exact H1.
Qed.

Lemma hmac_hash_fed key c text data :
  hmac_fed key c text -> bytes data ->
  exists c', hmac_hash hash c data = Some c' /\ hmac_fed key c' (text ++ data).
Proof.
  intros [Hi Ho] Hd. unfold hmac_hash.
  destruct (hash_fed _ _ _ Hi Hd) as (c1 & -> & H1). cbn [bind].
  eexists. split; [reflexivity|]. split; [|exact Ho]. rewrite app_assoc. exact H1.
Qed.

Lemma hmac_hash_v_fed key c text va :
  hmac_fed key c text -> Forall bytes va ->
  exists c', hmac_hash_v hash c va = Some c' /\ hmac_fed key c' (text ++ concat va).
Proof.
  intros Hc Hva. exact (fold_opt_concat _ _ _ (hmac_hash_fed key) va c text Hva Hc).
Qed.

Lemma hmac_end_fed key c text :
  hmac_fed key c text ->
  exists c', hmac_end hash fin c = Some (c', rfc_hmac H key text, Z.of_nat outsize).
Proof.
  intros [Hi Ho]. unfold hmac_end.
  destruct (end_fed _ _ Hi) as (c1 & -> & _). cbn [bind].
  rewrite Nat2Z.id, firstn_all2 by (rewrite H_length; lia).
  destruct (hash_fed _ _ _ Ho (H_bytes (map (Z.lxor 0x36) (key64 H key) ++ text))) as (c2 & -> & H2).
  cbn [bind]. destruct (end_fed _ _ H2) as (c3 & -> & _). cbn [bind]. eexists. reflexivity.
Qed.

Lemma hmac_peek_fed key c text va :
  hmac_fed key c text -> Forall bytes va ->
  hmac_peek_hash hash fin c va = Some (rfc_hmac H key (text ++ concat va), Z.of_nat outsize).
Proof.
  intros Hc Hva. unfold hmac_peek_hash.
  destruct (hmac_hash_v_fed _ _ _ _ Hc Hva) as (c1 & -> & H1). cbn [bind].
  destruct (hmac_end_fed _ _ _ H1) as (c2 & ->). reflexivity.
Qed.

Lemma hmac_block_rfc ipad0 opad0 c key data :
  length ipad0 = 64%nat -> length opad0 = 64%nat -> hmac_ok c -> bytes key -> bytes data ->
  hmac_block begin hash fin ipad0 opad0 c key data = Some (rfc_hmac H key data, Z.of_nat outsize).
Proof.
  intros Hi Ho Hc Hk Hd. unfold hmac_block.
  destruct (hmac_begin_fed _ _ _ _ Hi Ho Hc Hk) as (c1 & -> & H1). cbn [bind].
  destruct (hmac_hash_fed _ _ _ _ H1 Hd) as (c2 & -> & H2). cbn [bind].
  destruct (hmac_end_fed _ _ _ H2) as (c3 & ->). reflexivity.
Qed.

(** *** The pseudo-random function of TLS *)

Hypothesis outsize_32 : outsize = 32%nat.

(** The message in several blocks. *)
Lemma hmac_blocks_rfc ipad0 opad0 c key va :
  length ipad0 = 64%nat -> length opad0 = 64%nat -> hmac_ok c -> bytes key -> Forall bytes va ->
  exists c',
    (let* ctx := hmac_begin begin hash fin ipad0 opad0 c key in
     let* ctx := hmac_hash_v hash ctx va in
     hmac_end hash fin ctx) = Some (c', rfc_hmac H key (concat va), Z.of_nat outsize).
Proof.
  intros Hi Ho Hc Hk Hd. destruct (hmac_begin_fed _ _ _ _ Hi Ho Hc Hk) as (c1 & -> & H1). cbn [bind].
  destruct (hmac_hash_v_fed _ _ _ _ H1 Hd) as (c2 & -> & H2). cbn [bind].
  destruct (hmac_end_fed _ _ _ H2) as (c3 & ->). exists c3. reflexivity.
Qed.

Lemma bytes_hmac key text : bytes (rfc_hmac H key text).
Proof. apply H_bytes. Qed.
Lemma length_hmac key text : length (rfc_hmac H key text) = 32%nat.
Proof. unfold rfc_hmac. rewrite H_length. exact outsize_32. Qed.

Lemma prf_loop_spec secret c label seed :
  hmac_fed secret c [] -> bytes label -> bytes seed ->
  forall k fuel n size, (size < 32 * k)%nat -> (size / 32 < fuel)%nat ->
  prf_loop hash fin fuel c label seed (A H secret (label ++ seed) (S n)) size
  = Some (firstn size (concat (map (fun i => rfc_hmac H secret (A H secret (label ++ seed) i ++ label ++ seed))
                                   (seq (S n) k)))).
Proof.
  intros Hc Hl Hs. induction k as [|k IH]; intros fuel n size Hk Hf; [lia|].
  destruct fuel as [|fuel]; [lia|]. cbn [prf_loop].
  assert (Ha : bytes (A H secret (label ++ seed) (S n))) by apply bytes_hmac.
  rewrite (hmac_peek_fed secret c [] _ Hc) by auto. cbn [bind app concat]. rewrite app_nil_r.
  cbn [seq map concat]. set (g := rfc_hmac H secret (_ ++ label ++ seed)).
  assert (Hg : length g = 32%nat) by apply length_hmac.
  rewrite firstn_app, Hg. unfold SHA256_OUTSIZE.
  destruct (Nat.leb_spec size 32) as [Hsz|Hsz].
  - replace (size - 32)%nat with 0%nat by lia. rewrite firstn_O, app_nil_r. reflexivity.
  - rewrite (hmac_peek_fed secret c [] _ Hc) by auto. cbn [bind app concat]. rewrite app_nil_r.
    change (rfc_hmac H secret (A H secret (label ++ seed) (S n))) with (A H secret (label ++ seed) (S (S n))).
    rewrite IH.
    + cbn [bind]. rewrite (firstn_all2 g) by lia. reflexivity.
    + lia.
    + replace size with ((size - 32) + 1 * 32)%nat in Hf by lia. rewrite Nat.div_add in Hf by lia. lia.
Qed.

Lemma prf_rfc ipad0 opad0 c size secret label seed :
  length ipad0 = 64%nat -> length opad0 = 64%nat -> hmac_ok c ->
  bytes secret -> bytes label -> bytes seed ->
  prf_hmac_sha256 begin hash fin ipad0 opad0 c size secret label seed
  = Some (firstn size (P_hash H secret (label ++ seed) (size / 32 + 1))).
Proof.
  intros Hi Ho Hc Hk Hl Hs. unfold prf_hmac_sha256.
  destruct (hmac_begin_fed _ _ _ _ Hi Ho Hc Hk) as (c1 & -> & H1). cbn [bind].
  rewrite (hmac_peek_fed secret c1 [] _ H1) by auto. cbn [bind app concat]. rewrite app_nil_r.
  change (rfc_hmac H secret (label ++ seed)) with (A H secret (label ++ seed) 1).
  pose proof (Nat.div_mod_eq size 32). pose proof (Nat.mod_upper_bound size 32 ltac:(lia)).
  apply prf_loop_spec; auto; unfold SHA256_OUTSIZE; lia.
Qed.

(** *** PBKDF2 *)

Section Pbkdf2.
Variables P S : list Z.
Hypothesis HP : bytes P.
Hypothesis HS : bytes S.
Variable sz : nat.
Hypothesis Hsz : sz = 4%nat \/ sz = 8%nat.
Variables Phctx PShctx : hmac_ctx_t ctx.
Hypothesis HPh : hmac_fed P Phctx [].
Hypothesis HPSh : hmac_fed P PShctx S.

Lemma bytes_U i n : bytes (U H P S i n).
Proof. destruct n; apply bytes_hmac. Qed.
Lemma length_U i n : length (U H P S i n) = 32%nat.
Proof. destruct n; apply length_hmac. Qed.

Lemma F_ok i c : bytes (F H P S c i) /\ length (F H P S c i) = 32%nat.
Proof.
  apply (fold_inv (fun t => bytes t /\ length t = 32%nat)); [|auto using bytes_U, length_U].
  intros t n [Hb Hl]. split; [apply bytes_xor; auto using bytes_U|].
  rewrite length_xor; rewrite length_U; auto.
Qed.

Lemma inner_spec i m :
  Nat.iter m (pbkdf2_inner hash fin sz Phctx) (Some (U H P S i 0, U H P S i 0))
  = Some (U H P S i m, F H P S (Datatypes.S m) i).
Proof.
  induction m as [|m IH]; [reflexivity|]. cbn [Nat.iter nat_rect] in *. unfold Nat.iter in IH.
  rewrite IH. unfold pbkdf2_inner. cbn [bind].
  rewrite (hmac_peek_fed P Phctx [] _ HPh) by (repeat constructor; apply bytes_U).
  cbn [bind app concat]. rewrite app_nil_r.
  destruct (F_ok i (Datatypes.S m)) as [Hb Hl].
  change (rfc_hmac H P (U H P S i m)) with (U H P S i (Datatypes.S m)).
  rewrite xor_longs_bytes by auto using bytes_U, length_U.
  unfold F. cbn [Nat.sub]. rewrite Nat.sub_0_r, seq_S, fold_left_app. reflexivity.
Qed.

Lemma block_spec c i :
  1 <= c ->
  bind (if 1 <? c then Nat.iter (Z.to_nat (c - 1)) (pbkdf2_inner hash fin sz Phctx)
                         (Some (U H P S i 0, U H P S i 0))
        else Some (U H P S i 0, U H P S i 0)) (fun '(_, T) => Some T)
  = Some (F H P S (Z.to_nat c) i).
Proof.
  intros Hc. destruct (Z.ltb_spec 1 c) as [Hlt|Hle].
  - rewrite inner_spec. cbn [bind]. do 2 f_equal. lia.
  - replace c with 1 by lia. reflexivity.
Qed.

Lemma pbkdf2_loop_spec c :
  1 <= c -> forall k fuel n dkLen,
  (dkLen < 32 * k)%nat -> (dkLen / 32 < fuel)%nat -> Z.of_nat dkLen + 32 * Z.of_nat n <= 32 * (2 ^ 32 - 1) ->
  pbkdf2_loop hash fin fuel sz Phctx PShctx c (Z.of_nat n) dkLen
  = Some (firstn dkLen (concat (map (fun i => F H P S (Z.to_nat c) (Z.of_nat i))
                                    (seq (Datatypes.S n) k)))).
Proof.
  intros Hc. induction k as [|k IH]; intros fuel n dkLen Hk Hf Hn; [lia|].
  destruct fuel as [|fuel]; [lia|]. cbn [pbkdf2_loop].
  destruct (Nat.eqb_spec dkLen 0) as [->|Hnz]; [reflexivity|].
  unfold u32. rewrite wrap_small by (red; lia). rewrite le_bytes_bswap_32.
  rewrite (hmac_peek_fed P PShctx S _ HPSh) by (constructor; [apply bytes_be_bytes|constructor]).
  cbn [bind concat]. rewrite app_nil_r.
  replace (Z.of_nat n + 1) with (Z.of_nat (Datatypes.S n)) by lia.
  change (rfc_hmac H P (S ++ be_bytes 4 (Z.of_nat (Datatypes.S n)))) with (U H P S (Z.of_nat (Datatypes.S n)) 0).
  pose proof (block_spec c (Z.of_nat (Datatypes.S n)) Hc) as HT.
  destruct (if 1 <? c then _ else _) as [[U' T]|]; [|discriminate]. injection HT as ->.
  cbn [bind seq map concat]. destruct (F_ok (Z.of_nat (Datatypes.S n)) (Z.to_nat c)) as [_ Hl].
  set (T := F H P S _ _) in *. rewrite firstn_app, Hl.
  assert (Hdiv : (32 <= dkLen)%nat -> (dkLen / 32 = (dkLen - 32) / 32 + 1)%nat).
  { intros. replace dkLen with ((dkLen - 32) + 1 * 32)%nat at 1 by lia. apply Nat.div_add. lia. }
  destruct (Nat.ltb_spec 32 dkLen) as [Hd|Hd].
  - rewrite IH by (rewrite ?Hdiv in * by lia; lia). cbn [bind]. rewrite !firstn_all2 with (l := T) by lia.
    reflexivity.
  - rewrite Nat.sub_diag. replace (dkLen - 32)%nat with 0%nat by lia.
    destruct fuel; reflexivity.
Qed.
End Pbkdf2.

Lemma pbkdf2_rfc sz ipad0 opad0 c passwd salt n dkLen :
  sz = 4%nat \/ sz = 8%nat -> length ipad0 = 64%nat -> length opad0 = 64%nat -> hmac_ok c ->
  bytes passwd -> bytes salt -> 1 <= n -> Z.of_nat dkLen <= 32 * (2 ^ 32 - 1) ->
  PBKDF2_SHA256 begin hash fin sz ipad0 opad0 c passwd salt n dkLen
  = Some (rfc_pbkdf2 H passwd salt (Z.to_nat n) dkLen).
Proof.
  intros Hsz Hi Ho Hc Hp Hs Hn Hd. unfold PBKDF2_SHA256.
  destruct (hmac_begin_fed _ _ _ _ Hi Ho Hc Hp) as (c1 & -> & H1). cbn [bind].
  destruct (hmac_hash_fed _ _ _ _ H1 Hs) as (c2 & -> & H2). cbn [bind app] in *.
  pose proof (Nat.div_mod_eq dkLen 32). pose proof (Nat.mod_upper_bound dkLen 32 ltac:(lia)).
  apply (pbkdf2_loop_spec passwd salt sz Hsz c1 c2 H1 H2 n Hn (dkLen / 32 + 1) (dkLen / 32 + 1) 0); lia.
Qed.
End Client.

(** *** SHA-1 and SHA-256 are such hashes *)

Lemma length_put f n z : length (put f n z) = n.
Proof. destruct f; auto using length_le_bytes, length_be_bytes. Qed.
Lemma bytes_put f n z : bytes (put f n z).
Proof. destruct f; auto using bytes_le_bytes, bytes_be_bytes. Qed.

Lemma length_digest f m : length (digest f m) = (4 * words f)%nat.
Proof.
  unfold digest. set (h := absorb _ _ _ _).
  assert (Hh : length h = words f) by (apply absorb_good, iv_good). rewrite <- Hh. clearbody h. clear Hh.
  induction h as [|x h IH]; [reflexivity|]. cbn [map concat length]. rewrite length_app, length_put, IH. lia.
Qed.
Lemma bytes_digest f m : bytes (digest f m).
Proof.
  apply Forall_concat, Forall_map, Forall_forall. intros x _. apply bytes_put.
Qed.

Section Instances.
Context {cfg : config} (Hs : stack_ok cfg).

Definition sha1_stream_hash : StreamHash sha1_begin (md5_hash cfg) (sha1_end cfg).
Proof.
  refine {| H := digest sha1_process_block64; outsize := 20; ok := ctx_ok;
            fed := represents cfg sha1_process_block64 |}.
  - apply sha1_begin_represents.
  - apply hash_represents.
  - intros c m Hc. apply (sha1_end_digest cfg Hs sha1_process_block64); [discriminate|exact Hc].
  - apply length_digest.
  - apply bytes_digest.
  - lia.
Defined.

Definition sha256_stream_hash : StreamHash sha256_begin (md5_hash cfg) (sha1_end cfg).
Proof.
  refine {| H := digest sha256_process_block64; outsize := 32; ok := ctx_ok;
            fed := represents cfg sha256_process_block64 |}.
  - apply sha256_begin_represents.
  - apply hash_represents.
  - intros c m Hc. apply (sha1_end_digest cfg Hs sha256_process_block64); [discriminate|exact Hc].
  - apply length_digest.
  - apply bytes_digest.
  - lia.
Defined.
End Instances.

(** The memory a caller provides. *)
Definition arrays_ok (ipad0 opad0 : list Z) (c : hmac_ctx_t md5_ctx_t) : Prop :=
  length ipad0 = 64%nat /\ length opad0 = 64%nat
  /\ ctx_ok (hashed_key_xor_ipad c) /\ ctx_ok (hashed_key_xor_opad c).

(** C11. HMAC: [hmac_block] with SHA-1 or SHA-256 returns, and writes the
    value RFC 2104 defines for the key and the text; keys longer than a block
    are hashed first. *)
Theorem hmac_correct cfg ipad0 opad0 c key data :
  stack_ok cfg -> arrays_ok ipad0 opad0 c -> bytes key -> bytes data ->
  hmac_block sha1_begin (md5_hash cfg) (sha1_end cfg) ipad0 opad0 c key data
    = Some (rfc_hmac (digest sha1_process_block64) key data, 20)
  /\ hmac_block sha256_begin (md5_hash cfg) (sha1_end cfg) ipad0 opad0 c key data
    = Some (rfc_hmac (digest sha256_process_block64) key data, 32).
Proof.
  intros Hs (Hi & Ho & Oi & Oo) Hk Hd. split.
  - apply (hmac_block_rfc (SH := sha1_stream_hash Hs)); auto. split; assumption.
  - apply (hmac_block_rfc (SH := sha256_stream_hash Hs)); auto. split; assumption.
Qed.

(** C12. [prf_hmac_sha256] terminates and fills the output buffer with the
    first bytes of [P_SHA256(secret, label + seed)] of RFC 5246, for every
    size of the buffer. *)
Theorem prf_correct cfg ipad0 opad0 c size secret label seed :
  stack_ok cfg -> arrays_ok ipad0 opad0 c -> bytes secret -> bytes label -> bytes seed ->
  prf_hmac_sha256 sha256_begin (md5_hash cfg) (sha1_end cfg) ipad0 opad0 c size secret label seed
  = Some (firstn size (P_hash (digest sha256_process_block64) secret (label ++ seed) (size / 32 + 1))).
Proof.
  intros Hs (Hi & Ho & Oi & Oo) Hk Hl Hd.
  apply (prf_rfc (SH := sha256_stream_hash Hs)); auto. split; assumption.
Qed.

(** C13. [PBKDF2_SHA256] terminates and derives the key RFC 8018 defines with
    HMAC-SHA-256, whatever the size of [long] the exclusive or is done in, for
    one iteration or more. *)
Theorem pbkdf2_correct cfg sz ipad0 opad0 c passwd salt n dkLen :
  stack_ok cfg -> arrays_ok ipad0 opad0 c -> sz = 4%nat \/ sz = 8%nat ->
  bytes passwd -> bytes salt -> 1 <= n < 2 ^ 64 - 1 -> Z.of_nat dkLen <= 32 * (2 ^ 32 - 1) ->
  PBKDF2_SHA256 sha256_begin (md5_hash cfg) (sha1_end cfg) sz ipad0 opad0 c passwd salt n dkLen
  = Some (rfc_pbkdf2 (digest sha256_process_block64) passwd salt (Z.to_nat n) dkLen).
Proof.
  intros Hs (Hi & Ho & Oi & Oo) Hsz Hp Hsa Hn Hd.
  apply (pbkdf2_rfc (SH := sha256_stream_hash Hs)); auto; [split; assumption|lia..].
Qed.

(** *** Witnesses *)

Definition hmac0 : hmac_ctx_t md5_ctx_t := mk_hmac ctx0 ctx0.
Lemma arrays0 : arrays_ok (repeat 3 64) (repeat 4 64) hmac0.
Proof. repeat split; apply ctx0_ok. Qed.
Lemma key_bytes : bytes [107; 101; 121].
Proof. repeat constructor; vm_compute; congruence. Qed.

Lemma hmac_correct_witness :
  hmac_block sha256_begin (md5_hash cfg0) (sha1_end cfg0) (repeat 3 64) (repeat 4 64) hmac0
    [107; 101; 121] []
  = Some (rfc_hmac (digest sha256_process_block64) [107; 101; 121] [], 32).
Proof.
  exact (proj2 (hmac_correct cfg0 _ _ hmac0 [107; 101; 121] [] stack0 arrays0 key_bytes (Forall_nil _))).
Defined.

Lemma prf_correct_witness :
  prf_hmac_sha256 sha256_begin (md5_hash cfg0) (sha1_end cfg0) (repeat 3 64) (repeat 4 64) hmac0
    48 [107; 101; 121] [107; 101; 121] []
  = Some (firstn 48 (P_hash (digest sha256_process_block64) [107; 101; 121] [107; 101; 121] 2)).
Proof.
  exact (prf_correct cfg0 _ _ hmac0 48 [107; 101; 121] [107; 101; 121] [] stack0 arrays0
           key_bytes key_bytes (Forall_nil _)).
Defined.

Lemma pbkdf2_correct_witness :
  PBKDF2_SHA256 sha256_begin (md5_hash cfg0) (sha1_end cfg0) 8 (repeat 3 64) (repeat 4 64) hmac0
    [107; 101; 121] [107; 101; 121] 2 40
  = Some (rfc_pbkdf2 (digest sha256_process_block64) [107; 101; 121] [107; 101; 121] 2 40).
Proof.
  apply (pbkdf2_correct cfg0 8 _ _ hmac0 [107; 101; 121] [107; 101; 121] 2 40 stack0 arrays0);
    auto using key_bytes; vm_compute; intuition congruence.
Defined.
End Hmac.
