(* ===== verification/Sha3.v ===== *)
(** * SHA-3

    The Keccak permutation [sha3_process_block72] and [sha3_begin],
    [sha3_hash], [sha3_end] of [libbb/hash_md5_sha.c], in both size
    configurations and for both sizes of [long], on a little-endian machine.
    The theorems: the permutation is that of FIPS 202, and the bytes written
    at the end are the digest FIPS 202 defines, however the message is cut
    into pieces. (The bit-sliced variant is disabled in the source by
    [#if 0] and not modelled.) *)

From Stdlib Require Import ZArith List Lia Bool.
From S2P Require Import Prelude Words HashBuf.
Import ListNotations.
Local Open Scope Z_scope.
Local Open Scope bb_scope.

Module SHA3.

(** ** The permutation *)

Definition NROUNDS : nat := 24.

Definition IOTA_CONST : list Z := [
  0x0001; 0x8082; 0x808a; 0x8000; 0x808b; 0x0001; 0x8081; 0x8009; 0x008a; 0x0088; 0x8009; 0x000a;
  0x808b; 0x008b; 0x8089; 0x8003; 0x8002; 0x0080; 0x800a; 0x000a; 0x8081; 0x8080; 0x0001; 0x8008 ].
Definition IOTA_CONST_bit63 : Z := 0x3307dd00.
Definition IOTA_CONST_bit31 : Z := 0x16381b00.

Definition ROT_CONST : list Z := [
  1; 3; 6; 10; 15; 21; 28; 36; 45; 55; 2; 14;
  27; 41; 56; 8; 25; 43; 62; 18; 39; 61; 20; 44 ].
Definition PI_LANE : list nat := [
  10; 7; 11; 17; 18; 3; 5; 16; 8; 21; 24; 4;
  15; 23; 19; 13; 12; 2; 20; 14; 22; 9; 6; 1 ]%nat.

(** The build configuration: [CONFIG_SHA3_SMALL] clamped, and whether [long]
    has 64 bits. *)
Record config := { SHA3_SMALL : bool; long64 : bool }.

(** [state[i]] *)
Definition lane (s : list Z) (i : nat) : Z := nth i s 0.

(** [BC] has ten entries, the second five equal to the first; [junk] is what
    it holds before. *)
Definition theta (junk state : list Z) : list Z :=
  let BC := fold_left (fun BC x =>
      let v := Z.lxor (Z.lxor (Z.lxor (Z.lxor (lane state x) (lane state (x + 5)))
                 (lane state (x + 10))) (lane state (x + 15))) (lane state (x + 20)) in
      upd (upd BC x v) (x + 5) v) (seq 0 5) junk in
  fold_left (fun state x =>
      let temp := Z.lxor (lane BC (x + 4)) (rotl64 (lane BC (x + 1)) 1) in
      let state := upd state x (Z.lxor (lane state x) temp) in
      let state := upd state (x + 5) (Z.lxor (lane state (x + 5)) temp) in
      let state := upd state (x + 10) (Z.lxor (lane state (x + 10)) temp) in
      let state := upd state (x + 15) (Z.lxor (lane state (x + 15)) temp) in
      upd state (x + 20) (Z.lxor (lane state (x + 20)) temp)) (seq 0 5) state.

(** The loop of the small version. *)
Definition rho_pi_small (state : list Z) : list Z :=
  let t1 := lane state 1 in
  fst (fold_left (fun '(state, t1) x =>
      let t0 := lane state (nth x PI_LANE 0%nat) in
      let state := upd state (nth x PI_LANE 0%nat) (rotl64 t1 (nth x ROT_CONST 0)) in
      (state, t0)) (seq 0 24) (state, t1)).

Definition RhoPi_twice (x : nat) (st : list Z * Z) : list Z * Z :=
  let '(state, t1) := st in
  let t0 := lane state (nth x PI_LANE 0%nat) in
  let state := upd state (nth x PI_LANE 0%nat) (rotl64 t1 (nth x ROT_CONST 0)) in
  let t1 := lane state (nth (x + 1) PI_LANE 0%nat) in
  let state := upd state (nth (x + 1) PI_LANE 0%nat) (rotl64 t0 (nth (x + 1) ROT_CONST 0)) in
  (state, t1).

Definition rho_pi_unrolled (state : list Z) : list Z :=
  let st := (state, lane state 1) in
  let st := RhoPi_twice 2 (RhoPi_twice 0 st) in
  let st := RhoPi_twice 6 (RhoPi_twice 4 st) in
  let st := RhoPi_twice 10 (RhoPi_twice 8 st) in
  let st := RhoPi_twice 14 (RhoPi_twice 12 st) in
  let st := RhoPi_twice 18 (RhoPi_twice 16 st) in
  let st := RhoPi_twice 22 (RhoPi_twice 20 st) in
  fst st.

(** A row of five words, [d] words apart, from [x] on: the body of the chi
    loops; [not] is the complement at the word size. *)
Definition chi_row (not : Z -> Z) (d x : nat) (s : list Z) : list Z :=
  let BC0 := lane s (x + 0 * d) in
  let BC1 := lane s (x + 1 * d) in
  let BC2 := lane s (x + 2 * d) in
  let s := upd s (x + 0 * d) (Z.lxor BC0 (Z.land (not BC1) BC2)) in
  let BC3 := lane s (x + 3 * d) in
  let s := upd s (x + 1 * d) (Z.lxor BC1 (Z.land (not BC2) BC3)) in
  let BC4 := lane s (x + 4 * d) in
  let s := upd s (x + 2 * d) (Z.lxor BC2 (Z.land (not BC3) BC4)) in
  let s := upd s (x + 3 * d) (Z.lxor BC3 (Z.land (not BC4) BC0)) in
  upd s (x + 4 * d) (Z.lxor BC4 (Z.land (not BC0) BC1)).

(** [for (x = 0; x <= 20; x += 5)] *)
Definition chi64 (state : list Z) : list Z :=
  fold_left (fun s x => chi_row not64 1 x s) [0; 5; 10; 15; 20]%nat state.

(** The state seen as 32-bit words, low half first. *)
Definition halves (state : list Z) : list Z :=
  concat (map (fun w => [u32 w; Z.shiftr w 32]) state).
Fixpoint joined (s32 : list Z) : list Z :=
  match s32 with
  | lo :: hi :: s32 => Z.lor lo (Z.shiftl hi 32) :: joined s32
  | _ => []
  end.

(** [for (x = 0; x <= 40;)]: both halves of a row, then [x] is 10 more. *)
Definition chi32 (state : list Z) : list Z :=
  joined (fold_left (fun s x => chi_row not32 2 (x + 1) (chi_row not32 2 x s))
            [0; 10; 20; 30; 40]%nat (halves state)).

Definition iota (round : nat) (state : list Z) : list Z :=
  let r := Z.of_nat round in
  upd state 0 (Z.lxor (lane state 0)
    (Z.lor (Z.lor (nth round IOTA_CONST 0)
                  (Z.land (u32 (Z.shiftl IOTA_CONST_bit31 r)) 0x80000000))
           (u64 (Z.shiftl (Z.land (u32 (Z.shiftl IOTA_CONST_bit63 r)) 0x80000000) 32)))).

Definition keccak_round (cfg : config) (junk : list Z) (state : list Z) (round : nat) : list Z :=
  let state := theta junk state in
  let state := if SHA3_SMALL cfg then rho_pi_small state else rho_pi_unrolled state in
  let state := if long64 cfg then chi64 state else chi32 state in
  iota round state.

Definition sha3_process_block72 (cfg : config) (junk : list Z) (state : list Z) : list Z :=
  fold_left (keccak_round cfg junk) (seq 0 NROUNDS) state.

(** ** The sponge *)

Record sha3_ctx_t := mk_ctx3 {
  state : list Z;
  bytes_queued : Z;
  input_block_bytes : Z
}.

(** [buf[pos] ^= b] where [buf] are the bytes of [state]. *)
Definition xor_byte (state : list Z) (pos b : Z) : list Z :=
  let i := Z.to_nat (pos / 8) in
  upd state i (Z.lxor (lane state i) (Z.shiftl b (8 * (pos mod 8)))).

(** [buf[k] ^= v] where [buf] are the words of [sz] bytes of [state]. *)
Definition xor_long (sz : nat) (state : list Z) (k : nat) (v : Z) : list Z :=
  let pos := Z.of_nat (sz * k) in
  let i := Z.to_nat (pos / 8) in
  upd state i (Z.lxor (lane state i) (Z.shiftl v (8 * (pos mod 8)))).

Definition sha3_begin (ctx : sha3_ctx_t) : sha3_ctx_t := mk_ctx3 (repeat 0 25) 0 ((1600 - 512 * 2) / 8).

Section Sponge.
Variable cfg : config.
(** [BC] at a call with the given state. *)
Variable junk : list Z -> list Z.

Definition call_process (state : list Z) : list Z := sha3_process_block72 cfg (junk state) state.

(** Bytes xored in one after another from [bufpos] on. *)
Definition xor_bytes_at (st : list Z * Z) (data : list Z) : list Z * Z :=
  fold_left (fun '(state, bufpos) b => (xor_byte state bufpos b, u32 (bufpos + 1))) data st.

(** The loop of the small version; [n] is [ctx->input_block_bytes]. *)
Fixpoint hash_small (fuel : nat) (n : Z) (state : list Z) (bufpos : Z) (data : list Z)
  : option (list Z * Z) :=
  match fuel with
  | O => None
  | S fuel =>
      let len := Z.of_nat (length data) in
      let remaining := u32 (n - bufpos) in
      let remaining := Z.to_nat (if len <? remaining then len else remaining) in
      let '(state, bufpos) := xor_bytes_at (state, bufpos) (firstn remaining data) in
      let data := skipn remaining data in
      let bufpos := u32 (bufpos - n) in
      if negb (bufpos =? 0) then Some (state, u32 (bufpos + n))
      else hash_small fuel n (call_process state) bufpos data
  end.

(** The first loop of the fast version: bytes are queued until the block is
    full; the last component says whether to jump to [do_block]. *)
Fixpoint queue_first (n : Z) (state : list Z) (bufpos : Z) (data : list Z)
  : list Z * Z * list Z * bool :=
  match data with
  | [] => (state, bufpos, [], false)
  | b :: data =>
      let state := xor_byte state bufpos b in
      let bufpos := u32 (bufpos + 1) in
      if bufpos =? n then (state, 0, data, true) else queue_first n state bufpos data
  end.

Definition sizeof_long : nat := if long64 cfg then 8 else 4.

(** The complete blocks, [n] bytes each. *)
Fixpoint whole_blocks (fuel : nat) (n : Z) (state data : list Z) : option (list Z * list Z) :=
  if Z.of_nat (length data) <? n then Some (state, data) else
  match fuel with
  | O => None
  | S fuel =>
      let count := (Z.to_nat n / sizeof_long)%nat in
      let state := fold_left (fun state k => xor_long sizeof_long state k (word_at sizeof_long k data))
                             (seq 0 count) state in
      whole_blocks fuel n (call_process state) (skipn (Z.to_nat n) data)
  end.

Definition hash_fast (n : Z) (state : list Z) (bufpos : Z) (data : list Z) : option (list Z * Z) :=
  let '(state, bufpos, data, do_block) :=
    (if bufpos =? 0 then (state, bufpos, data, false) else queue_first n state bufpos data) in
  let state := if do_block then call_process state else state in
  let* (state, data) := whole_blocks (length data / Z.to_nat n) n state data in
  Some (xor_bytes_at (state, bufpos) data).

Definition sha3_hash (ctx : sha3_ctx_t) (data : list Z) : option sha3_ctx_t :=
  let n := input_block_bytes ctx in
  let* (state, bufpos) :=
    (if SHA3_SMALL cfg
     then hash_small (length data / Z.to_nat n + 2) n (state ctx) (bytes_queued ctx) data
     else hash_fast n (state ctx) (bytes_queued ctx) data) in
  Some (mk_ctx3 state bufpos n).

(** The context left, the bytes at [resbuf] and the value returned. *)
Definition sha3_end (ctx : sha3_ctx_t) : sha3_ctx_t * list Z * Z :=
  let n := input_block_bytes ctx in
  let s := xor_byte (state ctx) (bytes_queued ctx) 6 in
  let s := xor_byte s (u32 (n - 1)) 0x80 in
  let s := call_process s in
  let hash_len := u32 (1600 / 8 - n) / 2 in
  (mk_ctx3 s (bytes_queued ctx) n, firstn (Z.to_nat hash_len) (concat (map (le_bytes 8) s)), hash_len).
End Sponge.

(** ** The permutation of FIPS 202

    A state is given by its lanes [A x y]; in memory, lane [(x, y)] is word
    [x + 5 y]. *)

Definition lanes := nat -> nat -> Z.
Definition of_list (s : list Z) : lanes := fun x y => nth (x mod 5 + 5 * (y mod 5)) s 0.
Definition to_list (A : lanes) : list Z := map (fun i => A (i mod 5) (i / 5))%nat (seq 0 25).

Definition f_theta (A : lanes) : lanes :=
  let C x := Z.lxor (Z.lxor (Z.lxor (Z.lxor (A x 0%nat) (A x 1%nat)) (A x 2%nat)) (A x 3%nat)) (A x 4%nat) in
  let D x := Z.lxor (C ((x + 4) mod 5)%nat) (rotl64 (C ((x + 1) mod 5)%nat) 1) in
  fun x y => Z.lxor (A x y) (D x).

(** The walk over the lanes other than (0, 0): [walk t] is the lane visited
    at step [t], rotated by [(t + 1) (t + 2) / 2]. *)
Definition walk (t : nat) : nat * nat :=
  Nat.iter t (fun '(x, y) => (y, (2 * x + 3 * y) mod 5)%nat) (1, 0)%nat.
Definition rho_offset (x y : nat) : Z :=
  match find (fun t => let '(a, b) := walk t in ((a =? x) && (b =? y))%nat) (seq 0 24) with
  | Some t => (Z.of_nat t + 1) * (Z.of_nat t + 2) / 2 mod 64
  | None => 0
  end.
Definition f_rho (A : lanes) : lanes := fun x y => rotl64 (A x y) (rho_offset x y).
Definition f_pi (A : lanes) : lanes := fun x y => A ((x + 3 * y) mod 5)%nat x.
Definition f_chi (A : lanes) : lanes :=
  fun x y => Z.lxor (A x y) (Z.land (not64 (A ((x + 1) mod 5)%nat y)) (A ((x + 2) mod 5)%nat y)).

(** The bit [rc t] of a linear feedback shift register; [R] is written as a
    number, bit 0 first. *)
Definition rc_step (R : Z) : Z :=
  let R := 2 * R in
  if Z.testbit R 8 then Z.lxor R 0x171 else R.
Definition rc (t : nat) : bool := Z.testbit (Nat.iter (t mod 255) rc_step 1) 0.
Definition RC (ir : nat) : Z :=
  fold_left (fun v j => if rc (j + 7 * ir) then Z.setbit v (2 ^ Z.of_nat j - 1) else v) (seq 0 7) 0.
Definition f_iota (ir : nat) (A : lanes) : lanes :=
  fun x y => if ((x =? 0) && (y =? 0))%nat then Z.lxor (A x y) (RC ir) else A x y.

Definition f_round (A : lanes) (ir : nat) : lanes := f_iota ir (f_chi (f_pi (f_rho (f_theta A)))).

(** KECCAK-f[1600] on the words in memory. *)
Definition keccak_f (s : list Z) : list Z :=
  fold_left (fun s ir => to_list (f_round (of_list s) ir)) (seq 0 24) s.

(** The sponge of section 4 with the byte-aligned padding of section B.2: a
    block of [r] bytes is added to the state, bytes after it count as zero. *)
Definition add_block (s block : list Z) : list Z :=
  map (fun i => Z.lxor (nth i s 0) (le_word (slice (8 * i) 8 block))) (seq 0 25).
Definition f_absorb (s block : list Z) : list Z := keccak_f (add_block s block).

(** [M || 01 || 10*1], in bytes. *)
Definition f_pad (r : nat) (msg : list Z) : list Z :=
  let q := (r - length msg mod r)%nat in
  msg ++ (if (q =? 1)%nat then [0x86] else [6] ++ repeat 0 (q - 2) ++ [0x80]).

(** [KECCAK[1600 - 8 r](M || 01, d)], [d] in bytes and at most [r]. *)
Definition f_sha3 (r d : nat) (msg : list Z) : list Z :=
  firstn d (concat (map (le_bytes 8) (absorb (Z.of_nat r) f_absorb (repeat 0 25) (f_pad r msg)))).

(** ** The code computes KECCAK-f *)

Definition state_ok (s : list Z) : Prop := length s = 25%nat /\ Forall (in_u 64) s.

(** A list of 25 words as 25 variables. *)
Ltac explode s H :=
  do 25 (destruct s as [|? s]; [discriminate H|]); destruct s; [clear H|discriminate H].

(** Evaluate everything but the word operations. *)
Ltac lanes_eq := cbv -[Z.lxor Z.land Z.lor rotl64 not64]; reflexivity.

Lemma theta_fips junk s :
  length junk = 10%nat -> length s = 25%nat -> theta junk s = to_list (f_theta (of_list s)).
Proof.
  intros Hj Hs. do 10 (destruct junk as [|? junk]; [discriminate|]). destruct junk; [|discriminate].
  explode s Hs. lanes_eq.
Qed.

Lemma rotl64_0 x : in_u 64 x -> rotl64 x 0 = x.
Proof.
  intros Hx. unfold rotl64. change (64 - 0) with 64. rewrite Z.shiftl_0_r, (proj1 (in_u_shiftr 64 x ltac:(lia))), Z.lor_0_r
    by exact Hx. apply wrap_small, Hx.
Qed.

Lemma rho_pi_fips s :
  state_ok s -> rho_pi_small s = to_list (f_pi (f_rho (of_list s))).
Proof.
  intros [Hs Hu].
  assert (H0 : rotl64 (nth 0 s 0) 0 = nth 0 s 0).
  { apply rotl64_0. destruct s; [discriminate|]. inversion Hu; assumption. }
  transitivity (upd (to_list (f_pi (f_rho (of_list s)))) 0 (nth 0 s 0)); [|rewrite <- H0];
    clear H0 Hu; explode s Hs; lanes_eq.
Qed.

Lemma rho_pi_unrolled_small s : length s = 25%nat -> rho_pi_unrolled s = rho_pi_small s.
Proof. intros Hs. explode s Hs. lanes_eq. Qed.

Lemma chi64_fips s : length s = 25%nat -> chi64 s = to_list (f_chi (of_list s)).
Proof. intros Hs. explode s Hs. lanes_eq. Qed.

(** One word of chi, done in halves. *)
Lemma chi_halves a b c :
  in_u 64 a -> in_u 64 b -> in_u 64 c ->
  Z.lor (Z.lxor (u32 a) (Z.land (not32 (u32 b)) (u32 c)))
        (Z.shiftl (Z.lxor (Z.shiftr a 32) (Z.land (not32 (Z.shiftr b 32)) (Z.shiftr c 32))) 32)
  = Z.lxor a (Z.land (not64 b) c).
Proof.
  intros Ha Hb Hc. apply Z.bits_inj'. intros i Hi.
  rewrite Z.lor_spec, Z.shiftl_spec by lia. unfold not32, not64, u32, u64.
  destruct (Z_lt_dec i 32) as [H32|H32].
  - rewrite (Z.testbit_neg_r _ (i - 32)), orb_false_r by lia.
    rewrite !Z.lxor_spec, !Z.land_spec, !wrap_testbit, !Z.lnot_spec, !wrap_testbit by lia.
    replace (i <? 32) with true by (symmetry; apply Z.ltb_lt; lia).
    replace (i <? 64) with true by (symmetry; apply Z.ltb_lt; lia). reflexivity.
  - rewrite !Z.lxor_spec, !Z.land_spec, !wrap_testbit by lia.
    replace (i <? 32) with false by (symmetry; apply Z.ltb_ge; lia). cbn [andb xorb orb].
    rewrite !Z.lnot_spec, !Z.shiftr_spec by lia. replace (i - 32 + 32) with i by lia.
    destruct (Z_lt_dec i 64) as [H64|H64].
    + replace (i <? 64) with true by (symmetry; apply Z.ltb_lt; lia).
      replace (i - 32 <? 32) with true by (symmetry; apply Z.ltb_lt; lia). reflexivity.
    + rewrite !(in_u_testbit 64 _ i) by (assumption || lia). rewrite !andb_false_r. reflexivity.
Qed.

Lemma chi32_chi64 s : state_ok s -> chi32 s = chi64 s.
Proof.
  intros [Hs Hu]. explode s Hs.
  repeat match goal with H : Forall _ (_ :: _) |- _ => inversion H; clear H; subst end.
  cbv -[Z.lxor Z.land Z.lor Z.shiftl Z.shiftr u32 not32 not64].
  rewrite !chi_halves by assumption. reflexivity.
Qed.

Lemma iota_fips r s :
  length s = 25%nat -> (r < 24)%nat -> iota r s = to_list (f_iota r (of_list s)).
Proof.
  intros Hs Hr.
  assert (HRC : Z.lor (Z.lor (nth r IOTA_CONST 0)
                  (Z.land (u32 (Z.shiftl IOTA_CONST_bit31 (Z.of_nat r))) 0x80000000))
           (u64 (Z.shiftl (Z.land (u32 (Z.shiftl IOTA_CONST_bit63 (Z.of_nat r))) 0x80000000) 32)) = RC r).
  { do 24 (destruct r as [|r]; [vm_compute; reflexivity|]). lia. }
  unfold iota. rewrite HRC. unfold f_iota. generalize (RC r) as v. intros v. clear HRC.
  explode s Hs. lanes_eq.
Qed.

Lemma to_list_ok A : (forall x y, (x < 5)%nat -> (y < 5)%nat -> in_u 64 (A x y)) -> state_ok (to_list A).
Proof.
  intros HA. split; [reflexivity|]. apply Forall_map, Forall_forall. intros i Hi%in_seq.
  apply HA; [apply Nat.mod_upper_bound; lia|]. apply Nat.Div0.div_lt_upper_bound; lia.
Qed.

Lemma of_list_ok s x y : state_ok s -> in_u 64 (of_list s x y).
Proof.
  intros [Hl Hu]. rewrite Forall_forall in Hu. apply Hu, nth_In. rewrite Hl.
  pose proof (Nat.mod_upper_bound x 5). pose proof (Nat.mod_upper_bound y 5). lia.
Qed.

Lemma rho_offset_range x y : 0 <= rho_offset x y <= 64.
Proof.
  unfold rho_offset. case_match; [|lia].
  match goal with |- context [?v mod 64] => pose proof (Z.mod_pos_bound v 64 ltac:(lia)) end. lia.
Qed.

Lemma RC_range r : (r < 24)%nat -> in_u 64 (RC r).
Proof.
  intros Hr. assert (Hall : forallb (fun r => (0 <=? RC r) && (RC r <? 2 ^ 64)) (seq 0 24) = true)
    by (vm_compute; reflexivity).
  rewrite forallb_forall in Hall. specialize (Hall r (proj2 (in_seq 24 0 r) ltac:(lia))).
  red. apply andb_prop in Hall as [H1 H2]. apply Z.leb_le in H1. apply Z.ltb_lt in H2. lia.
Qed.

(** Every step gives words of 64 bits. *)
Ltac in_range := repeat first
  [ assumption | apply in_u_lxor; [lia|..] | apply in_u_land; [lia|..]
  | apply rotl64_range; [first [apply rho_offset_range | lia]|] | apply in_u64 | apply of_list_ok ].

Lemma f_theta_ok s : state_ok s -> state_ok (to_list (f_theta (of_list s))).
Proof. intros Hs. apply to_list_ok. intros x y _ _. unfold f_theta. in_range. Qed.
Lemma f_pi_rho_ok s : state_ok s -> state_ok (to_list (f_pi (f_rho (of_list s)))).
Proof. intros Hs. apply to_list_ok. intros x y _ _. unfold f_pi, f_rho. in_range. Qed.
Lemma f_chi_ok s : state_ok s -> state_ok (to_list (f_chi (of_list s))).
Proof. intros Hs. apply to_list_ok. intros x y _ _. unfold f_chi, not64. in_range. Qed.
Lemma f_iota_ok r s : (r < 24)%nat -> state_ok s -> state_ok (to_list (f_iota r (of_list s))).
Proof.
  intros Hr Hs. apply to_list_ok. intros x y _ _. unfold f_iota. pose proof (RC_range r Hr).
  destruct (_ && _); in_range.
Qed.

(** Writing the lanes to memory between the steps changes nothing. *)
Lemma f_round_steps s r :
  to_list (f_iota r (of_list (to_list (f_chi (of_list (to_list (f_pi (f_rho (of_list
    (to_list (f_theta (of_list s))))))))))))
  = to_list (f_round (of_list s) r).
Proof.
  unfold f_round. generalize (f_theta (of_list s)) as A. intros A.
  transitivity (to_list (f_iota r (of_list (to_list (f_chi (f_pi (f_rho A))))))).
  - apply (f_equal (fun l => to_list (f_iota r (of_list l)))). lanes_eq.
  - unfold f_iota. generalize (RC r) as v. intros v. lanes_eq.
Qed.

Lemma keccak_round_fips cfg junk s r :
  length junk = 10%nat -> state_ok s -> (r < 24)%nat ->
  keccak_round cfg junk s r = to_list (f_round (of_list s) r)
  /\ state_ok (to_list (f_round (of_list s) r)).
Proof.
  intros Hj Hs Hr. unfold keccak_round. rewrite (theta_fips junk s Hj (proj1 Hs)).
  pose proof (f_theta_ok s Hs) as H1. set (s1 := to_list (f_theta (of_list s))) in *.
  pose proof (f_pi_rho_ok s1 H1) as H2. set (s2 := to_list (f_pi (f_rho (of_list s1)))) in *.
  assert (E2 : (if SHA3_SMALL cfg then rho_pi_small s1 else rho_pi_unrolled s1) = s2).
  { rewrite (rho_pi_unrolled_small s1 (proj1 H1)), (rho_pi_fips s1 H1). destruct (SHA3_SMALL cfg); reflexivity. }
  rewrite E2. pose proof (f_chi_ok s2 H2) as H3. set (s3 := to_list (f_chi (of_list s2))) in *.
  assert (E3 : (if long64 cfg then chi64 s2 else chi32 s2) = s3).
  { rewrite (chi32_chi64 s2 H2), (chi64_fips s2 (proj1 H2)). destruct (long64 cfg); reflexivity. }
  rewrite E3, <- f_round_steps. fold s1 s2 s3.
  split; [apply iota_fips; [exact (proj1 H3)|exact Hr]|apply f_iota_ok; assumption].
Qed.

Lemma keccak_process_fips cfg junk s :
  length junk = 10%nat -> state_ok s ->
  sha3_process_block72 cfg junk s = keccak_f s /\ state_ok (keccak_f s).
Proof.
  intros Hj Hs. unfold sha3_process_block72, keccak_f.
  assert (H : forall l s, state_ok s -> (forall r, In r l -> (r < 24)%nat) ->
    fold_left (keccak_round cfg junk) l s = fold_left (fun s ir => to_list (f_round (of_list s) ir)) l s
    /\ state_ok (fold_left (fun s ir => to_list (f_round (of_list s) ir)) l s)).
  { induction l as [|r l IH]; intros s0 H0 Hl; [auto|]. cbn [fold_left].
    destruct (keccak_round_fips cfg junk s0 r Hj H0 (Hl r (or_introl eq_refl))) as [-> H1].
    apply IH; [exact H1|]. intros; apply Hl; right; assumption. }
  apply H; [exact Hs|]. intros r Hr%in_seq. lia.
Qed.

(** ** The sponge *)

Lemma add_block_nil s : length s = 25%nat -> add_block s [] = s.
Proof.
  intros Hs. apply (nth_ext _ _ 0 0); [rewrite Hs; reflexivity|]. intros i Hi.
  change (length (add_block s [])) with 25%nat in Hi. unfold add_block. rewrite nth_map_seq by exact Hi.
  unfold slice. rewrite skipn_nil, firstn_nil. apply Z.lxor_0_r.
Qed.

Lemma slice_app_out (p q : list Z) i :
  (8 * i + 8 <= length p \/ length p + length q <= 8 * i)%nat ->
  slice (8 * i) 8 (p ++ q) = slice (8 * i) 8 p.
Proof.
  intros Hi. unfold slice. rewrite skipn_app, firstn_app, length_skipn.
  destruct Hi as [Hi|Hi].
  - replace (8 - (length p - 8 * i))%nat with 0%nat by lia. rewrite firstn_O. apply app_nil_r.
  - rewrite (skipn_all2 q) by lia. rewrite firstn_nil. apply app_nil_r.
Qed.

Lemma slice_app_in (p q : list Z) i :
  (8 * i <= length p)%nat -> (length p + length q <= 8 * i + 8)%nat ->
  slice (8 * i) 8 (p ++ q) = slice (8 * i) 8 p ++ q.
Proof.
  intros Hi Hq. unfold slice. rewrite skipn_app, firstn_app, length_skipn.
  replace (8 * i - length p)%nat with 0%nat by lia. cbn [skipn].
  f_equal. apply firstn_all2. lia.
Qed.

(** Bytes put after the block [p], within one word of the state. *)
Lemma add_chunk s p q :
  bytes p -> (0 < length q)%nat -> (length p mod 8 + length q <= 8)%nat -> (length p < 200)%nat ->
  let i := (length p / 8)%nat in
  upd (add_block s p) i
      (Z.lxor (lane (add_block s p) i) (Z.shiftl (le_word q) (8 * Z.of_nat (length p mod 8))))
  = add_block s (p ++ q).
Proof.
  intros Hp Hq Hm Hl i. pose proof (Nat.div_mod_eq (length p) 8) as Hdm. fold i in Hdm.
  pose proof (Nat.mod_upper_bound (length p) 8 ltac:(lia)).
  apply (nth_ext _ _ 0 0); [rewrite length_upd; reflexivity|]. intros j Hj.
  rewrite length_upd in Hj. change (length (add_block s p)) with 25%nat in Hj.
  assert (Hadd : forall b k, (k < 25)%nat ->
    nth k (add_block s b) 0 = Z.lxor (nth k s 0) (le_word (slice (8 * k) 8 b)))
    by (intros; apply (nth_map_seq (fun i => Z.lxor (nth i s 0) (le_word (slice (8 * i) 8 b)))); assumption).
  destruct (Nat.eq_dec j i) as [->|Hne].
  - rewrite nth_upd_eq by exact Hj. unfold lane. rewrite !Hadd by exact Hj.
    rewrite slice_app_in, le_word_app, Z.lxor_assoc by (try apply bytes_slice; auto; lia).
    do 5 f_equal. rewrite length_slice. lia.
  - rewrite nth_upd_ne by auto. rewrite !Hadd by exact Hj. rewrite slice_app_out by lia. reflexivity.
Qed.

Lemma xor_byte_add s p b :
  bytes p -> (length p < 200)%nat ->
  xor_byte (add_block s p) (Z.of_nat (length p)) b = add_block s (p ++ [b]).
Proof.
  intros Hp Hl. rewrite <- add_chunk; [|assumption|cbn; lia| |assumption].
  - unfold xor_byte. change 8 with (Z.of_nat 8). rewrite <- Nat2Z.inj_div, <- Nat2Z.inj_mod, Nat2Z.id.
    cbn [le_word]. rewrite Z.mul_0_r, Z.add_0_r. reflexivity.
  - pose proof (Nat.mod_upper_bound (length p) 8 ltac:(lia)). cbn [length]. lia.
Qed.

Lemma xor_long_add sz s p q k :
  sz = 4%nat \/ sz = 8%nat -> bytes p -> length p = (sz * k)%nat -> length q = sz -> (length p < 200)%nat ->
  xor_long sz (add_block s p) k (le_word q) = add_block s (p ++ q).
Proof.
  intros Hsz Hp Hk Hq Hl. rewrite <- add_chunk; [|assumption|lia| |assumption].
  - unfold xor_long. rewrite <- Hk. change 8 with (Z.of_nat 8).
    rewrite <- Nat2Z.inj_div, <- Nat2Z.inj_mod, Nat2Z.id. reflexivity.
  - rewrite Hk, Hq. destruct Hsz as [-> | ->].
    + replace (4 * k)%nat with (k * 4)%nat by lia. change 8%nat with (2 * 4)%nat at 1.
      rewrite Nat.Div0.mul_mod_distr_r. pose proof (Nat.mod_upper_bound k 2 ltac:(lia)). lia.
    + rewrite Nat.mul_comm, Nat.Div0.mod_mul. lia.
Qed.

Lemma xor_bytes_add s p data :
  bytes p -> bytes data -> (length p + length data <= 200)%nat ->
  xor_bytes_at (add_block s p, Z.of_nat (length p)) data
  = (add_block s (p ++ data), Z.of_nat (length p + length data)).
Proof.
  intros Hp Hd. revert p Hp. induction Hd as [|b data Hb Hd IH]; intros p Hp Hl; unfold xor_bytes_at.
  - rewrite app_nil_r, Nat.add_0_r. reflexivity.
  - cbn [fold_left length] in *. rewrite xor_byte_add by (auto; lia). unfold u32.
    rewrite wrap_small by (red; lia).
    replace (Z.of_nat (length p) + 1) with (Z.of_nat (length (p ++ [b]))) by (rewrite length_app; simpl; lia).
    unfold xor_bytes_at in IH. rewrite IH; rewrite ?length_app; cbn [length]; [|apply Forall_app; auto|lia].
    rewrite <- app_assoc. do 2 f_equal. lia.
Qed.

Lemma bytes_slice_word p i : bytes p -> in_u 64 (le_word (slice (8 * i) 8 p)).
Proof.
  intros Hp. pose proof (le_word_range _ (bytes_slice (8 * i) 8 p Hp)) as [H0 H1].
  split; [exact H0|]. eapply Z.lt_le_trans; [exact H1|]. change (2 ^ 64) with (256 ^ 8).
  apply Z.pow_le_mono_r; [lia|]. rewrite length_slice. lia.
Qed.

Lemma add_block_ok s p : state_ok s -> bytes p -> state_ok (add_block s p).
Proof.
  intros [Hl Hu] Hp. split; [reflexivity|]. apply Forall_map, Forall_forall. intros i Hi%in_seq.
  apply in_u_lxor; [lia| |apply bytes_slice_word, Hp].
  rewrite Forall_forall in Hu. apply Hu, nth_In. lia.
Qed.

(** Zero bytes at the end of a block do not matter. *)
Lemma le_word_zeros q k : le_word (q ++ repeat 0 k) = le_word q.
Proof.
  induction q as [|x q IH]; cbn [app le_word]; [|rewrite IH; reflexivity].
  induction k as [|k IHk]; cbn [repeat le_word] in *; lia.
Qed.

Lemma skipn_zeros k m : skipn m (repeat 0 k) = repeat 0 (k - m).
Proof. revert m; induction k as [|k IH]; intros [|m]; cbn; auto. Qed.
Lemma firstn_zeros k m : firstn m (repeat 0 k) = repeat 0 (Nat.min m k).
Proof. revert m; induction k as [|k IH]; intros [|m]; cbn; auto. f_equal. apply IH. Qed.

Lemma slice_zeros p k i :
  exists j, slice (8 * i) 8 (p ++ repeat 0 k) = slice (8 * i) 8 p ++ repeat 0 j.
Proof.
  unfold slice. rewrite skipn_app, firstn_app, skipn_zeros, firstn_zeros. eauto.
Qed.

Lemma add_zeros s p k : add_block s (p ++ repeat 0 k) = add_block s p.
Proof.
  apply map_ext. intros i. destruct (slice_zeros p k i) as [j ->]. rewrite le_word_zeros. reflexivity.
Qed.

Lemma xor_byte_twice s pos a b :
  (Z.to_nat (pos / 8) < length s)%nat -> xor_byte (xor_byte s pos a) pos b = xor_byte s pos (Z.lxor a b).
Proof.
  intros Hl. unfold xor_byte, lane. cbv zeta. rewrite nth_upd_eq by exact Hl.
  rewrite Z.lxor_assoc, <- Z.shiftl_lxor.
  generalize (Z.lxor (nth (Z.to_nat (pos / 8)) s 0) (Z.shiftl (Z.lxor a b) (8 * (pos mod 8)))) as v.
  generalize (Z.lxor (nth (Z.to_nat (pos / 8)) s 0) (Z.shiftl a (8 * (pos mod 8)))) as w. intros w v.
  clear Hl. generalize (Z.to_nat (pos / 8)) as i. induction s as [|x s IH]; intros [|i]; cbn; auto.
  f_equal. apply IH.
Qed.

Lemma zero_ok : state_ok (repeat 0 25).
Proof. split; [reflexivity|]. apply Forall_forall. intros x ->%repeat_spec. red; lia. Qed.

Section Streaming.
Variable cfg : config.
Variable junk : list Z -> list Z.
Hypothesis junk_ok : forall s, length (junk s) = 10%nat.

(** The rate in bytes. *)
Variable r : nat.
Hypothesis r_range : (72 <= r < 200)%nat.
Hypothesis r_words : (r mod 8 = 0)%nat.

#[local] Abbreviation n := (Z.of_nat r).
#[local] Abbreviation Abs := (absorb n f_absorb).
#[local] Abbreviation Tail := (tail_of n).

Lemma n_range : 0 < n < 2 ^ 31.
Proof. lia. Qed.

Lemma block_r : block_bytes n = r.
Proof. unfold block_bytes. lia. Qed.

Lemma call_keccak s : state_ok s -> call_process cfg junk s = keccak_f s.
Proof. intros Hs. apply keccak_process_fips; [apply junk_ok|exact Hs]. Qed.

Lemma f_absorb_ok s blk : state_ok s -> bytes blk -> state_ok (f_absorb s blk).
Proof.
  intros Hs Hb. apply (keccak_process_fips cfg (repeat 0 10) (add_block s blk) eq_refl), add_block_ok; assumption.
Qed.

Lemma absorb_ok s msg : state_ok s -> bytes msg -> state_ok (Abs s msg).
Proof.
  intros Hs Hm. unfold absorb. apply (fold_inv state_ok); [|exact Hs].
  intros a i Ha. apply f_absorb_ok; [exact Ha|apply bytes_slice, Hm].
Qed.

(** What both versions of [sha3_hash] do: [pend] is queued, [data] is given. *)
Definition step_spec (res : option (list Z * Z)) (s pend data : list Z) : Prop :=
  res = Some (add_block (Abs s (pend ++ data)) (Tail (pend ++ data)),
              Z.of_nat (length (Tail (pend ++ data)))).

Lemma hash_small_spec fuel s pend data :
  state_ok s -> bytes pend -> bytes data -> (length pend < r)%nat ->
  ((length pend + length data) / r < fuel)%nat ->
  step_spec (hash_small cfg junk fuel n (add_block s pend) (Z.of_nat (length pend)) data) s pend data.
Proof.
  pose proof n_range. pose proof block_r as Hbr. unfold step_spec.
  revert s pend data; induction fuel as [|fuel IH]; intros s pend data Hs Hp Hd Hl Hf; [lia|].
  cbn [hash_small].
  assert (Hu : u32 (n - Z.of_nat (length pend)) = n - Z.of_nat (length pend)) by (apply wrap_small; red; lia).
  rewrite Hu. clear Hu.
  destruct (Z.ltb_spec (Z.of_nat (length data)) (n - Z.of_nat (length pend))) as [Hc|Hc].
  - rewrite Nat2Z.id, firstn_all. rewrite xor_bytes_add by (auto; lia).
    rewrite absorb_short, tail_of_short by (rewrite length_app; lia).
    unfold u32. set (q := (length pend + length data)%nat).
    replace (wrap 32 (Z.of_nat q - n)) with (Z.of_nat q - n + 2 ^ 32).
    2: { unfold wrap. rewrite <- (Z_mod_plus_full _ 1), Z.mod_small by lia. lia. }
    replace (Z.of_nat q - n + 2 ^ 32 =? 0) with false by (symmetry; apply Z.eqb_neq; lia). cbn [negb].
    do 2 f_equal. rewrite length_app. fold q. unfold wrap.
    replace (Z.of_nat q - n + 2 ^ 32 + n) with (Z.of_nat q + 1 * 2 ^ 32) by lia.
    rewrite Z_mod_plus_full, Z.mod_small by lia. reflexivity.
  - replace (Z.to_nat (n - Z.of_nat (length pend))) with (r - length pend)%nat by lia.
    set (k := (r - length pend)%nat).
    assert (Hk : length (firstn k data) = k) by (rewrite length_firstn; lia).
    rewrite xor_bytes_add; [|exact Hp|apply bytes_firstn, Hd|lia].
    replace (Z.of_nat (length pend + length (firstn k data)) - n) with 0 by lia.
    change (u32 0) with (Z.of_nat (length (@nil Z))). cbn [length Z.of_nat Z.eqb negb].
    assert (Hblk : bytes (pend ++ firstn k data)) by auto using bytes_app, bytes_firstn.
    rewrite call_keccak by (apply add_block_ok; assumption).
    change (keccak_f (add_block s (pend ++ firstn k data))) with (f_absorb s (pend ++ firstn k data)).
    assert (Hs' : state_ok (f_absorb s (pend ++ firstn k data))) by (apply f_absorb_ok; assumption).
    rewrite <- (add_block_nil (f_absorb s _)) by apply Hs'.
    change 0 with (Z.of_nat (length (@nil Z))). rewrite IH; [|assumption|constructor|apply bytes_skipn, Hd|cbn; lia|].
    + assert (Ed : pend ++ data = (pend ++ firstn k data) ++ skipn k data)
        by (rewrite <- app_assoc, firstn_skipn; reflexivity).
      rewrite Ed, (absorb_block n f_absorb n_range s (pend ++ firstn k data)) by (rewrite length_app; lia).
      rewrite (tail_of_app n n_range 1 (pend ++ firstn k data)) by (rewrite length_app; lia). reflexivity.
    + cbn [length Nat.add]. rewrite length_skipn.
      replace (length pend + length data)%nat with ((length data - k) + 1 * r)%nat in Hf by lia.
      rewrite Nat.div_add in Hf by lia. lia.
Qed.

Lemma sizeof_long_cases : sizeof_long cfg = 4%nat \/ sizeof_long cfg = 8%nat.
Proof. unfold sizeof_long. destruct (long64 cfg); auto. Qed.

(** The words of a block xored in one by one. *)
Lemma xor_longs_add s blk :
  bytes blk -> length blk = r ->
  fold_left (fun state k => xor_long (sizeof_long cfg) state k (word_at (sizeof_long cfg) k blk))
            (seq 0 (r / sizeof_long cfg)) (add_block s [])
  = add_block s blk.
Proof.
  intros Hb Hl. pose proof sizeof_long_cases as Hsz. set (sz := sizeof_long cfg) in *.
  assert (Hr : (r = sz * (r / sz))%nat).
  { rewrite (Nat.div_mod_eq r sz) at 1.
    enough (r mod sz = 0)%nat by lia. destruct Hsz as [-> | ->]; [|exact r_words].
    rewrite (Nat.div_mod_eq r 8), r_words, Nat.add_0_r. change 8%nat with (4 * 2)%nat.
    rewrite <- Nat.mul_assoc, Nat.mul_comm. apply Nat.Div0.mod_mul. }
  assert (H : forall m, (m <= r / sz)%nat ->
    fold_left (fun state k => xor_long sz state k (word_at sz k blk)) (seq 0 m) (add_block s [])
    = add_block s (firstn (sz * m) blk)).
  { induction m as [|m IH]; intros Hm; [rewrite Nat.mul_0_r; reflexivity|].
    rewrite seq_S, fold_left_app, IH by lia. cbn [fold_left Nat.add].
    assert (Hm' : (sz * (m + 1) <= sz * (r / sz))%nat) by (apply Nat.mul_le_mono_l; lia).
    unfold word_at. rewrite xor_long_add.
    - unfold slice. replace (sz * S m)%nat with (sz * m + sz)%nat by lia.
      rewrite <- (firstn_skipn (sz * m) blk) at 3. rewrite firstn_app.
      rewrite firstn_firstn, length_firstn. do 2 f_equal; f_equal; lia.
    - exact Hsz.
    - apply bytes_firstn, Hb.
    - rewrite length_firstn. lia.
    - rewrite length_slice. lia.
    - rewrite length_firstn. lia. }
  rewrite H by lia. rewrite <- Hr, <- Hl, firstn_all. reflexivity.
Qed.

Lemma whole_blocks_spec fuel s data :
  state_ok s -> bytes data -> (length data / r <= fuel)%nat ->
  whole_blocks cfg junk fuel n s data = Some (Abs s data, Tail data).
Proof.
  pose proof n_range. pose proof block_r as Hbr.
  revert s data; induction fuel as [|fuel IH]; intros s data Hs Hd Hf; cbn [whole_blocks];
    (destruct (Z.ltb_spec (Z.of_nat (length data)) n) as [Hc|Hc];
     [rewrite absorb_short, tail_of_short by lia; reflexivity|]).
  - pose proof (Nat.div_str_pos (length data) r ltac:(lia)). lia.
  - rewrite Nat2Z.id.
    set (blk := firstn r data). assert (Hblk : bytes blk) by apply bytes_firstn, Hd.
    assert (Hlb : length blk = r) by (unfold blk; rewrite length_firstn; lia).
    pose proof (xor_longs_add s blk Hblk Hlb) as HX. rewrite add_block_nil in HX by apply Hs.
    rewrite (fold_left_ext _ (fun state k => xor_long (sizeof_long cfg) state k (word_at (sizeof_long cfg) k blk))).
    + rewrite HX, call_keccak by (apply add_block_ok; assumption).
      change (keccak_f (add_block s blk)) with (f_absorb s blk).
      rewrite IH; [|apply f_absorb_ok; assumption|apply bytes_skipn, Hd|].
      * rewrite <- (firstn_skipn r data) at 3 4. fold blk.
        rewrite (absorb_block n f_absorb n_range s blk), (tail_of_app n n_range 1 blk) by lia. reflexivity.
      * rewrite length_skipn. replace (length data) with ((length data - r) + 1 * r)%nat in Hf by lia.
        rewrite Nat.div_add in Hf by lia. lia.
    + intros st k Hk%in_seq. f_equal. unfold word_at. f_equal. unfold slice, blk.
      rewrite skipn_firstn_comm, firstn_firstn. f_equal.
      pose proof (Nat.Div0.mul_div_le r (sizeof_long cfg)).
      assert (sizeof_long cfg * (k + 1) <= sizeof_long cfg * (r / sizeof_long cfg))%nat
        by (apply Nat.mul_le_mono_l; lia). lia.
Qed.

Lemma queue_first_spec s pend data :
  bytes pend -> bytes data -> (length pend < r)%nat ->
  queue_first n (add_block s pend) (Z.of_nat (length pend)) data
  = if (length pend + length data <? r)%nat
    then (add_block s (pend ++ data), Z.of_nat (length pend + length data), [], false)
    else (add_block s (pend ++ firstn (r - length pend) data), 0, skipn (r - length pend) data, true).
Proof.
  intros Hp Hd. revert pend Hp. induction Hd as [|b data Hb Hd IH]; intros pend Hp Hl; cbn [queue_first].
  - cbn [length]. rewrite app_nil_r, Nat.add_0_r. destruct (Nat.ltb_spec (length pend) r); [reflexivity|lia].
  - rewrite xor_byte_add by (auto; lia). unfold u32. rewrite wrap_small by (red; lia).
    assert (Hl1 : length (pend ++ [b]) = (length pend + 1)%nat) by (rewrite length_app; reflexivity).
    replace (Z.of_nat (length pend) + 1) with (Z.of_nat (length (pend ++ [b]))) by lia.
    cbn [length]. destruct (Z.eqb_spec (Z.of_nat (length (pend ++ [b]))) n) as [Hn|Hn].
    + destruct (Nat.ltb_spec (length pend + S (length data)) r); [lia|].
      replace (r - length pend)%nat with 1%nat by lia. reflexivity.
    + assert (Hpb : bytes (pend ++ [b])) by auto with bytes.
      rewrite IH by (exact Hpb || lia). rewrite Hl1, <- !app_assoc.
      replace (length pend + 1 + length data)%nat with (length pend + S (length data))%nat by lia.
      replace (r - length pend)%nat with (S (r - (length pend + 1))) by lia. reflexivity.
Qed.

Lemma hash_fast_spec s pend data :
  state_ok s -> bytes pend -> bytes data -> (length pend < r)%nat ->
  step_spec (hash_fast cfg junk n (add_block s pend) (Z.of_nat (length pend)) data) s pend data.
Proof.
  intros Hs Hp Hd Hl. pose proof n_range. pose proof block_r as Hbr. unfold step_spec, hash_fast.
  (* the blocks and the rest after the queue is empty *)
  assert (Hrest : forall s1 d, state_ok s1 -> bytes d ->
    bind (whole_blocks cfg junk (length d / Z.to_nat n) n s1 d) (fun '(state, d) => Some (xor_bytes_at (state, 0) d))
    = Some (add_block (Abs s1 d) (Tail d), Z.of_nat (length (Tail d)))).
  { intros s1 d H1 Hd1. rewrite Nat2Z.id, whole_blocks_spec by (auto; lia). cbn [bind].
    assert (Ht : bytes (Tail d)) by apply bytes_skipn, Hd1.
    rewrite <- (add_block_nil (Abs s1 d)) at 1 by (apply absorb_ok; assumption).
    change 0 with (Z.of_nat (length (@nil Z))). rewrite xor_bytes_add; [reflexivity|constructor|exact Ht|].
    rewrite (tail_of_length n n_range), Hbr. cbn [length].
    pose proof (Nat.mod_upper_bound (length d) r ltac:(lia)). lia. }
  destruct (Z.eqb_spec (Z.of_nat (length pend)) 0) as [H0|H0].
  - destruct pend; [|cbn in H0; lia]. cbn [app length Z.of_nat]. rewrite add_block_nil by apply Hs.
    apply Hrest; assumption.
  - rewrite queue_first_spec by assumption.
    destruct (Nat.ltb_spec (length pend + length data) r) as [Hc|Hc].
    + cbn [length]. rewrite Nat.Div0.div_0_l. cbn [whole_blocks length Z.of_nat].
      replace (0 <? n) with true by (symmetry; apply Z.ltb_lt; lia). cbn [bind].
      rewrite absorb_short, tail_of_short, length_app by (rewrite length_app; lia). reflexivity.
    + set (k := (r - length pend)%nat).
      assert (Hk : length (pend ++ firstn k data) = r) by (rewrite length_app, length_firstn; lia).
      assert (Hblk : bytes (pend ++ firstn k data)) by auto using bytes_app, bytes_firstn.
      rewrite call_keccak by (apply add_block_ok; assumption).
      change (keccak_f (add_block s (pend ++ firstn k data))) with (f_absorb s (pend ++ firstn k data)).
      rewrite Hrest; [|apply f_absorb_ok; assumption|apply bytes_skipn, Hd].
      assert (Ed : pend ++ data = (pend ++ firstn k data) ++ skipn k data)
        by (rewrite <- app_assoc, firstn_skipn; reflexivity).
      rewrite Ed, (absorb_block n f_absorb n_range s (pend ++ firstn k data)) by lia.
      rewrite (tail_of_app n n_range 1 (pend ++ firstn k data)) by lia. reflexivity.
Qed.

(** Since [sha3_begin], the context was given [msg]. *)
Definition queued (ctx : sha3_ctx_t) (msg : list Z) : Prop :=
  bytes msg /\ ctx = mk_ctx3 (add_block (Abs (repeat 0 25) msg) (Tail msg))
                             (Z.of_nat (length (Tail msg))) n.

Lemma tail_short msg : (length (Tail msg) < r)%nat.
Proof.
  rewrite (tail_of_length n n_range), block_r. apply Nat.mod_upper_bound. lia.
Qed.

Lemma hash_queued ctx msg data :
  queued ctx msg -> bytes data ->
  exists ctx', sha3_hash cfg junk ctx data = Some ctx' /\ queued ctx' (msg ++ data).
Proof.
  intros [Hm ->] Hd. unfold sha3_hash. cbn [state bytes_queued input_block_bytes].
  set (s := Abs (repeat 0 25) msg).
  assert (Hs : state_ok s) by (apply absorb_ok; [apply zero_ok|exact Hm]).
  assert (Ht : bytes (Tail msg)) by apply bytes_skipn, Hm. pose proof (tail_short msg) as Hl.
  assert (E : step_spec (if SHA3_SMALL cfg
     then hash_small cfg junk (length data / Z.to_nat n + 2) n (add_block s (Tail msg)) (Z.of_nat (length (Tail msg))) data
     else hash_fast cfg junk n (add_block s (Tail msg)) (Z.of_nat (length (Tail msg))) data) s (Tail msg) data).
  { destruct (SHA3_SMALL cfg); [|apply hash_fast_spec; assumption].
    apply hash_small_spec; auto. rewrite Nat2Z.id.
    eapply Nat.le_lt_trans; [apply Nat.Div0.div_le_mono with (b := (length data + 1 * r)%nat); lia|].
    rewrite Nat.div_add by lia. lia. }
  red in E. rewrite E. cbn [bind]. eexists. split; [reflexivity|].
  split; [apply bytes_app; assumption|]. unfold s. rewrite <- absorb_tail, <- tail_app by exact n_range. reflexivity.
Qed.

(** The end of a block that holds the rest of the message. *)
Lemma pad_block s t :
  bytes t -> (length t < r)%nat ->
  xor_byte (xor_byte (add_block s t) (Z.of_nat (length t)) 6) (n - 1) 0x80
  = add_block s (t ++ if (r - length t =? 1)%nat then [0x86] else [6] ++ repeat 0 (r - length t - 2) ++ [0x80]).
Proof.
  intros Ht Hl. destruct (Nat.eqb_spec (r - length t) 1) as [H1|H1].
  - replace (n - 1) with (Z.of_nat (length t)) by lia.
    rewrite xor_byte_twice, xor_byte_add; [reflexivity|exact Ht|lia|].
    change (length (add_block s t)) with 25%nat. rewrite <- (Nat2Z.id 25). apply Z2Nat.inj_lt; [|lia|].
    + apply Z.div_pos; lia.
    + apply Z.div_lt_upper_bound; lia.
  - rewrite xor_byte_add by (exact Ht || lia).
    set (p := (t ++ [6]) ++ repeat 0 (r - length t - 2)).
    assert (Hp : length p = (r - 1)%nat) by (unfold p; autorewrite with len; cbn [length]; lia).
    rewrite <- (add_zeros s (t ++ [6]) (r - length t - 2)). fold p.
    replace (n - 1) with (Z.of_nat (length p)) by lia. rewrite xor_byte_add.
    + unfold p. rewrite <- !app_assoc. reflexivity.
    + unfold p. assert (in_u 8 6) by (red; lia). auto with bytes.
    + lia.
Qed.

Lemma end_digest ctx msg :
  queued ctx msg ->
  exists ctx', sha3_end cfg junk ctx = (ctx', f_sha3 r ((200 - r) / 2) msg, Z.of_nat ((200 - r) / 2)).
Proof.
  intros [Hm ->]. unfold sha3_end. cbv zeta. cbn [state bytes_queued input_block_bytes]. pose proof n_range.
  set (s := Abs (repeat 0 25) msg). pose proof (tail_short msg) as Hl.
  assert (Hs : state_ok s) by (apply absorb_ok; [apply zero_ok|exact Hm]).
  assert (Ht : bytes (Tail msg)) by apply bytes_skipn, Hm.
  unfold u32. rewrite (wrap_small 32 (n - 1)), (wrap_small 32 (1600 / 8 - n)) by (red; change (1600 / 8) with 200; lia).
  rewrite pad_block by assumption.
  set (blk := Tail msg ++ _).
  assert (Hblk : bytes blk).
  { unfold blk. assert (in_u 8 6 /\ in_u 8 0x80 /\ in_u 8 0x86) as (? & ? & ?) by (repeat split; lia).
    apply bytes_app; [exact Ht|]. destruct (_ =? 1)%nat; auto with bytes. }
  assert (Hlb : length blk = block_bytes n).
  { unfold blk. rewrite block_r, length_app. destruct (Nat.eqb_spec (r - length (Tail msg)) 1);
      autorewrite with len; cbn [length]; lia. }
  rewrite call_keccak by (apply add_block_ok; assumption).
  change (keccak_f (add_block s blk)) with (f_absorb s blk).
  replace ((1600 / 8 - n) / 2) with (Z.of_nat ((200 - r) / 2))
    by (rewrite Nat2Z.inj_div, Nat2Z.inj_sub by lia; reflexivity).
  rewrite Nat2Z.id. unfold f_sha3, f_pad. rewrite (absorb_tail n f_absorb n_range _ msg). fold s.
  pose proof (tail_of_length n n_range msg) as E. rewrite block_r in E. rewrite <- E. fold blk.
  rewrite (absorb_one n f_absorb n_range s blk Hlb). eexists. reflexivity.
Qed.
End Streaming.

(** The permutation: in both size configurations, with the Chi step on
    64-bit words or on 32-bit halves, the code computes KECCAK-f[1600] of
    FIPS 202, whose rotations and round constants are given by their defining
    formulas. *)
Theorem keccak_correct cfg junk s :
  length junk = 10%nat -> state_ok s -> sha3_process_block72 cfg junk s = keccak_f s.
Proof. intros Hj Hs. apply keccak_process_fips; assumption. Qed.

(** C10. SHA-3: [sha3_begin], a block size set by the caller, [sha3_hash] on
    any pieces (byte by byte, or by words of [long]) and [sha3_end] return,
    and write the digest FIPS 202 defines of the whole message. *)
Theorem sha3_stream cfg junk ctx r chunks :
  (forall s, length (junk s) = 10%nat) -> (72 <= r < 200)%nat -> (r mod 8 = 0)%nat ->
  Forall bytes chunks ->
  let ctx0 := mk_ctx3 (state (sha3_begin ctx)) (bytes_queued (sha3_begin ctx)) (Z.of_nat r) in
  exists ctx1 ctx2, fold_opt (sha3_hash cfg junk) chunks ctx0 = Some ctx1
    /\ sha3_end cfg junk ctx1
       = (ctx2, f_sha3 r ((200 - r) / 2) (concat chunks), Z.of_nat ((200 - r) / 2)).
Proof.
  intros Hj Hr Hw Hc ctx0.
  assert (H0 : queued r ctx0 []).
  { split; [apply bytes_nil|].
    assert (Hb : (length (@nil Z) < block_bytes (Z.of_nat r))%nat) by (rewrite block_r; cbn [length]; lia).
    rewrite tail_of_short, absorb_short, add_block_nil by (exact Hb || reflexivity). reflexivity. }
  destruct (fold_opt_concat _ _ _ (hash_queued cfg junk Hj r Hr Hw) _ _ _ Hc H0) as (ctx1 & E1 & H1).
  cbn [app] in H1.
  destruct (end_digest cfg junk Hj r Hr Hw ctx1 (concat chunks) H1) as (ctx2 & E2).
  exists ctx1, ctx2. auto.
Qed.

(** *** Witnesses *)

Definition cfg0 : config := {| SHA3_SMALL := false; long64 := false |}.

Lemma keccak_correct_witness :
  nth 0 (sha3_process_block72 cfg0 (repeat 5 10) (repeat 0 25)) 0 = 0xf1258f7940e1dde7.
Proof. rewrite (keccak_correct cfg0 (repeat 5 10) _ eq_refl zero_ok). vm_compute. reflexivity. Defined.

Lemma sha3_stream_witness :
  exists ctx1 ctx2,
    fold_opt (sha3_hash cfg0 (fun _ => repeat 5 10)) [[97]; [98; 99]] (sha3_begin (mk_ctx3 [] 1 2)) = Some ctx1
    /\ sha3_end cfg0 (fun _ => repeat 5 10) ctx1 = (ctx2, f_sha3 72 64 [97; 98; 99], 64).
Proof.
  apply (sha3_stream cfg0 (fun _ => repeat 5 10) (mk_ctx3 [] 1 2) 72 [[97]; [98; 99]]);
    [reflexivity|lia|reflexivity|repeat constructor; vm_compute; congruence].
Defined.
End SHA3.
