(* ===== verification/Aes.v ===== *)
(** * AES

    [networking/tls_aes.c]: key expansion, encryption and decryption of a
    block, and the CBC mode, for keys of 128, 192 and 256 bits. The theorems:
    encryption is the cipher of FIPS 197, whose S-box and column mixing are
    given by the arithmetic of GF(2^8), and CBC decryption inverts CBC
    encryption. *)

From Stdlib Require Import Ascii String ZArith List Lia Bool Btauto Ring.
From S2P Require Import Prelude Words Bitops.
Import ListNotations.
Local Open Scope Z_scope.

Module AES.

(** ** The code *)

Definition sbox : list Z := hex (
  "637c777bf26b6fc53001672bfed7ab76ca82c97dfa5947f0add4a2af9ca472c0" ++
  "b7fd9326363ff7cc34a5e5f171d8311504c723c31896059a071280e2eb27b275" ++
  "09832c1a1b6e5aa0523bd6b329e32f8453d100ed20fcb15b6acbbe394a4c58cf" ++
  "d0efaafb434d338545f9027f503c9fa851a3408f929d38f5bcb6da2110fff3d2" ++
  "cd0c13ec5f974417c4a77e3d645d197360814fdc222a908846eeb814de5e0bdb" ++
  "e0323a0a4906245cc2d3ac629195e479e7c8376d8dd54ea96c56f4ea657aae08" ++
  "ba78252e1ca6b4c6e8dd741f4bbd8b8a703eb5664803f60e613557b986c11d9e" ++
  "e1f8981169d98e949b1e87e9ce5528df8ca1890dbfe6426841992d0fb054bb16")%string.

Definition rsbox : list Z := hex (
  "52096ad53036a538bf40a39e81f3d7fb7ce339829b2fff87348e4344c4dee9cb" ++
  "547b9432a6c2233dee4c950b42fac34e082ea16628d924b2765ba2496d8bd125" ++
  "72f8f66486689816d4a45ccc5d65b6926c704850fdedb9da5e154657a78d9d84" ++
  "90d8ab008cbcd30af7e45805b8b34506d02c1e8fca3f0f02c1afbd0301138a6b" ++
  "3a9111414f67dcea97f2cfcef0b4e67396ac7422e7ad3585e2f937e81c75df6e" ++
  "47f11a711d29c5896fb7620eaa18be1bfc563e4bc6d279209adbc0fe78cd5af4" ++
  "1fdda8338807c731b11210592780ec5f60517fa919b54a0d2de57a9f93c99cef" ++
  "a0e03b4dae2af5b0c8ebbb3c83539961172b047eba77d626e169146355210c7d")%string.

(** [sbox[i]] *)
Definition at_ (table : list Z) (i : Z) : Z := nth (Z.to_nat i) table 0.

Definition Subword (x : Z) : Z :=
  Z.lor (Z.lor (Z.lor (Z.shiftl (at_ sbox (Z.shiftr x 24)) 24)
                      (Z.shiftl (at_ sbox (Z.land (Z.shiftr x 16) 255)) 16))
               (Z.shiftl (at_ sbox (Z.land (Z.shiftr x 8) 255)) 8))
        (at_ sbox (Z.land x 255)).

Definition Rcon : list Z := [0x01; 0x02; 0x04; 0x08; 0x10; 0x20; 0x40; 0x80; 0x1b; 0x36].

(** One iteration of the second loop of [KeyExpansion]; the state is
    [RoundKey], [j] and [k]. *)
Definition expand_step (words_key : nat) (st : list Z * nat * nat) (i : nat) : list Z * nat * nat :=
  let '(RoundKey, j, k) := st in
  let tempa := nth (i - 1) RoundKey 0 in
  let tempa :=
    if (j =? 0)%nat then
      let tempa := Z.lor (u32 (Z.shiftl tempa 8)) (Z.shiftr tempa 24) in
      let tempa := Subword tempa in
      Z.lxor tempa (u32 (Z.shiftl (nth k Rcon 0) 24))
    else if (6 <? words_key)%nat && (j =? 4)%nat then Subword tempa
    else tempa in
  let RoundKey := upd RoundKey i (Z.lxor (nth (i - words_key) RoundKey 0) tempa) in
  let j := (j + 1)%nat in
  if (j =? words_key)%nat then (RoundKey, 0%nat, (k + 1)%nat) else (RoundKey, j, k).

(** The array [RoundKey] has 60 words; what is not written keeps what it
    held. The second component is the value returned. *)
Definition KeyExpansion (RoundKey key : list Z) : list Z * nat :=
  let key_len := length key in
  let words_key := (key_len / 4)%nat in
  let rounds := (6 + key_len / 4)%nat in
  let words_RoundKey := (28 + key_len)%nat in
  let RoundKey := fold_left (fun RoundKey i => upd RoundKey i (be_word (slice (4 * i) 4 key)))
                            (seq 0 words_key) RoundKey in
  let '(RoundKey, _, _) := fold_left (expand_step words_key)
                             (seq words_key (words_RoundKey - words_key)) (RoundKey, 0%nat, 0%nat) in
  (RoundKey, rounds).

(** The loops over [i = 0, 4, 8, 12]: a function of four words of the state,
    and for [AddRoundKey] of a round key. *)
Definition on_columns (f : nat -> Z -> Z -> Z -> Z -> list Z) (astate : list Z) : list Z :=
  fold_left (fun astate i =>
    blit astate i (f (i / 4)%nat (nth i astate 0) (nth (i + 1) astate 0) (nth (i + 2) astate 0)
                     (nth (i + 3) astate 0))) [0; 4; 8; 12]%nat astate.

Definition AddRoundKey (astate RoundKeys : list Z) : list Z :=
  on_columns (fun c s0 s1 s2 s3 =>
    let n := nth c RoundKeys 0 in
    [Z.lxor s0 (Z.shiftr n 24); Z.lxor s1 (Z.land (Z.shiftr n 16) 255);
     Z.lxor s2 (Z.land (Z.shiftr n 8) 255); Z.lxor s3 (Z.land n 255)]) astate.

Definition SubBytes (astate : list Z) : list Z :=
  fold_left (fun a i => upd a i (at_ sbox (nth i a 0))) (seq 0 16) astate.

(** [ASTATE(col,row)] *)
Definition ASTATE (astate : list Z) (col row : nat) : Z := nth (col * 4 + row) astate 0.
Definition set_ASTATE (astate : list Z) (col row : nat) (v : Z) : list Z :=
  upd astate (col * 4 + row) v.

(** [ASTATE(c1,row) = ASTATE(c2,row)] *)
Definition move (row c1 c2 : nat) (a : list Z) : list Z := set_ASTATE a c1 row (ASTATE a c2 row).
(** [v = ASTATE(c1,row); ASTATE(c1,row) = ASTATE(c2,row); ASTATE(c2,row) = v] *)
Definition swap (row c1 c2 : nat) (a : list Z) : list Z :=
  let v := ASTATE a c1 row in set_ASTATE (move row c1 c2 a) c2 row v.

Definition ShiftRows (a : list Z) : list Z :=
  let v := ASTATE a 0 1 in
  let a := move 1 2 3 (move 1 1 2 (move 1 0 1 a)) in
  let a := set_ASTATE a 3 1 v in
  let a := swap 2 1 3 (swap 2 0 2 a) in
  let v := ASTATE a 3 3 in
  let a := move 3 1 0 (move 3 2 1 (move 3 3 2 a)) in
  set_ASTATE a 0 3 v.

Definition InvShiftRows (a : list Z) : list Z :=
  let v := ASTATE a 3 1 in
  let a := move 1 1 0 (move 1 2 1 (move 1 3 2 a)) in
  let a := set_ASTATE a 0 1 v in
  let a := swap 2 1 3 (swap 2 0 2 a) in
  let v := ASTATE a 0 3 in
  let a := move 3 2 3 (move 3 1 2 (move 3 0 1 a)) in
  set_ASTATE a 3 3 v.

(** [x ^ ((-(int)(x >> 8)) & 0x11b)] *)
Definition reduce (x : Z) : Z := Z.lxor x (Z.land (- (Z.shiftr x 8)) 0x11b).

(** Exclusive or and left shift of the type [unsigned]. *)
Declare Scope aes_scope.
Notation "a ^^ b" := (Z.lxor a b) (at level 36, left associativity) : aes_scope.
Notation "a << n" := (u32 (Z.shiftl a n)) (at level 35) : aes_scope.
Local Open Scope aes_scope.

Definition MixColumns (astate : list Z) : list Z :=
  on_columns (fun _ a b c d =>
    let x := (a << 1) ^^ b ^^ (b << 1) ^^ c ^^ d in
    let y := a ^^ (b << 1) ^^ c ^^ (c << 1) ^^ d in
    let z := a ^^ b ^^ (c << 1) ^^ d ^^ (d << 1) in
    let t := a ^^ (a << 1) ^^ b ^^ c ^^ (d << 1) in
    [reduce x; reduce y; reduce z; reduce t]) astate.

Definition InvSubBytes (astate : list Z) : list Z :=
  fold_left (fun a i => upd a i (at_ rsbox (nth i a 0))) (seq 0 16) astate.

Definition Multiply (x : Z) : Z :=
  let y := Z.shiftr x 8 in
  Z.land (x ^^ y ^^ (y << 1) ^^ (y << 3) ^^ (y << 4)) 255.

Definition InvMixColumns (astate : list Z) : list Z :=
  on_columns (fun _ a b c d =>
    let x := (a << 1) ^^ (a << 2) ^^ (a << 3) ^^ b ^^ (b << 1) ^^ (b << 3)
             ^^ c ^^ (c << 2) ^^ (c << 3) ^^ d ^^ (d << 3) in
    let y := a ^^ (a << 3) ^^ (b << 1) ^^ (b << 2) ^^ (b << 3)
             ^^ c ^^ (c << 1) ^^ (c << 3) ^^ d ^^ (d << 2) ^^ (d << 3) in
    let z := a ^^ (a << 2) ^^ (a << 3) ^^ b ^^ (b << 3)
             ^^ (c << 1) ^^ (c << 2) ^^ (c << 3) ^^ d ^^ (d << 1) ^^ (d << 3) in
    let t := a ^^ (a << 1) ^^ (a << 3) ^^ b ^^ (b << 2) ^^ (b << 3)
             ^^ c ^^ (c << 3) ^^ (d << 1) ^^ (d << 2) ^^ (d << 3) in
    [Multiply x; Multiply y; Multiply z; Multiply t]) astate.

Record tls_aes := mk_aes { key : list Z; rounds : nat }.

(** The loop of [aes_encrypt_1]; [rounds] counts down to zero. *)
Fixpoint encrypt_loop (rounds : nat) (astate RoundKey : list Z) : list Z :=
  match rounds with
  | O => astate
  | S rounds =>
      let astate := AddRoundKey astate RoundKey in
      let RoundKey := skipn 4 RoundKey in
      let astate := ShiftRows (SubBytes astate) in
      if (rounds =? 0)%nat then AddRoundKey astate RoundKey
      else encrypt_loop rounds (MixColumns astate) RoundKey
  end.

Definition aes_encrypt_1 (aes : tls_aes) (astate : list Z) : list Z :=
  encrypt_loop (rounds aes) astate (key aes).

Definition aes_setkey (aes : tls_aes) (k : list Z) : tls_aes :=
  let '(RoundKey, r) := KeyExpansion (key aes) k in mk_aes RoundKey r.

(** [ct[i] = astate[i]] stores a byte. *)
Definition aes_encrypt_one_block (aes : tls_aes) (data : list Z) : list Z :=
  map u8 (aes_encrypt_1 aes (firstn 16 data)).

(** The data written at [dst]; [len] is the length of [pt] and counts down by
    16. *)
Fixpoint cbc_encrypt_loop (fuel : nat) (aes : tls_aes) (iv2 pt : list Z) : option (list Z) :=
  if (length pt =? 0)%nat then Some [] else
  match fuel with
  | O => None
  | S fuel =>
      let astate := xor_bytes (firstn 16 pt) iv2 in
      let ct := map u8 (aes_encrypt_1 aes astate) in
      option_map (app ct) (cbc_encrypt_loop fuel aes ct (skipn 16 pt))
  end.

Definition aes_cbc_encrypt (aes : tls_aes) (iv data : list Z) : option (list Z) :=
  cbc_encrypt_loop (length data / 16) aes iv data.

(** The loop of [aes_decrypt_1]; [RoundKey] is the whole array, the pointer is
    at [4 * rounds]. *)
Fixpoint decrypt_loop (rounds : nat) (astate RoundKey : list Z) : list Z :=
  match rounds with
  | O => astate
  | S rounds =>
      let astate := InvSubBytes (InvShiftRows astate) in
      let astate := AddRoundKey astate (skipn (4 * rounds) RoundKey) in
      if (rounds =? 0)%nat then astate
      else decrypt_loop rounds (InvMixColumns astate) RoundKey
  end.

Definition aes_decrypt_1 (aes : tls_aes) (astate : list Z) : list Z :=
  decrypt_loop (rounds aes) (AddRoundKey astate (skipn (4 * rounds aes) (key aes))) (key aes).

Fixpoint cbc_decrypt_loop (fuel : nat) (aes : tls_aes) (ivbuf ct : list Z) : option (list Z) :=
  if (length ct =? 0)%nat then Some [] else
  match fuel with
  | O => None
  | S fuel =>
      let ivnext := firstn 16 ct in
      let astate := aes_decrypt_1 aes ivnext in
      let pt := map u8 (xor_bytes astate ivbuf) in
      option_map (app pt) (cbc_decrypt_loop fuel aes ivnext (skipn 16 ct))
  end.

Definition aes_cbc_decrypt (aes : tls_aes) (iv data : list Z) : option (list Z) :=
  cbc_decrypt_loop (length data / 16) aes iv data.

(** ** FIPS 197 *)

(** Multiplication in GF(2^8), section 4.2. *)
Definition xtime (a : Z) : Z :=
  let a := 2 * a in if Z.testbit a 8 then Z.lxor a 0x11b else a.
Definition gmul (a b : Z) : Z :=
  fold_left (fun r i => if Z.testbit a (Z.of_nat i) then Z.lxor r (Nat.iter i xtime b) else r)
            (seq 0 8) 0.

(** The S-box, section 5.1.1: the inverse, then an affine map over GF(2). *)
Definition ginv (a : Z) : Z :=
  match find (fun b => gmul a b =? 1) (map Z.of_nat (seq 0 256)) with Some b => b | None => 0 end.
Definition affine (b : Z) : Z :=
  fold_left (fun r i =>
    let bit k := Z.testbit b (Z.of_nat ((i + k) mod 8)) in
    let v := xorb (xorb (xorb (xorb (xorb (bit 0%nat) (bit 4%nat)) (bit 5%nat)) (bit 6%nat)) (bit 7%nat))
                  (Z.testbit 0x63 (Z.of_nat i)) in
    if v then Z.setbit r (Z.of_nat i) else r) (seq 0 8) 0.
Definition S_box (a : Z) : Z := affine (ginv a).

(** A state is a list of 16 bytes; row [r] of column [c] is byte [r + 4 c]. *)
Definition cell (s : list Z) (r c : nat) : Z := nth (r + 4 * (c mod 4)) s 0.
Definition of_cells (f : nat -> nat -> Z) : list Z := map (fun i => f (i mod 4) (i / 4))%nat (seq 0 16).

Definition f_SubBytes (s : list Z) : list Z := map S_box s.
Definition f_ShiftRows (s : list Z) : list Z := of_cells (fun r c => cell s r (c + r)).
Definition f_MixColumns (s : list Z) : list Z :=
  of_cells (fun r c =>
    let a k := cell s ((r + k) mod 4)%nat c in
    Z.lxor (Z.lxor (gmul 2 (a 0%nat)) (gmul 3 (a 1%nat))) (Z.lxor (a 2%nat) (a 3%nat))).
Definition f_AddRoundKey (s w : list Z) : list Z := xor_bytes s (concat (map (be_bytes 4) (firstn 4 w))).

(** Key expansion, section 5.2: [n] more words after the key. *)
Definition f_SubWord (w : Z) : Z := be_word (map S_box (be_bytes 4 w)).
Definition f_RotWord (w : Z) : Z :=
  match be_bytes 4 w with a :: l => be_word (l ++ [a]) | [] => 0 end.
Definition f_Rcon (i : nat) : Z := be_word [Nat.iter (i - 1) xtime 1; 0; 0; 0].
Definition f_next (Nk : nat) (w : list Z) : Z :=
  let i := length w in
  let temp := nth (i - 1) w 0 in
  let temp := if (i mod Nk =? 0)%nat then Z.lxor (f_SubWord (f_RotWord temp)) (f_Rcon (i / Nk))
              else if (6 <? Nk)%nat && (i mod Nk =? 4)%nat then f_SubWord temp else temp in
  Z.lxor (nth (i - Nk) w 0) temp.
Definition f_expand (Nk : nat) (key : list Z) (n : nat) : list Z :=
  grow (f_next Nk) (map (fun i => be_word (slice (4 * i) 4 key)) (seq 0 Nk)) n.

(** The cipher, section 5.1, with [Nk] words of key and [Nr = Nk + 6] rounds. *)
Definition f_cipher (key block : list Z) : list Z :=
  let Nk := (length key / 4)%nat in
  let Nr := (Nk + 6)%nat in
  let w := f_expand Nk key (4 * (Nr + 1) - Nk) in
  let rk i := skipn (4 * i) w in
  let s := f_AddRoundKey block (rk 0%nat) in
  let s := fold_left (fun s r => f_AddRoundKey (f_MixColumns (f_ShiftRows (f_SubBytes s))) (rk r))
                     (seq 1 (Nr - 1)) s in
  f_AddRoundKey (f_ShiftRows (f_SubBytes s)) (rk Nr).

(** ** The steps of a round *)

(** Equality of exclusive ors up to order. *)
Ltac xor_ac := apply Z.bits_inj'; intros ? _; rewrite !Z.lxor_spec, ?Z.bits_0; ring.

Definition block (s : list Z) : Prop := length s = 16%nat /\ bytes s.

(** A block as 16 bytes. *)
Ltac explode s H :=
  let Hl := fresh in let Hb := fresh in destruct H as [Hl Hb];
  do 16 (destruct s as [|? s]; [discriminate Hl|]); destruct s; [clear Hl|discriminate Hl];
  repeat match goal with H : bytes (_ :: _) |- _ => inversion H; clear H; subst end;
  repeat match goal with H : Forall _ (_ :: _) |- _ => inversion H; clear H; subst end.

Lemma sbox_fips x : in_u 8 x -> at_ sbox x = S_box x.
Proof. apply (all_bytes_eq (at_ sbox)). vm_compute. reflexivity. Qed.

Lemma S_box_range x : in_u 8 x -> in_u 8 (S_box x).
Proof.
  intros Hx. rewrite <- sbox_fips by exact Hx.
  pose proof (all_bytes (fun x => (0 <=? at_ sbox x) && (at_ sbox x <? 256)) ltac:(vm_compute; reflexivity) x Hx) as H.
  apply andb_prop in H as [H0 H1]. apply Z.leb_le in H0. apply Z.ltb_lt in H1. split; [exact H0|exact H1].
Qed.

Lemma rsbox_sbox x : in_u 8 x -> at_ rsbox (S_box x) = x.
Proof.
  intros Hx. rewrite <- sbox_fips by exact Hx. revert x Hx.
  apply (all_bytes_eq (fun x => at_ rsbox (at_ sbox x)) (fun x => x)). vm_compute. reflexivity.
Qed.

Lemma SubBytes_map table s :
  length s = 16%nat ->
  fold_left (fun a i => upd a i (at_ table (nth i a 0))) (seq 0 16) s = map (at_ table) s.
Proof.
  intros Hl. pose proof (fold_upd_map (at_ table) s []) as E. rewrite Hl, !app_nil_r in E. exact E.
Qed.

Lemma SubBytes_fips s : block s -> SubBytes s = f_SubBytes s.
Proof.
  intros [Hl Hb]. unfold SubBytes. rewrite SubBytes_map by exact Hl.
  apply map_ext_in. intros x Hx. apply sbox_fips. unfold bytes in Hb. rewrite Forall_forall in Hb. auto.
Qed.

Lemma f_SubBytes_block s : block s -> block (f_SubBytes s).
Proof.
  intros [Hl Hb]. split; [unfold f_SubBytes; rewrite length_map; exact Hl|].
  apply Forall_map. eapply Forall_impl; [|exact Hb]. exact S_box_range.
Qed.

Lemma InvSubBytes_id s : block s -> InvSubBytes (f_SubBytes s) = s.
Proof.
  intros Hs. unfold InvSubBytes. rewrite SubBytes_map by apply f_SubBytes_block, Hs.
  unfold f_SubBytes. rewrite map_map. destruct Hs as [_ Hb]. unfold bytes in Hb. rewrite Forall_forall in Hb.
  rewrite <- (map_id s) at 2. apply map_ext_in. intros x Hx. apply rsbox_sbox; auto.
Qed.

Lemma ShiftRows_fips s : length s = 16%nat -> ShiftRows s = f_ShiftRows s.
Proof.
  intros Hl. do 16 (destruct s as [|? s]; [discriminate|]). destruct s; [|discriminate]. reflexivity.
Qed.

Lemma of_cells_block f : (forall r c, (r < 4)%nat -> in_u 8 (f r c)) -> block (of_cells f).
Proof.
  intros Hf. split; [reflexivity|]. apply Forall_map, Forall_forall. intros i _.
  apply Hf, Nat.mod_upper_bound. lia.
Qed.

Lemma cell_range s r c : block s -> (r < 4)%nat -> in_u 8 (cell s r c).
Proof.
  intros [Hl Hb] Hr. unfold bytes in Hb. rewrite Forall_forall in Hb. apply Hb, nth_In. rewrite Hl.
  pose proof (Nat.mod_upper_bound c 4). lia.
Qed.

Lemma f_ShiftRows_block s : block s -> block (f_ShiftRows s).
Proof. intros Hs. apply of_cells_block. intros. apply cell_range; assumption. Qed.

Lemma InvShiftRows_id s : length s = 16%nat -> InvShiftRows (f_ShiftRows s) = s.
Proof.
  intros Hl. do 16 (destruct s as [|? s]; [discriminate|]). destruct s; [|discriminate]. reflexivity.
Qed.

(** *** Mixing columns *)

Lemma u32_lxor a b : u32 (Z.lxor a b) = Z.lxor (u32 a) (u32 b).
Proof.
  apply Z.bits_inj'. intros i Hi. unfold u32. rewrite Z.lxor_spec, !wrap_testbit, Z.lxor_spec by lia.
  destruct (i <? 32), (Z.testbit a i), (Z.testbit b i); reflexivity.
Qed.

Lemma shl_lxor a b n : Z.lxor a b << n = Z.lxor (a << n) (b << n).
Proof. rewrite Z.shiftl_lxor. apply u32_lxor. Qed.

Lemma reduce_bit x : in_u 9 x -> reduce x = Z.lxor x (if Z.testbit x 8 then 0x11b else 0).
Proof.
  intros [H0 H1]. unfold reduce. f_equal. change (2 ^ 9) with 512 in H1.
  assert (Hq : Z.shiftr x 8 = 0 \/ Z.shiftr x 8 = 1).
  { rewrite Z.shiftr_div_pow2 by lia. change (2 ^ 8) with 256.
    pose proof (Z.div_lt_upper_bound x 256 2). pose proof (Z.div_pos x 256). lia. }
  replace (Z.testbit x 8) with (Z.testbit (Z.shiftr x 8) 0) by (rewrite Z.shiftr_spec by lia; reflexivity).
  destruct Hq as [-> | ->]; reflexivity.
Qed.

Lemma reduce_lxor a b : in_u 9 a -> in_u 9 b -> reduce (Z.lxor a b) = Z.lxor (reduce a) (reduce b).
Proof.
  intros Ha Hb. rewrite !reduce_bit by (try apply in_u_lxor; auto; lia). rewrite Z.lxor_spec.
  destruct (Z.testbit a 8), (Z.testbit b 8); cbn [xorb]; xor_ac.
Qed.

Lemma in_u_9 x : in_u 8 x -> in_u 9 x.
Proof. unfold in_u. lia. Qed.
Lemma in_u_9_shl x : in_u 8 x -> in_u 9 (x << 1).
Proof.
  intros [H0 H1]. change (2 ^ 8) with 256 in H1. unfold u32. rewrite Z.shiftl_mul_pow2 by lia.
  change (2 ^ 1) with 2. rewrite wrap_small; red; lia.
Qed.

Lemma reduce_id x : in_u 8 x -> reduce x = x.
Proof. apply (all_bytes_eq reduce (fun x => x)). vm_compute. reflexivity. Qed.
Lemma reduce_2 x : in_u 8 x -> reduce (x << 1) = gmul 2 x.
Proof. apply (all_bytes_eq (fun x => reduce (x << 1)) (gmul 2)). vm_compute. reflexivity. Qed.
Lemma gmul_3 x : in_u 8 x -> gmul 3 x = Z.lxor x (gmul 2 x).
Proof. apply (all_bytes_eq (gmul 3) (fun x => Z.lxor x (gmul 2 x))). vm_compute. reflexivity. Qed.
Lemma gmul_range k x : in_u 8 x -> k = 2 \/ k = 3 -> in_u 8 (gmul k x).
Proof.
  intros Hx Hk.
  assert (H2 : in_u 8 (gmul 2 x)).
  { pose proof (all_bytes (fun x => (0 <=? gmul 2 x) && (gmul 2 x <? 256)) ltac:(vm_compute; reflexivity) x Hx) as H.
    apply andb_prop in H as [H0 H1]. apply Z.leb_le in H0. apply Z.ltb_lt in H1. split; [exact H0|exact H1]. }
  destruct Hk as [-> | ->]; [exact H2|]. rewrite gmul_3 by exact Hx. apply in_u_lxor; auto; lia.
Qed.

Create HintDb aes.
#[local] Hint Resolve in_u_9 in_u_9_shl : aes.
#[local] Hint Extern 3 (in_u _ (Z.lxor _ _)) => apply in_u_lxor; [lia| |] : aes.

Lemma MixColumns_fips s : block s -> MixColumns s = f_MixColumns s.
Proof.
  intros Hs. explode s Hs.
  cbv [MixColumns on_columns fold_left blit firstn skipn app nth Nat.add length f_MixColumns of_cells map seq
       cell Nat.modulo Nat.divmod Nat.div Nat.sub Nat.mul fst snd].
  rewrite !reduce_lxor, !reduce_2, !reduce_id, !gmul_3 by auto 9 with aes.
  repeat (apply (f_equal2 cons); [xor_ac|]). reflexivity.
Qed.

Lemma f_MixColumns_block s : block s -> block (f_MixColumns s).
Proof.
  intros Hs. apply of_cells_block. intros r c Hr.
  assert (Hc : forall k, in_u 8 (cell s ((r + k) mod 4) c))
    by (intros; apply cell_range; [exact Hs|apply Nat.mod_upper_bound; lia]).
  apply in_u_lxor; [lia|apply in_u_lxor; [lia|apply gmul_range; [apply Hc|auto]..]|].
  apply in_u_lxor; [lia|apply Hc..].
Qed.

(** The inverse: multiplication by 9, 11, 13 and 14 as the code does it. *)
Definition m9 (x : Z) : Z := Multiply (x ^^ (x << 3)).
Definition m11 (x : Z) : Z := Multiply (x ^^ (x << 1) ^^ (x << 3)).
Definition m13 (x : Z) : Z := Multiply (x ^^ (x << 2) ^^ (x << 3)).
Definition m14 (x : Z) : Z := Multiply ((x << 1) ^^ (x << 2) ^^ (x << 3)).

Lemma land_lxor a b c : Z.land (Z.lxor a b) c = Z.lxor (Z.land a c) (Z.land b c).
Proof.
  apply Z.bits_inj'. intros i _. rewrite Z.land_spec, !Z.lxor_spec, !Z.land_spec. btauto.
Qed.

Lemma Multiply_lxor a b : Multiply (Z.lxor a b) = Z.lxor (Multiply a) (Multiply b).
Proof.
  unfold Multiply. rewrite Z.shiftr_lxor, !shl_lxor, <- land_lxor. f_equal. xor_ac.
Qed.

Lemma m_lxor a b :
  m9 (Z.lxor a b) = Z.lxor (m9 a) (m9 b) /\ m11 (Z.lxor a b) = Z.lxor (m11 a) (m11 b)
  /\ m13 (Z.lxor a b) = Z.lxor (m13 a) (m13 b) /\ m14 (Z.lxor a b) = Z.lxor (m14 a) (m14 b).
Proof.
  unfold m9, m11, m13, m14. rewrite !shl_lxor, <- !Multiply_lxor.
  repeat split; f_equal; xor_ac.
Qed.

(** The product of the two matrices, column by column. *)
Definition inverse_at (x : Z) : bool :=
  let g2 := gmul 2 x in let g3 := gmul 3 x in
  (Z.lxor (Z.lxor (m14 g2) (m11 x)) (Z.lxor (m13 x) (m9 g3)) =? x)
  && (Z.lxor (Z.lxor (m14 g3) (m11 g2)) (Z.lxor (m13 x) (m9 x)) =? 0)
  && (Z.lxor (Z.lxor (m14 x) (m11 g3)) (Z.lxor (m13 g2) (m9 x)) =? 0)
  && (Z.lxor (Z.lxor (m14 x) (m11 x)) (Z.lxor (m13 g3) (m9 g2)) =? 0).

Lemma inverse_columns x :
  in_u 8 x ->
  let g2 := gmul 2 x in let g3 := gmul 3 x in
  Z.lxor (Z.lxor (m14 g2) (m11 x)) (Z.lxor (m13 x) (m9 g3)) = x
  /\ Z.lxor (Z.lxor (m14 g3) (m11 g2)) (Z.lxor (m13 x) (m9 x)) = 0
  /\ Z.lxor (Z.lxor (m14 x) (m11 g3)) (Z.lxor (m13 g2) (m9 x)) = 0
  /\ Z.lxor (Z.lxor (m14 x) (m11 x)) (Z.lxor (m13 g3) (m9 g2)) = 0.
Proof.
  intros Hx g2 g3.
  pose proof (all_bytes inverse_at ltac:(vm_compute; reflexivity) x Hx) as H.
  unfold inverse_at in H. fold g2 g3 in H. rewrite !andb_true_iff, !Z.eqb_eq in H. tauto.
Qed.

(** One row of the product, for a column [a b c d]. *)
Lemma inverse_row a b c d :
  in_u 8 a -> in_u 8 b -> in_u 8 c -> in_u 8 d ->
  let p x y z t := Z.lxor (Z.lxor (gmul 2 x) (gmul 3 y)) (Z.lxor z t) in
  Z.lxor (Z.lxor (m14 (p a b c d)) (m11 (p b c d a))) (Z.lxor (m13 (p c d a b)) (m9 (p d a b c))) = a.
Proof.
  intros Ha Hb Hc Hd p. unfold p.
  repeat match goal with
  | |- context [m9 (Z.lxor ?x ?y)] => rewrite (proj1 (m_lxor x y))
  | |- context [m11 (Z.lxor ?x ?y)] => rewrite (proj1 (proj2 (m_lxor x y)))
  | |- context [m13 (Z.lxor ?x ?y)] => rewrite (proj1 (proj2 (proj2 (m_lxor x y))))
  | |- context [m14 (Z.lxor ?x ?y)] => rewrite (proj2 (proj2 (proj2 (m_lxor x y))))
  end.
  destruct (inverse_columns a Ha) as (Ea & _). destruct (inverse_columns b Hb) as (_ & Eb & _).
  destruct (inverse_columns c Hc) as (_ & _ & Ec & _). destruct (inverse_columns d Hd) as (_ & _ & _ & Ed).
  match type of Ea with ?A = _ => match type of Eb with ?B = _ =>
  match type of Ec with ?C = _ => match type of Ed with ?D = _ =>
    transitivity (Z.lxor (Z.lxor (Z.lxor A B) C) D)
  end end end end; [|rewrite Ea, Eb, Ec, Ed, !Z.lxor_0_r; reflexivity].
  xor_ac.
Qed.

(** The four rows of the code's inverse, in terms of the products. *)
Lemma inv_rows a b c d :
  Multiply ((a << 1) ^^ (a << 2) ^^ (a << 3) ^^ b ^^ (b << 1) ^^ (b << 3)
            ^^ c ^^ (c << 2) ^^ (c << 3) ^^ d ^^ (d << 3))
  = Z.lxor (Z.lxor (m14 a) (m11 b)) (Z.lxor (m13 c) (m9 d))
  /\ Multiply (a ^^ (a << 3) ^^ (b << 1) ^^ (b << 2) ^^ (b << 3)
               ^^ c ^^ (c << 1) ^^ (c << 3) ^^ d ^^ (d << 2) ^^ (d << 3))
  = Z.lxor (Z.lxor (m14 b) (m11 c)) (Z.lxor (m13 d) (m9 a))
  /\ Multiply (a ^^ (a << 2) ^^ (a << 3) ^^ b ^^ (b << 3)
               ^^ (c << 1) ^^ (c << 2) ^^ (c << 3) ^^ d ^^ (d << 1) ^^ (d << 3))
  = Z.lxor (Z.lxor (m14 c) (m11 d)) (Z.lxor (m13 a) (m9 b))
  /\ Multiply (a ^^ (a << 1) ^^ (a << 3) ^^ b ^^ (b << 2) ^^ (b << 3)
               ^^ c ^^ (c << 3) ^^ (d << 1) ^^ (d << 2) ^^ (d << 3))
  = Z.lxor (Z.lxor (m14 d) (m11 a)) (Z.lxor (m13 b) (m9 c)).
Proof.
  unfold m9, m11, m13, m14. rewrite <- !Multiply_lxor.
  split; [|split; [|split]]; f_equal; xor_ac.
Qed.

(** A function on columns, column by column. *)
Definition column (s : list Z) (c : nat) : list Z := slice (4 * c) 4 s.
Definition on_list (f : Z -> Z -> Z -> Z -> list Z) (l : list Z) : list Z :=
  match l with [a; b; c; d] => f a b c d | _ => [] end.

(** The result on the next column, as four variables. *)
Ltac next_column f Hf :=
  cbv [on_columns fold_left blit nth firstn skipn app Nat.add Nat.div Nat.divmod fst length
       seq map concat on_list column slice Nat.mul Nat.sub];
  match goal with |- context [f ?c ?x ?y ?z ?t] =>
    is_var x; is_var y; is_var z; is_var t; let H := fresh in
    pose proof (Hf c x y z t) as H; destruct (f c x y z t) as [|? [|? [|? [|? [|]]]]]; try discriminate H; clear H
  end.

Lemma on_columns_concat f s :
  length s = 16%nat -> (forall c x y z t, length (f c x y z t) = 4%nat) ->
  on_columns f s = concat (map (fun c => on_list (f c) (column s c)) (seq 0 4)).
Proof.
  intros Hl Hf. do 16 (destruct s as [|? s]; [discriminate|]). destruct s; [|discriminate].
  do 4 next_column f Hf. reflexivity.
Qed.

Lemma column_bytes s c :
  block s -> (c < 4)%nat ->
  exists x y z t, column s c = [x; y; z; t] /\ in_u 8 x /\ in_u 8 y /\ in_u 8 z /\ in_u 8 t.
Proof.
  intros Hs Hc. explode s Hs. do 4 (destruct c as [|c]; [unfold column, slice; cbn; eauto 12|]). lia.
Qed.

Lemma column_mix s c :
  block s -> (c < 4)%nat ->
  column (f_MixColumns s) c = on_list (fun x y z t =>
    let p x y z t := Z.lxor (Z.lxor (gmul 2 x) (gmul 3 y)) (Z.lxor z t) in
    [p x y z t; p y z t x; p z t x y; p t x y z]) (column s c).
Proof.
  intros [Hs _] Hc. do 16 (destruct s as [|? s]; [discriminate|]). destruct s; [|discriminate].
  do 4 (destruct c as [|c]; [reflexivity|]). lia.
Qed.

Lemma columns_concat s : length s = 16%nat -> concat (map (column s) (seq 0 4)) = s.
Proof.
  intros Hl. do 16 (destruct s as [|? s]; [discriminate|]). destruct s; [reflexivity|discriminate].
Qed.

Lemma InvMixColumns_id s : block s -> InvMixColumns (f_MixColumns s) = s.
Proof.
  intros Hs. unfold InvMixColumns. rewrite on_columns_concat by reflexivity.
  transitivity (concat (map (column s) (seq 0 4))); [|apply columns_concat, Hs]. f_equal. apply map_ext_in. intros c Hc%in_seq.
  rewrite column_mix by (auto; lia).
  destruct (column_bytes s c Hs ltac:(lia)) as (x & y & z & t & -> & Hx & Hy & Hz & Ht).
  cbn [on_list]. cbv zeta.
  destruct (inv_rows (Z.lxor (Z.lxor (gmul 2 x) (gmul 3 y)) (Z.lxor z t))
                     (Z.lxor (Z.lxor (gmul 2 y) (gmul 3 z)) (Z.lxor t x))
                     (Z.lxor (Z.lxor (gmul 2 z) (gmul 3 t)) (Z.lxor x y))
                     (Z.lxor (Z.lxor (gmul 2 t) (gmul 3 x)) (Z.lxor y z))) as (-> & -> & -> & ->).
  pose proof (inverse_row x y z t Hx Hy Hz Ht) as E1. pose proof (inverse_row y z t x Hy Hz Ht Hx) as E2.
  pose proof (inverse_row z t x y Hz Ht Hx Hy) as E3. pose proof (inverse_row t x y z Ht Hx Hy Hz) as E4.
  cbv zeta in *. rewrite E1, E2, E3, E4. reflexivity.
Qed.

(** *** Round keys *)

Definition words_ok (w : list Z) : Prop := Forall (in_u 32) w.

Lemma f_AddRoundKey_column s w c :
  length s = 16%nat -> (4 <= length w)%nat -> (c < 4)%nat ->
  column (f_AddRoundKey s w) c = xor_bytes (column s c) (be_bytes 4 (nth c w 0)).
Proof.
  intros Hs Hw Hc. do 16 (destruct s as [|? s]; [discriminate|]). destruct s; [|discriminate].
  do 4 (destruct w as [|? w]; [cbn in Hw; lia|]).
  do 4 (destruct c as [|c]; [reflexivity|]). lia.
Qed.

Lemma AddRoundKey_fips s w :
  block s -> words_ok w -> (4 <= length w)%nat -> AddRoundKey s w = f_AddRoundKey s w.
Proof.
  intros Hs Hw Hl. unfold AddRoundKey. rewrite on_columns_concat by (reflexivity || apply Hs).
  assert (Hlen : length (f_AddRoundKey s w) = 16%nat).
  { unfold f_AddRoundKey. rewrite length_xor; do 4 (destruct w as [|? w]; [cbn in Hl; lia|]);
      [reflexivity|apply Hs]. }
  rewrite <- (columns_concat (f_AddRoundKey s w)) by exact Hlen. f_equal. apply map_ext_in. intros c Hc%in_seq.
  rewrite f_AddRoundKey_column by (apply Hs || lia).
  destruct (column_bytes s c Hs ltac:(lia)) as (x & y & z & t & -> & _). cbn [on_list].
  unfold words_ok in Hw. rewrite Forall_forall in Hw.
  destruct (word_bytes (nth c w 0)) as (a0 & b0 & c0 & d0 & Ba & Bb & Bc & Bd & -> & E).
  { apply Hw, nth_In. lia. }
  destruct (word_parts a0 b0 c0 d0 Ba Bb Bc Bd) as (_ & P1 & P2 & P3 & P4 & _).
  cbv zeta in *. rewrite <- E in *. rewrite P1, P2, P3, P4. reflexivity.
Qed.

Lemma f_AddRoundKey_block s w :
  block s -> (4 <= length w)%nat -> block (f_AddRoundKey s w).
Proof.
  intros [Hl Hb] Hw. unfold f_AddRoundKey.
  do 4 (destruct w as [|? w]; [cbn in Hw; lia|]).
  split; [rewrite length_xor; [reflexivity|exact Hl]|].
  apply bytes_xor; [exact Hb|]. cbn [firstn map concat]. auto 9 with bytes.
Qed.

Lemma xor_involutive a b : length a = length b -> xor_bytes (xor_bytes a b) b = a.
Proof.
  revert b; induction a as [|x a IH]; intros [|y b] E; try discriminate; [reflexivity|].
  unfold xor_bytes in *. cbn [combine map]. f_equal; [|apply IH; injection E; auto].
  rewrite Z.lxor_assoc, Z.lxor_nilpotent. apply Z.lxor_0_r.
Qed.

Lemma f_AddRoundKey_id s w :
  length s = 16%nat -> (4 <= length w)%nat -> f_AddRoundKey (f_AddRoundKey s w) w = s.
Proof.
  intros Hl Hw. do 4 (destruct w as [|? w]; [cbn in Hw; lia|]). apply xor_involutive. exact Hl.
Qed.

(** *** The loops of a block *)

Section Rounds.
Variable w : list Z.
Variable Nr : nat.
Hypothesis w_words : words_ok w.
Hypothesis w_length : (4 * (Nr + 1) <= length w)%nat.

Definition rk (i : nat) : list Z := skipn (4 * i) w.

Lemma rk_ok i : (i <= Nr)%nat -> words_ok (rk i) /\ (4 <= length (rk i))%nat.
Proof.
  intros Hi. unfold rk. split; [|rewrite length_skipn; lia].
  unfold words_ok in *. rewrite <- (firstn_skipn (4 * i) w) in w_words.
  apply Forall_app in w_words. apply w_words.
Qed.

(** The state after [k] full rounds. *)
Fixpoint after (s : list Z) (k : nat) : list Z :=
  match k with
  | O => f_AddRoundKey s (rk 0)
  | S k => f_AddRoundKey (f_MixColumns (f_ShiftRows (f_SubBytes (after s k)))) (rk (S k))
  end.

Lemma after_block s k : block s -> (k <= Nr)%nat -> block (after s k).
Proof.
  intros Hs. induction k as [|k IH]; intros Hk; cbn [after]; apply f_AddRoundKey_block; try apply rk_ok; auto.
  apply f_MixColumns_block, f_ShiftRows_block, f_SubBytes_block, IH. lia.
Qed.

Definition final (s : list Z) : list Z :=
  f_AddRoundKey (f_ShiftRows (f_SubBytes (after s (Nr - 1)))) (rk Nr).

Lemma skipn_rk i : skipn 4 (rk i) = rk (S i).
Proof. unfold rk. rewrite skipn_skipn. f_equal. lia. Qed.

(** One round of [encrypt_loop], with the round's key still to be added. *)
Lemma encrypt_step s n i x :
  block s -> (i < Nr)%nat -> block x -> f_AddRoundKey x (rk i) = after s i ->
  let y := f_ShiftRows (f_SubBytes (after s i)) in
  encrypt_loop (S n) x (rk i)
  = if (n =? 0)%nat then f_AddRoundKey y (rk (S i)) else encrypt_loop n (f_MixColumns y) (rk (S i)).
Proof.
  intros Hs Hi Hx E y. destruct (rk_ok i ltac:(lia)) as [Hw Hl], (rk_ok (S i) ltac:(lia)) as [Hw' Hl'].
  pose proof (after_block s i Hs ltac:(lia)) as Ha. pose proof (f_SubBytes_block _ Ha) as Hb.
  assert (Hy : block y) by apply f_ShiftRows_block, Hb.
  cbn [encrypt_loop]. rewrite (AddRoundKey_fips x) by assumption.
  rewrite E, (SubBytes_fips _ Ha), (ShiftRows_fips _ (proj1 Hb)), skipn_rk. fold y.
  rewrite (AddRoundKey_fips y), (MixColumns_fips y) by assumption. reflexivity.
Qed.

Lemma encrypt_loop_spec s n i x :
  block s -> (i + S n = Nr)%nat -> block x -> f_AddRoundKey x (rk i) = after s i ->
  encrypt_loop (S n) x (rk i) = final s.
Proof.
  intros Hs. revert i x; induction n as [|n IH]; intros i x Hi Hx E;
    rewrite (encrypt_step s) by (assumption || lia); cbn [Nat.eqb].
  - unfold final. replace (Nr - 1)%nat with i by lia. replace Nr with (S i) by lia. reflexivity.
  - apply IH; [lia| |reflexivity].
    apply f_MixColumns_block, f_ShiftRows_block, f_SubBytes_block, after_block; [exact Hs|lia].
Qed.

(** [decrypt_loop] undoes the rounds one after another. *)
Lemma decrypt_loop_spec s n :
  block s -> (n < Nr)%nat ->
  decrypt_loop (S n) (f_ShiftRows (f_SubBytes (after s n))) w = s.
Proof.
  intros Hs. induction n as [|n IH]; intros Hn;
    pose proof (after_block s _ Hs (Nat.lt_le_incl _ _ Hn)) as Ha;
    destruct (rk_ok _ (Nat.lt_le_incl _ _ Hn)) as [Hw Hl];
    cbn [decrypt_loop]; rewrite InvShiftRows_id, InvSubBytes_id by (assumption || apply f_SubBytes_block, Ha);
    fold (rk (S n)) || fold (rk 0); rewrite AddRoundKey_fips by assumption; cbn [Nat.eqb after] in *.
  - apply f_AddRoundKey_id; [apply Hs|exact Hl].
  - pose proof (after_block s n Hs ltac:(lia)) as Hb.
    assert (Hc : block (f_ShiftRows (f_SubBytes (after s n)))) by apply f_ShiftRows_block, f_SubBytes_block, Hb.
    rewrite f_AddRoundKey_id, InvMixColumns_id by (assumption || apply f_MixColumns_block, Hc). apply IH. lia.
Qed.

Lemma decrypt_final s :
  block s -> (0 < Nr)%nat -> decrypt_loop Nr (AddRoundKey (final s) (skipn (4 * Nr) w)) w = s.
Proof.
  intros Hs HNr. destruct (rk_ok Nr (Nat.le_refl _)) as [Hw Hl]. fold (rk Nr). unfold final.
  pose proof (after_block s (Nr - 1) Hs ltac:(lia)) as Ha.
  assert (Hc : block (f_ShiftRows (f_SubBytes (after s (Nr - 1))))) by apply f_ShiftRows_block, f_SubBytes_block, Ha.
  rewrite AddRoundKey_fips, f_AddRoundKey_id by (auto using f_AddRoundKey_block; apply Hc).
  replace Nr with (S (Nr - 1)) at 1 by lia. apply decrypt_loop_spec; [exact Hs|lia].
Qed.

Lemma final_block s : block s -> (0 < Nr)%nat -> block (final s).
Proof.
  intros Hs HNr. apply f_AddRoundKey_block; [|apply rk_ok; lia].
  apply f_ShiftRows_block, f_SubBytes_block, after_block; [exact Hs|lia].
Qed.
End Rounds.
(** ** Key expansion *)

Lemma Subword_fips x : in_u 32 x -> Subword x = f_SubWord x /\ in_u 32 (f_SubWord x).
Proof.
  intros Hx. destruct (word_bytes x Hx) as (a & b & c & d & Ha & Hb & Hc & Hd & E & Ex).
  unfold f_SubWord. rewrite E. cbn [map]. apply S_box_range in Ha as Ha', Hb as Hb', Hc as Hc', Hd as Hd'.
  destruct (word_parts _ _ _ _ Ha' Hb' Hc' Hd') as (Hr & _ & _ & _ & _ & ->). split; [|exact Hr].
  destruct (word_parts a b c d Ha Hb Hc Hd) as (_ & P1 & P2 & P3 & P4 & _). rewrite <- Ex in *.
  unfold Subword. rewrite P1, P2, P3, P4, !sbox_fips by assumption.
  rewrite <- !Z.lor_assoc.
  rewrite (lor_shiftl 8), (lor_shiftl 16), (lor_shiftl 24); unfold in_u in *;
    change (2 ^ 8) with 256 in *; change (2 ^ 16) with 65536; change (2 ^ 24) with 16777216; lia.
Qed.

Lemma RotWord_fips x :
  in_u 32 x -> Z.lor (u32 (Z.shiftl x 8)) (Z.shiftr x 24) = f_RotWord x /\ in_u 32 (f_RotWord x).
Proof.
  intros Hx. destruct (word_bytes x Hx) as (a & b & c & d & Ha & Hb & Hc & Hd & E & Ex).
  unfold f_RotWord. rewrite E. cbn [app].
  destruct (word_parts _ _ _ _ Hb Hc Hd Ha) as (Hr & _ & _ & _ & _ & ->). split; [|exact Hr].
  destruct (word_parts a b c d Ha Hb Hc Hd) as (_ & P1 & _). rewrite <- Ex in P1. rewrite P1.
  replace (u32 (Z.shiftl x 8)) with (Z.shiftl ((b * 256 + c) * 256 + d) 8).
  - rewrite lor_shiftl by (assumption || lia). change (2 ^ 8) with 256. lia.
  - unfold u32, wrap. rewrite !Z.shiftl_mul_pow2 by lia. unfold in_u in *. change (2 ^ 8) with 256 in *.
    change (2 ^ 32) with 4294967296. apply Z.mod_unique with a; lia.
Qed.

Lemma Rcon_fips k : (k < 10)%nat -> u32 (Z.shiftl (nth k Rcon 0) 24) = f_Rcon (k + 1) /\ in_u 32 (f_Rcon (k + 1)).
Proof.
  intros Hk. do 10 (destruct k as [|k]; [split; [vm_compute; reflexivity|split; vm_compute; [discriminate|reflexivity]]|]).
  lia.
Qed.

Section Expand.
Variables (Nk : nat) (k0 : list Z).
Hypothesis Nk_ok : Nk = 4%nat \/ Nk = 6%nat \/ Nk = 8%nat.
Hypothesis k0_length : length k0 = (4 * Nk)%nat.
Hypothesis k0_bytes : bytes k0.

Let init := map (fun i => be_word (slice (4 * i) 4 k0)) (seq 0 Nk).

Lemma length_init : length init = Nk.
Proof. unfold init. rewrite length_map. apply length_seq. Qed.

Lemma init_words : Forall (in_u 32) init.
Proof.
  apply Forall_map, Forall_forall. intros i Hi. apply in_seq in Hi.
  pose proof (be_word_range (slice (4 * i) 4 k0) (bytes_slice _ _ _ k0_bytes)) as H.
  rewrite length_slice, k0_length in H. replace (Nat.min 4 (4 * Nk - 4 * i)) with 4%nat in H by lia. exact H.
Qed.

(** What has been written when the loop is at [i]. *)
Definition expanded (i : nat) (st : list Z * nat * nat) : Prop :=
  let '(R, j, k) := st in
  length R = 60%nat /\ firstn i R = f_expand Nk k0 (i - Nk) /\ words_ok R
  /\ j = (i mod Nk)%nat /\ (k + 1 = i / Nk)%nat.

Lemma first_words R :
  length R = 60%nat -> words_ok R ->
  expanded Nk (fold_left (fun R i => upd R i (be_word (slice (4 * i) 4 k0))) (seq 0 Nk) R, 0%nat, 0%nat).
Proof.
  intros HR HW.
  pose proof (fold_seq_inv (fun i R => length R = 60%nat /\ firstn i R = firstn i init /\ words_ok R)
    (fun R i => upd R i (be_word (slice (4 * i) 4 k0))) 0 Nk R) as H.
  cbn [Nat.add] in H. destruct H as (Hl & E & Hw); [|auto|].
  - intros i R' Hi (Hl & E & Hw). rewrite length_upd, firstn_upd, E by lia. split; [exact Hl|].
    assert (En : nth i init 0 = be_word (slice (4 * i) 4 k0))
      by (apply (nth_map_seq (fun i => be_word (slice (4 * i) 4 k0))); lia).
    assert (Hi' : (i < length init)%nat) by (rewrite length_init; lia).
    rewrite (firstn_S_nth init i 0), En by exact Hi'. split; [reflexivity|]. apply Forall_upd; [exact Hw|].
    rewrite <- En. pose proof init_words as Hin. rewrite Forall_forall in Hin. apply Hin, nth_In, Hi'.
  - rewrite (firstn_all2 init) in E by (rewrite length_init; lia).
    split; [exact Hl|]. split; [rewrite Nat.sub_diag; exact E|].
    split; [exact Hw|destruct Nk_ok as [-> |[-> | ->]]; split; reflexivity].
Qed.

Lemma f_next_word R i :
  (0 < i)%nat -> length R = i -> Forall (in_u 32) R -> in_u 32 (nth (i - 1) R 0) /\ in_u 32 (nth (i - Nk) R 0).
Proof.
  intros Hi Hl HR. rewrite Forall_forall in HR. destruct Nk_ok as [-> |[-> | ->]]; split; apply HR, nth_In; lia.
Qed.

Lemma expand_step_fips i st :
  (Nk <= i < 28 + 4 * Nk)%nat -> expanded i st -> expanded (S i) (expand_step Nk st i).
Proof.
  destruct st as [[R j] k]. intros Hi (Hl & E & Hw & Hj & Hk).
  assert (HN : (0 < Nk)%nat) by lia. assert (H60 : (28 + 4 * Nk <= 60)%nat) by lia.
  assert (Hn : forall m, (m < i)%nat -> nth m R 0 = nth m (firstn i R) 0).
  { intros m Hm. rewrite <- (firstn_skipn i R) at 1. apply app_nth1. rewrite length_firstn. lia. }
  assert (HF : length (firstn i R) = i) by (rewrite length_firstn; lia).
  destruct (f_next_word (firstn i R) i ltac:(lia) HF (Forall_firstn _ _ _ Hw)) as [Hw1 Hw2].
  destruct (RotWord_fips _ Hw1) as [ER HR], (Subword_fips _ Hw1) as [ES HS], (Subword_fips _ HR) as [ESR HSR].
  assert (Hk10 : (k < 10)%nat) by (pose proof (Nat.div_mod_eq i Nk); destruct Nk_ok as [-> |[-> | ->]]; lia).
  destruct (Rcon_fips k Hk10) as [EK HK]. pose proof (div_mod_succ i Nk HN) as Hstep.
  unfold expand_step. rewrite !Hn, ER, ES, ESR, EK by lia.
  set (v := Z.lxor (nth (i - Nk) _ 0) _).
  assert (Ev : v = f_next Nk (firstn i R)).
  { unfold v, f_next. rewrite HF, Hj, Hk. reflexivity. }
  assert (Hv : in_u 32 v).
  { unfold v. apply in_u_lxor; [lia|exact Hw2|]. destruct (j =? 0)%nat; [apply in_u_lxor; [lia|assumption..]|].
    destruct (_ && _); assumption. }
  enough (G : length (upd R i v) = 60%nat /\ firstn (S i) (upd R i v) = f_expand Nk k0 (S i - Nk)
              /\ words_ok (upd R i v)).
  { subst j. destruct (i mod Nk + 1 =? Nk)%nat; destruct Hstep as [H1 H2]; (split; [|split; [|split; [|split]]]); try apply G; lia. }
  rewrite length_upd, firstn_upd by lia. split; [exact Hl|]. split; [|apply Forall_upd; assumption].
  replace (S i - Nk)%nat with (S (i - Nk)) by lia. rewrite Ev, E. reflexivity.
Qed.

Lemma KeyExpansion_fips R :
  length R = 60%nat -> words_ok R ->
  let '(R', r) := KeyExpansion R k0 in
  length R' = 60%nat /\ r = (Nk + 6)%nat /\ words_ok R'
  /\ firstn (4 * (r + 1)) R' = f_expand Nk k0 (4 * (r + 1) - Nk).
Proof.
  intros HR HW. unfold KeyExpansion. rewrite k0_length.
  replace (4 * Nk / 4)%nat with Nk by (destruct Nk_ok as [-> |[-> | ->]]; reflexivity).
  pose proof (fold_seq_inv expanded (expand_step Nk) Nk (28 + 4 * Nk - Nk) _
                ltac:(intros; apply expand_step_fips; [lia|assumption]) (first_words R HR HW)) as H.
  replace (Nk + (28 + 4 * Nk - Nk))%nat with (4 * (6 + Nk + 1))%nat in H by lia.
  destruct (fold_left (expand_step Nk) _ _) as [[R' j] k]. destruct H as (Hl & E & Hw & _).
  split; [exact Hl|]. split; [lia|]. auto.
Qed.
End Expand.

(** ** The cipher *)

(** The type of a context: 60 words, and the rounds of one of the three key
    sizes. *)
Definition ctx_array (aes : tls_aes) : Prop := length (key aes) = 60%nat /\ words_ok (key aes).
Definition ctx_ok (aes : tls_aes) : Prop :=
  ctx_array aes /\ (rounds aes = 10 \/ rounds aes = 12 \/ rounds aes = 14)%nat.

Definition key_ok (k : list Z) : Prop :=
  (length k = 16 \/ length k = 24 \/ length k = 32)%nat /\ bytes k.

Lemma Nk_cases k :
  key_ok k -> let Nk := (length k / 4)%nat in (Nk = 4 \/ Nk = 6 \/ Nk = 8)%nat /\ length k = (4 * Nk)%nat.
Proof. intros [[-> |[-> | ->]] _]; cbn; auto. Qed.

Lemma aes_setkey_ok aes k :
  ctx_array aes -> key_ok k ->
  ctx_ok (aes_setkey aes k) /\ rounds (aes_setkey aes k) = (length k / 4 + 6)%nat
  /\ let n := (4 * (rounds (aes_setkey aes k) + 1))%nat in
     firstn n (key (aes_setkey aes k)) = f_expand (length k / 4) k (n - length k / 4).
Proof.
  intros [Hl Hw] Hk. destruct (Nk_cases k Hk) as [HN HL].
  pose proof (KeyExpansion_fips _ k HN HL (proj2 Hk) (key aes) Hl Hw) as H. unfold aes_setkey.
  destruct (KeyExpansion (key aes) k) as [R r]. destruct H as (H1 & H2 & H3 & H4).
  cbn [key rounds]. repeat split; auto. cbn [rounds]. lia.
Qed.

Lemma encrypt_final aes s :
  ctx_ok aes -> block s -> aes_encrypt_1 aes s = final (key aes) (rounds aes) s.
Proof.
  intros [[Hl Hw] Hr] Hs. unfold aes_encrypt_1.
  replace (rounds aes) with (S (rounds aes - 1)) at 1 by lia.
  apply (encrypt_loop_spec (key aes) (rounds aes) Hw ltac:(lia) s _ 0); [exact Hs|lia|exact Hs|reflexivity].
Qed.

Lemma encrypt_block aes s : ctx_ok aes -> block s -> block (aes_encrypt_1 aes s).
Proof.
  intros Hc Hs. rewrite encrypt_final by assumption. destruct Hc as [[Hl Hw] Hr].
  apply final_block; (assumption || lia).
Qed.

Lemma decrypt_encrypt aes s : ctx_ok aes -> block s -> aes_decrypt_1 aes (aes_encrypt_1 aes s) = s.
Proof.
  intros Hc Hs. rewrite encrypt_final by assumption. destruct Hc as [[Hl Hw] Hr].
  apply decrypt_final; (assumption || lia).
Qed.

(** The cipher uses the first [4 (Nr + 1)] words of its round keys. *)
Lemma f_AddRoundKey_firstn s w i n :
  (4 * i + 4 <= n)%nat -> f_AddRoundKey s (skipn (4 * i) (firstn n w)) = f_AddRoundKey s (skipn (4 * i) w).
Proof.
  intros Hi. unfold f_AddRoundKey. rewrite skipn_firstn_comm, firstn_firstn, Nat.min_l by lia. reflexivity.
Qed.

Lemma after_fold w n s k :
  (4 * k + 4 <= n)%nat ->
  fold_left (fun s r => f_AddRoundKey (f_MixColumns (f_ShiftRows (f_SubBytes s))) (skipn (4 * r) (firstn n w)))
            (seq 1 k) (f_AddRoundKey s (skipn (4 * 0) (firstn n w))) = after w s k.
Proof.
  induction k as [|k IH]; intros Hk; [apply f_AddRoundKey_firstn; lia|].
  rewrite seq_S, fold_left_app, IH by lia. apply f_AddRoundKey_firstn. lia.
Qed.

Lemma final_cipher w k s :
  let Nr := (length k / 4 + 6)%nat in
  firstn (4 * (Nr + 1)) w = f_expand (length k / 4) k (4 * (Nr + 1) - length k / 4) ->
  final w Nr s = f_cipher k s.
Proof.
  intros Nr E. unfold f_cipher. fold Nr. rewrite <- E, after_fold by lia.
  symmetry. apply f_AddRoundKey_firstn. lia.
Qed.

Lemma map_u8 l : bytes l -> map u8 l = l.
Proof. intros H. rewrite <- (map_id l) at 2. apply map_ext_Forall. eapply Forall_impl; [|exact H]. intros x. apply wrap_small. Qed.

(** ** CBC *)

Definition block_multiple (data : list Z) : Prop := exists n, length data = (16 * n)%nat.

Lemma cbc_roundtrip_loop aes n iv data :
  ctx_ok aes -> block iv -> length data = (16 * n)%nat -> bytes data ->
  exists ct, cbc_encrypt_loop n aes iv data = Some ct /\ length ct = (16 * n)%nat
    /\ cbc_decrypt_loop n aes iv ct = Some data.
Proof.
  intros Hc. revert iv data; induction n as [|n IH]; intros iv data Hiv Hd Hb.
  - destruct data; [|discriminate]. exists []. auto.
  - cbn [cbc_encrypt_loop]. destruct (Nat.eqb_spec (length data) 0); [lia|].
    set (s := xor_bytes (firstn 16 data) iv).
    assert (H16 : length (firstn 16 data) = 16%nat) by (rewrite length_firstn; lia).
    assert (Hs : block s).
    { split; [unfold s; rewrite length_xor; [apply Hiv|rewrite H16; symmetry; apply Hiv]|].
      apply bytes_xor; [apply bytes_firstn, Hb|apply Hiv]. }
    pose proof (encrypt_block aes s Hc Hs) as He. rewrite map_u8 by apply He.
    destruct (IH (aes_encrypt_1 aes s) (skipn 16 data) He) as (ct & E1 & Hl & E2);
      [rewrite length_skipn; lia|apply bytes_skipn, Hb|].
    rewrite E1. eexists. split; [reflexivity|]. destruct He as [He1 He2].
    split; [rewrite length_app, He1; lia|].
    cbn [cbc_decrypt_loop]. rewrite length_app, He1.
    rewrite firstn_app, skipn_app, He1, firstn_all2, skipn_all2 by lia. cbn [Nat.sub firstn skipn app Nat.add Nat.eqb].
    rewrite app_nil_r, E2, decrypt_encrypt by assumption. unfold s.
    rewrite xor_involutive by (rewrite H16; symmetry; apply Hiv).
    rewrite map_u8 by apply bytes_firstn, Hb. cbn [option_map]. rewrite firstn_skipn. reflexivity.
Qed.

(** *** Any ciphertext *)

Lemma length_on_columns f s :
  length s = 16%nat -> (forall c x y z t, length (f c x y z t) = 4%nat) -> length (on_columns f s) = 16%nat.
Proof.
  intros Hl Hf. do 16 (destruct s as [|? s]; [discriminate|]). destruct s; [|discriminate].
  do 4 next_column f Hf. reflexivity.
Qed.

Lemma length_AddRoundKey s w : length s = 16%nat -> length (AddRoundKey s w) = 16%nat.
Proof. intros Hl. apply length_on_columns; [exact Hl|reflexivity]. Qed.

Lemma length_InvSubBytes s : length (InvSubBytes s) = length s.
Proof.
  unfold InvSubBytes. apply (fold_inv (fun a => length a = length s)).
  - intros a i Ha. rewrite length_upd. exact Ha.
  - reflexivity.
Qed.

Lemma length_InvShiftRows s : length (InvShiftRows s) = length s.
Proof. unfold InvShiftRows, swap, move, set_ASTATE. rewrite !length_upd. reflexivity. Qed.

Lemma length_decrypt_loop n s w : length s = 16%nat -> length (decrypt_loop n s w) = 16%nat.
Proof.
  revert s; induction n as [|n IH]; intros s Hl; cbn [decrypt_loop]; [exact Hl|].
  assert (H : length (AddRoundKey (InvSubBytes (InvShiftRows s)) (skipn (4 * n) w)) = 16%nat)
    by (apply length_AddRoundKey; rewrite length_InvSubBytes, length_InvShiftRows; exact Hl).
  destruct (n =? 0)%nat; [exact H|]. apply IH, length_on_columns; [exact H|reflexivity].
Qed.

Lemma length_decrypt aes s : length s = 16%nat -> length (aes_decrypt_1 aes s) = 16%nat.
Proof. intros Hl. apply length_decrypt_loop, length_AddRoundKey, Hl. Qed.

Lemma bytes_map_u8 l : bytes (map u8 l).
Proof. apply Forall_map, Forall_forall. intros x _. apply in_u8. Qed.

(** CBC decryption of any data of [n] blocks. *)
Lemma cbc_decrypt_any n aes iv ct :
  length iv = 16%nat -> length ct = (16 * n)%nat ->
  exists pt, cbc_decrypt_loop n aes iv ct = Some pt /\ length pt = (16 * n)%nat /\ bytes pt.
Proof.
  revert iv ct; induction n as [|n IH]; intros iv ct Hiv Hl.
  - destruct ct; [|discriminate]. exists []. split; [reflexivity|]. split; [reflexivity|constructor].
  - cbn [cbc_decrypt_loop]. destruct (Nat.eqb_spec (length ct) 0); [lia|].
    assert (H16 : length (firstn 16 ct) = 16%nat) by (rewrite length_firstn; lia).
    destruct (IH (firstn 16 ct) (skipn 16 ct) H16) as (pt & -> & Hp & Bp); [rewrite length_skipn; lia|].
    eexists. split; [reflexivity|]. split; [|apply bytes_app; [apply bytes_map_u8|exact Bp]].
    rewrite length_app, length_map, length_xor, Hp by (rewrite length_decrypt; congruence). lia.
Qed.

Lemma aes_cbc_decrypt_any n aes iv ct :
  length iv = 16%nat -> length ct = (16 * n)%nat ->
  exists pt, aes_cbc_decrypt aes iv ct = Some pt /\ length pt = length ct /\ bytes pt.
Proof.
  intros Hiv Hl. unfold aes_cbc_decrypt. rewrite Hl.
  replace (16 * n / 16)%nat with n by (rewrite Nat.mul_comm, Nat.div_mul; lia). apply cbc_decrypt_any; assumption.
Qed.

Lemma encrypt_one_block aes data :
  ctx_ok aes -> bytes data -> (16 <= length data)%nat -> block (aes_encrypt_one_block aes data).
Proof.
  intros Hc Hb Hl. unfold aes_encrypt_one_block.
  assert (Hs : block (firstn 16 data)) by (split; [rewrite length_firstn; lia|apply bytes_firstn, Hb]).
  rewrite map_u8; apply encrypt_block; assumption.
Qed.

(** The cipher of a context whose key was set. *)
Lemma encrypt_cipher aes k data :
  ctx_array aes -> key_ok k -> bytes data -> (16 <= length data)%nat ->
  aes_encrypt_one_block (aes_setkey aes k) data = f_cipher k (firstn 16 data).
Proof.
  intros Ha Hk Hb Hl. destruct (aes_setkey_ok aes k Ha Hk) as (Hc & Er & E).
  assert (Hs : block (firstn 16 data)) by (split; [rewrite length_firstn; lia|apply bytes_firstn, Hb]).
  unfold aes_encrypt_one_block. rewrite map_u8 by apply (encrypt_block _ _ Hc Hs).
  rewrite encrypt_final by assumption. rewrite Er in *. apply final_cipher, E.
Qed.

(** C14. For a key of 16, 24 or 32 bytes, [aes_setkey] (whatever the array of
    round keys held) followed by [aes_encrypt_one_block] is the AES cipher of
    FIPS 197: the S-box is the inverse in GF(2^8) and an affine map, the
    columns are multiplied in GF(2^8), the round keys are those of the
    standard's key schedule. *)
Theorem aes_encrypt_correct aes k data :
  ctx_array aes -> key_ok k -> bytes data -> (16 <= length data)%nat ->
  aes_encrypt_one_block (aes_setkey aes k) data = f_cipher k (firstn 16 data).
Proof. exact (encrypt_cipher aes k data). Qed.

Lemma aes_encrypt_correct_witness :
  let k := map Z.of_nat (seq 0 16) in
  let data := map (fun i => Z.of_nat (17 * i)) (seq 0 16) in
  let aes := mk_aes (repeat 0 60) 0 in
  aes_encrypt_one_block (aes_setkey aes k) data = hex "69c4e0d86a7b0430d8cdb78070b4c55a".
Proof.
  cbv zeta. rewrite aes_encrypt_correct; [vm_compute; reflexivity| | | |cbn; lia].
  - split; [reflexivity|apply Forall_forall; intros x Hx; apply repeat_spec in Hx; subst; split; reflexivity || lia].
  - split; [left; reflexivity|]. apply is_bytes_ok. reflexivity.
  - apply is_bytes_ok. reflexivity.
Defined.

(** C15. [aes_cbc_encrypt] and [aes_cbc_decrypt] terminate on whole blocks and
    decryption with the same key and initialisation vector gives the data
    back. *)
Theorem aes_cbc_roundtrip aes k iv data :
  ctx_array aes -> key_ok k -> block iv -> bytes data -> block_multiple data ->
  exists ct, aes_cbc_encrypt (aes_setkey aes k) iv data = Some ct /\ length ct = length data
    /\ aes_cbc_decrypt (aes_setkey aes k) iv ct = Some data.
Proof.
  intros Ha Hk Hiv Hb [n Hn]. destruct (aes_setkey_ok aes k Ha Hk) as (Hc & _).
  destruct (cbc_roundtrip_loop _ n iv data Hc Hiv Hn Hb) as (ct & E1 & Hl & E2). exists ct.
  unfold aes_cbc_encrypt, aes_cbc_decrypt. rewrite Hl, Hn.
  replace (16 * n / 16)%nat with n by (rewrite Nat.mul_comm, Nat.div_mul; lia). auto.
Qed.

Lemma aes_cbc_roundtrip_witness :
  let k := map Z.of_nat (seq 0 32) in
  let iv := map Z.of_nat (seq 100 16) in
  let data := map Z.of_nat (seq 0 48) in
  let aes := mk_aes (repeat 0 60) 0 in
  exists ct, aes_cbc_encrypt (aes_setkey aes k) iv data = Some ct /\ length ct = length data
    /\ aes_cbc_decrypt (aes_setkey aes k) iv ct = Some data.
Proof.
  cbv zeta. apply aes_cbc_roundtrip.
  - split; [reflexivity|apply Forall_forall; intros x Hx; apply repeat_spec in Hx; subst; split; reflexivity || lia].
  - split; [right; right; reflexivity|]. apply is_bytes_ok. reflexivity.
  - split; [reflexivity|]. apply is_bytes_ok. reflexivity.
  - apply is_bytes_ok. reflexivity.
  - exists 3%nat. reflexivity.
Defined.

End AES.
