(* ===== verification/Gcm.v ===== *)
(** * GHASH

    [networking/tls_aesgcm.c]: the authentication hash of AES-GCM, with the
    field multiplication done in place on 16 bytes. The code for little-endian
    machines is modelled, for a [long] of four and of eight bytes. The theorem:
    [aesgcm_GHASH] is the GHASH of NIST SP 800-38D. *)

From Stdlib Require Import ZArith List Lia Bool.
From S2P Require Import Prelude Words Bitops.
Import ListNotations.
Local Open Scope Z_scope.

Module GCM.

(** ** The code *)

Definition swap_be (sz : nat) (x : Z) : Z := if (sz =? 4)%nat then bswap_32 x else bswap_64 x.

(** [carryIn] of [RIGHTSHIFTX] *)
Definition carry_in (sz : nat) (x : list Z) : Z :=
  if Z.testbit (nth 15 x 0) 0 then Z.shiftl 0xE1 (8 * Z.of_nat sz - 8) else 0.

(** One iteration of the loop of [RIGHTSHIFTX] on the array and [carryIn]. *)
Definition shift_word (sz : nat) (st : list Z * Z) (i : nat) : list Z * Z :=
  let '(x, carryIn) := st in
  let W := 8 * Z.of_nat sz in
  let ti := swap_be sz (word_at sz i x) in
  let carryOut := wrap W (Z.shiftl ti (W - 1)) in
  let ti := Z.lxor (Z.shiftr ti 1) carryIn in
  (blit x (sz * i) (le_bytes sz (swap_be sz ti)), carryOut).

(** The 64-bit code, on two words. *)
Definition shift_two (x : list Z) (carryIn : Z) : list Z :=
  let tt := bswap_64 (word_at 8 0 x) in
  let carryOut := u64 (Z.shiftl tt 63) in
  let tt := Z.lxor (Z.shiftr tt 1) carryIn in
  let x := blit x 0 (le_bytes 8 (bswap_64 tt)) in
  let tt := bswap_64 (word_at 8 1 x) in
  let tt := Z.lxor (Z.shiftr tt 1) carryOut in
  blit x 8 (le_bytes 8 (bswap_64 tt)).

Definition RIGHTSHIFTX (sz : nat) (x : list Z) : list Z :=
  let carryIn := carry_in sz x in
  if (sz =? 4)%nat then fst (fold_left (shift_word 4) (seq 0 (16 / 4)) (x, carryIn))
  else shift_two x carryIn.

(** The loop over the bits of a byte, on [Z], [X] and [y]. *)
Definition gmult_bit (sz : nat) (st : list Z * list Z * Z) : list Z * list Z * Z :=
  let '(z, X, y) := st in
  let z := if Z.land y 0x80 =? 0 then z else xorbuf16_aligned_long sz z X in
  (z, RIGHTSHIFTX sz X, u32 (Z.shiftl y 1)).
Definition gmult_byte (sz : nat) (Y : list Z) (st : list Z * list Z) (i : nat) : list Z * list Z :=
  let '(z, X) := st in
  fst (do_while 32 (gmult_bit sz) (fun '(_, _, y) => negb (Z.testbit y 31))
                (z, X, Z.lor 0x800000 (nth i Y 0))).

(** The new contents of [X]. *)
Definition GMULT (sz : nat) (X Y : list Z) : list Z :=
  fst (fold_left (gmult_byte sz Y) (seq 0 16) (repeat 0 16, X)).

Definition aSz : nat := 13.

(** [P32(x)[i] ^= SWAP_BE32(v)] *)
Definition xor_be32 (x : list Z) (i : nat) (v : Z) : list Z :=
  blit x (4 * i) (le_bytes 4 (Z.lxor (word_at 4 i x) (bswap_32 v))).

(** The hash left in [s]; [a] is the array of 16 bytes, [c] the data of
    [cSz] bytes, [aligned i] whether [c + 16 i] is aligned. *)
Definition aesgcm_GHASH (unaligned_ok : bool) (sz : nat) (aligned : nat -> bool) (h a c : list Z) : list Z :=
  let cSz := length c in
  let x := GMULT sz (firstn 16 a) h in
  let x :=
    if (cSz =? 0)%nat then x else
    let blocks := (cSz / 16)%nat in
    let partial := (cSz mod 16)%nat in
    let x := fold_left (fun x i => GMULT sz (xorbuf16 unaligned_ok (aligned i) sz x (slice (16 * i) 16 c)) h)
                       (seq 0 blocks) x in
    if (partial =? 0)%nat then x
    else GMULT sz (xorbuf unaligned_ok sz x (skipn (16 * blocks) c) partial) h in
  let x := xor_be32 x 1 (u32 (Z.of_nat aSz * 8)) in
  let x := xor_be32 x 3 (u32 (Z.of_nat cSz * 8)) in
  GMULT sz x h.

(** ** NIST SP 800-38D *)

(** A block is an integer of 128 bits, its first bit the most significant.
    Section 6.3: the product, with [R] the reduction polynomial. *)
Definition R : Z := Z.shiftl 0xE1 120.
Definition mulx (V : Z) : Z := if Z.testbit V 0 then Z.lxor (Z.shiftr V 1) R else Z.shiftr V 1.
Definition nist_step (X : Z) (st : Z * Z) (i : nat) : Z * Z :=
  let '(z, V) := st in
  (if Z.testbit X (127 - Z.of_nat i) then Z.lxor z V else z, mulx V).
Definition nist_state (X Y : Z) (n : nat) : Z * Z := fold_left (nist_step X) (seq 0 n) (0, Y).
Definition nist_mul (X Y : Z) : Z := fst (nist_state X Y 128).

(** Section 6.4: GHASH of a string of whole blocks. *)
Definition nist_ghash (H : Z) (S : list Z) : Z :=
  fold_left (fun y i => nist_mul (Z.lxor y (be_word (slice (16 * i) 16 S))) H) (seq 0 (length S / 16)) 0.

(** Section 7.1: its argument for the additional data [A] and the ciphertext
    [C], with the zeros that complete a block. *)
Definition pad16 (l : list Z) : list Z := l ++ repeat 0 ((16 - length l mod 16) mod 16).
Definition gcm_data (A C : list Z) : list Z :=
  pad16 A ++ pad16 C ++ be_bytes 8 (8 * Z.of_nat (length A)) ++ be_bytes 8 (8 * Z.of_nat (length C)).

(** ** The field *)

Lemma lxor_medial a b c d : Z.lxor (Z.lxor a b) (Z.lxor c d) = Z.lxor (Z.lxor a c) (Z.lxor b d).
Proof. rewrite !Z.lxor_assoc. f_equal. rewrite <- !Z.lxor_assoc. f_equal. apply Z.lxor_comm. Qed.

Fixpoint xsum (f : nat -> Z) (n : nat) : Z :=
  match n with O => 0 | S n => Z.lxor (xsum f n) (f n) end.

Lemma xsum_ext f g n : (forall i, (i < n)%nat -> f i = g i) -> xsum f n = xsum g n.
Proof. induction n as [|n IH]; intros H; cbn [xsum]; [reflexivity|]. rewrite IH, H by auto. reflexivity. Qed.

Lemma xsum_0 n : xsum (fun _ => 0) n = 0.
Proof. induction n as [|n IH]; cbn [xsum]; [|rewrite IH]; reflexivity. Qed.

Lemma xsum_lxor f g n : xsum (fun i => Z.lxor (f i) (g i)) n = Z.lxor (xsum f n) (xsum g n).
Proof. induction n as [|n IH]; cbn [xsum]; [reflexivity|]. rewrite IH. apply lxor_medial. Qed.

Lemma xsum_swap f n m : xsum (fun i => xsum (f i) m) n = xsum (fun j => xsum (fun i => f i j) n) m.
Proof.
  induction n as [|n IH]; cbn [xsum]; [symmetry; apply xsum_0|]. rewrite IH. symmetry.
  apply (xsum_lxor (fun j => xsum (fun i => f i j) n)).
Qed.

(** A linear function of a sum. *)
Lemma xsum_linear (h : Z -> Z) f n :
  h 0 = 0 -> (forall a b, h (Z.lxor a b) = Z.lxor (h a) (h b)) -> h (xsum f n) = xsum (fun i => h (f i)) n.
Proof. intros H0 Hl. induction n as [|n IH]; cbn [xsum]; [exact H0|]. rewrite Hl, IH. reflexivity. Qed.

Lemma mulx_lxor a b : mulx (Z.lxor a b) = Z.lxor (mulx a) (mulx b).
Proof.
  unfold mulx. rewrite Z.lxor_spec, Z.shiftr_lxor.
  destruct (Z.testbit a 0), (Z.testbit b 0); cbn [xorb]; [|rewrite ?Z.lxor_assoc..]; try reflexivity.
  - rewrite lxor_medial, Z.lxor_nilpotent, Z.lxor_0_r. reflexivity.
  - f_equal. apply Z.lxor_comm.
Qed.

Lemma iter_mulx_lxor i a b : Nat.iter i mulx (Z.lxor a b) = Z.lxor (Nat.iter i mulx a) (Nat.iter i mulx b).
Proof. induction i as [|i IH]; [reflexivity|]. cbn [Nat.iter nat_rect]. unfold Nat.iter in IH. rewrite IH. apply mulx_lxor. Qed.

Lemma iter_mulx_0 i : Nat.iter i mulx 0 = 0.
Proof. induction i as [|i IH]; [reflexivity|]. cbn [Nat.iter nat_rect]. unfold Nat.iter in IH. rewrite IH. reflexivity. Qed.

Lemma iter_add {A} (f : A -> A) i j x : Nat.iter i f (Nat.iter j f x) = Nat.iter (i + j) f x.
Proof. unfold Nat.iter. induction i as [|i IH]; cbn; [reflexivity|]. f_equal. exact IH. Qed.

Lemma pow2_bit n m : 0 <= n -> Z.testbit (2 ^ n) m = (n =? m).
Proof.
  intros Hn. destruct (Z.eqb_spec n m) as [<-|Hne]; [apply Z.pow2_bits_true, Hn|apply Z.pow2_bits_false, Hne].
Qed.

(** The powers of the indeterminate. *)
Lemma mulx_power j : (j < 128)%nat -> Nat.iter j mulx (2 ^ 127) = 2 ^ (127 - Z.of_nat j).
Proof.
  induction j as [|j IH]; intros Hj; [reflexivity|]. cbn [Nat.iter nat_rect]. unfold Nat.iter in IH. rewrite IH by lia.
  unfold mulx. rewrite (pow2_bit _ 0) by lia. destruct (Z.eqb_spec (127 - Z.of_nat j) 0); [lia|]. rewrite Z.shiftr_div_pow2 by lia.
  replace (127 - Z.of_nat j) with (127 - Z.of_nat (S j) + 1) by lia. rewrite Z.pow_add_r by lia.
  apply Z.div_mul. lia.
Qed.

Definition bit_of (X : Z) (i : nat) : bool := Z.testbit X (127 - Z.of_nat i).

Lemma xsum_bits X n i :
  0 <= i -> (n <= 128)%nat ->
  Z.testbit (xsum (fun j => if bit_of X j then 2 ^ (127 - Z.of_nat j) else 0) n) i
  = (127 - Z.of_nat n <? i) && (i <? 128) && Z.testbit X i.
Proof.
  intros Hi Hn. induction n as [|n IH]; cbn [xsum].
  - rewrite Z.bits_0. destruct (Z.ltb_spec (127 - Z.of_nat 0) i), (Z.ltb_spec i 128); try reflexivity. lia.
  - rewrite Z.lxor_spec, IH by lia. unfold bit_of.
    replace (Z.testbit (if Z.testbit X (127 - Z.of_nat n) then 2 ^ (127 - Z.of_nat n) else 0) i)
      with ((127 - Z.of_nat n =? i) && Z.testbit X i).
    + destruct (Z.ltb_spec (127 - Z.of_nat n) i), (Z.ltb_spec (127 - Z.of_nat (S n)) i), (Z.eqb_spec (127 - Z.of_nat n) i),
        (Z.ltb_spec i 128); cbn [andb]; rewrite ?xorb_false_r, ?xorb_false_l; try reflexivity; lia.
    + destruct (Z.testbit X (127 - Z.of_nat n)) eqn:Eb; rewrite ?pow2_bit, ?Z.bits_0 by lia;
        destruct (Z.eqb_spec (127 - Z.of_nat n) i) as [<-|Hne]; rewrite ?Eb; reflexivity.
Qed.

Lemma xsum_self X : in_u 128 X -> X = xsum (fun j => if bit_of X j then Nat.iter j mulx (2 ^ 127) else 0) 128.
Proof.
  intros HX. rewrite (xsum_ext _ (fun j => if bit_of X j then 2 ^ (127 - Z.of_nat j) else 0))
    by (intros j Hj; rewrite mulx_power by exact Hj; reflexivity).
  apply Z.bits_inj'. intros i Hi. rewrite xsum_bits by lia.
  destruct (Z.ltb_spec i 128); [|rewrite andb_false_r; apply (in_u_testbit 128); (assumption || lia)].
  destruct (Z.ltb_spec (127 - Z.of_nat 128) i); [reflexivity|lia].
Qed.

(** The state of the multiplication after [n] bits. *)
Lemma nist_steps X Y n :
  nist_state X Y n
  = (xsum (fun i => if bit_of X i then Nat.iter i mulx Y else 0) n, Nat.iter n mulx Y).
Proof.
  unfold nist_state. induction n as [|n IH]; [reflexivity|].
  rewrite seq_S, fold_left_app, IH. cbn [fold_left Nat.add nist_step xsum].
  unfold bit_of. destruct (Z.testbit X _); [|rewrite Z.lxor_0_r]; reflexivity.
Qed.

Lemma nist_mul_double X Y :
  in_u 128 Y ->
  nist_mul X Y = xsum (fun i => xsum (fun j => if bit_of X i && bit_of Y j then Nat.iter (i + j) mulx (2 ^ 127) else 0) 128) 128.
Proof.
  intros HY. unfold nist_mul. rewrite nist_steps. apply xsum_ext. intros i _.
  destruct (bit_of X i); cbn [andb]; [|symmetry; apply xsum_0].
  rewrite (xsum_self Y HY) at 1. rewrite xsum_linear by (apply iter_mulx_0 || apply iter_mulx_lxor).
  apply xsum_ext. intros j _. destruct (bit_of Y j); [apply iter_add|apply iter_mulx_0].
Qed.

Lemma nist_mul_comm X Y : in_u 128 X -> in_u 128 Y -> nist_mul X Y = nist_mul Y X.
Proof.
  intros HX HY. rewrite !nist_mul_double, xsum_swap by assumption.
  apply xsum_ext. intros j _. apply xsum_ext. intros i _. rewrite andb_comm, Nat.add_comm. reflexivity.
Qed.

(** ** The shift *)

Definition block (x : list Z) : Prop := length x = 16%nat /\ bytes x.
Definition long_ok (sz : nat) : Prop := sz = 4%nat \/ sz = 8%nat.

Lemma swap_be_word sz bs : long_ok sz -> bytes bs -> length bs = sz -> swap_be sz (le_word bs) = be_word bs.
Proof. intros [-> | ->] Hb Hl; [apply bswap_32_le|apply bswap_64_le]; assumption. Qed.

Lemma swap_be_bytes sz v : long_ok sz -> le_bytes sz (swap_be sz v) = be_bytes sz v.
Proof. intros [-> | ->]; [apply le_bytes_bswap_32|apply le_bytes_bswap_64]. Qed.

(** What the loop does with the words that are left. *)
Fixpoint shifted (sz n : nat) (c : Z) (x : list Z) : list Z :=
  match n with
  | O => []
  | S n =>
      let W := 8 * Z.of_nat sz in
      let t := be_word (firstn sz x) in
      be_bytes sz (Z.lxor (Z.shiftr t 1) c) ++ shifted sz n (wrap W (Z.shiftl t (W - 1))) (skipn sz x)
  end.

Lemma shift_words sz n done x c :
  long_ok sz -> bytes x -> (length x = sz * n)%nat -> (length done = sz * (length done / sz))%nat ->
  fst (fold_left (shift_word sz) (seq (length done / sz) n) (done ++ x, c)) = done ++ shifted sz n c x.
Proof.
  intros Hsz. revert done x c; induction n as [|n IH]; intros done x c Hx Hl Hd.
  - rewrite Nat.mul_0_r in Hl. apply length_zero_iff_nil in Hl as ->. reflexivity.
  - cbn [seq fold_left shifted]. set (k := (length done / sz)%nat) in *.
    assert (Hs0 : sz <> 0%nat) by (destruct Hsz; lia).
    assert (Hw : word_at sz k (done ++ x) = le_word (firstn sz x)).
    { unfold word_at, slice. rewrite <- Hd, skipn_app, skipn_all, Nat.sub_diag. reflexivity. }
    unfold shift_word at 2.
    rewrite Hw, swap_be_word, swap_be_bytes by (auto using bytes_firstn; rewrite length_firstn; lia).
    set (v := be_bytes sz _).
    assert (Hv : length v = sz) by apply length_be_bytes.
    assert (Hb : blit (done ++ x) (sz * k) v = (done ++ v) ++ skipn sz x).
    { unfold blit. rewrite <- Hd, firstn_app, firstn_all, Nat.sub_diag, app_nil_r, Hv.
      rewrite skipn_app, skipn_all2, <- app_assoc by lia.
      replace (length done + sz - length done)%nat with sz by lia. reflexivity. }
    rewrite Hb. replace (S k) with (length (done ++ v) / sz)%nat
      by (rewrite length_app, Hv, Hd; replace (sz * k + sz)%nat with (S k * sz)%nat by lia; apply Nat.div_mul, Hs0).
    rewrite IH, <- app_assoc; [reflexivity|apply bytes_skipn, Hx|rewrite length_skipn; lia|].
    rewrite length_app, Hv, Hd. replace (sz * k + sz)%nat with (S k * sz)%nat by lia. rewrite Nat.div_mul by exact Hs0. lia.
Qed.

Lemma RIGHTSHIFTX_words sz x :
  long_ok sz -> block x -> RIGHTSHIFTX sz x = shifted sz (16 / sz) (carry_in sz x) x.
Proof.
  intros Hsz [Hl Hx]. pose proof (shift_words sz (16 / sz) [] x (carry_in sz x) Hsz Hx) as E.
  cbn [app] in E. destruct Hsz as [-> | ->]; (rewrite <- E by (rewrite ?Hl; reflexivity)); reflexivity.
Qed.

(** A word shifted right, and the bit that goes to the next. *)
Lemma shiftr_carry W t k :
  0 < W <= k -> in_u W t ->
  Z.shiftr (Z.shiftl t k) 1 = Z.lxor (Z.shiftl (Z.shiftr t 1) k) (Z.shiftl (wrap W (Z.shiftl t (W - 1))) (k - W)).
Proof.
  intros Hk Ht. apply Z.bits_inj'. intros i Hi. rewrite Z.lxor_spec, Z.shiftr_spec, !Z.shiftl_spec by lia.
  destruct (Z_lt_dec i (k - W)).
  - rewrite !(Z.testbit_neg_r _ (i - k)), !(Z.testbit_neg_r _ (i - (k - W))), Z.testbit_neg_r by lia. reflexivity.
  - rewrite wrap_testbit, Z.shiftl_spec by lia.
    replace (i - (k - W) - (W - 1)) with (i + 1 - k) by lia. destruct (Z_lt_dec i k).
    + rewrite (Z.testbit_neg_r _ (i - k)) by lia. destruct (Z.ltb_spec (i - (k - W)) W); [|lia].
      rewrite xorb_false_l. reflexivity.
    + rewrite Z.shiftr_spec by lia. destruct (Z.ltb_spec (i - (k - W)) W); [lia|].
      replace (i - k + 1) with (i + 1 - k) by lia. rewrite xorb_false_r. reflexivity.
Qed.

Lemma shifted_value sz n c x :
  long_ok sz -> bytes x -> length x = (sz * S n)%nat -> in_u (8 * Z.of_nat sz) c ->
  be_word (shifted sz (S n) c x)
  = Z.lxor (Z.shiftr (be_word x) 1) (Z.shiftl c (8 * Z.of_nat sz * Z.of_nat n))
  /\ bytes (shifted sz (S n) c x) /\ length (shifted sz (S n) c x) = (sz * S n)%nat.
Proof.
  intros Hsz. set (W := 8 * Z.of_nat sz). assert (HW : 0 < W) by (destruct Hsz; lia).
  revert c x; induction n as [|n IH]; intros c x Hx Hl Hc.
  - cbn [shifted]. rewrite app_nil_r, Z.mul_0_r, Z.shiftl_0_r, firstn_all2 by lia.
    split; [|split; [apply bytes_be_bytes|rewrite length_be_bytes; lia]].
    rewrite be_word_be_bytes, <- (Z.pow_mul_r 2 8) by lia. fold W. apply wrap_small.
    apply in_u_lxor; [lia| |exact Hc]. apply in_u_shr; [lia..|].
    pose proof (be_word_u x Hx) as H. replace (Z.of_nat (length x)) with (Z.of_nat sz) in H by lia. exact H.
  - set (h := firstn sz x). set (t := skipn sz x).
    assert (Hh : length h = sz) by (unfold h; rewrite length_firstn; lia).
    assert (Ht : length t = (sz * S n)%nat) by (unfold t; rewrite length_skipn; lia).
    assert (Bh : bytes h) by apply bytes_firstn, Hx. assert (Bt : bytes t) by apply bytes_skipn, Hx.
    assert (Uh : in_u W (be_word h)) by (pose proof (be_word_u h Bh) as H; rewrite Hh in H; exact H).
    destruct (IH (wrap W (Z.shiftl (be_word h) (W - 1))) t Bt Ht (wrap_range W _ ltac:(lia))) as (Ev & Bv & Lv).
    change (shifted sz (S (S n)) c x) with (be_bytes sz (Z.lxor (Z.shiftr (be_word h) 1) c)
      ++ shifted sz (S n) (wrap W (Z.shiftl (be_word h) (W - 1))) t).
    split; [|split; [apply bytes_app; [apply bytes_be_bytes|exact Bv]|rewrite length_app, length_be_bytes, Lv; lia]].
    rewrite be_word_app, Lv, Ev, be_word_be_bytes by exact Bv. rewrite <- (Z.pow_mul_r 2 8) by lia. fold W.
    rewrite (Z.mod_small (Z.lxor _ c)) by (apply (in_u_lxor W); [lia|apply in_u_shr; (assumption || lia)|exact Hc]).
    replace x with (h ++ t) by apply firstn_skipn. rewrite be_word_app, Ht by exact Bt.
    rewrite Z.shiftr_lxor, Z.shiftl_lxor. replace (8 * Z.of_nat (sz * S n)) with (W * Z.of_nat (S n)) by (unfold W; rewrite Nat2Z.inj_mul; ring).
    rewrite (shiftr_carry W) by (assumption || nia).
    replace (W * Z.of_nat (S n) - W) with (W * Z.of_nat n) by (rewrite Nat2Z.inj_succ; ring).
    set (A := Z.shiftr (be_word t) 1). set (B := Z.shiftl (wrap W _) _). set (C := Z.shiftl (Z.shiftr _ _) _).
    set (D := Z.shiftl c _). rewrite !Z.lxor_assoc. f_equal. rewrite <- !Z.lxor_assoc. f_equal. apply Z.lxor_comm.
Qed.

Lemma RIGHTSHIFTX_mulx sz x :
  long_ok sz -> block x -> block (RIGHTSHIFTX sz x) /\ be_word (RIGHTSHIFTX sz x) = mulx (be_word x).
Proof.
  intros Hsz [Hl Hx]. rewrite RIGHTSHIFTX_words by (assumption || (split; assumption)).
  assert (Hb : Z.testbit (nth 15 x 0) 0 = Z.testbit (be_word x) 0)
    by (rewrite <- be_word_bit by (assumption || lia); rewrite Hl; reflexivity).
  destruct (shifted_value sz (16 / sz - 1) (carry_in sz x) x Hsz Hx) as (Ev & Bv & Lv).
  - rewrite Hl. destruct Hsz as [-> | ->]; reflexivity.
  - unfold carry_in. destruct Hsz as [-> | ->], (Z.testbit _ 0); split; vm_compute; congruence.
  - replace (S (16 / sz - 1)) with (16 / sz)%nat in * by (destruct Hsz as [-> | ->]; reflexivity).
    split; [split; [rewrite Lv; destruct Hsz as [-> | ->]; reflexivity|exact Bv]|].
    rewrite Ev. unfold mulx, carry_in. rewrite Hb. destruct (Z.testbit (be_word x) 0).
    + f_equal. destruct Hsz as [-> | ->]; reflexivity.
    + rewrite Z.shiftl_0_l. apply Z.lxor_0_r.
Qed.

(** ** The product *)

Lemma land_0x80 y : (Z.land y 0x80 =? 0) = negb (Z.testbit y 7).
Proof.
  change 0x80 with (2 ^ 7). destruct (Z.testbit y 7) eqn:E.
  - apply Z.eqb_neq. intros H. apply (f_equal (fun z => Z.testbit z 7)) in H.
    rewrite Z.land_spec, E in H. discriminate.
  - apply Z.eqb_eq, Z.bits_inj'. intros i Hi. rewrite Z.land_spec, Z.bits_0, pow2_bit by lia.
    destruct (Z.eqb_spec 7 i) as [<-|]; [rewrite E; reflexivity|apply andb_false_r].
Qed.

Lemma block_xor a b : block a -> block b -> block (xor_bytes a b) /\ be_word (xor_bytes a b) = Z.lxor (be_word a) (be_word b).
Proof.
  intros [La Ba] [Lb Bb]. split; [split; [rewrite length_xor; lia|apply bytes_xor; assumption]|].
  unfold be_word. rewrite lxor_bytes by (auto using bytes_rev; rewrite !length_rev; lia).
  rewrite xor_rev by lia. reflexivity.
Qed.

Lemma nist_state_S X Y n : nist_state X Y (S n) = nist_step X (nist_state X Y n) n.
Proof. unfold nist_state. rewrite seq_S, fold_left_app. reflexivity. Qed.

Section Product.
Variables (sz : nat) (X Y : list Z).
Hypothesis sz_ok : long_ok sz.
Hypothesis X_block : block X.
Hypothesis Y_block : block Y.

Definition at_bit (n : nat) (zx : list Z * list Z) : Prop :=
  block (fst zx) /\ block (snd zx) /\ (be_word (fst zx), be_word (snd zx)) = nist_state (be_word Y) (be_word X) n.

Lemma gmult_bit_spec i t z V :
  (i < 16)%nat -> (t < 8)%nat -> at_bit (8 * i + t) (z, V) ->
  let y := Z.shiftl (Z.lor 0x800000 (nth i Y 0)) (Z.of_nat t) in
  let '(z', V', y') := gmult_bit sz (z, V, y) in
  at_bit (8 * i + S t) (z', V') /\ y' = Z.shiftl (Z.lor 0x800000 (nth i Y 0)) (Z.of_nat (S t)).
Proof.
  intros Hi Ht (Hz & HV & E) y. cbn [fst snd] in *. unfold gmult_bit. rewrite land_0x80.
  assert (Hb : in_u 8 (nth i Y 0)).
  { destruct Y_block as [Hl Hb]. unfold bytes in Hb. rewrite Forall_forall in Hb. apply Hb, nth_In. lia. }
  destruct (RIGHTSHIFTX_mulx sz V sz_ok HV) as [HV' EV].
  assert (Ey : Z.testbit y 7 = Z.testbit (be_word Y) (127 - Z.of_nat (8 * i + t))).
  { unfold y. rewrite Z.shiftl_spec, Z.lor_spec by lia. change 0x800000 with (2 ^ 23). rewrite pow2_bit by lia.
    destruct (Z.eqb_spec 23 (7 - Z.of_nat t)); [lia|]. cbn [orb]. destruct Y_block as [Hl HbY].
    rewrite <- (be_word_bit Y i) by (assumption || lia). f_equal. lia. }
  split.
  - rewrite Nat.add_succ_r. split; [|split; [exact HV'|]]; cbn [fst snd].
    + destruct (Z.testbit y 7); cbn [negb]; [|exact Hz].
      rewrite xorbuf16_aligned_spec by (apply sz_ok || apply Hz || apply HV). apply block_xor; assumption.
    + rewrite nist_state_S, <- E, EV. unfold nist_step. rewrite <- Ey. destruct (Z.testbit y 7); cbn [negb]; [|reflexivity].
      rewrite xorbuf16_aligned_spec by (apply sz_ok || apply Hz || apply HV).
      rewrite (proj2 (block_xor z V Hz HV)). reflexivity.
  - unfold y. rewrite Z.shiftl_shiftl by lia. replace (Z.of_nat t + 1) with (Z.of_nat (S t)) by lia.
    apply wrap_small. assert (HB : in_u 24 (Z.lor 0x800000 (nth i Y 0))).
    { apply in_u_lor; [lia|split; [lia|reflexivity]|]. unfold in_u in *. lia. }
    destruct HB as [HB0 HB1]. rewrite Z.shiftl_mul_pow2 by lia. split; [apply Z.mul_nonneg_nonneg; lia|].
    change (2 ^ 32) with (2 ^ 24 * 2 ^ 8).
    pose proof (Z.pow_le_mono_r 2 (Z.of_nat (S t)) 8 ltac:(lia) ltac:(lia)).
    pose proof (Z.pow_pos_nonneg 2 (Z.of_nat (S t)) ltac:(lia) ltac:(lia)). nia.
Qed.

(** The eight iterations over the bits of a byte. *)
Lemma gmult_byte_spec i zx :
  (i < 16)%nat -> at_bit (8 * i) zx -> at_bit (8 * S i) (gmult_byte sz Y zx i).
Proof.
  intros Hi Hs. destruct zx as [z V]. unfold gmult_byte. set (B := Z.lor 0x800000 (nth i Y 0)).
  assert (Hb : in_u 8 (nth i Y 0)).
  { destruct Y_block as [Hl Hb]. unfold bytes in Hb. rewrite Forall_forall in Hb. apply Hb, nth_In. lia. }
  assert (HB : forall t, (t <= 8)%nat -> Z.testbit (Z.shiftl B (Z.of_nat t)) 31 = (t =? 8)%nat).
  { intros t Ht. rewrite Z.shiftl_spec by lia. unfold B. rewrite Z.lor_spec. change 0x800000 with (2 ^ 23).
    rewrite pow2_bit, (in_u_testbit 8 (nth i Y 0)), orb_false_r by (assumption || lia).
    destruct (Nat.eqb_spec t 8), (Z.eqb_spec 23 (31 - Z.of_nat t)); (reflexivity || lia). }
  pose proof (do_while_inv
    (fun t '(z, V, y) => at_bit (8 * i + t) (z, V) /\ y = Z.shiftl B (Z.of_nat t)) 8 32
    (gmult_bit sz) (fun '(_, _, y) => negb (Z.testbit y 31)) (z, V, B)) as H.
  destruct (do_while 32 _ _ _) as [[z' V'] y']. cbn [fst]. rewrite Nat.mul_succ_r. apply H; clear H.
  - intros t [[z1 V1] y1] Ht [H1 ->]. exact (gmult_bit_spec i t z1 V1 Hi Ht H1).
  - intros t [[z1 V1] y1] Ht [H1 ->]. rewrite HB by lia. destruct (Nat.eqb_spec t 8); (reflexivity || lia).
  - intros [[z1 V1] y1] [H1 ->]. rewrite HB by lia. reflexivity.
  - lia.
  - rewrite Nat.add_0_r. split; [exact Hs|reflexivity].
Qed.

#[local] Opaque gmult_byte nist_step.

Lemma gmult_bytes : at_bit (8 * 16) (fold_left (gmult_byte sz Y) (seq 0 16) (repeat 0 16, X)).
Proof.
  apply (fold_seq_inv (fun i => at_bit (8 * i)) (gmult_byte sz Y) 0 16).
  - intros i s Hi. apply gmult_byte_spec. lia.
  - split; [split; [reflexivity|apply bytes_zeros]|]. split; [exact X_block|reflexivity].
Qed.

Lemma be_word_block x : block x -> in_u 128 (be_word x).
Proof. intros [Hl Hb]. pose proof (be_word_u x Hb) as H. rewrite Hl in H. exact H. Qed.

Lemma GMULT_spec : block (GMULT sz X Y) /\ be_word (GMULT sz X Y) = nist_mul (be_word X) (be_word Y).
Proof.
  rewrite nist_mul_comm by (apply be_word_block; assumption).
  pose proof gmult_bytes as (Hb & _ & E). split; [exact Hb|].
  exact (f_equal fst E).
Qed.

#[local] Transparent gmult_byte nist_step.
End Product.

(** ** GHASH *)

Section Ghash.
Variables (unaligned_ok : bool) (sz : nat) (aligned : nat -> bool) (h : list Z).
Hypothesis sz_ok : long_ok sz.
Hypothesis h_block : block h.

(** The hash of [n] blocks of [S], from [y]. *)
Definition ghash_from (y : Z) (S : list Z) (a n : nat) : Z :=
  fold_left (fun y i => nist_mul (Z.lxor y (be_word (slice (16 * i) 16 S))) (be_word h)) (seq a n) y.

Definition hashed (x : list Z) (y : Z) : Prop := block x /\ be_word x = y.

Lemma hashed_xor x y b :
  hashed x y -> block b -> hashed (GMULT sz (xor_bytes x b) h) (nist_mul (Z.lxor y (be_word b)) (be_word h)).
Proof.
  intros [Hx <-] Hb. destruct (block_xor x b Hx Hb) as [Hxb <-]. apply GMULT_spec; assumption.
Qed.

Lemma ghash_from_app y S1 S2 n1 n2 :
  length S1 = (16 * n1)%nat ->
  ghash_from y (S1 ++ S2) 0 (n1 + n2) = ghash_from (ghash_from y S1 0 n1) S2 0 n2.
Proof.
  intros Hl. unfold ghash_from. rewrite seq_app, fold_left_app. cbn [Nat.add].
  replace (seq n1 n2) with (map (fun i => n1 + i)%nat (seq 0 n2)) by (rewrite seq_map_add, Nat.add_0_r; reflexivity).
  rewrite fold_left_map.
  rewrite (fold_left_ext (fun y i => nist_mul (Z.lxor y (be_word (slice (16 * i) 16 (S1 ++ S2)))) (be_word h))
             (fun y i => nist_mul (Z.lxor y (be_word (slice (16 * i) 16 S1))) (be_word h)) (seq 0 n1)).
  - apply fold_left_ext. intros y' i _. unfold slice. do 4 f_equal. rewrite skipn_app, skipn_all2 by lia.
    cbn [app]. f_equal. lia.
  - intros y' i Hi. apply in_seq in Hi. unfold slice. rewrite skipn_app, firstn_app, length_skipn.
    replace (16 - (length S1 - 16 * i))%nat with 0%nat by lia. rewrite app_nil_r. reflexivity.
Qed.

Lemma ghash_one y b : length b = 16%nat -> ghash_from y b 0 1 = nist_mul (Z.lxor y (be_word b)) (be_word h).
Proof.
  intros Hl. unfold ghash_from. cbn [seq fold_left]. change (slice (16 * 0) 16 b) with (firstn 16 b).
  rewrite firstn_all2 by lia. reflexivity.
Qed.

Lemma block_slice c i : bytes c -> (16 * i + 16 <= length c)%nat -> block (slice (16 * i) 16 c).
Proof. intros Hc Hi. split; [rewrite length_slice; lia|apply bytes_slice, Hc]. Qed.

(** The blocks of the ciphertext, without the last partial one. *)
Lemma ghash_blocks x y c n :
  hashed x y -> bytes c -> (16 * n <= length c)%nat ->
  hashed (fold_left (fun x i => GMULT sz (xorbuf16 unaligned_ok (aligned i) sz x (slice (16 * i) 16 c)) h) (seq 0 n) x)
         (ghash_from y c 0 n).
Proof.
  intros Hx Hc. induction n as [|n IH]; intros Hn; [exact Hx|].
  unfold ghash_from. rewrite !seq_S, !fold_left_app. cbn [fold_left Nat.add].
  specialize (IH ltac:(lia)). pose proof (block_slice c n Hc ltac:(lia)) as Hs.
  rewrite xorbuf16_spec by (apply sz_ok || apply IH || apply Hs). apply hashed_xor; assumption.
Qed.

Lemma pad16_length l : length (pad16 l) = (16 * (length (pad16 l) / 16))%nat.
Proof.
  assert (H : exists n, length (pad16 l) = (n * 16)%nat).
  { unfold pad16. rewrite length_app, repeat_length.
    pose proof (Nat.div_mod_eq (length l) 16). pose proof (Nat.mod_upper_bound (length l) 16 ltac:(lia)).
    destruct (Nat.eq_dec (length l mod 16) 0) as [E|E].
    - exists (length l / 16)%nat. rewrite E. change ((16 - 0) mod 16)%nat with 0%nat. lia.
    - exists (length l / 16 + 1)%nat. rewrite (Nat.mod_small (16 - _)) by lia. lia. }
  destruct H as [n ->]. rewrite Nat.div_mul by lia. lia.
Qed.

Lemma xor_zeros l n : length l = n -> xor_bytes l (repeat 0 n) = l.
Proof.
  revert n; induction l as [|x l IH]; intros n <-; [reflexivity|]. cbn [length repeat].
  unfold xor_bytes. cbn [combine map]. rewrite Z.lxor_0_r. f_equal. apply IH. reflexivity.
Qed.

(** The whole ciphertext. *)
Lemma ghash_text x y c :
  hashed x y -> bytes c ->
  let blocks := (length c / 16)%nat in
  let x' := fold_left (fun x i => GMULT sz (xorbuf16 unaligned_ok (aligned i) sz x (slice (16 * i) 16 c)) h) (seq 0 blocks) x in
  hashed (if (length c mod 16 =? 0)%nat then x'
          else GMULT sz (xorbuf unaligned_ok sz x' (skipn (16 * blocks) c) (length c mod 16)) h)
         (ghash_from y (pad16 c) 0 (length (pad16 c) / 16)).
Proof.
  intros Hx Hc blocks x'. set (p := (length c mod 16)%nat).
  pose proof (Nat.div_mod_eq (length c) 16) as Hdm. pose proof (Nat.mod_upper_bound (length c) 16 ltac:(lia)) as Hp.
  fold blocks p in Hdm, Hp. pose proof (ghash_blocks x y c blocks Hx Hc ltac:(lia)) as Hx'. fold x' in Hx'.
  unfold pad16. fold p. destruct (Nat.eqb_spec p 0) as [E|E].
  - rewrite E, app_nil_r. exact Hx'.
  - set (t := skipn (16 * blocks) c). set (b := t ++ repeat 0 (16 - p)).
    assert (Ht : length t = p) by (unfold t; rewrite length_skipn; lia).
    assert (Bt : bytes t) by apply bytes_skipn, Hc.
    assert (Hb : block b).
    { unfold b. split; [rewrite length_app, repeat_length; lia|]. apply bytes_app; [exact Bt|apply bytes_zeros]. }
    replace (c ++ repeat 0 ((16 - p) mod 16)) with (firstn (16 * blocks) c ++ b)
      by (rewrite (Nat.mod_small (16 - p)) by lia; unfold b, t; rewrite app_assoc, firstn_skipn; reflexivity).
    assert (Hf : length (firstn (16 * blocks) c) = (16 * blocks)%nat) by (rewrite length_firstn; lia).
    rewrite length_app, Hf, (proj1 Hb). replace ((16 * blocks + 16) / 16)%nat with (blocks + 1)%nat
      by (replace (16 * blocks + 16)%nat with ((blocks + 1) * 16)%nat by lia; rewrite Nat.div_mul; lia).
    rewrite ghash_from_app by exact Hf.
    assert (Ex : xorbuf unaligned_ok sz x' t p = xor_bytes x' b).
    { destruct Hx' as [[Lx Bx] _]. unfold xorbuf. rewrite xorbuf_3_spec by (auto; destruct sz_ok; lia).
      rewrite <- (firstn_skipn p x') at 3. unfold b. rewrite xor_app by (rewrite length_firstn; lia).
      rewrite xor_zeros by (rewrite length_skipn; lia). rewrite (firstn_all2 t) by lia. reflexivity. }
    rewrite Ex. pose proof (hashed_xor x' _ b Hx' Hb) as H.
    replace (ghash_from y (firstn (16 * blocks) c) 0 blocks) with (ghash_from y c 0 blocks);
      [rewrite ghash_one by apply Hb; exact H|].
    rewrite <- (firstn_skipn (16 * blocks) c) at 1.
    pose proof (ghash_from_app y _ (skipn (16 * blocks) c) blocks 0 Hf) as E'. rewrite Nat.add_0_r in E'. exact E'.
Qed.

Lemma be_bytes_block x : block x -> be_bytes 16 (be_word x) = x.
Proof. intros [Hl Hx]. rewrite <- Hl. apply be_bytes_be_word, Hx. Qed.

(** The block of the lengths. *)
Lemma xor_be32_spec x i v :
  block x -> (i < 4)%nat ->
  xor_be32 x i v = xor_bytes x (repeat 0 (4 * i) ++ be_bytes 4 v ++ repeat 0 (12 - 4 * i)).
Proof.
  intros [Lx Bx] Hi. unfold xor_be32, blit. rewrite length_le_bytes.
  change (bswap_32 v) with (le_word (be_bytes 4 v)). unfold word_at.
  rewrite xor_word by (auto using bytes_slice, bytes_be_bytes, length_be_bytes; rewrite length_slice; lia).
  transitivity (xor_bytes (firstn (4 * i) x ++ slice (4 * i) 4 x ++ skipn (4 * i + 4) x)
                          (repeat 0 (4 * i) ++ be_bytes 4 v ++ repeat 0 (12 - 4 * i))).
  - rewrite !xor_app by (rewrite ?length_be_bytes, ?repeat_length, ?length_slice, ?length_firstn; lia).
    rewrite !xor_zeros by (rewrite ?length_firstn, ?length_skipn; lia). reflexivity.
  - f_equal. unfold slice. rewrite Nat.add_comm, <- skipn_skipn, firstn_skipn. apply firstn_skipn.
Qed.

Lemma be_bytes_high z : in_u 32 z -> be_bytes 8 z = repeat 0 4 ++ be_bytes 4 z.
Proof.
  intros Hz. unfold be_bytes. change 8%nat with (4 + 4)%nat. rewrite le_bytes_app, rev_app_distr.
  rewrite Z.div_small by exact Hz. reflexivity.
Qed.

Lemma ghash_lengths x y a c :
  hashed x y -> 0 <= a < 2 ^ 32 -> 0 <= c < 2 ^ 32 ->
  hashed (GMULT sz (xor_be32 (xor_be32 x 1 a) 3 c) h) (ghash_from y (be_bytes 8 a ++ be_bytes 8 c) 0 1).
Proof.
  intros Hx Ha Hc.
  set (A := repeat 0 (4 * 1) ++ be_bytes 4 a ++ repeat 0 (12 - 4 * 1)).
  set (C := repeat 0 (4 * 3) ++ be_bytes 4 c ++ repeat 0 (12 - 4 * 3)).
  assert (Hz : forall n m v, (n + m = 12)%nat -> block (repeat 0 n ++ be_bytes 4 v ++ repeat 0 m)).
  { intros n m v Hn. split; [rewrite !length_app, !repeat_length, length_be_bytes; lia|].
    apply bytes_app; [apply bytes_zeros|]. apply bytes_app; [apply bytes_be_bytes|apply bytes_zeros]. }
  assert (HA : block A) by (apply Hz; reflexivity). assert (HC : block C) by (apply Hz; reflexivity).
  destruct Hx as [Hx <-]. destruct (block_xor x A Hx HA) as [H1 E1].
  rewrite (xor_be32_spec x), xor_be32_spec by (assumption || lia). fold A C.
  assert (E : be_bytes 8 a ++ be_bytes 8 c = xor_bytes A C).
  { rewrite !be_bytes_high by assumption. unfold A, C.
    pose proof (length_be_bytes 4 a) as La. pose proof (length_be_bytes 4 c) as Lc.
    destruct (be_bytes 4 a) as [|a0 [|a1 [|a2 [|a3 [|]]]]]; try discriminate La.
    destruct (be_bytes 4 c) as [|c0 [|c1 [|c2 [|c3 [|]]]]]; try discriminate Lc.
    unfold xor_bytes. cbn [Nat.mul Nat.sub Nat.add repeat app combine map]. rewrite !Z.lxor_0_r. reflexivity. }
  destruct (block_xor A C HA HC) as [H2 E2]. rewrite E, ghash_one by apply H2. rewrite E2, <- Z.lxor_assoc, <- E1.
  apply hashed_xor; [split; [exact H1|reflexivity]|exact HC].
Qed.
End Ghash.

#[local] Opaque GMULT nist_mul.

(** GHASH of the additional data, then of the ciphertext, then of the
    lengths. *)
Lemma nist_ghash_split h A c :
  nist_ghash (be_word h) (gcm_data A c)
  = ghash_from h (ghash_from h (ghash_from h 0 (pad16 A) 0 (length (pad16 A) / 16)) (pad16 c) 0 (length (pad16 c) / 16))
      (be_bytes 8 (8 * Z.of_nat (length A)) ++ be_bytes 8 (8 * Z.of_nat (length c))) 0 1.
Proof.
  set (L := be_bytes 8 _ ++ _). assert (HL : length L = 16%nat) by (unfold L; rewrite length_app, !length_be_bytes; reflexivity).
  pose proof (pad16_length A) as HA. pose proof (pad16_length c) as Hc.
  set (n := (length (pad16 A) / 16)%nat) in *. set (m := (length (pad16 c) / 16)%nat) in *.
  rewrite <- (ghash_from_app h _ (pad16 c) L) by exact Hc. rewrite <- ghash_from_app by exact HA.
  change (nist_ghash (be_word h) (gcm_data A c))
    with (ghash_from h 0 (pad16 A ++ pad16 c ++ L) 0 (length (pad16 A ++ pad16 c ++ L) / 16)).
  f_equal. rewrite !length_app, HL, HA, Hc. replace (_ + _)%nat with ((n + (m + 1)) * 16)%nat by lia. apply Nat.div_mul. lia.
Qed.

Lemma ghash_nist unaligned_ok sz aligned h A c :
  long_ok sz -> block h -> length A = aSz -> bytes A -> bytes c -> Z.of_nat (length c) < 2 ^ 29 ->
  aesgcm_GHASH unaligned_ok sz aligned h (A ++ [0; 0; 0]) c
  = be_bytes 16 (nist_ghash (be_word h) (gcm_data A c)).
Proof.
  intros Hsz Hh LA BA Bc Hc. unfold aSz in LA.
  assert (HA : block (A ++ [0; 0; 0])) by (split; [rewrite length_app, LA; reflexivity|apply bytes_app; [exact BA|apply (bytes_zeros 3)]]).
  assert (EA : pad16 A = A ++ [0; 0; 0]) by (unfold pad16; rewrite LA; reflexivity).
  assert (H0 : hashed (GMULT sz (firstn 16 (A ++ [0; 0; 0])) h) (ghash_from h 0 (pad16 A) 0 1)).
  { rewrite EA, ghash_one, firstn_all2 by (rewrite (proj1 HA); reflexivity). apply GMULT_spec; assumption. }
  pose proof (ghash_text unaligned_ok sz aligned h Hsz Hh _ _ c H0 Bc) as H1. cbv zeta in H1.
  pose proof (ghash_lengths sz h Hsz Hh _ _ (8 * Z.of_nat 13) (8 * Z.of_nat (length c)) H1 ltac:(lia) ltac:(lia)) as H2.
  assert (E1 : (length (pad16 A) / 16)%nat = 1%nat) by (rewrite EA, (proj1 HA); reflexivity).
  rewrite nist_ghash_split, E1, LA. destruct H2 as [H2 <-]. rewrite be_bytes_block by apply H2.
  unfold aesgcm_GHASH, u32. rewrite !wrap_small, !(Z.mul_comm _ 8) by (unfold in_u, aSz; lia).
  destruct (Nat.eqb_spec (length c) 0) as [E|E]; [|reflexivity]. rewrite E. reflexivity.
Qed.

(** C16. [aesgcm_GHASH], given the 13 bytes of additional data of a TLS record
    followed by three zeros and a ciphertext of less than 2^29 bytes, computes
    the GHASH of NIST SP 800-38D of the padded data and their lengths, whatever
    the size of a [long] and the alignment of the ciphertext. *)
Theorem ghash_correct unaligned_ok sz aligned h A c :
  long_ok sz -> block h -> length A = aSz -> bytes A -> bytes c -> Z.of_nat (length c) < 2 ^ 29 ->
  aesgcm_GHASH unaligned_ok sz aligned h (A ++ [0; 0; 0]) c
  = be_bytes 16 (nist_ghash (be_word h) (gcm_data A c)).
Proof. exact (ghash_nist unaligned_ok sz aligned h A c). Qed.

Lemma ghash_correct_witness :
  aesgcm_GHASH true 8 (fun _ => true) (map Z.of_nat (seq 0 16)) (map Z.of_nat (seq 0 13) ++ [0; 0; 0]) (map Z.of_nat (seq 0 20))
  = be_bytes 16 (nist_ghash (be_word (map Z.of_nat (seq 0 16))) (gcm_data (map Z.of_nat (seq 0 13)) (map Z.of_nat (seq 0 20)))).
Proof.
  apply (ghash_correct true 8 (fun _ => true) (map Z.of_nat (seq 0 16)) (map Z.of_nat (seq 0 13)) (map Z.of_nat (seq 0 20)));
    [right; reflexivity|split; [reflexivity|apply is_bytes_ok; reflexivity]|reflexivity|apply is_bytes_ok; reflexivity..|reflexivity].
Defined.

End GCM.
