(* ===== verification/Mem.v ===== *)
(** * Programs that can stop, and checked memory

    The result of a program that can stop with an error message, access
    memory it does not own, or run out of the fuel the model gives its loops;
    and reads and writes of an array that check their bounds. *)

From Stdlib Require Import ZArith List Lia Bool.
From S2P Require Import Prelude Words.
Import ListNotations.
Local Open Scope Z_scope.

(** ** Results *)

(** [Die e]: the program exits with the error [e]. [Fault]: it accesses memory
    out of bounds. [Diverge]: the fuel is used up. *)
Inductive res (E A : Type) : Type :=
| Ok (a : A)
| Die (e : E)
| Fault
| Diverge.
Arguments Ok {E A} a.
Arguments Die {E A} e.
Arguments Fault {E A}.
Arguments Diverge {E A}.

Definition rbind {E A B} (m : res E A) (f : A -> res E B) : res E B :=
  match m with Ok a => f a | Die e => Die e | Fault => Fault | Diverge => Diverge end.

Declare Scope res_scope.
Notation "'let!' x := m 'in' k" := (rbind m (fun x => k))
  (at level 10, x pattern, m at level 100, k at level 200, right associativity) : res_scope.
Local Open Scope res_scope.

(** A function of the model that runs out of fuel. *)
Definition fuelled {E A} (m : option A) : res E A :=
  match m with Some a => Ok a | None => Diverge end.

(** The program ends: with a result or with an error, and without a fault. *)
Definition safe {E A} (P : A -> Prop) (m : res E A) : Prop :=
  match m with Ok a => P a | Die _ => True | Fault | Diverge => False end.

(** ** Arrays *)

Section Arrays.
Context {E A : Type}.

Definition load (buf : list A) (pos n : nat) : res E (list A) :=
  if (pos + n <=? length buf)%nat then Ok (slice pos n buf) else Fault.

Definition store (buf : list A) (pos : nat) (data : list A) : res E (list A) :=
  if (pos + length data <=? length buf)%nat then Ok (blit buf pos data) else Fault.

Definition load1 (buf : list A) (pos : nat) : res E A :=
  match nth_error buf pos with Some a => Ok a | None => Fault end.

Lemma load_ok buf pos n : (pos + n <= length buf)%nat -> load buf pos n = Ok (slice pos n buf).
Proof. intros H. unfold load. destruct (Nat.leb_spec (pos + n) (length buf)); [reflexivity|lia]. Qed.

Lemma store_ok buf pos data :
  (pos + length data <= length buf)%nat -> store buf pos data = Ok (blit buf pos data).
Proof. intros H. unfold store. destruct (Nat.leb_spec (pos + length data) (length buf)); [reflexivity|lia]. Qed.

Lemma load1_ok buf pos d : (pos < length buf)%nat -> load1 buf pos = Ok (nth pos buf d).
Proof. intros H. unfold load1. rewrite (nth_error_nth' buf d H). reflexivity. Qed.

Lemma safe_bind {B} (P : A -> Prop) (Q : B -> Prop) (m : res E A) (f : A -> res E B) :
  safe P m -> (forall a, P a -> safe Q (f a)) -> safe Q (rbind m f).
Proof. destruct m; cbn; auto. Qed.

Lemma safe_impl (P Q : A -> Prop) (m : res E A) : safe P m -> (forall a, P a -> Q a) -> safe Q m.
Proof. destruct m; cbn; auto. Qed.
End Arrays.

(** ** The contents after a store *)

Lemma slice_blit_same {A} (buf data : list A) pos n :
  length data = n -> (pos + n <= length buf)%nat -> slice pos n (blit buf pos data) = data.
Proof.
  intros <- H. unfold slice, blit. rewrite skipn_app, skipn_all2, length_firstn by (rewrite length_firstn; lia).
  replace (pos - Nat.min pos (length buf))%nat with 0%nat by lia. cbn [app skipn].
  rewrite firstn_app, Nat.sub_diag, firstn_all. apply app_nil_r.
Qed.

Lemma slice_blit_before {A} (buf data : list A) pos i n :
  (i + n <= pos)%nat -> (pos + length data <= length buf)%nat -> slice i n (blit buf pos data) = slice i n buf.
Proof.
  intros Hi H. unfold slice, blit. rewrite <- (firstn_skipn pos buf) at 3.
  rewrite !skipn_app, !firstn_app, !length_skipn, !length_firstn.
  replace (n - (Nat.min pos (length buf) - i))%nat with 0%nat by lia. reflexivity.
Qed.

Lemma slice_blit_after {A} (buf data : list A) pos i n :
  (pos + length data <= i)%nat -> (pos + length data <= length buf)%nat -> slice i n (blit buf pos data) = slice i n buf.
Proof.
  intros Hi H. unfold slice, blit. f_equal.
  rewrite !skipn_app, (skipn_all2 (firstn pos buf)), (skipn_all2 data), skipn_skipn
    by (rewrite ?length_firstn; lia).
  cbn [app]. rewrite length_firstn. f_equal. lia.
Qed.

Lemma nth_blit_before {A} (buf data : list A) pos i d :
  (i < pos)%nat -> (pos <= length buf)%nat -> nth i (blit buf pos data) d = nth i buf d.
Proof.
  intros Hi Hp. unfold blit. rewrite <- (firstn_skipn pos buf) at 3.
  rewrite !app_nth1 by (rewrite length_firstn; lia). reflexivity.
Qed.

(** Consecutive slices. *)
Lemma slice_app {A} (buf : list A) i n m : slice i n buf ++ slice (i + n) m buf = slice i (n + m) buf.
Proof.
  unfold slice. rewrite (Nat.add_comm i n), <- skipn_skipn.
  generalize (skipn i buf) as l. intros l. revert l; induction n as [|n IH]; intros l; [reflexivity|].
  destruct l; cbn; [destruct m; reflexivity|]. f_equal. apply IH.
Qed.

Lemma slice_prefix {A} (l a b : list A) i : slice i (length (a ++ b)) l = a ++ b -> slice i (length a) l = a.
Proof.
  intros E. pose proof (f_equal (@length A) E) as El. rewrite length_slice in El.
  rewrite length_app, <- slice_app in E. rewrite length_app in El.
  apply app_split in E; [apply E|]. rewrite length_slice. lia.
Qed.

Lemma nth_slice {A} (l : list A) i n k d : (k < n)%nat -> nth k (slice i n l) d = nth (i + k) l d.
Proof.
  intros Hk. unfold slice. rewrite nth_firstn, nth_skipn. destruct (Nat.ltb_spec k n); [reflexivity|lia].
Qed.

(** Two stores, one after the other, of adjacent data. *)
Lemma blit_app {A} (buf a b : list A) pos :
  (pos + length a + length b <= length buf)%nat ->
  blit (blit buf pos a) (pos + length a) b = blit buf pos (a ++ b).
Proof.
  intros H. unfold blit. set (f := firstn pos buf).
  assert (Hf : length f = pos) by (unfold f; rewrite length_firstn; lia).
  set (r := skipn (pos + length a) buf).
  assert (Hfa : length (f ++ a) = (pos + length a)%nat) by (rewrite length_app; lia).
  rewrite (app_assoc f a r), firstn_app, skipn_app, Hfa, Nat.sub_diag, firstn_O by lia.
  rewrite (firstn_all2 (f ++ a)), (skipn_all2 (f ++ a)) by lia.
  rewrite app_nil_r, <- !app_assoc, length_app. unfold r. rewrite skipn_skipn. cbn [app]. do 4 f_equal. lia.
Qed.

(** ** Single elements, loops and outcomes *)

Definition store1 {E A} (buf : list A) (pos : nat) (a : A) : res E (list A) :=
  if (pos <? length buf)%nat then Ok (upd buf pos a) else Fault.

(** [for (i = a; i < a + n; i++) s = body(i, s)] *)
Fixpoint for_up {E S} (n a : nat) (body : nat -> S -> res E S) (s : S) : res E S :=
  match n with
  | O => Ok s
  | Datatypes.S n => let! s := body a s in for_up n (Datatypes.S a) body s
  end.

(** [for (i = n - 1; i >= 0; i--) s = body(i, s)] *)
Fixpoint for_down {E S} (n : nat) (body : nat -> S -> res E S) (s : S) : res E S :=
  match n with
  | O => Ok s
  | Datatypes.S n => let! s := body n s in for_down n body s
  end.

(** The program ends: with a result that satisfies [P], or with an error that
    satisfies [err]. *)
Definition ends {E A} (err : E -> Prop) (P : A -> Prop) (m : res E A) : Prop :=
  match m with Ok a => P a | Die e => err e | Fault | Diverge => False end.

Section Ends.
Context {E : Type} (err : E -> Prop).

Lemma ends_ok {A} (P : A -> Prop) a : P a -> ends err P (Ok a).
Proof. exact (fun H => H). Qed.

Lemma ends_bind {A B} (P : A -> Prop) (Q : B -> Prop) (m : res E A) (f : A -> res E B) :
  ends err P m -> (forall a, P a -> ends err Q (f a)) -> ends err Q (rbind m f).
Proof. destruct m; cbn; auto. Qed.

Lemma ends_impl {A} (P Q : A -> Prop) (m : res E A) :
  ends err P m -> (forall a, P a -> Q a) -> ends err Q m.
Proof. destruct m; cbn; auto. Qed.

(** Weakest preconditions of the accesses. *)
Lemma ends_load1 {A B} (Q : B -> Prop) (buf : list A) i d f :
  (i < length buf)%nat -> ends err Q (f (nth i buf d)) -> ends err Q (rbind (load1 buf i) f).
Proof. intros Hi H. rewrite (load1_ok _ _ d Hi). exact H. Qed.

Lemma ends_store1 {A B} (Q : B -> Prop) (buf : list A) i a f :
  (i < length buf)%nat -> ends err Q (f (upd buf i a)) -> ends err Q (rbind (store1 buf i a) f).
Proof. intros Hi H. unfold store1. destruct (Nat.ltb_spec i (length buf)); [exact H|lia]. Qed.

Lemma ends_load {A B} (Q : B -> Prop) (buf : list A) i n f :
  (i + n <= length buf)%nat -> ends err Q (f (slice i n buf)) -> ends err Q (rbind (load buf i n) f).
Proof. intros Hi H. rewrite load_ok by exact Hi. exact H. Qed.

Lemma ends_store {A B} (Q : B -> Prop) (buf : list A) i data f :
  (i + length data <= length buf)%nat -> ends err Q (f (blit buf i data)) -> ends err Q (rbind (store buf i data) f).
Proof. intros Hi H. rewrite store_ok by exact Hi. exact H. Qed.

Lemma for_up_inv {S} (I : nat -> S -> Prop) n a body s :
  (forall i s, (a <= i < a + n)%nat -> I i s -> ends err (I (Datatypes.S i)) (body i s)) ->
  I a s -> ends err (I (a + n)%nat) (for_up n a body s).
Proof.
  revert a s; induction n as [|n IH]; intros a s Hb Hs; cbn [for_up].
  - rewrite Nat.add_0_r. exact Hs.
  - eapply ends_bind; [apply Hb; [lia|exact Hs]|]. intros s' Hs'.
    rewrite Nat.add_succ_r, <- Nat.add_succ_l. apply IH; [|exact Hs']. intros; apply Hb; auto; lia.
Qed.

Lemma for_down_inv {S} (I : nat -> S -> Prop) n body s :
  (forall i s, (i < n)%nat -> I (Datatypes.S i) s -> ends err (I i) (body i s)) ->
  I n s -> ends err (I O) (for_down n body s).
Proof.
  revert s; induction n as [|n IH]; intros s Hb Hs; cbn [for_down]; [exact Hs|].
  eapply ends_bind; [apply Hb; [lia|exact Hs]|]. intros s' Hs'. apply IH; [|exact Hs']. intros; apply Hb; auto; lia.
Qed.
End Ends.

(** ** Accesses to an array in pieces *)

Section Pieces.
Context {E A : Type}.
Implicit Types pre l mid rest : list A.

Lemma store1_in pre l n v : @store1 E A (pre ++ l) (length pre + n) v = let! l := store1 l n v in Ok (pre ++ l).
Proof.
  unfold store1. rewrite length_app. destruct (Nat.ltb_spec (length pre + n) (length pre + length l)), (Nat.ltb_spec n (length l)); try lia; [|reflexivity].
  cbn [rbind]. f_equal. clear. induction pre as [|x pre IH]; [reflexivity|]. cbn [length Nat.add app]. rewrite <- IH. reflexivity.
Qed.

Lemma store_in pre l n new : @store E A (pre ++ l) (length pre + n) new = let! l := store l n new in Ok (pre ++ l).
Proof.
  unfold store. rewrite length_app. destruct (Nat.leb_spec (length pre + n + length new) (length pre + length l)), (Nat.leb_spec (n + length new) (length l)); try lia; [|reflexivity].
  cbn [rbind]. f_equal. unfold blit. rewrite firstn_app, firstn_all2, skipn_app, skipn_all2 by lia. rewrite <- app_assoc. cbn [app]. do 4 f_equal; lia.
Qed.

Lemma load_in pre l n m : @load E A (pre ++ l) (length pre + n) m = load l n m.
Proof.
  unfold load, slice. rewrite length_app, skipn_app, skipn_all2 by lia. replace (length pre + n - length pre)%nat with n by lia.
  destruct (Nat.leb_spec (length pre + n + m) (length pre + length l)), (Nat.leb_spec (n + m) (length l)); try lia; reflexivity.
Qed.

Lemma store1_at pre x rest v : @store1 E A (pre ++ x :: rest) (length pre) v = Ok (pre ++ v :: rest).
Proof. pose proof (store1_in pre (x :: rest) 0 v) as H. rewrite Nat.add_0_r in H. exact H. Qed.

Lemma store_at pre old new rest : length new = length old -> @store E A (pre ++ old ++ rest) (length pre) new = Ok (pre ++ new ++ rest).
Proof.
  intros H. pose proof (store_in pre (old ++ rest) 0 new) as E1. rewrite Nat.add_0_r in E1. rewrite E1, store_ok by (rewrite length_app; lia).
  unfold blit. cbn [rbind firstn app Nat.add]. rewrite H, skipn_app, skipn_all, Nat.sub_diag. reflexivity.
Qed.

Lemma load_at pre mid rest : @load E A (pre ++ mid ++ rest) (length pre) (length mid) = Ok mid.
Proof.
  pose proof (load_in pre (mid ++ rest) 0 (length mid)) as E1. rewrite Nat.add_0_r in E1. rewrite E1, load_ok by (rewrite length_app; lia).
  unfold slice. cbn [skipn]. rewrite firstn_app, firstn_all, Nat.sub_diag. cbn [firstn]. rewrite app_nil_r. reflexivity.
Qed.
End Pieces.
