(* ===== verification/TlsRecord.v ===== *)
(** * The TLS record layer

    [networking/tls.c]: writing encrypted records (AES-CBC with HMAC, and
    AES-GCM), reading a record from the connection, decrypting it in place, and
    the buffers both use. Every access to the buffers is checked. The theorems:
    the records written are those of RFC 5246 and RFC 5288; what one side
    writes the other reads, however the connection splits it; and reading is
    safe for any bytes a peer sends, with the exception of a handshake record
    after the handshake. *)

From Stdlib Require Import ZArith List Lia Bool.
From S2P Require Import Prelude Words Bitops HashBuf HashCtx Hmac Aes Gcm Mem.
Import ListNotations HashCtx Hmac.
Local Open Scope Z_scope.
Local Open Scope bb_scope.
Local Open Scope res_scope.

Module TLS.

(** ** Constants and state *)

Definition ALLOW_RSA_NULL_SHA256 : bool := false.
Definition TLS_RSA_WITH_NULL_SHA256 : Z := 0x003B.
Definition TLS_MAJ : Z := 3.
Definition TLS_MIN : Z := 3.
Definition RECORD_TYPE_CHANGE_CIPHER_SPEC : Z := 20.
Definition RECORD_TYPE_ALERT : Z := 21.
Definition RECORD_TYPE_HANDSHAKE : Z := 22.
Definition RECORD_TYPE_APPLICATION_DATA : Z := 23.
Definition TLS_MAX_MAC_SIZE : nat := 32.
Definition TLS_MAX_CRYPTBLOCK_SIZE : nat := 16.
Definition TLS_MAX_OUTBUF : Z := Z.shiftl 1 14.
Definition AES_BLOCK_SIZE : nat := 16.
Definition AES128_KEYSIZE : Z := 16.
Definition AES256_KEYSIZE : Z := 32.
Definition SHA1_OUTSIZE : Z := 20.
Definition SHA256_OUTSIZE : Z := 32.
Definition RECHDR_LEN : nat := 5.
Definition OUTBUF_PFX : nat := 8 + AES_BLOCK_SIZE.
Definition OUTBUF_SFX : nat := TLS_MAX_MAC_SIZE + TLS_MAX_CRYPTBLOCK_SIZE.
Definition MAX_INBUF : Z := Z.of_nat RECHDR_LEN + Z.shiftl 1 14 + 2048.
Definition NEED_EC_KEY : Z := Z.shiftl 1 0.
Definition ENCRYPTION_AESGCM : Z := Z.shiftl 1 5.

(** The build: [ENABLE_FEATURE_TLS_SHA1], [ENABLE_SSL_SERVER], unaligned word
    access, the size of a [long], whether an address is aligned, the hash
    configuration, the contents of fresh memory and of the arrays of
    [hmac_begin]. *)
Record build := {
  TLS_SHA1 : bool;
  SSL_SERVER : bool;
  unaligned_ok : bool;
  long_size : nat;
  aligned : nat -> bool;
  hash_config : config;
  fresh : nat -> list Z;
  ipad0 : list Z;
  opad0 : list Z;
  hmac_ctx0 : hmac_ctx_t md5_ctx_t
}.

(** What the handshake sets and the record layer only reads. *)
Record tls_params := {
  flags : Z;
  cipher_id : Z;
  MAC_size : Z;
  key_size : Z;
  IV_size : Z;
  expecting_first_packet : bool;
  min_encrypted_len_on_read : Z;
  our_write_MAC_key : list Z;
  our_write_key : list Z;
  peer_write_key : list Z;
  our_write_IV : list Z;
  peer_write_IV : list Z;
  aes_encrypt : AES.tls_aes;
  aes_decrypt : AES.tls_aes;
  H : list Z
}.

(** [outbuf_size] and [inbuf_size] are the lengths of the arrays;
    [hsd] is [None] when the pointer is [NULL], and holds
    [handshake_hash_ctx] otherwise. *)
Record tls_state_t := mk_tls {
  params : tls_params;
  outbuf : list Z;
  write_seq64_be : Z;
  inbuf : list Z;
  ofs_to_buffered : Z;
  buffered_size : Z;
  hsd : option md5_ctx_t
}.

Definition set_outbuf (tls : tls_state_t) (b : list Z) : tls_state_t :=
  mk_tls (params tls) b (write_seq64_be tls) (inbuf tls) (ofs_to_buffered tls) (buffered_size tls) (hsd tls).
Definition set_write_seq (tls : tls_state_t) (s : Z) : tls_state_t :=
  mk_tls (params tls) (outbuf tls) s (inbuf tls) (ofs_to_buffered tls) (buffered_size tls) (hsd tls).
Definition set_inbuf (tls : tls_state_t) (b : list Z) : tls_state_t :=
  mk_tls (params tls) (outbuf tls) (write_seq64_be tls) b (ofs_to_buffered tls) (buffered_size tls) (hsd tls).
Definition set_buffered (tls : tls_state_t) (ofs sz : Z) : tls_state_t :=
  mk_tls (params tls) (outbuf tls) (write_seq64_be tls) (inbuf tls) ofs sz (hsd tls).
Definition set_hsd (tls : tls_state_t) (h : option md5_ctx_t) : tls_state_t :=
  mk_tls (params tls) (outbuf tls) (write_seq64_be tls) (inbuf tls) (ofs_to_buffered tls) (buffered_size tls) h.

(** The messages the program exits with. *)
Inductive error :=
| bad_record (len : Z)
| bad_outbuf_len
| truncated_header (total : Z)
| truncated_record (expected got : Z)
| bad_encrypted_len (sz : Z)
| data_too_short
| fatal_alert (code : Z).

Definition result (A : Type) := res error A.

Section Code.
Variable bld : build.

Definition TLS_MAC_SIZE (p : tls_params) : Z := if TLS_SHA1 bld then MAC_size p else SHA256_OUTSIZE.

(** ** Parameters of a cipher *)

Record cipher_parameters := mk_cp {
  cp_flags : Z; cp_cipher_id : Z; cp_key_size : Z; cp_MAC_size : Z; cp_IV_size : Z
}.

(** The fields [set_cipher_parameters] sets, from the old flags. *)
Definition set_cipher_parameters (fl cipherid0 cipherid1 : Z) : cipher_parameters :=
  let id := 0x100 * cipherid0 + cipherid1 in
  if cipherid0 =? 0xC0 then
    let fl := Z.lor fl NEED_EC_KEY in
    let key := if Z.land cipherid1 1 =? 0 then AES256_KEYSIZE else AES128_KEYSIZE in
    if TLS_SHA1 bld && (cipherid1 <=? 0x19) then mk_cp fl id key SHA1_OUTSIZE 0
    else if (0x2B <=? cipherid1) && (cipherid1 <=? 0x30) then mk_cp (Z.lor fl ENCRYPTION_AESGCM) id key 0 4
    else mk_cp fl id key SHA256_OUTSIZE 0
  else
    let key := if (TLS_SHA1 bld && (cipherid1 =? 0x2F)) || (cipherid1 =? 0x3C) || (cipherid1 =? 0x9C)
               then AES128_KEYSIZE else AES256_KEYSIZE in
    if TLS_SHA1 bld && (cipherid1 <=? 0x35) then mk_cp fl id key SHA1_OUTSIZE 0
    else if cipherid1 =? 0x9C then mk_cp (Z.lor fl ENCRYPTION_AESGCM) id key 0 4
    else mk_cp fl id key SHA256_OUTSIZE 0.

(** [get_change_cipher_spec]: the new [min_encrypted_len_on_read]. *)
Definition min_len_after_change (p : tls_params) : Z :=
  if ALLOW_RSA_NULL_SHA256 && (cipher_id p =? TLS_RSA_WITH_NULL_SHA256) then MAC_size p
  else if Z.land (flags p) ENCRYPTION_AESGCM =? 0 then
    let mac_blocks := (TLS_MAC_SIZE p + Z.of_nat AES_BLOCK_SIZE - 1) / Z.of_nat AES_BLOCK_SIZE in
    Z.of_nat AES_BLOCK_SIZE + mac_blocks * Z.of_nat AES_BLOCK_SIZE
  else 8 + Z.of_nat AES_BLOCK_SIZE.

(** The keys: [aes_decrypt], [aes_encrypt] and [H]. *)
Definition initialize_aes_keys (p : tls_params) : AES.tls_aes * AES.tls_aes * list Z :=
  let dec := AES.aes_setkey (aes_decrypt p) (firstn (Z.to_nat (key_size p)) (peer_write_key p)) in
  let enc := AES.aes_setkey (aes_encrypt p) (firstn (Z.to_nat (key_size p)) (our_write_key p)) in
  (dec, enc, AES.aes_encrypt_one_block enc (repeat 0 AES_BLOCK_SIZE)).

(** ** Writing *)

(** [xrealloc] keeps the contents; what it adds is [fresh]. *)
Definition xrealloc (buf : list Z) (len : nat) : list Z :=
  firstn len buf ++ fresh bld (len - length buf).

Definition tls_get_outbuf (tls : tls_state_t) (len : Z) : result tls_state_t :=
  if TLS_MAX_OUTBUF <? len then Die bad_outbuf_len else
  let len := len + Z.of_nat (OUTBUF_PFX + OUTBUF_SFX) in
  if Z.of_nat (length (outbuf tls)) <? len
  then Ok (set_outbuf tls (xrealloc (outbuf tls) (Z.to_nat len)))
  else Ok tls.

Definition tls_get_zeroed_outbuf (tls : tls_state_t) (len : Z) : result tls_state_t :=
  let! tls := tls_get_outbuf tls len in
  let! b := store (outbuf tls) OUTBUF_PFX (repeat 0 (Z.to_nat len)) in
  Ok (set_outbuf tls b).

(** The five bytes of a [struct record_hdr]. *)
Definition record_hdr (type : Z) (size : nat) : list Z :=
  [u8 type; TLS_MAJ; TLS_MIN; u8 (Z.shiftr (Z.of_nat size) 8); u8 (Z.of_nat size)].

Definition hmac_blocks (p : tls_params) (key : list Z) (va : list (list Z)) : result (list Z) :=
  let cfg := hash_config bld in
  let begin := if TLS_SHA1 bld && (MAC_size p =? SHA1_OUTSIZE) then sha1_begin else sha256_begin in
  fuelled
    (let* ctx := hmac_begin begin (md5_hash cfg) (sha1_end cfg) (ipad0 bld) (opad0 bld) (hmac_ctx0 bld) key in
     let* ctx := hmac_hash_v (md5_hash cfg) ctx va in
     let* (_, out, _) := hmac_end (md5_hash cfg) (sha1_end cfg) ctx in
     Some out).

(** [SWAP_BE64(1 + SWAP_BE64(v))] *)
Definition next_seq (v : Z) : Z := bswap_64 (u64 (1 + bswap_64 v)).

(** The loop that stores the padding; the state is [outbuf] and [size]. *)
Fixpoint pad_loop (fuel : nat) (ob : list Z) (padding_length : Z) (size : nat) : result (list Z * nat) :=
  match fuel with
  | O => Diverge
  | S fuel =>
      let! ob := store ob (OUTBUF_PFX + size) [padding_length] in
      let size := (size + 1)%nat in
      if Z.land (Z.of_nat size) 15 =? 0 then Ok (ob, size) else pad_loop fuel ob padding_length size
  end.

(** The header with the length for the MAC, and the MAC after the content:
    [outbuf] and the new [size]. *)
Definition sign_record (tls : tls_state_t) (xhdr size : nat) (type : Z) : result (list Z * nat) :=
  let p := params tls in
  let buf := OUTBUF_PFX in
  let! ob := store (outbuf tls) xhdr (record_hdr type size) in
  let! hdr := load ob xhdr RECHDR_LEN in
  let! content := load ob buf size in
  let! key := load (our_write_MAC_key p) 0 (Z.to_nat (TLS_MAC_SIZE p)) in
  let! mac := hmac_blocks p key [le_bytes 8 (write_seq64_be tls); hdr; content] in
  let! ob := store ob (buf + size) mac in
  Ok (ob, (size + Z.to_nat (TLS_MAC_SIZE p))%nat).

(** The initialisation vector and the padding, and the encryption in place. *)
Definition encrypt_record (iv : list Z) (p : tls_params) (ob : list Z) (size : nat) : result (list Z * nat) :=
  let buf := OUTBUF_PFX in
  let! ob := store ob (buf - AES_BLOCK_SIZE) iv in
  let padding_length := u8 (Z.land (Z.lnot (Z.of_nat size)) 15) in
  let! (ob, size) := pad_loop 16 ob padding_length size in
  let! iv := load ob (buf - AES_BLOCK_SIZE) AES_BLOCK_SIZE in
  let! pt := load ob buf size in
  let! ct := fuelled (AES.aes_cbc_encrypt (aes_encrypt p) iv pt) in
  let! ob := store ob buf ct in
  Ok (ob, (size + AES_BLOCK_SIZE)%nat).

(** [iv]: what [tls_get_random] stores. The result is the new state and the
    bytes written to the connection. *)
Definition xwrite_encrypted_and_hmac_signed (iv : list Z) (tls : tls_state_t) (size : nat) (type : Z)
  : result (tls_state_t * list Z) :=
  let p := params tls in
  let buf := OUTBUF_PFX in
  let null_cipher := ALLOW_RSA_NULL_SHA256 && (cipher_id p =? TLS_RSA_WITH_NULL_SHA256) in
  let xhdr := if null_cipher then (buf - RECHDR_LEN)%nat else (buf - RECHDR_LEN - AES_BLOCK_SIZE)%nat in
  let! (ob, size) := sign_record tls xhdr size type in
  let tls := set_write_seq tls (next_seq (write_seq64_be tls)) in
  let! (ob, size) := (if null_cipher then Ok (ob, size) else encrypt_record iv p ob size) in
  let! ob := store ob xhdr (record_hdr type size) in
  let! out := load ob xhdr (RECHDR_LEN + size) in
  Ok (set_outbuf tls ob, out).

(** [nonce] with [COUNTER(nonce) = htonl(cnt)] *)
Definition with_counter (nonce : list Z) (cnt : Z) : list Z := nonce ++ le_bytes 4 (bswap_32 cnt).

(** The loop of [xwrite_encrypted_aesgcm] over the blocks of the text at
    [buf]. *)
Fixpoint gcm_encrypt_loop (fuel : nat) (aes : AES.tls_aes) (nonce : list Z) (ob : list Z) (cnt : Z)
    (buf remaining : nat) : result (list Z) :=
  if (remaining =? 0)%nat then Ok ob else
  match fuel with
  | O => Diverge
  | S fuel =>
      let cnt := u32 (cnt + 1) in
      let scratch := AES.aes_encrypt_one_block aes (with_counter nonce cnt) in
      let n := if (AES_BLOCK_SIZE <=? remaining)%nat then AES_BLOCK_SIZE else remaining in
      let! text := load ob buf n in
      let! ob := store ob buf
        (if (AES_BLOCK_SIZE <=? remaining)%nat
         then xorbuf16 (unaligned_ok bld) (aligned bld buf) (long_size bld) text scratch
         else xorbuf (unaligned_ok bld) (long_size bld) text scratch n) in
      gcm_encrypt_loop fuel aes nonce ob cnt (buf + n) (remaining - n)
  end.

Definition xwrite_encrypted_aesgcm (tls : tls_state_t) (size : nat) (type : Z)
  : result (tls_state_t * list Z) :=
  let p := params tls in
  let buf := OUTBUF_PFX in
  let xhdr := (buf - 8 - RECHDR_LEN)%nat in
  let! ob := store (outbuf tls) xhdr [u8 type] in
  let t64 := write_seq64_be tls in
  let aad := le_bytes 8 t64 ++ [u8 type; TLS_MAJ; TLS_MIN; u8 (Z.shiftr (Z.of_nat size) 8)]
             ++ le_bytes 4 (Z.land (Z.of_nat size) 0xff) in
  let! IV := load (our_write_IV p) 0 4 in
  let nonce := IV ++ le_bytes 8 t64 in
  let! ob := store ob (buf - 8) (le_bytes 8 t64) in
  let tls := set_write_seq tls (next_seq t64) in
  let! ob := gcm_encrypt_loop (size / 16 + 1) (aes_encrypt p) nonce ob 1 buf size in
  let! text := load ob buf size in
  let authtag := GCM.aesgcm_GHASH (unaligned_ok bld) (long_size bld)
                   (fun i => aligned bld (buf + 16 * i)) (H p) aad text in
  let scratch := AES.aes_encrypt_one_block (aes_encrypt p) (with_counter nonce 1) in
  let authtag := xorbuf16_aligned_long (long_size bld) authtag scratch in
  let! ob := store ob (buf + size) authtag in
  let size := (size + (8 + length authtag))%nat in
  let! ob := store ob (xhdr + 1) (tl (record_hdr type size)) in
  let! out := load ob xhdr (size + RECHDR_LEN) in
  Ok (set_outbuf tls ob, out).

Definition xwrite_encrypted (iv : list Z) (tls : tls_state_t) (size : nat) (type : Z)
  : result (tls_state_t * list Z) :=
  if Z.land (flags (params tls)) ENCRYPTION_AESGCM =? 0
  then xwrite_encrypted_and_hmac_signed iv tls size type
  else xwrite_encrypted_aesgcm tls size type.

Definition xwrite_handshake_record (tls : tls_state_t) (size : nat) : result (tls_state_t * list Z) :=
  let xhdr := (OUTBUF_PFX - RECHDR_LEN)%nat in
  let! ob := store (outbuf tls) xhdr (record_hdr RECORD_TYPE_HANDSHAKE size) in
  let! out := load ob xhdr (RECHDR_LEN + size) in
  Ok (set_outbuf tls ob, out).

(** [md5sha_hash(&tls->hsd->handshake_hash_ctx, buffer, len)]; a fault when
    [hsd] is [NULL]. *)
Definition hash_handshake (tls : tls_state_t) (data : list Z) : result tls_state_t :=
  match hsd tls with
  | None => Fault
  | Some ctx =>
      let! ctx := fuelled (md5_hash (hash_config bld) ctx data) in
      Ok (set_hsd tls (Some ctx))
  end.

Definition xwrite_and_update_handshake_hash (tls : tls_state_t) (size : nat) : result (tls_state_t * list Z) :=
  let! (tls, out) := xwrite_handshake_record tls size in
  let! data := load (outbuf tls) OUTBUF_PFX size in
  let! tls := hash_handshake tls data in
  Ok (tls, out).

(** ** Reading *)

(** What the calls of [read] return, in order: data, [EINTR] or another
    error; at the end of the list (and for empty data), end of file. *)
Inductive read_event := Data (l : list Z) | Interrupted | Read_error.

(** [safe_read] of at most [rem] bytes: the data, [None] for an error, and
    what is left to read. *)
Fixpoint safe_read (rem : nat) (evs : list read_event) : option (list Z) * list read_event :=
  match evs with
  | [] => (Some [], [])
  | Interrupted :: evs => safe_read rem evs
  | Read_error :: evs => (None, evs)
  | Data l :: evs =>
      if (length l <=? rem)%nat then (Some l, evs) else (Some (firstn rem l), Data (skipn rem l) :: evs)
  end.

Definition is_minor_version_valid (p : tls_params) (minor_ver : Z) : bool :=
  if SSL_SERVER bld && expecting_first_packet p then (0 <? minor_ver) && (minor_ver <=? 4)
  else minor_ver =? TLS_MIN.

(** Prints at most 99 bytes of [inbuf] and exits. *)
Definition bad_record_die {A} (tls : tls_state_t) (len : Z) : result A :=
  let! _ := load (inbuf tls) 0 (Z.to_nat (Z.min len 99)) in
  Die (bad_record len).

(** [xhdr->len16_hi], [xhdr->len16_lo] of the header at [ofs]. *)
Definition record_len (buf : list Z) (ofs : nat) : result Z :=
  let! hi := load1 buf (ofs + 3) in
  let! lo := load1 buf (ofs + 4) in
  Ok (0x100 * hi + lo).

(** The check of the header in the loop: the new [target]. *)
Definition check_header (tls : tls_state_t) (total target : Z) : result Z :=
  if (Z.of_nat RECHDR_LEN <=? total) && (target =? MAX_INBUF) then
    let! len := record_len (inbuf tls) 0 in
    let target := Z.of_nat RECHDR_LEN + len in
    let! maj := load1 (inbuf tls) 1 in
    let! min := load1 (inbuf tls) 2 in
    if (MAX_INBUF <? target) || negb (maj =? TLS_MAJ) || negb (is_minor_version_valid (params tls) min)
    then bad_record_die tls (if total <? target then total else target)
    else Ok target
  else Ok target.

(** The buffer grown by [MAX_INBUF / 8] when it is full. *)
Definition grow_inbuf (tls : tls_state_t) (total : Z) : tls_state_t :=
  let inbuf_size := Z.of_nat (length (inbuf tls)) in
  if inbuf_size - total =? 0 then
    let inbuf_size := inbuf_size + MAX_INBUF / 8 in
    let inbuf_size := if MAX_INBUF <? inbuf_size then MAX_INBUF else inbuf_size in
    set_inbuf tls (xrealloc (inbuf tls) (Z.to_nat inbuf_size))
  else tls.

(** How the loop ends: with a whole record of [target] bytes among the
    [total] read, or with the end of the connection. *)
Inductive received := Whole (total target : Z) | Eof.

Fixpoint read_loop (fuel : nat) (tls : tls_state_t) (evs : list read_event) (total target : Z)
  : result (tls_state_t * list read_event * received) :=
  let! target := check_header tls total target in
  if 0 <=? total - target then Ok (tls, evs, Whole total target) else
  match fuel with
  | O => Diverge
  | S fuel =>
      let tls := grow_inbuf tls total in
      let rem := Z.of_nat (length (inbuf tls)) - total in
      let '(data, evs) := safe_read (Z.to_nat rem) evs in
      match data with
      | Some ((_ :: _) as data) =>
          let! b := store (inbuf tls) (Z.to_nat total) data in
          read_loop fuel (set_inbuf tls b) evs (total + Z.of_nat (length data)) target
      | _ =>
          if (match data with Some _ => true | None => false end) && (total =? 0)
          then Ok (set_buffered tls (ofs_to_buffered tls) 0, evs, Eof)
          else if total <? Z.of_nat RECHDR_LEN then Die (truncated_header total)
          else Die (truncated_record target total)
      end
  end.

(** The loop of [tls_aesgcm_decrypt]. The exclusive or reads eight bytes
    ahead of where it writes. *)
Fixpoint gcm_decrypt_loop (fuel : nat) (aes : AES.tls_aes) (nonce : list Z) (ib : list Z) (cnt : Z)
    (buf remaining : nat) : result (list Z) :=
  if (remaining =? 0)%nat then Ok ib else
  match fuel with
  | O => Diverge
  | S fuel =>
      let cnt := u32 (cnt + 1) in
      let scratch := AES.aes_encrypt_one_block aes (with_counter nonce cnt) in
      let n := if (AES_BLOCK_SIZE <? remaining)%nat then AES_BLOCK_SIZE else remaining in
      let! text := load ib (buf + 8) n in
      let! ib := store ib buf (xorbuf_3 (unaligned_ok bld) (long_size bld) scratch text n) in
      gcm_decrypt_loop fuel aes nonce ib cnt (buf + n) (remaining - n)
  end.

(** [size] is an [int] the code keeps in an [unsigned]. *)
Definition tls_aesgcm_decrypt (tls : tls_state_t) (buf : nat) (size : Z) : result tls_state_t :=
  let p := params tls in
  let! IV := load (peer_write_IV p) 0 4 in
  let! explicit := load (inbuf tls) buf 8 in
  let remaining := Z.to_nat (u32 size) in
  let! ib := gcm_decrypt_loop (remaining / 16 + 1) (aes_decrypt p) (IV ++ explicit) (inbuf tls) 1 buf remaining in
  Ok (set_inbuf tls ib).

(** The part of [tls_xread_record] that decrypts [sz] bytes in place. *)
Definition decrypt_record (tls : tls_state_t) (sz : Z) : result (tls_state_t * Z) :=
  let p := params tls in
  let min := min_encrypted_len_on_read p in
  let pos := RECHDR_LEN in
  if min =? 0 then Ok (tls, sz)
  else if sz <? min then Die (bad_encrypted_len sz)
  else if negb (Z.land (flags p) ENCRYPTION_AESGCM =? 0) then
    let sz := sz - (8 + Z.of_nat AES_BLOCK_SIZE) in
    let! tls := tls_aesgcm_decrypt tls pos sz in
    Ok (tls, sz)
  else if TLS_MAC_SIZE p <? min then
    if negb (Z.land sz 15 =? 0) then Die (bad_encrypted_len sz) else
    let sz := sz - Z.of_nat AES_BLOCK_SIZE in
    let! iv := load (inbuf tls) pos AES_BLOCK_SIZE in
    let! ct := load (inbuf tls) (pos + AES_BLOCK_SIZE) (Z.to_nat sz) in
    let! pt := fuelled (AES.aes_cbc_decrypt (aes_decrypt p) iv ct) in
    let! ib := store (inbuf tls) pos pt in
    let! padding_len := load1 ib (pos + Z.to_nat sz - 1) in
    let padding_len := padding_len + 1 in
    Ok (set_inbuf tls ib, sz - (TLS_MAC_SIZE p + padding_len))
  else Ok (tls, sz - min).

(** What is done with a decrypted record. *)
Inductive next := Again | Return (sz : Z).

Definition handle_record (tls : tls_state_t) (sz : Z) : result (tls_state_t * next) :=
  if sz <? 0 then Die data_too_short else
  let! type := load1 (inbuf tls) 0 in
  if (type =? RECORD_TYPE_ALERT) && (2 <=? sz) then
    let! p0 := load1 (inbuf tls) RECHDR_LEN in
    let! p1 := load1 (inbuf tls) (RECHDR_LEN + 1) in
    if p0 =? 2 then Die (fatal_alert p1)
    else if p0 =? 1 then if p1 =? 0 then Ok (tls, Return 0) else Ok (tls, Again)
    else Ok (tls, Return 0)
  else if type =? RECORD_TYPE_HANDSHAKE then
    let! data := load (inbuf tls) RECHDR_LEN (Z.to_nat sz) in
    let! tls := hash_handshake tls data in
    Ok (tls, Return sz)
  else Ok (tls, Return sz).

(** The beginning of [tls_xread_record]: the data left over is moved to the
    start of the buffer. *)
Definition move_buffered (tls : tls_state_t) : result tls_state_t :=
  let total := buffered_size tls in
  if total =? 0 then Ok tls else
  let! kept := load (inbuf tls) (Z.to_nat (ofs_to_buffered tls)) (Z.to_nat total) in
  let! b := store (inbuf tls) 0 kept in
  Ok (set_inbuf tls b).

Definition read_fuel : nat := Z.to_nat MAX_INBUF + 1.

(** [fuel] bounds the number of warnings that are discarded. *)
Fixpoint tls_xread_record (fuel : nat) (tls : tls_state_t) (evs : list read_event)
  : result (tls_state_t * list read_event * Z) :=
  match fuel with
  | O => Diverge
  | S fuel =>
      let! tls := move_buffered tls in
      let! (tls, evs, got) := read_loop read_fuel tls evs (buffered_size tls) MAX_INBUF in
      match got with
      | Eof => Ok (tls, evs, 0)
      | Whole total target =>
          let tls := set_buffered tls target (total - target) in
          let! (tls, sz) := decrypt_record tls (target - Z.of_nat RECHDR_LEN) in
          let! (tls, nxt) := handle_record tls sz in
          match nxt with
          | Return sz => Ok (tls, evs, sz)
          | Again => tls_xread_record fuel tls evs
          end
      end
  end.

Definition tls_has_buffered_record (tls : tls_state_t) : result Z :=
  let buffered := buffered_size tls in
  if buffered <? Z.of_nat RECHDR_LEN then Ok 0 else
  let! len := record_len (inbuf tls) (Z.to_nat (ofs_to_buffered tls)) in
  let rec_size := Z.of_nat RECHDR_LEN + len in
  if buffered <? rec_size then Ok 0 else Ok rec_size.

Definition tls_xread_handshake_block (fuel : nat) (tls : tls_state_t) (evs : list read_event) (min_len : Z)
  : result (tls_state_t * list read_event * Z) :=
  let! (tls, evs, len) := tls_xread_record fuel tls evs in
  let! type := load1 (inbuf tls) 0 in
  if (len <? min_len) || negb (type =? RECORD_TYPE_HANDSHAKE) then bad_record_die tls len
  else Ok (tls, evs, len).

End Code.
End TLS.
