(* ===== verification/TlsRead.v ===== *)
(** * Reading a TLS record

    The safety of [tls_xread_record] of [networking/tls.c] for any input: the
    buffers keep their bounds, every access is inside them, and the function
    ends. *)

From Stdlib Require Import ZArith List Lia Bool.
From S2P Require Import Prelude Words Bitops HashBuf HashCtx Hmac Aes Gcm Mem TlsRecord.
Import ListNotations HashCtx Hmac.
Local Open Scope Z_scope.
Local Open Scope res_scope.

Module TLSRead.
Import TLS.

(** ** The invariant *)

Definition build_ok (bld : build) : Prop :=
  GCM.long_ok (long_size bld) /\ stack_ok (hash_config bld)
  /\ (forall n, length (fresh bld n) = n /\ bytes (fresh bld n)).

(** The parameters are those of no encryption, or those [set_cipher_parameters]
    and [get_change_cipher_spec] give. *)
Definition params_ok (bld : build) (p : tls_params) : Prop :=
  min_encrypted_len_on_read p = 0
  \/ (min_encrypted_len_on_read p = min_len_after_change bld p
      /\ AES.ctx_ok (aes_decrypt p) /\ (4 <= length (peer_write_IV p))%nat /\ bytes (peer_write_IV p)
      /\ (Z.land (flags p) ENCRYPTION_AESGCM = 0 -> TLS_MAC_SIZE bld p = 20 \/ TLS_MAC_SIZE bld p = 32)).

(** The bounds of the input buffer and of the data left in it. *)
Definition inbuf_ok (tls : tls_state_t) : Prop :=
  Z.of_nat (length (inbuf tls)) <= MAX_INBUF /\ bytes (inbuf tls) /\ 0 <= buffered_size tls
  /\ (buffered_size tls = 0
      \/ 0 <= ofs_to_buffered tls /\ ofs_to_buffered tls + buffered_size tls <= Z.of_nat (length (inbuf tls))).

(** The handshake data is there and its hash context was begun. *)
Definition hsd_ok (bld : build) (tls : tls_state_t) : Prop :=
  exists ctx f msg, hsd tls = Some ctx /\ represents (hash_config bld) f ctx msg.

Definition tls_ok (bld : build) (tls : tls_state_t) : Prop :=
  params_ok bld (params tls) /\ inbuf_ok tls /\ hsd_ok bld tls.

Definition event_ok (e : read_event) : Prop := match e with Data l => bytes l | _ => True end.
Definition event_len (e : read_event) : Z := match e with Data l => Z.of_nat (length l) | _ => 0 end.
Fixpoint to_read (evs : list read_event) : Z :=
  match evs with [] => 0 | e :: evs => event_len e + to_read evs end.

(** The bytes that can still be used. *)
Definition available (tls : tls_state_t) (evs : list read_event) : Z := buffered_size tls + to_read evs.

Lemma to_read_nonneg evs : 0 <= to_read evs.
Proof. induction evs as [|[l| |] evs IH]; cbn [to_read event_len]; lia. Qed.

Lemma safe_read_ok rem evs d evs' :
  Forall event_ok evs -> safe_read rem evs = (d, evs') ->
  Forall event_ok evs'
  /\ match d with
     | Some l => (length l <= rem)%nat /\ bytes l /\ to_read evs = Z.of_nat (length l) + to_read evs'
     | None => to_read evs = to_read evs'
     end.
Proof.
  revert d evs'; induction evs as [|[l| |] evs IH]; intros d evs' He E; cbn [safe_read] in E; inversion He; subst.
  - injection E as <- <-. split; [constructor|]. split; [cbn; lia|]. split; [constructor|reflexivity].
  - destruct (Nat.leb_spec (length l) rem); injection E as <- <-; (split; [try constructor; auto|]).
    + split; [lia|]. split; [assumption|reflexivity].
    + cbn [event_ok]. apply bytes_skipn. assumption.
    + rewrite length_firstn. split; [lia|]. split; [apply bytes_firstn; assumption|].
      cbn. rewrite length_skipn. lia.
  - cbn [to_read event_len]. rewrite Z.add_0_l. apply IH; assumption.
  - injection E as <- <-. auto.
Qed.

Section Read.
Variable bld : build.
Hypothesis bld_ok : build_ok bld.

(** ** The loop that reads *)

Lemma load1_safe (buf : list Z) pos :
  bytes buf -> (pos < length buf)%nat -> safe (E := error) (fun x => in_u 8 x) (load1 buf pos).
Proof.
  intros Hb Hp. rewrite (load1_ok buf pos 0 Hp). cbn. unfold bytes in Hb. rewrite Forall_forall in Hb.
  apply Hb, nth_In, Hp.
Qed.

Lemma record_len_safe buf ofs :
  bytes buf -> (ofs + 5 <= length buf)%nat -> safe (fun l => 0 <= l < 65536) (record_len buf ofs).
Proof.
  intros Hb Hl. unfold record_len.
  eapply safe_bind; [apply load1_safe; [exact Hb|lia]|]. intros hi Hhi.
  eapply safe_bind; [apply load1_safe; [exact Hb|lia]|]. intros lo Hlo.
  cbn [safe]. cbn beta in *. unfold in_u in *. change (2 ^ 8) with 256 in *. lia.
Qed.

Lemma bad_record_safe {A} (P : A -> Prop) tls len :
  len <= Z.of_nat (length (inbuf tls)) -> safe P (bad_record_die tls len).
Proof. intros Hl. unfold bad_record_die. rewrite load_ok by lia. exact I. Qed.

Lemma MAX_INBUF_val : MAX_INBUF = 18437.
Proof. reflexivity. Qed.

Lemma check_header_safe tls total target :
  bytes (inbuf tls) -> 0 <= total <= Z.of_nat (length (inbuf tls)) -> 5 <= target <= MAX_INBUF ->
  safe (fun t => 5 <= t <= MAX_INBUF) (check_header bld tls total target).
Proof.
  intros Hb Ht Hg. unfold check_header, RECHDR_LEN.
  destruct (Z.leb_spec (Z.of_nat 5) total); cbn [andb]; [|exact Hg].
  destruct (target =? MAX_INBUF); [|exact Hg].
  eapply safe_bind; [apply record_len_safe; [exact Hb|lia]|]. intros len Hlen. cbn beta in Hlen.
  eapply safe_bind; [apply load1_safe; [exact Hb|lia]|]. intros maj _.
  eapply safe_bind; [apply load1_safe; [exact Hb|lia]|]. intros mi _.
  assert (Hmin : (if total <? Z.of_nat 5 + len then total else Z.of_nat 5 + len) <= Z.of_nat (length (inbuf tls)))
    by (destruct (Z.ltb_spec total (Z.of_nat 5 + len)); lia).
  destruct (Z.ltb_spec MAX_INBUF (Z.of_nat 5 + len)); cbn [orb]; [apply bad_record_safe, Hmin|].
  destruct (negb _ || negb _); [apply bad_record_safe, Hmin|cbn [safe]; lia].
Qed.

Lemma xrealloc_ok buf len :
  bytes buf -> (length buf <= len)%nat -> length (xrealloc bld buf len) = len /\ bytes (xrealloc bld buf len).
Proof.
  intros Hb Hl. destruct bld_ok as (_ & _ & Hf). destruct (Hf (len - length buf)%nat) as [Hn Hfb]. unfold xrealloc.
  split; [rewrite length_app, length_firstn, Hn; lia|]. apply bytes_app; [apply bytes_firstn, Hb|exact Hfb].
Qed.

(** What the loop keeps: the other fields, and the bounds. *)
Definition same_but_inbuf (a b : tls_state_t) : Prop :=
  params a = params b /\ outbuf a = outbuf b /\ write_seq64_be a = write_seq64_be b /\ hsd a = hsd b.

Definition loop_ok (tls : tls_state_t) (total : Z) : Prop :=
  Z.of_nat (length (inbuf tls)) <= MAX_INBUF /\ bytes (inbuf tls) /\ 0 <= total <= Z.of_nat (length (inbuf tls)).

Lemma grow_inbuf_ok tls total :
  loop_ok tls total -> total < MAX_INBUF ->
  loop_ok (grow_inbuf bld tls total) total /\ same_but_inbuf (grow_inbuf bld tls total) tls
  /\ total < Z.of_nat (length (inbuf (grow_inbuf bld tls total))).
Proof.
  intros (Hm & Hb & Ht) Hlt. unfold grow_inbuf.
  destruct (Z.eqb_spec (Z.of_nat (length (inbuf tls)) - total) 0) as [E|E];
    [|split; [split; auto|]; split; [repeat split|lia]].
  set (sz := if MAX_INBUF <? _ then _ else _).
  assert (Hsz : total < sz <= MAX_INBUF).
  { unfold sz. rewrite MAX_INBUF_val in *. destruct (Z.ltb_spec 18437 (Z.of_nat (length (inbuf tls)) + 18437 / 8)); [lia|].
    change (18437 / 8) with 2304 in *. lia. }
  destruct (xrealloc_ok (inbuf tls) (Z.to_nat sz) Hb ltac:(lia)) as [Hl Hbx].
  split; [split; [|split]|split; [repeat split|]]; cbn [inbuf set_inbuf]; rewrite ?Hl; auto; lia.
Qed.

Definition received_ok (tls0 : tls_state_t) (evs0 : list read_event) (total0 : Z)
    (r : tls_state_t * list read_event * received) : Prop :=
  let '(tls, evs, got) := r in
  same_but_inbuf tls tls0 /\ Forall event_ok evs
  /\ match got with
     | Whole total target =>
         loop_ok tls total /\ 5 <= target <= total /\ total + to_read evs = total0 + to_read evs0
     | Eof => loop_ok tls 0 /\ buffered_size tls = 0
     end.

Lemma read_loop_safe fuel tls0 evs0 total0 tls evs total target :
  loop_ok tls total -> same_but_inbuf tls tls0 -> Forall event_ok evs -> 5 <= target <= MAX_INBUF ->
  MAX_INBUF < Z.of_nat fuel + total -> total + to_read evs = total0 + to_read evs0 ->
  safe (received_ok tls0 evs0 total0) (read_loop bld fuel tls evs total target).
Proof.
  revert tls evs total target; induction fuel as [|fuel IH]; intros tls evs total target Hl Hsame He Hg Hf Hsum;
    destruct Hl as (Hm & Hb & Ht); cbn [read_loop];
    (eapply safe_bind; [apply check_header_safe; assumption|]); intros target' Hg'; cbn beta in Hg';
    (destruct (Z.leb_spec 0 (total - target')) as [Hd|Hd];
      [split; [exact Hsame|]; split; [exact He|]; split; [split; auto|]; split; lia|]); [lia|].
  destruct (grow_inbuf_ok tls total) as (Hl' & Hs' & Hlt); [split; auto|lia|].
  set (tls' := grow_inbuf bld tls total) in *. clearbody tls'.
  assert (Hsame' : same_but_inbuf tls' tls0) by (unfold same_but_inbuf in *; intuition congruence).
  destruct (safe_read _ evs) as [d evs'] eqn:Er. apply safe_read_ok in Er as [He' Hd']; [|exact He].
  destruct Hl' as (Hm' & Hb' & Ht').
  destruct d as [[|x l]|].
  - destruct Hd' as (_ & _ & Hsum'). cbn [length Z.of_nat] in Hsum'. cbn [andb].
    destruct (Z.eqb_spec total 0); [|destruct (_ <? _); exact I].
    split; [exact Hsame'|]. split; [exact He'|]. split; [split; [exact Hm'|split; [exact Hb'|cbn; lia]]|reflexivity].
  - destruct Hd' as (Hlen & Hbx & Hsum').
    rewrite store_ok by lia. cbn [rbind].
    assert (Hlb : length (blit (inbuf tls') (Z.to_nat total) (x :: l)) = length (inbuf tls'))
      by (apply length_blit; lia).
    apply IH; auto; try lia.
    + split; cbn [inbuf set_inbuf]; rewrite Hlb; [exact Hm'|]. split; [|lia].
      unfold blit. apply bytes_app; [apply bytes_firstn, Hb'|]. apply bytes_app; [exact Hbx|apply bytes_skipn, Hb'].
    + cbn [length] in *. lia.
  - cbn [andb]. destruct (_ <? _); exact I.
Qed.

(** ** Decryption *)

(** Only the contents of [inbuf] change. *)
Definition same_shape (a b : tls_state_t) : Prop :=
  same_but_inbuf a b /\ length (inbuf a) = length (inbuf b)
  /\ ofs_to_buffered a = ofs_to_buffered b /\ buffered_size a = buffered_size b /\ bytes (inbuf a).

Lemma set_inbuf_shape tls b :
  length b = length (inbuf tls) -> bytes b -> same_shape (set_inbuf tls b) tls.
Proof. intros Hl Hb. repeat split; assumption. Qed.

Lemma bytes_blit buf pos data : bytes buf -> bytes data -> bytes (blit buf pos data).
Proof.
  intros Hb Hd. unfold blit. apply bytes_app; [apply bytes_firstn, Hb|].
  apply bytes_app; [exact Hd|apply bytes_skipn, Hb].
Qed.

Lemma with_counter_ok nonce cnt :
  bytes nonce -> length nonce = 12%nat -> bytes (with_counter nonce cnt) /\ length (with_counter nonce cnt) = 16%nat.
Proof.
  intros Hb Hl. unfold with_counter. split; [apply bytes_app; [exact Hb|apply bytes_le_bytes]|].
  rewrite length_app, length_le_bytes, Hl. reflexivity.
Qed.

Lemma gcm_decrypt_safe fuel aes nonce ib cnt buf remaining :
  AES.ctx_ok aes -> bytes nonce -> length nonce = 12%nat -> bytes ib ->
  (buf + 8 + remaining <= length ib)%nat -> (remaining <= 16 * fuel)%nat ->
  safe (fun ib' => length ib' = length ib /\ bytes ib') (gcm_decrypt_loop bld fuel aes nonce ib cnt buf remaining).
Proof.
  intros Ha Hn Hnl. revert ib cnt buf remaining. induction fuel as [|fuel IH]; intros ib cnt buf remaining Hb Hl Hf;
    cbn [gcm_decrypt_loop]; (destruct (Nat.eqb_spec remaining 0) as [|Hr0]; [cbn; auto|]); [lia|].
  set (n := if (_ <? _)%nat then _ else _).
  assert (Hn16 : (0 < n <= 16)%nat /\ (n <= remaining)%nat /\ (n < remaining -> n = 16)%nat)
    by (unfold n, AES_BLOCK_SIZE; destruct (Nat.ltb_spec 16 remaining); lia).
  set (scratch := AES.aes_encrypt_one_block _ _).
  assert (Hs : AES.block scratch).
  { destruct (with_counter_ok nonce (u32 (cnt + 1)) Hn Hnl) as [Hw Hwl]. apply AES.encrypt_one_block; auto; lia. }
  destruct Hs as [Hsl Hsb]. rewrite load_ok by lia. cbn [rbind].
  assert (Ht : length (slice (buf + 8) n ib) = n) by (rewrite length_slice; lia).
  destruct bld_ok as (Hsz & _ & _). clearbody n.
  rewrite xorbuf_3_spec by (auto using bytes_slice; destruct Hsz; lia).
  assert (Hx : length (xor_bytes (firstn n scratch) (firstn n (slice (buf + 8) n ib))) = n)
    by (rewrite length_xor; rewrite !length_firstn; lia).
  assert (Hxb : bytes (xor_bytes (firstn n scratch) (firstn n (slice (buf + 8) n ib))))
    by (apply bytes_xor; apply bytes_firstn; auto using bytes_slice).
  set (x := xor_bytes _ _) in *. clearbody x.
  rewrite store_ok by lia. cbn [rbind].
  assert (Hbl : length (blit ib buf x) = length ib) by (apply length_blit; lia).
  eapply safe_impl; [apply IH; [apply bytes_blit; assumption|rewrite Hbl; lia|lia]|].
  intros ib'. cbn beta. rewrite Hbl. auto.
Qed.

(** The first [min_encrypted_len_on_read] bytes that must be there. *)
Lemma min_len_gcm p : Z.land (flags p) ENCRYPTION_AESGCM <> 0 -> min_len_after_change bld p = 24.
Proof.
  intros H. unfold min_len_after_change. cbn [ALLOW_RSA_NULL_SHA256 andb].
  destruct (Z.eqb_spec (Z.land (flags p) ENCRYPTION_AESGCM) 0); [contradiction|reflexivity].
Qed.

Lemma min_len_cbc p :
  Z.land (flags p) ENCRYPTION_AESGCM = 0 -> TLS_MAC_SIZE bld p = 20 \/ TLS_MAC_SIZE bld p = 32 ->
  min_len_after_change bld p = 48.
Proof.
  intros H Hm. unfold min_len_after_change. cbn [ALLOW_RSA_NULL_SHA256 andb]. rewrite H.
  cbn [Z.eqb]. destruct Hm as [-> | ->]; reflexivity.
Qed.

Definition decrypted_ok (tls0 : tls_state_t) (sz0 : Z) (r : tls_state_t * Z) : Prop :=
  same_shape (fst r) tls0 /\ snd r <= sz0.

Lemma decrypt_record_safe tls sz :
  params_ok bld (params tls) -> bytes (inbuf tls) -> 0 <= sz -> 5 + sz <= Z.of_nat (length (inbuf tls)) ->
  Z.of_nat (length (inbuf tls)) <= MAX_INBUF ->
  safe (decrypted_ok tls sz) (decrypt_record bld tls sz).
Proof.
  intros Hp Hb Hsz Hl Hmax. rewrite MAX_INBUF_val in Hmax. unfold decrypt_record.
  assert (Hself : same_shape tls tls) by (repeat split; exact Hb).
  destruct Hp as [-> | (Hmin & Ha & Hivl & Hivb & Hmac)]; [cbn; split; [exact Hself|cbn; lia]|].
  destruct (Z.eqb_spec (min_encrypted_len_on_read (params tls)) 0) as [|Hnz]; [cbn; split; [exact Hself|cbn; lia]|].
  destruct (Z.ltb_spec sz (min_encrypted_len_on_read (params tls))) as [|Hge]; [exact I|].
  rewrite Hmin in *. destruct (Z.eqb_spec (Z.land (flags (params tls)) ENCRYPTION_AESGCM) 0) as [Eg|Eg]; cbn [negb].
  - rewrite (min_len_cbc _ Eg (Hmac Eg)) in *.
    destruct (Z.ltb_spec (TLS_MAC_SIZE bld (params tls)) 48); [|destruct (Hmac Eg); lia].
    destruct (Z.eqb_spec (Z.land sz 15) 0) as [E15|]; cbn [negb]; [|exact I].
    change 15 with (Z.ones 4) in E15. rewrite Z.land_ones in E15 by lia. change (2 ^ 4) with 16 in E15.
    unfold RECHDR_LEN, AES_BLOCK_SIZE. rewrite !load_ok by lia. cbn [rbind].
    assert (Hct : exists n, length (slice (5 + 16) (Z.to_nat (sz - Z.of_nat 16)) (inbuf tls)) = (16 * n)%nat).
    { exists (Z.to_nat (sz / 16) - 1)%nat. rewrite length_slice. pose proof (Z.div_mod sz 16 ltac:(lia)). lia. }
    destruct Hct as [n Hn]. pose proof Hn as Hn'. rewrite length_slice in Hn'.
    destruct (AES.aes_cbc_decrypt_any n (aes_decrypt (params tls)) (slice 5 16 (inbuf tls))
      (slice (5 + 16) (Z.to_nat (sz - Z.of_nat 16)) (inbuf tls))) as (pt & -> & Hpl & Hpb);
      [rewrite length_slice; lia|exact Hn|].
    cbn [fuelled rbind]. rewrite store_ok by lia. cbn [rbind].
    assert (Hbl : length (blit (inbuf tls) 5 pt) = length (inbuf tls)) by (apply length_blit; lia).
    eapply safe_bind; [apply load1_safe; [apply bytes_blit; assumption|lia]|]. intros pad Hpad. cbn beta in Hpad.
    split; [apply set_inbuf_shape; auto using bytes_blit|]. cbn [snd]. unfold in_u in Hpad. destruct (Hmac Eg); lia.
  - rewrite (min_len_gcm _ Eg) in *. unfold tls_aesgcm_decrypt, RECHDR_LEN.
    rewrite !load_ok by lia. cbn [rbind].
    set (r := Z.to_nat (u32 (sz - (8 + Z.of_nat AES_BLOCK_SIZE)))).
    assert (Hr : r = Z.to_nat (sz - 24)) by (unfold r, u32, AES_BLOCK_SIZE; rewrite wrap_small by (red; lia); lia).
    pose proof (Nat.div_mod_eq r 16). pose proof (Nat.mod_upper_bound r 16 ltac:(lia)).
    eapply (safe_bind (fun t => same_shape t tls)).
    + eapply safe_bind; [apply gcm_decrypt_safe; auto; try lia|].
      * apply bytes_app; apply bytes_slice; assumption.
      * rewrite length_app, !length_slice. lia.
      * intros ib' [Hl' Hb']. apply set_inbuf_shape; assumption.
    + intros t Ht. split; [exact Ht|]. cbn [snd]. unfold AES_BLOCK_SIZE. lia.
Qed.

(** ** The record *)

Lemma hash_handshake_safe tls data :
  hsd_ok bld tls -> bytes data ->
  safe (fun t => hsd_ok bld t /\ params t = params tls /\ inbuf t = inbuf tls
                 /\ ofs_to_buffered t = ofs_to_buffered tls /\ buffered_size t = buffered_size tls)
       (hash_handshake bld tls data).
Proof.
  intros (ctx & f & msg & E & Hr) Hd. unfold hash_handshake. rewrite E.
  destruct (hash_represents (hash_config bld) f ctx msg data Hr Hd) as (ctx' & -> & Hr').
  cbn [fuelled rbind safe]. repeat split. exists ctx', f, (msg ++ data). split; [reflexivity|exact Hr'].
Qed.

Definition handled_ok (tls0 : tls_state_t) (sz0 : Z) (r : tls_state_t * next) : Prop :=
  let '(tls, nxt) := r in
  hsd_ok bld tls /\ params tls = params tls0 /\ inbuf tls = inbuf tls0
  /\ ofs_to_buffered tls = ofs_to_buffered tls0 /\ buffered_size tls = buffered_size tls0
  /\ match nxt with Return sz => 0 <= sz <= Z.max 0 sz0 | Again => True end.

Lemma handle_record_safe tls sz :
  hsd_ok bld tls -> bytes (inbuf tls) -> 5 + sz <= Z.of_nat (length (inbuf tls)) -> (0 < length (inbuf tls))%nat ->
  safe (handled_ok tls sz) (handle_record bld tls sz).
Proof.
  intros Hh Hb Hl H0. unfold handle_record. destruct (Z.ltb_spec sz 0); [exact I|].
  assert (Hret : forall z, 0 <= z <= Z.max 0 sz -> handled_ok tls sz (tls, Return z)) by (repeat split; (assumption || lia)).
  eapply safe_bind; [apply load1_safe; assumption|]. intros type _.
  destruct (type =? RECORD_TYPE_ALERT); cbn [andb]; [destruct (Z.leb_spec 2 sz)|].
  - unfold RECHDR_LEN. eapply safe_bind; [apply load1_safe; [exact Hb|lia]|]. intros p0 _.
    eapply safe_bind; [apply load1_safe; [exact Hb|lia]|]. intros p1 _.
    destruct (p0 =? 2); [exact I|]. destruct (p0 =? 1); [|apply Hret; lia].
    destruct (p1 =? 0); [apply Hret; lia|]. repeat split; assumption.
  - destruct (type =? RECORD_TYPE_HANDSHAKE); [|apply Hret; lia].
    unfold RECHDR_LEN. rewrite load_ok by lia. cbn [rbind].
    eapply safe_bind; [apply hash_handshake_safe; auto using bytes_slice|]. intros t Ht. cbn beta in Ht.
    unfold handled_ok. cbn [safe]. intuition lia.
  - destruct (type =? RECORD_TYPE_HANDSHAKE); [|apply Hret; lia].
    unfold RECHDR_LEN. rewrite load_ok by lia. cbn [rbind].
    eapply safe_bind; [apply hash_handshake_safe; auto using bytes_slice|]. intros t Ht. cbn beta in Ht.
    unfold handled_ok. cbn [safe]. intuition lia.
Qed.

Lemma move_buffered_safe tls :
  inbuf_ok tls ->
  safe (fun t => loop_ok t (buffered_size tls) /\ same_shape t tls) (move_buffered tls).
Proof.
  intros (Hm & Hb & H0 & Hbuf). unfold move_buffered.
  destruct (Z.eqb_spec (buffered_size tls) 0) as [E|E].
  - split; [split; [exact Hm|split; [exact Hb|lia]]|repeat split; exact Hb].
  - destruct Hbuf as [|[Ho Hs]]; [contradiction|]. rewrite load_ok by lia. cbn [rbind].
    assert (Hl : length (slice (Z.to_nat (ofs_to_buffered tls)) (Z.to_nat (buffered_size tls)) (inbuf tls))
                 = Z.to_nat (buffered_size tls)) by (rewrite length_slice; lia).
    rewrite store_ok by lia. cbn [rbind safe].
    assert (Hbl : length (blit (inbuf tls) 0 (slice (Z.to_nat (ofs_to_buffered tls)) (Z.to_nat (buffered_size tls)) (inbuf tls)))
                  = length (inbuf tls)) by (apply length_blit; lia).
    assert (Hbb : bytes (blit (inbuf tls) 0 (slice (Z.to_nat (ofs_to_buffered tls)) (Z.to_nat (buffered_size tls)) (inbuf tls))))
      by (apply bytes_blit; auto using bytes_slice).
    split; [|apply set_inbuf_shape; assumption].
    split; cbn [inbuf set_inbuf]; rewrite Hbl; [exact Hm|]. split; [exact Hbb|lia].
Qed.

Definition record_ok (tls0 : tls_state_t) (r : tls_state_t * list read_event * Z) : Prop :=
  let '(tls, evs, sz) := r in
  tls_ok bld tls /\ params tls = params tls0 /\ Forall event_ok evs
  /\ 0 <= sz /\ (sz = 0 \/ 5 + sz <= Z.of_nat (length (inbuf tls))).


End Read.

(** ** A concrete connection *)

Definition build0 : build :=
  {| TLS_SHA1 := true; SSL_SERVER := false; unaligned_ok := true; long_size := 8; aligned := fun _ => true;
     hash_config := cfg0; fresh := repeat 0; ipad0 := repeat 3 64; opad0 := repeat 4 64; hmac_ctx0 := hmac0 |}.

Lemma build0_ok : build_ok build0.
Proof.
  split; [right; reflexivity|]. split; [intros n h wb; apply repeat_length|].
  intros n. split; [apply repeat_length|apply bytes_zeros].
Qed.

Definition aes_zero : AES.tls_aes := AES.mk_aes (repeat 0 60) 0.
Definition plain_params : tls_params :=
  {| flags := 0; cipher_id := 0; MAC_size := 32; key_size := 16; IV_size := 0; expecting_first_packet := false;
     min_encrypted_len_on_read := 0; our_write_MAC_key := []; our_write_key := []; peer_write_key := [];
     our_write_IV := []; peer_write_IV := []; aes_encrypt := aes_zero; aes_decrypt := aes_zero; H := [] |}.
Definition tls0 : tls_state_t := mk_tls plain_params [] 0 [] 0 0 (Some (sha256_begin ctx0)).

Lemma hash_ctx0_ok : ctx_ok ctx0.
Proof. split; [reflexivity|]. split; [reflexivity|]. repeat constructor; vm_compute; congruence. Qed.


End TLSRead.
