(* ===== verification/TlsWrite.v ===== *)
(** * Writing a TLS record

    The records [xwrite_encrypted] of [networking/tls.c] writes are those of
    RFC 5246 (AES-CBC with HMAC) and RFC 5288 (AES-GCM), and it writes inside
    its buffer. *)

From Stdlib Require Import ZArith List Lia Bool.
From S2P Require Import Prelude Words Bitops HashBuf HashCtx Hmac Aes Gcm Mem TlsRecord TlsRead.
Import ListNotations HashCtx Hmac.
Local Open Scope Z_scope.
Local Open Scope res_scope.

Module TLSWrite.
Import TLS TLSRead.

(** ** The records of the RFCs *)

(** NIST SP 800-38D, 6.5: GCTR with the cipher [E], from the counter block
    [nonce || c]; [n] blocks, the last one cut to the length of the text. *)
Fixpoint gctr (n : nat) (E : list Z -> list Z) (nonce : list Z) (c : Z) (text : list Z) : list Z :=
  match n with
  | O => []
  | S n => xor_bytes (firstn 16 text) (E (nonce ++ be_bytes 4 c)) ++ gctr n E nonce (c + 1) (skipn 16 text)
  end.

Definition blocks_of (len : nat) : nat := ((len + 15) / 16)%nat.

(** 7.1: the ciphertext followed by the tag, for a nonce of 12 bytes. *)
Definition gcm_ae (E : list Z -> list Z) (nonce aad text : list Z) : list Z :=
  let ct := gctr (blocks_of (length text)) E nonce 2 text in
  ct ++ xor_bytes (be_bytes 16 (GCM.nist_ghash (be_word (E (repeat 0 16))) (GCM.gcm_data aad ct)))
                  (E (nonce ++ be_bytes 4 1)).

(** A record: type, version 3.3, length, fragment. *)
Definition rfc_record (type : Z) (fragment : list Z) : list Z :=
  [type; 3; 3] ++ be_bytes 2 (Z.of_nat (length fragment)) ++ fragment.

(** The additional data of RFC 5246, 6.2.3.3 and the header of the MAC's input
    of 6.2.3.1. *)
Definition rfc_header (seq type : Z) (len : nat) : list Z :=
  be_bytes 8 seq ++ [type; 3; 3] ++ be_bytes 2 (Z.of_nat len).

(** RFC 5288: the fragment is the explicit nonce and the AEAD output. *)
Definition rfc5288_record (key : list Z) (salt : list Z) (seq type : Z) (text : list Z) : list Z :=
  rfc_record type
    (be_bytes 8 seq
     ++ gcm_ae (AES.f_cipher key) (salt ++ be_bytes 8 seq) (rfc_header seq type (length text)) text).

(** CBC encryption of [n] blocks. *)
Fixpoint cbc (n : nat) (E : list Z -> list Z) (iv text : list Z) : list Z :=
  match n with
  | O => []
  | S n => let c := E (xor_bytes (firstn 16 text) iv) in c ++ cbc n E c (skipn 16 text)
  end.

(** RFC 5246, 6.2.3.2: [padding_length + 1] bytes of value [padding_length]
    complete the last block. *)
Definition rfc_padding (len : nat) : list Z :=
  let k := (16 - len mod 16)%nat in repeat (Z.of_nat k - 1) k.

Definition rfc5246_record (key : list Z) (mac : list Z -> list Z) (iv : list Z) (seq type : Z) (text : list Z) : list Z :=
  let plain := text ++ mac (rfc_header seq type (length text) ++ text) in
  let plain := plain ++ rfc_padding (length plain) in
  rfc_record type (iv ++ cbc (length plain / 16) (AES.f_cipher key) iv plain).

(** ** Counter mode *)

Lemma be_bytes_swap c : le_bytes 4 (bswap_32 c) = be_bytes 4 c.
Proof. apply le_bytes_bswap_32. Qed.

Lemma be_bytes_eqm n a b : a mod 256 ^ Z.of_nat n = b mod 256 ^ Z.of_nat n -> be_bytes n a = be_bytes n b.
Proof. intros H. unfold be_bytes. f_equal. apply le_bytes_eqm, H. Qed.

Lemma gctr_eqm n E nonce a b text :
  a mod 2 ^ 32 = b mod 2 ^ 32 -> gctr n E nonce a text = gctr n E nonce b text.
Proof.
  revert a b text; induction n as [|n IH]; intros a b text H; cbn [gctr]; [reflexivity|].
  rewrite (be_bytes_eqm 4 a b) by exact H. f_equal. apply IH.
  rewrite <- (Z.add_mod_idemp_l a), <- (Z.add_mod_idemp_l b), H by lia. reflexivity.
Qed.

Lemma u32_mod c : u32 c mod 2 ^ 32 = c mod 2 ^ 32.
Proof. unfold u32, wrap. apply Z.mod_mod. lia. Qed.

Lemma blocks_of_S len : (0 < len)%nat -> blocks_of len = S (blocks_of (len - 16)).
Proof.
  intros H. unfold blocks_of. destruct (Nat.le_gt_cases len 16).
  - replace (len - 16)%nat with 0%nat by lia. change ((0 + 15) / 16)%nat with 0%nat.
    symmetry. apply Nat.div_unique with (len - 1)%nat; lia.
  - replace (len + 15)%nat with (len - 16 + 15 + 1 * 16)%nat by lia. rewrite Nat.div_add by lia. lia.
Qed.

Lemma blocks_of_enough len : (len <= 16 * blocks_of len)%nat.
Proof.
  unfold blocks_of. pose proof (Nat.div_mod_eq (len + 15) 16). pose proof (Nat.mod_upper_bound (len + 15) 16). lia.
Qed.

(** A key stream: the cipher gives a block for every counter. *)
Definition stream_ok (E : list Z -> list Z) (nonce : list Z) : Prop :=
  forall c, AES.block (E (nonce ++ be_bytes 4 c)).

Lemma xor_cut a b : xor_bytes a b = xor_bytes a (firstn (length a) b).
Proof.
  revert b; induction a as [|x a IH]; intros [|y b]; cbn [length firstn]; try reflexivity.
  unfold xor_bytes in *. cbn [combine map]. f_equal. apply IH.
Qed.

Lemma gctr_ok n E nonce c text :
  stream_ok E nonce -> (length text <= 16 * n)%nat -> bytes text ->
  length (gctr n E nonce c text) = length text /\ bytes (gctr n E nonce c text).
Proof.
  intros HE. revert c text; induction n as [|n IH]; intros c text Hl Hb; cbn [gctr].
  - split; [cbn; lia|constructor].
  - destruct (IH (c + 1) (skipn 16 text)) as [Hl' Hb']; [rewrite length_skipn; lia|apply bytes_skipn, Hb|].
    destruct (HE c) as [Lc Bc]. split.
    + rewrite length_app, Hl'. unfold xor_bytes. rewrite length_map, length_combine, Lc, length_firstn, length_skipn. lia.
    + apply bytes_app; [apply bytes_xor; [apply bytes_firstn, Hb|exact Bc]|exact Hb'].
Qed.

(** Counter mode undoes itself. *)
Lemma gctr_involutive n E nonce c text :
  stream_ok E nonce -> (length text <= 16 * n)%nat -> bytes text ->
  gctr n E nonce c (gctr n E nonce c text) = text.
Proof.
  intros HE. revert c text; induction n as [|n IH]; intros c text Hl Hb; cbn [gctr].
  - destruct text; [reflexivity|cbn in Hl; lia].
  - destruct (HE c) as [Lc Bc]. set (x := xor_bytes (firstn 16 text) (E (nonce ++ be_bytes 4 c))).
    assert (Hx : length x = Nat.min 16 (length text))
      by (unfold x, xor_bytes; rewrite length_map, length_combine, Lc, length_firstn; lia).
    assert (Ex : xor_bytes x (E (nonce ++ be_bytes 4 c)) = firstn 16 text).
    { rewrite xor_cut, Hx. unfold x. rewrite (xor_cut (firstn 16 text)), length_firstn.
      apply AES.xor_involutive. rewrite !length_firstn, Lc. lia. }
    destruct (Nat.le_gt_cases (length text) 16) as [Hle|Hgt].
    + assert (Hs : skipn 16 text = []) by (apply skipn_all2; lia). rewrite Hs.
      assert (Hg : forall m c', gctr m E nonce c' [] = []) by (induction m as [|m IHm]; intros c'; cbn [gctr]; [|rewrite skipn_nil, IHm]; reflexivity).
      rewrite Hg, app_nil_r, (firstn_all2 x), (skipn_all2 x), Hg, app_nil_r, Ex by lia. apply firstn_all2. lia.
    + rewrite firstn_app, skipn_app, (firstn_all2 x), (skipn_all2 x) by lia.
      replace (16 - length x)%nat with 0%nat by lia. rewrite firstn_O, skipn_O, app_nil_r, Ex. cbn [app].
      rewrite IH; [apply firstn_skipn|rewrite length_skipn; lia|apply bytes_skipn, Hb].
Qed.

Section Write.
Variable bld : build.
Hypothesis bld_ok : build_ok bld.

(** One block done at [dst], from the text at [src], and the rest. *)
Lemma gctr_step aes nonce ob cnt dst src remaining n :
  stream_ok (AES.aes_encrypt_one_block aes) nonce -> bytes ob ->
  (0 < remaining)%nat -> n = Nat.min 16 remaining -> (src + remaining <= length ob)%nat -> (dst <= src)%nat ->
  let E := AES.aes_encrypt_one_block aes in
  let x := xor_bytes (slice src n ob) (E (nonce ++ be_bytes 4 (cnt + 1))) in
  blit (blit ob dst x) (dst + n) (gctr (blocks_of (remaining - n)) E nonce (u32 (cnt + 1) + 1) (slice (src + n) (remaining - n) ob))
  = blit ob dst (gctr (blocks_of remaining) E nonce (cnt + 1) (slice src remaining ob)).
Proof.
  intros HE Hb Hr Hn Hs Hd. cbv zeta. set (E := AES.aes_encrypt_one_block aes) in *. set (text := slice src n ob).
  set (rest := slice (src + n) (remaining - n) ob). set (x := xor_bytes text _).
  assert (Lt : length text = n) by (unfold text; rewrite length_slice; lia).
  assert (Lr : length rest = (remaining - n)%nat) by (unfold rest; rewrite length_slice; lia).
  assert (Es : slice src remaining ob = text ++ rest) by (unfold text, rest; rewrite slice_app; f_equal; lia).
  assert (E1 : firstn 16 (text ++ rest) = text /\ skipn 16 (text ++ rest) = rest).
  { destruct (Nat.le_gt_cases 16 remaining).
    - rewrite firstn_app, skipn_app, Lt, firstn_all2, skipn_all2 by lia.
      replace (16 - n)%nat with 0%nat by lia. rewrite firstn_O, skipn_O, app_nil_r. auto.
    - destruct rest; [|cbn in Lr; lia]. rewrite app_nil_r, firstn_all2, skipn_all2 by lia. auto. }
  rewrite Es, (blocks_of_S remaining) by lia. cbn [gctr]. destruct E1 as [-> ->]. fold x.
  replace (remaining - 16)%nat with (remaining - n)%nat by lia.
  rewrite (gctr_eqm _ _ _ (u32 (cnt + 1) + 1) (cnt + 1 + 1))
    by (rewrite <- Z.add_mod_idemp_l, u32_mod, Z.add_mod_idemp_l by lia; reflexivity).
  set (g := gctr _ _ _ _ rest).
  assert (Lg : length g = (remaining - n)%nat).
  { unfold g. rewrite <- Lr. apply gctr_ok; [exact HE|apply blocks_of_enough|apply bytes_slice, Hb]. }
  destruct (HE (cnt + 1)) as [Lc _].
  assert (Lx : length x = n) by (unfold x, xor_bytes; rewrite length_map, length_combine, Lt, Lc; lia).
  rewrite <- Lx at 1. apply blit_app. lia.
Qed.

Lemma gcm_encrypt_loop_spec fuel aes nonce ob cnt buf remaining :
  stream_ok (AES.aes_encrypt_one_block aes) nonce -> bytes ob ->
  (buf + remaining <= length ob)%nat -> (remaining <= 16 * fuel)%nat ->
  gcm_encrypt_loop bld fuel aes nonce ob cnt buf remaining
  = Ok (blit ob buf (gctr (blocks_of remaining) (AES.aes_encrypt_one_block aes) nonce (cnt + 1) (slice buf remaining ob))).
Proof.
  intros HE. revert ob cnt buf remaining; induction fuel as [|fuel IH]; intros ob cnt buf remaining Hb Hl Hf;
    cbn [gcm_encrypt_loop]; (destruct (Nat.eqb_spec remaining 0) as [->|Hr0];
      [cbn; unfold blit; cbn [app length]; rewrite Nat.add_0_r, firstn_skipn; reflexivity|]); [lia|].
  set (n := if (AES_BLOCK_SIZE <=? remaining)%nat then AES_BLOCK_SIZE else remaining).
  assert (Hn : n = Nat.min 16 remaining) by (unfold n, AES_BLOCK_SIZE; destruct (Nat.leb_spec 16 remaining); lia).
  unfold with_counter. rewrite be_bytes_swap, (be_bytes_eqm 4 _ (cnt + 1)) by apply u32_mod. destruct (HE (cnt + 1)) as [Lc Bc].
  set (scratch := AES.aes_encrypt_one_block _ _) in *.
  rewrite load_ok by lia. cbn [rbind].
  set (text := slice buf n ob). assert (Lt : length text = n) by (unfold text; rewrite length_slice; lia).
  assert (Bt : bytes text) by apply bytes_slice, Hb.
  set (x := if (_ <=? _)%nat then _ else _).
  assert (Ex : x = xor_bytes text scratch).
  { unfold x, n, AES_BLOCK_SIZE in *. destruct bld_ok as (Hsz & _ & _). destruct (Nat.leb_spec 16 remaining).
    - apply xorbuf16_spec; auto.
    - unfold xorbuf. rewrite xorbuf_3_spec by (auto; destruct Hsz; lia).
      rewrite skipn_all2, app_nil_r, (firstn_all2 text) by lia. rewrite (xor_cut text scratch), Lt. reflexivity. }
  rewrite Ex. clear x Ex. clearbody n.
  assert (Lx : length (xor_bytes text scratch) = n)
    by (unfold xor_bytes; rewrite length_map, length_combine, Lt, Lc; lia).
  assert (Bx : bytes (xor_bytes text scratch)) by (apply bytes_xor; assumption).
  rewrite store_ok by lia. cbn [rbind].
  assert (Lb : length (blit ob buf (xor_bytes text scratch)) = length ob) by (apply length_blit; lia).
  rewrite IH by (auto using bytes_blit; rewrite ?Lb; lia).
  rewrite slice_blit_after by lia. f_equal. apply (gctr_step aes nonce ob cnt buf buf remaining n); auto; lia.
Qed.

Lemma gctr_ext n E1 E2 nonce c text :
  (forall c, E1 (nonce ++ be_bytes 4 c) = E2 (nonce ++ be_bytes 4 c)) ->
  gctr n E1 nonce c text = gctr n E2 nonce c text.
Proof.
  intros HE. revert c text; induction n as [|n IH]; intros c text; cbn [gctr]; [reflexivity|].
  rewrite HE, IH. reflexivity.
Qed.

(** A slice of a buffer after several stores. *)
Ltac blits :=
  repeat first
    [ rewrite slice_blit_before by (rewrite ?length_blit; lia)
    | rewrite slice_blit_after by (rewrite ?length_blit; lia) ].

Lemma header_bytes type size :
  in_u 8 type -> Z.of_nat size < 65536 -> record_hdr type size = [type; 3; 3] ++ be_bytes 2 (Z.of_nat size).
Proof.
  intros Ht Hs. unfold record_hdr, u8. rewrite (wrap_small 8 type) by exact Ht.
  unfold be_bytes. cbn [le_bytes rev app]. unfold wrap. rewrite Z.shiftr_div_pow2 by lia. reflexivity.
Qed.

Lemma aad_bytes seq type size :
  0 <= seq < 2 ^ 64 -> in_u 8 type -> Z.of_nat size < 65536 ->
  le_bytes 8 (bswap_64 seq) ++ [u8 type; TLS_MAJ; TLS_MIN; u8 (Z.shiftr (Z.of_nat size) 8)]
    ++ le_bytes 4 (Z.land (Z.of_nat size) 0xff)
  = rfc_header seq type size ++ [0; 0; 0].
Proof.
  intros Hq Ht Hs. unfold rfc_header. rewrite le_bytes_bswap_64, <- app_assoc. f_equal.
  unfold u8. rewrite (wrap_small 8 type) by exact Ht. unfold be_bytes. cbn [le_bytes rev app].
  change 0xff with (Z.ones 8). rewrite Z.land_ones, Z.shiftr_div_pow2 by lia. unfold wrap. change (2 ^ 8) with 256.
  rewrite Z.mod_mod by lia. rewrite (Z.div_small (_ mod 256)) by (apply Z.mod_pos_bound; lia). reflexivity.
Qed.

Lemma bswap_64_involutive z : 0 <= z < 2 ^ 64 -> bswap_64 (bswap_64 z) = z.
Proof.
  intros Hz. unfold bswap_64 at 1. rewrite le_bytes_bswap_64. unfold be_bytes. rewrite rev_involutive, le_word_bytes.
  apply Z.mod_small, Hz.
Qed.

Lemma next_seq_be seq : 0 <= seq < 2 ^ 64 -> next_seq (bswap_64 seq) = bswap_64 (u64 (seq + 1)).
Proof. intros Hs. unfold next_seq. rewrite bswap_64_involutive, Z.add_comm by exact Hs. reflexivity. Qed.

(** What the writer needs of its state: the keys [initialize_aes_keys] sets,
    the sequence number, and room in the buffer. *)
Definition writer_ok (tls : tls_state_t) (key : list Z) (seq : Z) (size : nat) : Prop :=
  let p := params tls in
  (exists aes0, AES.ctx_array aes0 /\ aes_encrypt p = AES.aes_setkey aes0 key)
  /\ AES.key_ok key /\ write_seq64_be tls = bswap_64 seq /\ 0 <= seq < 2 ^ 64
  /\ bytes (outbuf tls) /\ (OUTBUF_PFX + size + OUTBUF_SFX <= length (outbuf tls))%nat
  /\ Z.of_nat size <= TLS_MAX_OUTBUF.

Definition content (tls : tls_state_t) (size : nat) : list Z := slice OUTBUF_PFX size (outbuf tls).

(** The state after a write: the next sequence number and the same room. *)
Definition written (tls tls' : tls_state_t) (seq : Z) : Prop :=
  params tls' = params tls /\ write_seq64_be tls' = bswap_64 (u64 (seq + 1))
  /\ length (outbuf tls') = length (outbuf tls) /\ inbuf tls' = inbuf tls
  /\ ofs_to_buffered tls' = ofs_to_buffered tls /\ buffered_size tls' = buffered_size tls /\ hsd tls' = hsd tls.

Lemma cipher_block aes0 key b :
  AES.ctx_array aes0 -> AES.key_ok key -> bytes b -> length b = 16%nat ->
  AES.aes_encrypt_one_block (AES.aes_setkey aes0 key) b = AES.f_cipher key b /\ AES.block (AES.f_cipher key b).
Proof.
  intros Ha Hk Hb Hl. assert (E := AES.encrypt_cipher aes0 key b Ha Hk Hb ltac:(lia)).
  rewrite firstn_all2 in E by lia. split; [exact E|]. rewrite <- E.
  apply AES.encrypt_one_block; [|exact Hb|lia]. apply AES.aes_setkey_ok; assumption.
Qed.

(** The key stream of a context whose key was set is that of the cipher. *)
Lemma counter_stream aes0 key nonce :
  AES.ctx_array aes0 -> AES.key_ok key -> bytes nonce -> length nonce = 12%nat ->
  let E := AES.aes_encrypt_one_block (AES.aes_setkey aes0 key) in
  (forall c, E (nonce ++ be_bytes 4 c) = AES.f_cipher key (nonce ++ be_bytes 4 c))
  /\ stream_ok E nonce /\ stream_ok (AES.f_cipher key) nonce.
Proof.
  intros Ha Hk Bn Ln E.
  assert (H : forall c, E (nonce ++ be_bytes 4 c) = AES.f_cipher key (nonce ++ be_bytes 4 c)
                        /\ AES.block (AES.f_cipher key (nonce ++ be_bytes 4 c))).
  { intros c. apply cipher_block; auto; [apply bytes_app; [exact Bn|apply bytes_be_bytes]|].
    rewrite length_app, Ln, length_be_bytes. reflexivity. }
  split; [intros c; apply H|]. split; intros c; [rewrite (proj1 (H c))|]; apply H.
Qed.

(** The parts of a record in the buffer: type, the rest of the header,
    explicit nonce, ciphertext, tag. *)
Lemma gcm_frame (ob s8 ct tag h4 : list Z) t size :
  length s8 = 8%nat -> length ct = size -> length tag = 16%nat -> length h4 = 4%nat -> (size + 40 <= length ob)%nat ->
  let ob' := blit (blit (blit (blit (blit ob 11 [t]) 16 s8) 24 ct) (24 + size) tag) 12 h4 in
  length ob' = length ob /\ slice 11 (size + 24 + 5) ob' = [t] ++ h4 ++ s8 ++ ct ++ tag.
Proof.
  intros L8 Lc Lt L4 Lo. set (ob1 := blit ob 11 [t]).
  assert (H1 : length ob1 = length ob) by (apply length_blit; cbn [length]; lia).
  set (ob2 := blit ob1 16 s8). assert (H2 : length ob2 = length ob) by (unfold ob2; rewrite length_blit; lia).
  set (ob3 := blit ob2 24 ct). assert (H3 : length ob3 = length ob) by (unfold ob3; rewrite length_blit; lia).
  set (ob4 := blit ob3 (24 + size) tag). assert (H4 : length ob4 = length ob) by (unfold ob4; rewrite length_blit; lia).
  intros ob'. assert (H5 : length ob' = length ob) by (unfold ob'; rewrite length_blit; lia). split; [exact H5|].
  assert (S5 : forall i n, (16 <= i)%nat -> slice i n ob' = slice i n ob4) by (intros i n Hi; apply slice_blit_after; lia).
  replace (size + 24 + 5)%nat with (1 + (4 + (8 + (size + 16))))%nat by lia. rewrite <- !slice_app.
  change (11 + 1)%nat with 12%nat. change (12 + 4)%nat with 16%nat. change (16 + 8)%nat with 24%nat.
  rewrite (S5 16%nat), (S5 24%nat), (S5 (24 + size)%nat) by lia.
  assert (B4 : forall i n, (i + n <= 24 + size)%nat -> slice i n ob4 = slice i n ob3) by (intros i n Hi; apply slice_blit_before; lia).
  assert (B3 : forall i n, (i + n <= 24)%nat -> slice i n ob3 = slice i n ob2) by (intros i n Hi; apply slice_blit_before; lia).
  rewrite (B4 16%nat), (B4 24%nat), (B3 16%nat) by lia.
  replace (slice 11 1 ob') with [t].
  - unfold ob', ob4, ob3, ob2. rewrite !slice_blit_same by (assumption || (fold ob2 ob3 ob4; lia)). reflexivity.
  - unfold ob'. rewrite slice_blit_before, B4, B3 by lia. unfold ob2. rewrite slice_blit_before by lia.
    symmetry. apply slice_blit_same; [reflexivity|lia].
Qed.

Lemma gcm_write tls key seq size type :
  writer_ok tls key seq size -> in_u 8 type ->
  (4 <= length (our_write_IV (params tls)))%nat -> bytes (our_write_IV (params tls)) ->
  H (params tls) = AES.aes_encrypt_one_block (aes_encrypt (params tls)) (repeat 0 16) ->
  exists tls',
    xwrite_encrypted_aesgcm bld tls size type
    = Ok (tls', rfc5288_record key (firstn 4 (our_write_IV (params tls))) seq type (content tls size))
    /\ written tls tls' seq.
Proof.
  intros ((aes0 & Ha & Eaes) & Hk & Eseq & Hseq & Bo & Lo & Hsize) Htype LIV BIV EH.
  unfold OUTBUF_PFX, OUTBUF_SFX, TLS_MAX_MAC_SIZE, TLS_MAX_CRYPTBLOCK_SIZE, AES_BLOCK_SIZE in Lo.
  change TLS_MAX_OUTBUF with 16384 in Hsize.
  set (salt := firstn 4 (our_write_IV (params tls))).
  set (nonce := salt ++ be_bytes 8 seq).
  assert (Lsalt : length salt = 4%nat) by (unfold salt; rewrite length_firstn; lia).
  assert (Bn : bytes nonce) by (apply bytes_app; [apply bytes_firstn, BIV|apply bytes_be_bytes]).
  assert (Ln : length nonce = 12%nat) by (unfold nonce; rewrite length_app, Lsalt, length_be_bytes; reflexivity).
  destruct (counter_stream aes0 key nonce Ha Hk Bn Ln) as (Ec & HE & HE').
  unfold xwrite_encrypted_aesgcm, RECHDR_LEN. change OUTBUF_PFX with 24%nat. cbn [Nat.sub].
  rewrite store_ok by (cbn [length]; lia). cbn [rbind]. rewrite load_ok by (cbn [Nat.add]; lia). cbn [rbind].
  change (slice 0 4 (our_write_IV (params tls))) with salt. rewrite Eseq, le_bytes_bswap_64. fold nonce.
  set (ob1 := blit (outbuf tls) 11 [u8 type]).
  assert (L1 : length ob1 = length (outbuf tls)) by (apply length_blit; cbn [length]; lia).
  rewrite store_ok by (rewrite length_be_bytes; lia). cbn [rbind].
  set (ob2 := blit ob1 16 (be_bytes 8 seq)).
  assert (L2 : length ob2 = length (outbuf tls)) by (unfold ob2; rewrite length_blit; rewrite ?length_be_bytes; lia).
  assert (B2 : bytes ob2).
  { apply bytes_blit; [|apply bytes_be_bytes]. apply bytes_blit; [exact Bo|]. apply bytes_one, in_u8. }
  rewrite Eaes in *. rewrite gcm_encrypt_loop_spec by (auto; try lia;
    pose proof (Nat.div_mod_eq size 16); pose proof (Nat.mod_upper_bound size 16); lia).
  cbn [rbind].
  assert (Et : slice 24 size ob2 = content tls size).
  { unfold ob2. rewrite slice_blit_after by (rewrite length_be_bytes; lia).
    unfold ob1, content. change OUTBUF_PFX with 24%nat. apply slice_blit_after; cbn [length]; lia. }
  rewrite Et. change (1 + 1) with 2.
  set (text := content tls size) in *.
  assert (Lt : length text = size) by (unfold text, content, OUTBUF_PFX, AES_BLOCK_SIZE; rewrite length_slice; lia).
  assert (Bt : bytes text) by apply bytes_slice, Bo.
  rewrite (gctr_ext _ _ (AES.f_cipher key)) by exact Ec.
  set (ct := gctr (blocks_of size) (AES.f_cipher key) nonce 2 text).
  destruct (gctr_ok (blocks_of size) _ nonce 2 text HE' ltac:(rewrite Lt; apply blocks_of_enough) Bt) as [Lct Bct].
  fold ct in Lct, Bct. rewrite Lt in Lct. set (ob3 := blit ob2 24 ct).
  assert (L3 : length ob3 = length (outbuf tls)) by (unfold ob3; rewrite length_blit; lia).
  rewrite load_ok by lia. cbn [rbind].
  assert (E3 : slice 24 size ob3 = ct) by (apply slice_blit_same; [exact Lct|lia]).
  rewrite E3, <- (le_bytes_bswap_64 seq), aad_bytes by (assumption || lia).
  assert (HH : AES.block (AES.f_cipher key (repeat 0 16))) by (apply (cipher_block aes0); auto; apply bytes_zeros).
  rewrite EH. rewrite (proj1 (cipher_block aes0 key (repeat 0 16) Ha Hk (bytes_zeros 16) eq_refl)).
  destruct bld_ok as (Hsz & _ & _).
  rewrite GCM.ghash_nist; [|exact Hsz|exact HH| | |exact Bct|lia].
  2: unfold rfc_header; rewrite !length_app, !length_be_bytes; reflexivity.
  2: unfold rfc_header; apply bytes_app; [apply bytes_be_bytes|apply bytes_app; [|apply bytes_be_bytes]].
  2: apply (bytes_app [type] [3; 3]); [apply bytes_one, Htype|apply is_bytes_ok; reflexivity].
  unfold with_counter. rewrite be_bytes_swap, Ec. destruct (HE' 1) as [Le Be].
  rewrite xorbuf16_aligned_spec by (auto; rewrite ?length_be_bytes; auto using bytes_be_bytes).
  set (tag := xor_bytes _ _).
  assert (Ltag : length tag = 16%nat) by (unfold tag; rewrite length_xor; rewrite ?length_be_bytes; lia).
  assert (Lh : length (3 :: 3 :: be_bytes 2 (Z.of_nat (size + 24))) = 4%nat) by (cbn [length]; rewrite length_be_bytes; reflexivity).
  destruct (gcm_frame (outbuf tls) (be_bytes 8 seq) ct tag _ (u8 type) size (length_be_bytes _ _) Lct Ltag Lh ltac:(lia)) as [L5 E5].
  fold ob1 ob2 ob3 in L5, E5. assert (L4 : length (blit ob3 (24 + size) tag) = length (outbuf tls)) by (rewrite length_blit; lia).
  rewrite store_ok by lia. cbn [rbind]. rewrite Ltag. change (8 + 16)%nat with 24%nat. change (11 + 1)%nat with 12%nat.
  rewrite (header_bytes type) by (assumption || lia). cbn [tl app].
  rewrite store_ok by (rewrite Lh; lia). cbn [rbind]. rewrite load_ok by lia. cbn [rbind]. eexists.
  split; [f_equal; f_equal|repeat split; cbn [write_seq64_be set_outbuf set_write_seq outbuf]; auto using next_seq_be].
  rewrite E5. unfold rfc5288_record, rfc_record, gcm_ae. fold nonce. rewrite Lt. fold ct tag.
  rewrite !length_app, Lct, Ltag, length_be_bytes. replace (8 + (size + 16))%nat with (size + 24)%nat by lia.
  unfold u8. rewrite wrap_small by exact Htype. reflexivity.
Qed.

(** ** CBC *)

(** The hash of the MAC. *)
Definition mac_hash (p : tls_params) : block_fn :=
  if TLS_SHA1 bld && (MAC_size p =? SHA1_OUTSIZE) then sha1_process_block64 else sha256_process_block64.

Definition rfc_mac (p : tls_params) (key text : list Z) : list Z := rfc_hmac (digest (mac_hash p)) key text.

Definition mac_size_ok (p : tls_params) : Prop :=
  TLS_SHA1 bld = true -> MAC_size p = SHA1_OUTSIZE \/ MAC_size p = SHA256_OUTSIZE.

Lemma rfc_mac_ok p key text :
  mac_size_ok p -> length (rfc_mac p key text) = Z.to_nat (TLS_MAC_SIZE bld p) /\ bytes (rfc_mac p key text)
  /\ (length (rfc_mac p key text) <= 32)%nat.
Proof.
  intros Hp. unfold rfc_mac, rfc_hmac, mac_hash, TLS_MAC_SIZE. rewrite length_digest.
  split; [|split; [apply bytes_digest|]].
  - unfold mac_size_ok in Hp. destruct (TLS_SHA1 bld); cbn [andb]; [|reflexivity].
    destruct (Hp eq_refl) as [-> | ->]; reflexivity.
  - destruct (_ && _); cbn; lia.
Qed.

Lemma hmac_blocks_spec p key va :
  arrays_ok (ipad0 bld) (opad0 bld) (hmac_ctx0 bld) -> bytes key -> Forall bytes va ->
  hmac_blocks bld p key va = Ok (rfc_mac p key (concat va)).
Proof.
  intros (Hi & Ho & Oi & Oo) Hk Hv. destruct bld_ok as (_ & Hs & _). unfold hmac_blocks, rfc_mac, mac_hash.
  destruct (TLS_SHA1 bld && (MAC_size p =? SHA1_OUTSIZE)).
  - destruct (hmac_blocks_rfc (SH := sha1_stream_hash Hs) _ _ (hmac_ctx0 bld) key va Hi Ho (conj Oi Oo) Hk Hv) as (c & E).
    destruct (hmac_begin _ _ _ _ _ _ _); cbn [bind] in *; [|discriminate].
    destruct (hmac_hash_v _ _ _); cbn [bind] in *; [|discriminate]. rewrite E. reflexivity.
  - destruct (hmac_blocks_rfc (SH := sha256_stream_hash Hs) _ _ (hmac_ctx0 bld) key va Hi Ho (conj Oi Oo) Hk Hv) as (c & E).
    destruct (hmac_begin _ _ _ _ _ _ _); cbn [bind] in *; [|discriminate].
    destruct (hmac_hash_v _ _ _); cbn [bind] in *; [|discriminate]. rewrite E. reflexivity.
Qed.

Lemma land_16_mask n : Z.land (Z.of_nat n) 15 = Z.of_nat (n mod 16).
Proof. change 15 with (Z.ones 4). rewrite Z.land_ones, Nat2Z.inj_mod by lia. reflexivity. Qed.

Lemma padding_value n : u8 (Z.land (Z.lnot (Z.of_nat n)) 15) = Z.of_nat (16 - n mod 16) - 1.
Proof.
  change 15 with (Z.ones 4). rewrite Z.land_ones by lia. change (2 ^ 4) with 16.
  pose proof (Nat.mod_upper_bound n 16 ltac:(lia)) as Hm. pose proof (Nat.div_mod_eq n 16) as Hd.
  replace (Z.lnot (Z.of_nat n) mod 16) with (Z.of_nat (16 - n mod 16) - 1).
  - unfold u8. apply wrap_small. red. lia.
  - apply Z.mod_unique with (- Z.of_nat (n / 16) - 1); [lia|]. unfold Z.lnot. lia.
Qed.

Lemma mod_succ_nz n : (n mod 16 <> 15 -> S n mod 16 = S (n mod 16))%nat /\ (n mod 16 = 15 -> S n mod 16 = 0)%nat.
Proof.
  pose proof (div_mod_succ n 16 ltac:(lia)) as H. destruct (Nat.eqb_spec (n mod 16 + 1) 16); lia.
Qed.

Lemma pad_loop_spec k fuel ob v size :
  k = (16 - size mod 16)%nat -> (k <= fuel)%nat -> (OUTBUF_PFX + size + k <= length ob)%nat ->
  pad_loop fuel ob v size = Ok (blit ob (OUTBUF_PFX + size) (repeat v k), (size + k)%nat).
Proof.
  revert fuel ob size; induction k as [|k IH]; intros fuel ob size Hk Hf Hl;
    pose proof (Nat.mod_upper_bound size 16 ltac:(lia)) as Hm; [lia|].
  destruct fuel as [|fuel]; [lia|]. cbn [pad_loop]. rewrite store_ok by (cbn [length]; lia). cbn [rbind].
  rewrite land_16_mask, Nat.add_1_r. destruct (mod_succ_nz size) as [H1 H2].
  destruct (Z.eqb_spec (Z.of_nat (S size mod 16)) 0) as [E|E].
  - replace k with 0%nat by lia. rewrite Nat.add_1_r. reflexivity.
  - assert (Hb : length (blit ob (OUTBUF_PFX + size) [v]) = length ob) by (apply length_blit; cbn [length]; lia).
    rewrite IH by lia. f_equal. f_equal; [|lia].
    replace (OUTBUF_PFX + S size)%nat with (OUTBUF_PFX + size + length [v])%nat by (cbn [length]; lia).
    apply (blit_app ob [v] (repeat v k)). rewrite repeat_length. cbn [length]. lia.
Qed.

Lemma cbc_encrypt_spec n aes0 key iv text :
  AES.ctx_array aes0 -> AES.key_ok key -> AES.block iv -> bytes text -> length text = (16 * n)%nat ->
  AES.cbc_encrypt_loop n (AES.aes_setkey aes0 key) iv text = Some (cbc n (AES.f_cipher key) iv text).
Proof.
  intros Ha Hk. revert iv text; induction n as [|n IH]; intros iv text Hiv Hb Hl.
  - destruct text; [reflexivity|discriminate].
  - cbn [AES.cbc_encrypt_loop cbc]. destruct (Nat.eqb_spec (length text) 0); [lia|].
    set (s := xor_bytes (firstn 16 text) iv).
    assert (Hs : bytes s /\ length s = 16%nat).
    { split; [apply bytes_xor; [apply bytes_firstn, Hb|apply Hiv]|].
      unfold s. rewrite length_xor; rewrite ?length_firstn, (proj1 Hiv); lia. }
    destruct (cipher_block aes0 key s Ha Hk (proj1 Hs) (proj2 Hs)) as [E Hbk].
    unfold AES.aes_encrypt_one_block in E. rewrite firstn_all2 in E by (rewrite (proj2 Hs); lia).
    rewrite E, IH; [reflexivity|exact Hbk|apply bytes_skipn, Hb|rewrite length_skipn; lia].
Qed.

Lemma length_cbc n E iv text :
  (forall s, bytes s -> length s = 16%nat -> AES.block (E s)) -> AES.block iv -> bytes text -> length text = (16 * n)%nat ->
  length (cbc n E iv text) = (16 * n)%nat /\ bytes (cbc n E iv text).
Proof.
  intros HE. revert iv text; induction n as [|n IH]; intros iv text Hi Hb Hl; cbn [cbc]; [split; [reflexivity|constructor]|].
  set (c := E _). assert (Hc : AES.block c).
  { apply HE; [apply bytes_xor; [apply bytes_firstn, Hb|apply Hi]|].
    rewrite length_xor; rewrite ?length_firstn, (proj1 Hi); lia. }
  destruct (IH c (skipn 16 text) Hc (bytes_skipn 16 _ Hb)) as [Lr Br]; [rewrite length_skipn; lia|].
  split; [rewrite length_app, Lr, (proj1 Hc); lia|apply bytes_app; [apply Hc|exact Br]].
Qed.

(** The content and its MAC in the buffer. *)
Lemma sign_record_spec tls key seq size type :
  writer_ok tls key seq size -> in_u 8 type -> mac_size_ok (params tls) ->
  arrays_ok (ipad0 bld) (opad0 bld) (hmac_ctx0 bld) ->
  (Z.to_nat (TLS_MAC_SIZE bld (params tls)) <= length (our_write_MAC_key (params tls)))%nat ->
  bytes (our_write_MAC_key (params tls)) ->
  let mkey := firstn (Z.to_nat (TLS_MAC_SIZE bld (params tls))) (our_write_MAC_key (params tls)) in
  let text := content tls size in
  let signed := text ++ rfc_mac (params tls) mkey (rfc_header seq type size ++ text) in
  exists ob, sign_record bld tls 3 size type = Ok (ob, length signed)
    /\ length ob = length (outbuf tls) /\ bytes signed /\ (length signed <= size + 32)%nat
    /\ slice 24 (length signed) ob = signed.
Proof.
  intros (_ & _ & Eseq & _ & Bo & Lo & Hsize) Htype Hmac Harr Lk Bk mkey text signed.
  unfold OUTBUF_PFX, OUTBUF_SFX, TLS_MAX_MAC_SIZE, TLS_MAX_CRYPTBLOCK_SIZE, AES_BLOCK_SIZE in Lo.
  change TLS_MAX_OUTBUF with 16384 in Hsize.
  assert (Et : slice 24 size (outbuf tls) = text) by reflexivity.
  assert (Lt : length text = size) by (rewrite <- Et, length_slice; lia).
  assert (Bt : bytes text) by apply bytes_slice, Bo.
  unfold sign_record. change OUTBUF_PFX with 24%nat. unfold RECHDR_LEN.
  set (hdr := record_hdr type size). assert (Lh : length hdr = 5%nat) by reflexivity.
  assert (Eh : hdr = [type; 3; 3] ++ be_bytes 2 (Z.of_nat size)) by (apply header_bytes; (assumption || lia)).
  assert (Bh : bytes hdr).
  { rewrite Eh. apply bytes_app; [|apply bytes_be_bytes].
    apply (bytes_app [type] [3; 3]); [apply bytes_one, Htype|apply is_bytes_ok; reflexivity]. }
  rewrite store_ok by lia. cbn [rbind]. set (ob1 := blit (outbuf tls) 3 hdr).
  assert (L1 : length ob1 = length (outbuf tls)) by (apply length_blit; lia).
  assert (E1 : slice 24 size ob1 = text) by (rewrite <- Et; apply slice_blit_after; lia).
  rewrite !load_ok by lia. cbn [rbind]. rewrite E1.
  replace (slice 3 5 ob1) with hdr by (symmetry; apply slice_blit_same; lia).
  change (slice 0 _ (our_write_MAC_key (params tls))) with mkey.
  rewrite hmac_blocks_spec; [|exact Harr|apply bytes_firstn, Bk|repeat (constructor; auto using bytes_le_bytes)].
  cbn [rbind concat]. rewrite app_nil_r, Eseq, le_bytes_bswap_64.
  replace (be_bytes 8 seq ++ hdr ++ text) with (rfc_header seq type size ++ text)
    by (unfold rfc_header; rewrite Eh, <- app_assoc; reflexivity).
  destruct (rfc_mac_ok (params tls) mkey (rfc_header seq type size ++ text) Hmac) as (Lm & Bm & Lm32).
  assert (Ls : length signed = (size + Z.to_nat (TLS_MAC_SIZE bld (params tls)))%nat) by (unfold signed; rewrite length_app, Lt, Lm; reflexivity).
  rewrite store_ok by lia. cbn [rbind]. eexists. split; [rewrite Ls; reflexivity|].
  split; [rewrite length_blit; lia|]. split; [apply bytes_app; assumption|]. split; [lia|].
  rewrite Ls, <- slice_app. apply (f_equal2 (@app Z)); [rewrite slice_blit_before by lia; exact E1|].
  rewrite <- Lm. apply slice_blit_same; lia.
Qed.

Lemma rfc_padding_ok n :
  length (rfc_padding n) = (16 - n mod 16)%nat /\ bytes (rfc_padding n) /\ exists k, (n + length (rfc_padding n) = 16 * k)%nat.
Proof.
  pose proof (Nat.mod_upper_bound n 16 ltac:(lia)). pose proof (Nat.div_mod_eq n 16).
  assert (Lp : length (rfc_padding n) = (16 - n mod 16)%nat) by apply repeat_length.
  split; [exact Lp|]. split; [|exists (n / 16 + 1)%nat; lia].
  apply Forall_forall. intros x Hx. apply repeat_spec in Hx as ->. red. lia.
Qed.

Lemma encrypt_record_spec iv p aes0 key ob signed :
  AES.ctx_array aes0 -> AES.key_ok key -> aes_encrypt p = AES.aes_setkey aes0 key -> AES.block iv -> bytes signed ->
  (24 + length signed + 16 <= length ob)%nat -> slice 24 (length signed) ob = signed ->
  let plain := signed ++ rfc_padding (length signed) in
  let ct := cbc (length plain / 16) (AES.f_cipher key) iv plain in
  exists ob', encrypt_record iv p ob (length signed) = Ok (ob', length (iv ++ ct))
    /\ length ob' = length ob /\ slice 8 (length (iv ++ ct)) ob' = iv ++ ct /\ (length ct <= length signed + 16)%nat.
Proof.
  intros Ha Hk Eaes [Li Bi] Bs Lo Es plain ct. set (n := length signed) in *.
  destruct (rfc_padding_ok n) as (Lp & Bp & k & Hk16). pose proof (Nat.mod_upper_bound n 16 ltac:(lia)).
  assert (Lpl : length plain = (n + length (rfc_padding n))%nat) by (unfold plain; rewrite length_app; reflexivity).
  assert (Bpl : bytes plain) by (apply bytes_app; assumption).
  assert (Hdiv : (16 * k / 16)%nat = k) by (rewrite Nat.mul_comm, Nat.div_mul; lia).
  destruct (length_cbc k (AES.f_cipher key) iv plain) as [Lc _];
    [intros s Hs Ls; apply (cipher_block aes0); assumption|split; assumption|exact Bpl|lia|].
  assert (Ect : ct = cbc k (AES.f_cipher key) iv plain) by (unfold ct; rewrite Lpl, Hk16, Hdiv; reflexivity).
  rewrite <- Ect in Lc. assert (Lic : length (iv ++ ct) = (16 + 16 * k)%nat) by (rewrite length_app; lia).
  unfold encrypt_record. change OUTBUF_PFX with 24%nat. unfold AES_BLOCK_SIZE. cbn [Nat.sub].
  rewrite store_ok by lia. cbn [rbind]. set (ob1 := blit ob 8 iv).
  assert (L1 : length ob1 = length ob) by (apply length_blit; lia).
  rewrite padding_value, (pad_loop_spec (16 - n mod 16)) by (change OUTBUF_PFX with 24%nat; lia). cbn [rbind].
  change (repeat (Z.of_nat (16 - n mod 16) - 1) (16 - n mod 16)) with (rfc_padding n). rewrite <- Lp.
  change OUTBUF_PFX with 24%nat. set (ob2 := blit ob1 (24 + n) (rfc_padding n)).
  assert (L2 : length ob2 = length ob) by (unfold ob2; rewrite length_blit; lia).
  rewrite !load_ok by lia. cbn [rbind].
  assert (Eiv : slice 8 16 ob2 = iv) by (unfold ob2; rewrite slice_blit_before by lia; apply slice_blit_same; lia).
  assert (Epl : slice 24 (n + length (rfc_padding n)) ob2 = plain).
  { rewrite <- slice_app. unfold plain. apply (f_equal2 (@app Z)); [|apply slice_blit_same; lia].
    unfold ob2. rewrite slice_blit_before by lia. unfold ob1. rewrite slice_blit_after by lia. exact Es. }
  rewrite Eiv, Epl. unfold AES.aes_cbc_encrypt. rewrite Lpl, Hk16, Hdiv, Eaes, cbc_encrypt_spec, <- Ect by (auto; (split; assumption) || lia).
  cbn [fuelled rbind]. rewrite store_ok by lia. cbn [rbind]. eexists. split; [rewrite Lic, (Nat.add_comm 16); reflexivity|].
  split; [rewrite length_blit; lia|]. split; [|lia].
  rewrite Lic, <- slice_app. f_equal; [rewrite slice_blit_before by lia; exact Eiv|apply slice_blit_same; lia].
Qed.

Lemma cbc_write iv tls key seq size type :
  writer_ok tls key seq size -> in_u 8 type -> AES.block iv -> mac_size_ok (params tls) ->
  arrays_ok (ipad0 bld) (opad0 bld) (hmac_ctx0 bld) ->
  let mkey := firstn (Z.to_nat (TLS_MAC_SIZE bld (params tls))) (our_write_MAC_key (params tls)) in
  (Z.to_nat (TLS_MAC_SIZE bld (params tls)) <= length (our_write_MAC_key (params tls)))%nat ->
  bytes (our_write_MAC_key (params tls)) ->
  exists tls',
    xwrite_encrypted_and_hmac_signed bld iv tls size type
    = Ok (tls', rfc5246_record key (rfc_mac (params tls) mkey) iv seq type (content tls size))
    /\ written tls tls' seq.
Proof.
  intros Hw Htype Hiv Hmac Harr mkey Lk Bk.
  destruct (sign_record_spec tls key seq size type Hw Htype Hmac Harr Lk Bk) as (ob & E1 & L1 & B1 & Hle & S1).
  destruct Hw as ((aes0 & Ha & Eaes) & Hk & Eseq & Hseq & Bo & Lo & Hsize).
  unfold OUTBUF_PFX, OUTBUF_SFX, TLS_MAX_MAC_SIZE, TLS_MAX_CRYPTBLOCK_SIZE, AES_BLOCK_SIZE in Lo.
  change TLS_MAX_OUTBUF with 16384 in Hsize.
  assert (Lt : length (content tls size) = size).
  { unfold content. change OUTBUF_PFX with 24%nat. rewrite length_slice. lia. }
  fold mkey in E1, B1, Hle, S1. set (signed := content tls size ++ _) in *.
  destruct (encrypt_record_spec iv (params tls) aes0 key ob signed) as (ob' & E2 & L2 & S2 & Hct); auto; try lia.
  set (ct := cbc _ _ _ _) in *. unfold xwrite_encrypted_and_hmac_signed. cbn [ALLOW_RSA_NULL_SHA256 andb].
  change (OUTBUF_PFX - RECHDR_LEN - AES_BLOCK_SIZE)%nat with 3%nat. rewrite E1. cbn [rbind].
  rewrite E2. cbn [rbind]. set (n := length (iv ++ ct)) in *.
  assert (Hn : (n <= size + 64)%nat) by (unfold n; rewrite length_app, (proj1 Hiv); lia).
  assert (Lh : length (record_hdr type n) = 5%nat) by reflexivity. unfold RECHDR_LEN.
  rewrite store_ok by lia. cbn [rbind].
  assert (L3 : length (blit ob' 3 (record_hdr type n)) = length ob') by (apply length_blit; lia).
  rewrite load_ok by lia. cbn [rbind]. eexists. split; [f_equal; f_equal|].
  - rewrite <- slice_app, slice_blit_same, slice_blit_after by lia. change (3 + 5)%nat with 8%nat. rewrite S2.
    rewrite header_bytes by (assumption || lia). unfold rfc5246_record, rfc_record. rewrite Lt. fold signed. fold ct n.
    rewrite <- app_assoc. reflexivity.
  - repeat split; cbn [write_seq64_be set_outbuf set_write_seq outbuf]; [rewrite Eseq; apply next_seq_be, Hseq|lia].
Qed.

(** ** Both ciphers *)

Definition is_gcm (p : tls_params) : bool := negb (Z.land (flags p) ENCRYPTION_AESGCM =? 0).

(** The keys of the cipher in use. *)
Definition write_keys_ok (p : tls_params) : Prop :=
  if is_gcm p then
    (4 <= length (our_write_IV p))%nat /\ bytes (our_write_IV p)
    /\ H p = AES.aes_encrypt_one_block (aes_encrypt p) (repeat 0 16)
  else
    mac_size_ok p /\ (Z.to_nat (TLS_MAC_SIZE bld p) <= length (our_write_MAC_key p))%nat /\ bytes (our_write_MAC_key p).

Definition rfc_output (p : tls_params) (key iv : list Z) (seq type : Z) (text : list Z) : list Z :=
  if is_gcm p then rfc5288_record key (firstn 4 (our_write_IV p)) seq type text
  else rfc5246_record key (rfc_mac p (firstn (Z.to_nat (TLS_MAC_SIZE bld p)) (our_write_MAC_key p))) iv seq type text.

Lemma write_rfc iv tls key seq size type :
  arrays_ok (ipad0 bld) (opad0 bld) (hmac_ctx0 bld) ->
  writer_ok tls key seq size -> write_keys_ok (params tls) -> in_u 8 type -> AES.block iv ->
  exists tls',
    xwrite_encrypted bld iv tls size type = Ok (tls', rfc_output (params tls) key iv seq type (content tls size))
    /\ written tls tls' seq.
Proof.
  intros Harr Hw Hk Ht Hiv. unfold xwrite_encrypted, rfc_output, write_keys_ok, is_gcm in *.
  destruct (Z.land (flags (params tls)) ENCRYPTION_AESGCM =? 0); cbn [negb] in *.
  - destruct Hk as (Hm & Hl & Hb). exact (cbc_write iv tls key seq size type Hw Ht Hiv Hm Harr Hl Hb).
  - destruct Hk as (Hl & Hb & HH). exact (gcm_write tls key seq size type Hw Ht Hl Hb HH).
Qed.

End Write.

(** C18. [xwrite_encrypted], with the keys [initialize_aes_keys] set, writes
    the record RFC 5246 (AES-CBC with HMAC-SHA1 or HMAC-SHA256) or RFC 5288
    (AES-GCM) gives for the content of the output buffer: AES is that of
    FIPS 197, GCM that of NIST SP 800-38D, HMAC that of RFC 2104. It writes
    inside the buffer and increments the sequence number. *)
Theorem tls_write_rfc bld iv tls key seq size type :
  build_ok bld -> arrays_ok (ipad0 bld) (opad0 bld) (hmac_ctx0 bld) ->
  writer_ok tls key seq size -> write_keys_ok bld (params tls) -> in_u 8 type -> AES.block iv ->
  exists tls',
    xwrite_encrypted bld iv tls size type = Ok (tls', rfc_output bld (params tls) key iv seq type (content tls size))
    /\ written tls tls' seq.
Proof. intros Hb Ha. apply (write_rfc bld Hb iv tls key seq size type Ha). Qed.

(** A writer of AES-GCM records with 21 bytes to write. *)
Definition key0 : list Z := map Z.of_nat (seq 0 16).
Definition gcm_params : tls_params :=
  let aes := AES.aes_setkey aes_zero key0 in
  {| flags := ENCRYPTION_AESGCM; cipher_id := 0x9C; MAC_size := 0; key_size := 16; IV_size := 4;
     expecting_first_packet := false; min_encrypted_len_on_read := 24; our_write_MAC_key := []; our_write_key := key0;
     peer_write_key := key0; our_write_IV := [1; 2; 3; 4]; peer_write_IV := [1; 2; 3; 4]; aes_encrypt := aes;
     aes_decrypt := aes; H := AES.aes_encrypt_one_block aes (repeat 0 16) |}.
Definition gcm_writer : tls_state_t :=
  mk_tls gcm_params (repeat 65 100) (bswap_64 7) [] 0 0 None.
Definition iv0 : list Z := repeat 9 16.

#[local] Opaque AES.aes_setkey AES.aes_encrypt_one_block.

Lemma aes_zero_array : AES.ctx_array aes_zero.
Proof.
  split; [reflexivity|]. apply Forall_forall. intros x Hx. apply repeat_spec in Hx as ->. red. lia.
Qed.

Lemma arrays0_ok : arrays_ok (ipad0 build0) (opad0 build0) (hmac_ctx0 build0).
Proof. apply arrays0. Qed.

Lemma gcm_writer_ok : writer_ok gcm_writer key0 7 21.
Proof.
  split; [exists aes_zero; split; [exact aes_zero_array|reflexivity]|].
  split; [split; [left; reflexivity|apply is_bytes_ok; reflexivity]|]. split; [reflexivity|]. split; [lia|].
  split; [apply is_bytes_ok; reflexivity|]. split; [vm_compute; lia|discriminate].
Qed.

Lemma gcm_keys_ok : write_keys_ok build0 gcm_params.
Proof. split; [cbn; lia|]. split; [apply is_bytes_ok; reflexivity|reflexivity]. Qed.

Lemma iv0_block : AES.block iv0.
Proof. split; [reflexivity|apply is_bytes_ok; reflexivity]. Qed.

Lemma tls_write_rfc_witness :
  exists tls',
    xwrite_encrypted build0 iv0 gcm_writer 21 RECORD_TYPE_APPLICATION_DATA
    = Ok (tls', rfc_output build0 gcm_params key0 iv0 7 RECORD_TYPE_APPLICATION_DATA (repeat 65 21))
    /\ written gcm_writer tls' 7.
Proof.
  apply (tls_write_rfc build0 iv0 gcm_writer key0 7 21 RECORD_TYPE_APPLICATION_DATA build0_ok arrays0_ok gcm_writer_ok
           gcm_keys_ok); [split; [discriminate|reflexivity]|exact iv0_block].
Defined.

End TLSWrite.
