(* ===== verification/TlsLink.v ===== *)
(** * What is written is read

    A record written by [xwrite_encrypted] of [networking/tls.c] is read by
    [tls_xread_record] of the peer, whatever the pieces in which the connection
    delivers it, and what follows it is left to be read. *)

From Stdlib Require Import ZArith List Lia Bool.
From S2P Require Import Prelude Words Bitops HashBuf HashCtx Hmac Aes Gcm Mem TlsRecord TlsRead TlsWrite.
Import ListNotations HashCtx Hmac.
Local Open Scope Z_scope.
Local Open Scope res_scope.

Module TLSLink.
Import TLS TLSRead TLSWrite.

(** The bytes the connection delivers; every read that is not interrupted
    returns some. *)
Fixpoint stream (evs : list read_event) : list Z :=
  match evs with [] => [] | Data l :: evs => l ++ stream evs | _ :: evs => stream evs end.
Definition delivers (evs : list read_event) : Prop :=
  Forall (fun e => match e with Data l => l <> [] /\ bytes l | Interrupted => True | Read_error => False end) evs.

(** What was not yet read of the connection, first what is in [inbuf]. *)
Definition pending (tls : tls_state_t) (evs : list read_event) : list Z :=
  slice (Z.to_nat (ofs_to_buffered tls)) (Z.to_nat (buffered_size tls)) (inbuf tls) ++ stream evs.

(** A header the reader accepts. *)
Definition good_record (r : list Z) : Prop :=
  exists type body, r = rfc_record type body /\ in_u 8 type /\ bytes body /\ Z.of_nat (length body) <= 16384 + 2048.

Section Link.
Variable bld : build.
Hypothesis bld_ok : build_ok bld.

Lemma safe_read_delivers rem evs :
  delivers evs -> stream evs <> [] -> (0 < rem)%nat ->
  exists x l evs', safe_read rem evs = (Some (x :: l), evs') /\ (length (x :: l) <= rem)%nat /\ bytes (x :: l)
    /\ delivers evs' /\ stream evs = (x :: l) ++ stream evs'.
Proof.
  intros Hd Hne Hr. induction evs as [|[l| |] evs IH]; [contradiction| |inversion Hd; auto|inversion Hd; contradiction].
  inversion Hd as [|? ? He Hd']; subst. destruct He as [Hl Hb]. cbn [safe_read].
  destruct (Nat.leb_spec (length l) rem) as [Hle|Hgt].
  - destruct l as [|x l]; [contradiction|]. exists x, l, evs. auto.
  - assert (Hf : length (firstn rem l) = rem) by (rewrite length_firstn; lia).
    destruct (firstn rem l) as [|x f] eqn:E; [cbn in Hf; lia|]. exists x, f, (Data (skipn rem l) :: evs).
    split; [reflexivity|]. split; [lia|]. split; [rewrite <- E; apply bytes_firstn, Hb|].
    split; [|cbn [stream]; rewrite app_assoc, <- E, firstn_skipn; reflexivity].
    constructor; [|exact Hd']. split; [|apply bytes_skipn, Hb]. intros Hs.
    apply (f_equal (@length Z)) in Hs. rewrite length_skipn in Hs. cbn in Hs. lia.
Qed.

(** The first five bytes of a record. *)
Lemma rfc_record_bytes type body :
  Z.of_nat (length body) < 65536 ->
  exists hi lo, rfc_record type body = type :: 3 :: 3 :: hi :: lo :: body /\ 256 * hi + lo = Z.of_nat (length body)
    /\ length (rfc_record type body) = (5 + length body)%nat.
Proof.
  intros Hl. unfold rfc_record, be_bytes. cbn [le_bytes rev app].
  eexists _, _. split; [reflexivity|]. split; [|reflexivity].
  rewrite (Z.mod_small (_ / 256)) by (split; [apply Z.div_pos; lia|apply Z.div_lt_upper_bound; lia]).
  symmetry. apply Z.div_mod. lia.
Qed.

Lemma check_header_good tls total target r rest :
  good_record r -> firstn (Z.to_nat total) (inbuf tls) = firstn (Z.to_nat total) (r ++ rest) ->
  0 <= total <= Z.of_nat (length (inbuf tls)) -> total <= Z.of_nat (length (r ++ rest)) ->
  target = MAX_INBUF \/ target = Z.of_nat (length r) -> (total < 5 -> target = MAX_INBUF) ->
  SSL_SERVER bld && expecting_first_packet (params tls) = false ->
  check_header bld tls total target = Ok (if total <? 5 then MAX_INBUF else Z.of_nat (length r)).
Proof.
  intros (type & body & -> & Ht & Hb & Hl) E Htot Hlen Htg H5 Hver.
  destruct (rfc_record_bytes type body ltac:(lia)) as (hi & lo & Er & Ehl & Lr).
  unfold check_header. change (Z.of_nat RECHDR_LEN) with 5.
  destruct (Z.leb_spec 5 total) as [H|H]; cbn [andb]; destruct (Z.ltb_spec total 5) as [H'|H']; try lia;
    [|rewrite H5 by exact H'; reflexivity].
  destruct (Z.eqb_spec target MAX_INBUF) as [Em|Em]; [|destruct Htg; [contradiction|subst; reflexivity]].
  assert (Hn : forall i, (i < 5)%nat -> nth i (inbuf tls) 0 = nth i (rfc_record type body) 0).
  { intros i Hi. apply (f_equal (fun l => nth i l 0)) in E. rewrite !nth_firstn in E.
    destruct (Nat.ltb_spec i (Z.to_nat total)); [|lia]. rewrite E. apply app_nth1. lia. }
  unfold record_len. rewrite !(load1_ok _ _ 0) by lia. cbn [rbind Nat.add]. rewrite !Hn, Er by lia. cbn [nth].
  rewrite Ehl, MAX_INBUF_val. destruct (Z.ltb_spec 18437 (5 + Z.of_nat (length body))); [lia|].
  unfold is_minor_version_valid. rewrite Hver. cbn [orb negb Z.eqb TLS_MAJ TLS_MIN Pos.eqb]. rewrite <- Er, Lr. f_equal. lia.
Qed.

Lemma grow_inbuf_prefix tls total :
  0 <= total <= Z.of_nat (length (inbuf tls)) -> Z.of_nat (length (inbuf tls)) <= MAX_INBUF ->
  firstn (Z.to_nat total) (inbuf (grow_inbuf bld tls total)) = firstn (Z.to_nat total) (inbuf tls).
Proof.
  intros Ht Hm. unfold grow_inbuf. destruct (_ =? 0); [|reflexivity]. cbn [inbuf set_inbuf]. unfold xrealloc.
  set (sz := if _ <? _ then _ else _).
  assert (Hsz : Z.of_nat (length (inbuf tls)) <= sz).
  { unfold sz. rewrite MAX_INBUF_val in *. change (18437 / 8) with 2304. destruct (_ <? _); lia. }
  rewrite (firstn_all2 (n := Z.to_nat sz)) by lia.
  rewrite firstn_app. replace (Z.to_nat total - length (inbuf tls))%nat with 0%nat by lia. apply app_nil_r.
Qed.

(** The loop reads until the record is there. *)
Lemma read_loop_stream fuel tls0 tls evs total target r rest :
  good_record r -> SSL_SERVER bld && expecting_first_packet (params tls0) = false ->
  loop_ok tls total -> same_but_inbuf tls tls0 -> delivers evs ->
  firstn (Z.to_nat total) (inbuf tls) ++ stream evs = r ++ rest ->
  target = MAX_INBUF \/ target = Z.of_nat (length r) -> (total < 5 -> target = MAX_INBUF) ->
  MAX_INBUF < Z.of_nat fuel + total ->
  exists tls' evs' total',
    read_loop bld fuel tls evs total target = Ok (tls', evs', Whole total' (Z.of_nat (length r)))
    /\ loop_ok tls' total' /\ same_but_inbuf tls' tls0 /\ delivers evs'
    /\ firstn (Z.to_nat total') (inbuf tls') ++ stream evs' = r ++ rest /\ Z.of_nat (length r) <= total'.
Proof.
  intros Hr Hver. assert (Lr : 5 <= Z.of_nat (length r) <= MAX_INBUF).
  { destruct Hr as (type & body & -> & _ & _ & Hl). destruct (rfc_record_bytes type body ltac:(lia)) as (_ & _ & _ & _ & ->).
    rewrite MAX_INBUF_val. lia. }
  revert tls evs total target; induction fuel as [|fuel IH]; intros tls evs total target Hl Hs Hd E Htg H5 Hf;
    destruct Hl as (Hm & Hb & Ht); [lia|]; cbn [read_loop].
  assert (Lf : length (firstn (Z.to_nat total) (inbuf tls)) = Z.to_nat total) by (rewrite length_firstn; lia).
  assert (Ef : firstn (Z.to_nat total) (inbuf tls) = firstn (Z.to_nat total) (r ++ rest)).
  { rewrite <- E, firstn_app, Lf, Nat.sub_diag, firstn_O, app_nil_r, firstn_firstn, Nat.min_id. reflexivity. }
  assert (Llen : total <= Z.of_nat (length (r ++ rest))) by (rewrite <- E, length_app, Lf; lia).
  rewrite (check_header_good tls total target r rest) by (auto; rewrite (proj1 Hs); exact Hver). cbn [rbind].
  set (target' := if total <? 5 then MAX_INBUF else Z.of_nat (length r)).
  assert (Htg' : target' = MAX_INBUF \/ target' = Z.of_nat (length r)) by (unfold target'; destruct (_ <? _); auto).
  destruct (Z.leb_spec 0 (total - target')) as [Hdone|Hmore].
  - assert (Et : target' = Z.of_nat (length r)) by (unfold target' in *; destruct (Z.ltb_spec total 5); [lia|reflexivity]).
    rewrite Et. exists tls, evs, total. split; [reflexivity|]. split; [split; auto|]. repeat split; auto; try apply Hs. lia.
  - destruct (grow_inbuf_ok bld bld_ok tls total) as (Hl' & Hs' & Hlt); [split; auto|lia|].
    assert (Eg : firstn (Z.to_nat total) (inbuf (grow_inbuf bld tls total)) = firstn (Z.to_nat total) (inbuf tls)).
    { apply grow_inbuf_prefix; (assumption || lia). }
    set (tls1 := grow_inbuf bld tls total) in *. clearbody tls1. destruct Hl' as (Hm1 & Hb1 & Ht1).
    assert (Hne : stream evs <> []).
    { intros Es. rewrite Es, app_nil_r in E. apply (f_equal (@length Z)) in E.
      rewrite Lf, length_app in E. unfold target' in Hmore. destruct (Z.ltb_spec total 5); lia. }
    destruct (safe_read_delivers (Z.to_nat (Z.of_nat (length (inbuf tls1)) - total)) evs Hd Hne ltac:(lia))
      as (x & l & evs1 & -> & Hlen & Hbx & Hd1 & Es).
    rewrite store_ok by lia. cbn [rbind].
    assert (Lb : length (blit (inbuf tls1) (Z.to_nat total) (x :: l)) = length (inbuf tls1)) by (apply length_blit; lia).
    apply IH; auto.
    + split; cbn [inbuf set_inbuf]; rewrite Lb; [exact Hm1|]. split; [apply bytes_blit; assumption|lia].
    + unfold same_but_inbuf in *. cbn. intuition congruence.
    + cbn [inbuf set_inbuf]. rewrite <- E, Es, app_assoc. f_equal. rewrite <- Eg.
      replace (Z.to_nat (total + Z.of_nat (length (x :: l)))) with (Z.to_nat total + length (x :: l))%nat by lia.
      apply firstn_blit. lia.
    + intros Hlt5. cbn [length] in Hlt5. unfold target'. destruct (Z.ltb_spec total 5); [reflexivity|lia].
    + cbn [length]. lia.
Qed.

(** ** Decryption *)

Lemma gcm_decrypt_loop_spec fuel aes nonce ib cnt buf remaining :
  stream_ok (AES.aes_encrypt_one_block aes) nonce -> bytes ib ->
  (buf + 8 + remaining <= length ib)%nat -> (remaining <= 16 * fuel)%nat ->
  gcm_decrypt_loop bld fuel aes nonce ib cnt buf remaining
  = Ok (blit ib buf (gctr (blocks_of remaining) (AES.aes_encrypt_one_block aes) nonce (cnt + 1) (slice (buf + 8) remaining ib))).
Proof.
  intros HE. revert ib cnt buf remaining; induction fuel as [|fuel IH]; intros ib cnt buf remaining Hb Hl Hf;
    cbn [gcm_decrypt_loop]; (destruct (Nat.eqb_spec remaining 0) as [->|Hr0];
      [cbn; unfold blit; cbn [app length]; rewrite Nat.add_0_r, firstn_skipn; reflexivity|]); [lia|].
  set (n := if (AES_BLOCK_SIZE <? remaining)%nat then AES_BLOCK_SIZE else remaining).
  assert (Hn : n = Nat.min 16 remaining) by (unfold n, AES_BLOCK_SIZE; destruct (Nat.ltb_spec 16 remaining); lia).
  clearbody n. unfold with_counter. rewrite be_bytes_swap, (be_bytes_eqm 4 _ (cnt + 1)) by apply u32_mod.
  destruct (HE (cnt + 1)) as [Lc Bc]. set (scratch := AES.aes_encrypt_one_block _ _) in *.
  rewrite load_ok by lia. cbn [rbind].
  set (text := slice (buf + 8) n ib). assert (Lt : length text = n) by (unfold text; rewrite length_slice; lia).
  assert (Bt : bytes text) by apply bytes_slice, Hb.
  destruct bld_ok as (Hsz & _ & _). rewrite xorbuf_3_spec by (auto; destruct Hsz; lia).
  rewrite (firstn_all2 text) by lia. rewrite xor_comm, <- Lt, <- xor_cut.
  assert (Lx : length (xor_bytes text scratch) = n)
    by (unfold xor_bytes; rewrite length_map, length_combine, Lt, Lc; lia).
  assert (Bx : bytes (xor_bytes text scratch)) by (apply bytes_xor; assumption).
  rewrite store_ok by lia. cbn [rbind].
  assert (Lb : length (blit ib buf (xor_bytes text scratch)) = length ib) by (apply length_blit; lia).
  rewrite Lt, IH by (auto using bytes_blit; rewrite ?Lb; lia).
  rewrite slice_blit_after by lia. replace (buf + n + 8)%nat with (buf + 8 + n)%nat by lia.
  f_equal. apply (gctr_step aes nonce ib cnt buf (buf + 8) remaining n); auto; lia.
Qed.

(** The reader of the records of a writer with parameters [w] and the key
    [key]. *)
Definition reader_ok (w p : tls_params) (key : list Z) : Prop :=
  (exists aes0, AES.ctx_array aes0 /\ aes_decrypt p = AES.aes_setkey aes0 key)
  /\ AES.key_ok key /\ is_gcm p = is_gcm w /\ MAC_size p = MAC_size w
  /\ min_encrypted_len_on_read p = min_len_after_change bld p
  /\ (4 <= length (peer_write_IV p))%nat /\ bytes (peer_write_IV p) /\ firstn 4 (peer_write_IV p) = firstn 4 (our_write_IV w).

(** After decryption: the text, then what was there before. *)
Definition decrypts (tls tls' : tls_state_t) (n : nat) (text : list Z) : Prop :=
  same_shape tls' tls /\ slice 5 (length text) (inbuf tls') = text /\ nth 0 (inbuf tls') 0 = nth 0 (inbuf tls) 0
  /\ forall i m, (5 + n <= i)%nat -> slice i m (inbuf tls') = slice i m (inbuf tls).

Lemma decrypt_gcm tls w key seq type text :
  let p := params tls in
  reader_ok w p key -> is_gcm w = true -> bytes text -> Z.of_nat (length text) <= 16384 -> bytes (inbuf tls) ->
  let body := be_bytes 8 seq
              ++ gcm_ae (AES.f_cipher key) (firstn 4 (our_write_IV w) ++ be_bytes 8 seq) (rfc_header seq type (length text)) text in
  slice 5 (length body) (inbuf tls) = body -> (5 + length body <= length (inbuf tls))%nat ->
  length body = (length text + 24)%nat ->
  exists tls', decrypt_record bld tls (Z.of_nat (length body)) = Ok (tls', Z.of_nat (length text))
    /\ decrypts tls tls' (length body) text.
Proof.
  intros p ((aes0 & Ha & Eaes) & Hk & Eg & _ & Emin & LIV & BIV & EIV) Hg Bt Hlen Bib body Eb Lb Lbody.
  set (n := length text) in *. set (nonce := firstn 4 (our_write_IV w) ++ be_bytes 8 seq) in *.
  assert (Hflag : Z.land (flags p) ENCRYPTION_AESGCM <> 0).
  { unfold is_gcm in *. rewrite Hg in Eg. destruct (Z.eqb_spec (Z.land (flags p) ENCRYPTION_AESGCM) 0); [discriminate|assumption]. }
  unfold decrypt_record. fold p. rewrite Emin, min_len_gcm by exact Hflag. cbn [Z.eqb].
  destruct (Z.ltb_spec (Z.of_nat (length body)) 24); [lia|].
  destruct (Z.eqb_spec (Z.land (flags p) ENCRYPTION_AESGCM) 0); [contradiction|]. cbn [negb].
  unfold tls_aesgcm_decrypt. fold p. unfold RECHDR_LEN, AES_BLOCK_SIZE. rewrite !load_ok by lia. cbn [rbind].
  replace (Z.of_nat (length body) - (8 + Z.of_nat 16)) with (Z.of_nat n) by lia.
  unfold u32. rewrite wrap_small by (red; lia). rewrite Nat2Z.id.
  assert (E8 : slice 5 8 (inbuf tls) = be_bytes 8 seq).
  { apply (f_equal (firstn 8)) in Eb. unfold slice in *. rewrite firstn_firstn, Nat.min_l in Eb by lia.
    rewrite Eb. unfold body. rewrite firstn_app, length_be_bytes, Nat.sub_diag, firstn_O, app_nil_r.
    apply firstn_all2. rewrite length_be_bytes. lia. }
  change (slice 0 4 (peer_write_IV p)) with (firstn 4 (peer_write_IV p)). rewrite EIV, E8. fold nonce.
  assert (Bn : bytes nonce) by (unfold nonce; rewrite <- EIV; apply bytes_app; [apply bytes_firstn, BIV|apply bytes_be_bytes]).
  assert (Ln : length nonce = 12%nat) by (unfold nonce; rewrite <- EIV, length_app, length_firstn, length_be_bytes; lia).
  destruct (counter_stream aes0 key nonce Ha Hk Bn Ln) as (Ec & HE & HE'). rewrite Eaes.
  rewrite gcm_decrypt_loop_spec by (auto; try lia; pose proof (Nat.div_mod_eq n 16); pose proof (Nat.mod_upper_bound n 16); lia).
  set (ct := gctr (blocks_of n) (AES.f_cipher key) nonce 2 text).
  destruct (gctr_ok (blocks_of n) _ nonce 2 text HE' (blocks_of_enough n) Bt) as [Lct Bct]. fold ct n in Lct, Bct.
  assert (Ect : slice (5 + 8) n (inbuf tls) = ct).
  { apply (f_equal (fun l => firstn n (skipn 8 l))) in Eb. unfold slice in *.
    rewrite skipn_firstn_comm, firstn_firstn, Nat.min_l, skipn_skipn in Eb by lia. rewrite (Nat.add_comm 5 8), Eb.
    unfold body. rewrite skipn_app, skipn_all2, length_be_bytes, Nat.sub_diag, skipn_O by (rewrite length_be_bytes; lia).
    cbn [app]. unfold gcm_ae. fold n ct. rewrite firstn_app, Lct, Nat.sub_diag, firstn_O, app_nil_r. apply firstn_all2. lia. }
  rewrite Ect, (gctr_ext _ _ (AES.f_cipher key)) by exact Ec. change (1 + 1) with 2. unfold ct.
  rewrite gctr_involutive by (auto using blocks_of_enough). cbn [rbind]. eexists. split; [reflexivity|].
  assert (Lbl : length (blit (inbuf tls) 5 text) = length (inbuf tls)) by (apply length_blit; lia).
  split; [apply set_inbuf_shape; auto using bytes_blit|]. cbn [inbuf set_inbuf].
  split; [apply slice_blit_same; [reflexivity|lia]|]. split; [|intros i m Hi; apply slice_blit_after; lia].
  apply nth_blit_before; lia.
Qed.

(** CBC decryption of what [cbc] gives. *)
Lemma cbc_decrypts k aes0 key iv plain :
  AES.ctx_array aes0 -> AES.key_ok key -> AES.block iv -> bytes plain -> length plain = (16 * k)%nat ->
  AES.aes_cbc_decrypt (AES.aes_setkey aes0 key) iv (cbc k (AES.f_cipher key) iv plain) = Some plain
  /\ length (cbc k (AES.f_cipher key) iv plain) = (16 * k)%nat.
Proof.
  intros Ha Hk Hiv Bp Lp.
  destruct (AES.cbc_roundtrip_loop (AES.aes_setkey aes0 key) k iv plain) as (ct & E1 & Lc & E2); auto.
  { apply AES.aes_setkey_ok; assumption. }
  rewrite (cbc_encrypt_spec k aes0 key iv plain Ha Hk Hiv Bp Lp) in E1. injection E1 as <-.
  split; [|exact Lc]. unfold AES.aes_cbc_decrypt. rewrite Lc, Nat.mul_comm, Nat.div_mul by lia. exact E2.
Qed.

(** The last byte of the padding gives its length. *)
Lemma last_padding l n : nth (length (l ++ rfc_padding n) - 1) (l ++ rfc_padding n) 0 = Z.of_nat (length (rfc_padding n)) - 1.
Proof.
  destruct (rfc_padding_ok n) as (Lp & _ & _). pose proof (Nat.mod_upper_bound n 16 ltac:(lia)).
  rewrite length_app, app_nth2 by lia. rewrite Lp. unfold rfc_padding.
  apply (repeat_spec (16 - n mod 16)). apply nth_In. rewrite repeat_length. lia.
Qed.

Lemma decrypt_cbc tls w key iv mac text :
  let p := params tls in
  reader_ok w p key -> is_gcm w = false -> AES.block iv -> bytes text -> bytes mac ->
  Z.of_nat (length mac) = TLS_MAC_SIZE bld p -> length mac = 20%nat \/ length mac = 32%nat -> bytes (inbuf tls) ->
  let plain := (text ++ mac) ++ rfc_padding (length (text ++ mac)) in
  let body := iv ++ cbc (length plain / 16) (AES.f_cipher key) iv plain in
  slice 5 (length body) (inbuf tls) = body -> (5 + length body <= length (inbuf tls))%nat ->
  exists tls', decrypt_record bld tls (Z.of_nat (length body)) = Ok (tls', Z.of_nat (length text))
    /\ decrypts tls tls' (length body) text.
Proof.
  intros p ((aes0 & Ha & Eaes) & Hk & Eg & _ & Emin & _) Hg Hiv Bt Bm Em Hmac Bib plain body Eb Lb.
  destruct (rfc_padding_ok (length (text ++ mac))) as (Lp & Bp & k & Hk16).
  assert (Lpl : length plain = (16 * k)%nat) by (unfold plain; rewrite length_app; exact Hk16).
  assert (Bpl : bytes plain) by (apply bytes_app; [apply bytes_app; assumption|exact Bp]).
  assert (Hdiv : (length plain / 16)%nat = k) by (rewrite Lpl, Nat.mul_comm, Nat.div_mul; lia).
  destruct (cbc_decrypts k aes0 key iv plain Ha Hk Hiv Bpl Lpl) as [Edec Lct].
  unfold body in *. rewrite Hdiv in *. set (ct := cbc k (AES.f_cipher key) iv plain) in *. clear body.
  assert (Lbody : length (iv ++ ct) = (16 + 16 * k)%nat) by (rewrite length_app, (proj1 Hiv), Lct; reflexivity).
  assert (Hpl : length plain = (length text + length mac + length (rfc_padding (length (text ++ mac))))%nat)
    by (unfold plain; rewrite !length_app; reflexivity).
  pose proof (Nat.mod_upper_bound (length (text ++ mac)) 16 ltac:(lia)) as Hm16.
  assert (Hk2 : (2 <= k)%nat) by lia.
  assert (Hflag : Z.land (flags p) ENCRYPTION_AESGCM = 0).
  { unfold is_gcm in *. rewrite Hg in Eg. destruct (Z.eqb_spec (Z.land (flags p) ENCRYPTION_AESGCM) 0); [assumption|discriminate]. }
  unfold decrypt_record. fold p. rewrite Emin, min_len_cbc by (auto; lia). cbn [Z.eqb].
  destruct (Z.ltb_spec (Z.of_nat (length (iv ++ ct))) 48); [lia|]. rewrite Hflag. cbn [Z.eqb negb].
  destruct (Z.ltb_spec (TLS_MAC_SIZE bld p) 48); [|lia].
  rewrite land_16_mask, Lbody. replace ((16 + 16 * k) mod 16)%nat with 0%nat
    by (replace (16 + 16 * k)%nat with (0 + (1 + k) * 16)%nat by lia; symmetry; apply Nat.Div0.mod_add).
  cbn [Z.of_nat Z.eqb negb]. unfold RECHDR_LEN, AES_BLOCK_SIZE.
  replace (Z.to_nat (Z.of_nat (16 + 16 * k) - Z.of_nat 16)) with (16 * k)%nat by lia.
  rewrite !load_ok by lia. cbn [rbind].
  rewrite Lbody, <- slice_app in Eb. apply app_split in Eb as [Eiv Ect]; [|rewrite length_slice, (proj1 Hiv); lia].
  rewrite Eiv, Ect, Eaes, Edec. cbn [fuelled rbind]. rewrite store_ok by lia. cbn [rbind].
  assert (Lbl : length (blit (inbuf tls) 5 plain) = length (inbuf tls)) by (apply length_blit; lia).
  rewrite (load1_ok _ _ 0) by lia. cbn [rbind].
  replace (nth (5 + 16 * k - 1) (blit (inbuf tls) 5 plain) 0) with (Z.of_nat (length (rfc_padding (length (text ++ mac)))) - 1).
  - eexists. split; [f_equal; f_equal; lia|]. split; [apply set_inbuf_shape; auto using bytes_blit|]. cbn [inbuf set_inbuf].
    split; [|split; [apply nth_blit_before; lia|intros i m Hi; apply slice_blit_after; lia]].
    apply (slice_prefix _ text (mac ++ rfc_padding (length (text ++ mac)))). rewrite app_assoc.
    apply slice_blit_same; [reflexivity|fold plain; lia].
  - unfold plain. rewrite <- (last_padding (text ++ mac)). fold plain. rewrite Lpl.
    replace (5 + 16 * k - 1)%nat with (5 + (16 * k - 1))%nat by lia.
    rewrite <- (nth_slice _ _ (16 * k)) by lia. rewrite slice_blit_same by lia. reflexivity.
Qed.

(** ** The whole record *)

Lemma move_buffered_pending tls evs :
  inbuf_ok tls ->
  exists t, move_buffered tls = Ok t /\ loop_ok t (buffered_size tls) /\ same_shape t tls
    /\ firstn (Z.to_nat (buffered_size tls)) (inbuf t) ++ stream evs = pending tls evs.
Proof.
  intros (Hm & Hb & H0 & Hbuf). unfold move_buffered, pending.
  destruct (Z.eqb_spec (buffered_size tls) 0) as [E|E].
  - exists tls. split; [reflexivity|]. split; [split; [exact Hm|split; [exact Hb|lia]]|].
    split; [repeat split; exact Hb|]. rewrite E. reflexivity.
  - destruct Hbuf as [|[Ho Hs]]; [contradiction|]. rewrite load_ok by lia. cbn [rbind].
    set (kept := slice _ _ _). assert (Lk : length kept = Z.to_nat (buffered_size tls)) by (unfold kept; rewrite length_slice; lia).
    rewrite store_ok by lia. cbn [rbind].
    assert (Lb : length (blit (inbuf tls) 0 kept) = length (inbuf tls)) by (apply length_blit; lia).
    assert (Bb : bytes (blit (inbuf tls) 0 kept)) by (apply bytes_blit; [exact Hb|apply bytes_slice, Hb]).
    eexists. split; [reflexivity|]. split; [split; cbn [inbuf set_inbuf]; rewrite Lb; [exact Hm|split; [exact Bb|lia]]|].
    split; [apply set_inbuf_shape; assumption|]. cbn [inbuf set_inbuf]. rewrite <- Lk.
    pose proof (firstn_blit (inbuf tls) 0 kept ltac:(lia)) as E0. cbn [Nat.add] in E0. rewrite E0. reflexivity.
Qed.

Lemma gcm_body_ok key salt seq type text aes0 :
  AES.ctx_array aes0 -> AES.key_ok key -> bytes salt -> length salt = 4%nat -> bytes text -> in_u 8 type ->
  let body := be_bytes 8 seq ++ gcm_ae (AES.f_cipher key) (salt ++ be_bytes 8 seq) (rfc_header seq type (length text)) text in
  length body = (length text + 24)%nat /\ bytes body.
Proof.
  intros Ha Hk Bs Ls Bt Ht. set (nonce := salt ++ be_bytes 8 seq).
  assert (Bn : bytes nonce) by (apply bytes_app; [exact Bs|apply bytes_be_bytes]).
  assert (Ln : length nonce = 12%nat) by (unfold nonce; rewrite length_app, Ls, length_be_bytes; reflexivity).
  destruct (counter_stream aes0 key nonce Ha Hk Bn Ln) as (_ & _ & HE).
  destruct (gctr_ok _ _ nonce 2 text HE (blocks_of_enough _) Bt) as [Lct Bct]. destruct (HE 1) as [L1 B1].
  unfold gcm_ae. split.
  - rewrite !length_app, Lct, length_xor, length_be_bytes by (rewrite length_be_bytes; lia). lia.
  - apply bytes_app; [apply bytes_be_bytes|]. apply bytes_app; [exact Bct|]. apply bytes_xor; [apply bytes_be_bytes|exact B1].
Qed.

Lemma cbc_body_ok key iv signed aes0 :
  AES.ctx_array aes0 -> AES.key_ok key -> AES.block iv -> bytes signed ->
  let plain := signed ++ rfc_padding (length signed) in
  let body := iv ++ cbc (length plain / 16) (AES.f_cipher key) iv plain in
  (length body <= length signed + 32)%nat /\ bytes body.
Proof.
  intros Ha Hk Hiv Bs plain body. destruct (rfc_padding_ok (length signed)) as (Lp & Bp & k & Hk16).
  assert (Lpl : length plain = (16 * k)%nat) by (unfold plain; rewrite length_app; exact Hk16).
  assert (Hdiv : (length plain / 16)%nat = k) by (rewrite Lpl, Nat.mul_comm, Nat.div_mul; lia).
  destruct (length_cbc k (AES.f_cipher key) iv plain) as [Lc Bc]; auto.
  { intros s Hs Ls. apply (cipher_block aes0); assumption. } { apply bytes_app; assumption. }
  unfold body. rewrite Hdiv. split; [rewrite length_app, (proj1 Hiv), Lc; lia|apply bytes_app; [apply Hiv|exact Bc]].
Qed.

(** The record of a text, and the reader's buffer that holds it. *)
Lemma output_ok w p key iv seq type text :
  reader_ok w p key -> write_keys_ok bld w -> AES.block iv -> bytes text -> Z.of_nat (length text) <= 16384 -> in_u 8 type ->
  exists body, rfc_output bld w key iv seq type text = rfc_record type body /\ bytes body
    /\ Z.of_nat (length body) <= 16384 + 2048
    /\ forall tls, params tls = p -> bytes (inbuf tls) -> (5 + length body <= length (inbuf tls))%nat ->
         slice 5 (length body) (inbuf tls) = body ->
         exists tls', decrypt_record bld tls (Z.of_nat (length body)) = Ok (tls', Z.of_nat (length text))
           /\ decrypts tls tls' (length body) text.
Proof.
  intros Hr Hw Hiv Bt Lt Ht. pose proof Hr as ((aes0 & Ha & _) & Hk & Eg & Em & _ & LIV & BIV & EIV).
  unfold rfc_output, write_keys_ok in *. destruct (is_gcm w) eqn:Hg.
  - destruct (gcm_body_ok key (firstn 4 (our_write_IV w)) seq type text aes0) as [Lb Bb]; auto.
    { rewrite <- EIV. apply bytes_firstn, BIV. } { rewrite <- EIV, length_firstn. lia. }
    eexists. split; [reflexivity|]. split; [exact Bb|]. split; [lia|].
    intros tls <- Bib Hl Es. apply (decrypt_gcm tls w key seq type text); auto.
  - destruct Hw as (Hm & Lmk & Bmk). set (mac := rfc_mac bld w _) in *.
    set (m := mac (rfc_header seq type (length text) ++ text)).
    destruct (rfc_mac_ok bld w (firstn (Z.to_nat (TLS_MAC_SIZE bld w)) (our_write_MAC_key w)) (rfc_header seq type (length text) ++ text) Hm) as (Lm & Bm & Lm32).
    fold mac in Lm, Bm, Lm32. fold m in Lm, Bm, Lm32.
    assert (E20 : TLS_MAC_SIZE bld p = TLS_MAC_SIZE bld w) by (unfold TLS_MAC_SIZE; rewrite Em; reflexivity).
    assert (H20 : TLS_MAC_SIZE bld w = 20 \/ TLS_MAC_SIZE bld w = 32).
    { unfold TLS_MAC_SIZE, mac_size_ok in *. destruct (TLS_SHA1 bld); [apply Hm; reflexivity|right; reflexivity]. }
    destruct (cbc_body_ok key iv (text ++ m) aes0 Ha Hk Hiv ltac:(apply bytes_app; assumption)) as [Lb Bb].
    pose proof (length_app text m) as Ls. eexists. split; [reflexivity|]. split; [exact Bb|]. split; [fold m; lia|].
    intros tls <- Bib Hl Es. apply (decrypt_cbc tls w key iv m text); auto; [|lia].
    rewrite E20. lia.
Qed.

(** A record that is pending is received: it is at the start of [inbuf], what
    follows it is still pending, and it is decrypted and handled. *)
Definition received_record (r t : tls_state_t) (evs : list read_event) (type : Z) (body rest : list Z) : Prop :=
  params t = params r /\ hsd t = hsd r /\ inbuf_ok t /\ (5 + length body <= length (inbuf t))%nat
  /\ slice 5 (length body) (inbuf t) = body /\ nth 0 (inbuf t) 0 = type
  /\ ofs_to_buffered t = Z.of_nat (5 + length body) /\ pending t evs = rest /\ delivers evs
  /\ firstn (5 + length body) (inbuf t) = rfc_record type body.

Lemma receive r evs type body rest :
  inbuf_ok r -> SSL_SERVER bld && expecting_first_packet (params r) = false -> delivers evs ->
  in_u 8 type -> bytes body -> Z.of_nat (length body) <= 16384 + 2048 -> pending r evs = rfc_record type body ++ rest ->
  exists t evs', received_record r t evs' type body rest
    /\ forall fuel, tls_xread_record bld (S fuel) r evs
       = (let! (tls, sz) := decrypt_record bld t (Z.of_nat (length body)) in
          let! (tls, nxt) := handle_record bld tls sz in
          match nxt with Return sz => Ok (tls, evs', sz) | Again => tls_xread_record bld fuel tls evs' end).
Proof.
  intros Hi Hver Hd Ht Bb Lb Hp. destruct (rfc_record_bytes type body ltac:(lia)) as (hi & lo & Er & _ & Lr).
  destruct (move_buffered_pending r evs Hi) as (t1 & E1 & Hl1 & Hs1 & P1). destruct Hs1 as (Hs1 & _ & _ & Hb1 & _).
  destruct (read_loop_stream read_fuel t1 t1 evs (buffered_size r) MAX_INBUF (rfc_record type body) rest)
    as (t2 & evs2 & total & E2 & Hl2 & Hs2 & Hd2 & P2 & Hge); auto.
  { exists type, body. auto. } { rewrite (proj1 Hs1). exact Hver. } { repeat split. } { congruence. }
  { unfold read_fuel. rewrite MAX_INBUF_val. destruct Hl1 as (_ & _ & ?). lia. }
  destruct Hl2 as (Hm2 & Hb2 & Ht2). rewrite Lr in *. set (n := (5 + length body)%nat) in *.
  exists (set_buffered t2 (Z.of_nat n) (total - Z.of_nat n)), evs2. split.
  - assert (Esplit : firstn (Z.to_nat total) (inbuf t2) = firstn n (inbuf t2) ++ slice n (Z.to_nat total - n) (inbuf t2)).
    { change (firstn (Z.to_nat total) (inbuf t2)) with (slice 0 (Z.to_nat total) (inbuf t2)).
      change (firstn n (inbuf t2)) with (slice 0 n (inbuf t2)). rewrite (slice_app (inbuf t2) 0). f_equal. lia. }
    rewrite Esplit, <- app_assoc in P2. apply app_split in P2 as [Efst Erest]; [|rewrite length_firstn; lia].
    pose proof Efst as Efull. rewrite Er in Efst. pose proof Efst as Enth. apply (f_equal (fun l => nth 0 l 0)) in Enth. rewrite nth_firstn in Enth.
    change (firstn n (inbuf t2)) with (slice 0 (5 + length body) (inbuf t2)) in Efst. rewrite <- slice_app in Efst.
    apply (app_split _ _ [type; 3; 3; hi; lo]) in Efst; [|rewrite length_slice; cbn [length]; lia].
    unfold received_record, inbuf_ok, pending, same_but_inbuf in *. cbn [inbuf set_buffered params hsd ofs_to_buffered buffered_size].
    replace (Z.to_nat (total - Z.of_nat n)) with (Z.to_nat total - n)%nat by lia. rewrite Nat2Z.id.
    intuition (try congruence; try lia).
  - intros fuel. cbn [tls_xread_record]. rewrite E1. cbn [rbind]. rewrite Hb1, E2. cbn [rbind].
    replace (Z.of_nat n - Z.of_nat RECHDR_LEN) with (Z.of_nat (length body)) by (unfold n, RECHDR_LEN; lia). reflexivity.
Qed.

(** The record is read and decrypted; what is left is to handle it. *)
Lemma link_decrypted iv w r key seq size type evs rest :
  writer_ok w key seq size -> write_keys_ok bld (params w) -> AES.block iv -> in_u 8 type ->
  inbuf_ok r -> reader_ok (params w) (params r) key ->
  SSL_SERVER bld && expecting_first_packet (params r) = false -> delivers evs ->
  pending r evs = rfc_output bld (params w) key iv seq type (content w size) ++ rest ->
  exists t evs',
    (forall fuel, tls_xread_record bld (S fuel) r evs
       = (let! (tls, nxt) := handle_record bld t (Z.of_nat size) in
          match nxt with Return sz => Ok (tls, evs', sz) | Again => tls_xread_record bld fuel tls evs' end))
    /\ slice RECHDR_LEN size (inbuf t) = content w size /\ nth 0 (inbuf t) 0 = type /\ (5 + size <= length (inbuf t))%nat
    /\ pending t evs' = rest /\ inbuf_ok t /\ params t = params r /\ hsd t = hsd r /\ delivers evs'.
Proof.
  intros (_ & _ & _ & Hseq & Bo & Lo & Hsize) Hw Hiv Ht Hi Hr Hver Hd Hp.
  assert (Lt : length (content w size) = size) by (unfold content; rewrite length_slice; unfold OUTBUF_PFX, OUTBUF_SFX in *; lia).
  change TLS_MAX_OUTBUF with 16384 in Hsize.
  destruct (output_ok (params w) (params r) key iv seq type (content w size) Hr Hw Hiv (bytes_slice _ _ _ Bo) ltac:(lia) Ht)
    as (body & Eo & Bb & Lb & Hdec). rewrite Eo in Hp.
  destruct (receive r evs type body rest Hi Hver Hd Ht Bb Lb Hp) as (t & evs' & (Ep & Eh & Hit & Hl & Es & En & Eofs & Epend & Hd' & _) & E).
  destruct (Hdec t Ep (proj1 (proj2 Hit)) Hl Es) as (t4 & E4 & (((Hpar & _ & _ & Hhsd) & Hlen & Hofs & Hbuf & Hb4) & Htext & Htype & Hframe)).
  exists t4, evs'. split; [intros fuel; rewrite E, E4, Lt; reflexivity|]. rewrite Lt in Htext. split; [exact Htext|]. split; [congruence|].
  split; [pose proof (f_equal (@length Z) Htext) as L; rewrite length_slice in L; unfold RECHDR_LEN in L; lia|].
  split; [|split; [|repeat split; (congruence || exact Hd')]].
  - unfold pending in *. rewrite Hofs, Hbuf, Hframe by lia. exact Epend.
  - unfold inbuf_ok in *. rewrite Hlen, Hofs, Hbuf. intuition.
Qed.

Lemma link_spec iv w r key seq size type evs rest fuel :
  writer_ok w key seq size -> write_keys_ok bld (params w) -> AES.block iv -> in_u 8 type ->
  type <> RECORD_TYPE_ALERT -> type <> RECORD_TYPE_HANDSHAKE ->
  inbuf_ok r -> reader_ok (params w) (params r) key ->
  SSL_SERVER bld && expecting_first_packet (params r) = false -> delivers evs ->
  pending r evs = rfc_output bld (params w) key iv seq type (content w size) ++ rest ->
  exists r' evs',
    tls_xread_record bld (S fuel) r evs = Ok (r', evs', Z.of_nat size)
    /\ slice RECHDR_LEN size (inbuf r') = content w size /\ nth 0 (inbuf r') 0 = type
    /\ pending r' evs' = rest /\ inbuf_ok r' /\ params r' = params r /\ delivers evs'.
Proof.
  intros Hw Hk Hiv Ht Hna Hnh Hi Hr Hver Hd Hp.
  destruct (link_decrypted iv w r key seq size type evs rest Hw Hk Hiv Ht Hi Hr Hver Hd Hp) as (t & evs' & E & Htext & Htype & Hl & Hpend & Hit & Ep & _ & Hd').
  exists t, evs'. rewrite E. unfold handle_record.
  destruct (Z.ltb_spec (Z.of_nat size) 0); [lia|]. rewrite (load1_ok _ _ 0) by lia. cbn [rbind]. rewrite Htype.
  destruct (Z.eqb_spec type RECORD_TYPE_ALERT); [contradiction|]. cbn [andb].
  destruct (Z.eqb_spec type RECORD_TYPE_HANDSHAKE); [contradiction|]. cbn [rbind]. auto 8.
Qed.

Lemma rfc_record_ok type body : in_u 8 type -> bytes body -> bytes (rfc_record type body).
Proof.
  intros Ht Hb. unfold rfc_record. apply bytes_app; [apply (bytes_app [type] [3; 3]); [apply bytes_one, Ht|apply is_bytes_ok; reflexivity]|].
  apply bytes_app; [apply bytes_be_bytes|exact Hb].
Qed.

Lemma output_bytes w key iv seq size type :
  writer_ok w key seq size -> write_keys_ok bld (params w) -> AES.block iv -> in_u 8 type ->
  bytes (rfc_output bld (params w) key iv seq type (content w size)).
Proof.
  intros ((aes0 & Ha & _) & Hk & _ & _ & Bo & _) Hw Hiv Ht. assert (Bt := bytes_slice OUTBUF_PFX size _ Bo).
  unfold rfc_output, write_keys_ok in *. destruct (is_gcm (params w)).
  - destruct Hw as (LIV & BIV & _). apply rfc_record_ok; [exact Ht|].
    apply (gcm_body_ok key (firstn 4 (our_write_IV (params w))) seq type _ aes0); auto using bytes_firstn.
    rewrite length_firstn. lia.
  - destruct Hw as (Hm & _). apply rfc_record_ok; [exact Ht|]. apply (cbc_body_ok key iv _ aes0); auto.
    apply bytes_app; [exact Bt|]. apply rfc_mac_ok, Hm.
Qed.

(** A handshake record when there is no handshake data. *)
Lemma fault_spec r key evs body rest fuel :
  inbuf_ok r -> reader_ok (params r) (params r) key -> is_gcm (params r) = true -> hsd r = None ->
  SSL_SERVER bld && expecting_first_packet (params r) = false -> delivers evs ->
  bytes body -> 24 <= Z.of_nat (length body) <= 16384 + 2048 ->
  pending r evs = rfc_record RECORD_TYPE_HANDSHAKE body ++ rest ->
  tls_xread_record bld (S fuel) r evs = Fault.
Proof.
  intros Hi Hr Hg Hh Hver Hd Bb Lb Hp.
  destruct (receive r evs RECORD_TYPE_HANDSHAKE body rest Hi Hver Hd ltac:(split; [discriminate|reflexivity]) Bb ltac:(lia) Hp)
    as (t & evs' & (Ep & Eh & Hit & Hl & Es & En & _) & E). rewrite E. clear E.
  destruct Hr as ((aes0 & Ha & Eaes) & Hk & _ & _ & Emin & LIV & BIV & _). destruct Hit as (_ & Bib & _).
  assert (Hflag : Z.land (flags (params r)) ENCRYPTION_AESGCM <> 0).
  { unfold is_gcm in Hg. destruct (Z.eqb_spec (Z.land (flags (params r)) ENCRYPTION_AESGCM) 0); [discriminate|assumption]. }
  unfold decrypt_record. rewrite Ep, Emin, min_len_gcm by exact Hflag. cbn [Z.eqb].
  destruct (Z.ltb_spec (Z.of_nat (length body)) 24); [lia|].
  destruct (Z.eqb_spec (Z.land (flags (params r)) ENCRYPTION_AESGCM) 0); [contradiction|]. cbn [negb].
  unfold tls_aesgcm_decrypt. rewrite Ep. unfold RECHDR_LEN, AES_BLOCK_SIZE. rewrite !load_ok by lia. cbn [rbind].
  unfold u32. rewrite wrap_small by (red; lia). set (m := Z.to_nat (Z.of_nat (length body) - (8 + Z.of_nat 16))).
  rewrite Eaes, gcm_decrypt_loop_spec; [| |exact Bib|lia|pose proof (Nat.div_mod_eq m 16); pose proof (Nat.mod_upper_bound m 16); lia].
  - cbn [rbind]. set (g := gctr _ _ _ _ _). unfold handle_record. cbn [inbuf set_inbuf].
    destruct (Z.ltb_spec (Z.of_nat (length body) - (8 + Z.of_nat 16)) 0); [lia|].
    assert (Hlen : (0 < length (blit (inbuf t) 5 g))%nat) by (unfold blit; rewrite length_app, length_firstn; lia).
    rewrite (load1_ok _ _ 0) by exact Hlen. cbn [rbind]. rewrite nth_blit_before, En by lia.
    cbn [RECORD_TYPE_HANDSHAKE RECORD_TYPE_ALERT Z.eqb Pos.eqb andb]. unfold load, hash_handshake.
    destruct (_ <=? _)%nat; [|reflexivity]. cbn [rbind hsd set_inbuf]. rewrite Eh, Hh. reflexivity.
  - apply (counter_stream aes0 key); auto; [apply bytes_app; apply bytes_slice; assumption|].
    rewrite length_app, !length_slice. lia.
Qed.

End Link.



(** ** Concrete connections *)

#[local] Opaque AES.aes_setkey AES.aes_encrypt_one_block.

Definition gcm_reader : tls_state_t := mk_tls gcm_params [] 0 [] 0 0 None.

Lemma gcm_reader_ok : reader_ok build0 gcm_params gcm_params key0.
Proof.
  split; [exists aes_zero; split; [exact aes_zero_array|reflexivity]|].
  split; [split; [left; reflexivity|apply is_bytes_ok; reflexivity]|]. repeat (split; [reflexivity|]).
  split; [apply is_bytes_ok; reflexivity|reflexivity].
Qed.

Lemma empty_inbuf_ok p h : inbuf_ok (mk_tls p [] 0 [] 0 0 h).
Proof. split; [discriminate|]. split; [constructor|]. split; [discriminate|]. left. reflexivity. Qed.



End TLSLink.
