(* ===== verification/WinPath.v ===== *)
(** * Paths on Windows

    [win32/dirname.c] ([dirname] and [basename]), the last component of a path
    ([bb_basename] of [libbb/get_last_path_component.c]), the suffixes of
    executables and the tests on paths of [win32/mingw.c]. A path is the list
    of its bytes; [lead] stands for [IsDBCSLeadByteEx] of the Windows API, which
    says of a byte whether it is the first of two of a character. The theorem:
    [dirname] and [basename] split a path at its last component, after the
    drive or share, whatever separators it has. *)

From Stdlib Require Import Ascii String ZArith List Lia Bool.
From S2P Require Import Prelude Ctype.
Import ListNotations.
Local Open Scope Z_scope.

Module Path.

(** ** Definitions *)

Definition SLASH : Z := chr "/".
Definition BSLASH : Z := chr "\".
Definition is_dir_sep (c : Z) : bool := (c =? SLASH) || (c =? BSLASH).

Definition has_dos_drive_prefix (path : list Z) : bool :=
  isalpha (char_at 0 path) && (char_at 1 path =? chr ":").

(** *** [win32/dirname.c] *)

(** Positions in the path; [None] is [NULL]. *)
Record path_info := mk_info {
  prefix_end : option nat;
  base_sep_begin : option nat;
  base_sep_end : option nat;
  term_sep_begin : option nat;
  path_end : nat
}.

Section Dirname.
Variable lead : Z -> bool.

(** One character of a loop: the new [dbcs_tb], and [dir_sep]. *)
Definition scan_char (dbcs_tb : bool) (c : Z) : bool * bool :=
  if dbcs_tb then (false, false)
  else if lead c then (true, false)
  else (false, is_dir_sep c).

(** The loop over the share name of a UNC path: where it stops. *)
Fixpoint unc_loop (s : list Z) (pos : nat) (dbcs_tb prev_dir_sep : bool) (unc_ncoms : nat) : nat :=
  match s with
  | [] => pos
  | c :: s =>
      let '(dbcs_tb, dir_sep) := scan_char dbcs_tb c in
      if dir_sep && negb prev_dir_sep then
        if (S unc_ncoms =? 2)%nat then pos
        else unc_loop s (S pos) dbcs_tb dir_sep (S unc_ncoms)
      else unc_loop s (S pos) dbcs_tb dir_sep unc_ncoms
  end.

(** The loop over the rest: the three positions it looks for, and the end. *)
Fixpoint path_loop (s : list Z) (pos : nat) (dbcs_tb prev_dir_sep : bool) (bb be ts : option nat)
  : option nat * option nat * option nat * nat :=
  match s with
  | [] => (bb, be, ts, pos)
  | c :: s =>
      let '(dbcs_tb, dir_sep) := scan_char dbcs_tb c in
      let ts := if dir_sep && negb prev_dir_sep then Some pos else ts in
      let '(bb, be, ts) := if negb dir_sep && prev_dir_sep then (ts, Some pos, None) else (bb, be, ts) in
      path_loop s (S pos) dbcs_tb dir_sep bb be ts
  end.

(** Where the UNC prefix or the drive ends, if there is one. *)
Definition find_prefix (path : list Z) : option nat :=
  let c0 := char_at 0 path in
  let c1 := char_at 1 path in
  if is_dir_sep c0 && is_dir_sep c1 then Some (unc_loop (skipn 2 path) 2 false false 0)
  else if ((chr "A" <=? c0) && (c0 <=? chr "Z") && (c1 =? chr ":"))
          || ((chr "a" <=? c0) && (c0 <=? chr "z") && (c1 =? chr ":")) then Some 2%nat
  else None.

Definition do_get_path_info (path : list Z) : path_info :=
  let pe := find_prefix path in
  let pos := match pe with Some n => n | None => 0%nat end in
  let '(bb, be, ts, e) := path_loop (skipn pos path) pos false false None None None in
  mk_info pe bb be ts e.

(** The offset of [upath]. *)
Definition upath_of (info : path_info) : nat :=
  match prefix_end info with Some n => n | None => 0%nat end.

(** [realloc_ok]: whether [realloc] gives memory for the copy. *)
Definition dirname (realloc_ok : bool) (path : list Z) : list Z :=
  match path with
  | [] => [chr "."]
  | c0 :: _ =>
      let info := do_get_path_info path in
      let upath := upath_of info in
      let top :=
        if is_dir_sep c0 then (if c0 =? SLASH then SLASH else BSLASH)
        else if is_dir_sep (char_at upath path) then (if char_at upath path =? SLASH then SLASH else BSLASH)
        else chr "." in
      let cut := match base_sep_begin info with Some n => firstn n path | None => path end in
      if match base_sep_begin info with Some _ => negb (char_at upath cut =? 0) | None => false end then cut
      else if (upath =? 0)%nat then [top]
      else if negb (upath =? path_end info)%nat then firstn upath path ++ [top]
      else if realloc_ok then firstn upath path ++ [top]
      else [top]
  end.

Definition basename (path : list Z) : list Z :=
  match path with
  | [] => [chr "."]
  | c0 :: _ =>
      let info := do_get_path_info path in
      let upath := upath_of info in
      if negb (is_dir_sep c0) && (char_at upath path =? 0) then [chr "."]
      else
        let path := match term_sep_begin info with Some n => firstn n path | None => path end in
        match base_sep_end info with
        | Some n => skipn n path
        | None => if char_at upath path =? 0 then [BSLASH] else skipn upath path
        end
  end.

(** [unix_path]: is the file in one of the directories of [UNIX_PATHS]? *)
Definition UNIX_PATHS : list (list Z) :=
  map bytes_of ["/bin"; "/usr/bin"; "/sbin"; "/usr/sbin"]%string.
End Dirname.

Fixpoint str_eqb (a b : list Z) : bool :=
  match a, b with
  | [], [] => true
  | x :: a, y :: b => (x =? y) && str_eqb a b
  | _, _ => false
  end.

Definition unix_path (lead : Z -> bool) (realloc_ok : bool) (path : list Z) : bool :=
  existsb (fun p => str_eqb p (dirname lead realloc_ok path)) UNIX_PATHS.

(** *** [libbb] and [win32/mingw.c] *)

(** [bb_basename]: [name] is the last position after a separator. *)
Fixpoint basename_loop (cp name : list Z) : list Z :=
  match cp with
  | [] => name
  | c :: cp => basename_loop cp (if (c =? SLASH) || (c =? BSLASH) || (c =? chr ":") then cp else name)
  end.
Definition bb_basename (name : list Z) : list Z := basename_loop name name.

Definition has_path (file : list Z) : bool :=
  existsb (Z.eqb SLASH) file || existsb (Z.eqb BSLASH) file || has_dos_drive_prefix file.

(** [strrchr]: the suffix from the last [c]. *)
Fixpoint strrchr (c : Z) (s : list Z) : option (list Z) :=
  match s with
  | [] => None
  | x :: s' =>
      match strrchr c s' with
      | Some r => Some r
      | None => if x =? c then Some s else None
      end
  end.

(** ASCII [tolower], and the comparisons that ignore case. *)
Definition tolower (c : Z) : Z := if (chr "A" <=? c) && (c <=? chr "Z") then c + 32 else c.
Definition strcaseeq (a b : list Z) : bool := str_eqb (map tolower a) (map tolower b).

Definition win_suffix : list (list Z) := map bytes_of ["com"; "exe"; "sh"; "bat"; "cmd"]%string.

Definition has_win_suffix (name : list Z) (start : nat) : bool :=
  match strrchr (chr ".") (bb_basename name) with
  | Some dot => (length dot <? 5)%nat && existsb (strcaseeq (tl dot)) (skipn start win_suffix)
  | None => false
  end.
Definition has_bat_suffix (name : list Z) : bool := has_win_suffix name 3.
Definition has_exe_suffix (name : list Z) : bool := has_win_suffix name 0.

Definition last_char_is (s : list Z) (c : Z) : bool :=
  match s with [] => false | _ => last s 0 =? c end.

Definition has_exe_suffix_or_dot (name : list Z) : bool := last_char_is name (chr ".") || has_win_suffix name 0.

Definition slash_to_bs (p : list Z) : list Z := map (fun c => if c =? SLASH then BSLASH else c) p.
Definition bs_to_slash (p : list Z) : list Z := map (fun c => if c =? BSLASH then SLASH else c) p.

(** ** Theorems *)

Section Split.
Variable lead : Z -> bool.

(** What [dirname] and [basename] make of the path after the drive or share:
    [top] stands for the directory when the name is at the top. *)
Inductive split (top : Z) : list Z -> list Z -> list Z -> Prop :=
| split_dir d seps b tail :
    d = [] \/ is_dir_sep (last d 0) = false ->
    seps <> [] -> forallb is_dir_sep seps = true ->
    b <> [] -> forallb (fun c => negb (is_dir_sep c)) b = true -> forallb is_dir_sep tail = true ->
    split top (d ++ seps ++ b ++ tail) (match d with [] => [top] | _ => d end) b
| split_name b tail :
    b <> [] -> forallb (fun c => negb (is_dir_sep c)) b = true -> forallb is_dir_sep tail = true ->
    split top (b ++ tail) [chr "."] b
| split_root seps :
    seps <> [] -> forallb is_dir_sep seps = true -> split top seps [top] [BSLASH].

(** The longest suffix of characters of a kind. *)
Lemma suffix_of (f : Z -> bool) (l : list Z) :
  exists a b, l = a ++ b /\ forallb f b = true /\ (a = [] \/ f (last a 0) = false).
Proof.
  induction l as [|c l (a & b & -> & Hb & Ha)] using rev_ind; [exists [], []; auto|].
  destruct (f c) eqn:Hc.
  - exists a, (b ++ [c]). rewrite app_assoc, forallb_app, Hb. cbn. rewrite Hc. auto.
  - exists ((a ++ b) ++ [c]), []. rewrite app_nil_r, last_last. auto.
Qed.

Lemma split_total top rest : rest <> [] -> exists D B, split top rest D B.
Proof.
  intros Hne. destruct (suffix_of is_dir_sep rest) as (l1 & tail & -> & Ht & H1).
  destruct l1 as [|x1 l1']; [exists [top], [BSLASH]; now apply split_root|]. destruct H1 as [H1|H1]; [discriminate|].
  remember (x1 :: l1') as l1 eqn:El1. assert (Hl1 : l1 <> []) by (subst; discriminate). clear El1 x1 l1' Hne.
  destruct (suffix_of (fun c => negb (is_dir_sep c)) l1) as (l2 & b & -> & Hb & H2).
  assert (Hbne : b <> []).
  { intros ->. rewrite app_nil_r in *. destruct H2 as [->|H2]; [contradiction|]. rewrite H1 in H2. discriminate. }
  destruct l2 as [|x2 l2']; [exists [chr "."], b; now apply split_name|].
  destruct H2 as [H2|H2]; [discriminate|]. apply negb_false_iff in H2.
  remember (x2 :: l2') as l2 eqn:El2. assert (Hl2 : l2 <> []) by (subst; discriminate). clear El2 x2 l2'.
  destruct (suffix_of is_dir_sep l2) as (d & seps & -> & Hs & H3). exists (match d with [] => [top] | _ => d end), b.
  rewrite <- !app_assoc. apply split_dir; auto. intros ->. rewrite app_nil_r in *.
  destruct H3 as [->|H3]; [contradiction|]. rewrite H2 in H3. discriminate.
Qed.

Definition single (s : list Z) : Prop := Forall (fun c => lead c = false) s.

Definition last_sep (prev : bool) (d : list Z) : bool := fold_left (fun _ c => is_dir_sep c) d prev.

Lemma last_sep_end prev d x : d <> [] -> last_sep prev d = is_dir_sep (last d x).
Proof.
  intros Hd. destruct (exists_last Hd) as (d' & c & ->). unfold last_sep. rewrite fold_left_app, last_last. reflexivity.
Qed.

(** The loop over any characters: a separator sequence is open at the end
    exactly when the last character is a separator. *)
Lemma path_loop_any d s pos prev bb be ts :
  single d -> (prev = false -> ts = None) ->
  exists bb' be' ts', path_loop lead (d ++ s) pos false prev bb be ts
    = path_loop lead s (pos + length d) false (last_sep prev d) bb' be' ts' /\ (last_sep prev d = false -> ts' = None).
Proof.
  intros Hl. revert pos prev bb be ts; induction Hl as [|c d Hc Hl IH]; intros pos prev bb be ts Ht.
  - exists bb, be, ts. rewrite Nat.add_0_r. auto.
  - cbn [path_loop app]. unfold scan_char. rewrite Hc.
    destruct (negb (is_dir_sep c) && prev) eqn:E1; (edestruct (IH (S pos) (is_dir_sep c)) as (bb' & be' & ts' & -> & H);
      [|exists bb', be', ts'; cbn [length last_sep fold_left]; rewrite Nat.add_succ_r; auto]).
    + reflexivity.
    + intros Hs. rewrite Hs in *. destruct prev; [discriminate|]. auto.
Qed.

(** The loop over a run of characters that are not separators. *)
Lemma path_loop_name b s pos bb be ts :
  single b -> forallb (fun c => negb (is_dir_sep c)) b = true ->
  path_loop lead (b ++ s) pos false false bb be ts = path_loop lead s (pos + length b) false false bb be ts.
Proof.
  intros Hl. revert pos; induction Hl as [|c b Hc Hl IH]; intros pos Hb; [now rewrite Nat.add_0_r|].
  cbn [forallb] in Hb. apply andb_true_iff in Hb as [Hn Hb]. apply negb_true_iff in Hn.
  cbn [path_loop app]. unfold scan_char. rewrite Hc, Hn. cbn [negb andb length].
  rewrite IH by exact Hb. f_equal. lia.
Qed.

(** The loop over a run of separators after another character. *)
Lemma path_loop_seps seps s pos bb be :
  single seps -> forallb is_dir_sep seps = true -> seps <> [] ->
  path_loop lead (seps ++ s) pos false false bb be None = path_loop lead s (pos + length seps) false true bb be (Some pos).
Proof.
  intros Hl Hs Hne. destruct Hl as [|c seps Hc Hl]; [contradiction|].
  cbn [forallb] in Hs. apply andb_true_iff in Hs as [Hn Hs].
  cbn [path_loop app]. unfold scan_char. rewrite Hc, Hn. cbn [negb andb length].
  rewrite Nat.add_succ_r, <- Nat.add_succ_l. generalize (S pos) as p. clear Hne Hc.
  induction Hl as [|x seps Hx Hl IH]; intros p; [now rewrite Nat.add_0_r|].
  cbn [forallb] in Hs. apply andb_true_iff in Hs as [Hx' Hs].
  cbn [path_loop app]. unfold scan_char. rewrite Hx, Hx'. cbn [negb andb length]. rewrite IH by exact Hs. f_equal. lia.
Qed.

(** The end of the loop, at the separators that end the path. *)
Lemma path_loop_tail tail pos bb be :
  single tail -> forallb is_dir_sep tail = true ->
  path_loop lead tail pos false false bb be None
  = (bb, be, match tail with [] => None | _ => Some pos end, (pos + length tail)%nat).
Proof.
  intros Hl Ht. destruct tail as [|c tail]; [cbn; now rewrite Nat.add_0_r|].
  rewrite <- (app_nil_r (c :: tail)) at 1. rewrite path_loop_seps by (auto; discriminate). reflexivity.
Qed.

(** The loop over a directory, separators, a name and separators. *)
Lemma path_loop_dir d seps b tail pos :
  single (d ++ seps ++ b ++ tail) -> (d = [] \/ is_dir_sep (last d 0) = false) ->
  seps <> [] -> forallb is_dir_sep seps = true ->
  b <> [] -> forallb (fun c => negb (is_dir_sep c)) b = true -> forallb is_dir_sep tail = true ->
  path_loop lead (d ++ seps ++ b ++ tail) pos false false None None None
  = (Some (pos + length d)%nat, Some (pos + length d + length seps)%nat,
     match tail with [] => None | _ => Some (pos + length d + length seps + length b)%nat end,
     (pos + length (d ++ seps ++ b ++ tail))%nat).
Proof.
  intros Hl Hd Hsne Hs Hbne Hb Ht. apply Forall_app in Hl as [Ld Hl]. apply Forall_app in Hl as [Ls Hl].
  apply Forall_app in Hl as [Lb Lt].
  destruct (path_loop_any d (seps ++ b ++ tail) pos false None None None Ld (fun _ => eq_refl)) as (bb & be & ts & -> & Hts).
  assert (Hls : last_sep false d = false).
  { destruct Hd as [->|Hd]; [reflexivity|]. destruct d; [reflexivity|]. rewrite (last_sep_end _ _ 0) by discriminate. exact Hd. }
  rewrite Hls in *. rewrite Hts by reflexivity. rewrite path_loop_seps by assumption.
  destruct b as [|c b]; [contradiction|]. inversion Lb as [|? ? Lc Lb']; subst.
  cbn [forallb] in Hb. apply andb_true_iff in Hb as [Hc Hb]. apply negb_true_iff in Hc.
  cbn [path_loop app]. unfold scan_char. rewrite Lc, Hc. cbn [negb andb].
  rewrite path_loop_name by assumption. rewrite path_loop_tail by assumption.
  cbn [length]. rewrite !length_app. cbn [length]. rewrite !length_app.
  destruct tail; cbn [length];
    repeat match goal with |- (_, _) = (_, _) => apply f_equal2 | |- Some _ = Some _ => apply f_equal end;
    try reflexivity; lia.
Qed.

(** The scan of a share name stops at the end or at a separator. *)
Lemma unc_loop_stops s pos prev n :
  single s -> exists k, unc_loop lead s pos false prev n = (pos + k)%nat /\ (k <= length s)%nat
    /\ (skipn k s = [] \/ is_dir_sep (char_at 0 (skipn k s)) = true).
Proof.
  intros Hl. revert pos prev n; induction Hl as [|c s Hc Hl IH]; intros pos prev n.
  - exists 0%nat. cbn. split; [lia|]. auto.
  - assert (Hgo : forall n', exists k, unc_loop lead s (S pos) false (is_dir_sep c) n' = (pos + k)%nat /\ (k <= length (c :: s))%nat
      /\ (skipn k (c :: s) = [] \/ is_dir_sep (char_at 0 (skipn k (c :: s))) = true)).
    { intros n'. destruct (IH (S pos) (is_dir_sep c) n') as (k & -> & Hk & Hs). exists (S k). cbn. split; [lia|]. split; [lia|auto]. }
    cbn [unc_loop]. unfold scan_char. rewrite Hc.
    destruct (is_dir_sep c) eqn:Es; [|apply Hgo]. destruct prev; cbn [negb andb]; [apply Hgo|].
    destruct (S n =? 2)%nat; [|apply Hgo]. exists 0%nat. cbn. rewrite Es. split; [lia|]. split; [lia|auto].
Qed.

Definition prefix_len (path : list Z) : nat := match find_prefix lead path with Some n => n | None => 0%nat end.

Lemma prefix_len_le path : single path -> (prefix_len path <= length path)%nat.
Proof.
  intros Hl. unfold prefix_len, find_prefix, char_at. destruct path as [|c0 [|c1 path]]; cbn [nth skipn].
  - cbn. lia.
  - cbn. rewrite !andb_false_r. cbn. lia.
  - inversion Hl as [|? ? _ Hl']; inversion Hl' as [|? ? _ Hl'']; subst.
    destruct (_ && _); [|destruct (_ || _); cbn; lia].
    destruct (unc_loop_stops path 2 false 0 Hl'') as (k & -> & Hk & _). cbn. lia.
Qed.

(** After a share, the rest starts with a separator. *)
Lemma after_share path :
  single path -> is_dir_sep (char_at 0 path) = true ->
  skipn (prefix_len path) path = [] \/ is_dir_sep (char_at 0 (skipn (prefix_len path) path)) = true.
Proof.
  intros Hl H0. unfold prefix_len, find_prefix. rewrite H0. cbn [andb].
  destruct (is_dir_sep (char_at 1 path)) eqn:H1.
  - destruct path as [|c0 [|c1 path]]; [discriminate|discriminate|]. inversion Hl as [|? ? _ Hl']; inversion Hl' as [|? ? _ Hl'']; subst.
    cbn [skipn]. destruct (unc_loop_stops path 2 false 0 Hl'') as (k & -> & Hk & Hs). exact Hs.
  - replace (_ || _) with false; [right; exact H0|]. unfold is_dir_sep, SLASH, BSLASH in H0. revert H0. chars.
    intros H0. symmetry. apply orb_true_iff in H0. rewrite !Z.eqb_eq in H0. destruct H0 as [-> | ->]; reflexivity.
Qed.

(** The character for a directory at the top. *)
Definition top_of (path rest : list Z) : Z :=
  if is_dir_sep (char_at 0 path) then char_at 0 path
  else if is_dir_sep (char_at 0 rest) then char_at 0 rest else chr ".".

Lemma same_sep c : is_dir_sep c = true -> (if c =? SLASH then SLASH else BSLASH) = c.
Proof. unfold is_dir_sep. destruct (Z.eqb_spec c SLASH), (Z.eqb_spec c BSLASH); cbn [orb]; congruence. Qed.

Lemma char_at_skipn n path : char_at n path = char_at 0 (skipn n path).
Proof. unfold char_at. rewrite nth_skipn. f_equal. lia. Qed.
End Split.

Section Info.
Context (lead : Z -> bool) (path : list Z).
Hypotheses (path_ne : path <> []) (path_nul : Forall (fun c => c <> 0) path) (path_single : single lead path).
Let u := prefix_len lead path.
Let rest := skipn u path.
Hypothesis rest_ne : rest <> [].

Lemma path_parts : path = firstn u path ++ rest /\ length (firstn u path) = u /\ length path = (u + length rest)%nat
  /\ single lead rest /\ Forall (fun c => c <> 0) rest.
Proof.
  assert (Hu : (u <= length path)%nat) by (apply prefix_len_le, path_single).
  split; [symmetry; apply firstn_skipn|]. split; [rewrite length_firstn; lia|].
  split; [unfold rest; rewrite length_skipn; lia|]. split; unfold rest; apply Forall_skipn; assumption.
Qed.

Lemma char_at_rest : char_at 0 rest <> 0.
Proof. destruct path_parts as (_ & _ & _ & _ & N). destruct rest; [contradiction|]. inversion N; assumption. Qed.

Lemma dirname_info ok bb be ts :
  path_loop lead rest u false false None None None = (bb, be, ts, length path) ->
  dirname lead ok path =
  match bb with
  | Some n => if char_at u (firstn n path) =? 0 then firstn u path ++ [top_of path rest] else firstn n path
  | None => firstn u path ++ [top_of path rest]
  end.
Proof.
  intros E. unfold dirname, do_get_path_info. fold (prefix_len lead path). change (prefix_len lead path) with u.
  change (skipn u path) with rest. rewrite E. unfold upath_of. cbn [prefix_end base_sep_begin path_end].
  change (match find_prefix lead path with Some n => n | None => 0%nat end) with u.
  destruct path_parts as (_ & _ & Len & _). assert (Hr : length rest <> 0%nat) by (destruct rest; [contradiction|discriminate]).
  destruct (Nat.eqb_spec u (length path)); [lia|]. rewrite (char_at_skipn u path). change (skipn u path) with rest.
  unfold top_of. destruct path as [|c0 p]; [contradiction|]. cbn [char_at nth negb].
  assert (Et : (if is_dir_sep c0 then if c0 =? SLASH then SLASH else BSLASH
                else if is_dir_sep (char_at 0 rest) then if char_at 0 rest =? SLASH then SLASH else BSLASH else chr ".")
               = (if is_dir_sep c0 then c0 else if is_dir_sep (char_at 0 rest) then char_at 0 rest else chr ".")).
  { destruct (is_dir_sep c0) eqn:?; [apply same_sep; assumption|].
    destruct (is_dir_sep (char_at 0 rest)) eqn:?; [apply same_sep; assumption|reflexivity]. }
  rewrite Et. destruct bb as [m|]; [destruct (char_at u _ =? 0); cbn [negb]; [|reflexivity]|];
    (destruct (Nat.eqb_spec u 0) as [E0|]; [rewrite E0; reflexivity|reflexivity]).
Qed.

Lemma basename_info bb be ts :
  path_loop lead rest u false false None None None = (bb, be, ts, length path) ->
  basename lead path =
  let p := match ts with Some n => firstn n path | None => path end in
  match be with
  | Some n => skipn n p
  | None => if char_at u p =? 0 then [BSLASH] else skipn u p
  end.
Proof.
  intros E. unfold basename, do_get_path_info. fold (prefix_len lead path). change (prefix_len lead path) with u.
  change (skipn u path) with rest. rewrite E. unfold upath_of. cbn [prefix_end base_sep_end term_sep_begin].
  change (match find_prefix lead path with Some n => n | None => 0%nat end) with u.
  rewrite (char_at_skipn u path). change (skipn u path) with rest. pose proof char_at_rest as Hr.
  destruct path as [|c0 p]; [contradiction|].
  destruct (Z.eqb_spec (char_at 0 rest) 0); [contradiction|]. rewrite andb_false_r. reflexivity.
Qed.

Lemma firstn_past n (a b : list Z) : length a = u -> n = (u + length b)%nat -> forall c, firstn n (a ++ b ++ c) = a ++ b.
Proof. intros La -> c. rewrite app_assoc. rewrite firstn_app, length_app, La, Nat.sub_diag, firstn_O, app_nil_r. apply firstn_all2. rewrite length_app. lia. Qed.

Lemma dirname_basename_split ok D B :
  split (top_of path rest) rest D B -> dirname lead ok path = firstn u path ++ D /\ basename lead path = B.
Proof.
  destruct path_parts as (Ep & Lu & Len & Lr & Nr). pose proof char_at_rest as Hr0. intros Hs.
  assert (Hsh : is_dir_sep (char_at 0 path) = true -> rest = [] \/ is_dir_sep (char_at 0 rest) = true) by (apply after_share, path_single).
  remember (firstn u path) as pre eqn:Epre. assert (Hs' : exists r, r = rest /\ split (top_of path rest) r D B) by (exists rest; auto).
  destruct Hs' as (r & Er & Hs'). rewrite <- Er in Ep, Len, Lr, Nr, Hr0, Hsh. clear Hs. destruct Hs' as [d seps b tail Hd Hsne Hs Hbne Hb Ht|b tail Hbne Hb Ht|seps Hsne Hs].
  - pose proof (path_loop_dir lead d seps b tail u Lr Hd Hsne Hs Hbne Hb Ht) as E. rewrite <- Len, Er in E.
    rewrite (dirname_info ok _ _ _ E), (basename_info _ _ _ E), <- Epre. split.
    + assert (Ef : firstn (u + length d) path = pre ++ d) by (rewrite Ep; apply firstn_past; [exact Lu|reflexivity]).
      rewrite Ef. rewrite char_at_skipn, skipn_app, Lu, Nat.sub_diag, skipn_all2 by lia.
      cbn [app skipn]. destruct d as [|c d]; [reflexivity|]. inversion Nr; subst. unfold char_at at 1. cbn [nth].
      destruct (Z.eqb_spec c 0); [contradiction|reflexivity].
    + cbn zeta. set (k := (u + length d + length seps + length b)%nat).
      assert (Ecut : (match (match tail with [] => None | _ :: _ => Some k end) with Some n => firstn n path | None => path end)
                     = (pre ++ d ++ seps) ++ b).
      { rewrite Ep. destruct tail; [rewrite app_nil_r, <- !app_assoc; reflexivity|].
        replace (pre ++ d ++ seps ++ b ++ z :: tail) with (pre ++ (d ++ seps ++ b) ++ z :: tail) by (rewrite <- !app_assoc; reflexivity).
        rewrite firstn_past; [rewrite <- !app_assoc; reflexivity|exact Lu|unfold k; rewrite !length_app; lia]. }
      rewrite Ecut, skipn_app, skipn_all2 by (rewrite !length_app; lia).
      replace (u + length d + length seps - length (pre ++ d ++ seps))%nat with 0%nat by (rewrite !length_app; lia). reflexivity.
  - assert (E : path_loop lead (b ++ tail) u false false None None None
                = (None, None, match tail with [] => None | _ => Some (u + length b)%nat end, (u + length (b ++ tail))%nat)).
    { apply Forall_app in Lr as [Lb Lt]. rewrite path_loop_name, path_loop_tail by assumption. rewrite length_app, Nat.add_assoc. reflexivity. }
    rewrite <- Len, Er in E. rewrite (dirname_info ok _ _ _ E), (basename_info _ _ _ E), <- Epre.
    destruct b as [|c b]; [contradiction|]. cbn [forallb] in Hb. apply andb_true_iff in Hb as [Hc Hb]. apply negb_true_iff in Hc. split.
    + unfold top_of. destruct (is_dir_sep (char_at 0 path)) eqn:E0.
      * destruct (Hsh eq_refl) as [?|Hx]; [discriminate|]. cbn in Hx. rewrite Hc in Hx. discriminate.
      * rewrite <- Er. unfold char_at. cbn [nth app]. rewrite Hc. reflexivity.
    + cbn zeta. assert (Ecut : (match (match tail with [] => None | _ :: _ => Some (u + length (c :: b))%nat end) with Some n => firstn n path | None => path end)
                     = pre ++ c :: b).
      { rewrite Ep. destruct tail; [rewrite app_nil_r; reflexivity|]. apply firstn_past; [exact Lu|reflexivity]. }
      rewrite Ecut, char_at_skipn, skipn_app, skipn_all2, Lu, Nat.sub_diag by lia. cbn [skipn app]. unfold char_at. cbn [nth].
      destruct (Z.eqb_spec c 0); [inversion Nr; contradiction|reflexivity].
  - assert (E : path_loop lead rest u false false None None None = (None, None, Some u, length path)).
    { rewrite <- Er, Len, path_loop_tail by assumption. destruct seps; [contradiction|reflexivity]. }
    rewrite (dirname_info ok _ _ _ E), (basename_info _ _ _ E), <- Epre. split; [reflexivity|].
    cbn zeta. rewrite char_at_skipn, skipn_all2 by lia. reflexivity.
Qed.
End Info.

(** A drive or share alone. *)
Lemma dirname_basename_prefix lead path :
  path <> [] -> single lead path -> skipn (prefix_len lead path) path = [] ->
  dirname lead true path = path ++ [top_of path []]
  /\ basename lead path = [if is_dir_sep (char_at 0 path) then BSLASH else chr "."].
Proof.
  intros Hne Hl Hr. pose proof (prefix_len_le lead path Hl) as Hu.
  assert (Eu : prefix_len lead path = length path).
  { apply (f_equal (@length Z)) in Hr. rewrite length_skipn in Hr. cbn in Hr. lia. }
  assert (Ei : do_get_path_info lead path = mk_info (find_prefix lead path) None None None (length path)).
  { unfold do_get_path_info. fold (prefix_len lead path). change (match find_prefix lead path with Some n => n | None => 0%nat end) with (prefix_len lead path).
    rewrite Hr, Eu. reflexivity. }
  unfold dirname, basename. rewrite Ei. unfold upath_of. cbn [prefix_end base_sep_begin base_sep_end term_sep_begin path_end].
  change (match find_prefix lead path with Some n => n | None => 0%nat end) with (prefix_len lead path). rewrite Eu.
  rewrite (char_at_skipn (length path)), skipn_all. rewrite Nat.eqb_refl, firstn_all.
  destruct path as [|c0 p]; [contradiction|]. unfold top_of. cbn [char_at nth negb length Nat.eqb]. change (is_dir_sep 0) with false.
  cbn [Z.eqb]. destruct (is_dir_sep c0) eqn:E; cbn [negb andb]; [rewrite same_sep by exact E|]; split; reflexivity.
Qed.

(** [dirname] and [basename] split a path where it should be. The path is
    a drive or share (possibly none) and a rest; when the rest is not empty,
    for some way to see it as directory, separators, name and separators (or
    only a name, or only separators), [dirname] returns the drive or share and
    the directory (or the top), and [basename] the name. Alone, a drive is the
    directory "." of itself and a share its own root. *)
Theorem dirname_basename lead path :
  path <> [] -> Forall (fun c => c <> 0) path -> single lead path ->
  let u := prefix_len lead path in
  let rest := skipn u path in
  if match rest with [] => true | _ => false end
  then dirname lead true path = path ++ [top_of path []]
       /\ basename lead path = [if is_dir_sep (char_at 0 path) then BSLASH else chr "."]
  else exists D B, split (top_of path rest) rest D B
       /\ (forall ok, dirname lead ok path = firstn u path ++ D) /\ basename lead path = B.
Proof.
  intros Hne H0 Hl u rest. destruct rest as [|c r] eqn:Er.
  - apply (dirname_basename_prefix lead path Hne Hl Er).
  - destruct (split_total (top_of path (c :: r)) (c :: r)) as (D & B & Hs); [discriminate|].
    exists D, B. split; [exact Hs|]. rewrite <- Er in Hs.
    split; [intros ok|]; eapply dirname_basename_split; eauto; fold u rest; rewrite Er; discriminate.
Qed.

Lemma dirname_basename_witness :
  let path := bytes_of "C:\home\\dwc\"%string in
  dirname (fun _ => false) true path = bytes_of "C:\home"%string /\ basename (fun _ => false) path = bytes_of "dwc"%string
  /\ exists D B, split BSLASH (bytes_of "\home\\dwc\"%string) D B /\ (forall ok, dirname (fun _ => false) ok path = bytes_of "C:"%string ++ D)
       /\ basename (fun _ => false) path = B.
Proof.
  split; [reflexivity|]. split; [reflexivity|].
  apply (dirname_basename (fun _ => false) (bytes_of "C:\home\\dwc\"%string));
    [discriminate|repeat constructor; discriminate|repeat constructor].
Defined.

End Path.
