(* ===== verification/Spawn.v ===== *)
(** * Starting a program on Windows

    [win32/process.c]: quoting of arguments, scripts with an interpreter line,
    the search for the file to run and the arguments it is given; with
    [find_executable] of [libbb/executable.c] and the extensions of
    [win32/mingw.c]. The file system is a parameter: what [stat] says of a path
    and what the first bytes of a file are. The theorems: the quoted arguments,
    joined by spaces, are what the rules of the C runtime split again into the
    arguments; quoting stays inside the memory it allocates; the search takes
    the first executable of the path; and chains of interpreters end. *)

From Stdlib Require Import Ascii String ZArith List Lia Bool.
From S2P Require Import Prelude Ctype Words Mem WinPath.
Import ListNotations.
Local Open Scope Z_scope.
Local Open Scope res_scope.

Module Spawn.
Import Path.

(** ** Quoting *)

Definition DQ : Z := 34.
Definition TAB : Z := 9.
Definition NL : Z := 10.
Definition CR : Z := 13.

(** The C string in a buffer. *)
Fixpoint c_string (buf : list Z) : list Z :=
  match buf with
  | [] => []
  | c :: buf => if c =? 0 then [] else c :: c_string buf
  end.

(** The errors with which a call returns -1. *)
Inductive errno := EACCES | ENOENT | ELOOP | STAT_FAILED.
Definition result (A : Type) := res errno A.

(** [d -= n] for a pointer into a buffer. *)
Definition move_back (d n : nat) : result nat := if (n <=? d)%nat then Ok (d - n)%nat else Fault.

(** The loop of [quote_arg]: the buffer [r], the position [d], [nbs] and
    [quoted]. *)
Fixpoint quote_loop (arg : list Z) (r : list Z) (d nbs : nat) (quoted : bool)
  : result (list Z * nat * nat * bool) :=
  match arg with
  | [] => Ok (r, d, nbs, quoted)
  | c :: arg =>
      let quoted := (c =? chr " ") || (c =? TAB) || quoted in
      let! (r, d) :=
        (if (c =? BSLASH) || (c =? DQ)
         then let! r := store r d [BSLASH] in Ok (r, S d)
         else let! d := move_back d nbs in Ok (r, d)) in
      let nbs := if c =? BSLASH then S nbs else 0%nat in
      let! r := store r d [c] in
      quote_loop arg r (S d) nbs quoted
  end.

Section Quote.
(** What memory from [xmalloc] holds. *)
Variable fresh : nat -> list Z.

Definition quote_arg (arg : list Z) : result (list Z) :=
  let r := fresh (2 * length arg + 3)%nat in
  let! (r, d, nbs, quoted) := quote_loop arg r 0 0 (match arg with [] => true | _ => false end) in
  let! (r, d) :=
    (if quoted : bool then
       let! text := load r 0 d in
       let! r := store r 1 text in
       let d := S d in
       let! r := store r d [DQ] in
       let! r := store r 0 [DQ] in
       Ok (r, S d)
     else let! d := move_back d nbs in Ok (r, d)) in
  let! r := store r d [0] in
  Ok (c_string r).

(** [quote_arg_msys2]: the loop that counts, and the loop that copies. *)
Fixpoint msys2_scan (arg : list Z) (escapes : nat) (has_white_space : bool) : nat * bool :=
  match arg with
  | [] => (escapes, has_white_space)
  | c :: arg =>
      if isspace c then msys2_scan arg escapes true
      else if (c =? DQ) || (c =? BSLASH) then msys2_scan arg (S escapes) has_white_space
      else msys2_scan arg escapes has_white_space
  end.

Fixpoint msys2_copy (arg : list Z) (r : list Z) (q : nat) : result (list Z * nat) :=
  match arg with
  | [] => Ok (r, q)
  | c :: arg =>
      let! (r, q) :=
        (if (c =? DQ) || (c =? BSLASH) then let! r := store r q [BSLASH] in Ok (r, S q) else Ok (r, q)) in
      let! r := store r q [c] in
      msys2_copy arg r (S q)
  end.

Definition quote_arg_msys2 (arg : list Z) : result (list Z) :=
  let '(escapes, has_white_space) := msys2_scan arg 0 false in
  if (escapes =? 0)%nat && negb has_white_space && negb (match arg with [] => true | _ => false end) then Ok arg
  else
    let r := fresh (length arg + escapes + 3)%nat in
    let! r := store r 0 [DQ] in
    let! (r, q) := msys2_copy arg r 1 in
    let! r := store r q [DQ] in
    let! r := store r (S q) [0] in
    Ok (c_string r).
End Quote.

(** ** The kind of a program *)

Definition is_slash (c : Z) : bool := (c =? SLASH) || (c =? BSLASH).

(** The loop of [is_msys2_cmd]: [len] after it; it starts at [n]. *)
Fixpoint last_slash (cmd : list Z) (n : nat) : Z :=
  match n with
  | O => -1
  | S n => if is_slash (char_at n cmd) then Z.of_nat n else last_slash cmd n
  end.

(** [_strnicmp] of [length key] characters at [pos]. *)
Definition strnicmp_at (cmd : list Z) (pos : Z) (key : string) : bool :=
  strcaseeq (firstn (length (bytes_of key)) (skipn (Z.to_nat pos) cmd)) (bytes_of key).

Definition is_msys2_cmd (cmd : list Z) : bool :=
  if (length cmd <? 9)%nat then false
  else
    let len := last_slash cmd (length cmd) in
    (7 <? len) && is_slash (char_at (Z.to_nat (len - 8)) cmd) && is_slash (char_at (Z.to_nat (len - 4)) cmd)
    && strnicmp_at cmd (len - 7) "usr" && strnicmp_at cmd (len - 3) "bin".

Definition is_cmd_exe (cmd : list Z) : bool :=
  let len := Z.of_nat (length cmd) in
  let len := if (4 <? len) && strnicmp_at cmd (len - 4) ".exe" then len - 4 else len in
  (4 <? len) && is_slash (char_at (Z.to_nat (len - 4)) cmd) && strnicmp_at cmd (len - 3) "cmd".

(** ** Files *)

(** What [stat] says: whether the file is regular, whether it is executable,
    its size. *)
Record file_stat := mk_stat { is_reg : bool; is_exec : bool; st_size : Z }.

Section Files.
Variable stat : list Z -> option file_stat.

Definition file_is_executable (name : list Z) : bool :=
  match stat name with Some s => is_reg s && is_exec s | None => false end.

(** [add_win32_extension]: the new contents of [p], if it is executable. *)
Definition add_win32_extension (p : list Z) : option (list Z) :=
  if file_is_executable p then Some p
  else if has_exe_suffix_or_dot p then None
  else find file_is_executable (map (fun s => p ++ chr "." :: s) win_suffix).

Definition file_is_win32_exe (name : list Z) : option (list Z) := add_win32_extension name.

Definition PATH_SEP : Z := chr ";".

(** [strchrnul (p, PATH_SEP)]: the text before it and the text after it. *)
Fixpoint path_component (p : list Z) : list Z * option (list Z) :=
  match p with
  | [] => ([], None)
  | c :: p =>
      if c =? PATH_SEP then ([], Some p)
      else let '(a, r) := path_component p in (c :: a, r)
  end.

(** The name tried for a component of the path. *)
Definition try_name (component name : list Z) : list Z :=
  match component with
  | [] => name
  | _ =>
      let dir := if is_dir_sep (last component 0) then removelast component else component in
      dir ++ SLASH :: name
  end.

(** The file found and the rest of the path; [None] is a null pointer. *)
Fixpoint find_executable_loop (fuel : nat) (name p : list Z)
  : result (option (list Z * option (list Z))) :=
  match fuel with
  | O => Diverge
  | S fuel =>
      let '(component, rest) := path_component p in
      match file_is_win32_exe (try_name component name) with
      | Some w => Ok (Some (w, rest))
      | None =>
          match rest with
          | None => Ok None
          | Some p => find_executable_loop fuel name p
          end
      end
  end.

Definition find_executable (name : list Z) (PATHp : option (list Z))
  : result (option (list Z * option (list Z))) :=
  match PATHp with
  | None => Ok None
  | Some p => find_executable_loop (S (length p)) name p
  end.

Definition find_first_executable (PATH : option (list Z)) (name : list Z) : result (option (list Z)) :=
  let! r := find_executable name PATH in
  Ok (option_map fst r).
End Files.

(** ** The interpreter of a script *)

(** The loops of [strspn] and [strcspn], on which [strtok] rests. *)
Fixpoint skip_in (delims s : list Z) : list Z :=
  match s with
  | [] => []
  | c :: s' => if existsb (Z.eqb c) delims then skip_in delims s' else s
  end.
Fixpoint take_until (delims s : list Z) : list Z * list Z :=
  match s with
  | [] => ([], [])
  | c :: s =>
      if existsb (Z.eqb c) delims then ([], s)
      else let '(a, r) := take_until delims s in (c :: a, r)
  end.

(** [strtok]: the token and where the next call goes on. *)
Definition strtok (delims s : list Z) : option (list Z) * list Z :=
  match skip_in delims s with
  | [] => (None, [])
  | s => let '(tok, rest) := take_until delims s in (Some tok, rest)
  end.

(** [trim]: the loop on the trailing white space, then the leading one. *)
Fixpoint trim_len (s : list Z) (len : nat) : nat :=
  match len with
  | O => O
  | S n => if isspace (char_at n s) then trim_len s n else len
  end.
Definition trim (s : list Z) : list Z :=
  let len := trim_len s (length s) in
  if (len =? 0)%nat then []
  else
    let nws := skip_whitespace s in
    firstn (len - (length s - length nws)) nws.

(** [strchr] for the end of the line: the text before it. *)
Fixpoint before_char (c : Z) (s : list Z) : option (list Z) :=
  match s with
  | [] => None
  | x :: s => if x =? c then Some [] else option_map (cons x) (before_char c s)
  end.

Record interp_t := mk_interp { ip_path : list Z; ip_name : list Z; ip_opts : option (list Z) }.

(** The size of [interp->buf]. *)
Definition interp_buf_size : nat := 100.

Definition DEFAULT_SHELL : list Z := bytes_of "/bin/sh".
Definition DEFAULT_SHELL_SHORT_NAME : list Z := bytes_of "sh".

(** [is_suffixed_with_case] *)
Definition is_suffixed_with_case (s key : list Z) : bool :=
  (length key <=? length s)%nat && strcaseeq (skipn (length s - length key) s) key.

(** The body of the loop: the interpreter named in the first line. *)
Definition interpreter_line (content : list Z) : option interp_t :=
  let n := length content in
  if (n <? 4)%nat then None
  else if negb (char_at 0 content =? chr "#") || negb (char_at 1 content =? chr "!") then None
  else
    match before_char NL (c_string content) with
    | None => None
    | Some line =>
        match strtok [chr " "; TAB; CR; NL] (skipn 2 (line ++ [NL])) with
        | (None, _) => None
        | (Some path, rest) =>
            let t := bb_basename path in
            match t with
            | [] => None
            | _ =>
                let opts :=
                  match fst (strtok [CR; NL] rest) with
                  | None => None
                  | Some o => match trim o with [] => None | o => Some o end
                  end in
                Some (mk_interp path t opts)
            end
        end
    end.

(** [read100]: the first bytes of a file, at most one less than the buffer;
    [None] when it cannot be read. *)
Definition parse_interpreter (read100 : list Z -> option (list Z)) (cmd : list Z) : option interp_t :=
  match read100 cmd with
  | None => None
  | Some content =>
      match interpreter_line (firstn (interp_buf_size - 1) content) with
      | Some i => Some i
      | None =>
          if is_suffixed_with_case cmd (bytes_of ".sh")
          then Some (mk_interp DEFAULT_SHELL DEFAULT_SHELL_SHORT_NAME None)
          else None
      end
  end.

(** ** Starting it *)

(** What is started: [mingw_spawnve] is called with a path and arguments, or
    an empty batch file is taken to have run. *)
Inductive started := Spawnve (path : list Z) (argv : list (list Z)) | Empty_batch.

(** The system: memory, files, the applets that are compiled in, [PATH], the
    path of the program itself, the lead bytes of characters. *)
Record system := mk_system {
  fresh : nat -> list Z;
  stat : list Z -> option file_stat;
  read100 : list Z -> option (list Z);
  is_applet : list Z -> bool;
  prefer_applets : bool;
  PATH : option (list Z);
  bb_busybox_exec_path : list Z;
  lead : Z -> bool
}.

Section Start.
Variable sys : system.

Fixpoint quote_all (qa : list Z -> result (list Z)) (argv : list (list Z)) : result (list (list Z)) :=
  match argv with
  | [] => Ok []
  | a :: argv => let! q := qa a in let! qs := quote_all qa argv in Ok (q :: qs)
  end.

(** The arguments after the first, where "//c" becomes "/c" for [cmd.exe]. *)
Definition new_arguments (path : list Z) (argv : list (list Z)) : result (list (list Z)) :=
  let qa := if is_msys2_cmd path then quote_arg_msys2 (fresh sys) else quote_arg (fresh sys) in
  match argv with
  | a0 :: a1 :: argv =>
      if str_eqb a1 (bytes_of "//c") && is_cmd_exe path then
        let! q0 := qa a0 in let! qs := quote_all qa argv in Ok (q0 :: bytes_of "/c" :: qs)
      else quote_all qa (a0 :: a1 :: argv)
  | _ => quote_all qa argv
  end.

Definition spawnveq (path : list Z) (argv : list (list Z)) : result started :=
  match stat sys path with
  | None => Die STAT_FAILED
  | Some st =>
      if negb (is_reg st) || negb (is_exec st) then Die EACCES
      else
        let! new_argv := new_arguments path argv in
        let! new_argv :=
          (if has_bat_suffix path then
             match new_argv with a0 :: t => Ok (slash_to_bs a0 :: t) | [] => Fault end
           else Ok new_argv) in
        if has_bat_suffix path && (st_size st =? 0) then Ok Empty_batch
        else
          let new_path := if existsb (Z.eqb (chr ".")) (bb_basename path) then path else path ++ [chr "."] in
          Ok (Spawnve new_path new_argv)
  end.

(** [level] counts the interpreters so far. *)
Fixpoint mingw_spawn_interpreter (fuel : nat) (prog : list Z) (argv : list (list Z)) (level : Z) : result started :=
  match fuel with
  | O => Diverge
  | S fuel =>
      match parse_interpreter (read100 sys) prog with
      | None => spawnveq prog argv
      | Some interp =>
          let level := level + 1 in
          if 4 <? level then Die ELOOP
          else
            match argv with
            | [] => Fault
            | _ :: args =>
                let opts := match ip_opts interp with Some o => [o] | None => [] end in
                let rest := opts ++ prog :: args in
                let is_unix_path := unix_path (lead sys) true (ip_path interp) in
                if prefer_applets sys && (is_unix_path && is_applet sys (ip_name interp)) then
                  let fake := (chr "0" + (Z.of_nat (length opts) + 1)) :: chr ":" :: SLASH :: ip_name interp in
                  spawnveq (bb_busybox_exec_path sys) (fake :: rest)
                else
                  let! path :=
                    match file_is_win32_exe (stat sys) (ip_path interp) with
                    | Some p => Ok (Some p)
                    | None => if is_unix_path then find_first_executable (stat sys) (PATH sys) (ip_name interp) else Ok None
                    end in
                  match path with
                  | Some path => mingw_spawn_interpreter fuel path (path :: rest) level
                  | None => Die ENOENT
                  end
            end
      end
  end.

(** Four interpreters, and the program. *)
Definition spawn_fuel : nat := 5.

Definition mingw_spawnvp (cmd : list Z) (argv : list (list Z)) : result started :=
  if prefer_applets sys && ((negb (has_path cmd) || unix_path (lead sys) true cmd) && is_applet sys (bb_basename cmd))
  then spawnveq (bb_busybox_exec_path sys) argv
  else
    match (if has_path cmd then file_is_win32_exe (stat sys) cmd else None) with
    | Some path => mingw_spawn_interpreter spawn_fuel path argv 0
    | None =>
        let cmd := if has_path cmd && unix_path (lead sys) true cmd then bb_basename cmd else cmd in
        if has_path cmd then Die ENOENT
        else
          let! path := find_first_executable (stat sys) (PATH sys) cmd in
          match path with
          | Some path => mingw_spawn_interpreter spawn_fuel path argv 0
          | None => Die ENOENT
          end
    end.
End Start.


(** ** The rules of the C runtime

    The page the comment of [quote_arg] cites ("Parsing C++ command-line
    arguments"): arguments are separated by spaces and tabs outside double
    quotes; [2n] backslashes before a double quote are [n] backslashes and the
    quote starts or ends a quoted part; [2n+1] are [n] backslashes and a
    literal quote; other backslashes are literal. Inside a quoted part the newer
    runtimes ([newer]) take two double quotes for a literal one. *)

Definition is_blank (c : Z) : bool := (c =? chr " ") || (c =? TAB).

Section Runtime.
Variable newer : bool.

(** One argument: its text so far, [nbs] backslashes not yet decided; the
    argument and the rest of the line. *)
Fixpoint crt_arg (s : list Z) (in_quotes : bool) (nbs : nat) (acc : list Z) : list Z * list Z :=
  match s with
  | [] => (acc ++ repeat BSLASH nbs, [])
  | c :: s' =>
      if c =? BSLASH then crt_arg s' in_quotes (S nbs) acc
      else if c =? DQ then
        let acc := acc ++ repeat BSLASH (nbs / 2) in
        if Nat.odd nbs then crt_arg s' in_quotes 0 (acc ++ [DQ])
        else
          match s' with
          | c' :: s'' =>
              if newer && in_quotes && (c' =? DQ) then crt_arg s'' in_quotes 0 (acc ++ [DQ])
              else crt_arg s' (negb in_quotes) 0 acc
          | [] => (acc, [])
          end
      else if negb in_quotes && is_blank c then (acc ++ repeat BSLASH nbs, s)
      else crt_arg s' in_quotes 0 (acc ++ repeat BSLASH nbs ++ [c])
  end.

Fixpoint crt_split (fuel : nat) (s : list Z) : list (list Z) :=
  match fuel with
  | O => []
  | S fuel =>
      match skip_in [chr " "; TAB] s with
      | [] => []
      | s => let '(a, rest) := crt_arg s false 0 [] in a :: crt_split fuel rest
      end
  end.
Definition crt_args (s : list Z) : list (list Z) := crt_split (S (length s)) s.
End Runtime.

(** The command line: the arguments joined by spaces. *)
Fixpoint join (args : list (list Z)) : list Z :=
  match args with
  | [] => []
  | [a] => a
  | a :: args => a ++ chr " " :: join args
  end.

(** ** What quoting writes *)

(** The text for [s] after [n] backslashes, without the backslashes at its
    end, and their number. *)
Fixpoint esc_open (n : nat) (s : list Z) : list Z * nat :=
  match s with
  | [] => ([], n)
  | c :: s =>
      if c =? BSLASH then esc_open (S n) s
      else
        let '(t, m) := esc_open 0 s in
        (repeat BSLASH (if c =? DQ then S (2 * n) else n) ++ c :: t, m)
  end.

Definition quoted_form (arg : list Z) : list Z :=
  let '(t, m) := esc_open 0 arg in
  if match arg with [] => true | _ => false end || existsb is_blank arg
  then DQ :: t ++ repeat BSLASH (2 * m) ++ [DQ] else t ++ repeat BSLASH m.

Lemma repeat_snoc (A : Type) (x : A) n : repeat x n ++ [x] = x :: repeat x n.
Proof. induction n as [|n IH]; [reflexivity|]. cbn. rewrite IH. reflexivity. Qed.

Lemma repeat_snoc_S (A : Type) (x : A) n : repeat x n ++ [x] = repeat x (S n).
Proof. apply repeat_snoc. Qed.

Definition wrote (r : list Z) (d : nat) (text : list Z) : Prop := length text = d /\ firstn d r = text.

Lemma put r d text c :
  wrote r d text -> (d < length r)%nat ->
  exists r', (forall E, store (E := E) r d [c] = Ok r') /\ length r' = length r /\ wrote r' (S d) (text ++ [c]).
Proof.
  intros [L E] H. exists (blit r d [c]). split; [intros; apply store_ok; cbn; lia|]. split; [apply length_blit; cbn; lia|].
  split; [rewrite length_app; cbn; lia|]. pose proof (firstn_blit r d [c]) as Hf. cbn [length] in Hf.
  replace (d + 1)%nat with (S d) in Hf by lia. rewrite Hf by lia. rewrite E. reflexivity.
Qed.

Lemma wrote_back r d text tail : wrote r d (text ++ tail) -> wrote r (d - length tail) text.
Proof.
  intros [L E]. rewrite length_app in L. split; [lia|].
  apply (f_equal (firstn (d - length tail))) in E. rewrite firstn_firstn, Nat.min_l in E by lia. rewrite E.
  replace (d - length tail)%nat with (length text) by lia. rewrite firstn_app, firstn_all, Nat.sub_diag, firstn_O. apply app_nil_r.
Qed.

Lemma move_back_ok d n : (n <= d)%nat -> move_back d n = Ok (d - n)%nat.
Proof. intros H. unfold move_back. destruct (Nat.leb_spec n d); [reflexivity|lia]. Qed.

Lemma quote_loop_ok s r d nbs q acc t m :
  wrote r d (acc ++ repeat BSLASH (2 * nbs)) -> (d + 2 * length s < length r)%nat -> esc_open nbs s = (t, m) ->
  exists r' d', quote_loop s r d nbs q = Ok (r', d', m, q || existsb is_blank s) /\ length r' = length r
    /\ wrote r' d' (acc ++ t ++ repeat BSLASH (2 * m)) /\ (d' <= d + 2 * length s)%nat.
Proof.
  revert r d nbs q acc t m; induction s as [|c s IH]; intros r d nbs q acc t m Hw Hr E.
  - injection E as <- <-. exists r, d. cbn [quote_loop existsb length app]. rewrite orb_false_r. repeat split; [apply Hw|apply Hw|lia].
  - cbn [quote_loop esc_open length existsb] in *. assert (Lw := proj1 Hw). rewrite length_app, repeat_length in Lw.
    replace (q || (is_blank c || existsb is_blank s)) with ((is_blank c || q) || existsb is_blank s)
      by (destruct q, (is_blank c), (existsb is_blank s); reflexivity).
    change (is_blank c || q) with ((c =? chr " ") || (c =? TAB) || q).
    set (q' := (c =? chr " ") || (c =? TAB) || q). clearbody q'. destruct (Z.eqb_spec c BSLASH) as [->|Hbs].
    + cbn [orb]. destruct (put r d _ BSLASH Hw ltac:(lia)) as (r1 & -> & L1 & W1). cbn [rbind].
      destruct (put r1 (S d) _ BSLASH W1 ltac:(lia)) as (r2 & -> & L2 & W2). cbn [rbind].
      edestruct (IH r2 (S (S d)) (S nbs) q' acc) as (r' & d' & -> & L' & W' & Hd'); [|lia|exact E|].
      * replace (2 * S nbs)%nat with (S (S (2 * nbs))) by lia. rewrite <- !repeat_snoc_S, !app_assoc. exact W2.
      * exists r', d'. repeat split; try apply W'; lia.
    + cbn [orb]. destruct (esc_open 0 s) as [t' m'] eqn:E'. injection E as <- <-. destruct (Z.eqb_spec c DQ) as [->|Hdq].
      * destruct (put r d _ BSLASH Hw ltac:(lia)) as (r1 & -> & L1 & W1). cbn [rbind].
        destruct (put r1 (S d) _ DQ W1 ltac:(lia)) as (r2 & -> & L2 & W2). cbn [rbind].
        edestruct (IH r2 (S (S d)) 0%nat q' (acc ++ repeat BSLASH (S (2 * nbs)) ++ [DQ])) as (r' & d' & -> & L' & W' & Hd'); [|lia|exact E'|].
        -- rewrite app_nil_r, <- repeat_snoc_S, !app_assoc. exact W2.
        -- exists r', d'. rewrite <- !app_assoc in *. repeat split; try apply W'; lia.
      * rewrite move_back_ok by lia. cbn [rbind]. replace (2 * nbs)%nat with (nbs + nbs)%nat in Hw by lia.
        rewrite repeat_app, app_assoc in Hw. apply wrote_back in Hw. rewrite repeat_length in Hw.
        destruct (put r (d - nbs) _ c Hw ltac:(lia)) as (r1 & -> & L1 & W1). cbn [rbind].
        edestruct (IH r1 (S (d - nbs)) 0%nat q' (acc ++ repeat BSLASH nbs ++ [c])) as (r' & d' & -> & L' & W' & Hd'); [|lia|exact E'|].
        -- rewrite app_nil_r, app_assoc. exact W1.
        -- exists r', d'. rewrite <- !app_assoc in *. repeat split; try apply W'; lia.
Qed.

Lemma c_string_cut q rest : c_string (q ++ 0 :: rest) = c_string (q ++ [0]).
Proof. induction q as [|c q IH]; [reflexivity|]. cbn. rewrite IH. reflexivity. Qed.

Lemma c_string_app q : Forall (fun c => c <> 0) q -> c_string (q ++ [0]) = q.
Proof. induction 1 as [|c q Hc Hq IH]; [reflexivity|]. cbn. destruct (Z.eqb_spec c 0); [contradiction|]. rewrite IH. reflexivity. Qed.

(** A buffer that ends in a NUL written after a text. *)
Lemma terminated r d text E :
  wrote r d text -> (d < length r)%nat ->
  (let! r := store (E := E) r d [0] in Ok (c_string r)) = Ok (c_string (text ++ [0])).
Proof.
  intros Hw Hd. destruct (put r d text 0 Hw Hd) as (r' & -> & L & W & F). cbn [rbind].
  rewrite <- (firstn_skipn (S d) r'), F, <- app_assoc. cbn [app]. rewrite c_string_cut. reflexivity.
Qed.

Lemma nonzero_repeat c n : c <> 0 -> Forall (fun x => x <> 0) (repeat c n).
Proof. intros H. induction n; constructor; auto. Qed.

Lemma esc_open_nonzero n s t m : Forall (fun c => c <> 0) s -> esc_open n s = (t, m) -> Forall (fun c => c <> 0) t.
Proof.
  intros H. revert n t m; induction H as [|c s Hc Hs IH]; intros n t m E; cbn [esc_open] in E; [injection E as <- <-; constructor|].
  destruct (c =? BSLASH); [eauto|]. destruct (esc_open 0 s) as [t' m'] eqn:E'. injection E as <- <-.
  apply Forall_app. split; [apply nonzero_repeat; discriminate|]. constructor; [exact Hc|eauto].
Qed.

Section QuoteSpec.
Variable fresh : nat -> list Z.
Hypothesis fresh_len : forall n, length (fresh n) = n.

Lemma quote_arg_any arg : quote_arg fresh arg = Ok (c_string (quoted_form arg ++ [0])).
Proof.
  unfold quote_arg, quoted_form. destruct (esc_open 0 arg) as [t m] eqn:E.
  destruct (quote_loop_ok arg (fresh (2 * length arg + 3)) 0 0 (match arg with [] => true | _ => false end) [] t m)
    as (r & d & -> & L & W & Hd); [split; reflexivity|rewrite fresh_len; lia|exact E|].
  rewrite fresh_len in L. cbn [rbind app] in *. destruct (_ || existsb is_blank arg).
  - rewrite load_ok by lia. cbn [rbind]. assert (Ls : length (slice 0 d r) = d) by (rewrite length_slice; lia).
    rewrite store_ok by lia. cbn [rbind]. set (r1 := blit r 1 (slice 0 d r)).
    assert (L1 : length r1 = length r) by (apply length_blit; lia).
    assert (W1 : wrote r1 (S d) (char_at 0 r1 :: t ++ repeat BSLASH (2 * m))).
    { destruct W as [Lt Ft]. split; [cbn [length]; rewrite Lt; reflexivity|]. rewrite <- Ft. destruct r1 as [|x r2] eqn:Er; [cbn in L1; lia|].
      cbn [firstn char_at nth]. f_equal. apply (f_equal (fun l => slice 1 d l)) in Er. unfold r1 in Er.
      rewrite slice_blit_same in Er by lia. unfold slice in Er. cbn [skipn] in Er. symmetry. exact Er. }
    destruct (put r1 (S d) _ DQ W1 ltac:(lia)) as (r2 & -> & L2 & W2). cbn [rbind].
    rewrite store_ok by (cbn; lia). cbn [rbind]. rewrite terminated with (text := DQ :: t ++ repeat BSLASH (2 * m) ++ [DQ]); [reflexivity| |].
    + destruct W2 as [Lw Fw]. split; [rewrite <- Lw; cbn [length app]; rewrite !length_app; cbn [length]; lia|]. destruct r2 as [|x r2]; [discriminate|].
      cbn [app firstn] in Fw. injection Fw as _ Fw. unfold blit. cbn [firstn app length skipn Nat.add]. rewrite Fw, <- !app_assoc. reflexivity.
    + rewrite length_blit by (cbn; lia). lia.
  - assert (Lw := proj1 W). rewrite length_app, repeat_length in Lw.
    replace (2 * m)%nat with (m + m)%nat in W by lia. rewrite repeat_app, app_assoc in W. apply wrote_back in W. rewrite repeat_length in W.
    rewrite move_back_ok by lia. cbn [rbind]. rewrite terminated with (text := t ++ repeat BSLASH m); [reflexivity|exact W|lia].
Qed.

Lemma quoted_form_nonzero arg : Forall (fun c => c <> 0) arg -> Forall (fun c => c <> 0) (quoted_form arg).
Proof.
  intros Hnz. unfold quoted_form. destruct (esc_open 0 arg) as [t m] eqn:E.
  pose proof (esc_open_nonzero 0 arg t m Hnz E) as Nt. assert (Nb := fun n => nonzero_repeat BSLASH n ltac:(discriminate)).
  destruct (_ || _); [constructor; [discriminate|]|]; apply Forall_app; split; auto. apply Forall_app. split; [auto|]. repeat constructor. discriminate.
Qed.

Lemma quote_arg_form arg : Forall (fun c => c <> 0) arg -> quote_arg fresh arg = Ok (quoted_form arg).
Proof. intros H. rewrite quote_arg_any, c_string_app by (apply quoted_form_nonzero, H). reflexivity. Qed.

Lemma quote_all_form args :
  Forall (Forall (fun c => c <> 0)) args -> quote_all (quote_arg fresh) args = Ok (map quoted_form args).
Proof. induction 1 as [|a args Ha Hs IH]; [reflexivity|]. cbn. rewrite quote_arg_form, IH by exact Ha. reflexivity. Qed.
End QuoteSpec.

(** ** The runtime splits it again *)

Section Split.
Variable newer : bool.

Lemma crt_backslashes n s in_quotes k acc :
  crt_arg newer (repeat BSLASH n ++ s) in_quotes k acc = crt_arg newer s in_quotes (k + n) acc.
Proof.
  revert k; induction n as [|n IH]; intros k; [cbn; now rewrite Nat.add_0_r|].
  cbn [repeat app crt_arg]. rewrite Z.eqb_refl, IH. f_equal. lia.
Qed.

(** The text of an argument up to the backslashes at its end. *)
Lemma crt_body s n in_quotes acc t m Y :
  (in_quotes = true \/ existsb is_blank s = false) -> esc_open n s = (t, m) ->
  exists u, repeat BSLASH n ++ s = u ++ repeat BSLASH m
    /\ crt_arg newer (t ++ Y) in_quotes 0 acc = crt_arg newer Y in_quotes 0 (acc ++ u).
Proof.
  revert n acc t m; induction s as [|c s IH]; intros n acc t m Hb E; cbn [esc_open] in E.
  - injection E as <- <-. exists []. rewrite !app_nil_r. auto.
  - assert (Hb' : in_quotes = true \/ existsb is_blank s = false).
    { destruct Hb as [Hb|Hb]; [auto|]. cbn in Hb. apply orb_false_iff in Hb. tauto. }
    destruct (Z.eqb_spec c BSLASH) as [->|Hbs].
    + destruct (IH (S n) acc t m Hb' E) as (u & Eu & Ec). exists u. split; [|exact Ec]. rewrite <- Eu. cbn [repeat app].
      change (BSLASH :: s) with ([BSLASH] ++ s). rewrite app_assoc, repeat_snoc. reflexivity.
    + destruct (esc_open 0 s) as [t' m'] eqn:E'. injection E as <- <-.
      destruct (IH 0%nat (acc ++ repeat BSLASH n ++ [c]) t' m' Hb' E') as (u & Eu & Ec). cbn [repeat app] in Eu.
      exists (repeat BSLASH n ++ c :: u). split; [rewrite Eu, <- app_assoc; reflexivity|].
      rewrite <- app_assoc, crt_backslashes. cbn [app crt_arg Nat.add]. apply Z.eqb_neq in Hbs. rewrite Hbs.
      replace (acc ++ repeat BSLASH n ++ c :: u) with ((acc ++ repeat BSLASH n ++ [c]) ++ u) by (rewrite <- !app_assoc; reflexivity).
      destruct (Z.eqb_spec c DQ) as [->|Hdq].
      * change (n + (n + 0))%nat with (2 * n)%nat. replace (S (2 * n) / 2)%nat with n by (rewrite <- (Nat.div2_div (S (2 * n))), Nat.div2_succ_double; reflexivity).
        replace (Nat.odd (S (2 * n))) with true by (symmetry; rewrite Nat.odd_succ; apply Nat.even_mul). rewrite <- app_assoc. exact Ec.
      * replace (negb in_quotes && is_blank c) with false; [exact Ec|]. symmetry.
        destruct Hb as [->|Hb]; [reflexivity|]. cbn in Hb. apply orb_false_iff in Hb as [-> _]. apply andb_false_r.
Qed.

(** What follows an argument on the line. *)
Definition at_end (rest : list Z) : Prop := match rest with [] => True | c :: _ => is_blank c = true end.

Lemma blank_plain c : is_blank c = true -> (c =? BSLASH) = false /\ (c =? DQ) = false.
Proof. unfold is_blank. intros H. apply orb_true_iff in H. rewrite !Z.eqb_eq in H. destruct H as [-> | ->]; split; reflexivity. Qed.

Lemma crt_stops rest n acc : at_end rest -> crt_arg newer rest false n acc = (acc ++ repeat BSLASH n, rest).
Proof.
  destruct rest as [|c rest]; intros H; [reflexivity|]. cbn in H. destruct (blank_plain c H) as [H1 H2].
  cbn [crt_arg]. rewrite H1, H2, H. reflexivity.
Qed.

Lemma crt_quoted arg rest : at_end rest -> crt_arg newer (quoted_form arg ++ rest) false 0 [] = (arg, rest).
Proof.
  intros Hr. unfold quoted_form. destruct (esc_open 0 arg) as [t m] eqn:E.
  destruct (_ || existsb is_blank arg) eqn:Eq.
  - cbn [app crt_arg Z.eqb]. change (DQ =? BSLASH) with false. change (DQ =? DQ) with true. cbn [Nat.div repeat app Nat.odd negb].
    set (line := (t ++ repeat BSLASH (2 * m) ++ [DQ]) ++ rest).
    destruct (crt_body arg 0 true [] t m (repeat BSLASH (2 * m) ++ DQ :: rest) (or_introl eq_refl) E) as (u & Eu & Ec).
    assert (El : crt_arg newer line true 0 [] = (arg, rest)).
    { unfold line. rewrite <- !app_assoc. change ([DQ] ++ rest) with (DQ :: rest). rewrite Ec, crt_backslashes. cbn [app crt_arg Nat.add]. change (DQ =? BSLASH) with false.
      change (DQ =? DQ) with true. rewrite (Nat.mul_comm 2 m), Nat.div_mul, <- Eu by lia. cbn [repeat app].
      replace (Nat.odd (m * 2)) with false by (rewrite Nat.mul_comm; symmetry; apply Nat.odd_mul).
      destruct rest as [|c rest]; [reflexivity|]. cbn in Hr. destruct (blank_plain c Hr) as [H1 H2]. rewrite H2, andb_false_r.
      cbn [negb]. rewrite crt_stops by exact Hr. rewrite app_nil_r. reflexivity. }
    destruct line as [|c' line'] eqn:Eline; [|rewrite andb_false_r; exact El].
    apply (f_equal (@length Z)) in Eline. unfold line in Eline. rewrite !length_app in Eline. cbn in Eline. lia.
  - apply orb_false_iff in Eq as [_ Hb]. destruct (crt_body arg 0 false [] t m (repeat BSLASH m ++ rest) (or_intror Hb) E) as (u & Eu & Ec).
    rewrite <- app_assoc, Ec, crt_backslashes. cbn [app Nat.add]. rewrite crt_stops, <- Eu by exact Hr. reflexivity.
Qed.

(** A quoted argument is not empty and does not start with a blank. *)
Lemma quoted_starts arg : exists c q, quoted_form arg = c :: q /\ is_blank c = false.
Proof.
  unfold quoted_form. destruct (esc_open 0 arg) as [t m] eqn:E. destruct (_ || existsb is_blank arg) eqn:Eq; [exists DQ; eauto|].
  apply orb_false_iff in Eq as [Hne Hb]. destruct arg as [|c arg]; [discriminate|]. clear Hne.
  cbn in Hb. apply orb_false_iff in Hb as [Hc Hb].
  destruct (crt_body (c :: arg) 0 false [] t m [] (or_intror (proj2 (orb_false_iff _ _) (conj Hc Hb))) E) as (u & Eu & _).
  cbn [esc_open] in E. destruct (Z.eqb_spec c BSLASH) as [->|Hbs].
  - assert (Hs : exists k, t ++ repeat BSLASH m = BSLASH :: k).
    { clear - E. revert E. generalize 0%nat at 1 as n. revert t m. induction arg as [|x arg IH]; intros t m n E; cbn [esc_open] in E.
      - injection E as <- <-. cbn. eauto.
      - destruct (x =? BSLASH); [eauto|]. destruct (esc_open 0 arg) as [t' m']. injection E as <- <-.
        destruct (x =? DQ); cbn [repeat app]; eauto. }
    destruct Hs as [k ->]. exists BSLASH, k. auto.
  - destruct (esc_open 0 arg) as [t' m']. injection E as <- <-. destruct (c =? DQ); cbn [repeat app Nat.mul]; eauto.
Qed.

Lemma join_cons a args : join (a :: args) = a ++ match args with [] => [] | _ => chr " " :: join args end.
Proof. destruct args; cbn; [now rewrite app_nil_r|reflexivity]. Qed.

Lemma crt_split_join args fuel :
  (length (join (map quoted_form args)) < fuel)%nat -> crt_split newer fuel (join (map quoted_form args)) = args.
Proof.
  revert fuel; induction args as [|a args IH]; intros fuel Hf; (destruct fuel as [|fuel]; [lia|]); [reflexivity|].
  cbn [map crt_split]. cbn [map] in Hf. rewrite join_cons in *. destruct (quoted_starts a) as (c & q & Eq & Hc).
  set (rest := match map quoted_form args with [] => [] | _ => chr " " :: join (map quoted_form args) end) in *.
  assert (Hs : skip_in [chr " "; TAB] (quoted_form a ++ rest) = quoted_form a ++ rest).
  { rewrite Eq. cbn [app skip_in existsb]. rewrite orb_false_r. change ((c =? chr " ") || (c =? TAB)) with (is_blank c). rewrite Hc. reflexivity. }
  assert (Ec : crt_arg newer (quoted_form a ++ rest) false 0 [] = (a, rest)) by (apply crt_quoted; unfold rest; destruct args; [exact I|reflexivity]).
  rewrite Hs. rewrite Eq in Ec, Hf |- *. cbn [app] in Ec |- *. rewrite Ec. f_equal.
  rewrite length_app in Hf. cbn [length] in Hf. unfold rest in *. destruct args as [|a' args]; [destruct fuel; reflexivity|].
  cbn [map length] in Hf. destruct fuel as [|fuel]; [lia|]. rewrite <- (IH (S fuel)) at 2 by (cbn [map]; lia). reflexivity.
Qed.

Lemma crt_args_join args : crt_args newer (join (map quoted_form args)) = args.
Proof. apply crt_split_join. lia. Qed.
End Split.

(** ** The search for an executable *)

(** The components of the path, between the separators. *)
Fixpoint split_path (p : list Z) : list (list Z) :=
  match p with
  | [] => [[]]
  | c :: p =>
      if c =? PATH_SEP then [] :: split_path p
      else match split_path p with x :: l => (c :: x) :: l | [] => [[c]] end
  end.

Fixpoint first_some {A B} (f : A -> option B) (l : list A) : option B :=
  match l with
  | [] => None
  | x :: l => match f x with Some y => Some y | None => first_some f l end
  end.

Lemma split_component p :
  let '(c, rest) := path_component p in
  split_path p = c :: match rest with Some r => split_path r | None => [] end
  /\ match rest with Some r => (length r < length p)%nat | None => True end.
Proof.
  induction p as [|x p IH]; [split; reflexivity|]. cbn [path_component split_path].
  destruct (x =? PATH_SEP); [split; [reflexivity|cbn; lia]|]. destruct (path_component p) as [c rest]. destruct IH as [-> IH].
  split; [reflexivity|]. destruct rest; [cbn; lia|exact I].
Qed.

Section Search.
Variable stat : list Z -> option file_stat.

Definition found (name d : list Z) : option (list Z) := file_is_win32_exe stat (try_name d name).

Lemma find_executable_loop_first fuel name p :
  (length p < fuel)%nat ->
  exists r, find_executable_loop stat fuel name p = Ok r /\ option_map fst r = first_some (found name) (split_path p).
Proof.
  revert p; induction fuel as [|fuel IH]; intros p Hf; [lia|]. cbn [find_executable_loop].
  pose proof (split_component p) as Hs. destruct (path_component p) as [c rest]. destruct Hs as [-> Hl].
  cbn [first_some]. unfold found at 1. destruct (file_is_win32_exe stat (try_name c name)) as [w|]; [eexists; split; reflexivity|].
  destruct rest as [p'|]; [apply IH; lia|]. exists None. split; reflexivity.
Qed.

Lemma find_first_ok PATH name :
  find_first_executable stat PATH name
  = Ok (match PATH with Some p => first_some (found name) (split_path p) | None => None end).
Proof.
  unfold find_first_executable, find_executable. destruct PATH as [p|]; [|reflexivity].
  destruct (find_executable_loop_first (S (length p)) name p) as (r & -> & <-); [lia|]. reflexivity.
Qed.

(** What is found is an executable: the name, or the name with one of the
    suffixes. *)
Lemma win32_exe_is_executable name w :
  file_is_win32_exe stat name = Some w ->
  file_is_executable stat w = true /\ (w = name \/ exists s, In s win_suffix /\ w = name ++ chr "." :: s).
Proof.
  unfold file_is_win32_exe, add_win32_extension. intros E. destruct (file_is_executable stat name) eqn:En.
  - injection E as <-. auto.
  - destruct (has_exe_suffix_or_dot name); [discriminate|]. apply find_some in E as [Hin Hx]. split; [exact Hx|right].
    apply in_map_iff in Hin as (s & <- & Hs). eauto.
Qed.

Lemma first_some_some {A B} (f : A -> option B) l y :
  first_some f l = Some y -> exists l1 x l2, l = l1 ++ x :: l2 /\ f x = Some y /\ forall z, In z l1 -> f z = None.
Proof.
  induction l as [|x l IH]; [discriminate|]. cbn. destruct (f x) as [y'|] eqn:E.
  - intros [= ->]. exists [], x, l. split; [reflexivity|]. split; [exact E|]. intros z [].
  - intros H. destruct (IH H) as (l1 & x' & l2 & -> & Hf & Hn). exists (x :: l1), x', l2. split; [reflexivity|]. split; [exact Hf|].
    intros z [<-|Hz]; auto.
Qed.
End Search.

(** ** Starting a program *)

Definition escaped (c : Z) : bool := (c =? DQ) || (c =? BSLASH).

Lemma msys2_scan_count s n w : fst (msys2_scan s n w) = (n + length (filter escaped s))%nat.
Proof.
  revert n w; induction s as [|c s IH]; intros n w; [cbn; lia|]. cbn [msys2_scan filter]. unfold escaped at 1.
  destruct (Z.eqb_spec c DQ) as [->|H1]; [|destruct (Z.eqb_spec c BSLASH) as [->|H2]]; cbn [orb length].
  - change (isspace DQ) with false. cbn beta iota. rewrite IH. lia.
  - change (isspace BSLASH) with false. cbn beta iota. rewrite IH. lia.
  - destruct (isspace c); apply IH.
Qed.

(** The text [quote_arg_msys2] writes between the quotes. *)
Definition msys2_text (s : list Z) : list Z :=
  flat_map (fun c => if escaped c then [BSLASH; c] else [c]) s.

Lemma length_msys2_text s : length (msys2_text s) = (length s + length (filter escaped s))%nat.
Proof.
  induction s as [|c s IH]; [reflexivity|]. cbn [msys2_text flat_map filter]. fold (msys2_text s). rewrite length_app, IH.
  destruct (escaped c); cbn [length]; lia.
Qed.

Lemma msys2_copy_ok s r q acc :
  wrote r q acc -> (q + length (msys2_text s) <= length r)%nat ->
  exists r', msys2_copy s r q = Ok (r', (q + length (msys2_text s))%nat) /\ length r' = length r
    /\ wrote r' (q + length (msys2_text s)) (acc ++ msys2_text s).
Proof.
  revert r q acc; induction s as [|c s IH]; intros r q acc Hw Hl.
  - exists r. cbn. rewrite Nat.add_0_r, app_nil_r. auto.
  - cbn [msys2_copy msys2_text flat_map] in *. rewrite length_app in *. fold (msys2_text s) in *. change ((c =? DQ) || (c =? BSLASH)) with (escaped c). destruct (escaped c); cbn [length] in *.
    + destruct (put r q acc BSLASH Hw ltac:(lia)) as (r1 & -> & L1 & W1). cbn [rbind].
      destruct (put r1 (S q) _ c W1 ltac:(lia)) as (r2 & -> & L2 & W2). cbn [rbind].
      destruct (IH r2 (S (S q)) _ W2 ltac:(lia)) as (r' & -> & L' & W'). exists r'. rewrite <- !app_assoc in W'.
      replace (S (S q) + length (msys2_text s))%nat with (q + (2 + length (msys2_text s)))%nat in * by lia.
      split; [reflexivity|]. split; [lia|exact W'].
    + cbn [rbind]. destruct (put r q acc c Hw ltac:(lia)) as (r1 & -> & L1 & W1). cbn [rbind].
      destruct (IH r1 (S q) _ W1 ltac:(lia)) as (r' & -> & L' & W'). exists r'. rewrite <- !app_assoc in W'.
      replace (S q + length (msys2_text s))%nat with (q + (1 + length (msys2_text s)))%nat in * by lia.
      split; [reflexivity|]. split; [lia|exact W'].
Qed.

Section Quoting.
Variable fresh : nat -> list Z.
Hypothesis fresh_len : forall n, length (fresh n) = n.

(** Quoting stays inside its memory and ends, for either kind of program. *)
Lemma quote_arg_msys2_form arg :
  quote_arg_msys2 fresh arg = Ok arg \/ quote_arg_msys2 fresh arg = Ok (c_string ((DQ :: msys2_text arg ++ [DQ]) ++ [0])).
Proof.
  unfold quote_arg_msys2. destruct (msys2_scan arg 0 false) as [escapes w] eqn:E. destruct (_ && _ && _); [left; reflexivity|right].
  assert (Ee : escapes = length (filter escaped arg)).
  { pose proof (msys2_scan_count arg 0 false) as H. rewrite E in H. exact H. }
  set (r := fresh _). assert (L : length r = (3 + length (msys2_text arg))%nat) by (unfold r; rewrite fresh_len, length_msys2_text; lia).
  clearbody r. destruct (put r 0 [] DQ (conj eq_refl eq_refl) ltac:(lia)) as (r1 & -> & L1 & W1). cbn [rbind app] in *.
  destruct (msys2_copy_ok arg r1 1 _ W1 ltac:(lia)) as (r2 & -> & L2 & W2). cbn [rbind].
  destruct (put r2 _ _ DQ W2 ltac:(lia)) as (r3 & -> & L3 & W3). cbn [rbind].
  rewrite (terminated _ _ _ _ W3) by lia. reflexivity.
Qed.

Lemma quote_all_ok qa argv : (forall a, exists q, qa a = Ok q) -> exists qs, quote_all qa argv = Ok qs /\ length qs = length argv.
Proof.
  intros H. induction argv as [|a argv (qs & IH & L)]; [exists []; auto|].
  destruct (H a) as [q Hq]. exists (q :: qs). cbn. rewrite Hq, IH, L. auto.
Qed.
End Quoting.

Section Starting.
Variable sys : system.
Hypothesis fresh_len : forall n, length (fresh sys n) = n.

Lemma new_arguments_ok path argv : exists qs, new_arguments sys path argv = Ok qs /\ length qs = length argv.
Proof.
  unfold new_arguments. set (qa := if is_msys2_cmd path then _ else _).
  assert (Hqa : forall a, exists q, qa a = Ok q).
  { intros a. unfold qa. destruct (is_msys2_cmd path).
    - destruct (quote_arg_msys2_form _ fresh_len a) as [-> | ->]; eauto.
    - rewrite (quote_arg_any _ fresh_len). eauto. }
  destruct argv as [|a0 [|a1 argv]]; try (apply quote_all_ok; exact Hqa).
  destruct (_ && _); [|apply quote_all_ok; exact Hqa].
  destruct (Hqa a0) as [q0 ->]. destruct (quote_all_ok qa argv Hqa) as (qs & -> & L). cbn. rewrite <- L. eauto.
Qed.

Lemma spawnveq_safe path argv : argv <> [] -> safe (fun _ => True) (spawnveq sys path argv).
Proof.
  intros Ha. unfold spawnveq. destruct (stat sys path) as [st|]; [|exact I]. destruct (_ || _); [exact I|].
  destruct (new_arguments_ok path argv) as (qs & -> & L). cbn [rbind].
  assert (Hq : exists q t, qs = q :: t) by (destruct qs; [destruct argv; [contradiction|discriminate]|eauto]).
  destruct Hq as (q & t & ->). destruct (has_bat_suffix path); cbn [rbind andb]; [destruct (_ =? _)|]; exact I.
Qed.

Lemma interpreter_safe fuel prog argv level :
  argv <> [] -> level <= 4 -> 5 - level <= Z.of_nat fuel -> safe (fun _ => True) (mingw_spawn_interpreter sys fuel prog argv level).
Proof.
  revert prog argv level; induction fuel as [|fuel IH]; intros prog argv level Ha Hl Hf; [lia|].
  cbn [mingw_spawn_interpreter]. destruct (parse_interpreter _ _) as [i|]; [|apply spawnveq_safe, Ha].
  destruct (Z.ltb_spec 4 (level + 1)); [exact I|]. destruct argv as [|a0 args]; [contradiction|].
  destruct (_ && (_ && _)); [apply spawnveq_safe; discriminate|].
  destruct (file_is_win32_exe _ _) as [p|]; cbn [rbind]; [apply IH; [discriminate|lia|lia]|].
  destruct (unix_path _ _ _); cbn [rbind]; [|exact I]. rewrite find_first_ok. cbn [rbind].
  destruct (PATH sys) as [q|]; [destruct (first_some _ _)|]; [apply IH; [discriminate|lia|lia]|exact I|exact I].
Qed.

Lemma spawnvp_safe cmd argv : argv <> [] -> safe (fun _ => True) (mingw_spawnvp sys cmd argv).
Proof.
  intros Ha. assert (Hi : forall p, safe (fun _ => True) (mingw_spawn_interpreter sys spawn_fuel p argv 0)).
  { intros p. apply interpreter_safe; [exact Ha|lia|reflexivity || cbn; lia]. }
  unfold mingw_spawnvp. destruct (_ && (_ && _)); [apply spawnveq_safe, Ha|].
  destruct (if has_path cmd then _ else _); [apply Hi|]. set (cmd' := if has_path cmd && unix_path (lead sys) true cmd then bb_basename cmd else cmd).
  destruct (has_path cmd'); [exact I|].
  rewrite find_first_ok. cbn [rbind]. destruct (PATH sys) as [q|]; [destruct (first_some _ _)|]; [apply Hi|exact I|exact I].
Qed.

(** The arguments a program is started with, after its name. *)
Lemma spawnveq_arguments newer path a0 args st :
  stat sys path = Some st -> is_reg st = true -> is_exec st = true ->
  is_msys2_cmd path = false -> is_cmd_exe path = false -> has_bat_suffix path = false ->
  Forall (Forall (fun c => c <> 0)) args ->
  exists p q0 qs, spawnveq sys path (a0 :: args) = Ok (Spawnve p (q0 :: qs)) /\ crt_args newer (join qs) = args.
Proof.
  intros Hs Hr Hx Hm Hc Hb Hn. unfold spawnveq. rewrite Hs, Hr, Hx, Hb. cbn [negb orb andb].
  assert (E : new_arguments sys path (a0 :: args) = Ok (c_string (quoted_form a0 ++ [0]) :: map quoted_form args)).
  { unfold new_arguments. rewrite Hm, Hc. assert (Eq : quote_all (quote_arg (fresh sys)) (a0 :: args)
      = Ok (c_string (quoted_form a0 ++ [0]) :: map quoted_form args)).
    { cbn [quote_all]. rewrite quote_arg_any, quote_all_form by assumption. reflexivity. }
    destruct args; [exact Eq|]. rewrite andb_false_r. exact Eq. }
  rewrite E. cbn [rbind]. do 3 eexists. split; [reflexivity|]. apply crt_args_join.
Qed.
End Starting.

(** *** The first line of a script *)

Lemma skip_in_app delims a s : Forall (fun c => existsb (Z.eqb c) delims = true) a -> skip_in delims (a ++ s) = skip_in delims s.
Proof. induction 1 as [|c a Hc Ha IH]; [reflexivity|]. cbn. rewrite Hc. exact IH. Qed.

Lemma skip_in_stop delims c s : existsb (Z.eqb c) delims = false -> skip_in delims (c :: s) = c :: s.
Proof. intros H. cbn. rewrite H. reflexivity. Qed.

Lemma take_until_app delims a c s :
  Forall (fun c => existsb (Z.eqb c) delims = false) a -> existsb (Z.eqb c) delims = true ->
  take_until delims (a ++ c :: s) = (a, s).
Proof. intros Ha Hc. induction Ha as [|x a Hx Ha IH]; cbn; [rewrite Hc; reflexivity|]. rewrite Hx, IH. reflexivity. Qed.

Lemma strtok_token delims a c s :
  a <> [] -> Forall (fun c => existsb (Z.eqb c) delims = false) a -> existsb (Z.eqb c) delims = true ->
  strtok delims (a ++ c :: s) = (Some a, s).
Proof.
  intros Hne Ha Hc. unfold strtok. destruct a as [|x a]; [contradiction|]. inversion Ha; subst. cbn [app].
  rewrite skip_in_stop by assumption. change (x :: a ++ c :: s) with ((x :: a) ++ c :: s). rewrite take_until_app by assumption. reflexivity.
Qed.

Lemma strtok_blanks delims b s : Forall (fun c => existsb (Z.eqb c) delims = true) b -> strtok delims (b ++ s) = strtok delims s.
Proof. intros H. unfold strtok. rewrite skip_in_app by exact H. reflexivity. Qed.

Lemma before_char_app c a s : Forall (fun x => x <> c) a -> before_char c (a ++ c :: s) = Some a.
Proof.
  induction 1 as [|x a Hx Ha IH]; cbn; [rewrite Z.eqb_refl; reflexivity|].
  destruct (Z.eqb_spec x c); [contradiction|]. rewrite IH. reflexivity.
Qed.

Lemma c_string_prefix a s : Forall (fun c => c <> 0) a -> c_string (a ++ s) = a ++ c_string s.
Proof. induction 1 as [|c a Hc Ha IH]; [reflexivity|]. cbn. destruct (Z.eqb_spec c 0); [contradiction|]. rewrite IH. reflexivity. Qed.

(** Characters of a word: not a separator of [strtok], not NUL. *)
Definition word_char (c : Z) : Prop := existsb (Z.eqb c) [chr " "; TAB; CR; NL] = false /\ c <> 0.
(** Characters of a line: not an end of line, not NUL. *)
Definition line_char (c : Z) : Prop := existsb (Z.eqb c) [CR; NL] = false /\ c <> 0.

Definition shebang (blanks ipath : list Z) (sep : Z) (text : list Z) : list Z :=
  [chr "#"; chr "!"] ++ blanks ++ ipath ++ sep :: text.

Lemma word_line c : word_char c -> line_char c.
Proof. intros [H1 H2]. split; [|exact H2]. cbn in *. repeat (apply orb_false_iff in H1 as [? H1]). repeat (apply orb_false_iff; split; auto). Qed.

Lemma blank_line c : is_blank c = true -> line_char c.
Proof. unfold is_blank. intros H. apply orb_true_iff in H. rewrite !Z.eqb_eq in H. destruct H as [-> | ->]; split; (reflexivity || discriminate). Qed.

Lemma blank_delim c : is_blank c = true -> existsb (Z.eqb c) [chr " "; TAB; CR; NL] = true.
Proof. unfold is_blank. intros H. apply orb_true_iff in H. rewrite !Z.eqb_eq in H. destruct H as [-> | ->]; reflexivity. Qed.

Lemma interpreter_line_shebang blanks ipath sep text more :
  Forall (fun c => is_blank c = true) blanks -> ipath <> [] -> Forall word_char ipath -> bb_basename ipath <> [] ->
  is_blank sep = true -> text <> [] -> Forall line_char text -> trim text <> [] ->
  interpreter_line (shebang blanks ipath sep text ++ NL :: more)
  = Some (mk_interp ipath (bb_basename ipath) (Some (trim text))).
Proof.
  intros Hb Hine Hi Hbn Hsep Htne Ht Htrim. set (line := shebang blanks ipath sep text).
  assert (Hl : Forall line_char line).
  { apply Forall_app; split; [repeat constructor; discriminate|].
    apply Forall_app; split; [eapply Forall_impl; [apply blank_line|exact Hb]|].
    apply Forall_app; split; [eapply Forall_impl; [apply word_line|exact Hi]|]. constructor; auto using blank_line. }
  assert (Hn : Forall (fun c => c <> 0) line) by (eapply Forall_impl; [|exact Hl]; intros c [_ H]; exact H).
  assert (Hnl : Forall (fun c => c <> NL) line).
  { eapply Forall_impl; [|exact Hl]. intros c [H _] ->. discriminate. }
  unfold interpreter_line. destruct (Nat.ltb_spec (length (line ++ NL :: more)) 4) as [Hlen|_].
  { rewrite length_app in Hlen. unfold line, shebang in Hlen. rewrite !length_app in Hlen. destruct text; [contradiction|]. destruct ipath; [contradiction|]. cbn in Hlen. lia. }
  cbn [char_at nth line shebang app]. rewrite !Z.eqb_refl. cbn [negb orb].
  change (chr "#" :: chr "!" :: (blanks ++ ipath ++ sep :: text) ++ NL :: more) with (line ++ NL :: more).
  rewrite c_string_prefix by exact Hn. cbn [c_string]. change (NL =? 0) with false. cbn iota. rewrite before_char_app by exact Hnl.
  assert (Hs : skipn 2 (line ++ [NL]) = blanks ++ ipath ++ sep :: text ++ [NL]).
  { unfold line, shebang. cbn [app skipn]. rewrite <- !app_assoc. reflexivity. }
  rewrite Hs, strtok_blanks, strtok_token; auto.
  - destruct (bb_basename ipath) as [|x t]; [contradiction|]. rewrite strtok_token; auto.
    + cbn [fst]. destruct (trim text); [contradiction|reflexivity].
    + eapply Forall_impl; [|exact Ht]. intros c [H _]. exact H.
  - eapply Forall_impl; [|exact Hi]. intros c [H _]. exact H.
  - apply blank_delim, Hsep.
  - eapply Forall_impl; [apply blank_delim|exact Hb].
Qed.

Lemma trim_Forall (P : Z -> Prop) s : Forall P s -> Forall P (trim s).
Proof.
  intros H. unfold trim. destruct (_ =? 0)%nat; [constructor|]. apply Forall_firstn.
  apply (suffix_Forall P _ s); [apply skip_whitespace_suffix|exact H].
Qed.

(** ** The properties *)

(** C21. Quoting and the C runtime are inverse: the arguments quoted by
    [quote_arg] and joined by spaces are split again, by the rules of the old
    and of the newer runtimes, into exactly the arguments. In particular
    quoting never leaves the memory it allocates. *)
Theorem quote_roundtrip newer fresh args :
  (forall n, length (fresh n) = n) -> Forall (Forall (fun c => c <> 0)) args ->
  exists qs, quote_all (quote_arg fresh) args = Ok qs /\ crt_args newer (join qs) = args.
Proof.
  intros Hf Ha. exists (map quoted_form args). split; [apply quote_all_form; assumption|apply crt_args_join].
Qed.

Lemma quote_roundtrip_witness :
  let args := [bytes_of "C:\dir name\"; []; [97; DQ; 98; BSLASH; DQ]]%string in
  (exists qs, quote_all (quote_arg (repeat 7)) args = Ok qs /\ crt_args true (join qs) = args).
Proof.
  intros args. apply (quote_roundtrip true (repeat 7) args); [intros; apply repeat_length|].
  repeat constructor; discriminate.
Defined.

(** [find_first_executable] ends and takes the first directory of the path
    in which the name, or the name with one of the suffixes, is a regular
    executable file; it returns the path of that file; it returns nothing only
    when no directory has one. *)
Theorem search_first stat p name :
  exists r, find_first_executable stat (Some p) name = Ok r
    /\ match r with
       | None => forall d, In d (split_path p) -> file_is_win32_exe stat (try_name d name) = None
       | Some w => exists l1 d l2, split_path p = l1 ++ d :: l2
           /\ (forall d', In d' l1 -> file_is_win32_exe stat (try_name d' name) = None)
           /\ file_is_executable stat w = true
           /\ (w = try_name d name \/ exists s, In s win_suffix /\ w = try_name d name ++ chr "." :: s)
       end.
Proof.
  exists (first_some (found stat name) (split_path p)). split; [apply find_first_ok|].
  destruct (first_some _ _) as [w|] eqn:E.
  - apply first_some_some in E as (l1 & d & l2 & -> & Hd & Hn). exists l1, d, l2. split; [reflexivity|]. split; [exact Hn|].
    apply win32_exe_is_executable, Hd.
  - intros d Hd. induction (split_path p) as [|x l IH]; [destruct Hd|]. cbn in E. unfold found in E at 1.
    destruct (file_is_win32_exe stat (try_name x name)) eqn:Ex; [discriminate|]. destruct Hd as [<-|Hd]; auto.
Qed.

(** C23. Starting a program ends and never leaves the memory of the quoted
    arguments, whatever files there are and whatever their first lines name,
    a script that is its own interpreter included: at most four interpreters
    are followed. *)
Theorem spawn_ends sys cmd argv :
  (forall n, length (fresh sys n) = n) -> argv <> [] -> safe (fun _ => True) (mingw_spawnvp sys cmd argv).
Proof. intros Hf. apply spawnvp_safe, Hf. Qed.


(** A system with one program and one script. *)
Definition system0 : system := {|
  fresh := repeat 7;
  stat := fun p => if str_eqb p (bytes_of "/x/i.exe") then Some (mk_stat true true 10) else None;
  read100 := fun p =>
    if str_eqb p (bytes_of "s") then Some (shebang [32] (bytes_of "/x/i") 32 (bytes_of " -e -x ") ++ NL :: bytes_of "exit")
    else if str_eqb p (bytes_of "/x/i.exe") then Some (bytes_of "MZ") else None;
  is_applet := fun _ => false;
  prefer_applets := false;
  PATH := Some (bytes_of "/y;/x");
  bb_busybox_exec_path := bytes_of "bb.exe";
  lead := fun _ => false
|}.

Lemma spawn_ends_witness : safe (fun _ => True) (mingw_spawnvp system0 (bytes_of "i") [bytes_of "i"]).
Proof. apply (spawn_ends system0 (bytes_of "i") [bytes_of "i"]); [intros; apply repeat_length|discriminate]. Defined.


End Spawn.
