(* ===== verification/Fe.v ===== *)
(** * Curve25519

    [networking/tls_fe.c]: arithmetic modulo [2^255 - 19] on arrays of 32 bytes
    that are reduced only as far as the next operation needs, and the
    Montgomery ladder of X25519 on it. The theorems: every operation computes
    in the field, without a carry lost or an underflow; [curve25519] returns the
    32 bytes, fully reduced, of what the ladder computes in the field. *)

From Stdlib Require Import ZArith List Lia Bool Morphisms Setoid Zpow_facts.
From S2P Require Import Prelude Words.
Import ListNotations.
Local Open Scope Z_scope.

Module Fe.

(** ** Definitions *)

Definition F25519_SIZE : nat := 32.

Definition at_ (x : list Z) (i : nat) : Z := nth i x 0.

(** A loop that stores the low byte of [c] and then shifts it; [step] is the
    change of [c] at an index. The bytes stored, and [c] at the end. *)
Fixpoint shift_after (step : nat -> Z -> Z) (idx : list nat) (c : Z) : list Z * Z :=
  match idx with
  | [] => ([], c)
  | i :: idx =>
      let c := step i c in
      let '(r, c') := shift_after step idx (Z.shiftr c 8) in
      (u8 c :: r, c')
  end.

(** A loop that shifts [c] first. *)
Fixpoint shift_before (step : nat -> Z -> Z) (idx : list nat) (c : Z) : list Z * Z :=
  match idx with
  | [] => ([], c)
  | i :: idx =>
      let c := step i (Z.shiftr c 8) in
      let '(r, c') := shift_before step idx c in
      (u8 c :: r, c')
  end.

Definition fe_reduce (x : list Z) (c : Z) : list Z :=
  let x := upd x 31 (Z.land c 127) in
  let c := u32 (Z.shiftr c 7 * 19) in
  fst (shift_after (fun i c => u32 (c + at_ x i)) (seq 0 F25519_SIZE) c).

Definition fe_select (dst src : list Z) (condition : bool) : list Z := if condition then src else dst.

Definition fe_normalize (x : list Z) : list Z :=
  let x := fe_reduce x (at_ x 31) in
  let '(minusp, c) := shift_after (fun i c => u32 (c + at_ x i)) (seq 0 (F25519_SIZE - 1)) 19 in
  let c := u32 (c + u32 (at_ x 31 - 128)) in
  let minusp := minusp ++ [u8 c] in
  fe_select x minusp (Z.land c (Z.shiftl 1 15) =? 0).

Definition lm_add (a b : list Z) : list Z :=
  let '(r, c) := shift_before (fun i c => u32 (c + (at_ a i + at_ b i))) (seq 0 F25519_SIZE) 0 in
  fe_reduce r c.

(** The loop does not store the last byte; [fe_reduce] does, before it reads
    it, so what [r] held there ([old]) does not matter. *)
Definition lm_sub (old : Z) (a b : list Z) : list Z :=
  let '(r, c) := shift_after (fun i c => u32 (c + u32 (65280 + at_ a i - at_ b i))) (seq 0 (F25519_SIZE - 1)) 218 in
  let c := u32 (c + u32 (at_ a 31 - at_ b 31)) in
  fe_reduce (r ++ [old]) c.

(** The two inner loops of a column of the product. *)
Definition mul_column (a b : list Z) (i : nat) (c : Z) : Z :=
  let c := fold_left (fun c j => u32 (c + at_ a j * at_ b (i - j))) (seq 0 (S i)) c in
  fold_left (fun c j => u32 (c + u32 (at_ a j * at_ b (i + F25519_SIZE - j) * 38))) (seq (S i) (F25519_SIZE - S i)) c.

Definition fe_mul__distinct (a b : list Z) : list Z :=
  let '(r, c) := shift_before (mul_column a b) (seq 0 F25519_SIZE) 0 in
  fe_reduce r c.

Definition fe_mul_c (a : list Z) (b : Z) : list Z :=
  let '(r, c) := shift_before (fun i c => u32 (c + u32 (b * at_ a i))) (seq 0 F25519_SIZE) 0 in
  fe_reduce r c.

(** [fe_mul__distinct (s, r, r); fe_mul__distinct (r, s, x)] *)
Definition square_mul (x r : list Z) : list Z := fe_mul__distinct (fe_mul__distinct r r) x.

Definition fe_inv__distinct (x : list Z) : list Z :=
  let r := Nat.iter 249 (square_mul x) x in
  let s := fe_mul__distinct r r in
  let r := fe_mul__distinct s s in
  let s := fe_mul__distinct r x in
  let r := fe_mul__distinct s s in
  Nat.iter 2 (square_mul x) r.

Section Code.
(** What the last byte of an array on the stack holds before it is stored. *)
Variable old : Z.

Definition xc_diffadd (x1 z1 x2 z2 x3 z3 : list Z) : list Z * list Z :=
  let a := lm_add x2 z2 in
  let b := lm_sub old x3 z3 in
  let da := fe_mul__distinct a b in
  let b := lm_sub old x2 z2 in
  let a := lm_add x3 z3 in
  let cb := fe_mul__distinct a b in
  let a := lm_add da cb in
  let b := fe_mul__distinct a a in
  let x5 := fe_mul__distinct z1 b in
  let a := lm_sub old da cb in
  let b := fe_mul__distinct a a in
  let z5 := fe_mul__distinct x1 b in
  (x5, z5).

Definition xc_double (x1 z1 : list Z) : list Z * list Z :=
  let x1sq := fe_mul__distinct x1 x1 in
  let z1sq := fe_mul__distinct z1 z1 in
  let x1z1 := fe_mul__distinct x1 z1 in
  let a := lm_sub old x1sq z1sq in
  let x3 := fe_mul__distinct a a in
  let a := fe_mul_c x1z1 486662 in
  let a := lm_add x1sq a in
  let a := lm_add z1sq a in
  let x1sq := fe_mul__distinct x1z1 a in
  let z3 := fe_mul_c x1sq 4 in
  (x3, z3).

(** The points of [curve25519], in their order in memory. *)
Record points := mk_points { xm1 : list Z; zm1 : list Z; xm : list Z; zm : list Z }.

(** A small number in an array of zeros. *)
Definition small (n : Z) : list Z := n :: repeat 0 31.

(** One iteration; the [memmove] of four arrays copies [xm], [zm], [xms] and
    [zms] over [xm1], [zm1], [xm] and [zm]. *)
Definition ladder_step (e q : list Z) (s : points) (i : nat) : points :=
  let bit := Z.land (Z.shiftr (at_ e (Nat.shiftr i 3)) (Z.of_nat (Nat.land i 7))) 1 in
  let '(xm1, zm1) := xc_diffadd q (small 1) (xm s) (zm s) (xm1 s) (zm1 s) in
  let '(xm, zm) := xc_double (xm s) (zm s) in
  let '(xms, zms) := xc_diffadd xm1 zm1 xm zm q (small 1) in
  if bit =? 0 then mk_points xm1 zm1 xm zm else mk_points xm zm xms zms.

(** [q] is [None] for a null pointer: the base point. *)
Definition curve25519 (e : list Z) (q : option (list Z)) : list Z :=
  let q := match q with Some q => q | None => small 9 end in
  let s := fold_left (ladder_step e q) (rev (seq 0 254)) (mk_points (small 1) (small 0) q (small 1)) in
  let zm1 := fe_inv__distinct (zm s) in
  let result := fe_mul__distinct zm1 (xm s) in
  fe_normalize result.

(** [random]: what [tls_get_random] wrote. The private and the public key. *)
Definition curve_x25519_generate_keypair (random : list Z) : list Z * list Z :=
  let privkey32 := upd random 0 (Z.land (at_ random 0) 0xf8) in
  let privkey32 := upd privkey32 31 (Z.lor (Z.land (at_ privkey32 31) 0x7f) 0x40) in
  (privkey32, curve25519 privkey32 None).

Definition curve_x25519_compute_premaster (privkey32 peerkey32 : list Z) : list Z :=
  curve25519 privkey32 (Some peerkey32).

Definition curve_x25519_compute_pubkey_and_premaster (random peerkey32 : list Z) : list Z * list Z :=
  let '(privkey, pubkey) := curve_x25519_generate_keypair random in
  (pubkey, curve_x25519_compute_premaster privkey peerkey32).
End Code.

(** ** Loops that carry *)

Definition p25519 : Z := 2 ^ 255 - 19.

(** An element: 32 bytes. *)
Definition elem (x : list Z) : Prop := bytes x /\ length x = 32%nat.

(** Almost reduced: what [fe_reduce] leaves. *)
Definition reduced (x : list Z) : Prop := elem x /\ le_word x < 2 ^ 255 + 2 ^ 30.

Definition eqm (a b : Z) : Prop := a mod p25519 = b mod p25519.
Local Infix "==" := eqm (at level 70).

Lemma u8_range c : in_u 8 (u8 c).
Proof. apply wrap_range. lia. Qed.

Lemma byte_split c : c = u8 c + 256 * Z.shiftr c 8.
Proof. unfold u8, wrap. rewrite Z.shiftr_div_pow2 by lia. change (2 ^ 8) with 256. rewrite Z.add_comm. apply Z.div_mod. lia. Qed.

Lemma shiftr8_small c : 0 <= c < 2 ^ 32 -> 0 <= Z.shiftr c 8 < 2 ^ 30.
Proof.
  intros H. rewrite Z.shiftr_div_pow2 by lia. split; [apply Z.div_pos; lia|]. apply Z.div_lt_upper_bound; lia.
Qed.

(** The terms [T i] are added without overflow to a carry below [2^30]. *)
Definition adds (T : nat -> Z) (step : nat -> Z -> Z) (i : nat) : Prop :=
  forall c, 0 <= c < 2 ^ 30 -> step i c = c + T i /\ 0 <= c + T i < 2 ^ 32.

Lemma shift_after_sum T step idx c r c' :
  Forall (adds T step) idx -> 0 <= c < 2 ^ 30 -> shift_after step idx c = (r, c') ->
  bytes r /\ length r = length idx /\ 0 <= c' < 2 ^ 30
  /\ le_word r + 256 ^ Z.of_nat (length idx) * c' = c + le_word (map T idx).
Proof.
  intros Ha. revert c r c'; induction Ha as [|i idx Hi Ha IH]; intros c r c' Hc E; cbn [shift_after] in E.
  - injection E as <- <-. repeat split; try constructor; try lia. cbn [length map le_word]. change (Z.of_nat 0) with 0. rewrite Z.pow_0_r. lia.
  - destruct (Hi c Hc) as [Es Hr]. rewrite Es in E. destruct (shift_after step idx _) as [r1 c1] eqn:E1. injection E as <- <-.
    destruct (IH _ _ _ (shiftr8_small _ Hr) E1) as (B & L & C & V). split; [constructor; [apply u8_range|exact B]|].
    split; [cbn; lia|]. split; [exact C|]. cbn [map le_word length]. rewrite Nat2Z.inj_succ, Z.pow_succ_r by lia.
    pose proof (byte_split (c + T i)). lia.
Qed.

(** The loop that shifts first: the value is that of the bytes before the last
    and of the last [c]. *)
Lemma shift_before_sum T step idx i c r c' :
  Forall (adds T step) (idx ++ [i]) -> 0 <= c < 2 ^ 32 -> shift_before step (idx ++ [i]) c = (r, c') ->
  bytes r /\ length r = S (length idx) /\ 0 <= c' < 2 ^ 32
  /\ le_word (firstn (length idx) r) + 256 ^ Z.of_nat (length idx) * c' = Z.shiftr c 8 + le_word (map T (idx ++ [i])).
Proof.
  revert c r c'; induction idx as [|k idx IH]; intros c r c' Ha Hc E; cbn [app shift_before] in E; inversion Ha as [|? ? Hk Ha']; subst.
  - destruct (Hk _ (shiftr8_small c Hc)) as [Es Hr]. rewrite Es in E. injection E as <- <-.
    split; [constructor; [apply u8_range|constructor]|]. split; [reflexivity|]. split; [exact Hr|].
    cbn [length firstn map le_word app]. change (Z.of_nat 0) with 0. rewrite Z.pow_0_r. lia.
  - destruct (Hk _ (shiftr8_small c Hc)) as [Es Hr]. rewrite Es in E. destruct (shift_before step (idx ++ [i]) _) as [r1 c1] eqn:E1. injection E as <- <-.
    destruct (IH _ _ _ Ha' Hr E1) as (B & L & C & V). split; [constructor; [apply u8_range|exact B]|].
    split; [cbn; lia|]. split; [exact C|]. cbn [length firstn map le_word app]. rewrite Nat2Z.inj_succ, Z.pow_succ_r by lia.
    pose proof (byte_split (Z.shiftr c 8 + T k)). lia.
Qed.

Lemma map_at x : length x = 32%nat -> map (at_ x) (seq 0 32) = x.
Proof.
  intros L. apply (nth_ext _ _ 0 0); rewrite length_map, length_seq; [lia|].
  intros i Hi. apply (nth_map_seq (at_ x)). exact Hi.
Qed.

Lemma val_app a b : le_word (a ++ b) = le_word a + 256 ^ Z.of_nat (length a) * le_word b.
Proof.
  induction a as [|x a IH]; [cbn [app length le_word]; change (Z.of_nat 0) with 0; rewrite Z.pow_0_r; lia|].
  cbn [app le_word length]. rewrite IH, Nat2Z.inj_succ, Z.pow_succ_r by lia. lia.
Qed.

Lemma at_range x i : elem x -> 0 <= at_ x i < 256.
Proof.
  intros [B L]. unfold at_. destruct (Nat.lt_ge_cases i (length x)) as [H|H]; [|rewrite nth_overflow by lia; lia].
  apply (proj1 (Forall_forall _ _) B (nth i x 0)), nth_In, H.
Qed.

Lemma u32_small z : 0 <= z < 2 ^ 32 -> u32 z = z.
Proof. apply wrap_small. Qed.

(** ** The operations *)

Lemma p_pos : 0 < p25519.
Proof. unfold p25519. lia. Qed.

Lemma eqm_of_mult a b k : a = b + k * p25519 -> a == b.
Proof. intros ->. unfold eqm. apply Z_mod_plus_full. Qed.

Lemma upd_last (x : list Z) v : length x = 32%nat -> upd x 31 v = firstn 31 x ++ [v].
Proof. intros L. do 33 (destruct x as [|? x]; [try discriminate; reflexivity|]). discriminate. Qed.

Lemma adds_at x i : elem x -> adds (at_ x) (fun i c => u32 (c + at_ x i)) i.
Proof. intros Hx c Hc. pose proof (at_range x i Hx). split; [apply u32_small|]; lia. Qed.

Lemma fe_reduce_spec r c :
  bytes r -> length r = 32%nat -> 0 <= c < 2 ^ 32 ->
  reduced (fe_reduce r c) /\ le_word (fe_reduce r c) == le_word (firstn 31 r) + 256 ^ 31 * c.
Proof.
  intros Br Lr Hc. unfold fe_reduce. rewrite upd_last by exact Lr. set (x := firstn 31 r ++ [Z.land c 127]).
  assert (Eland : Z.land c 127 = c mod 128) by (change 127 with (Z.ones 7); apply Z.land_ones; lia).
  assert (Hx : elem x).
  { split; [apply bytes_app; [apply bytes_firstn, Br|]|unfold x; rewrite length_app, length_firstn, Lr; reflexivity].
    constructor; [|constructor]. red. rewrite Eland. pose proof (Z.mod_pos_bound c 128). lia. }
  assert (Hq : 0 <= c / 128 < 2 ^ 25) by (split; [apply Z.div_pos; lia|apply Z.div_lt_upper_bound; lia]).
  assert (Ec : u32 (Z.shiftr c 7 * 19) = 19 * (c / 128)).
  { rewrite Z.shiftr_div_pow2 by lia. change (2 ^ 7) with 128. rewrite u32_small by lia. lia. }
  rewrite Ec. destruct (shift_after _ _ _) as [y c'] eqn:E. cbn [fst].
  apply (shift_after_sum (at_ x)) in E as (By & Ly & Hc' & V); [|apply Forall_forall; intros i _; apply adds_at, Hx|lia].
  rewrite map_at in V by apply Hx. rewrite length_seq in *.
  assert (Bf := le_word_range (firstn 31 r) (bytes_firstn 31 r Br)). rewrite length_firstn, Lr in Bf. cbn [Nat.min] in Bf.
  unfold x in V. rewrite val_app, length_firstn, Lr in V. cbn [Nat.min le_word] in V.
  change (Z.of_nat F25519_SIZE) with 32 in V. change (Z.of_nat 31) with 31 in *. pose proof (le_word_range y By) as Ry.
  rewrite Ly in Ry. change (Z.of_nat F25519_SIZE) with 32 in Ry. rewrite Eland in V. pose proof (Z.mod_pos_bound c 128 ltac:(lia)) as Hm.
  pose proof (Z.div_mod c 128 ltac:(lia)) as Hd. change (256 ^ 32) with (256 * 256 ^ 31) in *. set (b := 256 ^ 31) in *.
  assert (Hb : b = 2 ^ 248) by reflexivity. clearbody b.
  assert (c' = 0) by nia. subst c'. split; [split; [split; assumption|]|].
  - change (2 ^ 255) with (128 * 2 ^ 248). nia.
  - apply (eqm_of_mult _ _ (- (c / 128))). unfold p25519. change (2 ^ 255) with (128 * 2 ^ 248). rewrite <- Hb. nia.
Qed.

(** A loop that shifts first, followed by the reduction. *)
Lemma shift_reduce_spec T step x :
  Forall (adds T step) (seq 0 32) ->
  (let '(r, c) := shift_before step (seq 0 F25519_SIZE) 0 in fe_reduce r c) = x ->
  reduced x /\ le_word x == le_word (map T (seq 0 32)).
Proof.
  intros Ha E. destruct (shift_before step (seq 0 F25519_SIZE) 0) as [r c] eqn:Es. subst x.
  change (seq 0 F25519_SIZE) with (seq 0 31 ++ [31%nat]) in Es. change (seq 0 32) with (seq 0 31 ++ [31%nat]) in *.
  apply (shift_before_sum T) in Es as (Br & Lr & Hc & V); [|exact Ha|lia]. rewrite length_seq in *.
  destruct (fe_reduce_spec r c Br Lr Hc) as [Hr Hv]. split; [exact Hr|]. change (Z.of_nat 31) with 31 in V.
  rewrite V in Hv. rewrite Z.shiftr_0_l in Hv. exact Hv.
Qed.

Lemma le_word_map_add (f g : nat -> Z) l : le_word (map (fun i => f i + g i) l) = le_word (map f l) + le_word (map g l).
Proof. induction l as [|i l IH]; [reflexivity|]. cbn [map le_word]. rewrite IH. lia. Qed.

Lemma le_word_map_scale (f : nat -> Z) k l : le_word (map (fun i => k * f i) l) = k * le_word (map f l).
Proof. induction l as [|i l IH]; [cbn; lia|]. cbn [map le_word]. rewrite IH. lia. Qed.

Lemma lm_add_spec a b : elem a -> elem b -> reduced (lm_add a b) /\ le_word (lm_add a b) == le_word a + le_word b.
Proof.
  intros Ha Hb. destruct (shift_reduce_spec (fun i => at_ a i + at_ b i) (fun i c => u32 (c + (at_ a i + at_ b i))) (lm_add a b)) as [Hr Hv].
  - apply Forall_forall. intros i _ c Hc. pose proof (at_range a i Ha). pose proof (at_range b i Hb). split; [apply u32_small|]; lia.
  - reflexivity.
  - split; [exact Hr|]. rewrite le_word_map_add, !map_at in Hv by (apply Ha || apply Hb). exact Hv.
Qed.

Lemma fe_mul_c_spec a k : elem a -> 0 <= k < 2 ^ 20 -> reduced (fe_mul_c a k) /\ le_word (fe_mul_c a k) == k * le_word a.
Proof.
  intros Ha Hk. destruct (shift_reduce_spec (fun i => k * at_ a i) (fun i c => u32 (c + u32 (k * at_ a i))) (fe_mul_c a k)) as [Hr Hv].
  - apply Forall_forall. intros i _ c Hc. pose proof (at_range a i Ha). assert (0 <= k * at_ a i < 2 ^ 28) by nia.
    rewrite !u32_small by (rewrite ?u32_small; lia). lia.
  - reflexivity.
  - split; [exact Hr|]. rewrite le_word_map_scale, map_at in Hv by apply Ha. exact Hv.
Qed.

#[export] Instance eqm_equiv : Equivalence eqm.
Proof. split; [intros x; reflexivity|intros x y H; symmetry; exact H|intros x y z H1 H2; unfold eqm in *; congruence]. Qed.
#[export] Instance eqm_add : Proper (eqm ==> eqm ==> eqm) Z.add.
Proof. intros a b H c d H'. unfold eqm in *. rewrite Z.add_mod, H, H', <- Z.add_mod by (pose proof p_pos; lia). reflexivity. Qed.
#[export] Instance eqm_mul : Proper (eqm ==> eqm ==> eqm) Z.mul.
Proof. intros a b H c d H'. unfold eqm in *. rewrite Z.mul_mod, H, H', <- Z.mul_mod by (pose proof p_pos; lia). reflexivity. Qed.
#[export] Instance eqm_sub : Proper (eqm ==> eqm ==> eqm) Z.sub.
Proof. intros a b H c d H'. unfold eqm in *. rewrite Zminus_mod, H, H', <- Zminus_mod. reflexivity. Qed.

Lemma eqm_mod a : a mod p25519 == a.
Proof. unfold eqm. apply Zmod_mod. Qed.

(** *** Multiplication *)

Definition sum (l : list Z) : Z := fold_right Z.add 0 l.

(** The factor of [a_j] in column [i]. *)
Definition coef (b : list Z) (j i : nat) : Z :=
  if (j <=? i)%nat then at_ b (i - j) else 38 * at_ b (i + 32 - j).
Definition column (a b : list Z) (i : nat) : Z := sum (map (fun j => at_ a j * coef b j i) (seq 0 32)).

Lemma fold_u32 (f : nat -> Z) l c : 0 <= c < 2 ^ 32 -> fold_left (fun c j => u32 (c + f j)) l c = u32 (c + sum (map f l)).
Proof.
  revert c; induction l as [|j l IH]; intros c Hc; [cbn; rewrite Z.add_0_r, u32_small; auto|].
  cbn [fold_left map sum fold_right]. rewrite IH by (apply wrap_range; lia). fold (sum (map f l)).
  unfold u32, wrap. rewrite Zplus_mod_idemp_l. f_equal. lia.
Qed.

Lemma fold_left_ext_in (f g : Z -> nat -> Z) l c : (forall c j, In j l -> f c j = g c j) -> fold_left f l c = fold_left g l c.
Proof.
  revert c; induction l as [|j l IH]; intros c H; [reflexivity|]. cbn. rewrite (H c j) by (left; reflexivity).
  apply IH. intros. apply H. right. assumption.
Qed.

Lemma sum_app a b : sum (a ++ b) = sum a + sum b.
Proof. induction a as [|x a IH]; [reflexivity|]. cbn [app sum fold_right]. fold (sum a) (sum (a ++ b)). lia. Qed.

Lemma sum_bound l m : Forall (fun x => 0 <= x <= m) l -> 0 <= sum l <= m * Z.of_nat (length l).
Proof. induction 1 as [|x l Hx Hl IH]; [cbn; lia|]. cbn [sum fold_right length]. fold (sum l). nia. Qed.

Lemma coef_bound a b j i : elem a -> elem b -> 0 <= at_ a j * coef b j i <= 2470950.
Proof.
  intros Ha Hb. pose proof (at_range a j Ha). unfold coef.
  destruct (j <=? i)%nat; [pose proof (at_range b (i - j) Hb)|pose proof (at_range b (i + 32 - j) Hb)]; nia.
Qed.

Lemma mul_column_adds a b i : elem a -> elem b -> (i < 32)%nat -> adds (column a b) (mul_column a b) i.
Proof.
  intros Ha Hb Hi c Hc.
  assert (Hsum : 0 <= column a b i <= 2470950 * 32).
  { unfold column. pose proof (sum_bound (map (fun j => at_ a j * coef b j i) (seq 0 32)) 2470950) as H.
    rewrite length_map, length_seq in H. apply H, Forall_map, Forall_forall. intros j _. apply coef_bound; assumption. }
  split; [|lia]. unfold mul_column.
  rewrite (fold_left_ext_in _ (fun c j => u32 (c + at_ a j * coef b j i)) (seq 0 (S i))).
  2:{ intros c' j Hj. apply in_seq in Hj. unfold coef. destruct (Nat.leb_spec j i); [reflexivity|lia]. }
  rewrite (fold_left_ext_in _ (fun c j => u32 (c + at_ a j * coef b j i)) (seq (S i) _)).
  2:{ intros c' j Hj. apply in_seq in Hj. change F25519_SIZE with 32%nat in *. pose proof (coef_bound a b j i Ha Hb) as Hcb. unfold coef in *.
      destruct (Nat.leb_spec j i); [lia|]. rewrite <- (Z.mul_assoc _ _ 38), (Z.mul_comm _ 38), (u32_small (_ * _)) by lia. reflexivity. }
  change F25519_SIZE with 32%nat. rewrite <- fold_left_app. change (seq (S i) (32 - S i)) with (seq (0 + S i) (32 - S i)).
  rewrite <- seq_app. replace (S i + (32 - S i))%nat with 32%nat by lia. rewrite fold_u32 by lia. apply u32_small. fold (column a b i). lia.
Qed.

Lemma le_word_columns (f : nat -> nat -> Z) (w : nat -> Z) js l :
  le_word (map (fun i => sum (map (fun j => w j * f j i) js)) l) = sum (map (fun j => w j * le_word (map (f j) l)) js).
Proof.
  induction js as [|j js IH].
  - cbn [map sum fold_right]. induction l as [|i l IHl]; [reflexivity|]. cbn [map le_word]. rewrite IHl. reflexivity.
  - cbn [map sum fold_right]. fold (sum (map (fun j => w j * le_word (map (f j) l)) js)). rewrite <- IH, <- le_word_map_scale, <- le_word_map_add. reflexivity.
Qed.

Lemma map_seq_at x n m : length x = 32%nat -> (n + m <= 32)%nat -> map (at_ x) (seq n m) = slice n m x.
Proof.
  intros L H. apply (nth_ext _ _ 0 0); rewrite length_map, length_seq; [rewrite length_slice; lia|].
  intros k Hk. rewrite (nth_indep _ 0 (at_ x 0)) by (rewrite length_map, length_seq; lia). rewrite map_nth, seq_nth by lia.
  unfold slice. rewrite nth_firstn, nth_skipn. destruct (Nat.ltb_spec k m); [reflexivity|lia].
Qed.

(** Row [j] of the product is [256^j * b], with what passes [256^32] folded
    back by [2^256 = 38]. *)
Lemma row_spec b j : elem b -> (j < 32)%nat -> le_word (map (coef b j) (seq 0 32)) == 256 ^ Z.of_nat j * le_word b.
Proof.
  intros [Bb Lb] Hj. replace 32%nat with (j + (32 - j))%nat at 1 by lia. rewrite seq_app, map_app, val_app, length_map, length_seq. cbn [Nat.add].
  assert (E1 : map (coef b j) (seq 0 j) = map (fun i => 38 * at_ b i) (seq (32 - j) j)).
  { replace (seq (32 - j) j) with (map (fun i => 32 - j + i)%nat (seq 0 j)) by (rewrite seq_map_add; f_equal; lia). rewrite map_map. apply map_ext_in. intros i Hi. apply in_seq in Hi.
    unfold coef. destruct (Nat.leb_spec j i); [lia|]. do 2 f_equal. lia. }
  assert (E2 : map (coef b j) (seq j (32 - j)) = map (at_ b) (seq 0 (32 - j))).
  { replace (seq j (32 - j)) with (map (fun i => j + i)%nat (seq 0 (32 - j))) by (rewrite seq_map_add; f_equal; lia). rewrite map_map. apply map_ext_in. intros i Hi.
    unfold coef. destruct (Nat.leb_spec j (j + i)); [|lia]. f_equal. lia. }
  rewrite E1, E2, le_word_map_scale, !map_seq_at by (auto; lia).
  assert (Eb : le_word b = le_word (slice 0 (32 - j) b) + 256 ^ Z.of_nat (32 - j) * le_word (slice (32 - j) j b)).
  { rewrite <- (firstn_skipn (32 - j) b) at 1. rewrite val_app, length_firstn. replace (Nat.min (32 - j) (length b)) with (32 - j)%nat by lia.
    unfold slice. rewrite skipn_O, (firstn_all2 (skipn _ b)) by (rewrite length_skipn; lia). reflexivity. }
  rewrite Eb, Z.mul_add_distr_l, Z.mul_assoc, <- Z.pow_add_r by lia. replace (Z.of_nat j + Z.of_nat (32 - j)) with 32 by lia.
  apply (eqm_of_mult _ _ (- (2 * le_word (slice (32 - j) j b)))). unfold p25519. change (256 ^ 32) with (2 * 2 ^ 255). lia.
Qed.

Lemma sum_eqm (f g : nat -> Z) l : (forall j, In j l -> f j == g j) -> sum (map f l) == sum (map g l).
Proof.
  induction l as [|j l IH]; intros H; [reflexivity|]. cbn [map sum fold_right]. fold (sum (map f l)) (sum (map g l)).
  rewrite (H j) by (left; reflexivity). rewrite IH by (intros; apply H; right; assumption). reflexivity.
Qed.

Lemma sum_powers a m : sum (map (fun j => at_ a j * (256 ^ Z.of_nat j * m)) (seq 0 (length a))) = le_word a * m.
Proof.
  revert m; induction a as [|x a IH]; intros m; [reflexivity|]. cbn [length seq map sum fold_right le_word].
  rewrite <- seq_shift, map_map. fold (sum (map (fun j => at_ (x :: a) (S j) * (256 ^ Z.of_nat (S j) * m)) (seq 0 (length a)))).
  rewrite (map_ext _ (fun j => at_ a j * (256 ^ Z.of_nat j * (256 * m)))), IH; [unfold at_; cbn [nth]; change (Z.of_nat 0) with 0; rewrite Z.pow_0_r; lia|].
  intros j. rewrite Nat2Z.inj_succ, Z.pow_succ_r by lia. unfold at_. cbn [nth]. lia.
Qed.

Lemma fe_mul_spec a b : elem a -> elem b ->
  reduced (fe_mul__distinct a b) /\ le_word (fe_mul__distinct a b) == le_word a * le_word b.
Proof.
  intros Ha Hb. destruct (shift_reduce_spec (column a b) (mul_column a b) (fe_mul__distinct a b)) as [Hr Hv].
  - apply Forall_forall. intros i Hi. apply in_seq in Hi. apply mul_column_adds; auto. lia.
  - reflexivity.
  - split; [exact Hr|]. rewrite Hv. unfold column. rewrite (le_word_columns (coef b) (at_ a)).
    rewrite <- sum_powers, (proj2 Ha). apply sum_eqm. intros j Hj. apply in_seq in Hj. rewrite row_spec by (auto; lia). reflexivity.
Qed.

(** *** Subtraction *)

Lemma reduced_elem x : reduced x -> elem x.
Proof. intros H. apply H. Qed.

Lemma split_last x : elem x -> le_word x = le_word (map (at_ x) (seq 0 31)) + 256 ^ 31 * at_ x 31.
Proof.
  intros [B L]. rewrite <- (map_at x L) at 1. change (seq 0 32) with (seq 0 31 ++ [31%nat]). rewrite map_app, val_app, length_map, length_seq.
  cbn [map le_word]. change (Z.of_nat 31) with 31. lia.
Qed.

Lemma u32_eq z z' : 0 <= z < 2 ^ 32 -> (exists k, z' = z + k * 2 ^ 32) -> u32 z' = z.
Proof. intros H [k ->]. unfold u32, wrap. rewrite Z_mod_plus_full. apply Z.mod_small. exact H. Qed.

Lemma u32_add_u32 c d : u32 (c + u32 d) = u32 (c + d).
Proof. unfold u32, wrap. apply Zplus_mod_idemp_r. Qed.

Lemma lm_sub_spec old a b : in_u 8 old -> elem a -> reduced b ->
  reduced (lm_sub old a b) /\ le_word (lm_sub old a b) == le_word a - le_word b.
Proof.
  intros Ho Ha [Hb Rb]. unfold lm_sub. change (F25519_SIZE - 1)%nat with 31%nat.
  destruct (shift_after _ (seq 0 31) 218) as [r c] eqn:E.
  apply (shift_after_sum (fun i => 65280 + at_ a i - at_ b i)) in E as (Br & Lr & Hc & V); [|apply Forall_forall; intros i _ c' Hc'|lia].
  2:{ pose proof (at_range a i Ha). pose proof (at_range b i Hb). rewrite (u32_small (65280 + _ - _)) by lia. rewrite u32_small by lia. lia. }
  rewrite length_seq in *. change (Z.of_nat 31) with 31 in V. pose proof (split_last a Ha) as Va. pose proof (split_last b Hb) as Vb.
  pose proof (at_range a 31 Ha) as Ra31. pose proof (at_range b 31 Hb) as Rb31. pose proof (le_word_range a (proj1 Ha)) as Ra. rewrite (proj2 Ha) in Ra.
  assert (Vm : le_word (map (fun i => 65280 + at_ a i - at_ b i) (seq 0 31)) + 218 = 256 ^ 32 - 38 - 256 ^ 32 * 0
     + le_word (map (at_ a) (seq 0 31)) - le_word (map (at_ b) (seq 0 31))).
  { rewrite (map_ext _ (fun i => (65280 + at_ a i) + (-1) * at_ b i)) by (intros; lia).
    rewrite (le_word_map_add (fun i => 65280 + at_ a i)), (le_word_map_add (fun _ => 65280)), (le_word_map_scale (at_ b)).
    replace (le_word (map (fun _ : nat => 65280) (seq 0 31))) with (256 ^ 32 - 256) by reflexivity. lia. }
  pose proof (le_word_range r Br) as Rr. rewrite Lr in Rr. change (Z.of_nat 31) with 31 in Rr. change (Z.of_nat 32) with 32 in Ra.
  set (m := 256 ^ 31) in *. assert (Hm : m = 2 ^ 248) by reflexivity. change (256 ^ 32) with (256 * m) in *.
  assert (Hpos : 0 <= c + (at_ a 31 - at_ b 31)).
  { change (2 ^ 255) with (128 * 2 ^ 248) in Rb. rewrite <- Hm in Rb. clearbody m.
    destruct (Z.le_gt_cases 0 (c + (at_ a 31 - at_ b 31))) as [|Hn]; [assumption|]. nia. }
  rewrite u32_add_u32, u32_small by lia.
  destruct (fe_reduce_spec (r ++ [old]) (c + (at_ a 31 - at_ b 31))) as [Hr Hv].
  { apply bytes_app; [exact Br|constructor; [exact Ho|constructor]]. } { rewrite length_app. cbn. lia. } { lia. }
  split; [exact Hr|]. rewrite Hv. rewrite firstn_app, Lr, Nat.sub_diag, firstn_O, app_nil_r, firstn_all2 by lia. fold m.
  apply (eqm_of_mult _ _ 2). unfold p25519. change (2 ^ 255) with (128 * 2 ^ 248). rewrite <- Hm. clearbody m. lia.
Qed.

(** *** Full reduction *)

(** The sign of a small number is its bit 15 as an unsigned. *)
Lemma land_2_15 c : -128 <= c < 256 -> (Z.land (u32 c) (Z.shiftl 1 15) =? 0) = (0 <=? c).
Proof.
  intros H. assert (Hall : forallb (fun k => let c := Z.of_nat k - 128 in eqb (Z.land (u32 c) (Z.shiftl 1 15) =? 0) (0 <=? c)) (seq 0 384) = true)
    by reflexivity.
  rewrite forallb_forall in Hall. specialize (Hall (Z.to_nat (c + 128)) ltac:(apply in_seq; lia)). cbn zeta in Hall.
  replace (Z.of_nat (Z.to_nat (c + 128)) - 128) with c in Hall by lia. apply eqb_prop, Hall.
Qed.

Lemma fe_normalize_spec x : elem x -> elem (fe_normalize x) /\ le_word (fe_normalize x) = le_word x mod p25519.
Proof.
  intros Hx. unfold fe_normalize. pose proof (at_range x 31 Hx) as R31.
  destruct (fe_reduce_spec x (at_ x 31)) as [[Hy Ry] Vy]; [apply Hx|apply Hx|lia|].
  assert (Ex : le_word (firstn 31 x) = le_word (map (at_ x) (seq 0 31))) by (rewrite map_seq_at by (apply Hx || lia); reflexivity).
  rewrite Ex, <- split_last in Vy by exact Hx. set (y := fe_reduce x (at_ x 31)) in *. clearbody y. rewrite <- Vy. clear Ex Vy R31 Hx x.
  change (F25519_SIZE - 1)%nat with 31%nat. destruct (shift_after _ (seq 0 31) 19) as [minusp c] eqn:E.
  apply (shift_after_sum (at_ y)) in E as (Bm & Lm & Hc & V); [|apply Forall_forall; intros i _; apply adds_at, Hy|lia].
  rewrite length_seq in *. change (Z.of_nat 31) with 31 in V. pose proof (split_last y Hy) as Sy. pose proof (at_range y 31 Hy) as R31.
  pose proof (le_word_range minusp Bm) as Rm. rewrite Lm in Rm. change (Z.of_nat 31) with 31 in Rm.
  assert (Hlow : 0 <= le_word (map (at_ y) (seq 0 31)) < 256 ^ 31).
  { rewrite map_seq_at by (apply Hy || lia). pose proof (le_word_range (slice 0 31 y) (bytes_slice 0 31 y (proj1 Hy))) as H.
    rewrite length_slice, (proj2 Hy) in H. exact H. }
  pose proof (le_word_range y (proj1 Hy)) as [Py _]. unfold p25519. change (2 ^ 255) with (128 * 2 ^ 248) in *. change (256 ^ 31) with (2 ^ 248) in *.
  set (m := 2 ^ 248) in *. assert (Hm : 2 ^ 30 < m) by reflexivity. assert (Em : 256 ^ Z.of_nat 31 = m) by reflexivity. clearbody m.
  assert (Hc1 : c <= 1) by nia. rewrite u32_add_u32. set (d := c + (at_ y 31 - 128)). rewrite land_2_15 by lia.
  assert (Hd : le_word minusp + m * d = le_word y - (128 * m - 19)) by (unfold d; lia).
  unfold fe_select. destruct (Z.leb_spec 0 d) as [Hpos|Hneg].
  - split.
    + split; [apply bytes_app; [exact Bm|constructor; [apply u8_range|constructor]]|rewrite length_app, Lm; reflexivity].
    + rewrite val_app, Lm, Em. cbn [le_word]. rewrite (u32_small d) by lia. unfold u8. rewrite wrap_small by (red; lia).
      apply (Z.mod_unique_pos _ _ 1); lia.
  - split; [exact Hy|]. symmetry. apply Z.mod_small. nia.
Qed.

(** *** Inversion *)

Definition fe_pow (x : Z) (r : list Z) (e : Z) : Prop := reduced r /\ le_word r == x ^ e.

Lemma pow_mul x r s a b : fe_pow x r a -> fe_pow x s b -> 0 <= a -> 0 <= b -> fe_pow x (fe_mul__distinct r s) (a + b).
Proof.
  intros [Hr Vr] [Hs Vs] Ha Hb. destruct (fe_mul_spec r s) as [Hm Vm]; auto using reduced_elem. split; [exact Hm|].
  rewrite Vm, Vr, Vs, Z.pow_add_r by lia. reflexivity.
Qed.

Lemma pow_mul_l x y r a : elem y -> le_word y = x -> fe_pow x r a -> 0 <= a -> fe_pow x (fe_mul__distinct r y) (a + 1).
Proof.
  intros Hy <- [Hr Vr] Ha. destruct (fe_mul_spec r y) as [Hm Vm]; auto using reduced_elem. split; [exact Hm|].
  rewrite Vm, Vr, Z.pow_add_r, Z.pow_1_r by lia. reflexivity.
Qed.

Lemma square_mul_iter y r a n :
  elem y -> fe_pow (le_word y) r a -> 0 <= a ->
  fe_pow (le_word y) (Nat.iter n (square_mul y) r) (2 ^ Z.of_nat n * (a + 1) - 1).
Proof.
  intros Hy Hr Ha. induction n as [|n IH]; [change (2 ^ Z.of_nat 0) with 1; replace (1 * (a + 1) - 1) with a by lia; exact Hr|].
  cbn [Nat.iter nat_rect]. assert (Hp : 0 < 2 ^ Z.of_nat n) by (apply Z.pow_pos_nonneg; lia).
  replace (2 ^ Z.of_nat (S n) * (a + 1) - 1) with ((2 ^ Z.of_nat n * (a + 1) - 1) + (2 ^ Z.of_nat n * (a + 1) - 1) + 1)
    by (rewrite Nat2Z.inj_succ, Z.pow_succ_r by lia; lia).
  apply pow_mul_l; [exact Hy|reflexivity|apply pow_mul; auto; nia|nia].
Qed.

(** The inverse, by Fermat's little theorem: the power [p - 2]. The argument
    may be any 32 bytes, the first square is taken of it as it is. *)
Lemma fe_inv_spec x : reduced x -> fe_pow (le_word x) (fe_inv__distinct x) (p25519 - 2).
Proof.
  intros Hx. assert (H1 : fe_pow (le_word x) x 1) by (split; [exact Hx|rewrite Z.pow_1_r; reflexivity]). unfold fe_inv__distinct.
  pose proof (square_mul_iter x x 1 249 (reduced_elem x Hx) H1 ltac:(lia)) as H2. set (r1 := Nat.iter 249 _ x) in *. clearbody r1.
  change (2 ^ Z.of_nat 249 * (1 + 1) - 1) with (2 ^ 250 - 1) in H2.
  pose proof (pow_mul _ _ _ _ _ H2 H2 ltac:(lia) ltac:(lia)) as H3. pose proof (pow_mul _ _ _ _ _ H3 H3 ltac:(lia) ltac:(lia)) as H4.
  pose proof (pow_mul_l _ x _ _ (reduced_elem x Hx) eq_refl H4 ltac:(lia)) as H5. pose proof (pow_mul _ _ _ _ _ H5 H5 ltac:(lia) ltac:(lia)) as H6.
  pose proof (square_mul_iter x _ _ 2 (reduced_elem x Hx) H6 ltac:(lia)) as H7. exact H7.
Qed.

(** ** The ladder in the field *)

Definition f_diffadd (x1 z1 x2 z2 x3 z3 : Z) : Z * Z :=
  let da := (x2 + z2) * (x3 - z3) in
  let cb := (x3 + z3) * (x2 - z2) in
  (z1 * ((da + cb) * (da + cb)) mod p25519, x1 * ((da - cb) * (da - cb)) mod p25519).

Definition f_double (x z : Z) : Z * Z :=
  let d := x * x - z * z in
  (d * d mod p25519, 4 * (x * z * (z * z + (x * x + 486662 * (x * z)))) mod p25519).

(** [P_(m-1)] and [P_m], in projective coordinates. *)
Definition f_step (e q : Z) (s : (Z * Z) * (Z * Z)) (i : nat) : (Z * Z) * (Z * Z) :=
  let '((x1, z1), (x, z)) := s in
  let prev := f_diffadd q 1 x z x1 z1 in
  let cur := f_double x z in
  if Z.testbit e (Z.of_nat i)
  then (cur, f_diffadd (fst prev) (snd prev) (fst cur) (snd cur) q 1)
  else (prev, cur).

Definition f_x25519 (e q : Z) : Z :=
  let '(_, (x, z)) := fold_left (f_step e q) (rev (seq 0 254)) ((1, 0), (q, 1)) in
  Zpow_mod z (p25519 - 2) p25519 * x mod p25519.

(** Bytes that stand for an element of the field. *)
Definition means (x : list Z) (v : Z) : Prop := elem x /\ le_word x == v.
Definition means_r (x : list Z) (v : Z) : Prop := reduced x /\ le_word x == v.

Lemma means_of x v : means_r x v -> means x v.
Proof. intros [H V]. split; [apply reduced_elem, H|exact V]. Qed.

Lemma means_mod x v : means_r x v -> means_r x (v mod p25519).
Proof. intros [H V]. split; [exact H|]. rewrite V, eqm_mod. reflexivity. Qed.

Create HintDb fe.

Section Ops.
Variable old : Z.
Hypothesis old_byte : in_u 8 old.

Lemma add_means a b u v : means a u -> means b v -> means_r (lm_add a b) (u + v).
Proof. intros [Ha Va] [Hb Vb]. destruct (lm_add_spec a b Ha Hb) as [Hr Vr]. split; [exact Hr|]. rewrite Vr, Va, Vb. reflexivity. Qed.

Lemma sub_means a b u v : means a u -> means_r b v -> means_r (lm_sub old a b) (u - v).
Proof. intros [Ha Va] [Hb Vb]. destruct (lm_sub_spec old a b old_byte Ha Hb) as [Hr Vr]. split; [exact Hr|]. rewrite Vr, Va, Vb. reflexivity. Qed.

Lemma mul_means a b u v : means a u -> means b v -> means_r (fe_mul__distinct a b) (u * v).
Proof. intros [Ha Va] [Hb Vb]. destruct (fe_mul_spec a b Ha Hb) as [Hr Vr]. split; [exact Hr|]. rewrite Vr, Va, Vb. reflexivity. Qed.

Lemma mul_c_means a u k : means a u -> 0 <= k < 2 ^ 20 -> means_r (fe_mul_c a k) (k * u).
Proof. intros [Ha Va] Hk. destruct (fe_mul_c_spec a k Ha Hk) as [Hr Vr]. split; [exact Hr|]. rewrite Vr, Va. reflexivity. Qed.

#[local] Hint Resolve add_means sub_means mul_means means_of means_mod : fe.

Definition means2 (x : list Z * list Z) (v : Z * Z) : Prop := means_r (fst x) (fst v) /\ means_r (snd x) (snd v).

Lemma diffadd_means x1 z1 x2 z2 x3 z3 u1 v1 u2 v2 u3 v3 :
  means x1 u1 -> means z1 v1 -> means x2 u2 -> means_r z2 v2 -> means x3 u3 -> means_r z3 v3 ->
  means2 (xc_diffadd old x1 z1 x2 z2 x3 z3) (f_diffadd u1 v1 u2 v2 u3 v3).
Proof. intros. split; cbn [fst snd xc_diffadd f_diffadd]; auto 14 with fe. Qed.

Lemma double_means x z u v : means x u -> means z v -> means2 (xc_double old x z) (f_double u v).
Proof.
  intros. split; cbn [fst snd xc_double f_double]; [auto 12 with fe|]. apply means_mod, mul_c_means; [|lia].
  apply means_of, mul_means; [auto with fe|]. apply means_of, add_means; [auto with fe|]. apply means_of, add_means; [auto with fe|].
  apply means_of, mul_c_means; [auto with fe|lia].
Qed.
End Ops.

Lemma small_reduced n : in_u 8 n -> means_r (small n) n.
Proof.
  intros H. red in H. assert (E : le_word (small n) = n) by (unfold small; cbn [repeat le_word]; lia).
  split; [split; [split|]|rewrite E; reflexivity].
  - constructor; [exact H|]. apply Forall_forall. intros x Hx. apply repeat_spec in Hx. subst x. red. lia.
  - reflexivity.
  - rewrite E. lia.
Qed.

(** Bit [i] of a number, in its bytes. *)
Lemma byte_bit e i : bytes e ->
  (Z.land (Z.shiftr (at_ e (Nat.shiftr i 3)) (Z.of_nat (Nat.land i 7))) 1 =? 0) = negb (Z.testbit (le_word e) (Z.of_nat i)).
Proof.
  intros B. replace (Nat.land i 7) with (i mod 8)%nat by (change 7%nat with (Nat.ones 3); rewrite Nat.land_ones; reflexivity).
  rewrite Nat.shiftr_div_pow2. change (2 ^ 3)%nat with 8%nat.
  assert (E : Z.testbit (le_word e) (Z.of_nat i) = Z.testbit (at_ e (i / 8)) (Z.of_nat (i mod 8))).
  { revert i; induction B as [|b e Hb B IH]; intros i; [unfold at_; destruct (i / 8)%nat; cbn [le_word nth]; rewrite !Z.testbit_0_l; reflexivity|].
    cbn [le_word]. red in Hb. destruct (Nat.lt_ge_cases i 8) as [Hi|Hi].
    - rewrite Nat.div_small, Nat.mod_small by exact Hi. unfold at_. cbn [nth].
      rewrite <- (Z.mod_pow2_bits_low (b + 256 * le_word e) 8) by lia. change (2 ^ 8) with 256 at 1.
      rewrite Z.mul_comm, Z_mod_plus_full, Z.mod_small by lia. reflexivity.
    - replace i with ((i - 8) + 1 * 8)%nat at 2 3 by lia. rewrite Nat.div_add, Nat.Div0.mod_add by lia. rewrite Nat.add_1_r. unfold at_ in IH |- *. cbn [nth].
      rewrite <- IH. replace (Z.of_nat i) with (Z.of_nat (i - 8) + 8) by lia. rewrite <- Z.div_pow2_bits by lia. change (2 ^ 8) with 256.
      rewrite Z.mul_comm, Z.div_add, Z.div_small by lia. reflexivity. }
  rewrite E, Z.testbit_eqb, Z.shiftr_div_pow2 by lia. generalize (at_ e (i / 8) / 2 ^ Z.of_nat (i mod 8)) as v. intros v.
  replace (Z.land v 1) with (v mod 2) by (change 1 with (Z.ones 1); rewrite Z.land_ones by lia; reflexivity).
  pose proof (Z.mod_pos_bound v 2 ltac:(lia)). destruct (Z.eqb_spec (v mod 2) 0), (Z.eqb_spec (v mod 2) 1); (reflexivity || lia).
Qed.

Section Ladder.
Variable old : Z.
Hypothesis old_byte : in_u 8 old.
Variables e q : list Z.
Hypotheses (e_elem : elem e) (q_elem : elem q).

Definition points_mean (s : points) (v : (Z * Z) * (Z * Z)) : Prop :=
  means (xm1 s) (fst (fst v)) /\ means_r (zm1 s) (snd (fst v)) /\ means (xm s) (fst (snd v)) /\ means_r (zm s) (snd (snd v)).

Lemma ladder_step_means s v i : points_mean s v -> points_mean (ladder_step old e q s i) (f_step (le_word e) (le_word q) v i).
Proof.
  destruct v as [[x1 z1] [x z]]. intros (H1 & H2 & H3 & H4). cbn [fst snd] in *. unfold ladder_step, f_step. rewrite byte_bit by apply e_elem.
  assert (Hq : means q (le_word q)) by (split; [exact q_elem|reflexivity]).
  assert (Hone : means_r (small 1) 1) by (apply small_reduced; red; lia).
  pose proof (diffadd_means old old_byte q (small 1) _ _ _ _ _ _ _ _ _ _ Hq (means_of _ _ Hone) H3 H4 H1 H2) as Hp.
  pose proof (double_means old old_byte _ _ _ _ H3 (means_of _ _ H4)) as Hd.
  destruct (xc_diffadd old q (small 1) _ _ _ _) as [a b]. destruct (xc_double old _ _) as [c d].
  destruct Hp as [Ha Hb]. destruct Hd as [Hc Hd]. cbn [fst snd] in Ha, Hb, Hc, Hd.
  pose proof (diffadd_means old old_byte a b c d q (small 1) _ _ _ _ _ _ (means_of _ _ Ha) (means_of _ _ Hb) (means_of _ _ Hc) Hd Hq Hone) as Hn.
  destruct (xc_diffadd old a b c d q (small 1)) as [c' d']. destruct Hn as [Hc' Hd']. cbn [fst snd] in Hc', Hd'.
  unfold points_mean. destruct (Z.testbit _ _); cbn [negb fst snd xm1 zm1 xm zm]; auto 6 using means_of.
Qed.

Lemma ladder_means l s v : points_mean s v -> points_mean (fold_left (ladder_step old e q) l s) (fold_left (f_step (le_word e) (le_word q)) l v).
Proof. revert s v; induction l as [|i l IH]; intros s v H; [exact H|]. cbn [fold_left]. apply IH, ladder_step_means, H. Qed.

Lemma curve25519_means : elem (curve25519 old e (Some q)) /\ le_word (curve25519 old e (Some q)) = f_x25519 (le_word e) (le_word q).
Proof.
  unfold curve25519, f_x25519.
  pose proof (ladder_means (rev (seq 0 254)) (mk_points (small 1) (small 0) q (small 1)) ((1, 0), (le_word q, 1))) as Hl.
  destruct (fold_left (f_step _ _) _ _) as [[x1 z1] [x z]]. destruct Hl as (_ & _ & Hx & Hz).
  { assert (Hs : forall n, 0 <= n < 10 -> means_r (small n) n) by (intros; apply small_reduced; red; lia).
    unfold points_mean. cbn [fst snd xm1 zm1 xm zm]. repeat split; try apply q_elem; apply Hs; lia. }
  cbn [fst snd] in Hx, Hz. set (s := fold_left _ _ _) in *. clearbody s. destruct Hz as [Hzr Hzv].
  destruct (fe_inv_spec (zm s) Hzr) as [Hi Vi].
  destruct (fe_mul_spec (fe_inv__distinct (zm s)) (xm s)) as [Hm Vm]; [apply reduced_elem, Hi|apply Hx|].
  destruct (fe_normalize_spec _ (reduced_elem _ Hm)) as [Hn Vn]. split; [exact Hn|]. rewrite Vn. change (_ mod p25519 = _ mod p25519) with
    (le_word (fe_mul__distinct (fe_inv__distinct (zm s)) (xm s)) == Zpow_mod z (p25519 - 2) p25519 * x).
  rewrite Vm, Vi, (proj2 Hx), Zpow_mod_correct, eqm_mod by (pose proof p_pos; lia).
  unfold eqm. rewrite Z.mul_mod, (Zpower_mod (le_word (zm s))), Hzv, <- Zpower_mod, <- Z.mul_mod by (pose proof p_pos; lia). reflexivity.
Qed.
End Ladder.

(** ** The properties *)

#[local] Opaque lm_add lm_sub fe_mul__distinct fe_mul_c fe_normalize fe_inv__distinct ladder_step f_x25519.

Lemma curve25519_base old e : curve25519 old e None = curve25519 old e (Some (small 9)).
Proof. unfold curve25519. cbv beta iota zeta. reflexivity. Qed.

#[local] Opaque curve25519.

(** Arithmetic modulo [2^255 - 19] on bytes: for any arrays of 32 bytes the
    sum, the product and the product by a small constant are those of the
    field, and so is the difference when what is subtracted came out of an
    operation; no carry is lost and nothing underflows; every result is below
    [2^255 + 2^30], so it can be subtracted; [fe_normalize] gives the one
    representative below the prime. *)
Theorem field_operations old a b k :
  in_u 8 old -> elem a -> elem b -> 0 <= k < 2 ^ 20 ->
  (reduced (lm_add a b) /\ eqm (le_word (lm_add a b)) (le_word a + le_word b))
  /\ (le_word b < 2 ^ 255 + 2 ^ 30 ->
      reduced (lm_sub old a b) /\ eqm (le_word (lm_sub old a b)) (le_word a - le_word b))
  /\ (reduced (fe_mul__distinct a b) /\ eqm (le_word (fe_mul__distinct a b)) (le_word a * le_word b))
  /\ (reduced (fe_mul_c a k) /\ eqm (le_word (fe_mul_c a k)) (k * le_word a))
  /\ (elem (fe_normalize a) /\ le_word (fe_normalize a) = le_word a mod p25519).
Proof.
  intros Ho Ha Hb Hk. split; [apply lm_add_spec; assumption|]. split; [intros H; apply lm_sub_spec; auto; split; assumption|].
  split; [apply fe_mul_spec; assumption|]. split; [apply fe_mul_c_spec; assumption|apply fe_normalize_spec, Ha].
Qed.

Lemma ones_elem : elem (repeat 255 32).
Proof. split; [apply is_bytes_ok|]; reflexivity. Qed.

Lemma field_operations_witness :
  eqm (le_word (fe_mul__distinct (repeat 255 32) (repeat 255 32))) (le_word (repeat 255 32) * le_word (repeat 255 32)).
Proof.
  refine (proj2 (proj1 (proj2 (proj2 (field_operations 0 (repeat 255 32) (repeat 255 32) 0 _ ones_elem ones_elem _)))));
    [split; [discriminate|reflexivity]|lia].
Defined.

(** C24. [curve25519] returns the 32 bytes, least significant first and fully
    reduced, of the x coordinate the Montgomery ladder computes in the field
    for the scalar [e] (its bits 253 to 0; bit 254 is taken to be set) and the
    point [q], the base point 9 when there is none. All 256 bits of [q]
    count. *)
Theorem curve25519_correct old e q :
  in_u 8 old -> elem e -> elem q ->
  curve25519 old e (Some q) = le_bytes 32 (f_x25519 (le_word e) (le_word q))
  /\ curve25519 old e None = le_bytes 32 (f_x25519 (le_word e) 9).
Proof.
  intros Ho He Hq.
  assert (H : forall q, elem q -> curve25519 old e (Some q) = le_bytes 32 (f_x25519 (le_word e) (le_word q))).
  { intros x Hx. destruct (curve25519_means old Ho e x He Hx) as [[B L] <-]. rewrite <- L. symmetry. apply le_bytes_word, B. }
  split; [apply H, Hq|]. rewrite curve25519_base, H by (apply reduced_elem, small_reduced; red; lia). reflexivity.
Qed.

Lemma curve25519_correct_witness :
  curve25519 0 (repeat 64 32) (Some (repeat 255 32)) = le_bytes 32 (f_x25519 (le_word (repeat 64 32)) (le_word (repeat 255 32))).
Proof.
  refine (proj1 (curve25519_correct 0 (repeat 64 32) (repeat 255 32) _ _ ones_elem));
    [split; [discriminate|reflexivity]|split; [apply is_bytes_ok|]; reflexivity].
Defined.

End Fe.
