(* ===== verification/BcNum.v ===== *)
(** * The numbers of bc and dc

    The arbitrary-precision decimal arithmetic of miscutils/bc.c: the
    structure [BcNum], its buffer management, comparison, and the operations
    [zbc_num_*], with every array access checked.

    A number is an array of [cap] decimal digits, the least significant first,
    of which [len] are in use and the first [rdx] stand after the decimal
    point. The contents of newly allocated memory are the parameter
    [garbage]; [G_interrupt] says at which iteration of a loop that looks at
    the flag a ^C has arrived. A size_t is 64 bits wide. *)

From Stdlib Require Import ZArith List Lia Bool.
From S2P Require Import Prelude Words Mem.
Import ListNotations.
Local Open Scope Z_scope.
Local Open Scope res_scope.

Module Bc.

(** ** Data *)

Record BcNum := mkNum { num : list Z; rdx : nat; len : nat; neg : bool }.

Definition cap (n : BcNum) : nat := length (num n).

Definition set_num (n : BcNum) (l : list Z) : BcNum := mkNum l (rdx n) (len n) (neg n).
Definition set_rdx (n : BcNum) (r : nat) : BcNum := mkNum (num n) r (len n) (neg n).
Definition set_len (n : BcNum) (k : nat) : BcNum := mkNum (num n) (rdx n) k (neg n).
Definition set_neg (n : BcNum) (b : bool) : BcNum := mkNum (num n) (rdx n) (len n) b.

(** The messages of [bc_error], and the status after a ^C. *)
Inductive BcStatus :=
| divide_by_zero
| not_an_integer
| negative_number
| overflow
| number_too_long
| BC_STATUS_FAILURE.

Definition result := res BcStatus.

Definition BC_NUM_DEF_SIZE : nat := 16.
Definition BC_NUM_KARATSUBA_LEN : nat := 32.
Definition BC_MAX_NUM : Z := 2 ^ 32 - 2.
Definition ULONG_NUM_BUFSIZE : nat := 20.

(** Conversion to a [BcDig], a signed char. *)
Definition s8 (z : Z) : Z := (z + 128) mod 256 - 128.

Section Numbers.
Variable garbage : nat -> Z.
Variable G_interrupt : nat -> bool.

(** ** Buffers *)

Definition xmalloc (n : nat) : list Z := map garbage (seq 0 n).

Definition bc_num_setToZero (n : BcNum) (scale : nat) : BcNum := mkNum (num n) scale 0 false.

Definition bc_num_zero (n : BcNum) : BcNum := bc_num_setToZero n 0.

Definition bc_num_one (n : BcNum) : result BcNum :=
  let n := set_len (bc_num_setToZero n 0) 1 in
  let! l := store1 (num n) 0 1 in Ok (set_num n l).

Definition bc_num_init (req : nat) : BcNum := mkNum (xmalloc (Nat.max req BC_NUM_DEF_SIZE)) 0 0 false.

Definition bc_num_expand (n : BcNum) (req : nat) : BcNum :=
  let req := Nat.max req BC_NUM_DEF_SIZE in
  if (cap n <? req)%nat then set_num n (num n ++ xmalloc (req - cap n)) else n.

Definition bc_num_copy (d s : BcNum) : result BcNum :=
  let d := bc_num_expand d (cap s) in
  let! w := load (num s) 0 (len s) in
  let! l := store (num d) 0 w in
  Ok (mkNum l (rdx s) (len s) (neg s)).

Definition bc_num_init_and_copy (s : BcNum) : result BcNum := bc_num_copy (bc_num_init (len s)) s.

(** ** Conversion from and to an unsigned long *)

Definition zbc_num_ulong_abs (n : BcNum) : result Z :=
  for_down (len n - rdx n) (fun i result =>
    let prev := result in
    let! d := load1 (num n) (rdx n + i) in
    let result := u64 (result * 10 + d) in
    if result / 8 <? prev then Die overflow else Ok result) 0.

Definition zbc_num_ulong (n : BcNum) : result Z :=
  if neg n then Die negative_number else zbc_num_ulong_abs n.

Fixpoint ulong2num_loop (fuel : nat) (n : BcNum) (val : Z) : result BcNum :=
  match fuel with
  | O => Diverge
  | S fuel =>
      let! l := store1 (num n) (len n) (s8 (val mod 10)) in
      let n := set_len (set_num n l) (S (len n)) in
      let val := val / 10 in
      if val =? 0 then Ok n else ulong2num_loop fuel n val
  end.

Definition bc_num_ulong2num (n : BcNum) (val : Z) : result BcNum :=
  let n := bc_num_zero n in
  if val =? 0 then Ok n else
  ulong2num_loop 20 (bc_num_expand n ULONG_NUM_BUFSIZE) val.

(** ** Digit arrays *)

Fixpoint borrow (fuel : nat) (a : list Z) (j : nat) : result (list Z) :=
  match fuel with
  | O => Diverge
  | S fuel =>
      let! d := load1 a j in
      if d <? 0 then
        let! a := store1 a j (s8 (d + 10)) in
        let! e := load1 a (S j) in
        let! a := store1 a (S j) (s8 (e - 1)) in
        borrow fuel a (S j)
      else Ok a
  end.

(** [bc_num_subArrays(a + start, b, n)] *)
Definition bc_num_subArrays (a : list Z) (start : nat) (b : list Z) (n : nat) : result (list Z) :=
  for_up n 0 (fun i a =>
    let! x := load1 a (start + i) in
    let! y := load1 b i in
    let! a := store1 a (start + i) (s8 (x - y)) in
    borrow (S (length a)) a (start + i)) a.

(** [bc_num_compare(a + sa, b + sb, i)] *)
Fixpoint bc_num_compare (a : list Z) (sa : nat) (b : list Z) (sb : nat) (i : nat) : result Z :=
  match i with
  | O => Ok 0
  | S i =>
      let! x := load1 a (sa + i) in
      let! y := load1 b (sb + i) in
      let c := x - y in
      if c =? 0 then bc_num_compare a sa b sb i
      else if c <? 0 then Ok (- Z.of_nat (S i)) else Ok (Z.of_nat (S i))
  end.

(** ** Sizes and comparison *)

Definition BC_NUM_NEG (n : Z) (neg : bool) : Z := Z.lxor n (- b2z neg) + b2z neg.

Definition BC_NUM_ONE (n : BcNum) : bool :=
  (len n =? 1)%nat && (rdx n =? 0)%nat && (nth 0 (num n) 0 =? 1).

Definition BC_NUM_INT (n : BcNum) : Z := u64 (Z.of_nat (len n) - Z.of_nat (rdx n)).

Definition BC_NUM_AREQ (a b : BcNum) : nat :=
  Z.to_nat (u64 (Z.max (Z.of_nat (rdx a)) (Z.of_nat (rdx b)) + Z.max (BC_NUM_INT a) (BC_NUM_INT b) + 1)).

Definition BC_NUM_MREQ (a b : BcNum) (scale : nat) : nat :=
  Z.to_nat (u64 (BC_NUM_INT a + BC_NUM_INT b + Z.max (Z.of_nat scale) (u64 (Z.of_nat (rdx a) + Z.of_nat (rdx b))) + 1)).

Fixpoint tail_nonzero (l : list Z) (i : nat) : result bool :=
  match i with
  | O => Ok false
  | S i => let! d := load1 l i in if d =? 0 then tail_nonzero l i else Ok true
  end.

Definition bc_num_cmp (a b : BcNum) : result Z :=
  if (len a =? 0)%nat then Ok (BC_NUM_NEG (b2z (negb (len b =? 0)%nat)) (negb (neg b))) else
  if (len b =? 0)%nat then Ok (BC_NUM_NEG 1 (neg a)) else
  if xorb (neg a) (neg b) then Ok (b2z (neg b) - b2z (neg a)) else
  let a_int := u64 (BC_NUM_INT a - BC_NUM_INT b) in
  if negb (a_int =? 0) then Ok (if neg a then - s64 a_int else s64 a_int) else
  let a_max := (rdx b <? rdx a)%nat in
  let min := if a_max then rdx b else rdx a in
  let diff := if a_max then (rdx a - rdx b)%nat else (rdx b - rdx a)%nat in
  let max_num := if a_max then num a else num b in
  let min_num := if a_max then num b else num a in
  let neg := if a_max then neg a else negb (neg a) in
  let! cmp := bc_num_compare max_num diff min_num 0 (Z.to_nat (BC_NUM_INT b) + min) in
  if negb (cmp =? 0) then Ok (BC_NUM_NEG cmp neg) else
  let! nz := tail_nonzero max_num diff in
  Ok (if nz then BC_NUM_NEG 1 neg else 0).

(** ** Scale and length *)

Definition bc_num_truncate (n : BcNum) (places : nat) : result BcNum :=
  if (places =? 0)%nat then Ok n else
  let n := set_rdx n (rdx n - places) in
  if (len n =? 0)%nat then Ok n else
  if (len n <? places)%nat then Fault else
  let n := set_len n (len n - places) in
  let! w := load (num n) places (len n) in
  let! l := store (num n) 0 w in
  Ok (set_num n l).

Definition bc_num_extend (n : BcNum) (places : nat) : result BcNum :=
  let l := (len n + places)%nat in
  if (places =? 0)%nat then Ok n else
  let n := if (cap n <? l)%nat then bc_num_expand n l else n in
  let! w := load (num n) 0 (len n) in
  let! d := store (num n) places w in
  let! d := store d 0 (repeat 0 places) in
  Ok (mkNum d (rdx n + places) (len n + places) (neg n)).

(** The number of digits once the zeros in front are dropped. *)
Fixpoint strip_zeros (l : list Z) (k : nat) : result nat :=
  match k with
  | O => Ok O
  | S k' => let! d := load1 l k' in if d =? 0 then strip_zeros l k' else Ok k
  end.

Definition bc_num_clean (n : BcNum) : result BcNum :=
  let! k := strip_zeros (num n) (len n) in
  let n := set_len n k in
  Ok (if (k =? 0)%nat then set_neg n false
      else if (k <? rdx n)%nat then set_len n (rdx n) else n).

Definition bc_num_retireMul (n : BcNum) (scale : nat) (neg1 neg2 : bool) : result BcNum :=
  let! n := (if (rdx n <? scale)%nat then bc_num_extend n (scale - rdx n)
             else bc_num_truncate n (rdx n - scale)) in
  let! n := bc_num_clean n in
  Ok (if (len n =? 0)%nat then n else set_neg n (xorb neg1 neg2)).

Definition bc_num_split (n : BcNum) (idx : nat) (a b : BcNum) : result (BcNum * BcNum) :=
  let! (a, b) :=
    (if (idx <? len n)%nat then
       let b_len := (len n - idx)%nat in
       let! w := load (num n) idx b_len in
       let! lb := store (num b) 0 w in
       let! w := load (num n) 0 idx in
       let! la := store (num a) 0 w in
       Ok (mkNum la 0 idx (neg a), mkNum lb 0 b_len (neg b))
     else
       let! a := bc_num_copy a n in Ok (a, bc_num_zero b)) in
  let! a := bc_num_clean a in
  let! b := bc_num_clean b in
  Ok (a, b).

Definition zbc_num_shift (n : BcNum) (places : nat) : result BcNum :=
  if (places =? 0)%nat || (len n =? 0)%nat then Ok n else
  if BC_MAX_NUM <? Z.of_nat (places + len n) then Die number_too_long else
  let! n := (if (places <=? rdx n)%nat then Ok (set_rdx n (rdx n - places))
             else let! n := bc_num_extend n (places - rdx n) in Ok (set_rdx n 0)) in
  bc_num_clean n.

(** ** Addition and subtraction *)

Definition BcNumBinaryOp := BcNum -> BcNum -> BcNum -> nat -> result BcNum.

(** [alias]: [c] is the same object as [a] or [b]; the operand is then moved
    away and [c] gets memory of its own. *)
Definition zbc_num_binary (alias : bool) (a b c : BcNum) (scale : nat) (op : BcNumBinaryOp) (req : nat) : result BcNum :=
  let c := if alias then bc_num_init req else bc_num_expand c req in
  op a b c scale.

(** One digit of the sum of two arrays; [(l, carry)] is the array written to. *)
Definition add_digit (in_ : Z) (pos : nat) (l : list Z) : result (list Z * Z) :=
  let carry := in_ / 10 in
  let! l := store1 l pos (s8 (in_ mod 10)) in
  Ok (l, carry).

Definition zbc_num_a (a b c : BcNum) (sub : nat) : result BcNum :=
  if (len a =? 0)%nat then
    let! c := bc_num_copy c b in
    Ok (if negb (sub =? 0)%nat && negb (len c =? 0)%nat then set_neg c (negb (neg c)) else c)
  else if (len b =? 0)%nat then bc_num_copy c a else
  let c_rdx := Nat.max (rdx a) (rdx b) in
  let min_rdx := Nat.min (rdx a) (rdx b) in
  let a_longer := (rdx b <? rdx a)%nat in
  let diff := if a_longer then (rdx a - rdx b)%nat else (rdx b - rdx a)%nat in
  let ptr := if a_longer then num a else num b in
  let off_a := if a_longer then diff else O in
  let off_b := if a_longer then O else diff in
  let! l := for_up diff 0 (fun i l => let! d := load1 ptr i in store1 l i d) (num c) in
  let a_int := Z.to_nat (BC_NUM_INT a) in
  let b_int := Z.to_nat (BC_NUM_INT b) in
  let a_big := (b_int <? a_int)%nat in
  let min_int := if a_big then b_int else a_int in
  let max := if a_big then a_int else b_int in
  let ptr := if a_big then num a else num b in
  let off := if a_big then off_a else off_b in
  let! (l, carry) := for_up (min_rdx + min_int) 0 (fun i (s : list Z * Z) =>
      let (l, carry) := s in
      let! x := load1 (num a) (off_a + i) in
      let! y := load1 (num b) (off_b + i) in
      add_digit (u32 (u32 x + u32 y + carry)) (diff + i) l) (l, 0) in
  let! (l, carry) := for_up (max - min_int) (min_rdx + min_int) (fun i (s : list Z * Z) =>
      let (l, carry) := s in
      let! x := load1 ptr (off + i) in
      add_digit (u32 (u32 x + carry)) (diff + i) l) (l, carry) in
  let c_len := (diff + (max + min_rdx))%nat in
  if carry =? 0 then Ok (mkNum l c_rdx c_len (neg a)) else
  let! l := store1 l c_len (s8 carry) in
  Ok (mkNum l c_rdx (S c_len) (neg a)).

Definition zbc_num_s (a b c : BcNum) (sub : nat) : result BcNum :=
  if (len a =? 0)%nat then
    let! c := bc_num_copy c b in
    Ok (if negb (sub =? 0)%nat && negb (len c =? 0)%nat then set_neg c (negb (neg c)) else c)
  else if (len b =? 0)%nat then bc_num_copy c a else
  let! cmp := bc_num_cmp (set_neg a false) (set_neg b false) in
  if cmp =? 0 then Ok (bc_num_setToZero c (Nat.max (rdx a) (rdx b))) else
  let neg := if 0 <? cmp then neg a else if negb (sub =? 0)%nat then negb (neg b) else neg b in
  let minuend := if 0 <? cmp then a else b in
  let subtrahend := if 0 <? cmp then b else a in
  let! c := bc_num_copy c minuend in
  let c := set_neg c neg in
  let! (c, start) :=
    (if (rdx c <? rdx subtrahend)%nat then
       let! c := bc_num_extend c (rdx subtrahend - rdx c) in Ok (c, O)
     else Ok (c, (rdx c - rdx subtrahend)%nat)) in
  let! l := bc_num_subArrays (num c) start (num subtrahend) (len subtrahend) in
  bc_num_clean (set_num c l).

Definition zbc_num_add (alias : bool) (a b c : BcNum) (scale : nat) : result BcNum :=
  let op := if eqb (neg a) (neg b) then zbc_num_a else zbc_num_s in
  zbc_num_binary alias a b c 0 op (BC_NUM_AREQ a b).

Definition zbc_num_sub (alias : bool) (a b c : BcNum) (scale : nat) : result BcNum :=
  let op := if eqb (neg a) (neg b) then zbc_num_s else zbc_num_a in
  zbc_num_binary alias a b c 1 op (BC_NUM_AREQ a b).

(** ** Multiplication *)

(** One row of the schoolbook product: [c[i..] += a * b[i]]. *)
Definition mul_row (a b : list Z) (alen i : nat) (l : list Z) : result (list Z * Z) :=
  for_up alen 0 (fun j (s : list Z * Z) =>
    let (l, carry) := s in
    let! in_ := load1 l (i + j) in
    let! x := load1 a j in
    let! y := load1 b i in
    add_digit (u32 (u32 in_ + (u32 x * u32 y + carry))) (i + j) l) (l, 0).

Definition schoolbook (a b c : BcNum) : result BcNum :=
  let c := bc_num_expand c (len a + len b + 1) in
  let! (l, n) := for_up (len b) 0 (fun i (s : list Z * nat) =>
      let (l, n) := s in
      let! (l, carry) := mul_row (num a) (num b) (len a) i l in
      let! d := load1 l (i + len a) in
      let! l := store1 l (i + len a) (s8 (d + s8 carry)) in
      let n := Nat.max n (i + len a + (if carry =? 0 then 0 else 1)) in
      if G_interrupt i then Die BC_STATUS_FAILURE else Ok (l, n)) (repeat 0 (cap c), O) in
  Ok (mkNum l (rdx c) n (neg c)).

Fixpoint zbc_num_k (fuel : nat) (a b c : BcNum) : result BcNum :=
  match fuel with
  | O => Diverge
  | S fuel =>
      if (len a =? 0)%nat || (len b =? 0)%nat then Ok (bc_num_zero c) else
      let aone := BC_NUM_ONE a in
      if aone || BC_NUM_ONE b then bc_num_copy c (if aone then b else a) else
      if (len a <? BC_NUM_KARATSUBA_LEN)%nat || (len b <? BC_NUM_KARATSUBA_LEN)%nat then schoolbook a b c else
      let max := Nat.max (len a) (len b) in
      let max2 := ((max + 1) / 2)%nat in
      let! (l1, h1) := bc_num_split a max2 (bc_num_init max) (bc_num_init max) in
      let! (l2, h2) := bc_num_split b max2 (bc_num_init max) (bc_num_init max) in
      let! m1 := zbc_num_add false h1 l1 (bc_num_init max) 0 in
      let! m2 := zbc_num_add false h2 l2 (bc_num_init max) 0 in
      let! z0 := zbc_num_k fuel h1 h2 (bc_num_init max) in
      let! z1 := zbc_num_k fuel m1 m2 (bc_num_init max) in
      let! z2 := zbc_num_k fuel l1 l2 (bc_num_init max) in
      let! temp := zbc_num_sub false z1 z0 (bc_num_init (max + max)) 0 in
      let! z1 := zbc_num_sub false temp z2 z1 0 in
      let! z0 := zbc_num_shift z0 (max2 * 2) in
      let! z1 := zbc_num_shift z1 max2 in
      let! temp := zbc_num_add false z0 z1 temp 0 in
      zbc_num_add false temp z2 c 0
  end.

(** Enough fuel for the recursion of [zbc_num_k], whose operands get shorter. *)
Definition k_fuel (a b : BcNum) : nat := S (Nat.max (len a) (len b)).

Definition zbc_num_m (a b c : BcNum) (scale : nat) : result BcNum :=
  let maxrdx := Nat.max (rdx a) (rdx b) in
  let scale := Nat.max scale (rdx a) in
  let scale := Nat.max scale (rdx b) in
  let scale := Nat.min (rdx a + rdx b) scale in
  let maxrdx := Nat.max maxrdx scale in
  let! cpa := bc_num_init_and_copy a in
  let! cpb := bc_num_init_and_copy b in
  let! cpa := zbc_num_shift (set_neg cpa false) maxrdx in
  let! cpb := zbc_num_shift (set_neg cpb false) maxrdx in
  let! c := zbc_num_k (k_fuel cpa cpb) cpa cpb c in
  let maxrdx := (maxrdx + scale)%nat in
  let c := bc_num_expand c (len c + maxrdx) in
  let! c := (if (len c <? maxrdx)%nat then
               let! l := store (num c) (len c) (repeat 0 (cap c - len c)) in
               Ok (set_len (set_num c l) (len c + maxrdx))
             else Ok c) in
  bc_num_retireMul (set_rdx c maxrdx) scale (neg a) (neg b).

Definition zbc_num_mul (alias : bool) (a b c : BcNum) (scale : nat) : result BcNum :=
  zbc_num_binary alias a b c scale zbc_num_m (BC_NUM_MREQ a b scale).

(** ** Division *)

(** How often the divisor [b] of [n] digits can be subtracted from the digits
    at [start]: the array afterwards and the count. *)
Fixpoint quotient_digit (fuel : nat) (l : list Z) (start : nat) (b : list Z) (n : nat) (q : Z) : result (list Z * Z) :=
  match fuel with
  | O => Diverge
  | S fuel =>
      let! top := load1 l (start + n) in
      let! again := (if negb (top =? 0) then Ok true
                     else let! cmp := bc_num_compare l start b 0 n in Ok (0 <=? cmp)) in
      if again then
        let! l := bc_num_subArrays l start b n in
        quotient_digit fuel l start b n (s8 (q + 1))
      else Ok (l, q)
  end.

(** The length of the divisor without the zeros in front. *)
Definition divisor_len (b : BcNum) : result nat :=
  if (rdx b =? len b)%nat then
    let! k := strip_zeros (num b) (len b) in Ok (Nat.max k 1)
  else Ok (len b).

(** The dividend, with zeros behind it for the divisor and for the scale. *)
Definition dividend (a b : BcNum) (scale : nat) : result BcNum :=
  let! cp := bc_num_copy (bc_num_init (BC_NUM_MREQ a b scale)) a in
  let! cp := (if (len cp <? len b)%nat then bc_num_extend (bc_num_expand cp (len b + 2)) (len b - len cp) else Ok cp) in
  let! cp := (if (rdx cp <? rdx b)%nat then bc_num_extend cp (rdx b - rdx cp) else Ok cp) in
  let cp := set_rdx cp (rdx cp - rdx b) in
  if (rdx cp <? scale)%nat then bc_num_extend cp (scale - rdx cp) else Ok cp.

(** The digits of the quotient of [cp] and the [n] digits of [b]. *)
Definition long_division (cp b c : BcNum) (n : nat) : result BcNum :=
  let cp := if (cap cp =? len cp)%nat then bc_num_expand cp (len cp + 1) else cp in
  let! l := store1 (num cp) (len cp) 0 in
  let cp := set_len (set_num cp l) (S (len cp)) in
  let end_ := (len cp - n)%nat in
  let c := bc_num_zero (bc_num_expand c (len cp)) in
  let! lc := store (num c) end_ (repeat 0 (cap c - end_)) in
  let! (l, lc) := for_down end_ (fun i (s : list Z * list Z) =>
      let (l, lc) := s in
      let! (l, q) := quotient_digit 256 l i (num b) n 0 in
      let! lc := store1 lc i q in
      if G_interrupt i then Die BC_STATUS_FAILURE else Ok (l, lc)) (num cp, lc) in
  Ok (mkNum lc (rdx cp) (len cp) false).

Definition zbc_num_d (a b c : BcNum) (scale : nat) : result BcNum :=
  if (len b =? 0)%nat then Die divide_by_zero else
  if (len a =? 0)%nat then Ok (bc_num_setToZero c scale) else
  if BC_NUM_ONE b then
    let! c := bc_num_copy c a in bc_num_retireMul c scale (neg a) (neg b)
  else
  let! cp := dividend a b scale in
  let! n := divisor_len b in
  let! c := long_division cp b c n in
  bc_num_retireMul c scale (neg a) (neg b).

Definition zbc_num_div (alias : bool) (a b c : BcNum) (scale : nat) : result BcNum :=
  zbc_num_binary alias a b c scale zbc_num_d (BC_NUM_MREQ a b scale).

(** The quotient [c] and the remainder [d]. *)
Definition zbc_num_r (a b c d : BcNum) (scale ts : nat) : result (BcNum * BcNum) :=
  if (len b =? 0)%nat then Die divide_by_zero else
  if (len a =? 0)%nat then Ok (c, bc_num_setToZero d ts) else
  let temp := bc_num_init (cap d) in
  let! c := zbc_num_d a b c scale in
  let scale := if (scale =? 0)%nat then scale else ts in
  let! temp := zbc_num_m c b temp scale in
  let! d := zbc_num_sub false a temp d scale in
  let! d := (if (rdx d <? ts)%nat && negb (len d =? 0)%nat then bc_num_extend d (ts - rdx d) else Ok d) in
  let neg_ := neg d in
  let! d := bc_num_retireMul d ts (neg a) (neg b) in
  Ok (c, set_neg d neg_).

Definition zbc_num_rem (a b c : BcNum) (scale : nat) : result BcNum :=
  let ts := Nat.max (scale + rdx b) (rdx a) in
  let! (_, c) := zbc_num_r a b (bc_num_init (BC_NUM_MREQ a b ts)) c scale ts in
  Ok c.

Definition zbc_num_mod (alias : bool) (a b c : BcNum) (scale : nat) : result BcNum :=
  zbc_num_binary alias a b c scale zbc_num_rem (BC_NUM_MREQ a b scale).

Definition zbc_num_divmod (alias : bool) (a b c d : BcNum) (scale : nat) : result (BcNum * BcNum) :=
  let ts := Nat.max (scale + rdx b) (rdx a) in
  let n := BC_NUM_MREQ a b ts in
  zbc_num_r a b (if alias then bc_num_init n else bc_num_expand c n) d scale ts.

(** ** Powers *)

(** A size_t computed by an operation that can wrap. *)
Definition size (z : Z) : nat := Z.to_nat (u64 z).

(** [alias]: [a] and [b] are the same object. *)
Definition zbc_num_inv (alias : bool) (a b : BcNum) (scale : nat) : result BcNum :=
  let! one := bc_num_one (mkNum (xmalloc 2) 0 0 false) in
  zbc_num_div alias one a b scale.

(** Is one of the [n] digits from [i] on not zero? *)
Fixpoint some_nonzero (l : list Z) (i n : nat) : result bool :=
  match n with
  | O => Ok false
  | S n => let! d := load1 l i in if d =? 0 then some_nonzero l (S i) n else Ok true
  end.

(** Squares while the exponent is even. *)
Fixpoint pow_even (fuel : nat) (copy : BcNum) (powrdx : nat) (pow : Z) : result (BcNum * nat * Z) :=
  match fuel with
  | O => Diverge
  | S fuel =>
      if Z.odd pow then Ok (copy, powrdx, pow) else
      let powrdx := size (2 * Z.of_nat powrdx) in
      let! copy := zbc_num_mul true copy copy copy powrdx in
      pow_even fuel copy powrdx (pow / 2)
  end.

Fixpoint pow_rest (fuel : nat) (c copy : BcNum) (powrdx resrdx : nat) (pow : Z) : result BcNum :=
  match fuel with
  | O => Diverge
  | S fuel =>
      if pow =? 0 then Ok c else
      let powrdx := size (2 * Z.of_nat powrdx) in
      let! copy := zbc_num_mul true copy copy copy powrdx in
      let! (c, resrdx) :=
        (if Z.odd pow then
           let resrdx := size (Z.of_nat resrdx + Z.of_nat powrdx) in
           let! c := zbc_num_mul true c copy c resrdx in Ok (c, resrdx)
         else Ok (c, resrdx)) in
      pow_rest fuel c copy powrdx resrdx (pow / 2)
  end.

(** The scale of the result. *)
Definition pow_scale (neg : bool) (a_rdx scale : nat) (pow : Z) : nat :=
  if neg then scale else
  let scale := if (scale <? a_rdx)%nat then a_rdx else scale in
  let new_scale := u64 (Z.of_nat a_rdx * pow) in
  if ((a_rdx =? 0)%nat || (pow <=? new_scale)) && (new_scale <? Z.of_nat scale) then Z.to_nat new_scale
  else scale.

Definition zbc_num_p (a b c : BcNum) (scale : nat) : result BcNum :=
  let! nz := some_nonzero (num b) 0 (rdx b) in
  if nz then Die not_an_integer else
  if (len b =? 0)%nat then bc_num_one c else
  if (len a =? 0)%nat then Ok (bc_num_setToZero c scale) else
  if BC_NUM_ONE b then (if negb (neg b) then bc_num_copy c a else zbc_num_inv false a c scale) else
  let! pow := zbc_num_ulong_abs b in
  let! copy := bc_num_init_and_copy a in
  let a_rdx := rdx a in
  let scale := pow_scale (neg b) a_rdx scale pow in
  let! (copy, powrdx, pow) := pow_even 64 copy a_rdx pow in
  let! c := bc_num_copy c copy in
  let! c := pow_rest 64 c copy powrdx powrdx (pow / 2) in
  let! c := (if neg b then zbc_num_inv true c c scale else Ok c) in
  let! c := (if (scale <? rdx c)%nat then bc_num_truncate c (rdx c - scale) else Ok c) in
  let! nz := some_nonzero (num c) 0 (len c) in
  Ok (if nz then c else bc_num_setToZero c scale).

Definition zbc_num_pow (alias : bool) (a b c : BcNum) (scale : nat) : result BcNum :=
  zbc_num_binary alias a b c scale zbc_num_p (size (Z.of_nat (len a) * Z.of_nat (len b) + 1)).

(** ** Powers modulo a number (dc) *)

Fixpoint modexp_loop (fuel : nat) (two c : BcNum) (d base exp temp : BcNum) : result BcNum :=
  match fuel with
  | O => Diverge
  | S fuel =>
      if (len exp =? 0)%nat then Ok d else
      let! (exp, temp) := zbc_num_divmod true exp two exp temp 0 in
      let! (d, temp) :=
        (if BC_NUM_ONE temp then
           let! temp := zbc_num_mul false d base temp 0 in
           let! d := zbc_num_rem temp c d 0 in Ok (d, temp)
         else Ok (d, temp)) in
      let! temp := zbc_num_mul false base base temp 0 in
      let! base := zbc_num_rem temp c base 0 in
      modexp_loop fuel two c d base exp temp
  end.

Definition zdc_num_modexp (a b c d : BcNum) : result BcNum :=
  if (len c =? 0)%nat then Die divide_by_zero else
  if negb ((rdx a =? 0)%nat && (rdx b =? 0)%nat && (rdx c =? 0)%nat) then Die not_an_integer else
  if neg b then Die negative_number else
  let d := bc_num_expand d (len c) in
  let base := bc_num_init (len c) in
  let exp := bc_num_init (len b) in
  let temp := bc_num_init (len b) in
  let! two := bc_num_one (mkNum (xmalloc 1) 0 0 false) in
  let! l := store1 (num two) 0 2 in
  let two := set_num two l in
  let! d := bc_num_one d in
  let! base := zbc_num_rem a c base 0 in
  let! exp := bc_num_copy exp b in
  modexp_loop (S (4 * len b)) two c d base exp temp.

End Numbers.
End Bc.
