(* ===== verification/BcDigits.v ===== *)
(** * Digit arrays and well-formed numbers of bc

    The value of an array of digits, the invariant [ok] every number of bc
    satisfies between operations, and what the functions on buffers do:
    copying, extending, truncating and dropping zeros. *)

From Stdlib Require Import ZArith List Lia Bool.
From S2P Require Import Prelude Words Mem BcNum.
Import ListNotations.
Local Open Scope Z_scope.
Local Open Scope res_scope.
Import Bc.

Module BcD.

(** ** Values *)

Definition p10 (n : nat) : Z := 10 ^ Z.of_nat n.

Fixpoint dval (l : list Z) : Z := match l with [] => 0 | d :: l => d + 10 * dval l end.

Definition digit (d : Z) : Prop := 0 <= d <= 9.
Definition digits (l : list Z) : Prop := Forall digit l.

(** The digits in use, their value, and the signed value, all in units of
    [10 ^ - rdx n]. *)
Definition digs (n : BcNum) : list Z := firstn (len n) (num n).
Definition mant (n : BcNum) : Z := dval (digs n).
Definition sval (n : BcNum) : Z := if neg n then - mant n else mant n.

(** The digits in use are there and are digits. *)
Definition raw (n : BcNum) : Prop := (len n <= cap n)%nat /\ digits (digs n).

(** Zero has no digits and no sign; every other number has all its fraction
    digits, and no zero in front of its integer part. *)
Definition shaped (n : BcNum) : Prop :=
  len n = O /\ neg n = false \/
  (rdx n <= len n)%nat /\ 0 < mant n /\ ((rdx n < len n)%nat -> p10 (len n - 1) <= mant n).

Definition ok (n : BcNum) : Prop := raw n /\ shaped n.

(** [ok] as a test. *)
Definition okb (n : BcNum) : bool :=
  (len n <=? cap n)%nat && forallb (fun d => (0 <=? d) && (d <=? 9)) (digs n) &&
  ((len n =? 0)%nat && negb (neg n) ||
   (rdx n <=? len n)%nat && (0 <? mant n) && ((len n <=? rdx n)%nat || (p10 (len n - 1) <=? mant n))).

(** The same number, perhaps in another buffer. *)
Definition same (c n : BcNum) : Prop :=
  raw c /\ digs c = digs n /\ rdx c = rdx n /\ len c = len n /\ neg c = neg n.

(** ** Lemmas on values *)

Lemma p10_pos n : 0 < p10 n.
Proof. apply Z.pow_pos_nonneg; lia. Qed.

Lemma p10_S n : p10 (S n) = 10 * p10 n.
Proof. unfold p10. rewrite Nat2Z.inj_succ, Z.pow_succ_r; lia. Qed.

Lemma p10_add n m : p10 (n + m) = p10 n * p10 m.
Proof. unfold p10. rewrite Nat2Z.inj_add, Z.pow_add_r; lia. Qed.

Lemma p10_le n m : (n <= m)%nat -> p10 n <= p10 m.
Proof. intros. apply Z.pow_le_mono_r; lia. Qed.

Lemma p10_lt n m : (n < m)%nat -> p10 n < p10 m.
Proof. intros. apply Z.pow_lt_mono_r; lia. Qed.

Lemma p10_lt_inv n m : p10 n < p10 m -> (n < m)%nat.
Proof. intros H. destruct (Nat.lt_ge_cases n m) as [|Hge]; [assumption|]. pose proof (p10_le _ _ Hge). lia. Qed.

Lemma dval_app a b : dval (a ++ b) = dval a + p10 (length a) * dval b.
Proof.
  induction a as [|d a IH]; cbn [app dval length]; [change (p10 0) with 1; lia|]. rewrite IH, p10_S. ring.
Qed.

Lemma dval_zeros n : dval (repeat 0 n) = 0.
Proof. induction n as [|n IH]; cbn [repeat dval]; [|rewrite IH]; reflexivity. Qed.

Lemma digits_zeros n : digits (repeat 0 n).
Proof. apply Forall_forall. intros x Hx. apply repeat_spec in Hx as ->. red; lia. Qed.

Lemma dval_bounds l : digits l -> 0 <= dval l < p10 (length l).
Proof.
  induction 1 as [|d l Hd Hl IH]; cbn [dval length]; [change (p10 0) with 1; lia|].
  rewrite p10_S. red in Hd. lia.
Qed.

Lemma dval_firstn_S l i : (i < length l)%nat -> dval (firstn (S i) l) = dval (firstn i l) + p10 i * nth i l 0.
Proof.
  intros Hi. rewrite (firstn_S_nth l i 0 Hi), dval_app, length_firstn, Nat.min_l by lia. cbn [dval]. ring.
Qed.

Lemma dval_split n l : dval l = dval (firstn n l) + p10 (length (firstn n l)) * dval (skipn n l).
Proof. rewrite <- dval_app, firstn_skipn. reflexivity. Qed.

Lemma digits_nth l i : digits l -> digit (nth i l 0).
Proof.
  intros H. destruct (Nat.lt_ge_cases i (length l)) as [Hi|Hi].
  - apply (proj1 (Forall_forall _ _) H), nth_In, Hi.
  - rewrite nth_overflow by exact Hi. red; lia.
Qed.

Lemma s8_exact z : -128 <= z < 128 -> s8 z = z.
Proof. intros. unfold s8. rewrite Z.mod_small; lia. Qed.

Lemma u32_exact z : 0 <= z < 2 ^ 32 -> u32 z = z.
Proof. apply wrap_small. Qed.

Lemma u64_exact z : 0 <= z < 2 ^ 64 -> u64 z = z.
Proof. apply wrap_small. Qed.

(** A digit of a number in use. *)
Lemma raw_digit n i : raw n -> (i < len n)%nat -> (i < length (num n))%nat /\ digit (nth i (num n) 0).
Proof.
  intros [Hc Hd] Hi. unfold cap in Hc. split; [lia|].
  apply (digits_nth _ i) in Hd. unfold digs in Hd. rewrite nth_firstn in Hd.
  destruct (Nat.ltb_spec i (len n)); [exact Hd|lia].
Qed.

Lemma length_digs n : raw n -> length (digs n) = len n.
Proof. intros [Hc _]. unfold digs. rewrite length_firstn. unfold cap in Hc. lia. Qed.

Lemma mant_bounds n : raw n -> 0 <= mant n < p10 (len n).
Proof. intros H. rewrite <- (length_digs n H). apply dval_bounds, H. Qed.

Lemma mant_zero n : len n = O -> mant n = 0.
Proof. intros E. unfold mant, digs. rewrite E. reflexivity. Qed.

Lemma ok_zero n : ok n -> mant n = 0 -> len n = O.
Proof. intros [_ [[E _]|(_ & H & _)]] E0; [exact E|lia]. Qed.

Lemma ok_nonzero n : ok n -> len n <> O -> (rdx n <= len n)%nat /\ 0 < mant n /\ ((rdx n < len n)%nat -> p10 (len n - 1) <= mant n).
Proof. intros [_ [[E _]|H]] E0; [contradiction|exact H]. Qed.

Lemma okb_ok n : okb n = true -> ok n.
Proof.
  unfold okb. rewrite !andb_true_iff, !orb_true_iff, !andb_true_iff, !orb_true_iff, forallb_forall, !Nat.leb_le, Nat.eqb_eq, negb_true_iff, Z.ltb_lt, Z.leb_le.
  intros [[Hc Hd] Hs]. split; [split; [exact Hc|]|].
  - apply Forall_forall. intros x Hx. specialize (Hd x Hx). rewrite andb_true_iff, !Z.leb_le in Hd. exact Hd.
  - destruct Hs as [[H1 H2]|[[H1 H2] H3]]; [left; auto|right]. repeat split; auto. lia.
Qed.

Lemma same_refl n : raw n -> same n n.
Proof. unfold same; auto. Qed.

Lemma same_mant c n : same c n -> mant c = mant n.
Proof. intros (_ & E & _). unfold mant. rewrite E. reflexivity. Qed.

Lemma same_sval c n : same c n -> sval c = sval n.
Proof. intros H. unfold sval. rewrite (same_mant c n H). destruct H as (_ & _ & _ & _ & ->). reflexivity. Qed.

Lemma same_ok c n : same c n -> ok n -> ok c.
Proof.
  intros H [_ Hs]. pose proof (same_mant c n H) as Em. destruct H as (Hr & _ & Er & El & En).
  split; [exact Hr|]. unfold shaped. rewrite Em, Er, El, En. exact Hs.
Qed.

Lemma mant_digs c n : digs c = digs n -> mant c = mant n.
Proof. unfold mant. intros ->. reflexivity. Qed.

(** ** Buffers *)

Section Buffers.
Context (garbage : nat -> Z) (err : BcStatus -> Prop).

Lemma length_xmalloc n : length (xmalloc garbage n) = n.
Proof. unfold xmalloc. autorewrite with len. reflexivity. Qed.

Lemma cap_init req : (req <= cap (bc_num_init garbage req))%nat.
Proof. unfold cap, bc_num_init; cbn [num]. rewrite length_xmalloc. lia. Qed.

Lemma raw_zero_len n : len n = O -> raw n.
Proof. intros E. split; [rewrite E; lia|]. unfold digs. rewrite E. constructor. Qed.

Lemma ok_init req : ok (bc_num_init garbage req).
Proof. split; [apply raw_zero_len; reflexivity|left; auto]. Qed.

Lemma ok_setToZero n s : ok (bc_num_setToZero n s).
Proof. split; [apply raw_zero_len; reflexivity|left; auto]. Qed.

Lemma expand_spec n req : exists tail,
  bc_num_expand garbage n req = set_num n (num n ++ tail) /\ (req <= cap n + length tail)%nat.
Proof.
  unfold bc_num_expand. destruct (Nat.ltb_spec (cap n) (Nat.max req BC_NUM_DEF_SIZE)).
  - eexists; split; [reflexivity|]. rewrite length_xmalloc. lia.
  - exists []. rewrite app_nil_r. destruct n; cbn [set_num num length]. split; [reflexivity|]. lia.
Qed.

Lemma expand_same n req : raw n -> same (bc_num_expand garbage n req) n /\ (req <= cap (bc_num_expand garbage n req))%nat.
Proof.
  intros Hr. destruct (expand_spec n req) as (tail & -> & Hc).
  assert (Ed : digs (set_num n (num n ++ tail)) = digs n).
  { unfold digs, set_num; cbn [len num]. destruct Hr as [Hc' _]. unfold cap in Hc'.
    rewrite firstn_app. replace (len n - length (num n))%nat with O by lia. apply app_nil_r. }
  unfold same, raw, cap, set_num in *; cbn [num len rdx neg] in *. rewrite length_app.
  destruct Hr as [Hc' Hd]. unfold cap in Hc'. rewrite Ed. repeat split; auto; lia.
Qed.

Lemma expand_cap n req : (req <= cap (bc_num_expand garbage n req))%nat /\ (cap n <= cap (bc_num_expand garbage n req))%nat.
Proof.
  destruct (expand_spec n req) as (tail & -> & Hc). unfold cap, set_num in *; cbn [num] in *. rewrite length_app. lia.
Qed.

Lemma same_mk n l r k b : (k <= length l)%nat -> firstn k l = digs n -> digits (digs n) -> r = rdx n -> k = len n -> b = neg n -> same (mkNum l r k b) n.
Proof.
  intros Hk E Hd -> -> ->. unfold same, raw, cap, digs at 1 2; cbn [num rdx len neg]. rewrite E. auto.
Qed.

Lemma firstn_blit0 {A} (l w : list A) : (length w <= length l)%nat -> firstn (length w) (blit l 0 w) = w.
Proof.
  intros H. unfold blit. cbn [firstn app Nat.add]. rewrite firstn_app, firstn_all, Nat.sub_diag. apply app_nil_r.
Qed.

Lemma copy_spec d s : raw s -> ends err (fun c => same c s /\ (cap d <= cap c)%nat) (bc_num_copy garbage d s).
Proof.
  intros Hr. pose proof (expand_cap d (cap s)) as [Hc Hc2]. pose proof (length_digs s Hr) as Hl.
  unfold bc_num_copy. destruct Hr as [Hcap Hd]. unfold cap in *.
  apply ends_load; [lia|]. change (slice 0 (len s) (num s)) with (digs s).
  apply ends_store; [lia|]. apply ends_ok. split.
  - apply same_mk; auto; [rewrite length_blit; lia|]. rewrite <- Hl at 1. apply firstn_blit0. lia.
  - cbn [num]. rewrite length_blit; lia.
Qed.

Lemma init_and_copy_spec s : raw s -> ends err (fun c => same c s) (bc_num_init_and_copy garbage s).
Proof. intros H. eapply ends_impl; [apply copy_spec, H|]. intros c [Hc _]. exact Hc. Qed.
Lemma extend_spec n places :
  raw n ->
  ends err (fun c => raw c /\ digs c = repeat 0 places ++ digs n /\ rdx c = (rdx n + places)%nat /\
                     len c = (len n + places)%nat /\ neg c = neg n)
    (bc_num_extend garbage n places).
Proof.
  intros Hr. unfold bc_num_extend. destruct (Nat.eqb_spec places 0) as [->|Hp].
  { apply ends_ok. cbn [repeat app]. rewrite !Nat.add_0_r. auto. }
  set (m := if (cap n <? len n + places)%nat then _ else n).
  assert (Hm : same m n /\ (len n + places <= cap m)%nat).
  { unfold m. destruct (Nat.ltb_spec (cap n) (len n + places)); [apply expand_same, Hr|]. split; [apply same_refl, Hr|lia]. }
  destruct Hm as [(Hrm & Ed & Er & El & En) Hc]. pose proof (length_digs m Hrm) as Hl.
  destruct Hrm as [_ Hd]. unfold cap in *. rewrite El in *.
  apply ends_load; [lia|]. replace (slice 0 (len n) (num m)) with (digs m) by (unfold digs; rewrite El; reflexivity).
  apply ends_store; [lia|]. apply ends_store; [rewrite repeat_length, length_blit; lia|]. apply ends_ok.
  assert (E : firstn (len n + places) (blit (blit (num m) places (digs m)) 0 (repeat 0 places)) = repeat 0 places ++ digs n).
  { unfold blit at 1. cbn [firstn app Nat.add]. rewrite repeat_length.
    unfold blit. rewrite skipn_app, skipn_all2, length_firstn by (rewrite length_firstn; lia).
    replace (places - Nat.min places (length (num m)))%nat with O by lia. cbn [app skipn].
    replace (len n + places)%nat with (length (repeat 0 places ++ digs m)) by (rewrite length_app, repeat_length; lia).
    rewrite app_assoc, firstn_app, firstn_all, Nat.sub_diag, firstn_O, app_nil_r, Ed. reflexivity. }
  rewrite Er, En. set (c := mkNum _ _ _ _). change (digs c = repeat 0 places ++ digs n) in E.
  unfold raw. rewrite E. repeat split; auto.
  - unfold cap, c; cbn [num len]. rewrite length_blit; rewrite ?repeat_length; rewrite length_blit; lia.
  - apply Forall_app. split; [apply digits_zeros|]. rewrite <- Ed. exact Hd.
Qed.

Lemma extend_mant n c places : digs c = repeat 0 places ++ digs n -> mant c = mant n * p10 places.
Proof. intros E. unfold mant. rewrite E, dval_app, dval_zeros, repeat_length. ring. Qed.

Lemma dval_skipn l k : digits l -> dval (skipn k l) = dval l / p10 k.
Proof.
  intros H. pose proof (p10_pos k).
  destruct (Nat.le_gt_cases k (length l)) as [Hk|Hk].
  - pose proof (dval_split k l) as E. rewrite length_firstn, Nat.min_l in E by exact Hk.
    apply Z.div_unique_pos with (dval (firstn k l)); [|lia].
    pose proof (dval_bounds (firstn k l) (Forall_firstn _ _ _ H)) as B. rewrite length_firstn, Nat.min_l in B by exact Hk. exact B.
  - rewrite skipn_all2 by lia. cbn [dval]. symmetry. apply Z.div_small.
    pose proof (dval_bounds l H). pose proof (p10_le (length l) k). lia.
Qed.

Lemma truncate_spec n places :
  raw n -> len n = O \/ (places <= len n)%nat ->
  ends err (fun c => raw c /\ mant c = mant n / p10 places /\ rdx c = (rdx n - places)%nat /\
                     len c = (len n - places)%nat /\ neg c = neg n)
    (bc_num_truncate n places).
Proof.
  intros Hr Hp. pose proof (length_digs n Hr) as Hl. unfold bc_num_truncate. destruct (Nat.eqb_spec places 0) as [->|Hp0].
  { apply ends_ok. rewrite !Nat.sub_0_r. change (p10 0) with 1. rewrite Z.div_1_r. auto. }
  cbn [len set_rdx num]. destruct (Nat.eqb_spec (len n) 0) as [E0|E0].
  { apply ends_ok. split; [apply raw_zero_len; exact E0|].
    rewrite !mant_zero by assumption. cbn [len rdx neg]. rewrite E0. auto. }
  destruct (Nat.ltb_spec (len n) places); [lia|]. unfold set_len, set_rdx; cbn [len num].
  destruct Hr as [Hc Hd]. unfold cap in Hc.
  apply ends_load; [lia|].
  assert (Es : slice places (len n - places) (num n) = skipn places (digs n)).
  { unfold slice, digs. rewrite skipn_firstn_comm. reflexivity. }
  assert (Hls : length (skipn places (digs n)) = (len n - places)%nat) by (rewrite length_skipn; lia).
  rewrite Es. apply ends_store; [lia|]. apply ends_ok.
  set (c := set_num _ _).
  assert (E : digs c = skipn places (digs n)) by (unfold digs at 1; cbn; rewrite <- Hls; apply firstn_blit0; lia).
  unfold raw, mant. rewrite E, dval_skipn by exact Hd.
  repeat split; auto; [unfold cap, c, set_num; cbn [num len]; rewrite length_blit; lia|apply Forall_skipn, Hd].
Qed.

Lemma strip_zeros_spec l k :
  (k <= length l)%nat -> digits (firstn k l) ->
  ends err (fun j => (j <= k)%nat /\ dval (firstn j l) = dval (firstn k l) /\
                     (forall i, (j <= i <= k)%nat -> dval (firstn i l) = dval (firstn k l)) /\
                     ((0 < j)%nat -> p10 (j - 1) <= dval (firstn k l))) (strip_zeros l k).
Proof.
  induction k as [|k IH]; intros Hk Hd; cbn [strip_zeros].
  { apply ends_ok. repeat split; try lia. intros i Hi. replace i with O by lia. reflexivity. }
  assert (Hd' : digits (firstn k l)).
  { rewrite (firstn_S_nth l k 0) in Hd by lia. apply Forall_app in Hd. apply Hd. }
  pose proof (dval_firstn_S l k ltac:(lia)) as E.
  assert (Hn : digit (nth k l 0)).
  { pose proof (digits_nth _ k Hd) as H. rewrite nth_firstn in H. destruct (Nat.ltb_spec k (S k)); [exact H|lia]. }
  apply (ends_load1 _ _ _ _ 0); [lia|]. destruct (Z.eqb_spec (nth k l 0) 0) as [E0|E0].
  - rewrite E0, Z.mul_0_r, Z.add_0_r in E. rewrite E. eapply ends_impl; [apply IH; auto; lia|].
    intros j (Hj & H1 & H2 & H3). repeat split; auto. intros i Hi.
    destruct (Nat.eq_dec i (S k)) as [->|]; [exact E|apply H2; lia].
  - apply ends_ok. repeat split; auto; [intros i Hi; replace i with (S k) by lia; reflexivity|].
    intros _. replace (S k - 1)%nat with k by lia. rewrite E.
    pose proof (dval_bounds _ Hd'). pose proof (p10_pos k). red in Hn. nia.
Qed.

Lemma clean_spec n :
  raw n -> (rdx n <= len n)%nat \/ mant n = 0 ->
  ends err (fun c => ok c /\ mant c = mant n /\ rdx c = rdx n /\ (len c <= len n)%nat /\ (mant n <> 0 -> neg c = neg n))
    (bc_num_clean n).
Proof.
  intros [Hc Hd] Hr. unfold bc_num_clean. eapply ends_bind; [apply strip_zeros_spec; [exact Hc|exact Hd]|].
  intros k (Hk & E & Ei & Hp). apply ends_ok. fold (digs n) in E, Ei, Hp. fold (mant n) in E, Ei, Hp.
  assert (Hdi : forall i, (i <= len n)%nat -> digits (firstn i (num n))).
  { intros i Hi. replace i with (Nat.min i (len n)) by lia. rewrite <- firstn_firstn. apply Forall_firstn, Hd. }
  unfold cap in Hc. destruct (Nat.eqb_spec k 0) as [->|Hk0].
  { change (dval (firstn 0 (num n))) with 0 in E.
    assert (Em : forall b, mant (mkNum (num n) (rdx n) 0 b) = 0) by (intros; apply mant_zero; reflexivity).
    split; [split; [apply raw_zero_len; reflexivity|left; auto]|].
    unfold set_neg, set_len; cbn [neg rdx len num]. rewrite Em. repeat split; auto; lia. }
  specialize (Hp ltac:(lia)). pose proof (p10_pos (k - 1)).
  unfold set_len; cbn [rdx num neg]. destruct (Nat.ltb_spec k (rdx n)) as [Hkr|Hkr].
  - destruct Hr as [Hr|Hr]; [|lia].
    unfold ok, raw, shaped, cap, set_len; cbn [num len rdx neg].
    assert (Em : mant (mkNum (num n) (rdx n) (rdx n) (neg n)) = mant n) by (apply (Ei (rdx n)); lia).
    rewrite Em. repeat split; auto; try lia; try (apply Hdi; assumption); right; repeat split; lia.
  - unfold ok, raw, shaped, cap, set_len; cbn [num len rdx neg].
    assert (Em : mant (mkNum (num n) (rdx n) k (neg n)) = mant n) by exact E.
    rewrite Em. repeat split; auto; try lia; try (apply Hdi; assumption); right; repeat split; lia.
Qed.

(** [v] in units of [10 ^ - r], cut off at [s] fraction digits. *)
Definition rescale (v : Z) (r s : nat) : Z := v * p10 s / p10 r.

Lemma rescale_extend v r s : (r <= s)%nat -> rescale v r s = v * p10 (s - r).
Proof.
  intros H. unfold rescale. replace (p10 s) with (p10 r * p10 (s - r)) by (rewrite <- p10_add; f_equal; lia).
  pose proof (p10_pos r). rewrite (Z.mul_comm (p10 r)), Z.mul_assoc, Z.div_mul; lia.
Qed.

Lemma rescale_truncate v r s : (s <= r)%nat -> rescale v r s = v / p10 (r - s).
Proof.
  intros H. unfold rescale. replace (p10 r) with (p10 (r - s) * p10 s) by (rewrite <- p10_add; f_equal; lia).
  pose proof (p10_pos s). pose proof (p10_pos (r - s)). apply Z.div_mul_cancel_r; lia.
Qed.

(** The result of an operation that cuts its value off at [scale] digits and
    gives it the sign [s]. *)
Definition cut (c : BcNum) (v : Z) (scale : nat) (s : bool) : Prop :=
  ok c /\ mant c = v /\ rdx c = scale /\ (v <> 0 -> neg c = s).

Lemma retireMul_spec n scale neg1 neg2 :
  raw n -> len n = O \/ (rdx n <= len n)%nat ->
  ends err (fun c => cut c (rescale (mant n) (rdx n) scale) scale (xorb neg1 neg2) /\ (len c <= len n + (scale - rdx n))%nat)
    (bc_num_retireMul garbage n scale neg1 neg2).
Proof.
  intros Hr Hs. unfold bc_num_retireMul.
  eapply (ends_bind _ (fun m => raw m /\ mant m = rescale (mant n) (rdx n) scale /\ rdx m = scale /\
    ((rdx m <= len m)%nat \/ mant m = 0) /\ (len m <= len n + (scale - rdx n))%nat)).
  - destruct (Nat.ltb_spec (rdx n) scale) as [H|H].
    + eapply ends_impl; [apply extend_spec, Hr|]. intros m (Hm & Em & Er & El & _). apply extend_mant in Em.
      rewrite rescale_extend by lia. repeat split; auto; try lia; try apply Hm.
      destruct Hs as [E|Hs]; [right; rewrite Em, mant_zero; auto|left; lia].
    + eapply ends_impl; [apply truncate_spec; [exact Hr|destruct Hs; [left; assumption|right; lia]]|].
      intros m (Hm & Em & Er & El & _). rewrite rescale_truncate by lia. repeat split; auto; try lia; try apply Hm.
      destruct Hs as [E|Hs]; [right; rewrite Em, mant_zero; auto|left; lia].
  - intros m (Hm & Em & Er & Hs' & Hl). eapply ends_bind; [apply clean_spec; assumption|].
    intros c (Hc & Ec & Erc & Hlc & _). apply ends_ok. unfold cut. rewrite <- Em, <- Ec.
    destruct (Nat.eqb_spec (len c) 0) as [E0|E0].
    { rewrite (mant_zero c E0). repeat split; try apply Hc; try lia; congruence. }
    destruct Hc as [[H1 H2] H3]. assert (Hsh : shaped (set_neg c (xorb neg1 neg2))).
    { destruct H3 as [[? _]|H3]; [lia|right; exact H3]. }
    repeat split; auto; cbn [set_neg rdx len neg]; lia.
Qed.

Lemma shift_spec n places :
  ok n -> (rdx n <= places)%nat -> Z.of_nat (places + len n) <= BC_MAX_NUM ->
  ends err (fun c => ok c /\ mant c = mant n * p10 (places - rdx n) /\ (rdx c = O \/ len n = O /\ c = n) /\
                     (len c <= len n + (places - rdx n))%nat /\ neg c = neg n)
    (zbc_num_shift garbage n places).
Proof.
  intros Hn Hp Hb. unfold zbc_num_shift.
  destruct (Nat.eqb_spec places 0) as [->|Hp0].
  { apply ends_ok. replace (0 - rdx n)%nat with O by lia. change (p10 0) with 1. rewrite Z.mul_1_r. repeat split; try apply Hn; lia. }
  destruct (Nat.eqb_spec (len n) 0) as [E0|E0]; cbn [orb].
  { apply ends_ok. rewrite mant_zero by assumption. repeat split; try apply Hn; auto; lia. }
  destruct (Z.ltb_spec BC_MAX_NUM (Z.of_nat (places + len n))); [lia|].
  destruct (ok_nonzero n Hn E0) as (Hr & Hm & _).
  eapply (ends_bind _ (fun m => raw m /\ mant m = mant n * p10 (places - rdx n) /\ rdx m = O /\
    (len m <= len n + (places - rdx n))%nat /\ neg m = neg n)).
  - destruct (Nat.leb_spec places (rdx n)).
    + apply ends_ok. replace (places - rdx n)%nat with O by lia. change (p10 0) with 1. rewrite Z.mul_1_r.
      repeat split; try apply Hn; cbn [set_rdx rdx len]; lia.
    + eapply ends_bind; [apply extend_spec, Hn|]. intros m (Hrm & Em & _ & El & En). apply extend_mant in Em.
      apply ends_ok. repeat split; try apply Hrm; auto. cbn [set_rdx len]. lia.
  - intros m (Hrm & Em & Er & Hl & En). pose proof (p10_pos (places - rdx n)).
    eapply ends_impl; [apply clean_spec; [exact Hrm|left; lia]|].
    intros c (Hc & Ec & Erc & Hlc & Enc). split; [exact Hc|]. rewrite Ec. repeat split; auto; try lia.
    rewrite <- En. apply Enc. nia.
Qed.

Lemma split_spec n idx a b :
  raw n -> rdx n = O -> neg n = false -> (len n <= cap a)%nat -> (len n <= cap b)%nat -> neg a = false -> neg b = false ->
  ends err (fun lh => let (l, h) := lh : BcNum * BcNum in
      ok l /\ ok h /\ mant n = mant l + p10 idx * mant h /\ rdx l = O /\ rdx h = O /\ neg l = false /\ neg h = false /\
      (len l <= Nat.min idx (len n))%nat /\ (len h <= len n - idx)%nat)
    (bc_num_split garbage n idx a b).
Proof.
  intros Hn Hr Hneg Ha Hb Hna Hnb. pose proof (length_digs n Hn) as Hl. unfold bc_num_split.
  eapply (ends_bind _ (fun lh => let (l, h) := lh : BcNum * BcNum in
      raw l /\ raw h /\ mant n = mant l + p10 idx * mant h /\ rdx l = O /\ rdx h = O /\ neg l = false /\ neg h = false /\
      (len l <= Nat.min idx (len n))%nat /\ (len h <= len n - idx)%nat)).
  - destruct (Nat.ltb_spec idx (len n)) as [Hi|Hi].
    + destruct Hn as [Hc Hd]. unfold cap in *. apply ends_load; [lia|].
      replace (slice idx (len n - idx) (num n)) with (skipn idx (digs n)) by (unfold slice, digs; apply skipn_firstn_comm).
      assert (Hls : length (skipn idx (digs n)) = (len n - idx)%nat) by (rewrite length_skipn; lia).
      apply ends_store; [lia|]. apply ends_load; [lia|].
      replace (slice 0 idx (num n)) with (firstn idx (digs n))
        by (unfold slice, digs; rewrite firstn_firstn, Nat.min_l by lia; reflexivity).
      assert (Hlf : length (firstn idx (digs n)) = idx) by (rewrite length_firstn; lia).
      apply ends_store; [lia|]. apply ends_ok.
      set (l := mkNum _ 0 idx _). set (h := mkNum _ 0 _ _).
      assert (El : digs l = firstn idx (digs n)) by (unfold digs at 1; cbn [num len l]; rewrite <- Hlf at 1; apply firstn_blit0; lia).
      assert (Eh : digs h = skipn idx (digs n)) by (unfold digs at 1; cbn [num len h]; rewrite <- Hls at 1; apply firstn_blit0; lia).
      unfold raw, mant. rewrite El, Eh, (dval_split idx (digs n)), Hlf. unfold cap, l, h; cbn [num len rdx neg].
      rewrite !length_blit by lia.
      repeat split; auto; try lia; [apply Forall_firstn, Hd|apply Forall_skipn, Hd].
    + eapply ends_bind; [apply copy_spec, Hn|]. intros c [Hc _]. apply ends_ok.
      pose proof (same_mant _ _ Hc) as Em. destruct Hc as (Hrc & _ & Er & El & En).
      rewrite Em, (mant_zero (bc_num_zero b)) by reflexivity.
      repeat split; try apply Hrc; cbn; try lia; try congruence; [constructor].
  - intros [l h] (Hrl & Hrh & E & Erl & Erh & Enl & Enh & Hll & Hlh).
    eapply ends_bind; [apply clean_spec; [exact Hrl|left; lia]|]. intros l' (Hl' & El & Er' & Hl2 & Hs).
    eapply ends_bind; [apply clean_spec; [exact Hrh|left; lia]|]. intros h' (Hh' & Eh & Erh' & Hh2 & Hsh).
    apply ends_ok. rewrite El, Eh.
    assert (Hneg' : forall c m, ok c -> mant c = mant m -> neg m = false -> (mant m <> 0 -> neg c = neg m) -> neg c = false).
    { intros c m [_ [[_ H]|(_ & H & _)]] Ecm Em Hcm; [exact H|]. rewrite <- Em. apply Hcm. lia. }
    assert (neg l' = false) by eauto. assert (neg h' = false) by eauto. intuition (try lia).
Qed.

Lemma one_spec n : (1 <= cap n)%nat -> ends err (fun c => ok c /\ mant c = 1 /\ rdx c = O /\ len c = 1%nat /\ neg c = false /\ cap c = cap n) (bc_num_one n).
Proof.
  intros H. unfold bc_num_one, cap in *. cbn [num set_len bc_num_setToZero]. apply ends_store1; [exact H|].
  apply ends_ok. destruct (num n) as [|d l] eqn:E; cbn [length] in H; [lia|]. cbn [upd].
  unfold ok, raw, shaped, mant, digs, cap; cbn. repeat split; try lia; repeat constructor; lia.
Qed.

Lemma ONE_spec n : ok n -> BC_NUM_ONE n = true -> mant n = 1 /\ rdx n = O /\ len n = 1%nat.
Proof.
  intros [[Hc _] _]. unfold BC_NUM_ONE. rewrite !andb_true_iff, !Nat.eqb_eq, Z.eqb_eq. intros [[El Er] E].
  unfold mant, digs, cap in *. rewrite El in *. destruct (num n); cbn in *; [lia|]. subst. auto.
Qed.
End Buffers.
End BcD.
