(* ===== verification/BcAdd.v ===== *)
(** * Comparison, addition and subtraction of bc numbers

    [bc_num_compare], [bc_num_subArrays] and [bc_num_cmp] of miscutils/bc.c
    compare and subtract digit by digit; [zbc_num_add] and [zbc_num_sub] are
    exact, whatever the signs and the numbers of fraction digits. *)

From Stdlib Require Import ZArith List Lia Bool QArith.
From S2P Require Import Prelude Words Mem BcNum BcDigits.
Import ListNotations.
Local Open Scope Z_scope.
Local Open Scope res_scope.
Import Bc BcD.

Module BcA.

(** The rational number a [BcNum] stands for. *)
Definition val (n : BcNum) : Q := Qmake (sval n) (Z.to_pos (p10 (rdx n))).

(** The number is far from the limits of a size_t. *)
Definition sized (n : BcNum) : Prop := Z.of_nat (len n) < 2 ^ 62 /\ Z.of_nat (rdx n) < 2 ^ 62.

(** ** Digit arrays by index *)

Lemma digits_iff l : digits l <-> forall i, (i < length l)%nat -> digit (nth i l 0).
Proof.
  split; [intros H i _; apply digits_nth, H|]. intros H. apply Forall_forall. intros x Hx.
  destruct (In_nth l x 0 Hx) as (i & Hi & <-). apply H, Hi.
Qed.

Lemma dval_upd l i v : (i < length l)%nat -> dval (upd l i v) = dval l + p10 i * (v - nth i l 0).
Proof.
  revert i; induction l as [|d l IH]; intros [|i] Hi; cbn [length] in Hi; try lia; cbn [upd dval nth].
  - change (p10 0) with 1. ring.
  - rewrite IH, p10_S by lia. ring.
Qed.

Lemma upd_mid {A} (pre mid post : list A) k v :
  (k < length mid)%nat -> upd (pre ++ mid ++ post) (length pre + k) v = pre ++ upd mid k v ++ post.
Proof.
  intros Hk. induction pre as [|x pre IH]; cbn [app length Nat.add].
  - revert k Hk; induction mid as [|y mid IH]; intros [|k] Hk; cbn [length] in Hk; try lia; cbn [app upd]; [reflexivity|].
    rewrite IH by lia. reflexivity.
  - cbn [upd]. rewrite IH. reflexivity.
Qed.

Lemma nth_mid {A} (pre mid post : list A) k d :
  (k < length mid)%nat -> nth (length pre + k) (pre ++ mid ++ post) d = nth k mid d.
Proof.
  intros Hk. rewrite app_nth2 by lia. rewrite app_nth1 by lia. f_equal. lia.
Qed.

(** Every value is a digit, but perhaps the one at [k]. *)
Definition digits_but (k : nat) (l : list Z) : Prop := forall i, (i < length l)%nat -> i <> k -> digit (nth i l 0).

Lemma digits_but_digits k l : digits_but k l -> digit (nth k l 0) -> digits l.
Proof. intros H Hk. apply digits_iff. intros i Hi. destruct (Nat.eq_dec i k) as [->|]; auto. Qed.

(** The digit at the top cannot be negative. *)
Lemma digits_but_top k l :
  digits_but k l -> S k = length l -> 0 <= dval l -> 0 <= nth k l 0.
Proof.
  intros Hb Hk Hv. pose proof (dval_firstn_S l k ltac:(lia)) as E. rewrite Hk, firstn_all in E.
  assert (Hd : digits (firstn k l)).
  { apply digits_iff. intros i Hi. rewrite length_firstn in Hi. rewrite nth_firstn.
    destruct (Nat.ltb_spec i k); [|lia]. apply Hb; lia. }
  pose proof (dval_bounds _ Hd) as B. rewrite length_firstn, Nat.min_l in B by lia. pose proof (p10_pos k). nia.
Qed.

Section Arrays.
Context (err : BcStatus -> Prop).

Lemma borrow_spec pre post fuel mid k :
  digits_but k mid -> (k < length mid)%nat -> -10 <= nth k mid 0 <= 9 -> 0 <= dval mid -> (length mid - k < fuel)%nat ->
  ends err (fun l => exists mid', l = pre ++ mid' ++ post /\ length mid' = length mid /\ digits mid' /\ dval mid' = dval mid)
    (borrow fuel (pre ++ mid ++ post) (length pre + k)).
Proof.
  revert mid k; induction fuel as [|fuel IH]; intros mid k Hb Hk Hd Hv Hf; [lia|]. cbn [borrow].
  apply (ends_load1 _ _ _ _ 0); [autorewrite with len; lia|]. rewrite nth_mid by exact Hk.
  destruct (Z.ltb_spec (nth k mid 0) 0) as [Hn|Hn].
  - assert (Hk1 : (S k < length mid)%nat).
    { destruct (Nat.eq_dec (S k) (length mid)) as [E|]; [|lia]. pose proof (digits_but_top k mid Hb E Hv). lia. }
    pose proof (Hb (S k) Hk1 ltac:(lia)) as Hd1. red in Hd1.
    apply ends_store1; [autorewrite with len; lia|]. rewrite upd_mid, s8_exact by lia.
    set (m1 := upd mid k (nth k mid 0 + 10)). assert (L1 : length m1 = length mid) by apply length_upd.
    rewrite <- Nat.add_succ_r. apply (ends_load1 _ _ _ _ 0); [autorewrite with len; lia|]. rewrite nth_mid by lia.
    assert (E1 : nth (S k) m1 0 = nth (S k) mid 0) by (apply nth_upd_ne; lia).
    apply ends_store1; [autorewrite with len; lia|]. rewrite upd_mid, E1, s8_exact by lia.
    set (m2 := upd m1 (S k) (nth (S k) mid 0 - 1)). assert (L2 : length m2 = length m1) by apply length_upd.
    assert (E2 : dval m2 = dval mid).
    { unfold m2. rewrite dval_upd by lia. unfold m1 at 1. rewrite dval_upd by lia. rewrite E1, p10_S. ring. }
    eapply ends_impl; [apply IH; try lia|].
    + intros i Hi Hne. unfold m2. rewrite nth_upd_ne by lia. unfold m1. destruct (Nat.eq_dec i k) as [->|Hik].
      * rewrite nth_upd_eq by lia. red; lia.
      * rewrite nth_upd_ne by lia. apply Hb; lia.
    + unfold m2. rewrite nth_upd_eq by lia. lia.
    + intros l (m & -> & Hl & Hm & Ev). exists m. repeat split; auto; lia.
  - apply ends_ok. exists mid. repeat split; auto. eapply digits_but_digits; [exact Hb|red; lia].
Qed.

Lemma sub_spec pre mid post b n :
  (n <= length mid)%nat -> (n <= length b)%nat -> digits mid -> digits (firstn n b) -> dval (firstn n b) <= dval mid ->
  ends err (fun l => exists mid', l = pre ++ mid' ++ post /\ length mid' = length mid /\ digits mid' /\
                                  dval mid' = dval mid - dval (firstn n b))
    (bc_num_subArrays (pre ++ mid ++ post) (length pre) b n).
Proof.
  intros Hn Hnb Hm Hb Hle. unfold bc_num_subArrays.
  apply (for_up_inv err (fun i l => exists m, l = pre ++ m ++ post /\ length m = length mid /\ digits m /\
      dval m = dval mid - dval (firstn i b))).
  2:{ exists mid. cbn [firstn dval]. rewrite Z.sub_0_r. auto. }
  intros i l Hi (m & -> & Hl & Hd & Ev).
  apply (ends_load1 _ _ _ _ 0); [autorewrite with len; lia|]. rewrite nth_mid by lia.
  apply (ends_load1 _ _ _ _ 0); [lia|].
  assert (Hbi : digit (nth i b 0)).
  { pose proof (digits_nth _ i Hb) as H. rewrite nth_firstn in H. destruct (Nat.ltb_spec i n); [exact H|lia]. }
  pose proof (digits_nth m i Hd) as Hmi. red in Hbi, Hmi.
  apply ends_store1; [autorewrite with len; lia|]. rewrite upd_mid, s8_exact by lia.
  set (m1 := upd m i (nth i m 0 - nth i b 0)). assert (L1 : length m1 = length m) by apply length_upd.
  assert (E1 : dval m1 = dval mid - dval (firstn (S i) b)).
  { unfold m1. rewrite dval_upd by lia. rewrite Ev, dval_firstn_S by lia. ring. }
  assert (Hmono : dval (firstn (S i) b) <= dval (firstn n b)).
  { replace (firstn (S i) b) with (firstn (S i) (firstn n b)) by (rewrite firstn_firstn, Nat.min_l by lia; reflexivity).
    rewrite (dval_split (S i) (firstn n b)).
    pose proof (dval_bounds (skipn (S i) (firstn n b)) (Forall_skipn _ _ _ Hb)). pose proof (p10_pos (length (firstn (S i) (firstn n b)))). nia. }
  eapply ends_impl; [apply borrow_spec; try lia|].
  - intros j Hj Hne. unfold m1. rewrite nth_upd_ne by lia. apply digits_nth, Hd.
  - unfold m1. rewrite nth_upd_eq by lia. lia.
  - autorewrite with len. lia.
  - intros l (m2 & -> & H1 & H2 & H3). exists m2. rewrite H3. repeat split; auto; lia.
Qed.

Lemma compare_spec a sa b sb i :
  (sa + i <= length a)%nat -> (sb + i <= length b)%nat -> digits (slice sa i a) -> digits (slice sb i b) ->
  ends err (fun c => Z.sgn c = Z.sgn (dval (slice sa i a) - dval (slice sb i b))) (bc_num_compare a sa b sb i).
Proof.
  revert a b; induction i as [|i IH]; intros a b Ha Hb Da Db; cbn [bc_num_compare]; [reflexivity|].
  apply (ends_load1 _ _ _ _ 0); [lia|]. apply (ends_load1 _ _ _ _ 0); [lia|]. unfold slice in *.
  assert (E : forall s l, (s + S i <= length l)%nat -> digits (firstn (S i) (skipn s l)) ->
    dval (firstn (S i) (skipn s l)) = dval (firstn i (skipn s l)) + p10 i * nth (s + i) l 0 /\
    digits (firstn i (skipn s l)) /\ 0 <= dval (firstn i (skipn s l)) < p10 i).
  { intros s l Hl Hd. rewrite dval_firstn_S, nth_skipn by (rewrite length_skipn; lia). split; [reflexivity|].
    assert (Hd' : digits (firstn i (skipn s l))).
    { rewrite (firstn_S_nth _ i 0) in Hd by (rewrite length_skipn; lia). apply Forall_app in Hd. apply Hd. }
    split; [exact Hd'|]. pose proof (dval_bounds _ Hd') as B. rewrite length_firstn, length_skipn, Nat.min_l in B by lia. exact B. }
  destruct (E sa a Ha Da) as (-> & Da' & Ba). destruct (E sb b Hb Db) as (-> & Db' & Bb).
  destruct (Z.eqb_spec (nth (sa + i) a 0 - nth (sb + i) b 0) 0) as [E0|E0].
  - eapply ends_impl; [apply IH; auto; lia|]. intros c ->. f_equal. replace (nth (sa + i) a 0) with (nth (sb + i) b 0) by lia. ring.
  - pose proof (p10_pos i). destruct (Z.ltb_spec (nth (sa + i) a 0 - nth (sb + i) b 0) 0); apply ends_ok.
    + rewrite !Z.sgn_neg; [reflexivity|nia|lia].
    + rewrite !Z.sgn_pos; [reflexivity|nia|lia].
Qed.

Lemma tail_nonzero_spec l i :
  (i <= length l)%nat -> digits (firstn i l) -> ends err (fun b => b = negb (dval (firstn i l) =? 0)) (tail_nonzero l i).
Proof.
  induction i as [|i IH]; intros Hi Hd; cbn [tail_nonzero]; [reflexivity|].
  pose proof (digits_nth _ i Hd) as Hn. rewrite nth_firstn in Hn. destruct (Nat.ltb_spec i (S i)); [|lia].
  rewrite dval_firstn_S by lia.
  assert (Hd' : digits (firstn i l)).
  { rewrite (firstn_S_nth _ i 0) in Hd by lia. apply Forall_app in Hd. apply Hd. }
  pose proof (dval_bounds _ Hd'). pose proof (p10_pos i). red in Hn.
  apply (ends_load1 _ _ _ _ 0); [lia|]. destruct (Z.eqb_spec (nth i l 0) 0) as [E|E].
  - rewrite E, Z.mul_0_r, Z.add_0_r. apply IH; auto; lia.
  - apply ends_ok. destruct (Z.eqb_spec (dval (firstn i l) + p10 i * nth i l 0) 0); [nia|reflexivity].
Qed.
End Arrays.

(** ** Comparison *)

Lemma NEG_spec n s : BC_NUM_NEG n s = if s then - n else n.
Proof.
  unfold BC_NUM_NEG. destruct s; cbn [b2z Z.opp]; [rewrite Z.lxor_m1_r; unfold Z.lnot; lia|rewrite Z.lxor_0_r; lia].
Qed.

Lemma INT_spec n : sized n -> (rdx n <= len n)%nat -> BC_NUM_INT n = Z.of_nat (len n - rdx n).
Proof. intros [H1 H2] H. unfold BC_NUM_INT. rewrite u64_exact; lia. Qed.

(** The difference of the magnitudes, in the finer of the two units. *)
Definition mdiff (a b : BcNum) : Z := mant a * p10 (rdx b) - mant b * p10 (rdx a).

Lemma sgn_mul_pos k z : 0 < k -> Z.sgn (k * z) = Z.sgn z.
Proof. intros H. rewrite Z.sgn_mul, Z.sgn_pos by exact H. apply Z.mul_1_l. Qed.

(** Both sides have the same known sign. *)
Ltac sgns := first [ rewrite !Z.sgn_pos by nia; reflexivity | rewrite !Z.sgn_neg by nia; reflexivity ].

(** More digits before the point make a larger number. *)
Lemma more_int a b :
  ok a -> ok b -> len a <> O -> len b <> O -> (len b - rdx b < len a - rdx a)%nat -> 0 < mdiff a b.
Proof.
  intros Ha Hb Na Nb H. destruct (ok_nonzero a Ha Na) as (Ra & Ma & Pa). destruct (ok_nonzero b Hb Nb) as (Rb & Mb & _).
  specialize (Pa ltac:(lia)). pose proof (mant_bounds b (proj1 Hb)) as Bb. unfold mdiff.
  pose proof (p10_le (len b + rdx a) (len a - 1 + rdx b) ltac:(lia)) as Hle. rewrite !p10_add in Hle.
  pose proof (p10_pos (rdx a)). pose proof (p10_pos (rdx b)). nia.
Qed.

(** The digits of the number with more fraction digits, cut at the end of the other. *)
Lemma aligned a d :
  raw a -> (d <= len a)%nat ->
  mant a = dval (firstn d (num a)) + p10 d * dval (slice d (len a - d) (num a)) /\
  0 <= dval (firstn d (num a)) < p10 d /\ digits (firstn d (num a)) /\ digits (slice d (len a - d) (num a)) /\ (d + (len a - d) <= length (num a))%nat.
Proof.
  intros Hr Hd. destruct Hr as [Hc Hg]. unfold cap in Hc.
  assert (E : firstn d (num a) ++ slice d (len a - d) (num a) = digs a).
  { change (firstn d (num a)) with (slice 0 d (num a)). rewrite slice_app. unfold slice, digs. f_equal. lia. }
  unfold mant. rewrite <- E in *. apply Forall_app in Hg as [H1 H2].
  pose proof (dval_bounds _ H1) as B. rewrite length_firstn, Nat.min_l in B by lia.
  rewrite dval_app, length_firstn, Nat.min_l by lia. repeat split; auto; try lia.
Qed.

Lemma whole a : raw a -> digits (slice 0 (len a) (num a)) /\ dval (slice 0 (len a) (num a)) = mant a /\ (0 + len a <= length (num a))%nat.
Proof. intros [Hc Hd]. unfold cap in Hc. repeat split; auto. Qed.

Section Cmp.
Context (err : BcStatus -> Prop).

(** The digit comparison when [x] has [d] more fraction digits than [y]. *)
Lemma cmp_aligned x y d s :
  raw x -> raw y -> rdx x = (rdx y + d)%nat -> len x = (len y + d)%nat ->
  ends err (fun c => Z.sgn c = Z.sgn (if s : bool then - mdiff x y else mdiff x y))
    (let! cmp := bc_num_compare (num x) d (num y) 0 (len y) in
     if negb (cmp =? 0) then Ok (BC_NUM_NEG cmp s) else
     let! nz := tail_nonzero (num x) d in
     Ok (if nz then BC_NUM_NEG 1 s else 0)).
Proof.
  intros Hx Hy Er El. destruct (aligned x d Hx ltac:(lia)) as (Em & B & D1 & D2 & L).
  destruct (whole y Hy) as (Dy & Ey & Ly). replace (len x - d)%nat with (len y) in * by lia.
  set (T := dval (firstn d (num x))) in *. set (S := dval (slice d (len y) (num x))) in *.
  assert (E : mdiff x y = p10 (rdx y) * (T + p10 d * (S - mant y))).
  { unfold mdiff. rewrite Em, Er, p10_add. ring. }
  assert (Hs : Z.sgn (if s then - mdiff x y else mdiff x y) =
               Z.sgn (if s then - (T + p10 d * (S - mant y)) else T + p10 d * (S - mant y))).
  { rewrite E. destruct s; rewrite ?Z.sgn_opp, sgn_mul_pos by apply p10_pos; reflexivity. }
  rewrite Hs. eapply ends_bind; [apply compare_spec; auto|]. fold S. rewrite Ey. intros c Hc. pose proof (p10_pos d) as Hp.
  destruct (Z.eqb_spec c 0) as [->|Hc0]; cbn [negb].
  - symmetry in Hc. apply (proj1 (Z.sgn_null_iff _)) in Hc. assert (E0 : S = mant y) by lia.
    rewrite E0, Z.sub_diag, Z.mul_0_r, Z.add_0_r. eapply ends_bind; [apply tail_nonzero_spec; [lia|exact D1]|].
    intros nz ->. apply ends_ok. fold T. rewrite NEG_spec. destruct (Z.eqb_spec T 0) as [->|]; cbn [negb]; destruct s;
      [reflexivity|reflexivity|rewrite !Z.sgn_neg by lia; reflexivity|rewrite !Z.sgn_pos by lia; reflexivity].
  - apply ends_ok. rewrite NEG_spec. destruct (Z.lt_total c 0) as [H|[H|H]]; [|lia|].
    + rewrite (Z.sgn_neg c H) in Hc. symmetry in Hc. apply Z.sgn_neg_iff in Hc.
      destruct s; sgns.
    + rewrite (Z.sgn_pos c H) in Hc. symmetry in Hc. apply Z.sgn_pos_iff in Hc.
      destruct s; sgns.
Qed.

Lemma cmp_spec a b :
  ok a -> ok b -> sized a -> sized b ->
  ends err (fun c => Z.sgn c = Z.sgn (sval a * p10 (rdx b) - sval b * p10 (rdx a))) (bc_num_cmp a b).
Proof.
  intros Ha Hb Sa Sb. unfold bc_num_cmp, sval. pose proof (p10_pos (rdx a)). pose proof (p10_pos (rdx b)).
  destruct (Nat.eqb_spec (len a) 0) as [Ea|Na].
  { apply ends_ok. rewrite NEG_spec, (mant_zero a Ea). destruct (Nat.eqb_spec (len b) 0) as [Eb|Nb].
    - rewrite (mant_zero b Eb). cbn. destruct (neg a), (neg b); reflexivity.
    - destruct (ok_nonzero b Hb Nb) as (_ & Mb & _). destruct (neg a), (neg b); cbn [negb b2z Z.opp];
        sgns. }
  destruct (ok_nonzero a Ha Na) as (Ra & Ma & _).
  destruct (Nat.eqb_spec (len b) 0) as [Eb|Nb].
  { apply ends_ok. rewrite NEG_spec, (mant_zero b Eb). destruct (neg a), (neg b);
      sgns. }
  destruct (ok_nonzero b Hb Nb) as (Rb & Mb & _).
  destruct (xorb (neg a) (neg b)) eqn:X.
  { apply ends_ok. destruct (neg a), (neg b); try discriminate; cbn [b2z]; sgns. }
  apply xorb_eq in X. rewrite <- X.
  replace ((if neg a then - mant a else mant a) * p10 (rdx b) - (if neg a then - mant b else mant b) * p10 (rdx a))
    with (if neg a then - mdiff a b else mdiff a b) by (unfold mdiff; destruct (neg a); ring).
  rewrite (INT_spec a Sa Ra), (INT_spec b Sb Rb). destruct Sa as [La _], Sb as [Lb _].
  set (d := Z.of_nat (len a - rdx a) - Z.of_nat (len b - rdx b)).
  assert (Hd : - 2 ^ 62 < d < 2 ^ 62) by (unfold d; lia).
  assert (Es : s64 (u64 d) = d).
  { unfold u64, wrap. rewrite <- (s64_small d) at 2 by (red; lia). apply s64_ext, Z.mod_mod. lia. }
  destruct (Z.eqb_spec (u64 d) 0) as [E0|E0]; cbn [negb].
  2:{ apply ends_ok. rewrite Es. assert (d <> 0) by (intros E; apply E0; rewrite E; reflexivity).
      destruct (Z.lt_total d 0) as [Hlt|[Heq|Hgt]]; [|lia|].
      - pose proof (more_int b a Hb Ha Nb Na ltac:(lia)). unfold mdiff in *. destruct (neg a); sgns.
      - pose proof (more_int a b Ha Hb Na Nb ltac:(lia)). unfold mdiff in *. destruct (neg a); sgns. }
  assert (D0 : d = 0) by (rewrite <- Es, E0; reflexivity). rewrite Nat2Z.id.
  destruct (Nat.ltb_spec (rdx b) (rdx a)) as [H1|H1].
  - replace (len b - rdx b + rdx b)%nat with (len b) by lia. apply cmp_aligned; try apply Ha; try apply Hb; lia.
  - replace (len b - rdx b + rdx a)%nat with (len a) by lia.
    eapply ends_impl; [apply cmp_aligned; try apply Ha; try apply Hb; lia|]. intros c ->.
    f_equal. unfold mdiff. destruct (neg a); cbn [negb]; ring.
Qed.
End Cmp.

(** ** Addition of magnitudes *)

Lemma dval_slice_S s i l : (s + i < length l)%nat -> dval (slice s (S i) l) = dval (slice s i l) + p10 i * nth (s + i) l 0.
Proof. intros H. unfold slice. rewrite dval_firstn_S, nth_skipn by (rewrite length_skipn; lia). reflexivity. Qed.

Lemma digits_slice_nth s n l i : digits (slice s n l) -> (i < n)%nat -> digit (nth (s + i) l 0).
Proof. intros H Hi. rewrite <- (nth_slice l s n i 0 Hi). apply digits_nth, H. Qed.

Section AddLoops.
Context (err : BcStatus -> Prop).

Lemma copy_loop (ptr : list Z) diff (l : list Z) :
  (diff <= length ptr)%nat -> (diff <= length l)%nat ->
  ends err (fun l' => length l' = length l /\ firstn diff l' = firstn diff ptr)
    (for_up diff 0 (fun i l => let! d := load1 ptr i in store1 l i d) l).
Proof.
  intros Hp Hl. apply (for_up_inv err (fun i l' => length l' = length l /\ firstn i l' = firstn i ptr)); [|auto].
  intros i l' Hi [El Ef]. apply (ends_load1 _ _ _ _ 0); [lia|]. unfold store1.
  destruct (Nat.ltb_spec i (length l')); [|lia]. apply ends_ok. rewrite length_upd, firstn_upd by lia.
  rewrite Ef, (firstn_S_nth ptr i 0) by lia. auto.
Qed.

(** Storing the digit of [in_] at [p], after which the carry is [in_ / 10]. *)
Lemma add_digit_spec in_ p (l : list Z) v :
  (p < length l)%nat -> digits (firstn p l) -> 0 <= in_ < 100 -> dval (firstn p l) + p10 p * in_ = v ->
  ends err (fun s => length (fst s) = length l /\ digits (firstn (S p) (fst s)) /\ snd s = in_ / 10 /\
                     dval (firstn (S p) (fst s)) + p10 (S p) * snd s = v) (add_digit in_ p l).
Proof.
  intros Hp Hd Hi Hv. unfold add_digit. apply ends_store1; [exact Hp|]. apply ends_ok. cbn [fst snd].
  pose proof (Z.div_mod in_ 10 ltac:(lia)) as E. pose proof (Z.mod_pos_bound in_ 10 ltac:(lia)).
  rewrite s8_exact, length_upd, firstn_upd by lia. repeat split; auto.
  - apply Forall_app. split; [exact Hd|]. repeat constructor; lia.
  - rewrite dval_app, length_firstn, Nat.min_l, p10_S by lia. cbn [dval]. nia.
Qed.

Lemma add_rows (A B : list Z) oa ob diff n l :
  (diff + n <= length l)%nat -> (oa + n <= length A)%nat -> (ob + n <= length B)%nat ->
  digits (slice oa n A) -> digits (slice ob n B) -> digits (firstn diff l) ->
  ends err (fun s => length (fst s) = length l /\ digits (firstn (diff + n) (fst s)) /\ 0 <= snd s <= 1 /\
      dval (firstn (diff + n) (fst s)) + p10 (diff + n) * snd s =
      dval (firstn diff l) + p10 diff * (dval (slice oa n A) + dval (slice ob n B)))
    (for_up n 0 (fun i (s : list Z * Z) =>
      let (l, carry) := s in
      let! x := load1 A (oa + i) in
      let! y := load1 B (ob + i) in
      add_digit (u32 (u32 x + u32 y + carry)) (diff + i) l) (l, 0)).
Proof.
  intros Hl HA HB DA DB Dl.
  apply (for_up_inv err (fun i (s : list Z * Z) => length (fst s) = length l /\ digits (firstn (diff + i) (fst s)) /\ 0 <= snd s <= 1 /\
      dval (firstn (diff + i) (fst s)) + p10 (diff + i) * snd s =
      dval (firstn diff l) + p10 diff * (dval (slice oa i A) + dval (slice ob i B)))).
  - intros i [l' carry] Hi (El & Hd & Hc & Ev). cbn [fst snd] in *.
    apply (ends_load1 _ _ _ _ 0); [lia|]. apply (ends_load1 _ _ _ _ 0); [lia|].
    pose proof (digits_slice_nth _ _ _ i DA ltac:(lia)) as Dx. pose proof (digits_slice_nth _ _ _ i DB ltac:(lia)) as Dy.
    red in Dx, Dy. rewrite !u32_exact by (rewrite ?u32_exact; lia).
    eapply ends_impl; [apply add_digit_spec; [lia|exact Hd|lia|reflexivity]|].
    intros [l2 c2] (E1 & D2 & Ec & E2). cbn [fst snd] in *. rewrite !Nat.add_succ_r.
    repeat split; auto; try lia; try (rewrite Ec; apply Z.div_pos; lia).
    + rewrite Ec. apply Z.lt_succ_r, Z.div_lt_upper_bound; lia.
    + rewrite E2, !dval_slice_S by lia. rewrite p10_add in *. nia.
  - cbn [fst snd]. rewrite Nat.add_0_r. repeat split; auto; lia.
Qed.

Lemma add_carry (P : list Z) off diff m n l carry :
  (diff + m + n <= length l)%nat -> (off + m + n <= length P)%nat -> digits (slice (off + m) n P) ->
  digits (firstn (diff + m) l) -> 0 <= carry <= 1 ->
  ends err (fun s => length (fst s) = length l /\ digits (firstn (diff + m + n) (fst s)) /\ 0 <= snd s <= 1 /\
      dval (firstn (diff + m + n) (fst s)) + p10 (diff + m + n) * snd s =
      dval (firstn (diff + m) l) + p10 (diff + m) * carry + p10 (diff + m) * dval (slice (off + m) n P))
    (for_up n m (fun i (s : list Z * Z) =>
      let (l, carry) := s in
      let! x := load1 P (off + i) in
      add_digit (u32 (u32 x + carry)) (diff + i) l) (l, carry)).
Proof.
  intros Hl HP DP Dl Hc.
  replace (diff + m + n)%nat with (diff + (m + n))%nat by lia.
  replace (dval (slice (off + m) n P)) with (dval (slice (off + m) (m + n - m) P)) by (do 2 f_equal; lia).
  apply (for_up_inv err (fun i (s : list Z * Z) => length (fst s) = length l /\ digits (firstn (diff + i) (fst s)) /\ 0 <= snd s <= 1 /\
      dval (firstn (diff + i) (fst s)) + p10 (diff + i) * snd s =
      dval (firstn (diff + m) l) + p10 (diff + m) * carry + p10 (diff + m) * dval (slice (off + m) (i - m) P))).
  - intros i [l' c] Hi (El & Hd & Hc' & Ev). cbn [fst snd] in *.
    apply (ends_load1 _ _ _ _ 0); [lia|].
    pose proof (digits_slice_nth _ _ _ (i - m) DP ltac:(lia)) as Dx. replace (off + m + (i - m))%nat with (off + i)%nat in Dx by lia.
    red in Dx. rewrite !u32_exact by (rewrite ?u32_exact; lia).
    eapply ends_impl; [apply add_digit_spec; [lia|exact Hd|lia|reflexivity]|].
    intros [l2 c2] (E1 & D2 & Ec & E2). cbn [fst snd] in *. rewrite !Nat.add_succ_r.
    repeat split; auto; try lia; try (rewrite Ec; apply Z.div_pos; lia).
    + rewrite Ec. apply Z.lt_succ_r, Z.div_lt_upper_bound; lia.
    + replace (S i - m)%nat with (S (i - m)) by lia. rewrite E2, dval_slice_S by lia.
      replace (off + m + (i - m))%nat with (off + i)%nat by lia.
      replace (diff + i)%nat with (diff + m + (i - m))%nat in * by lia. rewrite p10_add in *. nia.
  - cbn [fst snd]. rewrite Nat.sub_diag. cbn. repeat split; auto; lia.
Qed.
End AddLoops.

(** ** Addition and subtraction *)

(** The number of digits that hold the sum of [a] and [b]. *)
Definition sum_len (a b : BcNum) : nat := (Nat.max (rdx a) (rdx b) + Nat.max (len a - rdx a) (len b - rdx b) + 1)%nat.

(** The sum of the magnitudes, in the finer of the two units. *)
Definition msum (a b : BcNum) : Z := mant a * p10 (rdx b - rdx a) + mant b * p10 (rdx a - rdx b).

Lemma AREQ_spec a b : ok a -> ok b -> sized a -> sized b -> len a <> O -> len b <> O -> BC_NUM_AREQ a b = sum_len a b.
Proof.
  intros Ha Hb Sa Sb Na Nb. destruct (ok_nonzero a Ha Na) as (Ra & _). destruct (ok_nonzero b Hb Nb) as (Rb & _).
  unfold BC_NUM_AREQ, sum_len. rewrite !INT_spec by assumption. destruct Sa, Sb.
  rewrite u64_exact by lia. lia.
Qed.

(** The sum is at least as long as its longer operand. *)
Lemma msum_lower a b :
  ok a -> ok b -> len a <> O -> len b <> O -> (0 < Nat.max (len a - rdx a) (len b - rdx b))%nat ->
  p10 (sum_len a b - 2) <= msum a b.
Proof.
  intros Ha Hb Na Nb H. destruct (ok_nonzero a Ha Na) as (Ra & Ma & Pa). destruct (ok_nonzero b Hb Nb) as (Rb & Mb & Pb).
  unfold msum, sum_len. pose proof (p10_pos (rdx b - rdx a)). pose proof (p10_pos (rdx a - rdx b)).
  destruct (Nat.le_gt_cases (len b - rdx b) (len a - rdx a)) as [Hle|Hgt].
  - replace (Nat.max (rdx a) (rdx b) + Nat.max (len a - rdx a) (len b - rdx b) + 1 - 2)%nat with (len a - 1 + (rdx b - rdx a))%nat by lia.
    rewrite p10_add. specialize (Pa ltac:(lia)). nia.
  - replace (Nat.max (rdx a) (rdx b) + Nat.max (len a - rdx a) (len b - rdx b) + 1 - 2)%nat with (len b - 1 + (rdx a - rdx b))%nat by lia.
    rewrite p10_add. specialize (Pb ltac:(lia)). nia.
Qed.

Lemma msum_pos a b : ok a -> ok b -> len a <> O -> len b <> O -> 0 < msum a b.
Proof.
  intros Ha Hb Na Nb. destruct (ok_nonzero a Ha Na) as (_ & Ma & _). destruct (ok_nonzero b Hb Nb) as (_ & Mb & _).
  unfold msum. pose proof (p10_pos (rdx b - rdx a)). pose proof (p10_pos (rdx a - rdx b)). nia.
Qed.

(** Both numbers cut where the fraction of the shorter one ends. *)
Lemma msum_cut a b :
  raw a -> raw b -> (rdx a <= len a)%nat -> (rdx b <= len b)%nat ->
  let oa := (rdx a - rdx b)%nat in let ob := (rdx b - rdx a)%nat in
  msum a b = dval (firstn (oa + ob) (num (if (rdx b <? rdx a)%nat then a else b))) +
             p10 (oa + ob) * (dval (slice oa (len a - oa) (num a)) + dval (slice ob (len b - ob) (num b))).
Proof.
  intros Ha Hb Ra Rb oa ob. unfold msum. fold oa ob.
  destruct (aligned a oa Ha ltac:(lia)) as (Ea & _). destruct (aligned b ob Hb ltac:(lia)) as (Eb & _).
  destruct (Nat.ltb_spec (rdx b) (rdx a)).
  - assert (Ez : ob = O) by lia. rewrite Ea, Eb, Ez, Nat.add_0_r. change (p10 0) with 1. cbn [firstn dval]. ring.
  - assert (Ez : oa = O) by lia. rewrite Ea, Eb, Ez, Nat.add_0_l. change (p10 0) with 1. cbn [firstn dval]. ring.
Qed.

Section Add.
Context (garbage : nat -> Z) (err : BcStatus -> Prop).

(** The digits of the sum, without its last carry. *)
Lemma finish_sum a b l carry :
  ok a -> ok b -> len a <> O -> len b <> O -> let n := (sum_len a b - 1)%nat in
  (n < length l)%nat -> digits (firstn n l) -> 0 <= carry <= 1 -> dval (firstn n l) + p10 n * carry = msum a b ->
  ends err (fun c => ok c /\ rdx c = Nat.max (rdx a) (rdx b) /\ neg c = neg a /\ mant c = msum a b /\ (len c <= sum_len a b)%nat)
    (if carry =? 0 then Ok (mkNum l (Nat.max (rdx a) (rdx b)) n (neg a)) else
     let! l := store1 l n (s8 carry) in
     Ok (mkNum l (Nat.max (rdx a) (rdx b)) (S n) (neg a))).
Proof.
  intros Ha Hb Na Nb n Hn Hd Hc Hv. pose proof (msum_pos a b Ha Hb Na Nb) as Hp.
  pose proof (msum_lower a b Ha Hb Na Nb) as Hlow. destruct (ok_nonzero a Ha Na) as (Ra & _). destruct (ok_nonzero b Hb Nb) as (Rb & _).
  unfold sum_len in *.
  destruct (Z.eqb_spec carry 0) as [->|Hc0].
  - rewrite Z.mul_0_r, Z.add_0_r in Hv. apply ends_ok.
    assert (Em : mant (mkNum l (Nat.max (rdx a) (rdx b)) n (neg a)) = msum a b) by exact Hv.
    unfold ok, raw, shaped, cap, digs. rewrite Em. cbn [num len rdx neg]. repeat split; auto; try lia.
    right. repeat split; auto; try lia. intros H. replace (n - 1)%nat with (Nat.max (rdx a) (rdx b) + Nat.max (len a - rdx a) (len b - rdx b) + 1 - 2)%nat by lia.
    apply Hlow. lia.
  - assert (Hc1 : carry = 1) by lia. subst carry. apply ends_store1; [exact Hn|]. apply ends_ok. set (c := mkNum _ _ _ _).
    assert (Ed : digs c = firstn n l ++ [1]) by (unfold digs, c; cbn [num len]; apply firstn_upd, Hn).
    assert (Em : mant c = msum a b).
    { unfold mant. rewrite Ed, dval_app, length_firstn, Nat.min_l by lia. cbn [dval]. lia. }
    pose proof (dval_bounds _ Hd). unfold ok, raw, shaped, cap. rewrite Em, Ed.
    unfold c; cbn [num len rdx neg]. rewrite length_upd. repeat split; auto; try lia.
    + apply Forall_app. split; [exact Hd|]. repeat constructor; lia.
    + right. repeat split; auto; try lia. intros _. replace (S n - 1)%nat with n by lia. lia.
Qed.

Lemma slice_join (off m n : nat) (l : list Z) : (off + m + n <= length l)%nat ->
  dval (slice off (m + n) l) = dval (slice off m l) + p10 m * dval (slice (off + m) n l).
Proof.
  intros H. rewrite <- slice_app, dval_app, length_slice. do 3 f_equal. lia.
Qed.

Lemma digits_slice_sub off m n k l : digits (slice off m l) -> (k + n <= m)%nat -> digits (slice (off + k) n l).
Proof.
  intros H Hk. replace m with (k + (n + (m - k - n)))%nat in H by lia. rewrite <- !slice_app in H.
  apply Forall_app in H as [_ H]. apply Forall_app in H. apply H.
Qed.

Lemma zbc_num_a_mag a b c sub :
  ok a -> ok b -> sized a -> sized b -> len a <> O -> len b <> O -> (sum_len a b <= cap c)%nat ->
  ends err (fun c => ok c /\ rdx c = Nat.max (rdx a) (rdx b) /\ neg c = neg a /\ mant c = msum a b /\ (len c <= sum_len a b)%nat)
    (zbc_num_a garbage a b c sub).
Proof.
  intros Ha Hb Sa Sb Na Nb Hc. unfold zbc_num_a.
  destruct (Nat.eqb_spec (len a) 0) as [|_]; [contradiction|]. destruct (Nat.eqb_spec (len b) 0) as [|_]; [contradiction|].
  destruct (ok_nonzero a Ha Na) as (Ra & _). destruct (ok_nonzero b Hb Nb) as (Rb & _).
  rewrite !INT_spec, !Nat2Z.id by assumption.
  set (oa := (rdx a - rdx b)%nat). set (ob := (rdx b - rdx a)%nat).
  replace (if (rdx b <? rdx a)%nat then oa else ob) with (oa + ob)%nat by (destruct (Nat.ltb_spec (rdx b) (rdx a)); lia).
  replace (if (rdx b <? rdx a)%nat then (oa + ob)%nat else 0%nat) with oa by (destruct (Nat.ltb_spec (rdx b) (rdx a)); lia).
  replace (if (rdx b <? rdx a)%nat then 0%nat else (oa + ob)%nat) with ob by (destruct (Nat.ltb_spec (rdx b) (rdx a)); lia).
  replace (if (rdx b <? rdx a)%nat then num a else num b) with (num (if (rdx b <? rdx a)%nat then a else b)) by (destruct (Nat.ltb_spec (rdx b) (rdx a)); reflexivity).
  destruct (aligned a oa (proj1 Ha) ltac:(lia)) as (_ & _ & Dfa & Dsa & La).
  destruct (aligned b ob (proj1 Hb) ltac:(lia)) as (_ & _ & Dfb & Dsb & Lb).
  pose proof (msum_cut a b (proj1 Ha) (proj1 Hb) Ra Rb) as Em. cbv zeta in Em. fold oa ob in Em.
  set (x := if (rdx b <? rdx a)%nat then a else b) in *.
  assert (Hx : digits (firstn (oa + ob) (num x)) /\ (oa + ob <= length (num x))%nat).
  { unfold x. destruct (Nat.ltb_spec (rdx b) (rdx a)).
    - replace (oa + ob)%nat with oa by lia. split; [exact Dfa|lia].
    - replace (oa + ob)%nat with ob by lia. split; [exact Dfb|lia]. }
  destruct Hx as [Dx Lx]. unfold cap, sum_len in Hc.
  eapply ends_bind; [apply copy_loop; lia|]. intros l [El Ef]. rewrite <- Ef in Em, Dx.
  set (ia := (len a - rdx a)%nat) in *. set (ib := (len b - rdx b)%nat) in *.
  set (A := num (if (ib <? ia)%nat then a else b)). set (o := if (ib <? ia)%nat then oa else ob).
  replace (if (ib <? ia)%nat then num a else num b) with A by (unfold A; destruct (Nat.ltb_spec ib ia); reflexivity).
  replace (if (ib <? ia)%nat then ib else ia) with (Nat.min ia ib) by (destruct (Nat.ltb_spec ib ia); lia).
  replace (if (ib <? ia)%nat then ia else ib) with (Nat.max ia ib) by (destruct (Nat.ltb_spec ib ia); lia).
  set (m := (Nat.min (rdx a) (rdx b) + Nat.min ia ib)%nat).
  assert (Hm : (oa + m <= len a)%nat /\ (ob + m <= len b)%nat /\ (oa + ob + m + (Nat.max ia ib - Nat.min ia ib) < length (num c))%nat) by lia.
  assert (HA : (o + m + (Nat.max ia ib - Nat.min ia ib) <= length A)%nat /\ digits (slice (o + m) (Nat.max ia ib - Nat.min ia ib) A) /\
    dval (slice oa (len a - oa) (num a)) + dval (slice ob (len b - ob) (num b)) =
    dval (slice oa m (num a)) + dval (slice ob m (num b)) + p10 m * dval (slice (o + m) (Nat.max ia ib - Nat.min ia ib) A)).
  { unfold A, o. destruct (Nat.ltb_spec ib ia).
    - replace (len a - oa)%nat with (m + (Nat.max ia ib - Nat.min ia ib))%nat in * by lia.
      replace (len b - ob)%nat with m in * by lia. rewrite slice_join by lia.
      repeat split; [lia| |ring]. eapply digits_slice_sub; [exact Dsa|lia].
    - replace (len b - ob)%nat with (m + (Nat.max ia ib - Nat.min ia ib))%nat in * by lia.
      replace (len a - oa)%nat with m in * by lia. rewrite (slice_join ob) by lia.
      repeat split; [lia| |ring]. eapply digits_slice_sub; [exact Dsb|lia]. }
  destruct HA as (HA1 & HA2 & HA3). rewrite HA3 in Em.
  eapply ends_bind.
  { apply (add_rows err (num a) (num b) oa ob (oa + ob) m l); auto; try lia.
    - rewrite <- (Nat.add_0_r oa). eapply digits_slice_sub; [exact Dsa|lia].
    - rewrite <- (Nat.add_0_r ob). eapply digits_slice_sub; [exact Dsb|lia]. }
  intros [l1 c1] (El1 & D1 & C1 & E1). cbn [fst snd] in *.
  eapply ends_bind; [apply (add_carry err A o (oa + ob) m (Nat.max ia ib - Nat.min ia ib) l1 c1); auto; lia|].
  intros [l2 c2] (El2 & D2 & C2 & E2). cbn [fst snd] in *.
  replace (oa + ob + (Nat.max ia ib + Nat.min (rdx a) (rdx b)))%nat with (sum_len a b - 1)%nat by (unfold sum_len; lia).
  replace (oa + ob + m + (Nat.max ia ib - Nat.min ia ib))%nat with (sum_len a b - 1)%nat in * by (unfold sum_len; lia).
  apply finish_sum; auto; [lia|]. rewrite E2, E1, Em, !p10_add. ring.
Qed.

(** The larger magnitude minus the smaller one. *)
Lemma subtract_mag x y c s :
  ok x -> ok y -> len x <> O -> len y <> O -> 0 < mdiff x y ->
  ends err (fun c => ok c /\ rdx c = Nat.max (rdx x) (rdx y) /\ neg c = s /\
      mant c = mant x * p10 (rdx y - rdx x) - mant y * p10 (rdx x - rdx y) /\ (len c <= sum_len x y)%nat)
    (let! c := bc_num_copy garbage c x in
     let c := set_neg c s in
     let! (c, start) :=
       (if (rdx c <? rdx y)%nat then
          let! c := bc_num_extend garbage c (rdx y - rdx c) in Ok (c, O)
        else Ok (c, (rdx c - rdx y)%nat)) in
     let! l := bc_num_subArrays (num c) start (num y) (len y) in
     bc_num_clean (set_num c l)).
Proof.
  intros Hx Hy Nx Ny Hd. destruct (ok_nonzero x Hx Nx) as (Rx & Mx & _). destruct (ok_nonzero y Hy Ny) as (Ry & My & _).
  assert (Hint : (len y - rdx y <= len x - rdx x)%nat).
  { destruct (Nat.le_gt_cases (len y - rdx y) (len x - rdx x)) as [|H]; [assumption|].
    pose proof (more_int y x Hy Hx Ny Nx H). unfold mdiff in *. lia. }
  set (ox := (rdx x - rdx y)%nat). set (oy := (rdx y - rdx x)%nat).
  assert (Hgt : mant y * p10 ox < mant x * p10 oy).
  { unfold mdiff in Hd. pose proof (p10_pos (Nat.min (rdx x) (rdx y))).
    assert (Ex : p10 (rdx x) = p10 ox * p10 (Nat.min (rdx x) (rdx y))) by (rewrite <- p10_add; f_equal; lia).
    assert (Ey : p10 (rdx y) = p10 oy * p10 (Nat.min (rdx x) (rdx y))) by (rewrite <- p10_add; f_equal; lia).
    rewrite Ex, Ey in Hd. nia. }
  eapply ends_bind; [apply copy_spec, Hx|]. intros c1 [Hs1 _]. pose proof (same_mant _ _ Hs1) as Em1.
  destruct Hs1 as (R1 & D1 & Er1 & El1 & _). cbn [set_neg rdx num len].
  eapply (ends_bind _ (fun cs => raw (fst cs) /\ snd cs = ox /\ mant (fst cs) = mant x * p10 oy /\
     rdx (fst cs) = Nat.max (rdx x) (rdx y) /\ len (fst cs) = (len x + oy)%nat /\ neg (fst cs) = s)).
  { rewrite Er1. fold oy ox. destruct (Nat.ltb_spec (rdx x) (rdx y)).
    - eapply ends_bind; [apply extend_spec; exact R1|]. intros c2 (R2 & D2 & Er2 & El2 & En2). apply ends_ok. cbn [fst snd] in *.
      apply extend_mant in D2. cbn [set_neg rdx len neg] in *. change (mant (set_neg c1 s)) with (mant c1) in D2.
      rewrite D2, Em1. repeat split; try apply R2; auto; try lia.
    - apply ends_ok. cbn [fst snd set_neg rdx len neg]. change (mant (set_neg c1 s)) with (mant c1).
      replace oy with O by lia. change (p10 0) with 1. repeat split; try apply R1; auto; lia. }
  intros [c2 start] (R2 & E2 & M2 & Er2 & El2 & En2). cbn [fst snd] in *. subst start.
  destruct (aligned c2 ox R2 ltac:(lia)) as (Ec & B & Df & Ds & L).
  set (mid := slice ox (len c2 - ox) (num c2)) in *.
  assert (Ln : length mid = (len c2 - ox)%nat) by (unfold mid; rewrite length_slice; lia).
  assert (Enum : num c2 = firstn ox (num c2) ++ mid ++ skipn (len c2) (num c2)).
  { unfold mid, slice. rewrite <- (firstn_skipn ox (num c2)) at 1. f_equal.
    rewrite <- (firstn_skipn (len c2 - ox) (skipn ox (num c2))) at 1. f_equal. rewrite skipn_skipn. f_equal. lia. }
  assert (Lf : length (firstn ox (num c2)) = ox) by (rewrite length_firstn; lia).
  assert (Hle : mant y <= dval mid) by (pose proof (p10_pos ox); nia).
  destruct (proj1 Hy) as [Cy Dy]. unfold cap in Cy.
  pose proof (sub_spec err (firstn ox (num c2)) mid (skipn (len c2) (num c2)) (num y) (len y) ltac:(lia) ltac:(lia) Ds Dy Hle) as Hsub.
  rewrite <- Enum, Lf in Hsub. eapply ends_bind; [exact Hsub|].
  intros l (mid' & -> & Lm & Dm & Ev). set (c3 := set_num c2 _).
  change (dval (firstn (len y) (num y))) with (mant y) in Ev.
  assert (D3 : digs c3 = firstn ox (num c2) ++ mid').
  { unfold digs, c3; cbn [num len set_num]. rewrite app_assoc, firstn_app.
    replace (len c2) with (length (firstn ox (num c2) ++ mid')) at 1 2 by (rewrite length_app; lia).
    rewrite firstn_all, Nat.sub_diag. apply app_nil_r. }
  assert (M3 : mant c3 = mant x * p10 oy - mant y * p10 ox).
  { unfold mant at 1. rewrite D3, dval_app, Lf, Ev, <- M2, Ec. ring. }
  assert (R3 : raw c3).
  { split; [|rewrite D3; apply Forall_app; auto]. unfold cap, c3; cbn [num len set_num].
    rewrite !length_app, length_skipn, Lf, Lm. lia. }
  eapply ends_impl; [apply clean_spec; [exact R3|left; cbn [c3 set_num rdx len]; lia]|].
  intros r (Hr & Mr & Err & Hl & Hn). rewrite Mr, M3, Err. cbn [c3 set_num rdx len] in *. unfold sum_len.
  repeat split; try apply Hr; auto; try lia. rewrite <- En2. apply Hn. lia.
Qed.

(** [c] is [a + b], or [a - b] when [sub]. *)
Definition sums (a b : BcNum) (sub : bool) (c : BcNum) : Prop :=
  ok c /\ sval c * p10 (rdx a + rdx b) = (sval a * p10 (rdx b) + (if sub then - sval b else sval b) * p10 (rdx a)) * p10 (rdx c) /\
  (rdx c <= Nat.max (rdx a) (rdx b))%nat /\ (len c <= sum_len a b)%nat.

Lemma sval_bool n : sval n = (if neg n then -1 else 1) * mant n.
Proof. unfold sval. destruct (neg n); ring. Qed.

(** An operand that is zero. *)
Lemma zero_operand a b c sub (k : result BcNum) :
  ok a -> ok b -> (len a <> O -> len b <> O -> ends err (sums a b (negb (sub =? 0)%nat)) k) ->
  ends err (sums a b (negb (sub =? 0)%nat))
    (if (len a =? 0)%nat then
       let! c := bc_num_copy garbage c b in
       Ok (if negb (sub =? 0)%nat && negb (len c =? 0)%nat then set_neg c (negb (neg c)) else c)
     else if (len b =? 0)%nat then bc_num_copy garbage c a else k).
Proof.
  intros Ha Hb Hk. destruct (Nat.eqb_spec (len a) 0) as [Ea|Na].
  - eapply ends_bind; [apply copy_spec, Hb|]. intros d [Hd _]. apply ends_ok.
    pose proof (same_ok _ _ Hd Hb) as Hok. pose proof (same_mant _ _ Hd) as Em. destruct Hd as (_ & _ & Er & El & En).
    assert (Ez : sval a = 0) by (unfold sval; rewrite mant_zero by exact Ea; destruct (neg a); reflexivity).
    match goal with |- sums _ _ _ ?t => set (d' := t) end.
    assert (H : ok d' /\ rdx d' = rdx b /\ len d' = len b /\ sval d' = if negb (sub =? 0)%nat then - sval b else sval b).
    { unfold d'. destruct (negb (sub =? 0)%nat); cbn [andb].
      - destruct (Nat.eqb_spec (len d) 0) as [E0|E0]; cbn [negb].
        + rewrite !sval_bool, Em, (mant_zero b) by congruence. repeat split; try apply Hok; auto; ring.
        + rewrite !sval_bool. change (mant (set_neg d (negb (neg d)))) with (mant d). rewrite Em. cbn [set_neg neg rdx len].
          rewrite En. destruct Hok as [Hr Hs]. repeat split; try apply Hr; auto; [|destruct (neg b); cbn [negb]; ring].
          destruct Hs as [[? _]|Hs]; [contradiction|right; exact Hs].
      - assert (sval d = sval b) by (unfold sval; rewrite En, Em; reflexivity). repeat split; try apply Hok; auto. }
    destruct H as (H1 & H2 & H3 & H4). unfold sums, sum_len. rewrite H2, H3, H4, Ez, Ea, p10_add.
    repeat split; try apply H1; lia.
  - destruct (Nat.eqb_spec (len b) 0) as [Eb|Nb]; [|auto].
    eapply ends_impl; [apply copy_spec, Ha|]. intros d [Hd _].
    pose proof (same_ok _ _ Hd Ha) as Hok. pose proof (same_sval _ _ Hd) as Em. destruct Hd as (_ & _ & Er & El & En).
    assert (Ez : sval b = 0) by (unfold sval; rewrite mant_zero by exact Eb; destruct (neg b); reflexivity).
    unfold sums, sum_len. rewrite Er, El, Em, Ez, Eb, p10_add.
    repeat split; try apply Hok; try lia. destruct (sub =? 0)%nat; cbn [negb]; ring.
Qed.

Lemma p10_max_l r s : p10 (Nat.max r s) = p10 r * p10 (s - r).
Proof. rewrite <- p10_add. f_equal. lia. Qed.
Lemma p10_max_r r s : p10 (Nat.max r s) = p10 s * p10 (r - s).
Proof. rewrite <- p10_add. f_equal. lia. Qed.

Lemma mag_units x y v w r s :
  v = x * p10 (s - r) + w * (y * p10 (r - s)) -> v * p10 (r + s) = (x * p10 s + w * y * p10 r) * p10 (Nat.max r s).
Proof.
  intros ->. rewrite p10_add. pose proof (p10_max_l r s) as H1. pose proof (p10_max_r r s) as H2.
  transitivity (x * p10 s * (p10 r * p10 (s - r)) + w * y * p10 r * (p10 s * p10 (r - s))); [ring|].
  rewrite <- H1, <- H2. ring.
Qed.

Lemma a_spec a b c sub :
  ok a -> ok b -> sized a -> sized b ->
  (len a <> O -> len b <> O -> xorb (negb (sub =? 0)%nat) (neg b) = neg a /\ (sum_len a b <= cap c)%nat) ->
  ends err (sums a b (negb (sub =? 0)%nat)) (zbc_num_a garbage a b c sub).
Proof.
  intros Ha Hb Sa Sb Hc. apply zero_operand; [exact Ha|exact Hb|]. intros Na Nb. destruct (Hc Na Nb) as [Es Hcap].
  pose proof (zbc_num_a_mag a b c sub Ha Hb Sa Sb Na Nb Hcap) as H. unfold zbc_num_a in H.
  destruct (Nat.eqb_spec (len a) 0) as [|_]; [contradiction|]. destruct (Nat.eqb_spec (len b) 0) as [|_]; [contradiction|].
  eapply ends_impl; [exact H|]. intros d (Hd & Er & En & Em & Hl). unfold sums. rewrite Er, !sval_bool, En, Em.
  repeat split; try apply Hd; auto. rewrite <- Es.
  replace (if negb (sub =? 0)%nat then - ((if neg b then -1 else 1) * mant b) else (if neg b then -1 else 1) * mant b)
    with ((if xorb (negb (sub =? 0)%nat) (neg b) then -1 else 1) * mant b) by (destruct (negb (sub =? 0)%nat), (neg b); cbn [xorb]; ring).
  apply mag_units. unfold msum. ring.
Qed.

Lemma s_spec a b c sub :
  ok a -> ok b -> sized a -> sized b ->
  (len a <> O -> len b <> O -> xorb (negb (sub =? 0)%nat) (neg b) = negb (neg a)) ->
  ends err (sums a b (negb (sub =? 0)%nat)) (zbc_num_s garbage a b c sub).
Proof.
  intros Ha Hb Sa Sb Hc. apply zero_operand; [exact Ha|exact Hb|]. intros Na Nb. specialize (Hc Na Nb).
  assert (Hok : forall n, ok n -> ok (set_neg n false)) by (intros n [Hr [[E _]|Hs]]; (split; [exact Hr|]); [left|right]; auto).
  eapply ends_bind; [apply cmp_spec; auto|]. cbn [set_neg rdx].
  change (sval (set_neg a false)) with (mant a). change (sval (set_neg b false)) with (mant b).
  change (mant a * p10 (rdx b) - mant b * p10 (rdx a)) with (mdiff a b). intros cmp Hcmp.
  assert (Eb : (if negb (sub =? 0)%nat then - sval b else sval b) = (if neg a then 1 else -1) * mant b).
  { rewrite sval_bool. destruct (negb (sub =? 0)%nat), (neg b), (neg a); try discriminate; ring. }
  unfold sums. rewrite Eb, sval_bool.
  destruct (Z.eqb_spec cmp 0) as [->|Hc0].
  { apply ends_ok. symmetry in Hcmp. apply (proj1 (Z.sgn_null_iff _)) in Hcmp. unfold mdiff in Hcmp.
    split; [apply ok_setToZero|]. change (sval (bc_num_setToZero c (Nat.max (rdx a) (rdx b)))) with 0.
    cbn [bc_num_setToZero rdx len]. repeat split; [|lia|lia].
    replace ((if neg a then -1 else 1) * mant a * p10 (rdx b) + (if neg a then 1 else -1) * mant b * p10 (rdx a)) with 0
      by (destruct (neg a); lia). ring. }
  destruct (Z.ltb_spec 0 cmp) as [Hp|Hp].
  - rewrite (Z.sgn_pos cmp Hp) in Hcmp. symmetry in Hcmp. apply (proj1 (Z.sgn_pos_iff _)) in Hcmp.
    eapply ends_impl; [apply subtract_mag; assumption|].
    intros d (Hd & Er & En & Em & Hl). rewrite Er, (sval_bool d), En, Em. repeat split; try apply Hd; auto.
    apply mag_units. destruct (neg a); ring.
  - rewrite (Z.sgn_neg cmp ltac:(lia)) in Hcmp. symmetry in Hcmp. apply (proj1 (Z.sgn_neg_iff _)) in Hcmp.
    eapply ends_impl; [apply subtract_mag; try assumption; unfold mdiff in *; lia|].
    intros d (Hd & Er & En & Em & Hl). rewrite Er, (sval_bool d), En, Em. unfold sum_len in *.
    repeat split; try apply Hd; try lia. rewrite Nat.max_comm. apply mag_units.
    destruct (sub =? 0)%nat, (neg a), (neg b); try discriminate; cbn [negb]; ring.
Qed.

Lemma binary_cap (alias : bool) c req :
  (req <= cap (if alias then bc_num_init garbage req else bc_num_expand garbage c req))%nat.
Proof. destruct alias; [apply cap_init|apply expand_cap]. Qed.

Lemma add_spec alias a b c scale :
  ok a -> ok b -> sized a -> sized b -> ends err (sums a b false) (zbc_num_add garbage alias a b c scale).
Proof.
  intros Ha Hb Sa Sb. unfold zbc_num_add, zbc_num_binary.
  pose proof (binary_cap alias c (BC_NUM_AREQ a b)) as Hc. destruct (eqb (neg a) (neg b)) eqn:E.
  - apply a_spec; auto. intros Na Nb. apply eqb_prop in E. rewrite <- AREQ_spec by assumption.
    split; [rewrite E; destruct (neg b); reflexivity|exact Hc].
  - apply s_spec; auto. intros _ _. destruct (neg a), (neg b); try discriminate; reflexivity.
Qed.

Lemma subtract_spec alias a b c scale :
  ok a -> ok b -> sized a -> sized b -> ends err (sums a b true) (zbc_num_sub garbage alias a b c scale).
Proof.
  intros Ha Hb Sa Sb. unfold zbc_num_sub, zbc_num_binary.
  pose proof (binary_cap alias c (BC_NUM_AREQ a b)) as Hc. destruct (eqb (neg a) (neg b)) eqn:E.
  - apply s_spec; auto. intros _ _. apply eqb_prop in E. rewrite E. destruct (neg b); reflexivity.
  - apply a_spec; auto. intros Na Nb. rewrite <- AREQ_spec by assumption. split; [|exact Hc].
    destruct (neg a), (neg b); try discriminate; reflexivity.
Qed.
End Add.

(** ** Values *)

Lemma ends_total {E A} (P : A -> Prop) (m : res E A) : ends (fun _ => False) P m -> exists a, m = Ok a /\ P a.
Proof. destruct m; cbn; [eauto| | |]; contradiction. Qed.

Lemma pos_p10 r : Zpos (Z.to_pos (p10 r)) = p10 r.
Proof. apply Z2Pos.id, p10_pos. Qed.

Lemma sums_val a b s c : sums a b s c -> (val c == (if s then val a - val b else val a + val b))%Q.
Proof.
  intros (_ & E & _). rewrite p10_add in E.
  destruct s; unfold val, Qeq, Qminus, Qplus, Qopp; cbn [Qnum Qden]; rewrite Pos2Z.inj_mul, !pos_p10, Z.mul_assoc in *; nia.
Qed.

Lemma cmp_val a b c : Z.sgn c = Z.sgn (sval a * p10 (rdx b) - sval b * p10 (rdx a)) -> (c ?= 0) = (val a ?= val b)%Q.
Proof.
  intros H. unfold val, Qcompare; cbn [Qnum Qden]. rewrite !pos_p10.
  set (x := sval a * _) in *. set (y := sval b * _) in *.
  destruct (Z.lt_trichotomy x y) as [L|[L|L]].
  - rewrite (Z.sgn_neg (x - y)) in H by lia. apply (proj1 (Z.sgn_neg_iff _)) in H.
    rewrite (proj2 (Z.compare_lt_iff _ _) L). apply Z.compare_lt_iff, H.
  - replace (x - y) with 0 in H by lia. apply (proj1 (Z.sgn_null_iff _)) in H. rewrite H, L, !Z.compare_refl. reflexivity.
  - rewrite (Z.sgn_pos (x - y)) in H by lia. apply (proj1 (Z.sgn_pos_iff _)) in H.
    rewrite (proj2 (Z.compare_gt_iff _ _) L). apply Z.compare_gt_iff, H.
Qed.

(** C25. Addition, subtraction and comparison of bc numbers are exact. For
    well-formed operands of any sign and any number of fraction digits,
    whatever memory the result is written to (a buffer of any size, or the
    buffer of an operand), [zbc_num_add] and [zbc_num_sub] stay inside their
    buffers and return a well-formed number whose value is the sum or the
    difference of the values, and [bc_num_cmp] returns a number whose sign is
    the order of the values. *)
Theorem bc_add_sub_exact (garbage : nat -> Z) (alias : bool) (a b c : BcNum) (scale : nat) :
  ok a -> ok b -> sized a -> sized b ->
  (exists r, zbc_num_add garbage alias a b c scale = Ok r /\ ok r /\ (val r == val a + val b)%Q) /\
  (exists r, zbc_num_sub garbage alias a b c scale = Ok r /\ ok r /\ (val r == val a - val b)%Q) /\
  (exists k, bc_num_cmp a b = Ok k /\ (k ?= 0) = (val a ?= val b)%Q).
Proof.
  intros Ha Hb Sa Sb. repeat split.
  - destruct (ends_total _ _ (add_spec garbage _ alias a b c scale Ha Hb Sa Sb)) as (r & E & H).
    exists r. split; [exact E|]. split; [apply H|]. apply (sums_val a b false r H).
  - destruct (ends_total _ _ (subtract_spec garbage _ alias a b c scale Ha Hb Sa Sb)) as (r & E & H).
    exists r. split; [exact E|]. split; [apply H|]. apply (sums_val a b true r H).
  - destruct (ends_total _ _ (cmp_spec _ a b Ha Hb Sa Sb)) as (k & E & H). exists k. split; [exact E|].
    apply cmp_val, H.
Qed.

(** 12.5 and -0.75 *)
Definition n12_5 : BcNum := mkNum [5; 2; 1] 1 3 false.
Definition n_0_75 : BcNum := mkNum [5; 7] 2 2 true.

Lemma n12_5_ok : ok n12_5.
Proof. apply okb_ok. reflexivity. Qed.
Lemma n_0_75_ok : ok n_0_75.
Proof. apply okb_ok. reflexivity. Qed.

Lemma bc_add_sub_exact_witness :
  exists r, zbc_num_add (fun _ => 7) false n12_5 n_0_75 (mkNum [] 0 0 false) 0 = Ok r /\ ok r /\ (val r == (1175 # 100))%Q.
Proof.
  destruct (bc_add_sub_exact (fun _ => 7) false n12_5 n_0_75 (mkNum [] 0 0 false) 0 n12_5_ok n_0_75_ok
    ltac:(split; cbn; lia) ltac:(split; cbn; lia)) as [(r & E & H & V) _].
  exists r. split; [exact E|]. split; [exact H|]. rewrite V. reflexivity.
Defined.
End BcA.
