(* ===== verification/BcMul.v ===== *)
(** * Multiplication of bc numbers

    The schoolbook product and Karatsuba's recursion of [zbc_num_k]
    (miscutils/bc.c) compute the product of the digit arrays, inside the
    buffers they allocate; [zbc_num_mul] cuts it off at the scale bc asks
    for. *)

From Stdlib Require Import ZArith List Lia Bool QArith.
From S2P Require Import Prelude Words Mem BcNum BcDigits BcAdd.
Import ListNotations.
Local Open Scope Z_scope.
Local Open Scope res_scope.
Import Bc BcD BcA.

Module BcM.

(** A ^C is the only error. *)
Definition interrupted (G_interrupt : nat -> bool) (e : BcStatus) : Prop :=
  e = BC_STATUS_FAILURE /\ exists i, G_interrupt i = true.

(** A nonnegative integer without zeros in front. *)
Definition natural (n : BcNum) : Prop := ok n /\ (len n = O \/ rdx n = O) /\ neg n = false.

(** ** The schoolbook product *)

Section Schoolbook.
Context (err : BcStatus -> Prop).

Lemma mul_row_spec (a b : list Z) alen i l :
  (alen <= length a)%nat -> (i < length b)%nat -> (i + alen <= length l)%nat ->
  digits (firstn alen a) -> digit (nth i b 0) -> digits (firstn (i + alen) l) ->
  ends err (fun s => length (fst s) = length l /\ digits (firstn (i + alen) (fst s)) /\ 0 <= snd s <= 9 /\
      skipn (i + alen) (fst s) = skipn (i + alen) l /\
      dval (firstn (i + alen) (fst s)) + p10 (i + alen) * snd s =
      dval (firstn (i + alen) l) + p10 i * nth i b 0 * dval (firstn alen a))
    (mul_row a b alen i l).
Proof.
  intros Ha Hb Hl Da Db Dl. unfold mul_row.
  apply (for_up_inv err (fun j (s : list Z * Z) => length (fst s) = length l /\ digits (firstn (i + j) (fst s)) /\ 0 <= snd s <= 9 /\
      skipn (i + j) (fst s) = skipn (i + j) l /\
      dval (firstn (i + j) (fst s)) + p10 (i + j) * snd s = dval (firstn (i + j) l) + p10 i * nth i b 0 * dval (firstn j a))).
  - intros j [l' carry] Hj (El & Dl' & Hc & Es & Ev). cbn [fst snd] in *.
    assert (Dx : digit (nth (i + j) l 0) /\ digit (nth j a 0)).
    { pose proof (digits_nth _ (i + j) Dl) as H1. pose proof (digits_nth _ j Da) as H2. rewrite nth_firstn in H1, H2.
      destruct (Nat.ltb_spec (i + j) (i + alen)); [|lia]. destruct (Nat.ltb_spec j alen); [auto|lia]. }
    destruct Dx as [Dx Dy]. unfold digit in *.
    apply (ends_load1 _ _ _ _ 0); [lia|]. rewrite (nth_of_skipn l' l (i + j) 0 Es).
    apply (ends_load1 _ _ _ _ 0); [lia|]. apply (ends_load1 _ _ _ _ 0); [lia|].
    set (x := nth (i + j) l 0) in *. set (y := nth j a 0) in *. set (z := nth i b 0) in *.
    assert (0 <= y * z <= 81) by nia. assert (Hin : 0 <= x + (y * z + carry) < 100) by lia.
    rewrite !u32_exact by (rewrite ?u32_exact; lia).
    unfold add_digit. set (v := x + (y * z + carry)) in *. apply ends_store1; [lia|]. apply ends_ok. cbn [fst snd].
    pose proof (Z.div_mod v 10 ltac:(lia)) as Edm. pose proof (Z.mod_pos_bound v 10 ltac:(lia)).
    rewrite Nat.add_succ_r, s8_exact, length_upd, firstn_upd by lia. repeat split; auto; try lia.
    + apply Forall_app. split; [exact Dl'|]. repeat constructor; lia.
    + rewrite skipn_upd by lia. apply skipn_weaken, Es.
    + rewrite dval_app, length_firstn, Nat.min_l, p10_S, !dval_firstn_S by lia. cbn [dval]. fold x y.
      rewrite p10_add in *. nia.
  - cbn [fst snd firstn dval]. rewrite Nat.add_0_r. repeat split; auto; try lia.
    replace (firstn i l) with (firstn i (firstn (i + alen) l)) by (rewrite firstn_firstn, Nat.min_l by lia; reflexivity).
    apply Forall_firstn, Dl.
Qed.
End Schoolbook.

Section Schoolbook_product.
Context (garbage : nat -> Z) (G_interrupt : nat -> bool).

(** The state of the product after the rows below [i]: the array and its length. *)
Definition partial (a b : BcNum) (total : nat) (i : nat) (s : list Z * nat) : Prop :=
  let (l, n) := s in
  length l = total /\ digits (firstn (i + len a) l) /\ skipn (i + len a) l = repeat 0 (total - (i + len a)) /\
  dval (firstn (i + len a) l) = mant a * dval (firstn i (num b)) /\ (n <= i + len a)%nat /\
  (i <> O -> dval (firstn n l) = mant a * dval (firstn i (num b)) /\
             (n = (i + len a)%nat /\ p10 (n - 1) <= dval (firstn n l) \/ S n = (i + len a)%nat)).

Lemma repeat_skipn_nth k n (l : list Z) : skipn k l = repeat 0 n -> nth k l 0 = 0.
Proof.
  intros E. rewrite <- (Nat.add_0_r k), <- nth_skipn, E. destruct n; reflexivity.
Qed.

Lemma row_step a b total i l n carry l' :
  raw a -> len a <> O -> partial a b total i (l, n) -> (i + len a < total)%nat -> (i < length (num b))%nat ->
  length l' = length l -> digits (firstn (i + len a) l') -> 0 <= carry <= 9 -> skipn (i + len a) l' = skipn (i + len a) l ->
  dval (firstn (i + len a) l') + p10 (i + len a) * carry = dval (firstn (i + len a) l) + p10 i * nth i (num b) 0 * mant a ->
  partial a b total (S i) (upd l' (i + len a) carry, Nat.max n (i + len a + (if carry =? 0 then 0 else 1))).
Proof.
  intros Ha Na (Ll & Dl & Sl & Vl & Hn & _) Ht Hi El Dl' Hc Es Ev.
  pose proof (dval_firstn_S (num b) i Hi) as Eb.
  assert (Ed : firstn (S (i + len a)) (upd l' (i + len a) carry) = firstn (i + len a) l' ++ [carry]) by (apply firstn_upd; lia).
  assert (EV : dval (firstn (i + len a) l' ++ [carry]) = mant a * dval (firstn (S i) (num b))).
  { rewrite dval_app, length_firstn, Nat.min_l by lia. cbn [dval]. rewrite Eb. nia. }
  unfold partial. cbn [Nat.add]. rewrite length_upd, Ed. repeat split; try lia; auto.
  - apply Forall_app. split; [exact Dl'|]. repeat constructor; lia.
  - rewrite skipn_upd by lia. rewrite (skipn_weaken l' l _ Es). change (S (i + len a)) with (1 + (i + len a))%nat.
    rewrite <- skipn_skipn, Sl. replace (total - (i + len a))%nat with (S (total - (1 + (i + len a)))) by lia. reflexivity.
  - destruct (carry =? 0); lia.
  - pose proof (dval_bounds _ Dl') as B. rewrite length_firstn, Nat.min_l in B by lia.
    rewrite <- EV, dval_app, length_firstn, Nat.min_l by lia. cbn [dval].
    destruct (Z.eqb_spec carry 0) as [->|].
    + replace (Nat.max n (i + len a + 0)) with (i + len a)%nat by lia. rewrite firstn_upd_above by lia. ring.
    + replace (Nat.max n (i + len a + 1)) with (S (i + len a)) by lia. rewrite Ed, dval_app, length_firstn, Nat.min_l by lia. reflexivity.
  - pose proof (dval_bounds _ Dl') as B. rewrite length_firstn, Nat.min_l in B by lia.
    destruct (Z.eqb_spec carry 0) as [->|]; [right; lia|left].
    replace (Nat.max n (i + len a + 1)) with (S (i + len a)) by lia. split; [reflexivity|].
    rewrite Ed, dval_app, length_firstn, Nat.min_l by lia. cbn [dval]. replace (S (i + len a) - 1)%nat with (i + len a)%nat by lia.
    pose proof (p10_pos (i + len a)). nia.
Qed.

Lemma schoolbook_spec a b c :
  natural a -> natural b -> len a <> O -> len b <> O ->
  ends (interrupted G_interrupt) (fun r => raw r /\ mant r = mant a * mant b /\ p10 (len r - 1) <= mant r /\ rdx r = rdx c /\ neg r = neg c)
    (schoolbook garbage G_interrupt a b c).
Proof.
  intros (Ha & Za & _) (Hb & Zb & _) Na Nb. unfold schoolbook.
  destruct (expand_spec garbage c (len a + len b + 1)) as (tail & -> & Ht). set (c' := set_num c _).
  set (total := cap c'). assert (Htot : (len a + len b + 1 <= total)%nat) by (unfold total, cap, c' in *; cbn [set_num num]; rewrite length_app; exact Ht).
  destruct (ok_nonzero a Ha Na) as (_ & Ma & Pa). destruct (ok_nonzero b Hb Nb) as (_ & Mb & Pb).
  specialize (Pa ltac:(lia)). specialize (Pb ltac:(lia)).
  destruct (proj1 Ha) as [Ca Da]. destruct (proj1 Hb) as [Cb Db]. unfold cap in Ca, Cb.
  eapply (ends_bind _ (partial a b total (0 + len b))).
  - apply for_up_inv.
    + intros i [l n] Hi Hp. pose proof Hp as (Ll & Dl & Sl & Vl & Hn & _).
      eapply ends_bind; [apply mul_row_spec; auto; try lia; apply (raw_digit b i (proj1 Hb)); lia|].
      intros [l' carry] (El & Dl' & Hc & Es & Ev). cbn [fst snd] in *.
      apply (ends_load1 _ _ _ _ 0); [lia|]. rewrite (nth_of_skipn l' l _ 0 Es), (repeat_skipn_nth _ _ _ Sl).
      rewrite (s8_exact carry) by lia. rewrite s8_exact by lia. apply ends_store1; [lia|].
      destruct (G_interrupt i) eqn:G; [cbn; split; eauto|]. apply ends_ok. rewrite Z.add_0_l.
      eapply row_step; eauto; try lia; apply Ha.
    + unfold partial. cbn [Nat.add].
      assert (E : forall k, (k <= total)%nat -> firstn k (repeat 0 total) = repeat 0 k).
      { intros k Hk. replace total with (k + (total - k))%nat by lia. rewrite repeat_app, firstn_app, repeat_length, Nat.sub_diag, app_nil_r.
        rewrite <- (repeat_length 0 k) at 1. apply firstn_all. }
      rewrite E by lia. rewrite repeat_length. repeat split; try lia; [apply digits_zeros| |rewrite dval_zeros; cbn [firstn dval]; lia].
      replace total with (len a + (total - len a))%nat at 1 by lia. rewrite repeat_app, skipn_app, repeat_length, Nat.sub_diag, skipn_all2 by (rewrite repeat_length; lia).
      reflexivity.
  - intros [l n] (Ll & Dl & Sl & Vl & Hn & H). destruct (H ltac:(lia)) as [Ev Hs]. change (dval (firstn (0 + len b) (num b))) with (mant b) in Ev.
    apply ends_ok.
    set (r := mkNum _ _ _ _). change (mant r = mant a * mant b) in Ev. change (dval (firstn n l)) with (mant r) in Hs.
    unfold raw, digs, cap. rewrite Ev in *. unfold r; cbn [num len rdx neg]. repeat split; auto; try lia.
    + replace n with (Nat.min n (0 + len b + len a)) by lia. rewrite <- firstn_firstn. apply Forall_firstn, Dl.
    + destruct Hs as [[_ Hs]|Hs]; [exact Hs|].
      replace (n - 1)%nat with (len a - 1 + (len b - 1))%nat by lia. rewrite p10_add.
      pose proof (p10_pos (len a - 1)). pose proof (p10_pos (len b - 1)). nia.
Qed.
End Schoolbook_product.

(** ** Karatsuba's product *)

(** A natural number with no fraction digits to its name. *)
Definition integer (n : BcNum) : Prop := ok n /\ rdx n = O /\ neg n = false.

Lemma integer_natural n : integer n -> natural n.
Proof. intros (H1 & H2 & H3). unfold natural. auto. Qed.

Lemma integer_sval n : integer n -> sval n = mant n.
Proof. intros (_ & _ & H). unfold sval. rewrite H. reflexivity. Qed.

Lemma natural_len n k : natural n -> mant n < p10 k -> (len n <= k)%nat.
Proof.
  intros ((Hr & Hs) & Hz & _) Hm. destruct Hs as [[-> _]|(H1 & H2 & H3)]; [lia|].
  destruct (Nat.eq_dec (len n) 0) as [->|Hn]; [lia|].
  assert (rdx n < len n)%nat by lia. specialize (H3 ltac:(assumption)). assert (p10 (len n - 1) < p10 k) by lia.
  apply p10_lt_inv in H0. lia.
Qed.

Lemma integer_of r : raw r -> 0 < mant r -> p10 (len r - 1) <= mant r -> rdx r = O -> neg r = false -> integer r.
Proof. intros H1 H2 H3 H4 H5. split; [split; [exact H1|]|auto]. right. repeat split; auto; lia. Qed.

Lemma sums_integer a b s c :
  integer a -> integer b -> sums a b s c -> 0 <= (if s : bool then mant a - mant b else mant a + mant b) ->
  integer c /\ mant c = (if s then mant a - mant b else mant a + mant b).
Proof.
  intros Ha Hb (Hc & Ev & Hr & _) Hp. pose proof (integer_sval a Ha) as Va. pose proof (integer_sval b Hb) as Vb.
  destruct Ha as (_ & Ra & _), Hb as (_ & Rb & _). rewrite Ra, Rb, Va, Vb in *.
  assert (Rc : rdx c = O) by lia. rewrite Rc in Ev. change (p10 0) with 1 in Ev. change (p10 (0 + 0)) with 1 in Ev.
  assert (Es : sval c = if s then mant a - mant b else mant a + mant b) by (destruct s; lia). rewrite <- Es in Hp.
  pose proof (mant_bounds c (proj1 Hc)) as B.
  assert (En : neg c = false).
  { unfold sval in Hp. destruct (neg c) eqn:N; [|reflexivity]. destruct (proj2 Hc) as [[_ H]|(_ & H & _)]; [congruence|lia]. }
  unfold integer. rewrite <- Es. unfold sval. rewrite En. repeat split; try apply Hc; auto.
Qed.

Section Karatsuba.
Context (garbage : nat -> Z) (G_interrupt : nat -> bool).
Let err := interrupted G_interrupt.

(** [c] after a product was written to it: an integer if it was one. *)
Definition product (a b c r : BcNum) : Prop :=
  raw r /\ mant r = mant a * mant b /\ (len r = O \/ p10 (len r - 1) <= mant r) /\
  (rdx c = O -> neg c = false -> integer r).

Lemma integer_product a b c r : integer r -> mant r = mant a * mant b -> product a b c r.
Proof.
  intros Hr Em. pose proof Hr as ((H1 & H2) & H3 & H4). unfold product. repeat split; try apply H1; auto.
  destruct H2 as [[E _]|(E1 & E2 & E3)]; [auto|]. rewrite H3 in *. destruct (Nat.eq_dec (len r) 0); [auto|right; apply E3; lia].
Qed.

Lemma sized_small n : Z.of_nat (len n) <= BC_MAX_NUM -> rdx n = O -> sized n.
Proof. unfold BC_MAX_NUM, sized. lia. Qed.

Lemma init_fresh k : rdx (bc_num_init garbage k) = O /\ neg (bc_num_init garbage k) = false.
Proof. split; reflexivity. Qed.

(** The product from the products of the halves. *)
Lemma combine_spec h1 l1 h2 l2 z0 z1 z2 t c m :
  integer z0 -> integer z1 -> integer z2 ->
  0 <= mant h1 < p10 m -> 0 <= mant l1 < p10 m -> 0 <= mant h2 < p10 m -> 0 <= mant l2 < p10 m ->
  mant z0 = mant h1 * mant h2 -> mant z1 = (mant h1 + mant l1) * (mant h2 + mant l2) -> mant z2 = mant l1 * mant l2 ->
  Z.of_nat (4 * m + 2) <= BC_MAX_NUM ->
  ends err (fun r => integer r /\ mant r = (mant l1 + p10 m * mant h1) * (mant l2 + p10 m * mant h2))
    (let! temp := zbc_num_sub garbage false z1 z0 t 0 in
     let! z1 := zbc_num_sub garbage false temp z2 z1 0 in
     let! z0 := zbc_num_shift garbage z0 (m * 2) in
     let! z1 := zbc_num_shift garbage z1 m in
     let! temp := zbc_num_add garbage false z0 z1 temp 0 in
     zbc_num_add garbage false temp z2 c 0).
Proof.
  intros I0 I1 I2 B1 B2 B3 B4 E0 E1 E2 Hs.
  assert (Pm : p10 (2 * m) = p10 m * p10 m) by (rewrite <- p10_add; f_equal; lia).
  assert (Hlen : forall n k, integer n -> mant n < p10 k -> (len n <= k)%nat) by (intros; apply natural_len; [apply integer_natural|]; assumption).
  assert (L0 : (len z0 <= 2 * m)%nat) by (apply Hlen; [exact I0|nia]).
  assert (L2 : (len z2 <= 2 * m)%nat) by (apply Hlen; [exact I2|nia]).
  assert (L1 : (len z1 <= S (2 * m))%nat) by (apply Hlen; [exact I1|rewrite p10_S; nia]).
  assert (S0 : forall n, integer n -> (len n <= 4 * m + 2)%nat -> sized n) by (intros n (_ & R & _) L; apply sized_small; [lia|exact R]).
  eapply ends_bind; [apply subtract_spec; [apply I1|apply I0|apply S0; [exact I1|lia]|apply S0; [exact I0|lia]]|].
  intros t1 H. apply sums_integer in H as [It1 Et1]; [|assumption|assumption|nia].
  assert (Lt1 : (len t1 <= S (2 * m))%nat) by (apply Hlen; [exact It1|rewrite p10_S; nia]).
  eapply ends_bind; [apply subtract_spec; [apply It1|apply I2|apply S0; [exact It1|lia]|apply S0; [exact I2|lia]]|].
  intros y1 H. apply sums_integer in H as [Iy1 Ey1]; [|assumption|assumption|nia].
  assert (Vy1 : mant y1 = mant h1 * mant l2 + mant l1 * mant h2) by nia.
  assert (Ly1 : (len y1 <= S (2 * m))%nat) by (apply Hlen; [exact Iy1|rewrite p10_S; nia]).
  eapply ends_bind; [apply shift_spec; [apply I0|destruct I0 as (_ & -> & _); lia|lia]|].
  intros y0 (O0 & M0 & R0 & Ly0 & N0). pose proof I0 as (_ & R0' & N0'). rewrite R0', Nat.sub_0_r in *.
  assert (Iy0 : integer y0) by (unfold integer; rewrite N0, N0'; destruct R0 as [->|[_ ->]]; auto).
  eapply ends_bind; [apply shift_spec; [apply Iy1|destruct Iy1 as (_ & -> & _); lia|lia]|].
  intros x1 (O1 & M1 & R1 & Lx1 & N1). pose proof Iy1 as (_ & R1' & N1'). rewrite R1', Nat.sub_0_r in *.
  assert (Ix1 : integer x1) by (unfold integer; rewrite N1, N1'; destruct R1 as [->|[_ ->]]; auto).
  rewrite (Nat.mul_comm m 2), Pm in M0.
  eapply ends_bind; [apply add_spec; [apply Iy0|apply Ix1|apply S0; [exact Iy0|lia]|apply S0; [exact Ix1|lia]]|].
  intros t2 H. pose proof H as (_ & _ & _ & Lt2). unfold sum_len in Lt2.
  replace (rdx y0) with O in Lt2 by (symmetry; apply Iy0). replace (rdx x1) with O in Lt2 by (symmetry; apply Ix1).
  assert (0 <= mant y0 + mant x1) by (rewrite M0, M1; pose proof (p10_pos m); nia).
  apply sums_integer in H as [It2 Et2]; [|assumption|assumption|assumption].
  eapply ends_impl; [apply add_spec; [apply It2|apply I2|apply S0; [exact It2|lia]|apply S0; [exact I2|lia]]|].
  intros r H'. apply sums_integer in H' as [Ir Er]; [|assumption|assumption|nia].
  split; [exact Ir|]. rewrite Er, Et2, M0, M1, Vy1, E0, E2. ring.
Qed.

Lemma half_bound m : (1 <= m)%nat -> (m <= 2 * ((m + 1) / 2) <= m + 1)%nat.
Proof. intros H. pose proof (Nat.div_mod_eq (m + 1) 2). pose proof (Nat.mod_upper_bound (m + 1) 2). lia. Qed.

(** The products that need no recursion. *)
Lemma base_cases a b c k :
  natural a -> natural b ->
  (len a <> O -> len b <> O -> rdx a = O -> rdx b = O -> (32 <= len a)%nat -> (32 <= len b)%nat -> ends err (product a b c) k) ->
  ends err (product a b c)
    (if (len a =? 0)%nat || (len b =? 0)%nat then Ok (bc_num_zero c) else
     let aone := BC_NUM_ONE a in
     if aone || BC_NUM_ONE b then bc_num_copy garbage c (if aone then b else a) else
     if (len a <? BC_NUM_KARATSUBA_LEN)%nat || (len b <? BC_NUM_KARATSUBA_LEN)%nat then schoolbook garbage G_interrupt a b c else k).
Proof.
  intros Ha Hb Hk.
  destruct (Nat.eqb_spec (len a) 0) as [Ea|Na].
  { apply ends_ok, integer_product; [split; [apply ok_setToZero|split; reflexivity]|]. rewrite (mant_zero a Ea). reflexivity. }
  destruct (Nat.eqb_spec (len b) 0) as [Eb|Nb]; cbn [orb].
  { apply ends_ok, integer_product; [split; [apply ok_setToZero|split; reflexivity]|]. rewrite (mant_zero b Eb), Z.mul_0_r. reflexivity. }
  pose proof Ha as (Oa & Za & Sa). pose proof Hb as (Ob & Zb & Sb).
  destruct Za as [Za|Za]; [contradiction|]. destruct Zb as [Zb|Zb]; [contradiction|].
  assert (Hcopy : forall n, ok n -> rdx n = O -> neg n = false -> mant n = mant a * mant b ->
     ends err (product a b c) (bc_num_copy garbage c n)).
  { intros n Hn Rn Sn En. eapply ends_impl; [apply copy_spec, Hn|]. intros r [Hr _].
    apply integer_product; [|rewrite (same_mant _ _ Hr); exact En].
    split; [eapply same_ok; eauto|]. destruct Hr as (_ & _ & -> & _ & ->). auto. }
  destruct (BC_NUM_ONE a) eqn:Aone; cbn [orb].
  { destruct (ONE_spec a Oa Aone) as (E1 & _). apply Hcopy; auto. rewrite E1. ring. }
  destruct (BC_NUM_ONE b) eqn:Bone.
  { destruct (ONE_spec b Ob Bone) as (E1 & _). apply Hcopy; auto. rewrite E1. ring. }
  destruct ((len a <? BC_NUM_KARATSUBA_LEN)%nat || (len b <? BC_NUM_KARATSUBA_LEN)%nat) eqn:Short.
  { destruct (ok_nonzero a Oa Na) as (_ & Ma & _). destruct (ok_nonzero b Ob Nb) as (_ & Mb & _).
    eapply ends_impl; [apply schoolbook_spec; auto|]. intros r (Hr & Em & Hp & Er & En).
    split; [exact Hr|]. split; [exact Em|]. split; [auto|].
    intros. apply integer_of; auto; [rewrite Em; nia|congruence|congruence]. }
  apply orb_false_iff in Short as [La Lb]. apply Nat.ltb_ge in La, Lb. unfold BC_NUM_KARATSUBA_LEN in La, Lb. auto.
Qed.

Lemma k_spec fuel a b c :
  natural a -> natural b -> (Nat.max (len a) (len b) < fuel)%nat ->
  Z.of_nat (2 * Nat.max (len a) (len b) + 4) <= BC_MAX_NUM ->
  ends err (product a b c) (zbc_num_k garbage G_interrupt fuel a b c).
Proof.
  revert a b c; induction fuel as [|fuel IH]; intros a b c Ha Hb Hf Hs; [lia|]. cbn [zbc_num_k].
  apply base_cases; [exact Ha|exact Hb|]. intros Na Nb Za Zb La Lb.
  pose proof Ha as (Oa & _ & Sa). pose proof Hb as (Ob & _ & Sb).
  set (mx := Nat.max (len a) (len b)) in *. pose proof (half_bound mx ltac:(lia)) as Hm. set (m := ((mx + 1) / 2)%nat) in *.
  eapply ends_bind; [apply split_spec; try apply Oa; auto; try (etransitivity; [|apply cap_init]; lia)|].
  intros [l1 h1] (Ol1 & Oh1 & E1 & Rl1 & Rh1 & Nl1 & Nh1 & Ll1 & Lh1).
  eapply ends_bind; [apply split_spec; try apply Ob; auto; try (etransitivity; [|apply cap_init]; lia)|].
  intros [l2 h2] (Ol2 & Oh2 & E2 & Rl2 & Rh2 & Nl2 & Nh2 & Ll2 & Lh2).
  assert (Il1 : integer l1) by (unfold integer; auto). assert (Ih1 : integer h1) by (unfold integer; auto).
  assert (Il2 : integer l2) by (unfold integer; auto). assert (Ih2 : integer h2) by (unfold integer; auto).
  assert (B : forall n, integer n -> (len n <= m)%nat -> 0 <= mant n < p10 m).
  { intros n (On & _) Hl. pose proof (mant_bounds n (proj1 On)). pose proof (p10_le _ _ Hl). lia. }
  pose proof (B l1 Il1 ltac:(lia)) as B1. pose proof (B h1 Ih1 ltac:(lia)) as B2.
  pose proof (B l2 Il2 ltac:(lia)) as B3. pose proof (B h2 Ih2 ltac:(lia)) as B4.
  assert (S0 : forall n, integer n -> (len n <= m)%nat -> sized n) by (intros n (_ & R & _) L; apply sized_small; [lia|exact R]).
  eapply ends_bind; [apply add_spec; auto; apply S0; auto; lia|].
  intros m1 H. apply sums_integer in H as [Im1 Em1]; [|assumption|assumption|lia].
  eapply ends_bind; [apply add_spec; auto; apply S0; auto; lia|].
  intros m2 H. apply sums_integer in H as [Im2 Em2]; [|assumption|assumption|lia].
  assert (Lm1 : (len m1 <= S m)%nat) by (apply natural_len; [apply integer_natural; auto|rewrite p10_S; lia]).
  assert (Lm2 : (len m2 <= S m)%nat) by (apply natural_len; [apply integer_natural; auto|rewrite p10_S; lia]).
  eapply ends_bind; [apply IH; try apply integer_natural; auto; lia|]. intros z0 (_ & V0 & _ & I0). specialize (I0 eq_refl eq_refl).
  eapply ends_bind; [apply IH; try apply integer_natural; auto; lia|]. intros z1 (_ & V1 & _ & I1). specialize (I1 eq_refl eq_refl).
  eapply ends_bind; [apply IH; try apply integer_natural; auto; lia|]. intros z2 (_ & V2 & _ & I2). specialize (I2 eq_refl eq_refl).
  eapply ends_impl; [apply (combine_spec h1 l1 h2 l2); auto; [rewrite V1, Em1, Em2; reflexivity|lia]|].
  intros r [Ir Er]. apply integer_product; [exact Ir|]. rewrite Er, E1, E2. reflexivity.
Qed.
End Karatsuba.

(** ** Multiplication at a scale *)

Definition mul_scale (a b : BcNum) (scale : nat) : nat :=
  Nat.min (rdx a + rdx b) (Nat.max (Nat.max scale (rdx a)) (rdx b)).

(** The digits of the product fit the longest number bc allows. *)
Definition mul_fits (a b : BcNum) (s : nat) : Prop := Z.of_nat (2 * (Nat.max (len a) (len b) + s) + 4) <= BC_MAX_NUM.

Lemma ok_abs n : ok n -> ok (set_neg n false).
Proof. intros [Hr [[E _]|Hs]]; (split; [exact Hr|]); [left|right]; auto. Qed.

(** Room for the fraction digits of a product. *)
Lemma pad_spec (garbage : nat -> Z) (err : BcStatus -> Prop) c n :
  raw c ->
  ends err (fun r => raw r /\ mant r = mant c /\ (n <= len r)%nat /\ (len r <= len c + n)%nat)
    (let c := bc_num_expand garbage c (len c + n) in
     if (len c <? n)%nat then
       let! l := store (num c) (len c) (repeat 0 (cap c - len c)) in
       Ok (set_len (set_num c l) (len c + n))
     else Ok c).
Proof.
  intros Hc. destruct (expand_same garbage c (len c + n) Hc) as [Hs Hcap].
  pose proof (same_mant _ _ Hs) as Em. destruct Hs as (Hr & Ed & _ & El & _). set (d := bc_num_expand _ _ _) in *. cbv zeta.
  destruct (Nat.ltb_spec (len d) n).
  - unfold cap in Hcap. apply ends_store; [rewrite repeat_length; destruct Hr as [H1 _]; unfold cap in *; lia|]. apply ends_ok.
    set (r := set_len _ _).
    assert (E : digs r = digs d ++ repeat 0 n).
    { unfold digs at 1, r; cbn [set_len set_num num len]. unfold blit. destruct Hr as [H1 _]. unfold cap in *.
      rewrite repeat_length, skipn_all2, app_nil_r by lia. fold (digs d). rewrite firstn_app.
      assert (Ld : length (digs d) = len d) by (unfold digs; rewrite length_firstn; lia).
      rewrite firstn_all2 by lia. rewrite Ld. f_equal. replace (len d + n - len d)%nat with n by lia.
      replace (length (num d) - len d)%nat with (n + (length (num d) - len d - n))%nat by lia.
      rewrite repeat_app, firstn_app, repeat_length, Nat.sub_diag, firstn_O, app_nil_r.
      rewrite firstn_all2 by (rewrite repeat_length; lia). reflexivity. }
    assert (Emr : mant r = mant c) by (rewrite <- Em; unfold mant; rewrite E, dval_app, dval_zeros; ring).
    unfold raw. rewrite E, Emr. destruct Hr as [H1 H2]. unfold cap, r in *; cbn [set_len set_num num len].
    repeat split; try lia; [|apply Forall_app; split; [exact H2|apply digits_zeros]].
    rewrite length_blit; rewrite ?repeat_length; unfold cap; lia.
  - apply ends_ok. repeat split; try apply Hr; auto; lia.
Qed.

Lemma rescale_product v ra rb s :
  (s <= ra + rb)%nat -> (ra <= s)%nat -> (rb <= s)%nat ->
  rescale (v * p10 (s + s - (ra + rb))) (s + s) s = rescale v (ra + rb) s.
Proof.
  intros H1 H2 H3. rewrite !rescale_truncate by lia.
  replace (s + s - s)%nat with (ra + rb - s + (s + s - (ra + rb)))%nat by lia. rewrite p10_add.
  apply Z.div_mul_cancel_r; pose proof (p10_pos (ra + rb - s)); pose proof (p10_pos (s + s - (ra + rb))); lia.
Qed.

Lemma m_spec garbage G_interrupt a b c scale :
  let s := mul_scale a b scale in
  ok a -> ok b -> mul_fits a b s ->
  ends (interrupted G_interrupt) (fun r => cut r (rescale (mant a * mant b) (rdx a + rdx b) s) s (xorb (neg a) (neg b)))
    (zbc_num_m garbage G_interrupt a b c scale).
Proof.
  intros s Ha Hb Hfit. unfold zbc_num_m. fold (mul_scale a b scale). fold s. unfold mul_fits in Hfit.
  assert (Hs : (rdx a <= s /\ rdx b <= s /\ s <= rdx a + rdx b)%nat) by (unfold s, mul_scale; lia).
  replace (Nat.max (Nat.max (rdx a) (rdx b)) s) with s by lia.
  eapply ends_bind; [apply init_and_copy_spec, Ha|]. intros ca Hca.
  eapply ends_bind; [apply init_and_copy_spec, Hb|]. intros cb Hcb.
  pose proof (same_ok _ _ Hca Ha) as Oa. pose proof (same_ok _ _ Hcb Hb) as Ob.
  pose proof (same_mant _ _ Hca) as Ma. pose proof (same_mant _ _ Hcb) as Mb.
  destruct Hca as (_ & _ & Ra & La & _), Hcb as (_ & _ & Rb & Lb & _).
  eapply ends_bind; [apply shift_spec; [apply ok_abs, Oa|cbn [set_neg rdx]; lia|cbn [set_neg len]; lia]|].
  cbn [set_neg rdx len neg]. change (mant (set_neg ca false)) with (mant ca). intros xa (Oxa & Mxa & Rxa & Lxa & Nxa).
  eapply ends_bind; [apply shift_spec; [apply ok_abs, Ob|cbn [set_neg rdx]; lia|cbn [set_neg len]; lia]|].
  cbn [set_neg rdx len neg]. change (mant (set_neg cb false)) with (mant cb). intros xb (Oxb & Mxb & Rxb & Lxb & Nxb).
  assert (Hxa : natural xa) by (repeat split; try apply Oxa; auto; destruct Rxa as [|[E ->]]; cbn; auto).
  assert (Hxb : natural xb) by (repeat split; try apply Oxb; auto; destruct Rxb as [|[E ->]]; cbn; auto).
  eapply ends_bind; [apply k_spec; auto; unfold k_fuel; lia|]. intros p (Rp & Mp & _).
  eapply ends_bind; [apply pad_spec, Rp|]. intros q (Rq & Mq & Lq & _).
  eapply ends_impl; [apply retireMul_spec; [exact Rq|right; exact Lq]|]. intros r [Hr _]. cbn [set_rdx rdx] in Hr.
  change (mant (set_rdx q (s + s))) with (mant q) in Hr. rewrite Mq, Mp, Mxa, Mxb, Ma, Mb, Ra, Rb in Hr.
  replace (mant a * p10 (s - rdx a) * (mant b * p10 (s - rdx b))) with (mant a * mant b * p10 (s + s - (rdx a + rdx b))) in Hr
    by (replace (s + s - (rdx a + rdx b))%nat with (s - rdx a + (s - rdx b))%nat by lia; rewrite p10_add; ring).
  rewrite rescale_product in Hr by lia. exact Hr.
Qed.

Lemma mul_spec garbage G_interrupt alias a b c scale :
  let s := mul_scale a b scale in
  ok a -> ok b -> mul_fits a b s ->
  ends (interrupted G_interrupt) (fun r => cut r (rescale (mant a * mant b) (rdx a + rdx b) s) s (xorb (neg a) (neg b)))
    (zbc_num_mul garbage G_interrupt alias a b c scale).
Proof. apply m_spec. Qed.

(** The signed value of a result that was cut off. *)
Lemma cut_sval c v d s b :
  cut c (v / d) s b -> 0 <= v -> 0 < d -> sval c = Z.quot (if b then - v else v) d.
Proof.
  intros (_ & Em & _ & En) Hv Hd. unfold sval. rewrite Em.
  destruct (Z.eq_dec (v / d) 0) as [E|E].
  - rewrite E. destruct b; rewrite ?Z.quot_opp_l, Z.quot_div_nonneg, E by lia; destruct (neg c); reflexivity.
  - rewrite (En E). destruct b; rewrite ?Z.quot_opp_l, Z.quot_div_nonneg by lia; reflexivity.
Qed.

Lemma sval_mul a b : sval a * sval b = if xorb (neg a) (neg b) then - (mant a * mant b) else mant a * mant b.
Proof. unfold sval. destruct (neg a), (neg b); cbn [xorb]; ring. Qed.

(** C26. Multiplication of bc numbers is the product of the values, cut off
    at the scale POSIX asks for. For well-formed operands whose product is not
    too long, whatever memory the result is written to, [zbc_num_mul] ends
    inside its buffers, unless a ^C stops it, with a well-formed number of
    [min(a.rdx + b.rdx, max(scale, a.rdx, b.rdx))] fraction digits, which is
    the exact product cut off towards zero. Long operands are multiplied with
    Karatsuba's recursion, which ends and agrees with the schoolbook
    product. *)
Theorem bc_mul_correct (garbage : nat -> Z) (G_interrupt : nat -> bool) (alias : bool) (a b c : BcNum) (scale : nat) :
  let s := Nat.min (rdx a + rdx b) (Nat.max (Nat.max scale (rdx a)) (rdx b)) in
  ok a -> ok b -> Z.of_nat (2 * (Nat.max (len a) (len b) + s) + 4) <= BC_MAX_NUM ->
  ends (fun e => e = BC_STATUS_FAILURE /\ exists i, G_interrupt i = true)
    (fun r => ok r /\ rdx r = s /\ sval r = Z.quot (sval a * sval b) (p10 (rdx a + rdx b - s)))
    (zbc_num_mul garbage G_interrupt alias a b c scale).
Proof.
  intros s Ha Hb Hf. eapply ends_impl; [apply (mul_spec garbage G_interrupt alias a b c scale Ha Hb Hf)|].
  intros r Hr. fold (mul_scale a b scale) in s. fold s in Hr. pose proof Hr as (Ho & _ & Er & _). repeat split; try apply Ho; auto.
  rewrite sval_mul. apply cut_sval with s; [|pose proof (mant_bounds a (proj1 Ha)); pose proof (mant_bounds b (proj1 Hb)); nia|apply p10_pos].
  rewrite rescale_truncate in Hr by (unfold s, mul_scale; lia). exact Hr.
Qed.

(** -(10^40 - 1), long enough for the recursion. *)
Definition nines : BcNum := mkNum (repeat 9 40) 0 40 true.

Lemma nines_ok : ok nines.
Proof. apply okb_ok. vm_compute. reflexivity. Qed.

Lemma bc_mul_correct_witness :
  ends (fun e => e = BC_STATUS_FAILURE /\ exists i : nat, false = true)
    (fun r => ok r /\ rdx r = 0%nat /\ sval r = (10 ^ 40 - 1) ^ 2)
    (zbc_num_mul (fun _ => 7) (fun _ => false) true nines nines nines 0).
Proof.
  eapply ends_impl; [apply (bc_mul_correct (fun _ => 7) (fun _ => false) true nines nines nines 0 nines_ok nines_ok)|].
  - vm_compute. discriminate.
  - intros r (H1 & H2 & H3). split; [exact H1|]. split; [exact H2|]. rewrite H3. reflexivity.
Defined.
End BcM.
