(* ===== verification/BcDiv.v ===== *)
(** * Division and remainder of bc numbers

    The long division of [zbc_num_d] (miscutils/bc.c) subtracts the divisor
    from a window of the dividend that moves down one digit at a time. The
    quotient is exact up to the scale, and the remainder is the one that
    belongs to it. *)

From Stdlib Require Import ZArith List Lia Bool QArith.
From S2P Require Import Prelude Words Mem BcNum BcDigits BcAdd BcMul.
Import ListNotations.
Local Open Scope Z_scope.
Local Open Scope res_scope.
Import Bc BcD BcA BcM.

Module BcV.

Section Digits.
Context (err : BcStatus -> Prop).

Lemma slice_mid {A} (pre mid post : list A) n : (n <= length mid)%nat -> slice (length pre) n (pre ++ mid ++ post) = firstn n mid.
Proof.
  intros H. unfold slice. rewrite skipn_app, Nat.sub_diag, skipn_all. cbn [app skipn].
  rewrite firstn_app. replace (n - length mid)%nat with O by lia. apply app_nil_r.
Qed.

(** The window holds the divisor at least once exactly when the test says so. *)
Lemma again_spec pre mid post b n :
  length mid = S n -> digits mid -> (n <= length b)%nat -> digits (firstn n b) ->
  ends err (fun again : bool => again = (dval (firstn n b) <=? dval mid))
    (let! top := load1 (pre ++ mid ++ post) (length pre + n) in
     if negb (top =? 0) then Ok true
     else let! cmp := bc_num_compare (pre ++ mid ++ post) (length pre) b 0 n in Ok (0 <=? cmp)).
Proof.
  intros Hl Hd Hb Db. pose proof (dval_firstn_S mid n ltac:(lia)) as E. rewrite <- Hl, firstn_all in E.
  pose proof (digits_nth mid n Hd) as Ht. pose proof (Forall_firstn _ n _ Hd) as Df. fold (digits (firstn n mid)) in Df.
  pose proof (dval_bounds _ Df) as Bf. rewrite length_firstn, Nat.min_l in Bf by lia.
  pose proof (dval_bounds _ Db) as Bb. rewrite length_firstn, Nat.min_l in Bb by lia. red in Ht.
  apply (ends_load1 _ _ _ _ 0); [autorewrite with len; lia|]. rewrite nth_mid by lia.
  destruct (Z.eqb_spec (nth n mid 0) 0) as [E0|E0]; cbn [negb].
  - rewrite E0, Z.mul_0_r, Z.add_0_r in E. eapply ends_bind.
    + apply compare_spec; [autorewrite with len; lia|cbn; lia|rewrite slice_mid by lia; exact Df|exact Db].
    + rewrite slice_mid, E by lia. change (slice 0 n b) with (firstn n b). intros c Hc. apply ends_ok.
      destruct (Z.lt_trichotomy (dval (firstn n mid)) (dval (firstn n b))) as [L|[L|L]].
      * rewrite (Z.sgn_neg (_ - _)) in Hc by lia. apply (proj1 (Z.sgn_neg_iff _)) in Hc.
        rewrite (proj2 (Z.leb_gt _ _)), (proj2 (Z.leb_gt _ _)) by lia. reflexivity.
      * rewrite L, Z.sub_diag in Hc. apply (proj1 (Z.sgn_null_iff _)) in Hc. rewrite Hc, L, !Z.leb_refl. reflexivity.
      * rewrite (Z.sgn_pos (_ - _)) in Hc by lia. apply (proj1 (Z.sgn_pos_iff _)) in Hc.
        rewrite (proj2 (Z.leb_le _ _)), (proj2 (Z.leb_le _ _)) by lia. reflexivity.
  - apply ends_ok. symmetry. apply Z.leb_le. nia.
Qed.

Lemma quotient_digit_spec pre post b n fuel mid q k :
  length mid = S n -> digits mid -> (n <= length b)%nat -> digits (firstn n b) -> 0 < dval (firstn n b) ->
  dval mid < k * dval (firstn n b) -> k < Z.of_nat fuel -> 0 <= q -> q + k <= 127 ->
  ends err (fun s => exists mid', fst s = pre ++ mid' ++ post /\ length mid' = S n /\ digits mid' /\
      dval mid' < dval (firstn n b) /\ dval mid = dval mid' + (snd s - q) * dval (firstn n b))
    (quotient_digit fuel (pre ++ mid ++ post) (length pre) b n q).
Proof.
  revert mid q k; induction fuel as [|fuel IH]; intros mid q k Hl Hd Hb Db Hpos Hk Hf Hq Hqk.
  { pose proof (dval_bounds _ Hd). nia. }
  cbn [quotient_digit]. pose proof (again_spec pre mid post b n Hl Hd Hb Db) as Ha.
  destruct (load1 (pre ++ mid ++ post) (length pre + n)) as [top|e| |]; cbn [rbind] in *; try contradiction; [|exact Ha].
  eapply ends_bind; [exact Ha|]. intros again ->. destruct (Z.leb_spec (dval (firstn n b)) (dval mid)) as [Hge|Hlt].
  - eapply ends_bind; [apply sub_spec; auto; lia|]. intros l (m1 & -> & L1 & D1 & V1).
    rewrite s8_exact by nia.
    eapply ends_impl; [apply (IH m1 (q + 1) (k - 1)); auto; try lia; nia|].
    intros [l' q'] (m2 & E2 & L2 & D2 & V2 & W2). cbn [fst snd] in *. exists m2. repeat split; auto. lia.
  - apply ends_ok. exists mid. cbn [fst snd]. repeat split; auto. ring.
Qed.

Lemma divisor_len_spec b :
  ok b -> len b <> O ->
  ends err (fun n => (1 <= n <= len b)%nat /\ dval (firstn n (num b)) = mant b /\ p10 (n - 1) <= mant b /\ digits (firstn n (num b)))
    (divisor_len b).
Proof.
  intros Hb Nb. destruct (ok_nonzero b Hb Nb) as (Hr & Hm & Hp). destruct (proj1 Hb) as [Hc Hd]. unfold divisor_len.
  destruct (Nat.eqb_spec (rdx b) (len b)) as [E|E].
  - eapply ends_bind; [apply strip_zeros_spec; [exact Hc|exact Hd]|]. intros k (Hk & Ek & _ & Hpk). apply ends_ok.
    change (dval (firstn (len b) (num b))) with (mant b) in *.
    assert (k <> O) by (intros ->; cbn [firstn dval] in Ek; lia). rewrite Nat.max_l by lia.
    split; [lia|]. split; [exact Ek|]. split; [apply Hpk; lia|].
    replace k with (Nat.min k (len b)) by lia. rewrite <- firstn_firstn. apply Forall_firstn, Hd.
  - apply ends_ok. repeat split; auto; try lia; apply Hp; lia.
Qed.
End Digits.

(** ** Long division *)

Lemma slice_S {A} i n' (l : list A) d : (i < length l)%nat -> slice i (S n') l = nth i l d :: slice (S i) n' l.
Proof.
  intros H. change (S n') with (1 + n')%nat. rewrite <- (slice_app l i 1 n'), Nat.add_1_r.
  unfold slice at 1. rewrite (firstn_S_nth _ 0 d) by (rewrite length_skipn; lia). cbn [firstn app].
  rewrite nth_skipn, Nat.add_0_r. reflexivity.
Qed.

Lemma slice_upd_above {A} i n' p v (l : list A) : (p < i)%nat -> slice i n' (upd l p v) = slice i n' l.
Proof. intros H. unfold slice. rewrite skipn_upd by exact H. reflexivity. Qed.

Section Loop.
Context (G_interrupt : nat -> bool) (b : list Z) (n : nat).
Context (Hn : (1 <= n)%nat) (Hb : (n <= length b)%nat) (Db : digits (firstn n b)) (Pb : p10 (n - 1) <= dval (firstn n b)).
Let B := dval (firstn n b).

(** After the quotient digits from [i] up: the remainder is at [i]. *)
Definition divided (l0 lc0 : list Z) (end_ i : nat) (s : list Z * list Z) : Prop :=
  let (l, lc) := s in
  length l = length l0 /\ firstn i l = firstn i l0 /\ digits (slice i n l) /\ dval (slice i n l) < B /\
  length lc = length lc0 /\ skipn end_ lc = skipn end_ lc0 /\ digits (slice i (end_ - i) lc) /\
  dval (slice i (end_ - i) lc) * B + dval (slice i n l) = dval (slice i (end_ + n - i) l0).

Lemma divide_loop l0 lc0 end_ :
  (end_ + n <= length l0)%nat -> (end_ <= length lc0)%nat -> digits (firstn (end_ + n) l0) -> dval (slice end_ n l0) < B ->
  ends (interrupted G_interrupt) (divided l0 lc0 end_ 0)
    (for_down end_ (fun i (s : list Z * list Z) =>
      let (l, lc) := s in
      let! (l, q) := quotient_digit 256 l i b n 0 in
      let! lc := store1 lc i q in
      if G_interrupt i then Die BC_STATUS_FAILURE else Ok (l, lc)) (l0, lc0)).
Proof.
  intros Hl Hlc Dl Hr. apply for_down_inv.
  - intros i [l lc] Hi (El & Ef & Dr & Br & Elc & Es & Dq & Ev).
    assert (Di : digit (nth i l0 0)).
    { pose proof (digits_nth _ i Dl) as H. rewrite nth_firstn in H. destruct (Nat.ltb_spec i (end_ + n)); [exact H|lia]. }
    assert (Eni : nth i l 0 = nth i l0 0).
    { pose proof (f_equal (fun x => nth i x 0) Ef) as H. cbn beta in H. rewrite !nth_firstn in H.
      destruct (Nat.ltb_spec i (S i)); [exact H|lia]. }
    assert (El' : l = firstn i l ++ slice i (S n) l ++ skipn (i + S n) l).
    { unfold slice. rewrite <- (firstn_skipn i l) at 1. f_equal. rewrite <- (firstn_skipn (S n) (skipn i l)) at 1. f_equal.
      rewrite skipn_skipn. f_equal. lia. }
    assert (Lp : length (firstn i l) = i) by (rewrite length_firstn; lia).
    pose proof (slice_S i n l 0 ltac:(lia)) as Em. rewrite Eni in Em.
    set (mid := slice i (S n) l) in *. assert (Lm : length mid = S n) by (unfold mid; rewrite length_slice; lia).
    assert (Dm : digits mid) by (rewrite Em; constructor; assumption).
    assert (Vm : dval mid = nth i l0 0 + 10 * dval (slice (S i) n l)) by (rewrite Em; reflexivity).
    red in Di. pose proof (dval_bounds _ Dr).
    pose proof (quotient_digit_spec (interrupted G_interrupt) (firstn i l) (skipn (i + S n) l) b n 256 mid 0 10 Lm Dm Hb Db
      ltac:(fold B; lia) ltac:(fold B; lia) ltac:(lia) ltac:(lia) ltac:(lia)) as Hq.
    rewrite <- El', Lp in Hq. fold B in Hq.
    eapply ends_bind; [exact Hq|]. intros [l1 q] (m1 & E1 & L1 & D1 & B1 & V1). cbn [fst snd] in *. subst l1. rewrite Z.sub_0_r in V1.
    apply ends_store1; [lia|]. destruct (G_interrupt i) eqn:G; [cbn; split; eauto|]. apply ends_ok.
    pose proof (dval_bounds _ D1) as Bm1.
    assert (Hq9 : digit q) by (red; unfold digit in *; nia).
    assert (Et : slice i n (firstn i l ++ m1 ++ skipn (i + S n) l) = firstn n m1) by (rewrite <- Lp at 1; apply slice_mid; lia).
    assert (Ev1 : dval (firstn n m1) = dval m1).
    { pose proof (dval_firstn_S m1 n ltac:(lia)) as E. rewrite <- L1, firstn_all in E.
      pose proof (dval_bounds _ Db) as Bb. rewrite length_firstn, Nat.min_l in Bb by lia. fold B in Bb.
      pose proof (digits_nth m1 n D1) as Hd. red in Hd.
      pose proof (dval_bounds (firstn n m1) (Forall_firstn _ _ _ D1)).
      assert (nth n m1 0 = 0) by nia. nia. }
    assert (Eq : slice i (end_ - i) (upd lc i q) = q :: slice (S i) (end_ - S i) lc).
    { replace (end_ - i)%nat with (S (end_ - S i)) by lia. rewrite (slice_S i _ _ 0) by (rewrite length_upd; lia).
      rewrite nth_upd_eq, slice_upd_above by lia. reflexivity. }
    assert (E0 : dval (slice i (end_ + n - i) l0) = nth i l0 0 + 10 * dval (slice (S i) (end_ + n - S i) l0)).
    { replace (end_ + n - i)%nat with (S (end_ + n - S i)) by lia. rewrite (slice_S i _ _ 0) by lia. reflexivity. }
    unfold divided. rewrite Et, Ev1, Eq, E0, !length_app, length_upd, length_skipn, Lp, L1. cbn [dval].
    repeat split; auto; try lia.
    + rewrite firstn_app, Lp, Nat.sub_diag, app_nil_r, firstn_all2 by lia.
      apply (f_equal (firstn i)) in Ef. rewrite !firstn_firstn, Nat.min_l in Ef by lia. exact Ef.
    + apply Forall_firstn, D1.
    + rewrite skipn_upd by lia. exact Es.
    + constructor; assumption.
  - unfold divided. rewrite Nat.sub_diag. replace (end_ + n - end_)%nat with n by lia. cbn [slice firstn dval].
    repeat split; auto; [|constructor].
    change (slice end_ n l0) with (slice (0 + end_) n l0). eapply digits_slice_sub; [exact Dl|lia].
Qed.
End Loop.

Section Division.
Context (garbage : nat -> Z) (G_interrupt : nat -> bool).
Let err := interrupted G_interrupt.

(** [c] is [a] with [e] more zeros after the point. *)
Definition extended (a : BcNum) (e : nat) (c : BcNum) : Prop :=
  raw c /\ mant c = mant a * p10 e /\ len c = (len a + e)%nat /\ rdx c = (rdx a + e)%nat.

Lemma extended_extend a e c p : extended a e c -> ends err (extended a (e + p)) (bc_num_extend garbage c p).
Proof.
  intros (R & M & L & X). eapply ends_impl; [apply extend_spec, R|]. intros d (R' & D & X' & L' & _). apply extend_mant in D.
  repeat split; try apply R'; [rewrite D, M, p10_add; ring|lia|lia].
Qed.

Lemma extended_expand a e c req : extended a e c -> extended a e (bc_num_expand garbage c req).
Proof.
  intros (R & M & L & X). destruct (expand_same garbage c req R) as [H _]. pose proof (same_mant _ _ H) as E.
  destruct H as (R' & _ & X' & L' & _). repeat split; try apply R'; congruence.
Qed.

(** The dividend made long enough for the divisor and for the scale. *)
Lemma dividend_spec a b scale :
  ok a -> ok b -> len a <> O ->
  ends err (fun cp => exists e, raw cp /\ mant cp = mant a * p10 e /\ len cp = (len a + e)%nat /\
      (rdx cp + rdx b = rdx a + e)%nat /\ (len b <= len cp)%nat /\ (scale <= rdx cp)%nat)
    (dividend garbage a b scale).
Proof.
  intros Ha Hb Na. unfold dividend. eapply ends_bind; [apply copy_spec, Ha|]. intros c0 [H _]. pose proof (same_mant _ _ H) as E0.
  destruct H as (R0 & _ & X0 & L0 & _).
  assert (H0 : extended a 0 c0) by (unfold extended; change (p10 0) with 1; repeat split; try apply R0; lia).
  eapply (ends_bind _ (extended a (len b - len a))).
  { rewrite L0. destruct (Nat.ltb_spec (len a) (len b)).
    - apply (extended_extend a 0). apply extended_expand, H0.
    - apply ends_ok. replace (len b - len a)%nat with O by lia. exact H0. }
  intros c1 H1. set (e1 := (len b - len a)%nat) in *.
  eapply (ends_bind _ (extended a (e1 + (rdx b - (rdx a + e1))))).
  { pose proof H1 as (_ & _ & _ & X1). rewrite X1. destruct (Nat.ltb_spec (rdx a + e1) (rdx b)); [apply extended_extend, H1|].
    apply ends_ok. replace (rdx b - (rdx a + e1))%nat with O by lia. rewrite Nat.add_0_r. exact H1. }
  intros c2 (R2 & M2 & L2 & X2). set (e2 := (e1 + _)%nat) in *. cbn [set_rdx rdx].
  destruct (Nat.ltb_spec (rdx c2 - rdx b) scale).
  - eapply ends_impl; [apply extend_spec; exact R2|]. intros c3 (R3 & D3 & X3 & L3 & _). apply extend_mant in D3.
    cbn [set_rdx rdx len] in *. change (mant (set_rdx c2 (rdx c2 - rdx b))) with (mant c2) in D3.
    exists (e2 + (scale - (rdx c2 - rdx b)))%nat. rewrite D3, M2, p10_add. repeat split; try apply R3; try lia.
  - apply ends_ok. exists e2. cbn [set_rdx rdx len]. change (mant (set_rdx c2 (rdx c2 - rdx b))) with (mant c2).
    repeat split; try apply R2; auto; lia.
Qed.

Lemma dval_firstn_zeros l k m : skipn k l = repeat 0 (length l - k) -> (k <= m <= length l)%nat -> dval (firstn m l) = dval (firstn k l).
Proof.
  intros E H. rewrite (dval_split k (firstn m l)), firstn_firstn, Nat.min_l by lia.
  rewrite skipn_firstn_comm, E. replace (length l - k)%nat with (m - k + (length l - m))%nat by lia.
  rewrite repeat_app, firstn_app, repeat_length, Nat.sub_diag, firstn_O, app_nil_r.
  rewrite (firstn_all2 (repeat 0 (m - k))), dval_zeros by (rewrite repeat_length; lia). ring.
Qed.

(** The quotient of two digit arrays. *)
Lemma long_division_spec cp b c n :
  raw cp -> ok b -> (1 <= n <= len b)%nat -> (n <= len cp)%nat -> dval (firstn n (num b)) = mant b -> p10 (n - 1) <= mant b ->
  digits (firstn n (num b)) ->
  ends err (fun r => raw r /\ mant r = mant cp / mant b /\ rdx r = rdx cp /\ len r = S (len cp))
    (long_division garbage G_interrupt cp b c n).
Proof.
  intros Hcp Hb Hn Hnc EB PB DB. unfold long_division. cbv zeta.
  set (cp1 := if (cap cp =? len cp)%nat then _ else cp).
  assert (H1 : same cp1 cp /\ (len cp < cap cp1)%nat).
  { unfold cp1. destruct (Nat.eqb_spec (cap cp) (len cp)).
    - destruct (expand_same garbage cp (len cp + 1) Hcp). split; [assumption|lia].
    - split; [apply same_refl, Hcp|]. destruct Hcp. lia. }
  destruct H1 as [(R1 & D1 & X1 & L1 & _) C1]. unfold cap in C1. rewrite L1.
  apply ends_store1; [exact C1|]. cbn [set_len set_num num len rdx].
  set (l0 := upd (num cp1) (len cp) 0). set (end_ := (S (len cp) - n)%nat).
  assert (F0 : firstn (S (len cp)) l0 = digs cp ++ [0]) by (unfold l0; rewrite firstn_upd by exact C1; rewrite <- D1; unfold digs; rewrite L1; reflexivity).
  destruct (expand_cap garbage c (S (len cp))) as [Cc _]. set (c1 := bc_num_expand garbage c (S (len cp))) in *.
  unfold cap in *. cbn [bc_num_zero bc_num_setToZero num].
  apply ends_store; [rewrite repeat_length; lia|]. set (lc0 := blit _ _ _).
  assert (Llc : length lc0 = length (num c1)) by (unfold lc0; apply length_blit; rewrite repeat_length; lia).
  assert (Zlc : skipn end_ lc0 = repeat 0 (length lc0 - end_)).
  { rewrite Llc. unfold lc0, blit. rewrite repeat_length, skipn_app, length_firstn, skipn_all2 by (rewrite length_firstn; lia).
    replace (end_ - Nat.min end_ (length (num c1)))%nat with O by lia. cbn [app skipn]. rewrite skipn_all2, app_nil_r by lia. reflexivity. }
  assert (Ll0 : length l0 = length (num cp1)) by apply length_upd.
  assert (Et : dval (slice end_ n l0) < mant b).
  { assert (E : slice end_ n l0 = skipn end_ (digs cp) ++ [0]).
    { transitivity (skipn end_ (digs cp ++ [0])).
      - unfold slice. rewrite <- F0, skipn_firstn_comm. f_equal. lia.
      - rewrite skipn_app, length_digs by exact Hcp. replace (end_ - len cp)%nat with O by lia. reflexivity. }
    rewrite E, dval_app. cbn [dval]. pose proof (dval_bounds (skipn end_ (digs cp)) (Forall_skipn _ _ _ (proj2 Hcp))) as Bs.
    rewrite length_skipn, length_digs in Bs by exact Hcp. replace (len cp - end_)%nat with (n - 1)%nat in Bs by lia. lia. }
  eapply ends_bind.
  { apply (divide_loop G_interrupt (num b) n) with (l0 := l0) (lc0 := lc0) (end_ := end_); try lia; auto.
    - destruct (proj1 Hb) as [Hcb _]. unfold cap in Hcb. lia.
    - replace (end_ + n)%nat with (S (len cp)) by lia. rewrite F0. apply Forall_app. split; [apply Hcp|]. repeat constructor; lia. }
  intros [l lc] (_ & _ & Dr & Br & Ll & Es & Dq & Ev). apply ends_ok. cbn [fst snd] in *.
  rewrite Nat.sub_0_r in *. replace (end_ + n)%nat with (S (len cp)) in Ev by lia. rewrite Nat.sub_0_r in Ev. change (slice 0 (S (len cp)) l0) with (firstn (S (len cp)) l0) in Ev.
  rewrite F0, dval_app in Ev. cbn [dval] in Ev. change (dval (digs cp)) with (mant cp) in Ev. rewrite EB in *.
  set (r := mkNum _ _ _ _). assert (Elc : skipn end_ lc = repeat 0 (length lc - end_)) by (rewrite Es, Ll; exact Zlc).
  assert (Mr : mant r = dval (firstn end_ lc)) by (unfold mant, digs, r; cbn [num len]; apply dval_firstn_zeros; [exact Elc|lia]).
  change (slice 0 end_ lc) with (firstn end_ lc) in *.
  repeat split; cbn [r rdx len]; try congruence; try (unfold cap; cbn [r num len]; lia).
  - unfold digs, r; cbn [num len]. rewrite <- (firstn_skipn end_ lc), Elc, firstn_app. apply Forall_app. split.
    + rewrite firstn_firstn, Nat.min_r by lia. exact Dq.
    + apply Forall_firstn, digits_zeros.
  - rewrite Mr. apply Z.div_unique_pos with (dval (slice 0 n l)); [|lia].
    pose proof (dval_bounds _ Dr). lia.
Qed.

(** The magnitude of the quotient. *)
Definition mquot (a b : BcNum) (scale : nat) : Z := mant a * p10 (scale + rdx b) / (mant b * p10 (rdx a)).

Lemma mquot_units a b e r scale :
  0 < mant b -> (r + rdx b = rdx a + e)%nat -> (scale <= r)%nat ->
  rescale (mant a * p10 e / mant b) r scale = mquot a b scale.
Proof.
  intros Hb Hr Hs. rewrite rescale_truncate by exact Hs. unfold mquot. set (x := (r - scale)%nat).
  pose proof (p10_pos x). pose proof (p10_pos (rdx a)).
  rewrite Z.div_div by lia. rewrite <- (Z.div_mul_cancel_r _ _ (p10 (rdx a))) by nia.
  replace (mant a * p10 e * p10 (rdx a)) with (mant a * p10 (scale + rdx b) * p10 x)
    by (rewrite <- !Z.mul_assoc, <- !p10_add; do 2 f_equal; lia).
  replace (mant b * p10 x * p10 (rdx a)) with (mant b * p10 (rdx a) * p10 x) by ring.
  apply Z.div_mul_cancel_r; nia.
Qed.

Lemma d_spec a b c scale :
  ok a -> ok b -> len b <> O ->
  ends err (fun r => cut r (mquot a b scale) scale (xorb (neg a) (neg b))) (zbc_num_d garbage G_interrupt a b c scale).
Proof.
  intros Ha Hb Nb. unfold zbc_num_d. destruct (Nat.eqb_spec (len b) 0) as [|_]; [contradiction|].
  destruct (ok_nonzero b Hb Nb) as (_ & Mb & _).
  destruct (Nat.eqb_spec (len a) 0) as [Ea|Na].
  { apply ends_ok. unfold mquot. rewrite (mant_zero a Ea), Z.div_0_l by (pose proof (p10_pos (rdx a)); nia).
    repeat split; try apply ok_setToZero. lia. }
  destruct (ok_nonzero a Ha Na) as (Ra & _).
  destruct (BC_NUM_ONE b) eqn:One.
  { destruct (ONE_spec b Hb One) as (E1 & E2 & _). eapply ends_bind; [apply copy_spec, Ha|]. intros d [Hd _].
    pose proof (same_mant _ _ Hd) as Ed. destruct Hd as (Rd & _ & Xd & Ld & _).
    eapply ends_impl; [apply retireMul_spec; [exact Rd|right; lia]|]. intros r [Hr _].
    rewrite Ed, Xd in Hr. unfold mquot. rewrite E1, E2, Nat.add_0_r, Z.mul_1_l. exact Hr. }
  eapply ends_bind; [apply dividend_spec; assumption|]. intros cp (e & Rcp & Mcp & Lcp & Xcp & Hlen & Hsc).
  eapply ends_bind; [apply divisor_len_spec; assumption|]. intros n (Hn & En & Pn & Dn).
  eapply ends_bind; [apply long_division_spec; auto; lia|]. intros q (Rq & Mq & Xq & Lq).
  eapply ends_impl; [apply retireMul_spec; [exact Rq|right; lia]|]. intros r [Hr _].
  rewrite Mq, Mcp, Xq, (mquot_units a b e) in Hr by assumption. exact Hr.
Qed.

Lemma ok_len n k : ok n -> mant n < p10 k -> (len n <= Nat.max (rdx n) k)%nat.
Proof.
  intros [_ [[-> _]|(H1 & H2 & H3)]] Hm; [lia|]. destruct (Nat.le_gt_cases (len n) (rdx n)); [lia|].
  specialize (H3 ltac:(assumption)). assert (Hlt : p10 (len n - 1) < p10 k) by lia. apply p10_lt_inv in Hlt. lia.
Qed.

(** The remainder can be computed without a number that is too long. *)
Definition rem_fits (a b : BcNum) (scale : nat) : Prop :=
  Z.of_nat (2 * (len a + len b + 2 * (scale + rdx b)) + 4) <= BC_MAX_NUM.

(** [d] is the remainder that belongs to the quotient at [scale]. *)
Definition remainder (a b : BcNum) (scale : nat) (d : BcNum) : Prop :=
  ok d /\ rdx d = Nat.max (scale + rdx b) (rdx a) /\
  sval d * p10 (rdx a + (scale + rdx b)) = Z.rem (sval a * p10 (scale + rdx b)) (sval b * p10 (rdx a)) * p10 (rdx d).

Lemma quot_sval a b scale c :
  ok a -> ok b -> 0 < mant b -> cut c (mquot a b scale) scale (xorb (neg a) (neg b)) ->
  sval c = Z.quot (sval a * p10 (scale + rdx b)) (sval b * p10 (rdx a)).
Proof.
  intros Ha Hb Mb Hc. pose proof (mant_bounds a (proj1 Ha)). pose proof (p10_pos (scale + rdx b)). pose proof (p10_pos (rdx a)).
  rewrite (cut_sval c (mant a * p10 (scale + rdx b)) (mant b * p10 (rdx a)) scale (xorb (neg a) (neg b)) Hc) by nia.
  unfold sval. destruct (neg a), (neg b); cbn [xorb]; rewrite ?Z.mul_opp_l, ?Z.quot_opp_l, ?Z.quot_opp_r, ?Z.opp_involutive by nia; reflexivity.
Qed.

Lemma cut_exact c v s b : cut c v s b -> sval c = if b then - v else v.
Proof.
  intros (_ & Em & _ & En). unfold sval. rewrite Em. destruct (Z.eq_dec v 0) as [->|E]; [|rewrite (En E); reflexivity].
  destruct (neg c), b; reflexivity.
Qed.

Lemma rescale_id v r : rescale v r r = v.
Proof. rewrite rescale_extend, Nat.sub_diag by lia. change (p10 0) with 1. ring. Qed.

(** The last steps: the remainder gets all its fraction digits and its own sign back. *)
Lemma finish_remainder d0 ts neg1 neg2 :
  ok d0 -> (rdx d0 <= ts)%nat ->
  ends err (fun d => ok d /\ rdx d = ts /\ sval d = sval d0 * p10 (ts - rdx d0))
    (let! d := (if (rdx d0 <? ts)%nat && negb (len d0 =? 0)%nat then bc_num_extend garbage d0 (ts - rdx d0) else Ok d0) in
     let neg_ := neg d in
     let! d := bc_num_retireMul garbage d ts neg1 neg2 in
     Ok (set_neg d neg_)).
Proof.
  intros H0 Hr. pose proof (p10_pos (ts - rdx d0)) as Hp.
  eapply (ends_bind _ (fun d1 => raw d1 /\ (len d1 = O \/ (rdx d1 <= len d1)%nat) /\ neg d1 = neg d0 /\
     rescale (mant d1) (rdx d1) ts = mant d0 * p10 (ts - rdx d0))).
  - destruct (Nat.eq_dec (len d0) 0) as [E|E].
    + rewrite E, andb_false_r. apply ends_ok. unfold rescale. rewrite (mant_zero d0 E), Z.mul_0_l, Z.div_0_l by (pose proof (p10_pos (rdx d0)); lia).
      repeat split; auto; apply H0.
    + destruct (ok_nonzero d0 H0 E) as (Hl & _). rewrite (proj2 (Nat.eqb_neq _ _) E), andb_true_r.
      destruct (Nat.ltb_spec (rdx d0) ts).
      * eapply ends_impl; [apply extend_spec, H0|]. intros d1 (R1 & D1 & X1 & L1 & N1). apply extend_mant in D1.
        replace (rdx d1) with ts by lia. rewrite rescale_id, D1. repeat split; try apply R1; auto; lia.
      * apply ends_ok. replace (rdx d0) with ts by lia. rewrite rescale_id, Nat.sub_diag. change (p10 0) with 1. rewrite Z.mul_1_r.
        repeat split; try apply H0; auto; lia.
  - intros d1 (R1 & L1 & N1 & E1). eapply ends_bind; [apply retireMul_spec; [exact R1|exact L1]|].
    intros d2 [(O2 & M2 & X2 & _) _]. apply ends_ok. rewrite E1 in M2. rewrite N1.
    assert (Hd : ok (set_neg d2 (neg d0))).
    { destruct O2 as [R2 S2]. split; [exact R2|]. destruct S2 as [[E2 _]|S2]; [left|right; exact S2].
      split; [exact E2|]. cbn [set_neg neg]. rewrite (mant_zero d2 E2) in M2. assert (E0 : mant d0 = 0) by nia.
      apply (ok_zero d0 H0) in E0. destruct H0 as [_ [[_ H]|(H & H' & _)]]; [exact H|]. rewrite (mant_zero d0 E0) in H'. lia. }
    split; [exact Hd|]. split; [exact X2|]. unfold sval at 1. cbn [set_neg neg].
    change (mant (set_neg d2 (neg d0))) with (mant d2). rewrite M2. unfold sval. destruct (neg d0); ring.
Qed.

Lemma r_spec a b c d scale :
  ok a -> ok b -> len b <> O -> rem_fits a b scale -> let ts := Nat.max (scale + rdx b) (rdx a) in
  ends err (fun cd => (len a <> O -> cut (fst cd) (mquot a b scale) scale (xorb (neg a) (neg b))) /\ remainder a b scale (snd cd))
    (zbc_num_r garbage G_interrupt a b c d scale ts).
Proof.
  intros Ha Hb Nb Hfit ts. unfold zbc_num_r, rem_fits in *. destruct (Nat.eqb_spec (len b) 0) as [|_]; [contradiction|].
  destruct (ok_nonzero b Hb Nb) as (Rb & Mb & _). pose proof (p10_pos (rdx a)) as Pa.
  destruct (Nat.eqb_spec (len a) 0) as [Ea|Na].
  { apply ends_ok. cbn [fst snd]. split; [contradiction|]. split; [apply ok_setToZero|]. split; [reflexivity|].
    assert (Ez : sval a = 0) by (unfold sval; rewrite (mant_zero a Ea); destruct (neg a); reflexivity).
    rewrite Ez, Z.mul_0_l, Z.rem_0_l; [reflexivity|]. unfold sval. destruct (neg b); nia. }
  destruct (ok_nonzero a Ha Na) as (Ra & Ma & _).
  eapply ends_bind; [apply d_spec; assumption|]. intros q Hq. pose proof Hq as (Oq & Mq & Xq & _).
  assert (Lq : (len q <= len a + scale + rdx b)%nat).
  { pose proof (ok_len q (len a + scale + rdx b) Oq) as H. rewrite Mq, Xq in H.
    etransitivity; [apply H|lia]. unfold mquot. apply Z.div_lt_upper_bound; [nia|].
    pose proof (mant_bounds a (proj1 Ha)). rewrite <- Nat.add_assoc, (p10_add (len a)). pose proof (p10_pos (scale + rdx b)).
    assert (1 <= mant b * p10 (rdx a)) by nia. set (k := mant b * p10 (rdx a)) in *.
    apply Z.lt_le_trans with (1 * (p10 (len a) * p10 (scale + rdx b))); [rewrite Z.mul_1_l; apply Z.mul_lt_mono_pos_r; lia|].
    apply Z.mul_le_mono_nonneg_r; [apply Z.mul_nonneg_nonneg; [pose proof (p10_pos (len a))|]; lia|lia]. }
  set (sc := if (scale =? 0)%nat then scale else ts).
  assert (Hs : mul_scale q b sc = (scale + rdx b)%nat) by (unfold mul_scale, sc, ts; rewrite Xq; destruct (Nat.eqb_spec scale 0); lia).
  eapply ends_bind; [apply m_spec; auto; rewrite Hs; unfold mul_fits; lia|]. rewrite Hs, Xq, rescale_id. intros t Ht.
  pose proof (cut_exact _ _ _ _ Ht) as Vt. rewrite <- sval_mul in Vt. pose proof Ht as (Ot & Mt & Xt & _).
  assert (Lt : (len t <= len q + len b + scale + rdx b)%nat).
  { pose proof (ok_len t (len q + len b) Ot) as H. rewrite Mt, Xt in H. etransitivity; [apply H|lia].
    pose proof (mant_bounds q (proj1 Oq)). pose proof (mant_bounds b (proj1 Hb)). rewrite p10_add. apply Z.mul_lt_mono_nonneg; lia. }
  eapply ends_bind; [apply subtract_spec; auto; unfold sized, BC_MAX_NUM in *; lia|]. intros d0 (O0 & V0 & X0 & _).
  rewrite Xt in *. rewrite Vt, (quot_sval a b scale q Ha Hb Mb Hq) in V0.
  pose proof (Z.quot_rem' (sval a * p10 (scale + rdx b)) (sval b * p10 (rdx a))) as QR.
  assert (Hts : (rdx d0 <= ts)%nat) by (unfold ts; lia).
  pose proof (finish_remainder d0 ts (neg a) (neg b) O0 Hts) as Hf. cbv zeta in Hf.
  match type of Hf with ends _ ?P (rbind ?m ?f) => destruct m as [d1|e| |]; cbn [rbind] in *; try contradiction; [|exact Hf] end.
  destruct (bc_num_retireMul garbage d1 ts (neg a) (neg b)) as [d2|e| |]; cbn [rbind] in *; try contradiction; [|exact Hf].
  destruct Hf as (O2 & X2 & V2). apply ends_ok. cbn [fst snd]. split; [auto|]. split; [exact O2|]. split; [exact X2|].
  rewrite V2, X2. replace (p10 ts) with (p10 (rdx d0) * p10 (ts - rdx d0)) by (rewrite <- p10_add; f_equal; lia).
  assert (E : sval d0 * p10 (rdx a + (scale + rdx b)) = Z.rem (sval a * p10 (scale + rdx b)) (sval b * p10 (rdx a)) * p10 (rdx d0)).
  { rewrite V0. f_equal. lia. }
  transitivity (sval d0 * p10 (rdx a + (scale + rdx b)) * p10 (ts - rdx d0)); [ring|]. rewrite E. ring.
Qed.

Lemma rem_spec a b c scale :
  ok a -> ok b -> len b <> O -> rem_fits a b scale ->
  ends err (remainder a b scale) (zbc_num_rem garbage G_interrupt a b c scale).
Proof.
  intros Ha Hb Nb Hf. unfold zbc_num_rem. eapply ends_bind; [apply r_spec; assumption|].
  intros [q d] [_ H]. exact H.
Qed.

Lemma divmod_spec alias a b c d scale :
  ok a -> ok b -> len b <> O -> len a <> O -> rem_fits a b scale ->
  ends err (fun cd => cut (fst cd) (mquot a b scale) scale (xorb (neg a) (neg b)) /\ remainder a b scale (snd cd))
    (zbc_num_divmod garbage G_interrupt alias a b c d scale).
Proof.
  intros Ha Hb Nb Na Hf. unfold zbc_num_divmod. eapply ends_impl; [apply r_spec; assumption|]. intros cd [H1 H2]. auto.
Qed.
End Division.

(** C27. Division of bc numbers. Dividing by zero is an error of [zbc_num_div]
    and of [zbc_num_mod]. For every other divisor, whatever the signs, the
    scale and the memory the result is written to, [zbc_num_div] ends inside
    its buffers, unless a ^C stops it, with a well-formed number of exactly
    [scale] fraction digits, the quotient of the values cut off towards zero;
    and [zbc_num_mod] (for operands that are not too long) with the remainder
    that belongs to that quotient, with [max(scale + b.rdx, a.rdx)] fraction
    digits and the sign of the dividend. *)
Theorem bc_div_mod_correct (garbage : nat -> Z) (G_interrupt : nat -> bool) (alias : bool) (a b c : BcNum) (scale : nat) :
  ok a -> ok b ->
  let X := sval a * p10 (scale + rdx b) in
  let Y := sval b * p10 (rdx a) in
  let stopped := fun e => e = BC_STATUS_FAILURE /\ exists i, G_interrupt i = true in
  (sval b = 0 -> zbc_num_div garbage G_interrupt alias a b c scale = Die divide_by_zero /\
                 zbc_num_mod garbage G_interrupt alias a b c scale = Die divide_by_zero) /\
  (sval b <> 0 ->
     ends stopped (fun q => ok q /\ rdx q = scale /\ sval q = Z.quot X Y)
       (zbc_num_div garbage G_interrupt alias a b c scale) /\
     (Z.of_nat (2 * (len a + len b + 2 * (scale + rdx b)) + 4) <= BC_MAX_NUM ->
      ends stopped (fun r => ok r /\ rdx r = Nat.max (scale + rdx b) (rdx a) /\
                             sval r * p10 (rdx a + (scale + rdx b)) = Z.rem X Y * p10 (rdx r))
        (zbc_num_mod garbage G_interrupt alias a b c scale))).
Proof.
  intros Ha Hb X Y stopped. unfold zbc_num_div, zbc_num_mod, zbc_num_binary. split.
  - intros E. assert (Eb : len b = O) by (apply ok_zero; [exact Hb|]; unfold sval in E; destruct (neg b); lia).
    unfold zbc_num_rem, zbc_num_d, zbc_num_r. rewrite Eb. split; reflexivity.
  - intros E. assert (Nb : len b <> O) by (intros Eb; apply E; unfold sval; rewrite (mant_zero b Eb); destruct (neg b); reflexivity).
    split.
    + eapply ends_impl; [apply d_spec; assumption|]. intros q Hq. pose proof Hq as (Oq & _ & Xq & _).
      destruct (ok_nonzero b Hb Nb) as (_ & Mb & _). split; [exact Oq|]. split; [exact Xq|]. apply quot_sval; assumption.
    + intros Hf. eapply ends_impl; [apply rem_spec; assumption|]. intros r Hr. exact Hr.
Qed.

(** 12.5 divided by -0.75 at scale 3, the quotient written over the divisor. *)
Lemma bc_div_mod_correct_witness :
  ends (fun e => e = BC_STATUS_FAILURE /\ exists i : nat, false = true)
    (fun q => ok q /\ rdx q = 3%nat /\ sval q = -16666) (zbc_num_div (fun _ => 7) (fun _ => false) true n12_5 n_0_75 n_0_75 3) /\
  ends (fun e => e = BC_STATUS_FAILURE /\ exists i : nat, false = true)
    (fun r => sval r = 50) (zbc_num_mod (fun _ => 7) (fun _ => false) true n12_5 n_0_75 n_0_75 3).
Proof.
  destruct (bc_div_mod_correct (fun _ => 7) (fun _ => false) true n12_5 n_0_75 n_0_75 3 n12_5_ok n_0_75_ok) as [_ H].
  destruct (H ltac:(vm_compute; discriminate)) as [H1 H2]. split; [exact H1|].
  eapply ends_impl; [apply H2; vm_compute; discriminate|]. intros r (_ & Xr & Vr).
  rewrite Xr in Vr.
  replace (Z.rem _ _ * _) with (50 * 10 ^ 6) in Vr by reflexivity.
  replace (p10 (rdx n12_5 + (3 + rdx n_0_75))) with (10 ^ 6) in Vr by reflexivity. lia.
Defined.
End BcV.
