(* ===== verification/BcPow.v ===== *)
(** * Powers of bc numbers

    [zbc_num_ulong_abs] and [bc_num_ulong2num] convert from and to machine
    integers; [zbc_num_pow] squares and multiplies, and [zdc_num_modexp] does
    so modulo a number (miscutils/bc.c). *)

From Stdlib Require Import ZArith List Lia Bool QArith.
From S2P Require Import Prelude Words Mem BcNum BcDigits BcAdd BcMul BcDiv.
Import ListNotations.
Local Open Scope Z_scope.
Local Open Scope res_scope.
Import Bc BcD BcA BcM BcV.

Module BcP.

(** The integer part of the magnitude. *)
Definition ipart (n : BcNum) : Z := mant n / p10 (rdx n).

(** ** Conversions *)

(** The test for overflow is exact: multiplying by ten and adding a digit
    leaves 64 bits exactly when an eighth of the result is below the operand. *)
Lemma overflow_test r d :
  0 <= r < 2 ^ 64 -> digit d -> (u64 (r * 10 + d) / 8 <? r) = (2 ^ 64 <=? r * 10 + d).
Proof.
  intros Hr Hd. red in Hd. unfold u64, wrap. set (m := 2 ^ 64) in *. assert (Hm : m = 18446744073709551616) by reflexivity.
  pose proof (Z.div_mod (r * 10 + d) m ltac:(lia)) as E. pose proof (Z.mod_pos_bound (r * 10 + d) m ltac:(lia)) as B.
  set (k := (r * 10 + d) / m) in *. set (t := (r * 10 + d) mod m) in *.
  pose proof (Z.div_mod t 8 ltac:(lia)) as E8. pose proof (Z.mod_pos_bound t 8 ltac:(lia)) as B8.
  destruct (Z.leb_spec m (r * 10 + d)) as [H|H].
  - assert (1 <= k) by nia. apply Z.ltb_lt. nia.
  - assert (k = 0) by nia. apply Z.ltb_ge. nia.
Qed.

Lemma dval_skipn_step l i :
  (i < length l)%nat -> dval (skipn i l) = nth i l 0 + 10 * dval (skipn (S i) l).
Proof.
  revert i; induction l as [|d l IH]; intros [|i] H; cbn [length] in H; try lia; [reflexivity|].
  cbn [skipn nth]. rewrite IH by lia. reflexivity.
Qed.

Lemma ulong_loop n l k acc :
  digits l -> (rdx n + k <= length l)%nat -> firstn (length l) (num n) = l -> acc = dval (skipn (rdx n + k) l) -> acc < 2 ^ 64 ->
  for_down k (fun i result =>
    let prev := result in
    let! d := load1 (num n) (rdx n + i) in
    let result := u64 (result * 10 + d) in
    if result / 8 <? prev then Die overflow else Ok result) acc =
  if dval (skipn (rdx n) l) <? 2 ^ 64 then Ok (dval (skipn (rdx n) l)) else Die overflow.
Proof.
  intros Hd. revert acc; induction k as [|k IH]; intros acc Hk Hl Ha Hb; cbn [for_down].
  - rewrite Nat.add_0_r in Ha. rewrite <- Ha. destruct (Z.ltb_spec acc (2 ^ 64)); [reflexivity|lia].
  - assert (Ln : (length l <= length (num n))%nat) by (rewrite <- Hl at 1; rewrite length_firstn; lia).
    assert (En : nth (rdx n + k) (num n) 0 = nth (rdx n + k) l 0).
    { rewrite <- Hl. rewrite nth_firstn. destruct (Nat.ltb_spec (rdx n + k) (length l)); [reflexivity|lia]. }
    rewrite (load1_ok _ _ 0), En by lia. cbn [rbind].
    pose proof (digits_nth l (rdx n + k) Hd) as D. pose proof (dval_skipn_step l (rdx n + k) ltac:(lia)) as E.
    rewrite <- Nat.add_succ_r, <- Ha in E. pose proof (dval_bounds _ (Forall_skipn _ (rdx n + S k) _ Hd)) as B. rewrite <- Ha in B.
    rewrite overflow_test by (auto; lia). red in D.
    destruct (Z.leb_spec (2 ^ 64) (acc * 10 + nth (rdx n + k) l 0)) as [Ho|Ho].
    + destruct (Z.ltb_spec (dval (skipn (rdx n) l)) (2 ^ 64)); [|reflexivity].
      pose proof (dval_split k (skipn (rdx n) l)) as Es. rewrite skipn_skipn, length_firstn, length_skipn, Nat.min_l, (Nat.add_comm k) in Es by lia.
      pose proof (dval_bounds _ (Forall_firstn _ k _ (Forall_skipn _ (rdx n) _ Hd))). pose proof (p10_pos k). nia.
    + rewrite u64_exact by lia. cbn [rbind]. apply IH; auto; lia.
Qed.

Lemma ulong_abs_spec n :
  raw n -> (rdx n <= len n)%nat ->
  zbc_num_ulong_abs n = if ipart n <? 2 ^ 64 then Ok (ipart n) else Die overflow.
Proof.
  intros Hn Hr. pose proof (length_digs n Hn) as Hl. destruct Hn as [Hc Hd].
  assert (E : ipart n = dval (skipn (rdx n) (digs n))) by (unfold ipart, mant; rewrite dval_skipn by exact Hd; reflexivity).
  rewrite E. unfold zbc_num_ulong_abs. apply ulong_loop; auto; try lia.
  - rewrite Hl. reflexivity.
  - rewrite skipn_all2 by lia. reflexivity.
Qed.

(** The loop writes the digits of [val]. *)
Lemma ulong2num_loop_spec fuel n v v0 :
  (len n + fuel <= cap n)%nat -> digits (digs n) -> 0 < v < p10 fuel -> v0 = mant n + p10 (len n) * v ->
  ends (fun _ => False) (fun r => raw r /\ mant r = v0 /\ rdx r = rdx n /\ neg r = neg n /\ p10 (len r - 1) <= mant r)
    (ulong2num_loop fuel n v).
Proof.
  revert n v; induction fuel as [|fuel IH]; intros n v Hc Hd Hv E0; [change (p10 0) with 1 in Hv; lia|]. cbn [ulong2num_loop].
  unfold cap in Hc. pose proof (Z.div_mod v 10 ltac:(lia)) as Ev. pose proof (Z.mod_pos_bound v 10 ltac:(lia)) as Bv.
  apply ends_store1; [lia|]. rewrite s8_exact by lia. set (m := set_len _ _).
  assert (Ed : digs m = digs n ++ [v mod 10]) by (unfold digs, m; cbn [set_len set_num num len]; apply firstn_upd; lia).
  assert (Ln : length (digs n) = len n) by (unfold digs; rewrite length_firstn; lia).
  assert (Em : mant m = mant n + p10 (len n) * (v mod 10)) by (unfold mant; rewrite Ed, dval_app, Ln; cbn [dval]; ring).
  assert (Dm : digits (digs m)) by (rewrite Ed; apply Forall_app; split; [exact Hd|repeat constructor; lia]).
  assert (E0' : v0 = mant m + p10 (len m) * (v / 10)) by (unfold m at 2; cbn [set_len len]; rewrite Em, p10_S; nia).
  destruct (Z.eqb_spec (v / 10) 0) as [Ez|Ez].
  - apply ends_ok. rewrite Ez in E0'. pose proof (p10_pos (len n)). pose proof (dval_bounds _ Hd) as B. change (dval (digs n)) with (mant n) in B.
    repeat split; auto; try lia; [unfold cap, m; cbn [set_len set_num num len]; rewrite length_upd; lia|].
    unfold m at 1; cbn [set_len len]. replace (S (len n) - 1)%nat with (len n) by lia. rewrite Em. nia.
  - apply (IH m); auto.
    + unfold cap, m; cbn [set_len set_num num len]. rewrite length_upd. lia.
    + split; [pose proof (Z.div_pos v 10); lia|]. apply Z.div_lt_upper_bound; [lia|]. rewrite <- p10_S. lia.
Qed.

Lemma ulong2num_spec garbage n v :
  0 <= v < 2 ^ 64 ->
  ends (fun _ => False) (fun r => integer r /\ mant r = v) (bc_num_ulong2num garbage n v).
Proof.
  intros Hv. unfold bc_num_ulong2num. destruct (Z.eqb_spec v 0) as [->|Hz].
  - apply ends_ok. split; [split; [apply ok_setToZero|auto]|reflexivity].
  - destruct (expand_spec garbage (bc_num_zero n) ULONG_NUM_BUFSIZE) as (tail & -> & Hc).
    eapply ends_impl; [apply (ulong2num_loop_spec 20 _ v v)|].
    + unfold cap in *. cbn [set_num bc_num_zero bc_num_setToZero num len] in *. rewrite length_app. unfold ULONG_NUM_BUFSIZE in Hc. lia.
    + constructor.
    + split; [lia|]. etransitivity; [apply Hv|]. reflexivity.
    + rewrite mant_zero by reflexivity. change (p10 (len _)) with 1. ring.
    + intros r (H1 & H2 & H3 & H4 & H5). split; [apply integer_of; auto; lia|exact H2].
Qed.

(** ** Repeated squaring *)

Section Powers.
Context (garbage : nat -> Z) (G_interrupt : nat -> bool) (a : BcNum).
Context (Ha : ok a) (Na : len a <> O).
Let err := interrupted G_interrupt.

(** [r] is exactly [a ^ k]. *)
Definition power (k : nat) (r : BcNum) : Prop :=
  ok r /\ rdx r = (k * rdx a)%nat /\ mant r = mant a ^ Z.of_nat k /\ neg r = neg a && Nat.odd k.

(** The powers of [a] up to the [k]-th are not too long. *)
Definition pow_fits (k : Z) : Prop := 4 * k * Z.of_nat (len a) + 4 <= BC_MAX_NUM.

Lemma power_1 r : same r a -> power 1 r.
Proof.
  intros H. pose proof (same_ok _ _ H Ha). pose proof (same_mant _ _ H) as E. destruct H as (_ & _ & X & _ & N).
  unfold power. rewrite E, X, N. change (Z.of_nat 1) with 1. rewrite Z.pow_1_r, andb_true_r, Nat.mul_1_l. repeat split; try apply H0.
Qed.

Lemma power_pos k r : power k r -> 0 < mant r.
Proof. intros (_ & _ & -> & _). destruct (ok_nonzero a Ha Na) as (_ & H & _). apply Z.pow_pos_nonneg; lia. Qed.

Lemma power_len k r : (1 <= k)%nat -> power k r -> (len r <= k * len a)%nat.
Proof.
  intros Hk (Hr & X & M & _). destruct (ok_nonzero a Ha Na) as (Ra & Ma & _). pose proof (mant_bounds a (proj1 Ha)) as B.
  assert (E : p10 (k * len a) = p10 (len a) ^ Z.of_nat k).
  { unfold p10. rewrite Nat2Z.inj_mul, Z.mul_comm, Z.pow_mul_r by lia. reflexivity. }
  pose proof (ok_len r (k * len a) Hr) as H. rewrite M, E, X in H. specialize (H ltac:(apply Z.pow_lt_mono_l; lia)). nia.
Qed.

Lemma mul_powers i j x y c alias :
  (1 <= i)%nat -> (1 <= j)%nat -> power i x -> power j y -> pow_fits (Z.of_nat (i + j)) ->
  ends err (power (i + j)) (zbc_num_mul garbage G_interrupt alias x y c (rdx x + rdx y)).
Proof.
  intros Hi Hj Hx Hy Hf. destruct (ok_nonzero a Ha Na) as (Ra & _).
  pose proof (power_len i x Hi Hx) as Lx. pose proof (power_len j y Hj Hy) as Ly.
  pose proof Hx as (Ox & Xx & Mx & Nx). pose proof Hy as (Oy & Xy & My & Ny).
  assert (Es : mul_scale x y (rdx x + rdx y) = (rdx x + rdx y)%nat) by (unfold mul_scale; lia).
  pose proof (mul_spec garbage G_interrupt alias x y c (rdx x + rdx y)) as H. cbv zeta in H. rewrite Es, rescale_id in H.
  eapply ends_impl; [apply H; auto|].
  - unfold mul_fits, pow_fits in *. rewrite Xx, Xy in *. nia.
  - intros r (Or & Mr & Xr & Nr). split; [exact Or|]. split; [rewrite Xr, Xx, Xy; nia|]. split.
    + rewrite Mr, Mx, My, Nat2Z.inj_add, Z.pow_add_r by lia. reflexivity.
    + rewrite Nr, Nx, Ny, Nat.odd_add; [destruct (neg a), (Nat.odd i), (Nat.odd j); reflexivity|].
      pose proof (power_pos i x Hx). pose proof (power_pos j y Hy). nia.
Qed.

Lemma size_small n : Z.of_nat n < 2 ^ 64 -> size (Z.of_nat n) = n.
Proof. intros H. unfold size. rewrite u64_exact, Nat2Z.id; lia. Qed.

Lemma rdx_small k r : (1 <= k)%nat -> power k r -> pow_fits (Z.of_nat k) -> Z.of_nat (2 * rdx r) < 2 ^ 64.
Proof.
  intros Hk (_ & -> & _) Hf. destruct (ok_nonzero a Ha Na) as (Ra & _). unfold pow_fits, BC_MAX_NUM in Hf. nia.
Qed.

Lemma pow_fits_le k k' : 0 <= k <= k' -> pow_fits k' -> pow_fits k.
Proof. unfold pow_fits. nia. Qed.

Lemma square_spec k copy :
  (1 <= k)%nat -> power k copy -> pow_fits (Z.of_nat (k + k)) ->
  size (2 * Z.of_nat (rdx copy)) = (rdx copy + rdx copy)%nat /\
  ends err (power (k + k)) (zbc_num_mul garbage G_interrupt true copy copy copy (rdx copy + rdx copy)).
Proof.
  intros Hk Hc Hf. split; [|apply mul_powers; assumption].
  assert (Hs : pow_fits (Z.of_nat k)) by (apply (pow_fits_le _ (Z.of_nat (k + k))); [lia|exact Hf]).
  pose proof (rdx_small k copy Hk Hc Hs). replace (2 * Z.of_nat (rdx copy)) with (Z.of_nat (rdx copy + rdx copy)) by lia.
  apply size_small. lia.
Qed.

Lemma pow_even_spec fuel k copy p :
  (1 <= k)%nat -> power k copy -> 0 < p < 2 ^ Z.of_nat fuel -> pow_fits (Z.of_nat k * p) ->
  ends err (fun s => let '(c, powrdx, q) := s in
      exists k', (1 <= k')%nat /\ power k' c /\ powrdx = rdx c /\ Z.odd q = true /\ 0 < q <= p /\ Z.of_nat k' * q = Z.of_nat k * p)
    (pow_even garbage G_interrupt fuel copy (rdx copy) p).
Proof.
  revert k copy p; induction fuel as [|fuel IH]; intros k copy p Hk Hc Hp Hf; [change (2 ^ Z.of_nat 0) with 1 in Hp; lia|].
  cbn [pow_even]. destruct (Z.odd p) eqn:Od; [apply ends_ok; exists k; repeat split; auto; try apply Hc; lia|].
  assert (Ep : p = 2 * (p / 2)).
  { pose proof (Z.div_mod p 2 ltac:(lia)) as E. rewrite Zmod_odd, Od in E. lia. }
  assert (Hp2 : 2 <= p) by lia.
  rewrite Nat2Z.inj_succ, Z.pow_succ_r in Hp by lia.
  destruct (square_spec k copy Hk Hc) as [Es Hm]; [apply (pow_fits_le _ (Z.of_nat k * p)); [nia|exact Hf]|].
  rewrite Es. eapply ends_bind; [exact Hm|]. intros c2 H2. pose proof H2 as (_ & X2 & _).
  replace (rdx copy + rdx copy)%nat with (rdx c2) by (rewrite X2; destruct Hc as (_ & -> & _); lia).
  eapply ends_impl; [apply (IH (k + k)%nat); auto; try lia|].
  - replace (Z.of_nat (k + k) * (p / 2)) with (Z.of_nat k * p) by lia. exact Hf.
  - intros [[c r] q] (k' & H1 & H3 & H4 & H5 & H6 & H7). exists k'. repeat split; auto; try apply H3; lia.
Qed.

Lemma pow_rest_spec fuel m k c copy p :
  (1 <= m)%nat -> (1 <= k)%nat -> power m c -> power k copy -> 0 <= p -> 2 * p < 2 ^ Z.of_nat fuel -> (1 <= fuel)%nat ->
  pow_fits (Z.of_nat m + 2 * Z.of_nat k * p) ->
  ends err (power (m + 2 * k * Z.to_nat p)) (pow_rest garbage G_interrupt fuel c copy (rdx copy) (rdx c) p).
Proof.
  revert m k c copy p; induction fuel as [|fuel IH]; intros m k c copy p Hm Hk Hc Hy Hp Hb H1 Hf; [lia|].
  cbn [pow_rest]. destruct (Z.eqb_spec p 0) as [->|Hp0].
  { apply ends_ok. rewrite Nat.mul_0_r, Nat.add_0_r. exact Hc. }
  rewrite Nat2Z.inj_succ, Z.pow_succ_r in Hb by lia.
  assert (H1' : (1 <= fuel)%nat) by (destruct fuel; [change (2 ^ Z.of_nat 0) with 1 in Hb; lia|lia]).
  pose proof (Z.div_mod p 2 ltac:(lia)) as E. rewrite Zmod_odd in E. set (h := p / 2) in *.
  assert (Hh : 0 <= h) by (apply Z.div_pos; lia).
  destruct (square_spec k copy Hk Hy) as [Es Hsq]; [eapply pow_fits_le; [|exact Hf]; nia|].
  rewrite Es. eapply ends_bind; [exact Hsq|]. intros y2 H2. pose proof H2 as (_ & X2 & _). pose proof Hy as (_ & Xy & _).
  replace (rdx copy + rdx copy)%nat with (rdx y2) by lia.
  set (m' := if Z.odd p then (m + (k + k))%nat else m).
  eapply (ends_bind _ (fun s => power m' (fst s) /\ snd s = rdx (fst s))).
  - unfold m'. destruct (Z.odd p) eqn:Od; [|apply ends_ok; auto].
    assert (Hf2 : pow_fits (Z.of_nat (m + (k + k)))) by (eapply pow_fits_le; [|exact Hf]; nia).
    pose proof Hc as (_ & Xc & _). destruct (ok_nonzero a Ha Na) as (Ra & _).
    assert (Sz : size (Z.of_nat (rdx c) + Z.of_nat (rdx y2)) = (rdx c + rdx y2)%nat).
    { rewrite <- Nat2Z.inj_add. apply size_small. rewrite Xc, X2. unfold pow_fits, BC_MAX_NUM in Hf2. nia. }
    rewrite Sz. eapply ends_bind; [apply mul_powers; [exact Hm| |exact Hc|exact H2|exact Hf2]; lia|].
    intros c2 Hc2. apply ends_ok. cbn [fst snd]. split; [exact Hc2|]. destruct Hc2 as (_ & -> & _). rewrite Xc, X2. lia.
  - intros [c2 r2] [Hc2 Er2]. cbn [fst snd] in *. subst r2.
    assert (Em : (Z.of_nat m' + 2 * Z.of_nat (k + k) * h = Z.of_nat m + 2 * Z.of_nat k * p)%Z) by (unfold m'; destruct (Z.odd p); nia).
    eapply ends_impl; [apply (IH m' (k + k)%nat c2 y2 h); auto; [unfold m'; destruct (Z.odd p); lia|lia|destruct (Z.odd p); lia|rewrite Em; exact Hf]|].
    intros r Hr. replace (m + 2 * k * Z.to_nat p)%nat with (m' + 2 * (k + k) * Z.to_nat h)%nat; [exact Hr|]. nia.
Qed.
End Powers.

Lemma power_sval a k r : power a k r -> sval r = sval a ^ Z.of_nat k.
Proof.
  intros (_ & _ & M & N). unfold sval. rewrite N, M. destruct (neg a); cbn [andb]; [|reflexivity].
  assert (Eo : Nat.odd k = Z.odd (Z.of_nat k)).
  { rewrite <- Nat.negb_even, <- Z.negb_even. f_equal. destruct (Nat.even k) eqn:Ev; symmetry.
    - apply Nat.even_spec in Ev as [j ->]. rewrite Nat2Z.inj_mul. apply Z.even_spec. exists (Z.of_nat j). reflexivity.
    - rewrite <- Z.negb_odd. apply negb_false_iff. rewrite <- Nat.negb_odd in Ev. apply negb_false_iff, Nat.odd_spec in Ev as [j ->].
      apply Z.odd_spec. exists (Z.of_nat j). lia. }
  rewrite Eo. destruct (Z.odd (Z.of_nat k)) eqn:O.
  - apply Z.odd_spec in O. rewrite Z.pow_opp_odd by exact O. reflexivity.
  - rewrite <- Z.negb_even in O. apply negb_false_iff, Z.even_spec in O. rewrite Z.pow_opp_even by exact O. reflexivity.
Qed.

Section Pow.
Context (garbage : nat -> Z) (G_interrupt : nat -> bool).
Let err := interrupted G_interrupt.

Lemma some_nonzero_eq l i n :
  (i + n <= length l)%nat -> digits (slice i n l) -> some_nonzero l i n = Ok (negb (dval (slice i n l) =? 0)).
Proof.
  revert i; induction n as [|n IH]; intros i Hl Hd; cbn [some_nonzero]; [reflexivity|].
  rewrite (load1_ok _ _ 0) by lia. cbn [rbind]. rewrite (slice_S i n l 0) in * by lia. inversion Hd as [|? ? H1 H2]; subst.
  pose proof (dval_bounds _ H2). red in H1. cbn [dval]. destruct (Z.eqb_spec (nth i l 0) 0) as [E|E].
  - rewrite IH by (auto; lia). rewrite E. do 2 f_equal. destruct (Z.eqb_spec (dval (slice (S i) n l)) 0), (Z.eqb_spec (0 + 10 * dval (slice (S i) n l)) 0); lia.
  - destruct (Z.eqb_spec (nth i l 0 + 10 * dval (slice (S i) n l)) 0); [lia|reflexivity].
Qed.

(** The fraction of a number. *)
Lemma fraction_eq b : raw b -> (rdx b <= len b)%nat -> some_nonzero (num b) 0 (rdx b) = Ok (negb (mant b mod p10 (rdx b) =? 0)).
Proof.
  intros Hb Hr. destruct (aligned b (rdx b) Hb Hr) as (E & B & D & _ & L).
  rewrite some_nonzero_eq by (auto; lia). change (slice 0 (rdx b) (num b)) with (firstn (rdx b) (num b)).
  do 3 f_equal. apply Z.mod_unique_pos with (dval (slice (rdx b) (len b - rdx b) (num b))); lia.
Qed.

(** The last steps: the fraction digits above the scale are dropped. *)
Lemma finish_power c scale :
  ok c -> (scale <= rdx c)%nat ->
  ends err (fun r => cut r (rescale (mant c) (rdx c) scale) scale (neg c))
    (let! c := (if (scale <? rdx c)%nat then bc_num_truncate c (rdx c - scale) else Ok c) in
     let! nz := some_nonzero (num c) 0 (len c) in
     Ok (if nz then c else bc_num_setToZero c scale)).
Proof.
  intros Hc Hs. rewrite rescale_truncate by exact Hs.
  assert (Hsh : len c = O \/ (rdx c <= len c)%nat) by (destruct (proj2 Hc) as [[? _]|(? & _)]; auto).
  eapply (ends_bind _ (fun d => raw d /\ mant d = mant c / p10 (rdx c - scale) /\ rdx d = scale /\ len d = (len c - (rdx c - scale))%nat /\ neg d = neg c)).
  - destruct (Nat.ltb_spec scale (rdx c)).
    + eapply ends_impl; [apply truncate_spec; [apply Hc|lia]|]. intros d (R & M & X & L & N). repeat split; try apply R; auto; lia.
    + apply ends_ok. replace (rdx c - scale)%nat with O by lia. change (p10 0) with 1. rewrite Z.div_1_r. repeat split; try apply Hc; lia.
  - intros d (R & M & X & L & N). destruct (whole d R) as (D & E & Ld). rewrite some_nonzero_eq by (auto; lia). cbn [rbind]. rewrite E, <- M.
    apply ends_ok. destruct (Z.eqb_spec (mant d) 0) as [E0|E0]; cbn [negb].
    + rewrite E0. split; [apply ok_setToZero|]. repeat split. contradiction.
    + pose proof (mant_bounds d R). split; [|auto]. split; [exact R|]. right.
      destruct (proj2 Hc) as [[Z0 _]|(H1 & H2 & H3)]; [rewrite (mant_zero c Z0), Z.div_0_l in M by (pose proof (p10_pos (rdx c - scale)); lia); lia|].
      repeat split; try lia. intros Hlt. specialize (H3 ltac:(lia)). rewrite M, L.
      apply Z.div_le_lower_bound; [apply p10_pos|]. rewrite <- p10_add. etransitivity; [|exact H3]. apply p10_le. lia.
Qed.

Lemma inv_spec alias c b scale :
  ok c -> len c <> O ->
  ends err (fun r => ok r /\ rdx r = scale /\ sval r = Z.quot (p10 (scale + rdx c)) (sval c))
    (zbc_num_inv garbage G_interrupt alias c b scale).
Proof.
  intros Hc Nc. unfold zbc_num_inv. eapply ends_bind; [apply one_spec; unfold cap; cbn [num]; rewrite length_xmalloc; lia|].
  intros one (Ho & M1 & X1 & L1 & N1 & _). eapply ends_impl; [apply d_spec; [exact Ho|exact Hc|exact Nc]|].
  intros r Hr. pose proof Hr as (Or & _ & Xr & _). destruct (ok_nonzero c Hc Nc) as (_ & Mc & _).
  split; [exact Or|]. split; [exact Xr|]. rewrite (quot_sval one c scale r Ho Hc Mc Hr). unfold sval at 1. rewrite N1, M1, X1.
  change (p10 0) with 1. rewrite Z.mul_1_l, Z.mul_1_r. reflexivity.
Qed.

Lemma pow_scale_eq a scale p :
  ok a -> len a <> O -> 0 < p -> pow_fits a p ->
  pow_scale false (rdx a) scale p = Nat.min (Z.to_nat p * rdx a) (Nat.max scale (rdx a)).
Proof.
  intros Ha Na Hp Hf. destruct (ok_nonzero a Ha Na) as (Ra & _). unfold pow_scale, pow_fits, BC_MAX_NUM in *.
  rewrite u64_exact by nia. set (s := if (scale <? rdx a)%nat then rdx a else scale).
  assert (Es : s = Nat.max scale (rdx a)) by (unfold s; destruct (Nat.ltb_spec scale (rdx a)); lia). rewrite Es.
  assert (E : (rdx a =? 0)%nat || (p <=? Z.of_nat (rdx a) * p) = true).
  { destruct (Nat.eqb_spec (rdx a) 0); [reflexivity|]. apply Z.leb_le. nia. }
  rewrite E. cbn [andb]. destruct (Z.ltb_spec (Z.of_nat (rdx a) * p) (Z.of_nat (Nat.max scale (rdx a)))); nia.
Qed.

(** [r] is [a] to the power of the integer [b], at [scale]. *)
Definition is_power (a b : BcNum) (scale : nat) (r : BcNum) : Prop :=
  let e := Z.to_nat (ipart b) in
  ok r /\
  if neg b then rdx r = scale /\ sval r = Z.quot (p10 (scale + e * rdx a)) (sval a ^ ipart b)
  else let s := Nat.min (e * rdx a) (Nat.max scale (rdx a)) in
       rdx r = s /\ sval r = Z.quot (sval a ^ ipart b * p10 s) (p10 (e * rdx a)).

Lemma ipart_integer b : ok b -> len b <> O -> mant b mod p10 (rdx b) = 0 -> 0 < ipart b /\ mant b = ipart b * p10 (rdx b).
Proof.
  intros Hb Nb E. destruct (ok_nonzero b Hb Nb) as (_ & Mb & _). pose proof (p10_pos (rdx b)).
  pose proof (Z.div_mod (mant b) (p10 (rdx b)) ltac:(lia)) as D. unfold ipart. nia.
Qed.

Lemma p_general a b c scale :
  ok a -> ok b -> len a <> O -> len b <> O -> mant b mod p10 (rdx b) = 0 -> pow_fits a (ipart b) ->
  ends err (is_power a b scale)
    (let! pow := zbc_num_ulong_abs b in
     let! copy := bc_num_init_and_copy garbage a in
     let a_rdx := rdx a in
     let scale := pow_scale (neg b) a_rdx scale pow in
     let! (copy, powrdx, pow) := pow_even garbage G_interrupt 64 copy a_rdx pow in
     let! c := bc_num_copy garbage c copy in
     let! c := pow_rest garbage G_interrupt 64 c copy powrdx powrdx (pow / 2) in
     let! c := (if neg b then zbc_num_inv garbage G_interrupt true c c scale else Ok c) in
     let! c := (if (scale <? rdx c)%nat then bc_num_truncate c (rdx c - scale) else Ok c) in
     let! nz := some_nonzero (num c) 0 (len c) in
     Ok (if nz then c else bc_num_setToZero c scale)).
Proof.
  intros Ha Hb Na Nb Hi Hf. destruct (ipart_integer b Hb Nb Hi) as [Hp Eb].
  destruct (ok_nonzero a Ha Na) as (Ra & _). destruct (ok_nonzero b Hb Nb) as (Rb & _).
  assert (Hsm : ipart b < 2 ^ 32) by (unfold pow_fits, BC_MAX_NUM in Hf; nia).
  rewrite ulong_abs_spec by (auto; apply Hb). rewrite (proj2 (Z.ltb_lt _ _)) by lia. cbn [rbind].
  set (p := ipart b) in *.
  eapply ends_bind; [apply init_and_copy_spec, Ha|]. intros copy Hcp. pose proof (power_1 a Ha copy Hcp) as P1.
  pose proof (pow_even_spec garbage G_interrupt a Ha Na 64 1 copy p ltac:(lia) P1 ltac:(lia) ltac:(rewrite Z.mul_1_l; exact Hf)) as Hpe.
  replace (rdx copy) with (rdx a) in Hpe by (symmetry; apply Hcp).
  cbv zeta. eapply ends_bind; [exact Hpe|].
  intros [[c1 r1] q] (k & Hk & Pk & -> & Od & Hq & Ek).
  eapply ends_bind; [apply copy_spec, Pk|]. intros c2 [Hc2 _].
  assert (P2 : power a k c2).
  { pose proof (same_ok _ _ Hc2 (proj1 Pk)). pose proof (same_mant _ _ Hc2) as E2. destruct Hc2 as (_ & _ & X2 & _ & N2).
    unfold power. rewrite E2, X2, N2. split; [assumption|]. apply Pk. }
  pose proof (Z.div_mod q 2 ltac:(lia)) as Eq. rewrite Zmod_odd, Od in Eq.
  assert (Hfp : pow_fits a (Z.of_nat k + 2 * Z.of_nat k * (q / 2))) by (replace (Z.of_nat k + 2 * Z.of_nat k * (q / 2)) with p by nia; exact Hf).
  pose proof (pow_rest_spec garbage G_interrupt a Ha Na 64 k k c2 c1 (q / 2) Hk Hk P2 Pk ltac:(apply Z.div_pos; lia) ltac:(lia) ltac:(lia) Hfp) as Hpr.
  replace (rdx c2) with (rdx c1) in Hpr by (symmetry; apply Hc2).
  replace (k + 2 * k * Z.to_nat (q / 2))%nat with (Z.to_nat p) in Hpr by nia.
  eapply ends_bind; [exact Hpr|]. intros c3 P3.
  pose proof (power_sval _ _ _ P3) as V3. rewrite Z2Nat.id in V3 by lia. pose proof (power_pos a Ha Na _ _ P3) as M3.
  pose proof P3 as (O3 & X3 & _). unfold is_power. fold p. destruct (neg b).
  - unfold pow_scale. eapply ends_bind; [apply inv_spec; [exact O3|intros E; rewrite (mant_zero c3 E) in M3; lia]|].
    intros c4 (O4 & X4 & V4). eapply ends_impl; [apply finish_power; [exact O4|lia]|].
    intros r Hr. rewrite X4, rescale_id in Hr. pose proof (cut_exact _ _ _ _ Hr) as Vr. destruct Hr as (Or & _ & Xr & _).
    split; [exact Or|]. split; [exact Xr|]. rewrite Vr. fold (sval c4). rewrite V4, V3, X3. reflexivity.
  - rewrite pow_scale_eq by assumption. set (s := Nat.min _ _). cbn [rbind].
    eapply ends_impl; [apply finish_power; [exact O3|rewrite X3; unfold s; lia]|].
    intros r Hr. pose proof Hr as (Or & _ & Xr & _). split; [exact Or|]. split; [exact Xr|].
    pose proof (mant_bounds c3 (proj1 O3)). pose proof (p10_pos s).
    rewrite (cut_sval r (mant c3 * p10 s) (p10 (rdx c3)) s (neg c3) Hr) by (try apply p10_pos; nia).
    rewrite <- V3, X3. unfold sval. destruct (neg c3); f_equal; ring.
Qed.

Lemma p_spec a b c scale :
  ok a -> ok b -> len a <> O -> len b <> O -> mant b mod p10 (rdx b) = 0 -> pow_fits a (ipart b) ->
  ends err (is_power a b scale) (zbc_num_p garbage G_interrupt a b c scale).
Proof.
  intros Ha Hb Na Nb Hi Hf. destruct (ok_nonzero b Hb Nb) as (Rb & _). unfold zbc_num_p.
  rewrite fraction_eq by (auto; apply Hb). rewrite Hi. cbn [rbind Z.eqb negb].
  destruct (Nat.eqb_spec (len b) 0) as [|_]; [contradiction|]. destruct (Nat.eqb_spec (len a) 0) as [|_]; [contradiction|].
  destruct (BC_NUM_ONE b) eqn:One; [|apply p_general; assumption].
  destruct (ONE_spec b Hb One) as (M1 & X1 & _).
  assert (E1 : ipart b = 1) by (unfold ipart; rewrite M1, X1; reflexivity). unfold is_power. rewrite E1.
  change (Z.to_nat 1) with 1%nat. rewrite Nat.mul_1_l, Z.pow_1_r. destruct (neg b); cbn [negb].
  - apply inv_spec; assumption.
  - eapply ends_impl; [apply copy_spec, Ha|]. intros r [Hr _]. split; [eapply same_ok; eauto|].
    rewrite (same_sval _ _ Hr). destruct Hr as (_ & _ & -> & _). split; [lia|].
    replace (Nat.min (rdx a) (Nat.max scale (rdx a))) with (rdx a) by lia.
    symmetry. apply Z.quot_mul. pose proof (p10_pos (rdx a)). lia.
Qed.
End Pow.

Lemma sval_nonzero n : ok n -> sval n <> 0 -> len n <> O.
Proof. intros Hn H E. apply H. unfold sval. rewrite (mant_zero n E). destruct (neg n); reflexivity. Qed.

(** C28. Powers of bc numbers. For a base and an exponent that are not zero,
    an exponent with a fraction is an error, and for any other exponent (and a
    power that is not too long) [zbc_num_pow] ends inside its buffers, unless
    a ^C stops it, with the power of the value cut off towards zero: at
    [min(e * a.rdx, max(scale, a.rdx))] fraction digits for an exponent
    [e > 0], and as the quotient of 1 by the power at [scale] fraction digits
    for a negative one. Squaring loses no digit on the way. *)
Theorem bc_pow_correct (garbage : nat -> Z) (G_interrupt : nat -> bool) (alias : bool) (a b c : BcNum) (scale : nat) :
  ok a -> ok b -> sval a <> 0 -> sval b <> 0 ->
  (mant b mod p10 (rdx b) <> 0 -> zbc_num_pow garbage G_interrupt alias a b c scale = Die not_an_integer) /\
  (mant b mod p10 (rdx b) = 0 -> 4 * ipart b * Z.of_nat (len a) + 4 <= BC_MAX_NUM ->
   ends (fun e => e = BC_STATUS_FAILURE /\ exists i, G_interrupt i = true)
     (is_power a b scale) (zbc_num_pow garbage G_interrupt alias a b c scale)).
Proof.
  intros Ha Hb Na Nb. apply sval_nonzero in Na, Nb; [|assumption|assumption]. unfold zbc_num_pow, zbc_num_binary. split.
  - intros Hfr. destruct (ok_nonzero b Hb Nb) as (Rb & _). unfold zbc_num_p.
    rewrite fraction_eq by (auto; apply Hb). rewrite (proj2 (Z.eqb_neq _ _) Hfr). reflexivity.
  - intros Hi Hf. apply p_spec; assumption.
Qed.

(** -7.0 *)
Definition n_7_0 : BcNum := mkNum [0; 7] 1 2 true.
Lemma n_7_0_ok : ok n_7_0.
Proof. apply okb_ok. reflexivity. Qed.

Lemma bc_pow_correct_witness :
  ends (fun e => e = BC_STATUS_FAILURE /\ exists i : nat, false = true)
    (fun r => rdx r = 20%nat /\ sval r = Z.quot (10 ^ 27) (125 ^ 7))
    (zbc_num_pow (fun _ => 7) (fun _ => false) true n12_5 n_7_0 n12_5 20).
Proof.
  destruct (bc_pow_correct (fun _ => 7) (fun _ => false) true n12_5 n_7_0 n12_5 20 n12_5_ok n_7_0_ok
    ltac:(vm_compute; discriminate) ltac:(vm_compute; discriminate)) as [_ H].
  eapply ends_impl; [apply H; vm_compute; [reflexivity|discriminate]|]. intros r (_ & H1 & H2).
  split; [exact H1|]. rewrite H2. reflexivity.
Defined.

(** The exponent zero. [zbc_num_pow] looks for a fraction in the first
    [b.rdx] elements of the exponent's array before it asks whether the
    exponent is zero. But a zero that was computed at some scale has no
    digits: [0^2] at scale 100 is a well-formed zero in an array of 16, of
    which nothing was written. [2^(0^2)] then reads what the allocator left
    there: if these are zeros it goes on behind the end of the array, if not
    it reports that the exponent is not an integer. *)
Theorem bc_zero_exponent_overrun :
  let none := mkNum [] 0 0 false in
  let two := mkNum [2] 0 1 false in
  let quiet := fun _ : nat => false in
  exists z, zbc_num_pow (fun _ => 0) quiet false none two none 100 = Ok z /\ ok z /\ sval z = 0 /\
    zbc_num_pow (fun _ => 0) quiet false two z none 100 = Fault /\
  exists z', zbc_num_pow (fun _ => 7) quiet false none two none 100 = Ok z' /\ ok z' /\ sval z' = 0 /\
    zbc_num_pow (fun _ => 7) quiet false two z' none 100 = Die not_an_integer.
Proof.
  intros none two quiet. eexists. split; [vm_compute; reflexivity|]. split; [apply okb_ok; reflexivity|]. split; [reflexivity|].
  split; [vm_compute; reflexivity|]. eexists. split; [vm_compute; reflexivity|]. split; [apply okb_ok; reflexivity|].
  split; [reflexivity|]. vm_compute; reflexivity.
Qed.

(** ** Powers modulo a number *)

Definition zint (n : BcNum) : Prop := ok n /\ rdx n = O.

Lemma zint_len n k : zint n -> Z.abs (sval n) < p10 k -> (len n <= k)%nat.
Proof.
  intros [Hn X] H. pose proof (mant_bounds n (proj1 Hn)). pose proof (ok_len n k Hn) as L. rewrite X in L.
  etransitivity; [apply L|lia]. unfold sval in H. destruct (neg n); lia.
Qed.

Lemma zint_bound n : zint n -> Z.abs (sval n) < p10 (len n).
Proof. intros [Hn _]. pose proof (mant_bounds n (proj1 Hn)). unfold sval. destruct (neg n); lia. Qed.

Lemma ONE_complete n : zint n -> sval n = 1 -> BC_NUM_ONE n = true.
Proof.
  intros [Hn X] V. assert (M : mant n = 1).
  { pose proof (mant_bounds n (proj1 Hn)). unfold sval in V. destruct (neg n); lia. }
  assert (Nn : len n <> O) by (intros E; rewrite (mant_zero n E) in M; lia).
  destruct (ok_nonzero n Hn Nn) as (_ & _ & P). specialize (P ltac:(lia)). rewrite M in P.
  assert (L : len n = 1%nat).
  { destruct (Nat.eq_dec (len n) 1) as [|H]; [assumption|]. pose proof (p10_lt 0 (len n - 1) ltac:(lia)) as Hl. change (p10 0) with 1 in Hl. lia. }
  unfold BC_NUM_ONE. rewrite L, X. cbn [Nat.eqb andb]. unfold mant, digs in M. rewrite L in M.
  destruct (num n) as [|d l]; cbn in *; [lia|]. apply Z.eqb_eq. lia.
Qed.

Lemma ONE_iff n : zint n -> 0 <= sval n < 2 -> BC_NUM_ONE n = Z.odd (sval n).
Proof.
  intros Hn B. destruct (BC_NUM_ONE n) eqn:E.
  - destruct (ONE_spec n (proj1 Hn) E) as (M & _). unfold sval in *. destruct (neg n); [lia|]. rewrite M. reflexivity.
  - assert (H : sval n = 0 \/ sval n = 1) by lia. destruct H as [->|H]; [reflexivity|].
    rewrite (ONE_complete n Hn H) in E. discriminate.
Qed.

(** Numbers with the same remainder. *)
Definition eqr (c x y : Z) : Prop := Z.rem x c = Z.rem y c.

Lemma eqr_mul c x x' y y' : c <> 0 -> eqr c x x' -> eqr c y y' -> eqr c (x * y) (x' * y').
Proof. unfold eqr. intros Hc Hx Hy. rewrite (Z.mul_rem x y c Hc), Hx, Hy, <- Z.mul_rem by exact Hc. reflexivity. Qed.

Lemma eqr_pow c x x' n : c <> 0 -> 0 <= n -> eqr c x x' -> eqr c (x ^ n) (x' ^ n).
Proof.
  intros Hc Hn Hx. revert n Hn. apply natlike_ind; [reflexivity|]. intros n Hn IH.
  rewrite !Z.pow_succ_r by exact Hn. apply eqr_mul; assumption.
Qed.

Lemma eqr_rem c x : c <> 0 -> eqr c (Z.rem x c) x.
Proof. intros Hc. apply Z.rem_rem, Hc. Qed.

Section Modexp.
Context (garbage : nat -> Z) (G_interrupt : nat -> bool).
Let err := interrupted G_interrupt.

Lemma mul_zint alias x y t :
  zint x -> zint y -> Z.of_nat (2 * Nat.max (len x) (len y) + 4) <= BC_MAX_NUM ->
  ends err (fun r => zint r /\ sval r = sval x * sval y) (zbc_num_mul garbage G_interrupt alias x y t 0).
Proof.
  intros [Hx Xx] [Hy Xy] Hf. pose proof (mul_spec garbage G_interrupt alias x y t 0 Hx Hy) as H. cbv zeta in H.
  unfold mul_scale, mul_fits in H. rewrite Xx, Xy in H. cbn [Nat.add Nat.min Nat.max] in H. rewrite rescale_id in H.
  eapply ends_impl; [apply H; lia|]. intros r Hr. pose proof (cut_exact _ _ _ _ Hr) as V. rewrite <- sval_mul in V.
  destruct Hr as (Or & _ & Xr & _). split; [split; assumption|exact V].
Qed.

Lemma rem_zint x c t :
  zint x -> zint c -> sval c <> 0 -> Z.of_nat (2 * (len x + len c) + 4) <= BC_MAX_NUM ->
  ends err (fun r => zint r /\ sval r = Z.rem (sval x) (sval c)) (zbc_num_rem garbage G_interrupt x c t 0).
Proof.
  intros [Hx Xx] [Hc Xc] Nc Hf. apply sval_nonzero in Nc; [|exact Hc].
  eapply ends_impl; [apply rem_spec; [exact Hx|exact Hc|exact Nc|unfold rem_fits; rewrite Xc; lia]|].
  intros r (Or & Xr & Vr). rewrite Xx, Xc in *. change (p10 (0 + (0 + 0))) with 1 in Vr. change (p10 (0 + 0)) with 1 in Vr. change (p10 0) with 1 in Vr.
  split; [split; [exact Or|exact Xr]|]. rewrite Xr in Vr. change (p10 (Nat.max (0 + 0) 0)) with 1 in Vr. rewrite !Z.mul_1_r in Vr. exact Vr.
Qed.

(** A remainder is no longer than the divisor. *)
Lemma rem_len r c : zint r -> zint c -> sval c <> 0 -> (exists x, sval r = Z.rem x (sval c)) -> (len r <= len c)%nat.
Proof.
  intros Hr Hc Nc [x E]. apply zint_len; [exact Hr|]. rewrite E. pose proof (Z.rem_bound_abs x (sval c) Nc).
  pose proof (zint_bound c Hc). lia.
Qed.

Lemma halve_spec exp two t :
  integer exp -> len exp <> O -> integer two -> mant two = 2 -> len two = 1%nat -> Z.of_nat (2 * (len exp + 1) + 4) <= BC_MAX_NUM ->
  ends err (fun et => integer (fst et) /\ mant (fst et) = mant exp / 2 /\ (len (fst et) <= len exp)%nat /\
                      BC_NUM_ONE (snd et) = Z.odd (mant exp))
    (zbc_num_divmod garbage G_interrupt true exp two exp t 0).
Proof.
  intros He Ne Ht M2 L2 Hf. pose proof (integer_sval _ He) as Ve. pose proof (integer_sval _ Ht) as Vt.
  destruct He as (Oe & Xe & Se), Ht as (Ot & Xt & St). pose proof (mant_bounds exp (proj1 Oe)) as B.
  eapply ends_impl; [apply divmod_spec; auto; [lia|unfold rem_fits; rewrite Xt, L2; lia]|].
  intros [e r] [(O1 & M1 & X1 & S1) (O3 & X3 & V3)]. cbn [fst snd] in *. unfold mquot in *. rewrite Xe, Xt, M2, Ve, Vt, Se, St in *.
  change (p10 (0 + 0)) with 1 in *. change (p10 (0 + (0 + 0))) with 1 in *. change (p10 0) with 1 in *. rewrite !Z.mul_1_r in *.
  assert (Ie : integer e).
  { split; [exact O1|]. split; [exact X1|]. destruct (Z.eq_dec (mant exp / 2) 0) as [E|E]; [|apply S1; exact E].
    destruct (proj2 O1) as [[_ H]|(_ & H & _)]; [exact H|lia]. }
  split; [exact Ie|]. split; [exact M1|]. split.
  - apply natural_len; [apply integer_natural, Ie|]. rewrite M1. apply Z.div_lt_upper_bound; lia.
  - rewrite X3 in V3. change (p10 (Nat.max (0 + 0) 0)) with 1 in V3. rewrite Z.mul_1_r in V3.
    assert (Er : Z.rem (mant exp) 2 = mant exp mod 2) by (apply Z.rem_mod_nonneg; lia).
    pose proof (Z.mod_pos_bound (mant exp) 2 ltac:(lia)). rewrite ONE_iff by (try (split; assumption); lia).
    rewrite V3, Er, Zmod_odd. destruct (Z.odd (mant exp)); reflexivity.
Qed.

(** A product reduced modulo [c]. *)
Lemma mulmod_spec x y c t u :
  zint x -> zint y -> zint c -> sval c <> 0 -> (len x <= len c)%nat -> (len y <= len c)%nat -> Z.of_nat (6 * len c + 4) <= BC_MAX_NUM ->
  ends err (fun tr => zint (snd tr) /\ sval (snd tr) = Z.rem (sval x * sval y) (sval c) /\ (len (snd tr) <= len c)%nat)
    (let! t := zbc_num_mul garbage G_interrupt false x y t 0 in
     let! r := zbc_num_rem garbage G_interrupt t c u 0 in Ok (t, r)).
Proof.
  intros Hx Hy Hc Nc Lx Ly Hf. eapply ends_bind; [apply mul_zint; auto; lia|]. intros p [Hp Vp].
  assert (Lp : (len p <= len c + len c)%nat).
  { apply zint_len; [exact Hp|]. rewrite Vp, Z.abs_mul, p10_add. pose proof (zint_bound x Hx). pose proof (zint_bound y Hy).
    pose proof (p10_le _ _ Lx). pose proof (p10_le _ _ Ly). nia. }
  eapply ends_bind; [apply rem_zint; auto; lia|]. intros r [Hr Vr]. apply ends_ok. cbn [snd]. rewrite Vr, Vp.
  repeat split; try apply Hr. apply rem_len; auto. eauto.
Qed.

Lemma modexp_loop_spec fuel two c d base exp t :
  integer two -> mant two = 2 -> len two = 1%nat -> zint c -> sval c <> 0 -> Z.of_nat (6 * len c + 4) <= BC_MAX_NUM ->
  zint d -> zint base -> (len d <= len c)%nat -> (len base <= len c)%nat ->
  integer exp -> 2 * mant exp < 2 ^ Z.of_nat fuel -> (1 <= fuel)%nat -> Z.of_nat (2 * (len exp + 1) + 4) <= BC_MAX_NUM ->
  ends err (fun r => zint r /\ eqr (sval c) (sval r) (sval d * sval base ^ mant exp) /\
      (mant exp = 0 -> r = d) /\ (mant exp <> 0 -> Z.rem (sval r) (sval c) = sval r))
    (modexp_loop garbage G_interrupt fuel two c d base exp t).
Proof.
  intros H2 M2 L2 Hc Nc Hf. revert d base exp t; induction fuel as [|fuel IH]; intros d base exp t Hd Hb Ld Lb He Hk H1 Hfe; [lia|].
  cbn [modexp_loop]. destruct (Nat.eqb_spec (len exp) 0) as [E0|E0].
  { apply ends_ok. rewrite (mant_zero exp E0), Z.pow_0_r, Z.mul_1_r. split; [exact Hd|]. split; [reflexivity|]. split; [reflexivity|contradiction]. }
  destruct (ok_nonzero exp (proj1 He) E0) as (_ & Me & _). pose proof (Z.div_mod (mant exp) 2 ltac:(lia)) as Ed. rewrite Zmod_odd in Ed.
  set (e := mant exp) in *. set (h := e / 2) in *. assert (Hh : 0 <= h) by (apply Z.div_pos; lia).
  rewrite Nat2Z.inj_succ, Z.pow_succ_r in Hk by lia.
  assert (Hfuel : (1 <= fuel)%nat) by (destruct fuel; [change (2 ^ Z.of_nat 0) with 1 in Hk; lia|lia]).
  eapply ends_bind; [apply halve_spec; auto|]. intros [exp' t'] (He' & Me' & Le' & One). cbn [fst snd] in *. fold e in One, Me'. fold h in Me'. rewrite One.
  set (d' := if Z.odd e then Z.rem (sval d * sval base) (sval c) else sval d).
  eapply (ends_bind _ (fun dt => zint (fst dt) /\ sval (fst dt) = d' /\ (len (fst dt) <= len c)%nat)).
  { unfold d'. destruct (Z.odd e); [|apply ends_ok; auto]. pose proof (mulmod_spec d base c t' d Hd Hb Hc Nc Ld Lb Hf) as Hm.
    destruct (zbc_num_mul garbage G_interrupt false d base t' 0) as [p|x| |]; cbn [rbind] in *; try contradiction; [|exact Hm].
    destruct (zbc_num_rem garbage G_interrupt p c d 0) as [r|x| |]; cbn [rbind] in *; try contradiction; exact Hm. }
  intros [d1 t1] (Hd1 & Vd1 & Ld1). cbn [fst] in *.
  pose proof (mulmod_spec base base c t1 base Hb Hb Hc Nc Lb Lb Hf) as Hm.
  destruct (zbc_num_mul garbage G_interrupt false base base t1 0) as [p|x| |]; cbn [rbind] in *; try contradiction; [|exact Hm].
  destruct (zbc_num_rem garbage G_interrupt p c base 0) as [b1|x| |]; cbn [rbind] in *; try contradiction; [|exact Hm].
  destruct Hm as (Hb1 & Vb1 & Lb1). cbn [snd] in *.
  eapply ends_impl; [apply (IH d1 b1 exp' p); auto; rewrite ?Me'; destruct (Z.odd e); lia|]. intros r (Hr & Er & Ez & En). rewrite Me' in *.
  assert (E : eqr (sval c) (sval r) (sval d * sval base ^ e)).
  { red in Er. red. rewrite Er. fold (eqr (sval c) (sval d1 * sval b1 ^ h) (sval d * sval base ^ e)).
    transitivity (Z.rem (d' * (sval base * sval base) ^ h) (sval c)).
    - apply eqr_mul; [exact Nc|rewrite Vd1; reflexivity|]. apply eqr_pow; [exact Nc|exact Hh|]. rewrite Vb1. apply eqr_rem, Nc.
    - unfold d'. clear -Nc Hh Ed. destruct (Z.odd e); rewrite Ed; clear Ed.
      + transitivity (Z.rem (sval d * sval base * (sval base * sval base) ^ h) (sval c)).
        * apply eqr_mul; [exact Nc|apply eqr_rem, Nc|reflexivity].
        * f_equal. rewrite Z.pow_add_r, Z.pow_mul_r, Z.pow_2_r, Z.pow_1_r by lia. ring.
      + f_equal. rewrite Z.add_0_r, Z.pow_mul_r, Z.pow_2_r by lia. reflexivity. }
  split; [exact Hr|]. split; [exact E|]. split; [lia|]. intros _.
  destruct (Z.eq_dec h 0) as [Hh0|Hh0]; [|auto]. rewrite (Ez Hh0), Vd1. unfold d'.
  destruct (Z.odd e); [|lia]. apply eqr_rem, Nc.
Qed.
End Modexp.

Lemma pow10_16 n : p10 n <= 2 ^ Z.of_nat (4 * n).
Proof.
  unfold p10. rewrite Nat2Z.inj_mul, Z.pow_mul_r by lia. change (2 ^ Z.of_nat 4) with 16. apply Z.pow_le_mono_l. lia.
Qed.

(** C29. dc's modular exponentiation. For integers that are not too long, a
    nonnegative exponent and a modulus that is not zero, [zdc_num_modexp] ends
    inside its buffers, unless a ^C stops it, with [a ^ b] reduced modulo [c]
    (the remainder with the sign of [a ^ b]); the exponent zero gives one.
    A zero modulus, a fraction and a negative exponent are errors. *)
Theorem dc_modexp_correct (garbage : nat -> Z) (G_interrupt : nat -> bool) (a b c d : BcNum) :
  ok a -> ok b -> ok c ->
  (sval c = 0 -> zdc_num_modexp garbage G_interrupt a b c d = Die divide_by_zero) /\
  (sval c <> 0 -> (rdx a + rdx b + rdx c <> 0)%nat -> zdc_num_modexp garbage G_interrupt a b c d = Die not_an_integer) /\
  (sval c <> 0 -> (rdx a + rdx b + rdx c = 0)%nat -> sval b < 0 -> zdc_num_modexp garbage G_interrupt a b c d = Die negative_number) /\
  (sval c <> 0 -> (rdx a + rdx b + rdx c = 0)%nat -> 0 <= sval b -> Z.of_nat (2 * (len a + len b + 3 * len c) + 6) <= BC_MAX_NUM ->
   ends (fun e => e = BC_STATUS_FAILURE /\ exists i, G_interrupt i = true)
     (fun r => ok r /\ rdx r = O /\ sval r = if sval b =? 0 then 1 else Z.rem (sval a ^ sval b) (sval c))
     (zdc_num_modexp garbage G_interrupt a b c d)).
Proof.
  intros Ha Hb Hc. unfold zdc_num_modexp. split.
  { intros E. assert (Ec : len c = O) by (apply ok_zero; [exact Hc|]; unfold sval in E; destruct (neg c); lia). rewrite Ec. reflexivity. }
  destruct (Nat.eqb_spec (len c) 0) as [Ec|Ec].
  { assert (E : sval c = 0) by (unfold sval; rewrite (mant_zero c Ec); destruct (neg c); reflexivity). rewrite E. repeat split; intros; lia. }
  destruct (Nat.eqb_spec (rdx a) 0) as [Xa|Xa], (Nat.eqb_spec (rdx b) 0) as [Xb|Xb], (Nat.eqb_spec (rdx c) 0) as [Xc|Xc];
    cbn [andb negb]; try (repeat split; intros; auto; lia).
  split; [intros; lia|]. pose proof (mant_bounds b (proj1 Hb)) as Bb.
  destruct (neg b) eqn:Nb.
  { split; [reflexivity|]. intros _ _ H. unfold sval in H. rewrite Nb in H. assert (E : mant b = 0) by lia. apply (ok_zero b Hb) in E.
    destruct (proj2 Hb) as [[_ H']|(_ & H' & _)]; [congruence|rewrite (mant_zero b E) in H'; lia]. }
  split; [intros; unfold sval in *; rewrite Nb in *; lia|]. intros Nc _ _ Hf. cbv zeta.
  eapply ends_bind; [apply one_spec; unfold cap; cbn [num]; rewrite length_xmalloc; lia|]. intros one (_ & _ & X1 & L1 & N1 & C1).
  unfold cap in C1. cbn [num] in C1. rewrite length_xmalloc in C1.
  apply ends_store1; [lia|]. set (two := set_num one _).
  assert (Dt : digs two = [2]).
  { unfold digs, two, set_num; cbn [num len]. rewrite L1. destruct (num one) as [|x l]; [discriminate|reflexivity]. }
  assert (M2 : mant two = 2) by (unfold mant; rewrite Dt; reflexivity).
  assert (I2 : integer two).
  { apply integer_of; auto; [|lia|rewrite M2; change (len two) with (len one); rewrite L1; vm_compute; discriminate].
    split; [unfold cap, two, set_num; cbn [num len]; rewrite length_upd; lia|rewrite Dt; repeat constructor; lia]. }
  eapply ends_bind; [apply one_spec; pose proof (expand_cap garbage d (len c)); lia|]. intros d1 (Od & Md & Xd & Ld & Nd & _).
  assert (Vd : sval d1 = 1) by (unfold sval; rewrite Nd; exact Md).
  eapply ends_bind; [apply rem_zint; [split; assumption|split; assumption|exact Nc|lia]|]. intros base [Hbase Vbase].
  eapply ends_bind; [apply copy_spec, Hb|]. intros exp [Hexp _]. pose proof (same_ok _ _ Hexp Hb) as Oe. pose proof (same_mant _ _ Hexp) as Me.
  destruct Hexp as (_ & _ & Xe & Le & Ne).
  assert (Zc : zint c) by (split; assumption).
  eapply ends_impl; [apply (modexp_loop_spec garbage G_interrupt (S (4 * len b)) two c d1 base exp); auto; try lia|].
  - split; assumption.
  - apply rem_len; auto. eauto.
  - split; [exact Oe|split; congruence].
  - rewrite Me, Nat2Z.inj_succ, Z.pow_succ_r by lia. pose proof (pow10_16 (len b)). lia.
  - intros r ([Or Xr] & Er & Ez & En). split; [exact Or|]. split; [exact Xr|]. rewrite Me, Vd, Z.mul_1_l in *.
    assert (Vb : sval b = mant b) by (unfold sval; rewrite Nb; reflexivity). rewrite Vb.
    destruct (Z.eqb_spec (mant b) 0) as [E|E]; [rewrite (Ez E); exact Vd|]. rewrite <- (En E). red in Er. rewrite Er.
    apply eqr_pow; [exact Nc|lia|]. rewrite Vbase. apply eqr_rem, Nc.
Qed.

(** (-12345) ^ 77 modulo 99991 *)
Definition n_12345 : BcNum := mkNum [5; 4; 3; 2; 1] 0 5 true.
Definition n77 : BcNum := mkNum [7; 7] 0 2 false.
Definition n99991 : BcNum := mkNum [1; 9; 9; 9; 9] 0 5 false.

Lemma dc_modexp_correct_witness :
  ends (fun e => e = BC_STATUS_FAILURE /\ exists i : nat, false = true)
    (fun r => ok r /\ rdx r = O /\ sval r = Z.rem ((-12345) ^ 77) 99991)
    (zdc_num_modexp (fun _ => 7) (fun _ => false) n_12345 n77 n99991 (mkNum [] 0 0 false)).
Proof.
  destruct (dc_modexp_correct (fun _ => 7) (fun _ => false) n_12345 n77 n99991 (mkNum [] 0 0 false)
    ltac:(apply okb_ok; reflexivity) ltac:(apply okb_ok; reflexivity) ltac:(apply okb_ok; reflexivity)) as (_ & _ & _ & H).
  apply H; vm_compute; [discriminate|reflexivity|discriminate|discriminate].
Defined.
End BcP.
