(* ===== verification/Dname.v ===== *)
(** * Domain names in DHCP options

    networking/udhcp/domain_codec.c: [dname_dec] expands a list of domain
    names that are compressed as in RFC 1035, [dname_enc] writes a name in
    that format. All accesses to the arrays are checked. *)

From Stdlib Require Import Ascii String ZArith List Lia Bool.
From S2P Require Import Prelude Ctype Words Mem.
Import ListNotations.
Local Open Scope Z_scope.
Local Open Scope res_scope.

Module Dname.

(** ** Decoding *)

Definition NS_MAXDNAME : nat := 1025.
Definition NS_MAXCDNAME : nat := 255.
Definition NS_MAXLABEL : nat := 63.
Definition NS_MAXDNSRCH : nat := 6.
Definition NS_CMPRSFLGS : Z := 192.

(** The functions return a null pointer for an error; nothing exits. *)
Inductive no_error := .
Definition result := res no_error.

(** The local variables of [dname_dec]: [ret] is the allocated array, [end_]
    the offset of [end] in it. *)
Record dec := mkDec { ret : list Z; end_ : nat; len : nat; crtpos : nat; retpos : nat; depth : nat }.

Section Decode.
Variable garbage : nat -> Z.
Variable cstr : list Z.

Definition clen : nat := length cstr.

(** [xrealloc(p, n)] of an array that grows. *)
Definition xrealloc (p : list Z) (n : nat) : list Z := p ++ map garbage (seq 0 (n - length p)).

(** The pointer at [c0], [c1]. *)
Definition jump (c0 c1 : Z) : nat := Z.to_nat (Z.land (Z.lor (Z.shiftl c0 8) c1) 16383).

(** The item at [crtpos]: a pointer, a label or a NUL; [None] is [goto error]. *)
Definition dec_item (s : dec) : result (option dec) :=
  let! c := load1 cstr (crtpos s) in
  if Z.land c NS_CMPRSFLGS =? NS_CMPRSFLGS then
    if (clen <? crtpos s + 2)%nat then Ok None else
    let! c1 := load1 cstr (crtpos s + 1) in
    let retpos := if (retpos s =? 0)%nat then (crtpos s + 2)%nat else retpos s in
    Ok (Some (mkDec (ret s) (end_ s) (len s) (jump c c1) retpos (depth s + 1)))
  else if negb (c =? 0) then
    let n := Z.to_nat c in
    if (clen <? crtpos s + n + 1)%nat then Ok None else
    let! label := load cstr (crtpos s + 1) n in
    let! r := store (xrealloc (ret s) (len s + n + 1)) (len s) label in
    let e := (len s + n)%nat in
    let! r := store1 r e (chr ".") in
    Ok (Some (mkDec r e (len s + (n + 1)) (crtpos s + (n + 1)) (retpos s) (depth s)))
  else
    let top := (retpos s =? 0)%nat in
    let pos := if top then (crtpos s + 1)%nat else retpos s in
    let d := if top then depth s else O in
    let! r := (if negb (len s =? 0)%nat then store1 (ret s) (len s - 1) (chr " ") else Ok (ret s)) in
    Ok (Some (mkDec r (end_ s) (len s) pos O d)).

(** Too many jumps, or too long a result. *)
Definition too_much (s : dec) : bool :=
  (NS_MAXDNSRCH <? depth s)%nat || (NS_MAXDNAME * NS_MAXDNSRCH <? len s)%nat.

Definition dec_step (s : dec) : result (option dec) :=
  let! o := dec_item s in
  Ok (match o with Some s => if too_much s then None else Some s | None => None end).

Fixpoint dec_loop (fuel : nat) (s : dec) : result (option dec) :=
  if (crtpos s <? clen)%nat then
    match fuel with
    | O => Diverge
    | S fuel =>
        let! s := dec_step s in
        match s with None => Ok None | Some s => dec_loop fuel s end
    end
  else Ok (Some s).

(** Enough fuel: at most [NS_MAXDNSRCH] jumps from each position. *)
Definition dec_fuel : nat := ((clen + 1) * (7 * (clen + 2)))%nat.

(** The string before the final NUL, or [None] for a null pointer. *)
Definition dname_dec (pre : list Z) : result (option (list Z)) :=
  let! s := dec_loop dec_fuel (mkDec (pre ++ [0]) 0 (length pre) 0 0 0) in
  match s with
  | None => Ok None
  | Some s =>
      if (end_ s =? 0)%nat then Ok None else
      let! r := store1 (ret s) (end_ s) 0 in
      Ok (Some (firstn (end_ s) r))
  end.
End Decode.

(** ** Encoding *)

Definition tolower (c : Z) : Z := if (chr "A" <=? c) && (c <=? chr "Z") then c + 32 else c.

(** The loop over [src]; [lenptr] and [dst] are offsets in [r]. *)
Fixpoint convert_loop (src : list Z) (r : list Z) (lenptr dst : nat) : result (option (list Z * nat)) :=
  let end_of_label (r : list Z) (last : bool) (next : list Z -> result (option (list Z * nat))) :=
    let len := (dst - lenptr - 1)%nat in
    if (NS_MAXLABEL <? len)%nat || (len =? 0)%nat then Ok None else
    let! r := store1 r lenptr (Z.of_nat len) in
    if last then Ok (Some (r, dst)) else next r in
  match src with
  | [] => end_of_label r true (fun _ => Ok None)
  | c :: rest =>
      if c =? chr "." then
        end_of_label r (match rest with [] => true | _ => false end) (fun r => convert_loop rest r dst (dst + 1))
      else
        let! r := store1 r dst (tolower c) in
        convert_loop rest r lenptr (dst + 1)
  end.

Definition convert_dname (src : list Z) : result (option (list Z)) :=
  let! o := convert_loop src (repeat 0 (length src + 2)) 0 1 in
  match o with
  | None => Ok None
  | Some (r, dst) =>
      let retlen := (dst + 1)%nat in
      if (NS_MAXCDNAME <? retlen)%nat then Ok None else
      let! d := load r 0 retlen in Ok (Some d)
  end.

(** The bytes of the returned array that [retlen] counts. *)
Definition dname_enc (src : list Z) : result (option (list Z)) := convert_dname src.

(** ** Memory safety and termination *)

(** The characters written so far. *)
Definition out (s : dec) : list Z := firstn (len s) (ret s).

Definition wf (cstr : list Z) (s : dec) : Prop :=
  (end_ s = O /\ length (ret s) = (len s + 1)%nat \/ end_ s = (len s - 1)%nat /\ (2 <= len s)%nat /\ length (ret s) = len s) /\
  (retpos s = O -> depth s = O) /\ (retpos s <= length cstr)%nat /\ (depth s <= NS_MAXDNSRCH)%nat.

(** What is left to do: positions of the list, jumps, bytes. *)
Definition todo (cstr : list Z) (s : dec) : nat :=
  let n := length cstr in let k := (7 * (n + 2))%nat in
  (if (retpos s =? 0)%nat then (n + 1 - crtpos s) * k
   else (n + 1 - retpos s) * k + (NS_MAXDNSRCH - depth s) * (n + 1) + (n - crtpos s) + 1)%nat.

(** Appending a label and its dot writes all the bytes that were added. *)
Lemma label_written garbage (r label : list Z) n l :
  length label = l -> (n <= length r <= n + 1)%nat -> (1 <= l)%nat ->
  (let! r := store (E := no_error) (xrealloc garbage r (n + l + 1)) n label in store1 r (n + l) (chr ".")) =
  Ok (firstn n r ++ label ++ [chr "."]).
Proof.
  intros <- Hr Hl. set (p := xrealloc garbage r (n + length label + 1)).
  assert (Lp : length p = (n + length label + 1)%nat) by (unfold p, xrealloc; autorewrite with len; lia).
  assert (Fp : firstn n p = firstn n r) by (unfold p, xrealloc; rewrite firstn_app; replace (n - length r)%nat with O by lia; apply app_nil_r).
  rewrite store_ok by lia. cbn [rbind]. unfold store1. rewrite length_blit by lia.
  destruct (Nat.ltb_spec (n + length label) (length p)); [|lia]. f_equal.
  assert (Lb : length (blit p n label) = length p) by (apply length_blit; lia).
  rewrite <- (firstn_all (upd (blit p n label) (n + length label) (chr "."))), length_upd, Lb, Lp, Nat.add_1_r.
  rewrite firstn_upd, app_assoc by lia. f_equal. rewrite <- Fp. unfold blit.
  rewrite app_assoc, firstn_app.
  assert (Lf : length (firstn n p ++ label) = (n + length label)%nat) by (rewrite length_app, length_firstn; lia).
  rewrite <- Lf at 1 2. rewrite firstn_all, Nat.sub_diag. apply app_nil_r.
Qed.

(** One item keeps the invariant, comes closer to the end, and does not
    depend on the contents of new memory. *)
Lemma dec_item_spec cstr s :
  bytes cstr -> wf cstr s -> (crtpos s < length cstr)%nat ->
  exists o, (forall garbage, dec_item garbage cstr s = Ok o) /\
    forall s', o = Some s' -> (depth s' <= NS_MAXDNSRCH)%nat -> wf cstr s' /\ (todo cstr s' < todo cstr s)%nat.
Proof.
  intros Hb (Hr & Htop & Hrp & Hd) Hc. unfold dec_item. rewrite (load1_ok _ _ 0) by exact Hc. cbn [rbind].
  set (c := nth (crtpos s) cstr 0). assert (Bc : 0 <= c < 256) by (apply (proj1 (Forall_forall _ _) Hb), nth_In, Hc).
  unfold clen. set (n := length cstr) in *.
  destruct (Z.land c NS_CMPRSFLGS =? NS_CMPRSFLGS) eqn:Ep; [|destruct (Z.eqb_spec c 0) as [Ez|Ez]; cbn [negb]].
  - destruct (Nat.ltb_spec n (crtpos s + 2)); [exists None; split; [reflexivity|discriminate]|].
    rewrite (load1_ok _ _ 0) by lia. cbn [rbind]. eexists. split; [reflexivity|].
    intros s' E Hd'. injection E as <-. cbn [depth] in Hd'. unfold wf, todo; cbn [end_ len ret retpos depth crtpos]. fold n.
    unfold NS_MAXDNSRCH in *. destruct (Nat.eqb_spec (retpos s) 0) as [E0|E0].
    + rewrite (proj2 (Nat.eqb_neq (crtpos s + 2) 0)) by lia. specialize (Htop E0). rewrite Htop. repeat split; auto; try lia; nia.
    + rewrite (proj2 (Nat.eqb_neq (retpos s) 0)) by exact E0. repeat split; auto; try lia; nia.
  - assert (Hst : exists r, (if negb (len s =? 0)%nat then store1 (ret s) (len s - 1) (chr " ") else Ok (E := no_error) (ret s)) = Ok r /\ length r = length (ret s)).
    { destruct (Nat.eqb_spec (len s) 0); cbn [negb]; [eauto|]. unfold store1.
      destruct (Nat.ltb_spec (len s - 1) (length (ret s))); [|lia]. eexists; split; [reflexivity|apply length_upd]. }
    destruct Hst as (r & -> & Lr). cbn [rbind]. eexists. split; [reflexivity|].
    intros s' E Hd'. injection E as <-. unfold wf, todo; cbn [end_ len ret retpos depth crtpos Nat.eqb]. rewrite Lr. fold n.
    destruct (Nat.eqb_spec (retpos s) 0) as [E0|E0]; repeat split; auto; try lia; nia.
  - set (l := Z.to_nat c). assert (Hl : (1 <= l)%nat) by lia.
    destruct (Nat.ltb_spec n (crtpos s + l + 1)); [exists None; split; [reflexivity|discriminate]|].
    rewrite load_ok by lia. set (label := slice _ _ _). assert (Ll : length label = l) by (unfold label; rewrite length_slice; lia).
    set (r' := firstn (len s) (ret s) ++ label ++ [chr "."]).
    exists (Some (mkDec r' (len s + l) (len s + (l + 1)) (crtpos s + (l + 1)) (retpos s) (depth s))). split.
    + intros garbage. cbn [rbind]. pose proof (label_written garbage (ret s) label (len s) l Ll ltac:(lia) Hl) as Ew.
      destruct (store (xrealloc garbage (ret s) (len s + l + 1)) (len s) label) as [r|e| |]; cbn [rbind] in *; try discriminate.
      rewrite Ew. reflexivity.
    + intros s' E Hd'. injection E as <-. unfold wf, todo; cbn [end_ len ret retpos depth crtpos]. fold n.
      assert (Lr : length r' = (len s + (l + 1))%nat) by (unfold r'; rewrite !length_app, length_firstn, Ll; cbn [length]; lia).
      rewrite Lr. split; [repeat split; auto; lia|]. destruct (Nat.eqb_spec (retpos s) 0); nia.
Qed.

Lemma dec_step_spec cstr s :
  bytes cstr -> wf cstr s -> (crtpos s < length cstr)%nat ->
  exists o, (forall garbage, dec_step garbage cstr s = Ok o) /\
    forall s', o = Some s' -> wf cstr s' /\ (todo cstr s' < todo cstr s)%nat /\ (len s' <= NS_MAXDNAME * NS_MAXDNSRCH)%nat.
Proof.
  intros Hb Hw Hc. destruct (dec_item_spec cstr s Hb Hw Hc) as (o & Eo & Ho). unfold dec_step.
  eexists. split; [intros garbage; rewrite Eo; reflexivity|]. destruct o as [s1|]; [|discriminate].
  unfold too_much. destruct (Nat.ltb_spec NS_MAXDNSRCH (depth s1)); [discriminate|]. cbn [orb].
  destruct (Nat.ltb_spec (NS_MAXDNAME * NS_MAXDNSRCH) (len s1)); [discriminate|]. intros s' E. injection E as <-.
  destruct (Ho s1 eq_refl ltac:(assumption)). auto.
Qed.

Lemma dec_loop_spec cstr fuel s :
  bytes cstr -> wf cstr s -> (todo cstr s <= fuel)%nat ->
  exists o, (forall garbage, dec_loop garbage cstr fuel s = Ok o) /\
    forall s', o = Some s' -> wf cstr s' /\ (s' = s \/ (len s' <= NS_MAXDNAME * NS_MAXDNSRCH)%nat).
Proof.
  intros Hb. revert s; induction fuel as [|fuel IH]; intros s Hw Ht; cbn [dec_loop]; unfold clen;
    (destruct (Nat.ltb_spec (crtpos s) (length cstr)) as [Hc|Hc]; [|eexists; split; [reflexivity|]; intros s' E; injection E as <-; auto]).
  - exfalso. unfold todo in Ht. cbv zeta in Ht. destruct (Nat.eqb_spec (retpos s) 0). 2:{ nia. }
    pose proof (Nat.mul_le_mono 1 (length cstr + 1 - crtpos s) 1 (7 * (length cstr + 2)) ltac:(lia) ltac:(lia)). lia.
  - destruct (dec_step_spec cstr s Hb Hw Hc) as (o & Eo & Ho). destruct o as [s1|].
    + destruct (Ho s1 eq_refl) as (Hw1 & Ht1 & Hl1). destruct (IH s1 Hw1 ltac:(lia)) as (o & Eo1 & Ho1).
      exists o. split; [intros garbage; rewrite Eo; cbn [rbind]; apply Eo1|].
      intros s' E. destruct (Ho1 s' E) as [Hw' [->|Hl']]; auto.
    + exists None. split; [intros garbage; rewrite Eo; reflexivity|discriminate].
Qed.

Lemma wf_start cstr pre : wf cstr (mkDec (pre ++ [0]) 0 (length pre) 0 0 0).
Proof. unfold wf; cbn [end_ len ret retpos depth]. rewrite length_app. cbn [length]. repeat split; lia. Qed.

(** C30. Decoding is memory safe. Whatever bytes arrive in an option, with
    pointers to anywhere and loops among them, [dname_dec] ends, reads only
    the option and writes only the memory it allocated; its result does not
    depend on what new memory contained; and the string it returns is shorter
    than the limit of [NS_MAXDNAME * NS_MAXDNSRCH] characters. *)
Theorem dname_dec_safe (cstr pre : list Z) :
  bytes cstr ->
  exists o, (forall garbage, dname_dec garbage cstr pre = Ok o) /\
    forall d, o = Some d -> (length d < NS_MAXDNAME * NS_MAXDNSRCH)%nat.
Proof.
  intros Hb. destruct (dec_loop_spec cstr (dec_fuel cstr) (mkDec (pre ++ [0]) 0 (length pre) 0 0 0) Hb (wf_start cstr pre)) as (o & Eo & Ho).
  { unfold todo, dec_fuel, clen; cbn [retpos crtpos Nat.eqb]. rewrite Nat.sub_0_r. lia. }
  unfold dname_dec. destruct o as [s|]; [|exists None; split; [intros garbage; rewrite Eo; reflexivity|discriminate]].
  destruct (Ho s eq_refl) as [(Hr & _) Hl].
  destruct (Nat.eqb_spec (end_ s) 0) as [E0|E0].
  - exists None. split; [intros garbage; rewrite Eo; cbn [rbind]; rewrite E0; reflexivity|discriminate].
  - destruct Hl as [->|Hl]; [cbn in E0; lia|].
    eexists. split; [intros garbage; rewrite Eo; cbn [rbind]|].
    + rewrite (proj2 (Nat.eqb_neq _ _) E0). unfold store1. destruct (Nat.ltb_spec (end_ s) (length (ret s))); [reflexivity|lia].
    + intros d E. injection E as <-. rewrite length_firstn, length_upd. lia.
Qed.

(** A pointer that points to itself. *)
Lemma dname_dec_safe_witness :
  exists o, (forall garbage, dname_dec garbage [3; 99; 111; 109; 192; 0] (bytes_of "search="%string) = Ok o) /\
    forall d, o = Some d -> (length d < NS_MAXDNAME * NS_MAXDNSRCH)%nat.
Proof. apply (dname_dec_safe [3; 99; 111; 109; 192; 0]). apply is_bytes_ok. reflexivity. Defined.

(** ** Decoding is RFC 1035 *)

(** The name at [p]: its labels, the number of pointers on the way to them,
    and where the list goes on. *)
Inductive name_at (cstr : list Z) : nat -> nat -> list (list Z) -> nat -> Prop :=
| name_end p : nth_error cstr p = Some 0 -> name_at cstr p 0 [] (p + 1)
| name_label p c j ls next :
    nth_error cstr p = Some c -> 0 < c < 192 -> (p + Z.to_nat c + 1 <= length cstr)%nat ->
    name_at cstr (p + (Z.to_nat c + 1)) j ls next ->
    name_at cstr p j (slice (p + 1) (Z.to_nat c) cstr :: ls) next
| name_ptr p c0 c1 j ls next :
    nth_error cstr p = Some c0 -> nth_error cstr (p + 1) = Some c1 -> 192 <= c0 < 256 -> 0 <= c1 < 256 ->
    name_at cstr (Z.to_nat ((c0 - 192) * 256 + c1)) j ls next ->
    name_at cstr p (S j) ls (p + 2).

(** The list of names from [p] to the end. *)
Inductive names_at (cstr : list Z) : nat -> list (list (list Z)) -> Prop :=
| names_end : names_at cstr (length cstr) []
| names_name p j ls next ns :
    name_at cstr p j ls next -> (j <= NS_MAXDNSRCH)%nat -> ls <> [] -> names_at cstr next ns -> names_at cstr p (ls :: ns).

(** Labels with dots between them, names with spaces between them. *)
Fixpoint sep_by (c : Z) (l : list (list Z)) : list Z :=
  match l with [] => [] | [x] => x | x :: l => x ++ c :: sep_by c l end.
Definition name_text (ls : list (list Z)) : list Z := sep_by (chr ".") ls.
Definition names_text (ns : list (list (list Z))) : list Z := sep_by (chr " ") (map name_text ns).

Lemma pointer_flag c : 0 <= c < 256 -> (Z.land c NS_CMPRSFLGS =? NS_CMPRSFLGS) = (192 <=? c).
Proof.
  intros Hc. apply eqb_prop, (all_bytes (fun c => Bool.eqb (Z.land c NS_CMPRSFLGS =? NS_CMPRSFLGS) (192 <=? c))); [reflexivity|exact Hc].
Qed.

Lemma jump_eq c0 c1 : 192 <= c0 < 256 -> 0 <= c1 < 256 -> jump c0 c1 = Z.to_nat ((c0 - 192) * 256 + c1).
Proof.
  intros H0 H1. unfold jump. f_equal. rewrite lor_shiftl by (try lia; red; lia). change 16383 with (Z.ones 14). rewrite Z.land_ones by lia.
  symmetry. apply Z.mod_unique_pos with 3; change (2 ^ 8) with 256; lia.
Qed.

Section Names.
Context (garbage : nat -> Z) (cstr : list Z).

Lemma item_ptr s c0 c1 :
  nth_error cstr (crtpos s) = Some c0 -> nth_error cstr (crtpos s + 1) = Some c1 -> 192 <= c0 < 256 -> 0 <= c1 < 256 ->
  dec_item garbage cstr s = Ok (Some (mkDec (ret s) (end_ s) (len s) (Z.to_nat ((c0 - 192) * 256 + c1))
    (if (retpos s =? 0)%nat then (crtpos s + 2)%nat else retpos s) (depth s + 1))).
Proof.
  intros E0 E1 H0 H1. assert (L : (crtpos s + 1 < length cstr)%nat) by (apply nth_error_Some; congruence).
  unfold dec_item, load1. rewrite E0. cbn [rbind]. rewrite pointer_flag by lia. destruct (Z.leb_spec 192 c0); [|lia].
  unfold clen. destruct (Nat.ltb_spec (length cstr) (crtpos s + 2)); [lia|]. rewrite E1. cbn [rbind]. rewrite jump_eq by assumption. reflexivity.
Qed.

Lemma item_label s c :
  nth_error cstr (crtpos s) = Some c -> 0 < c < 192 -> (crtpos s + Z.to_nat c + 1 <= length cstr)%nat -> wf cstr s ->
  dec_item garbage cstr s = Ok (Some (mkDec (out s ++ slice (crtpos s + 1) (Z.to_nat c) cstr ++ [chr "."]) (len s + Z.to_nat c)
    (len s + (Z.to_nat c + 1)) (crtpos s + (Z.to_nat c + 1)) (retpos s) (depth s))).
Proof.
  intros E0 H0 L (Hr & _). unfold dec_item, load1 at 1. rewrite E0. cbn [rbind]. rewrite pointer_flag by lia.
  destruct (Z.leb_spec 192 c); [lia|]. destruct (Z.eqb_spec c 0); [lia|]. cbn [negb].
  unfold clen. destruct (Nat.ltb_spec (length cstr) (crtpos s + Z.to_nat c + 1)); [lia|]. rewrite load_ok by lia. cbn [rbind].
  set (label := slice _ _ _). pose proof (label_written garbage (ret s) label (len s) (Z.to_nat c)) as Ew.
  specialize (Ew ltac:(unfold label; rewrite length_slice; lia) ltac:(lia) ltac:(lia)).
  destruct (store (xrealloc garbage (ret s) (len s + Z.to_nat c + 1)) (len s) label) as [r|e| |]; cbn [rbind] in *; try discriminate.
  rewrite Ew. reflexivity.
Qed.

Lemma item_end s :
  nth_error cstr (crtpos s) = Some 0 -> wf cstr s -> (0 < len s)%nat ->
  dec_item garbage cstr s = Ok (Some (mkDec (upd (ret s) (len s - 1) (chr " ")) (end_ s) (len s)
    (if (retpos s =? 0)%nat then (crtpos s + 1)%nat else retpos s) 0 0)).
Proof.
  intros E0 (Hr & Hz & _) Hl. unfold dec_item, load1. rewrite E0. cbn [rbind]. change (Z.land 0 NS_CMPRSFLGS =? NS_CMPRSFLGS) with false.
  cbn [Z.eqb negb]. destruct (Nat.eqb_spec (len s) 0); [lia|]. cbn [negb]. unfold store1.
  destruct (Nat.ltb_spec (len s - 1) (length (ret s))); [|lia]. cbn [rbind]. do 3 f_equal.
  destruct (Nat.eqb_spec (retpos s) 0); auto.
Qed.

(** Iterations that find no error. *)
Inductive runs : dec -> dec -> Prop :=
| runs_refl s : runs s s
| runs_step s s1 s' : (crtpos s < length cstr)%nat -> dec_item garbage cstr s = Ok (Some s1) -> too_much s1 = false -> runs s1 s' -> runs s s'.

Lemma runs_trans s s1 s' : runs s s1 -> runs s1 s' -> runs s s'.
Proof. induction 1; eauto using runs. Qed.

Lemma runs_loop s s' fuel :
  bytes cstr -> runs s s' -> wf cstr s -> (todo cstr s <= fuel)%nat ->
  exists fuel', wf cstr s' /\ dec_loop garbage cstr fuel s = dec_loop garbage cstr fuel' s'.
Proof.
  intros Hb Hr. revert fuel; induction Hr as [s|s s1 s' Hc E Ht Hr IH]; intros fuel Hw Hf; [eauto|].
  destruct (dec_step_spec cstr s Hb Hw Hc) as (o & Eo & Ho). specialize (Eo garbage).
  assert (Es : dec_step garbage cstr s = Ok (Some s1)) by (unfold dec_step; rewrite E; cbn [rbind]; rewrite Ht; reflexivity).
  rewrite Es in Eo. injection Eo as <-. destruct (Ho s1 eq_refl) as (Hw1 & Ht1 & _).
  destruct fuel as [|fuel]; [lia|]. destruct (IH fuel Hw1 ltac:(lia)) as (f' & Hw' & E').
  exists f'. split; [exact Hw'|]. cbn [dec_loop]. unfold clen. destruct (Nat.ltb_spec (crtpos s) (length cstr)); [|lia].
  rewrite Es. cbn [rbind]. exact E'.
Qed.

Definition dotted (ls : list (list Z)) : list Z := concat (map (fun l => l ++ [chr "."]) ls).

Lemma firstn_upd_in {A} n (l : list A) i v : firstn n (upd l i v) = upd (firstn n l) i v.
Proof.
  revert n i; induction l as [|x l IH]; intros [|n] [|i]; cbn [upd firstn]; try reflexivity. rewrite IH. reflexivity.
Qed.

Lemma upd_app_r {A} (a b : list A) k v : upd (a ++ b) (length a + k) v = a ++ upd b k v.
Proof. induction a as [|x a IH]; cbn [app length Nat.add upd]; [reflexivity|]. rewrite IH. reflexivity. Qed.

Lemma item_wf s s1 :
  bytes cstr -> wf cstr s -> (crtpos s < length cstr)%nat -> dec_item garbage cstr s = Ok (Some s1) -> too_much s1 = false -> wf cstr s1.
Proof.
  intros Hb Hw Hc E Ht. destruct (dec_item_spec cstr s Hb Hw Hc) as (o & Eo & Ho). rewrite Eo in E. injection E as ->.
  apply (Ho s1 eq_refl). unfold too_much in Ht. apply orb_false_iff in Ht as [Ht _]. apply Nat.ltb_ge in Ht. exact Ht.
Qed.

Lemma little s : (depth s <= NS_MAXDNSRCH)%nat -> (len s <= NS_MAXDNAME * NS_MAXDNSRCH)%nat -> too_much s = false.
Proof. intros H1 H2. apply orb_false_iff. split; apply Nat.ltb_ge; assumption. Qed.

Lemma length_out s : wf cstr s -> length (out s) = len s.
Proof. intros (H & _). unfold out. rewrite length_firstn. lia. Qed.

(** A name is expanded, and the list goes on behind it. *)
Lemma name_runs p j ls next :
  bytes cstr -> name_at cstr p j ls next -> forall s, wf cstr s -> crtpos s = p -> (depth s + j <= NS_MAXDNSRCH)%nat ->
  (0 < len s + length (dotted ls) <= NS_MAXDNAME * NS_MAXDNSRCH)%nat ->
  exists s', runs s s' /\ wf cstr s' /\ crtpos s' = (if (retpos s =? 0)%nat then next else retpos s) /\ retpos s' = O /\
    len s' = (len s + length (dotted ls))%nat /\ out s' = upd (out s ++ dotted ls) (len s' - 1) (chr " ") /\
    (ls <> [] \/ end_ s <> O -> end_ s' <> O).
Proof.
  intros Hb H. induction H as [p E0|p c j ls next E0 Hc L _ IH|p c0 c1 j ls next E0 E1 H0 H1 _ IH]; intros s Hw Hp Hj Hl; subst p.
  - assert (Hlt : (crtpos s < length cstr)%nat) by (apply nth_error_Some; congruence).
    cbn [dotted map concat length] in *. rewrite Nat.add_0_r in *. pose proof (item_end s E0 Hw ltac:(lia)) as Ei.
    assert (Ht : too_much (mkDec (upd (ret s) (len s - 1) (chr " ")) (end_ s) (len s) (if (retpos s =? 0)%nat then (crtpos s + 1)%nat else retpos s) 0 0) = false)
      by (apply little; cbn [depth len]; lia).
    eexists. split; [eapply runs_step; [exact Hlt|exact Ei|exact Ht|apply runs_refl]|]. split; [eapply item_wf; eauto|].
    unfold out at 1; cbn [crtpos retpos len ret end_]. rewrite firstn_upd_in, app_nil_r. repeat split; auto. intros [H|H]; [contradiction|exact H].
  - assert (Hlt : (crtpos s < length cstr)%nat) by (apply nth_error_Some; congruence).
    pose proof (item_label s c E0 Hc L Hw) as Ei. set (l := slice (crtpos s + 1) (Z.to_nat c) cstr) in *.
    assert (Ll : length l = Z.to_nat c) by (unfold l; rewrite length_slice; lia).
    assert (Ed : length (dotted (l :: ls)) = (Z.to_nat c + 1 + length (dotted ls))%nat).
    { unfold dotted. cbn [map concat]. rewrite !length_app, Ll. cbn [length]. lia. }
    match type of Ei with _ = Ok (Some ?x) => set (s1 := x) in * end.
    assert (Ht : too_much s1 = false) by (apply little; cbn [s1 depth len]; lia).
    pose proof (item_wf s s1 Hb Hw Hlt Ei Ht) as Hw1.
    destruct (IH s1 Hw1 eq_refl ltac:(cbn [s1 depth]; lia) ltac:(cbn [s1 len]; lia)) as (s' & Hr & Hw' & Hc' & Hrp & Hl' & Ho & He).
    exists s'. split; [eapply runs_step; eauto|]. cbn [s1 retpos len] in Hc', Hl'.
    assert (Eo : out s1 = out s ++ l ++ [chr "."]).
    { unfold out at 1, s1; cbn [len ret]. apply firstn_all2. rewrite !length_app, length_out, Ll by exact Hw. cbn [length]. lia. }
    rewrite Eo in Ho. split; [exact Hw'|]. split; [exact Hc'|]. split; [exact Hrp|]. split; [lia|]. split.
    + rewrite Ho. unfold dotted at 2. cbn [map concat]. rewrite <- !app_assoc. reflexivity.
    + intros _. apply He. right. cbn [s1 end_]. lia.
  - assert (Hlt : (crtpos s < length cstr)%nat) by (apply nth_error_Some; congruence).
    pose proof (item_ptr s c0 c1 E0 E1 H0 H1) as Ei.
    match type of Ei with _ = Ok (Some ?x) => set (s1 := x) in * end.
    assert (Ht : too_much s1 = false) by (apply little; cbn [s1 depth len]; lia).
    pose proof (item_wf s s1 Hb Hw Hlt Ei Ht) as Hw1.
    destruct (IH s1 Hw1 eq_refl ltac:(cbn [s1 depth]; lia) ltac:(cbn [s1 len]; lia)) as (s' & Hr & Hw' & Hc' & Hrp & Hl' & Ho & He).
    exists s'. split; [eapply runs_step; eauto|]. cbn [s1 retpos len] in Hc', Hl'. split; [exact Hw'|].
    split; [|auto]. rewrite Hc'. destruct (Nat.eqb_spec (retpos s) 0) as [E|E].
    + rewrite (proj2 (Nat.eqb_neq _ _)) by lia. reflexivity.
    + rewrite (proj2 (Nat.eqb_neq _ _) E). reflexivity.
Qed.

Lemma sep_by_snoc c l : l <> [] -> sep_by c l ++ [c] = concat (map (fun x => x ++ [c]) l).
Proof.
  intros H. induction l as [|x l IH]; [contradiction|]. cbn [sep_by map concat]. destruct l as [|y l]; [cbn; rewrite app_nil_r; reflexivity|].
  rewrite <- IH by discriminate. rewrite <- !app_assoc. reflexivity.
Qed.

Lemma dotted_spaced ls : ls <> [] -> upd (dotted ls) (length (dotted ls) - 1) (chr " ") = name_text ls ++ [chr " "].
Proof.
  intros H. unfold dotted. rewrite <- sep_by_snoc by exact H. rewrite length_app. cbn [length].
  replace (length (sep_by (chr ".") ls) + 1 - 1)%nat with (length (sep_by (chr ".") ls) + 0)%nat by lia. rewrite upd_app_r. reflexivity.
Qed.

Lemma length_dotted ls : ls <> [] -> length (dotted ls) = S (length (name_text ls)).
Proof. intros H. unfold dotted. rewrite <- sep_by_snoc by exact H. rewrite length_app. cbn [length]. unfold name_text. lia. Qed.

Definition spaced (ns : list (list (list Z))) : list Z := concat (map (fun ls => name_text ls ++ [chr " "]) ns).

(** The whole list. *)
Lemma names_run p ns :
  bytes cstr -> names_at cstr p ns -> forall s, wf cstr s -> crtpos s = p -> retpos s = O ->
  (len s + length (spaced ns) <= NS_MAXDNAME * NS_MAXDNSRCH)%nat ->
  exists s', runs s s' /\ wf cstr s' /\ crtpos s' = length cstr /\ len s' = (len s + length (spaced ns))%nat /\
    out s' = out s ++ spaced ns /\ (ns <> [] \/ end_ s <> O -> end_ s' <> O).
Proof.
  intros Hb H. induction H as [|p j ls next ns Hn Hj Hne _ IH]; intros s Hw Hp Hz Hl.
  { exists s. cbn [spaced map concat length]. rewrite app_nil_r, Nat.add_0_r. split; [apply runs_refl|]. repeat split; auto; try apply Hw.
    intros [H|H]; [contradiction|exact H]. }
  assert (Es : spaced (ls :: ns) = (name_text ls ++ [chr " "]) ++ spaced ns) by reflexivity.
  rewrite Es, !length_app in Hl. cbn [length] in Hl. pose proof (length_dotted ls Hne) as Ld.
  assert (Hd : depth s = O) by (apply Hw; exact Hz).
  destruct (name_runs p j ls next Hb Hn s Hw Hp ltac:(lia) ltac:(lia)) as (s1 & Hr1 & Hw1 & Hc1 & Hz1 & Hl1 & Ho1 & He1).
  rewrite Hz in Hc1. cbn [Nat.eqb] in Hc1.
  destruct (IH s1 Hw1 Hc1 Hz1 ltac:(lia)) as (s2 & Hr2 & Hw2 & Hc2 & Hl2 & Ho2 & He2).
  exists s2. split; [eapply runs_trans; eauto|]. split; [exact Hw2|]. split; [exact Hc2|].
  rewrite Es, !length_app. cbn [length]. split; [lia|]. split; [|intros _; apply He2; right; apply He1; left; exact Hne].
  rewrite Ho2, Ho1, Hl1, app_assoc. f_equal.
  replace (len s + length (dotted ls) - 1)%nat with (length (out s) + (length (dotted ls) - 1))%nat by (rewrite length_out by exact Hw; lia).
  rewrite upd_app_r, dotted_spaced by exact Hne. reflexivity.
Qed.
End Names.

Lemma spaced_text ns : ns <> [] -> spaced ns = names_text ns ++ [chr " "].
Proof.
  intros H. unfold names_text, spaced. rewrite sep_by_snoc by (intros E; apply map_eq_nil in E; contradiction).
  rewrite map_map. reflexivity.
Qed.

Lemma upd_past {A} (l : list A) i v : (length l <= i)%nat -> upd l i v = l.
Proof.
  revert i; induction l as [|x l IH]; intros [|i] H; cbn [length] in H; try lia; cbn [upd]; [reflexivity|reflexivity|]. rewrite IH by lia. reflexivity.
Qed.

Lemma dec_correct garbage cstr pre ns :
  bytes cstr -> names_at cstr 0 ns -> ns <> [] -> (length pre + length (names_text ns) < NS_MAXDNAME * NS_MAXDNSRCH)%nat ->
  dname_dec garbage cstr pre = Ok (Some (pre ++ names_text ns)).
Proof.
  intros Hb Hn Hne Hl. pose proof (wf_start cstr pre) as Hw. unfold dname_dec. set (s := mkDec _ _ _ _ _ _) in *.
  pose proof (spaced_text ns Hne) as Es.
  destruct (names_run garbage cstr 0 ns Hb Hn s Hw eq_refl eq_refl) as (s' & Hr & Hw' & Hc & Hl' & Ho & He).
  { rewrite Es, length_app. cbn [s len length]. lia. }
  destruct (runs_loop garbage cstr s s' (dec_fuel cstr) Hb Hr Hw) as (fuel & _ & ->).
  { unfold todo, dec_fuel, clen; cbn [s retpos crtpos Nat.eqb]. rewrite Nat.sub_0_r. lia. }
  specialize (He (or_introl Hne)).
  replace (dec_loop garbage cstr fuel s') with (Ok (E := no_error) (Some s'))
    by (destruct fuel; cbn [dec_loop]; unfold clen; rewrite Hc, Nat.ltb_irrefl; reflexivity).
  cbn [rbind]. rewrite (proj2 (Nat.eqb_neq _ _) He). pose proof (proj1 Hw') as He'. unfold store1.
  destruct (Nat.ltb_spec (end_ s') (length (ret s'))); [|lia]. cbn [rbind]. do 2 f_equal.
  rewrite firstn_upd_in. rewrite Es, length_app in Hl'. cbn [s len length] in Hl'.
  assert (Eo : out s = pre) by (unfold out, s; cbn [len ret]; rewrite firstn_app, firstn_all, Nat.sub_diag; apply app_nil_r).
  assert (E : firstn (end_ s') (ret s') = pre ++ names_text ns).
  { transitivity (firstn (end_ s') (out s')); [unfold out; rewrite firstn_firstn; f_equal; lia|].
    rewrite Ho, Eo, Es, app_assoc, firstn_app. replace (end_ s') with (length (pre ++ names_text ns)) by (rewrite length_app; lia).
    rewrite firstn_all, Nat.sub_diag. apply app_nil_r. }
  rewrite E. apply upd_past. rewrite length_app. lia.
Qed.

Lemma name_label_at cstr p c j l ls next :
  nth_error cstr p = Some c -> 0 < c < 192 -> (p + Z.to_nat c + 1 <= length cstr)%nat -> slice (p + 1) (Z.to_nat c) cstr = l ->
  name_at cstr (p + (Z.to_nat c + 1)) j ls next -> name_at cstr p j (l :: ls) next.
Proof. intros H1 H2 H3 <-. apply name_label; assumption. Qed.



(** ** Encoding *)

(** The text without one final dot. *)
Definition strip_dot (src : list Z) : list Z :=
  match rev src with c :: r => if c =? chr "." then rev r else src | [] => src end.

(** The labels of a text, in lower case; [cur] is the label begun. *)
Fixpoint segs (cur src : list Z) : list (list Z) :=
  match src with
  | [] => [cur]
  | c :: rest =>
      if c =? chr "." then match rest with [] => [cur] | _ => cur :: segs [] rest end
      else segs (cur ++ [tolower c]) rest
  end.

Definition good_label (l : list Z) : bool := (1 <=? length l)%nat && (length l <=? NS_MAXLABEL)%nat.

(** Labels with their lengths in front. *)
Definition wire (ls : list (list Z)) : list Z := concat (map (fun l => Z.of_nat (length l) :: l) ls).

Definition enc_spec (src : list Z) : option (list Z) :=
  let ls := segs [] src in
  if forallb good_label ls && (length (wire ls) + 1 <=? NS_MAXCDNAME)%nat then Some (wire ls ++ [0]) else None.

Lemma store1_mid (a b : list Z) x v : store1 (E := no_error) (a ++ x :: b) (length a) v = Ok (a ++ v :: b).
Proof.
  unfold store1. rewrite length_app. cbn [length]. destruct (Nat.ltb_spec (length a) (length a + S (length b))); [|lia].
  f_equal. pose proof (upd_app_r a (x :: b) 0 v) as E. rewrite Nat.add_0_r in E. exact E.
Qed.

(** The array while the label [cur] is written, and the result. *)
Lemma convert_loop_eq src done cur k :
  (length src < k)%nat ->
  exists r dst,
    convert_loop src (done ++ 0 :: cur ++ repeat 0 k) (length done) (length done + 1 + length cur) =
      Ok (if forallb good_label (segs cur src) then Some (r, dst) else None) /\
    (forallb good_label (segs cur src) = true ->
     dst = length (done ++ wire (segs cur src)) /\ (dst < length r)%nat /\ firstn (dst + 1) r = done ++ wire (segs cur src) ++ [0]).
Proof.
  revert done cur k; induction src as [|c src IH]; intros done cur k Hk; cbn [convert_loop segs].
  - replace (length done + 1 + length cur - length done - 1)%nat with (length cur) by lia.
    destruct k as [|k]; [cbn in Hk; lia|]. cbn [forallb]. unfold good_label.
    destruct (Nat.ltb_spec NS_MAXLABEL (length cur)) as [H1|H1]; cbn [orb].
    { exists [], O. rewrite (proj2 (Nat.leb_gt _ _) H1), andb_false_r. split; [reflexivity|discriminate]. }
    destruct (Nat.eqb_spec (length cur) 0) as [H2|H2].
    { exists [], O. rewrite H2. split; [reflexivity|discriminate]. }
    rewrite store1_mid. cbn [rbind]. do 2 eexists. rewrite (proj2 (Nat.leb_le 1 _)), (proj2 (Nat.leb_le _ _) H1) by lia.
    split; [reflexivity|]. intros _. unfold wire; cbn [map concat]. rewrite app_nil_r, !length_app. cbn [length]. rewrite length_app. cbn [repeat length].
    repeat split; try lia.
    transitivity (firstn (length (done ++ Z.of_nat (length cur) :: cur ++ [0])) ((done ++ Z.of_nat (length cur) :: cur ++ [0]) ++ repeat 0 k)).
    + rewrite <- app_assoc. cbn [app]. rewrite <- app_assoc. cbn [app]. f_equal. rewrite !length_app. cbn [length]. rewrite length_app. cbn [length]. lia.
    + rewrite firstn_app, firstn_all, Nat.sub_diag. rewrite app_nil_r. reflexivity.
  - cbn [length] in Hk. destruct (Z.eqb_spec c (chr ".")) as [->|Hc].
    + replace (length done + 1 + length cur - length done - 1)%nat with (length cur) by lia.
      destruct src as [|c' src].
      * specialize (IH done cur k ltac:(cbn; lia)). cbn [convert_loop segs length] in IH.
        replace (length done + 1 + length cur - length done - 1)%nat with (length cur) in IH by lia. exact IH.
      * cbn [forallb]. unfold good_label at 1 3.
        destruct (Nat.ltb_spec NS_MAXLABEL (length cur)) as [H1|H1]; cbn [orb].
        { exists [], O. rewrite (proj2 (Nat.leb_gt _ _) H1), andb_false_r. split; [reflexivity|discriminate]. }
        destruct (Nat.eqb_spec (length cur) 0) as [H2|H2].
        { exists [], O. rewrite H2. split; [reflexivity|discriminate]. }
        rewrite store1_mid. cbn [rbind]. rewrite (proj2 (Nat.leb_le 1 _)), (proj2 (Nat.leb_le _ _) H1) by lia. cbn [andb].
        destruct k as [|k]; [lia|].
        specialize (IH (done ++ Z.of_nat (length cur) :: cur) [] k ltac:(lia)). cbn [app length] in IH.
        rewrite length_app in IH. cbn [length] in IH. rewrite <- app_assoc in IH. cbn [app] in IH.
        replace (length done + S (length cur))%nat with (length done + 1 + length cur)%nat in IH by lia.
        rewrite Nat.add_0_r in IH. cbn [repeat]. destruct IH as (r & dst & E & H). exists r, dst. split; [exact E|]. intros Hg.
        specialize (H Hg). unfold wire; cbn [map concat]. change (concat (map (fun l => Z.of_nat (length l) :: l) (segs [] (c' :: src)))) with (wire (segs [] (c' :: src))).
        rewrite <- ?app_assoc in H. cbn [app] in *. rewrite <- ?app_assoc in H. rewrite <- ?app_assoc. exact H.
    + destruct k as [|k]; [lia|]. cbn [repeat].
      assert (E : done ++ 0 :: cur ++ 0 :: repeat 0 k = (done ++ 0 :: cur) ++ 0 :: repeat 0 k) by (rewrite <- app_assoc; reflexivity).
      rewrite E. replace (length done + 1 + length cur)%nat with (length (done ++ 0 :: cur)) by (rewrite length_app; cbn [length]; lia).
      rewrite store1_mid. cbn [rbind].
      specialize (IH done (cur ++ [tolower c]) k ltac:(lia)). rewrite length_app in IH. cbn [length] in IH. rewrite <- !app_assoc in IH. cbn [app] in IH.
      rewrite <- app_assoc. cbn [app]. rewrite length_app. cbn [length].
      replace (length done + S (length cur) + 1)%nat with (length done + 1 + (length cur + 1))%nat by lia. exact IH.
Qed.

Lemma enc_eq src : dname_enc src = Ok (enc_spec src).
Proof.
  unfold dname_enc, convert_dname, enc_spec. replace (length src + 2)%nat with (S (length src + 1)) by lia. cbn [repeat].
  destruct (convert_loop_eq src [] [] (length src + 1) ltac:(lia)) as (r & dst & E & H). cbn [app length Nat.add] in E. rewrite E. cbn [rbind].
  destruct (forallb good_label (segs [] src)); [|reflexivity]. destruct (H eq_refl) as (Ed & Hr & Ef). cbn [app andb] in *. rewrite Ed in *.
  destruct (Nat.ltb_spec NS_MAXCDNAME (length (wire (segs [] src)) + 1)) as [L|L].
  - rewrite (proj2 (Nat.leb_gt _ _) L). reflexivity.
  - rewrite (proj2 (Nat.leb_le _ _) L). rewrite load_ok by lia. cbn [rbind]. unfold slice. cbn [skipn]. rewrite Ef. reflexivity.
Qed.

Definition dotless (l : list Z) : Prop := Forall (fun c => c <> chr ".") l.

Lemma tolower_dot c : tolower c = chr "." <-> c = chr ".".
Proof. unfold tolower. chars. repeat zb; cbn [andb]; lia. Qed.

Lemma strip_dot_cons c src : strip_dot (c :: src) = match src with [] => if c =? chr "." then [] else [c] | _ => c :: strip_dot src end.
Proof.
  unfold strip_dot. cbn [rev]. destruct src as [|x src]; [reflexivity|].
  destruct (rev (x :: src)) as [|y r] eqn:E; [cbn [rev] in E; apply app_eq_nil in E as [_ E]; discriminate|]. cbn [app].
  destruct (y =? chr "."); [|reflexivity]. rewrite rev_app_distr. reflexivity.
Qed.

Lemma segs_ne cur src : segs cur src <> [].
Proof.
  revert cur; induction src as [|c src IH]; intros cur; cbn [segs]; [discriminate|].
  destruct (c =? chr "."); [destruct src; discriminate|apply IH].
Qed.

Lemma segs_text cur src : name_text (segs cur src) = cur ++ map tolower (strip_dot src).
Proof.
  revert cur; induction src as [|c src IH]; intros cur; cbn [segs]; [unfold strip_dot; cbn; rewrite app_nil_r; reflexivity|].
  rewrite strip_dot_cons. destruct (Z.eqb_spec c (chr ".")) as [->|Hc].
  - destruct src as [|x src]; [cbn; rewrite app_nil_r; reflexivity|].
    pose proof (segs_ne [] (x :: src)) as Hne.
    unfold name_text in *. cbn [sep_by]. destruct (segs [] (x :: src)) eqn:E; [contradiction|]. rewrite <- E, IH. reflexivity.
  - rewrite IH, <- app_assoc. destruct src as [|x src]; reflexivity.
Qed.

Lemma name_text_dotless ls l : dotless l -> ls <> [] -> name_text ls = l -> ls = [l].
Proof.
  intros Hd Hne E. destruct ls as [|x [|y ls]]; [contradiction|cbn in E; congruence|]. exfalso. unfold name_text in E. cbn [sep_by] in E.
  rewrite <- E in Hd. apply Forall_app in Hd as [_ Hd]. apply Forall_inv in Hd. exact (Hd eq_refl).
Qed.

Lemma first_dot x y a b : dotless x -> dotless y -> x ++ chr "." :: a = y ++ chr "." :: b -> x = y /\ a = b.
Proof.
  intros Hx. revert y; induction Hx as [|c x Hc Hx IH]; intros y Hy E; destruct Hy as [|d y Hd Hy]; cbn [app] in E; try (injection E; intros; congruence).
  - injection E as E. auto.
  - injection E as -> E. destruct (IH y Hy E) as [-> ->]. auto.
Qed.

Lemma segs_unique ls cur src :
  Forall dotless ls -> ls <> [] -> dotless cur -> name_text ls = cur ++ map tolower (strip_dot src) -> segs cur src = ls.
Proof.
  revert ls cur; induction src as [|c src IH]; intros ls cur Hls Hne Hc E; cbn [segs].
  - rewrite app_nil_r in E. rewrite (name_text_dotless ls cur Hc Hne E). reflexivity.
  - rewrite strip_dot_cons in E. destruct (Z.eqb_spec c (chr ".")) as [->|Hcd].
    + destruct src as [|x src]; [cbn in E; rewrite app_nil_r in E; rewrite (name_text_dotless ls cur Hc Hne E); reflexivity|].
      cbn [map] in E. rewrite (proj2 (tolower_dot _) eq_refl) in E. destruct ls as [|l [|l' ls]]; [contradiction| |].
      * exfalso. unfold name_text in E. cbn [sep_by] in E. apply Forall_inv in Hls. rewrite E in Hls.
        apply Forall_app in Hls as [_ Hls]. apply Forall_inv in Hls. exact (Hls eq_refl).
      * unfold name_text in E. cbn [sep_by] in E. inversion Hls as [|? ? Hl Hls']; subst.
        destruct (first_dot _ _ _ _ Hl Hc E) as [-> E']. f_equal. apply IH; [exact Hls'|discriminate|constructor|exact E'].
    + apply IH; auto.
      * apply Forall_app. split; [exact Hc|]. constructor; [|constructor]. rewrite tolower_dot. exact Hcd.
      * rewrite E, <- app_assoc. destruct src as [|x src]; reflexivity.
Qed.

(** The wire format is a name. *)
Lemma wire_name ls pre :
  forallb good_label ls = true -> name_at (pre ++ wire ls ++ [0]) (length pre) 0 ls (length (pre ++ wire ls ++ [0])).
Proof.
  revert pre; induction ls as [|l ls IH]; intros pre H; cbn [forallb] in H.
  - cbn [wire map concat app]. replace (length (pre ++ [0])) with (length pre + 1)%nat by (rewrite length_app; reflexivity).
    apply name_end. rewrite nth_error_app2, Nat.sub_diag by lia. reflexivity.
  - apply andb_true_iff in H as [Hl Hls]. apply andb_true_iff in Hl as [H1 H2]. apply Nat.leb_le in H1, H2. unfold NS_MAXLABEL in H2.
    specialize (IH (pre ++ Z.of_nat (length l) :: l) Hls). rewrite length_app in IH at 1. cbn [length] in IH.
    assert (E : (pre ++ Z.of_nat (length l) :: l) ++ wire ls ++ [0] = pre ++ wire (l :: ls) ++ [0])
      by (unfold wire; cbn [map concat]; rewrite <- !app_assoc; reflexivity).
    rewrite E in IH.
    assert (En : pre ++ wire (l :: ls) ++ [0] = pre ++ Z.of_nat (length l) :: l ++ wire ls ++ [0])
      by (unfold wire; cbn [map concat app]; rewrite <- app_assoc; reflexivity).
    apply (name_label_at _ _ (Z.of_nat (length l))); [rewrite En, nth_error_app2, Nat.sub_diag by lia; reflexivity|lia| | |].
    + rewrite En, length_app. cbn [length]. rewrite length_app. lia.
    + rewrite En, Nat2Z.id. unfold slice. rewrite skipn_app, skipn_all2 by lia. replace (length pre + 1 - length pre)%nat with 1%nat by lia.
      cbn [app skipn]. rewrite firstn_app, firstn_all, Nat.sub_diag. apply app_nil_r.
    + rewrite Nat2Z.id. replace (length pre + (length l + 1))%nat with (length pre + S (length l))%nat by lia. exact IH.
Qed.

Lemma tolower_byte c : 0 <= c < 256 -> 0 <= tolower c < 256.
Proof. unfold tolower. chars. repeat zb; cbn [andb]; lia. Qed.

Lemma segs_bytes src cur : bytes src -> bytes cur -> Forall bytes (segs cur src).
Proof.
  intros H. revert cur; induction H as [|c src Hc Hs IH]; intros cur Hcur; cbn [segs]; [repeat constructor; exact Hcur|].
  destruct (c =? chr "."); [destruct src; [repeat constructor; exact Hcur|]; constructor; [exact Hcur|apply IH; constructor]|].
  apply IH. apply Forall_app. split; [exact Hcur|]. constructor; [apply tolower_byte, Hc|constructor].
Qed.

Lemma wire_bytes ls : forallb good_label ls = true -> Forall bytes ls -> bytes (wire ls ++ [0]).
Proof.
  intros Hg H. apply Forall_app. split; [|repeat constructor; cbn; lia]. induction H as [|l ls Hl Hls IH]; [constructor|].
  cbn [forallb] in Hg. apply andb_true_iff in Hg as [H1 Hg]. apply andb_true_iff in H1 as [_ H1]. apply Nat.leb_le in H1. unfold NS_MAXLABEL in H1.
  unfold wire; cbn [map concat]. constructor; [red; lia|]. apply Forall_app. split; [exact Hl|apply IH, Hg].
Qed.

(** C32. What [dname_enc] returns is a name of RFC 1035. For every text it
    ends inside the memory it allocated. When it returns a name, the bytes are
    the labels of the text in lower case, each with its length of 1 to 63 in
    front and a NUL byte behind the last, 255 bytes at most; when it returns
    an error, no list of labels within these limits has that text. *)
Theorem dname_enc_wellformed (src : list Z) :
  exists o, dname_enc src = Ok o /\
  match o with
  | Some d => exists ls, name_at d 0 0 ls (length d) /\ Forall (fun l => (1 <= length l <= NS_MAXLABEL)%nat) ls /\
                         (length d <= NS_MAXCDNAME)%nat /\ name_text ls = map tolower (strip_dot src)
  | None => forall ls, ls <> [] -> Forall dotless ls -> Forall (fun l => (1 <= length l <= NS_MAXLABEL)%nat) ls ->
                       (length (wire ls) + 1 <= NS_MAXCDNAME)%nat -> name_text ls <> map tolower (strip_dot src)
  end.
Proof.
  exists (enc_spec src). split; [apply enc_eq|]. unfold enc_spec. set (ls := segs [] src).
  assert (Hg : forall ls, forallb good_label ls = true <-> Forall (fun l => (1 <= length l <= NS_MAXLABEL)%nat) ls).
  { intros l. rewrite forallb_forall, Forall_forall. unfold good_label.
    split; intros H x Hx; specialize (H x Hx); [apply andb_true_iff in H as [H1 H2]; apply Nat.leb_le in H1, H2; lia|].
    apply andb_true_iff. split; apply Nat.leb_le; lia. }
  destruct (forallb good_label ls && (length (wire ls) + 1 <=? NS_MAXCDNAME)%nat) eqn:E.
  - apply andb_true_iff in E as [E1 E2]. apply Nat.leb_le in E2. exists ls. split; [apply (wire_name ls []), E1|].
    split; [apply Hg, E1|]. split; [rewrite length_app; exact E2|]. apply segs_text.
  - intros ls' Hne Hd Hl Hw Et. assert (Es : ls = ls') by (apply segs_unique; [exact Hd|exact Hne|constructor|exact Et]).
    rewrite Es in E. apply Hg in Hl. rewrite Hl, (proj2 (Nat.leb_le _ _) Hw) in E. discriminate.
Qed.

(** C33. A name that is encoded and decoded comes back in lower case, without
    the dot at its end, behind the prefix. *)
Theorem dname_roundtrip (garbage : nat -> Z) (src d pre : list Z) :
  bytes src -> dname_enc src = Ok (Some d) -> (length pre + NS_MAXCDNAME < NS_MAXDNAME * NS_MAXDNSRCH)%nat ->
  dname_dec garbage d pre = Ok (Some (pre ++ map tolower (strip_dot src))).
Proof.
  intros Hb E Hl. rewrite enc_eq in E. injection E as E. unfold enc_spec in E. set (ls := segs [] src) in *.
  destruct (forallb good_label ls) eqn:Eg; [|discriminate]. cbn [andb] in E.
  destruct (Nat.leb_spec (length (wire ls) + 1) NS_MAXCDNAME) as [L|]; [|discriminate]. injection E as <-.
  assert (Et : names_text [ls] = map tolower (strip_dot src)) by (unfold names_text; cbn [map sep_by]; apply segs_text).
  assert (Hne : ls <> []) by apply segs_ne.
  rewrite <- Et. apply dec_correct.
  - apply wire_bytes; [exact Eg|]. apply segs_bytes; [exact Hb|constructor].
  - eapply names_name; [apply (wire_name ls []), Eg|lia|exact Hne|]. cbn [app]. apply names_end.
  - discriminate.
  - unfold names_text; cbn [map sep_by]. unfold name_text. assert (Hd : (length (sep_by (chr ".") ls) <= length (wire ls))%nat).
    { clear. induction ls as [|l [|l' ls] IH]; [cbn; lia| |]; unfold wire in *; cbn [map concat sep_by length] in *; rewrite ?length_app in *; cbn [length] in *; lia. }
    lia.
Qed.

Lemma dname_roundtrip_witness :
  dname_dec (fun _ => 7) ([4; 116; 101; 115; 116; 3; 110; 101; 116; 0]) [] = Ok (Some (bytes_of "test.net"%string)).
Proof.
  apply (dname_roundtrip (fun _ => 7) (bytes_of "Test.NET."%string)); [apply is_bytes_ok; reflexivity|reflexivity|vm_compute; lia].
Defined.

(** An option that starts with an empty name overwrites the end of the
    prefix: the variable "search=" loses its equals sign. *)
Lemma empty_name_overwrites_prefix :
  dname_dec (fun _ => 7) [0; 2; 101; 101; 0] (bytes_of "search="%string) = Ok (Some (bytes_of "search ee"%string)).
Proof. reflexivity. Qed.
End Dname.
