(* ===== verification/Pstm.v ===== *)
(** * The multiple-precision integers of the TLS code

    networking/tls_pstm.c, tls_pstm_mul_comba.c, tls_pstm_sqr_comba.c and
    tls_pstm_montgomery_reduce.c, in the configuration of networking/tls.h:
    digits of 32 bits, a little-endian machine and the portable versions of the
    inner loops. Every access to an array of digits is checked. *)

From Stdlib Require Import ZArith List Lia Bool.
From S2P Require Import Prelude Words Mem.
Import ListNotations.
Local Open Scope Z_scope.
Local Open Scope res_scope.

Module Pstm.

(** ** Numbers *)

Definition DIGIT_BIT : nat := 32.
Definition PSTM_MAX_SIZE : nat := 4096.
Definition PSTM_LT : Z := -1.
Definition PSTM_EQ : Z := 0.
Definition PSTM_GT : Z := 1.
Definition PS_FAILURE : Z := -1.
Definition PS_MEM_FAIL : Z := -8.
Definition PS_LIMIT_FAIL : Z := -9.
Definition PS_EXPTMOD_WINSIZE : nat := 3.

(** [alloc] is the length of [dp]; [sign] is true for [PSTM_NEG]. *)
Record pstm_int := mk_pstm { used : nat; sign : bool; dp : list Z }.
Definition alloc (a : pstm_int) : nat := length (dp a).

(** A function that fails returns a code, or the program exits
    ([psTraceCrypto]). *)
Inductive error := Code (c : Z) | Exit.
Definition result := res error.

(** A caller that returns its own code when the callee fails. *)
Definition failing {A} (c : Z) (m : result A) : result A :=
  match m with Die (Code _) => Die (Code c) | m => m end.

(** ** Memory *)

Definition pstm_init_size (size : nat) : pstm_int := mk_pstm 0 false (repeat 0 size).

Definition pstm_grow (a : pstm_int) (size : nat) : pstm_int :=
  if (alloc a <? size)%nat then mk_pstm (used a) (sign a) (dp a ++ repeat 0 (size - alloc a)) else a.

(** The digits [n], ..., [m - 1] are set to zero. *)
Definition clear_digits (d : list Z) (n m : nat) : result (list Z) :=
  for_up (m - n) n (fun i d => store1 d i 0) d.

(** [b = a] *)
Definition pstm_copy (a b : pstm_int) : result pstm_int :=
  let b := if (alloc b <? used a)%nat then pstm_grow b (used a) else b in
  let! d := for_up (used a) 0 (fun n d => let! x := load1 (dp a) n in store1 d n x) (dp b) in
  let! d := clear_digits d (used a) (used b) in
  Ok (mk_pstm (used a) (sign a) d).

Fixpoint clamp_used (d : list Z) (n : nat) : result nat :=
  match n with
  | O => Ok O
  | S k => let! x := load1 d k in if x =? 0 then clamp_used d k else Ok n
  end.

Definition pstm_clamp (a : pstm_int) : result pstm_int :=
  let! u := clamp_used (dp a) (used a) in
  Ok (mk_pstm u (if (u =? 0)%nat then false else sign a) (dp a)).

Definition pstm_zero (a : pstm_int) : pstm_int := mk_pstm 0 false (repeat 0 (alloc a)).

Definition pstm_init_copy (b : pstm_int) (toSqr : bool) : result pstm_int :=
  let x := alloc b in
  let x := if toSqr && (x <=? used b * 2 + 2)%nat then (used b * 2 + 3)%nat else x in
  pstm_copy b (pstm_init_size x).

(** ** Comparison *)

Fixpoint cmp_digits (da db : list Z) (n : nat) : result Z :=
  match n with
  | O => Ok PSTM_EQ
  | S n =>
      let! x := load1 da n in
      let! y := load1 db n in
      if y <? x then Ok PSTM_GT else if x <? y then Ok PSTM_LT else cmp_digits da db n
  end.

Definition pstm_cmp_mag (a b : pstm_int) : result Z :=
  if (used b <? used a)%nat then Ok PSTM_GT
  else if (used a <? used b)%nat then Ok PSTM_LT
  else cmp_digits (dp a) (dp b) (used a).

Definition pstm_cmp (a b : pstm_int) : result Z :=
  if negb (Bool.eqb (sign a) (sign b)) then Ok (if sign a then PSTM_LT else PSTM_GT)
  else if sign a then pstm_cmp_mag b a else pstm_cmp_mag a b.

(** ** Conversion from bytes *)

Definition pstm_init_for_read_unsigned_bin (len : nat) : pstm_int :=
  pstm_init_size (len / 4 * (4 * 8) / DIGIT_BIT + 2).

(** A store of the byte [v] at [(unsigned char* )dp + i]. *)
Definition store_byte (d : list Z) (i : nat) (v : Z) : result (list Z) :=
  let! x := load1 d (i / 4) in
  let k := 8 * Z.of_nat (i mod 4) in
  store1 d (i / 4) (Z.lor (Z.land x (Z.lnot (Z.shiftl 255 k))) (Z.shiftl v k)).

Definition pstm_read_unsigned_bin (a : pstm_int) (b : list Z) (c : nat) : result pstm_int :=
  let a := pstm_zero a in
  let excess := (c - PSTM_MAX_SIZE * 4)%nat in
  let c := (c - excess)%nat in
  let n := ((c + 3) / 4)%nat in
  let a := if (alloc a <? n)%nat then pstm_grow a n else a in
  let! d := for_down c (fun i d => let! v := load1 b (excess + (c - 1 - i)) in store_byte d i v) (dp a) in
  pstm_clamp (mk_pstm n (sign a) d).

Fixpoint count_loop (fuel : nat) (r : nat) (q : Z) : result nat :=
  if 0 <? q then
    match fuel with O => Diverge | S fuel => count_loop fuel (r + 1) (Z.shiftr q 1) end
  else Ok r.

Definition pstm_count_bits (a : pstm_int) : result nat :=
  if (used a =? 0)%nat then Ok O else
  let! q := load1 (dp a) (used a - 1) in
  count_loop DIGIT_BIT ((used a - 1) * DIGIT_BIT) q.

Definition pstm_unsigned_bin_size (a : pstm_int) : result nat :=
  let! size := pstm_count_bits a in
  Ok (size / 8 + (if (Nat.land size 7 =? 0)%nat then 0 else 1))%nat.

Definition pstm_set (a : pstm_int) (b : Z) : result pstm_int :=
  let a := pstm_zero a in
  let! d := store1 (dp a) 0 b in
  Ok (mk_pstm (if b =? 0 then 0 else 1) (sign a) d).

(** ** Shifts *)

Definition pstm_rshd (a : pstm_int) (x : nat) : result pstm_int :=
  if (used a <=? x)%nat then Ok (pstm_zero a) else
  let! d := for_up (used a - x) 0 (fun y d => let! v := load1 d (y + x) in store1 d y v) (dp a) in
  let! d := clear_digits d (used a - x) (used a) in
  pstm_clamp (mk_pstm (used a - x) (sign a) d).

Definition pstm_lshd (a : pstm_int) (b : nat) : result pstm_int :=
  if (b =? 0)%nat then Ok a else
  let a := if (alloc a <? used a + b)%nat then pstm_grow a (used a + b) else a in
  let! d := for_down (used a) (fun y d => let! v := load1 d y in store1 d (y + b) v) (dp a) in
  let! d := clear_digits d 0 b in
  Ok (mk_pstm (used a + b) (sign a) d).

Definition pstm_2expt (a : pstm_int) (b : nat) : result pstm_int :=
  let a := pstm_zero a in
  let z := (b / DIGIT_BIT)%nat in
  if (PSTM_MAX_SIZE <=? z)%nat then Die (Code PS_LIMIT_FAIL) else
  let a := mk_pstm (z + 1) (sign a) (dp a) in
  let a := if (alloc a <? used a)%nat then pstm_grow a (used a) else a in
  let! d := store1 (dp a) z (u32 (Z.shiftl 1 (Z.of_nat (b mod DIGIT_BIT)))) in
  Ok (mk_pstm (used a) (sign a) d).

(** [b = 2 a] *)
Definition pstm_mul_2 (a b : pstm_int) : result pstm_int :=
  let b := if (alloc b <? used a + 1)%nat then pstm_grow b (used a + 1) else b in
  let! (d, r) := for_up (used a) 0
    (fun x '(d, r) =>
       let! v := load1 (dp a) x in
       let! d := store1 d x (Z.lor (u32 (Z.shiftl v 1)) r) in
       Ok (d, Z.shiftr v 31)) (dp b, 0) in
  let! (d, n) := (if negb (r =? 0) && negb (used a =? PSTM_MAX_SIZE - 1)%nat
                  then let! d := store1 d (used a) 1 in Ok (d, used a + 1)%nat
                  else Ok (d, used a)) in
  let! d := clear_digits d n (used b) in
  Ok (mk_pstm n (sign a) d).

(** [c = a * 2^b] *)
Definition pstm_mul_2d (a : pstm_int) (b : nat) (c : pstm_int) : result pstm_int :=
  let! c := pstm_copy a c in
  let! c := (if (DIGIT_BIT <=? b)%nat then pstm_lshd c (b / DIGIT_BIT) else Ok c) in
  let b := (b mod DIGIT_BIT)%nat in
  let! c := (if (b =? 0)%nat then Ok c else
    let! (d, carry) := for_up (used c) 0
      (fun x '(d, carry) =>
         let! v := load1 d x in
         let! d := store1 d x (u32 (u32 (Z.shiftl v (Z.of_nat b)) + carry)) in
         Ok (d, Z.shiftr v (Z.of_nat (DIGIT_BIT - b)))) (dp c, 0) in
    let c := mk_pstm (used c) (sign c) d in
    if negb (carry =? 0) && (used c <? PSTM_MAX_SIZE)%nat then
      let c := if (used c =? alloc c)%nat then pstm_grow c (alloc c + 1) else c in
      let! d := store1 (dp c) (used c) carry in
      Ok (mk_pstm (used c + 1) (sign c) d)
    else Ok c) in
  pstm_clamp c.

(** [c = a / 2^b], with [d == NULL] *)
Definition pstm_div_2d (a : pstm_int) (b : nat) (c : pstm_int) : result pstm_int :=
  let! c := pstm_copy a c in
  if (b =? 0)%nat then Ok c else
  let! c := (if (DIGIT_BIT <=? b)%nat then pstm_rshd c (b / DIGIT_BIT) else Ok c) in
  let D := Z.of_nat (b mod DIGIT_BIT) in
  let! d := (if D =? 0 then Ok (dp c) else
    let! (d, _) := for_down (used c)
      (fun x '(d, r) =>
         let! v := load1 d x in
         let! d := store1 d x (Z.lor (Z.shiftr v D) (u32 (Z.shiftl r (Z.of_nat DIGIT_BIT - D)))) in
         Ok (d, Z.land v (Z.shiftl 1 D - 1))) (dp c, 0) in
    Ok d) in
  pstm_clamp (mk_pstm (used c) (sign c) d).

(** ** Addition and subtraction *)

(** [c = |a| - |b|], for [|a| >= |b|]; [c] may be [a] or [b]. The second loop
    does not mask the borrow. *)
Definition s_pstm_sub (a b c : pstm_int) : result pstm_int :=
  if (used a <? used b)%nat then Die (Code PS_LIMIT_FAIL) else
  let c := if (alloc c <? used a)%nat then pstm_grow c (used a) else c in
  let! (d, t) := for_up (used b) 0
    (fun x '(d, t) =>
       let! va := load1 (dp a) x in
       let! vb := load1 (dp b) x in
       let t := u64 (va - u64 (vb + t)) in
       let! d := store1 d x (u32 t) in
       Ok (d, Z.land (Z.shiftr t 32) 1)) (dp c, 0) in
  let! (d, _) := for_up (used a - used b) (used b)
    (fun x '(d, t) =>
       let! va := load1 (dp a) x in
       let t := u64 (va - t) in
       let! d := store1 d x (u32 t) in
       Ok (d, Z.shiftr t 32)) (d, t) in
  let! d := clear_digits d (used a) (used c) in
  pstm_clamp (mk_pstm (used a) (sign c) d).

(** A digit of an operand of [s_pstm_add]: zero when [used < x]. *)
Definition add_operand (a : list Z) (n x : nat) : result Z :=
  if (n <? x)%nat then Ok 0 else load1 a x.

(** [c = |a| + |b|]. When [c] is [a], which [c_is_a] says, [a->used] and
    [a->dp] are those of [c] by the time they are read. *)
Definition s_pstm_add (c_is_a : bool) (a b c : pstm_int) : result pstm_int :=
  let y := Nat.max (used a) (used b) in
  let oldused := used c in
  let c := mk_pstm y (sign c) (dp c) in
  let c := if (alloc c <? y)%nat then pstm_grow c y else c in
  let! (d, t) := for_up y 0
    (fun x '(d, t) =>
       let! va := (if c_is_a then add_operand d y x else add_operand (dp a) (used a) x) in
       let! vb := add_operand (dp b) (used b) x in
       let t := u64 (t + u64 (va + vb)) in
       let! d := store1 d x (u32 t) in
       Ok (d, Z.shiftr t 32)) (dp c, 0) in
  let c := mk_pstm y (sign c) d in
  let! c := (if negb (t =? 0) && (y <? PSTM_MAX_SIZE)%nat then
      let c := if (used c =? alloc c)%nat then pstm_grow c (alloc c + 1) else c in
      let! d := store1 (dp c) (used c) (u32 t) in
      Ok (mk_pstm (used c + 1) (sign c) d)
    else Ok c) in
  let! d := clear_digits (dp c) (used c) oldused in
  pstm_clamp (mk_pstm (used c) (sign c) d).

Definition with_sign (a : pstm_int) (s : bool) : pstm_int := mk_pstm (used a) s (dp a).

(** The third argument is [c] before the call; [pstm_sub(a, b, a)] is
    [pstm_sub true a b a]. *)
Definition pstm_sub (c_is_a : bool) (a b c : pstm_int) : result pstm_int :=
  if negb (Bool.eqb (sign a) (sign b)) then s_pstm_add c_is_a a b (with_sign c (sign a))
  else
    let! cmp := pstm_cmp_mag a b in
    if negb (cmp =? PSTM_LT) then s_pstm_sub a b (with_sign c (sign a))
    else s_pstm_sub b a (with_sign c (negb (sign a))).

Definition pstm_add (c_is_a : bool) (a b c : pstm_int) : result pstm_int :=
  if Bool.eqb (sign a) (sign b) then s_pstm_add c_is_a a b (with_sign c (sign a))
  else
    let! cmp := pstm_cmp_mag a b in
    if cmp =? PSTM_LT then s_pstm_sub b a (with_sign c (sign b))
    else s_pstm_sub a b (with_sign c (sign a)).

(** ** Products *)

(** [c = a * b] for a digit [b] *)
Definition pstm_mul_d (a : pstm_int) (b : Z) (c : pstm_int) : result pstm_int :=
  let c := if (alloc c <? used a + 1)%nat then pstm_grow c (used a + 1) else c in
  let! (d, w) := for_up (used a) 0
    (fun x '(d, w) =>
       let! v := load1 (dp a) x in
       let w := u64 (v * b + w) in
       let! d := store1 d x (u32 w) in
       Ok (d, Z.shiftr w 32)) (dp c, 0) in
  let! (d, n) := (if negb (w =? 0) && negb (used a =? PSTM_MAX_SIZE)%nat
                  then let! d := store1 d (used a) (u32 w) in Ok (d, used a + 1)%nat
                  else Ok (d, used a)) in
  let! d := clear_digits d n (used c) in
  pstm_clamp (mk_pstm n (sign a) d).

(** The three accumulators of a column. *)
Definition acc3 : Type := Z * Z * Z.
Definition COMBA_FORWARD (c : acc3) : acc3 := let '(_, c1, c2) := c in (c1, c2, 0).

Definition add_product (c : acc3) (t : Z) : acc3 :=
  let '(c0, c1, c2) := c in
  let t := u64 (c0 + t) in
  let c0 := u32 t in
  let t := u64 (c1 + Z.shiftr t 32) in
  (c0, u32 t, u32 (c2 + u32 (Z.shiftr t 32))).

Definition MULADD (c : acc3) (i j : Z) : acc3 := add_product c (i * j).
Definition SQRADD (c : acc3) (i j : Z) : acc3 := add_product c (i * j).
Definition SQRADD2 (c : acc3) (i j : Z) : acc3 := add_product (add_product c (i * j)) (i * j).

(** The array for the result: [pad] is [paDlen] when there is a [paD]. *)
Definition comba_dst (pad : option nat) (pa : nat) : list Z :=
  match pad with
  | Some len => if (len <? 4 * pa)%nat then repeat 0 pa else repeat 0 (len / 4)
  | None => repeat 0 pa
  end.

(** Copying the result and clearing what was left of the old value. *)
Definition comba_finish (dst : list Z) (pa : nat) (s : bool) (C : pstm_int) : result pstm_int :=
  let! d := for_up pa 0 (fun ix d => let! v := load1 dst ix in store1 d ix v) (dp C) in
  let! d := clear_digits d pa (used C) in
  pstm_clamp (mk_pstm pa s d).

Definition pstm_mul_comba_gen (A B C : pstm_int) (pad : option nat) : result pstm_int :=
  let pa := (used A + used B)%nat in
  let C := if (alloc C <? pa)%nat then pstm_grow C pa else C in
  let! (dst, _) := for_up pa 0
    (fun ix '(dst, c) =>
       let ty := Z.min (Z.of_nat ix) (Z.of_nat (used B) - 1) in
       let tx := Z.of_nat ix - ty in
       let iy := Z.min (Z.of_nat (used A) - tx) (ty + 1) in
       let! c := for_up (Z.to_nat iy) 0
         (fun iz c =>
            let! x := load1 (dp A) (Z.to_nat tx + iz) in
            let! y := load1 (dp B) (Z.to_nat ty - iz) in
            Ok (MULADD c x y)) (COMBA_FORWARD c) in
       let! dst := store1 dst ix (fst (fst c)) in
       Ok (dst, c)) (comba_dst pad pa, (0, 0, 0)) in
  comba_finish dst pa (xorb (sign A) (sign B)) C.

(** [B = A * A] *)
Definition pstm_sqr_comba_gen (A B : pstm_int) (pad : option nat) : result pstm_int :=
  let pa := (used A + used A)%nat in
  let B := if (alloc B <? pa)%nat then pstm_grow B pa else B in
  let! (dst, _) := for_up pa 0
    (fun ix '(dst, c) =>
       let ty := Z.min (Z.of_nat (used A) - 1) (Z.of_nat ix) in
       let tx := Z.of_nat ix - ty in
       let iy := Z.min (Z.of_nat (used A) - tx) (ty + 1) in
       let iy := Z.min iy (Z.shiftr (ty - tx + 1) 1) in
       let! c := for_up (Z.to_nat iy) 0
         (fun iz c =>
            let! x := load1 (dp A) (Z.to_nat tx + iz) in
            let! y := load1 (dp A) (Z.to_nat ty - iz) in
            Ok (SQRADD2 c x y)) (COMBA_FORWARD c) in
       let! c := (if Nat.even ix then
            let! x := load1 (dp A) (ix / 2) in
            Ok (SQRADD c x x)
          else Ok c) in
       let! dst := store1 dst ix (fst (fst c)) in
       Ok (dst, c)) (comba_dst pad pa, (0, 0, 0)) in
  comba_finish dst pa (sign B) B.

Definition pstm_mul_comba := pstm_mul_comba_gen.
Definition pstm_sqr_comba := pstm_sqr_comba_gen.

(** ** Division *)

(** [while (x >= y) { q++; x -= y; }] *)
Fixpoint div_top (fuel : nat) (x y : pstm_int) (q : Z) : result (pstm_int * Z) :=
  let! c := pstm_cmp x y in
  if c =? PSTM_LT then Ok (x, q) else
  match fuel with
  | O => Diverge
  | S fuel =>
      let! x := pstm_sub true x y x in
      div_top fuel x y (u32 (q + 1))
  end.

(** The comparison of [q] times the two leading digits of [y] with the three
    leading digits of [x], in [t1] and [t2]. *)
Definition div_test (x y : pstm_int) (i t : nat) (t1 t2 : pstm_int) (q : Z) : result (pstm_int * pstm_int * Z) :=
  let t1 := pstm_zero t1 in
  let! y1 := (if (t =? 0)%nat then Ok 0 else load1 (dp y) (t - 1)) in
  let! d := store1 (dp t1) 0 y1 in
  let! yt := load1 (dp y) t in
  let! d := store1 d 1 yt in
  let t1 := mk_pstm 2 (sign t1) d in
  let! t1 := pstm_mul_d t1 q t1 in
  let! x2 := (if (i <? 2)%nat then Ok 0 else load1 (dp x) (i - 2)) in
  let! d := store1 (dp t2) 0 x2 in
  let! x1 := (if (i <? 1)%nat then Ok 0 else load1 (dp x) (i - 1)) in
  let! d := store1 d 1 x1 in
  let! xi := load1 (dp x) i in
  let! d := store1 d 2 xi in
  let t2 := mk_pstm 3 (sign t2) d in
  let! c := pstm_cmp_mag t1 t2 in
  Ok (t1, t2, c).

(** The correction of the digit [q]: [do { q--; ... } while (t1 > t2)]. *)
Fixpoint div_fix (fuel : nat) (x y : pstm_int) (i t : nat) (t1 t2 : pstm_int) (q : Z)
    : result (pstm_int * pstm_int * Z) :=
  match fuel with
  | O => Diverge
  | S fuel =>
      let q := u32 (q - 1) in
      let! (t1, t2, c) := div_test x y i t t1 t2 q in
      if c =? PSTM_GT then div_fix fuel x y i t t1 t2 q else Ok (t1, t2, q)
  end.

(** The first estimate of the digit. *)
Definition div_guess (x y : pstm_int) (i t : nat) : result Z :=
  let! xi := load1 (dp x) i in
  let! yt := load1 (dp y) t in
  if xi =? yt then Ok (2 ^ 32 - 1) else
  let! x1 := load1 (dp x) (i - 1) in
  if yt =? 0 then Fault else Ok (u32 (Z.lor (Z.shiftl xi 32) x1 / yt)).

(** Step 3.3: [x = x - q y B^k], corrected when it is negative. *)
Definition div_reduce (x y t1 : pstm_int) (k : nat) (q : Z) : result (pstm_int * pstm_int * Z) :=
  let! t1 := pstm_mul_d y q t1 in
  let! t1 := pstm_lshd t1 k in
  let! x := pstm_sub true x t1 x in
  if sign x then
    let! t1 := pstm_copy y t1 in
    let! t1 := pstm_lshd t1 k in
    let! x := pstm_add true x t1 x in
    Ok (x, t1, u32 (q - 1))
  else Ok (x, t1, q).

(** Less than [DIV_FIX] corrections of a digit, and less than [DIV_TOP] subtractions for
    the first one: the divisor is normalised. *)
Definition DIV_FIX : nat := 6.
Definition DIV_TOP : nat := 4.

(** The iteration for [i]; the state is [x], [t1], [t2] and the digits of [q]. *)
Definition div_step (y : pstm_int) (t i : nat) (s : pstm_int * pstm_int * pstm_int * list Z)
    : result (pstm_int * pstm_int * pstm_int * list Z) :=
  let '(x, t1, t2, qd) := s in
  if (used x <? i)%nat then Ok s else
  let k := (i - t - 1)%nat in
  let! q := div_guess x y i t in
  let! (t1, t2, q) := div_fix DIV_FIX x y i t t1 t2 (u32 (q + 1)) in
  let! (x, t1, q) := div_reduce x y t1 k q in
  let! qd := store1 qd k q in
  Ok (x, t1, t2, qd).

(** [norm], and [x], [y] shifted by it. *)
Definition div_normalize (x y : pstm_int) : result (nat * pstm_int * pstm_int) :=
  let! bits := pstm_count_bits y in
  let norm := (bits mod DIGIT_BIT)%nat in
  if (norm <? DIGIT_BIT - 1)%nat then
    let norm := (DIGIT_BIT - 1 - norm)%nat in
    let! x := pstm_mul_2d x norm x in
    let! y := pstm_mul_2d y norm y in
    Ok (norm, x, y)
  else Ok (O, x, y).

(** The digits of the quotient, from the first to the last, and what is left of [x]. *)
Definition div_digits (x y t1 t2 : pstm_int) : result (pstm_int * list Z) :=
  let n := (used x - 1)%nat in
  let t := (used y - 1)%nat in
  let q := repeat 0 (n - t + 1) in
  let! y := pstm_lshd y (n - t) in
  let! q0 := load1 q (n - t) in
  let! (x, q0) := div_top DIV_TOP x y q0 in
  let! q := store1 q (n - t) q0 in
  let! y := pstm_rshd y (n - t) in
  let! (x, _, _, q) := for_down (n - t) (fun j => div_step y t (t + 1 + j)) (x, t1, t2, q) in
  Ok (x, q).

(** The quotient is not asked for ([c == NULL]); [d] is the remainder. *)
Definition pstm_div (a b d : pstm_int) : result pstm_int :=
  if (used b =? 0)%nat then Die (Code PS_LIMIT_FAIL) else
  let! cmp := pstm_cmp_mag a b in
  if cmp =? PSTM_LT then pstm_copy a d else
  let t1 := pstm_init_size (alloc a) in
  let t2 := pstm_init_size 3 in
  let! x := pstm_init_copy a false in
  let! y := pstm_copy b (pstm_init_size (used b * 3)) in
  let! (norm, x, y) := div_normalize (with_sign x false) (with_sign y false) in
  let! (x, q) := div_digits x y t1 t2 in
  let x := with_sign x (if (used x =? 0)%nat then false else sign a) in
  let! x := pstm_div_2d x norm x in
  let! dx := clear_digits (dp x) (used b) (used x) in
  let! x := pstm_clamp (mk_pstm (used x) (sign x) dx) in
  pstm_copy x d.

(** [c = a mod b]; the old [c] is freed or overwritten. *)
Definition pstm_mod (a b c : pstm_int) : result pstm_int :=
  let! t := pstm_div a b (pstm_init_size (alloc b)) in
  if negb (Bool.eqb (sign t) (sign b)) then pstm_add false t b c else Ok t.

(** [d = a * b mod c]; [d_is_a] says that [d] is [a]. *)
Definition pstm_mulmod (d_is_a : bool) (a b c d : pstm_int) : result pstm_int :=
  let size := (used a + used b + 1)%nat in
  let size := if d_is_a && (size <? alloc a)%nat then alloc a else size in
  let! tmp := pstm_mul_comba a b (pstm_init_size size) None in
  pstm_mod tmp c d.

(** ** Montgomery reduction *)

Definition pstm_montgomery_setup (a : pstm_int) : result Z :=
  let! b := load1 (dp a) 0 in
  if Z.land b 1 =? 0 then Die Exit else
  let newton x := u32 (x * u32 (2 - u32 (b * x))) in
  let x := u32 (u32 (Z.shiftl (Z.land (u32 (b + 2)) 4) 1) + b) in
  let x := newton (newton (newton x)) in
  Ok (u32 (u64 (Z.shiftl 1 32 - x))).

Definition pstm_montgomery_calc_normalization (a b : pstm_int) : result pstm_int :=
  let! bits := pstm_count_bits b in
  let bits := (bits mod DIGIT_BIT)%nat in
  let bits := if (bits =? 0)%nat then DIGIT_BIT else bits in
  let! (a, bits) := (if (1 <? used b)%nat
    then let! a := pstm_2expt a ((used b - 1) * DIGIT_BIT + bits - 1) in Ok (a, bits)
    else let! a := pstm_set a 1 in Ok (a, 1%nat)) in
  for_up (DIGIT_BIT - (bits - 1)) (bits - 1)
    (fun _ a =>
       let! a := failing PS_MEM_FAIL (pstm_mul_2 a a) in
       let! cmp := pstm_cmp_mag a b in
       if negb (cmp =? PSTM_LT) then failing PS_MEM_FAIL (s_pstm_sub a b a) else Ok a) a.

(** [INNERMUL]: the new digit and the new carry. *)
Definition INNERMUL (c cy mu m : Z) : Z * Z :=
  let t := u64 (u64 (c + cy) + u64 (mu * m)) in (u32 t, Z.shiftr t 32).

(** [while (cy) { PROPCARRY; ++_c; }] *)
Fixpoint prop_carry (fuel : nat) (c : list Z) (i : nat) (cy : Z) : result (list Z) :=
  if cy =? 0 then Ok c else
  match fuel with
  | O => Diverge
  | S fuel =>
      let! v := load1 c i in
      let t := u32 (v + cy) in
      let! c := store1 c i t in
      prop_carry fuel c (S i) (b2z (t <? cy))
  end.

(** The array [c]: [paD] when it is long enough, in bytes, for [2*pa+1]; else
    [2*pa+1] bytes. *)
Definition mont_array (pad : nat) (pa : nat) : list Z :=
  if (2 * pa + 1 <=? pad)%nat then repeat 0 (pad / 4) else repeat 0 ((2 * pa + 1) / 4).

Definition mont_round (m : pstm_int) (mp : Z) (pa x : nat) (c : list Z) : result (list Z) :=
  let! cx := load1 c x in
  let mu := u32 (cx * mp) in
  let! (c, cy) := for_up pa 0
    (fun y '(c, cy) =>
       let! v := load1 c (x + y) in
       let! my := load1 (dp m) y in
       let (v, cy) := INNERMUL v cy mu my in
       let! c := store1 c (x + y) v in
       Ok (c, cy)) (c, 0) in
  prop_carry (S (length c)) c (x + pa) cy.

(** [pad] is [paDlen], in bytes. *)
Definition pstm_montgomery_reduce (a m : pstm_int) (mp : Z) (pad : nat) : result pstm_int :=
  let pa := used m in
  if (alloc a <? pa)%nat then Die (Code PS_LIMIT_FAIL) else
  let oldused := used a in
  let! c := for_up oldused 0 (fun x c => let! v := load1 (dp a) x in store1 c x v) (mont_array pad pa) in
  let! c := for_up pa 0 (mont_round m mp pa) c in
  let! d := for_up (pa + 1) 0 (fun x d => let! v := load1 c (pa + x) in store1 d x v) (dp a) in
  let! d := clear_digits d (pa + 1) oldused in
  let! a := pstm_clamp (mk_pstm (pa + 1) (sign a) d) in
  let! cmp := pstm_cmp_mag a m in
  if negb (cmp =? PSTM_LT) then failing PS_MEM_FAIL (s_pstm_sub a m a) else Ok a.

(** ** Modular exponentiation *)

(** The table [M]; an entry that was not initialised is [None]. *)
Definition load_M (M : list (option pstm_int)) (i : nat) : result pstm_int :=
  let! o := load1 M i in
  match o with Some a => Ok a | None => Fault end.

Section Exptmod.
Variables (X P : pstm_int) (mp : Z) (pad winsize : nat).

Definition square (a : pstm_int) : result pstm_int :=
  let! a := pstm_sqr_comba a a (Some pad) in
  pstm_montgomery_reduce a P mp pad.

Fixpoint squares (n : nat) (a : pstm_int) : result pstm_int :=
  match n with O => Ok a | S n => let! a := square a in squares n a end.

(** [c = a * b], reduced *)
Definition product (a b c : pstm_int) : result pstm_int :=
  let! c := pstm_mul_comba a b c (Some pad) in
  pstm_montgomery_reduce c P mp pad.

(** The entries [2^(winsize-1)], ..., [2^winsize - 1] of the table, from
    [M[1]]. *)
Definition fill_table (M1 : pstm_int) : result (list (option pstm_int)) :=
  let half := (2 ^ (winsize - 1))%nat in
  let M := upd (repeat None 32) 1 (Some M1) in
  let! a := failing PS_MEM_FAIL (pstm_init_copy M1 true) in
  let! a := squares (winsize - 1) a in
  let! M := store1 M half (Some a) in
  let! M := for_up (half - 1) (half + 1)
    (fun x M => store1 M x (Some (pstm_init_size (alloc a + 1)))) M in
  for_up (half - 1) (half + 1)
    (fun x M =>
       let! prev := load_M M (x - 1) in
       let! m1 := load_M M 1 in
       let! old := load_M M x in
       let! m := product prev m1 old in
       store1 M x (Some m)) M.

(** The variables of the main loop; [digidx] is one more than in the code. *)
Record window := mk_window {
  mode : nat; bitcnt : nat; buf : Z; digidx : nat; bitcpy : nat; bitbuf : Z; acc : pstm_int }.

(** A bit [y] of the exponent. *)
Definition exp_bit (M : list (option pstm_int)) (s : window) (y : Z) : result window :=
  if (mode s =? 0)%nat && (y =? 0) then Ok s
  else if (mode s =? 1)%nat && (y =? 0) then
    let! r := square (acc s) in
    Ok (mk_window (mode s) (bitcnt s) (buf s) (digidx s) (bitcpy s) (bitbuf s) r)
  else
    let cpy := (bitcpy s + 1)%nat in
    let bits := Z.lor (bitbuf s) (Z.shiftl y (Z.of_nat (winsize - cpy))) in
    if (cpy =? winsize)%nat then
      let! r := squares winsize (acc s) in
      let! m := load_M M (Z.to_nat bits) in
      let! r := product r m r in
      Ok (mk_window 1 (bitcnt s) (buf s) (digidx s) 0 0 r)
    else Ok (mk_window 2 (bitcnt s) (buf s) (digidx s) cpy bits (acc s)).

(** [for (;;)]; [None] is [break] *)
Definition next_bit (s : window) : result (option (window * Z)) :=
  let cnt := (bitcnt s - 1)%nat in
  let! s := (if (cnt =? 0)%nat then
      match digidx s with
      | O => Ok None
      | S i =>
          let! d := load1 (dp X) i in
          Ok (Some (mk_window (mode s) DIGIT_BIT d i (bitcpy s) (bitbuf s) (acc s)))
      end
    else Ok (Some (mk_window (mode s) cnt (buf s) (digidx s) (bitcpy s) (bitbuf s) (acc s)))) in
  match s with
  | None => Ok None
  | Some s =>
      let y := Z.land (Z.shiftr (buf s) 31) 1 in
      Ok (Some (mk_window (mode s) (bitcnt s) (u32 (Z.shiftl (buf s) 1)) (digidx s) (bitcpy s) (bitbuf s) (acc s), y))
  end.

Fixpoint exp_loop (fuel : nat) (M : list (option pstm_int)) (s : window) : result window :=
  let! o := next_bit s in
  match o with
  | None => Ok s
  | Some (s, y) =>
      match fuel with
      | O => Diverge
      | S fuel => let! s := exp_bit M s y in exp_loop fuel M s
      end
  end.

(** The bits that remain in the window. *)
Fixpoint exp_rest (n : nat) (M : list (option pstm_int)) (bits : Z) (r : pstm_int) : result pstm_int :=
  match n with
  | O => Ok r
  | S n =>
      let! r := square r in
      let bits := Z.shiftl bits 1 in
      let! r := (if Z.land bits (Z.shiftl 1 (Z.of_nat winsize)) =? 0 then Ok r
                 else let! m1 := load_M M 1 in product r m1 r) in
      exp_rest n M bits r
  end.

Definition exponentiate (M1 res : pstm_int) : result pstm_int :=
  let! M := fill_table M1 in
  let! s := exp_loop (DIGIT_BIT * used X) M (mk_window 0 1 0 (used X) 0 0 res) in
  let! r := (if (mode s =? 2)%nat && (0 <? bitcpy s)%nat
             then exp_rest (bitcpy s) M (bitbuf s) (acc s) else Ok (acc s)) in
  pstm_montgomery_reduce r P mp pad.
End Exptmod.

(** [Y = G^X mod P] *)
Definition pstm_exptmod (G X P Y : pstm_int) : result pstm_int :=
  let! bits := pstm_count_bits X in
  let winsize := if (bits <? 50)%nat then 2%nat else PS_EXPTMOD_WINSIZE in
  let! mp := pstm_montgomery_setup P in
  let! res := pstm_montgomery_calc_normalization (pstm_init_size (used P * 2 + 1)) P in
  let M1 := pstm_init_size (used res) in
  let! cmp := pstm_cmp_mag P G in
  let! M1 := (if negb (cmp =? PSTM_GT) then pstm_mod G P M1 else pstm_copy G M1) in
  let! M1 := pstm_mulmod true M1 res P M1 in
  let pad := ((used M1 + 3) * 2 * 4)%nat in
  let! r := exponentiate X P mp pad winsize M1 res in
  pstm_copy r Y.

(** ** Conversion to bytes *)

(** The bytes of [t], the least significant first, from [b[x]]; [fuel] bounds
    their number. *)
Fixpoint bin_loop (fuel : nat) (t : pstm_int) (b : list Z) (x : nat) : result (list Z * nat) :=
  if (used t =? 0)%nat then Ok (b, x) else
  match fuel with
  | O => Diverge
  | S fuel =>
      let! v := load1 (dp t) 0 in
      let! b := store1 b x (Z.land v 255) in
      let! t := pstm_div_2d t 8 t in
      bin_loop fuel t b (S x)
  end.

(** [pstm_reverse(b + pos, len)] *)
Fixpoint pstm_reverse (n : nat) (b : list Z) (ix iy : nat) : result (list Z) :=
  match n with
  | O => Ok b
  | S n =>
      let! x := load1 b ix in
      let! y := load1 b iy in
      let! b := store1 b ix y in
      let! b := store1 b iy x in
      pstm_reverse n b (ix + 1) (iy - 1)
  end.

(** The bytes are stored from [b + pos]. *)
Definition pstm_to_unsigned_bin (a : pstm_int) (b : list Z) (pos : nat) : result (list Z) :=
  let! t := pstm_init_copy a false in
  let! (b, x) := bin_loop (4 * used a) t b pos in
  pstm_reverse ((x - pos) / 2) b pos (x - 1).

End Pstm.
