(* ===== verification/PstmVal.v ===== *)
(** * Multiple-precision integers: values and the linear operations

    The value of an array of digits, the invariant [ok] of a [pstm_int], and
    what the operations of networking/tls_pstm.c that go once over the digits
    compute: copies, comparisons, shifts, sums and differences. *)

From Stdlib Require Import ZArith List Lia Bool.
From S2P Require Import Prelude Words Mem Pstm.
Import ListNotations.
Local Open Scope Z_scope.
Local Open Scope res_scope.

Module PstmV.
Import Pstm.

(** ** Values *)

Definition B : Z := 2 ^ 32.
Definition digit (x : Z) : Prop := 0 <= x < B.
Definition pB (n : nat) : Z := B ^ Z.of_nat n.

Fixpoint dvalue (l : list Z) : Z := match l with [] => 0 | d :: l => d + B * dvalue l end.

(** The magnitude: the digits from [used] on are zero. *)
Definition mag (a : pstm_int) : Z := dvalue (dp a).
Definition sval (a : pstm_int) : Z := if sign a then - mag a else mag a.

Definition zeros (l : list Z) : Prop := Forall (eq 0) l.

Definition raw (a : pstm_int) : Prop :=
  (used a <= alloc a)%nat /\ Forall digit (dp a) /\ zeros (skipn (used a) (dp a)).

(** No zeros in front, and no negative zero. *)
Definition ok (a : pstm_int) : Prop :=
  raw a /\ (used a = O \/ nth (used a - 1) (dp a) 0 <> 0) /\ (used a = O -> sign a = false).

Lemma Bpos : 0 < B. Proof. reflexivity. Qed.
Lemma pB_pos n : 0 < pB n. Proof. apply Z.pow_pos_nonneg; [reflexivity|lia]. Qed.
Lemma pB_S n : pB (S n) = B * pB n.
Proof. unfold pB. rewrite Nat2Z.inj_succ, Z.pow_succ_r by lia. reflexivity. Qed.
Lemma pB_0 : pB 0 = 1. Proof. reflexivity. Qed.
Lemma pB_1 : pB 1 = B. Proof. reflexivity. Qed.
Lemma pB_add n m : pB (n + m) = pB n * pB m.
Proof. unfold pB. rewrite Nat2Z.inj_add. apply Z.pow_add_r; lia. Qed.
Lemma pB_le n m : (n <= m)%nat -> pB n <= pB m.
Proof. intros H. apply Z.pow_le_mono_r; [reflexivity|lia]. Qed.
Lemma pB_lt n m : (n < m)%nat -> pB n < pB m.
Proof. intros H. apply Z.pow_lt_mono_r; [reflexivity|lia..]. Qed.

Lemma dvalue_app l m : dvalue (l ++ m) = dvalue l + pB (length l) * dvalue m.
Proof.
  induction l as [|d l IH]; cbn [app dvalue length]; [rewrite pB_0; ring|]. rewrite IH, pB_S. ring.
Qed.

Lemma dvalue_snoc l d : dvalue (l ++ [d]) = dvalue l + pB (length l) * d.
Proof. rewrite dvalue_app. cbn [dvalue]. ring. Qed.

Lemma dvalue_zeros n : dvalue (repeat 0 n) = 0.
Proof. induction n as [|n IH]; cbn [repeat dvalue]; [reflexivity|]. rewrite IH. reflexivity. Qed.

Lemma dvalue_range l : Forall digit l -> 0 <= dvalue l < pB (length l).
Proof.
  induction 1 as [|d l Hd Hl IH]; cbn [dvalue length]; [rewrite pB_0; lia|]. rewrite pB_S.
  unfold digit in Hd. pose proof Bpos. nia.
Qed.

Lemma dvalue_inj l m : Forall digit l -> Forall digit m -> length l = length m -> dvalue l = dvalue m -> l = m.
Proof.
  intros Hl. revert m; induction Hl as [|d l Hd Hl IH]; intros [|e m] Hm Hn E; try discriminate; [reflexivity|].
  inversion Hm; subst. cbn [dvalue] in E. unfold digit in *. pose proof Bpos.
  assert (Ed : d = e).
  { apply (f_equal (fun z => z mod B)) in E. rewrite !(Z.mul_comm B), !Z.mod_add, !Z.mod_small in E by lia. exact E. }
  subst e. f_equal. apply IH; auto. nia.
Qed.

Lemma dvalue_firstn_skipn n l : (n <= length l)%nat -> dvalue l = dvalue (firstn n l) + pB n * dvalue (skipn n l).
Proof. intros H. rewrite <- (firstn_skipn n l) at 1. rewrite dvalue_app, length_firstn, Nat.min_l by exact H. reflexivity. Qed.

Lemma dvalue_firstn_S n l : dvalue (firstn (S n) l) = dvalue (firstn n l) + pB n * nth n l 0.
Proof.
  destruct (Nat.lt_ge_cases n (length l)).
  - rewrite (firstn_S_nth l n 0) by assumption. rewrite dvalue_snoc, length_firstn, Nat.min_l by lia. reflexivity.
  - rewrite !firstn_all2, nth_overflow by lia. ring.
Qed.

Lemma dvalue_upd_last n l v : (n < length l)%nat -> dvalue (upd l n v) = dvalue l + pB n * (v - nth n l 0).
Proof.
  revert n; induction l as [|d l IH]; intros [|n] H; cbn [length] in H; try lia; cbn [upd dvalue nth].
  - rewrite pB_0. ring.
  - rewrite IH, pB_S by lia. ring.
Qed.

(** ** The invariant *)

Lemma zeros_dvalue l : zeros l -> dvalue l = 0.
Proof. induction 1 as [|d l <- _ IH]; cbn [dvalue]; [reflexivity|]. rewrite IH. ring. Qed.

Lemma zeros_repeat n : zeros (repeat 0 n).
Proof. apply Forall_forall. intros x Hx. apply repeat_spec in Hx. auto. Qed.

Lemma zeros_nth l i : zeros l -> nth i l 0 = 0.
Proof.
  intros H. destruct (Nat.lt_ge_cases i (length l)) as [Hi|Hi]; [|apply nth_overflow, Hi].
  unfold zeros in H. rewrite Forall_forall in H. symmetry. apply H, nth_In, Hi.
Qed.

Lemma zeros_of_dvalue l : Forall digit l -> dvalue l = 0 -> zeros l.
Proof.
  induction 1 as [|d l Hd Hl IH]; intros E; constructor; cbn [dvalue] in E; unfold digit in Hd;
    pose proof (dvalue_range l Hl); pose proof Bpos; [nia|]. apply IH. nia.
Qed.

Lemma zero_digits n : Forall digit (repeat 0 n).
Proof. apply Forall_forall. intros x Hx. apply repeat_spec in Hx. subst. unfold digit. pose proof Bpos. lia. Qed.

Lemma digit_nth l i : Forall digit l -> digit (nth i l 0).
Proof.
  intros Hl. destruct (Nat.lt_ge_cases i (length l)).
  - rewrite Forall_forall in Hl. apply Hl, nth_In. assumption.
  - rewrite nth_overflow by assumption. unfold digit. pose proof Bpos. lia.
Qed.

Lemma raw_mag a : raw a -> mag a = dvalue (firstn (used a) (dp a)).
Proof.
  intros (Hu & Hd & Hz). unfold mag. rewrite (dvalue_firstn_skipn (used a)) by exact Hu.
  rewrite (zeros_dvalue _ Hz). ring.
Qed.

Lemma raw_range a : raw a -> 0 <= mag a < pB (used a).
Proof.
  intros H. rewrite raw_mag by exact H. destruct H as (Hu & Hd & _).
  pose proof (dvalue_range (firstn (used a) (dp a)) (Forall_firstn _ _ _ Hd)) as Hr.
  rewrite length_firstn, Nat.min_l in Hr by exact Hu. exact Hr.
Qed.

Lemma raw_nth_above a i : raw a -> (used a <= i)%nat -> nth i (dp a) 0 = 0.
Proof.
  intros (_ & _ & Hz) Hi. pose proof (zeros_nth _ (i - used a) Hz) as E. rewrite nth_skipn in E.
  replace (used a + (i - used a))%nat with i in E by lia. exact E.
Qed.

Lemma ok_raw a : ok a -> raw a. Proof. intros H. apply H. Qed.

Lemma top_digit a : raw a -> (0 < used a)%nat -> mag a = dvalue (firstn (used a - 1) (dp a)) + pB (used a - 1) * nth (used a - 1) (dp a) 0.
Proof.
  intros H Hu. rewrite raw_mag by exact H. destruct H as (Ha & _). unfold alloc in Ha.
  rewrite <- dvalue_firstn_S by lia. do 2 f_equal. lia.
Qed.

Lemma ok_range a : ok a -> (0 < used a)%nat -> pB (used a - 1) <= mag a < pB (used a).
Proof.
  intros (Hr & Ht & _) Hu. split; [|apply raw_range, Hr]. rewrite top_digit by assumption.
  destruct Ht as [Ht|Ht]; [lia|]. pose proof (pB_pos (used a - 1)).
  pose proof (digit_nth (dp a) (used a - 1) (proj1 (proj2 Hr))) as Hd. unfold digit in Hd.
  pose proof (dvalue_range (firstn (used a - 1) (dp a)) (Forall_firstn _ _ _ (proj1 (proj2 Hr)))). nia.
Qed.

Lemma used_mag a : ok a -> (used a = O <-> mag a = 0).
Proof.
  intros H. split; intros E.
  - pose proof (raw_range a (ok_raw a H)) as Hr. rewrite E, pB_0 in Hr. lia.
  - destruct (Nat.eq_dec (used a) 0) as [|Hn]; [assumption|].
    pose proof (ok_range a H ltac:(lia)). pose proof (pB_pos (used a - 1)). lia.
Qed.

(** The number of digits is determined by the value. *)
Lemma used_le a n : ok a -> mag a < pB n -> (used a <= n)%nat.
Proof.
  intros H Hm. destruct (Nat.le_gt_cases (used a) n) as [|Hn]; [assumption|].
  pose proof (ok_range a H ltac:(lia)). pose proof (pB_le n (used a - 1) ltac:(lia)). lia.
Qed.

Lemma used_ge a n : raw a -> pB n <= mag a -> (n < used a)%nat.
Proof.
  intros H Hm. destruct (Nat.lt_ge_cases n (used a)) as [|Hn]; [assumption|].
  pose proof (raw_range a H). pose proof (pB_le (used a) n Hn). lia.
Qed.

Lemma used_mono a b : ok a -> raw b -> mag a <= mag b -> (used a <= used b)%nat.
Proof. intros Ha Hb H. apply used_le; [exact Ha|]. pose proof (raw_range b Hb). lia. Qed.

Lemma mk_raw n s d : (n <= length d)%nat -> Forall digit d -> zeros (skipn n d) -> raw (mk_pstm n s d).
Proof. intros. repeat split; assumption. Qed.

Lemma init_size_ok n : ok (pstm_init_size n).
Proof.
  split; [|split; [left|]; reflexivity]. apply mk_raw; [apply Nat.le_0_l|apply zero_digits|apply zeros_repeat].
Qed.

Lemma alloc_init n : alloc (pstm_init_size n) = n.
Proof. apply repeat_length. Qed.

(** ** Loops over digits *)

Lemma mid_nth (pre out rest : list Z) k : length out = k -> nth (length pre + k) (pre ++ out ++ skipn k rest) 0 = nth k rest 0.
Proof.
  intros <-. rewrite app_nth2_plus, app_nth2 by lia. rewrite Nat.sub_diag, nth_skipn, Nat.add_0_r. reflexivity.
Qed.

Lemma mid_upd (pre out rest : list Z) k v :
  length out = k -> (k < length rest)%nat ->
  upd (pre ++ out ++ skipn k rest) (length pre + k) v = pre ++ (out ++ [v]) ++ skipn (S k) rest.
Proof.
  intros <- Hk. rewrite !app_assoc, <- length_app. generalize (pre ++ out) as l. intros l.
  rewrite (skipn_cons rest (length out) 0), <- app_assoc by exact Hk. cbn [app].
  induction l as [|x l IH]; cbn [app length upd]; [reflexivity|]. rewrite IH. reflexivity.
Qed.

Lemma mid_length (pre out rest : list Z) k :
  length out = k -> (k <= length rest)%nat -> length (pre ++ out ++ skipn k rest) = (length pre + length rest)%nat.
Proof. intros <- H. rewrite !length_app, length_skipn. lia. Qed.

(** A loop that stores one digit after the other behind [pre] and carries
    [t]. *)
Lemma digits_up {T} (I : nat -> list Z -> T -> Prop) (body : nat -> list Z * T -> result (list Z * T)) n pre rest t0 :
  (n <= length rest)%nat -> I O [] t0 ->
  (forall k out t, (k < n)%nat -> length out = k -> I k out t ->
     exists v t', body (length pre + k)%nat (pre ++ out ++ skipn k rest, t)
                  = Ok (upd (pre ++ out ++ skipn k rest) (length pre + k) v, t') /\ I (S k) (out ++ [v]) t') ->
  exists out t, for_up n (length pre) body (pre ++ rest, t0) = Ok (pre ++ out ++ skipn n rest, t)
    /\ length out = n /\ I n out t.
Proof.
  intros Hn H0 Hb.
  assert (G : forall m k out t, (k + m = n)%nat -> length out = k -> I k out t ->
    exists out' t', for_up m (length pre + k) body (pre ++ out ++ skipn k rest, t) = Ok (pre ++ out' ++ skipn n rest, t')
      /\ length out' = n /\ I n out' t').
  { induction m as [|m IH]; intros k out t Hk Hl Hi; cbn [for_up].
    - replace k with n in * by lia. exists out, t. auto.
    - destruct (Hb k out t ltac:(lia) Hl Hi) as (v & t' & E & Hi'). rewrite E. cbn [rbind].
      rewrite mid_upd by lia. rewrite <- Nat.add_succ_r. apply IH; [lia|rewrite length_app; cbn; lia|exact Hi']. }
  specialize (G n O [] t0 ltac:(lia) eq_refl H0). rewrite Nat.add_0_r in G. exact G.
Qed.

Lemma store1_ok {A} (l : list A) i v : (i < length l)%nat -> @store1 error A l i v = Ok (upd l i v).
Proof. intros H. unfold store1. destruct (Nat.ltb_spec i (length l)); [reflexivity|lia]. Qed.

(** A loop that copies [n] elements of [src], from [k + a] on, to [a] and
    on. *)
Lemma copy_up (src : list Z) k n a d :
  (a + n <= length d)%nat -> (k + a + n <= length src)%nat ->
  for_up n a (fun i d => let! v := @load1 error Z src (k + i) in store1 d i v) d = Ok (blit d a (slice (k + a) n src)).
Proof.
  revert a d; induction n as [|n IH]; intros a d Hd Hs; cbn [for_up].
  - unfold blit, slice. cbn [firstn app length]. rewrite Nat.add_0_r, firstn_skipn. reflexivity.
  - rewrite (load1_ok _ _ 0) by lia. cbn [rbind]. rewrite store1_ok by lia. cbn [rbind].
    rewrite IH by (rewrite ?length_upd; lia). f_equal.
    assert (Es : slice (k + a) (S n) src = nth (k + a) src 0 :: slice (k + S a) n src).
    { unfold slice. rewrite (skipn_cons src (k + a) 0) by lia. cbn [firstn]. do 3 f_equal. lia. }
    rewrite Es. unfold blit. rewrite (firstn_upd d a) by lia. cbn [length].
    rewrite <- app_assoc. cbn [app]. do 3 f_equal. rewrite skipn_upd by lia. f_equal. lia.
Qed.

Lemma clear_ok d n m : (n <= m)%nat -> (m <= length d)%nat -> clear_digits d n m = Ok (blit d n (repeat 0 (m - n))).
Proof.
  intros Hn Hm. unfold clear_digits. set (k := (m - n)%nat). assert (Hk : (n + k <= length d)%nat) by lia. clearbody k. clear Hn Hm.
  revert n d Hk; induction k as [|k IH]; intros n d Hk; cbn [for_up repeat].
  - unfold blit. cbn [app length]. rewrite Nat.add_0_r, firstn_skipn. reflexivity.
  - rewrite store1_ok by lia. cbn [rbind]. rewrite IH by (rewrite length_upd; lia). f_equal. unfold blit.
    rewrite firstn_upd by lia. cbn [length]. rewrite <- app_assoc. cbn [app]. do 3 f_equal.
    rewrite skipn_upd by lia. f_equal. lia.
Qed.

Lemma clear_none d n m : (m <= n)%nat -> clear_digits d n m = Ok d.
Proof. intros H. unfold clear_digits. replace (m - n)%nat with O by lia. reflexivity. Qed.

(** Clearing what is left of an old value: everything above the new digits is
    zero. *)
Lemma clear_rest out rest m :
  Forall digit out -> zeros (skipn (m - length out) rest) -> Forall digit rest -> (m <= length out + length rest)%nat ->
  exists d, clear_digits (out ++ rest) (length out) m = Ok (out ++ d) /\ zeros d /\ length d = length rest.
Proof.
  intros Ho Hz Hr Hm. destruct (Nat.le_gt_cases m (length out)) as [Hle|Hgt].
  - exists rest. rewrite clear_none by exact Hle. replace (m - length out)%nat with O in Hz by lia. auto.
  - rewrite clear_ok by (rewrite ?length_app; lia). unfold blit.
    rewrite firstn_app, Nat.sub_diag, firstn_all, firstn_O, app_nil_r, repeat_length.
    replace (length out + (m - length out))%nat with m by lia.
    rewrite skipn_app, (skipn_all2 out) by lia. cbn [app].
    eexists. split; [reflexivity|]. split; [apply Forall_app; split; [apply zeros_repeat|exact Hz]|].
    rewrite length_app, repeat_length, length_skipn. lia.
Qed.

(** ** Memory, copies and comparison *)

Lemma grow_if a n : (if (alloc a <? n)%nat then pstm_grow a n else a) = pstm_grow a n.
Proof. unfold pstm_grow. destruct (Nat.ltb_spec (alloc a) n); reflexivity. Qed.

Lemma grow_dp a n : exists k, dp (pstm_grow a n) = dp a ++ repeat 0 k /\ (length (dp a) + k = Nat.max (alloc a) n)%nat.
Proof.
  unfold pstm_grow. destruct (Nat.ltb_spec (alloc a) n); cbn [dp].
  - exists (n - alloc a)%nat. split; [reflexivity|]. unfold alloc in *. lia.
  - exists O. rewrite app_nil_r. split; [reflexivity|]. unfold alloc in *. lia.
Qed.

Lemma grow_used a n : used (pstm_grow a n) = used a.
Proof. unfold pstm_grow. destruct (_ <? _)%nat; reflexivity. Qed.
Lemma grow_sign a n : sign (pstm_grow a n) = sign a.
Proof. unfold pstm_grow. destruct (_ <? _)%nat; reflexivity. Qed.

Lemma grow_alloc a n : alloc (pstm_grow a n) = Nat.max (alloc a) n.
Proof. destruct (grow_dp a n) as (k & E & H). unfold alloc at 1. rewrite E, length_app, repeat_length. exact H. Qed.

Lemma grow_mag a n : mag (pstm_grow a n) = mag a.
Proof. destruct (grow_dp a n) as (k & E & _). unfold mag. rewrite E, dvalue_app, dvalue_zeros. ring. Qed.

Lemma grow_raw a n : raw a -> raw (pstm_grow a n).
Proof.
  intros (Hu & Hd & Hz). destruct (grow_dp a n) as (k & E & H). split; [rewrite grow_used, grow_alloc; lia|].
  rewrite grow_used, E. split; [apply Forall_app; auto using zero_digits|].
  rewrite skipn_app. apply Forall_app. split; [exact Hz|]. apply Forall_skipn, zeros_repeat.
Qed.

Lemma clamp_used_spec d n :
  (n <= length d)%nat -> exists m, clamp_used d n = Ok m /\ (m <= n)%nat /\ (m = O \/ nth (m - 1) d 0 <> 0)
    /\ forall i, (m <= i < n)%nat -> nth i d 0 = 0.
Proof.
  induction n as [|n IH]; intros H; cbn [clamp_used].
  - exists O. repeat split; auto. intros; lia.
  - rewrite (load1_ok _ _ 0) by lia. cbn [rbind]. destruct (Z.eqb_spec (nth n d 0) 0) as [E|E].
    + destruct (IH ltac:(lia)) as (m & Em & Hm & Ht & Hz). exists m. repeat split; auto; try lia.
      intros i Hi. destruct (Nat.eq_dec i n) as [->|]; [exact E|]. apply Hz. lia.
    + exists (S n). split; [reflexivity|]. split; [lia|]. split; [right|intros; lia].
      replace (S n - 1)%nat with n by lia. exact E.
Qed.

Lemma clamp_spec a :
  raw a -> exists a', pstm_clamp a = Ok a' /\ ok a' /\ dp a' = dp a /\ (used a' <= used a)%nat
    /\ sign a' = (if mag a =? 0 then false else sign a).
Proof.
  intros (Hu & Hd & Hz). destruct (clamp_used_spec (dp a) (used a) Hu) as (m & E & Hm & Ht & Hzm).
  unfold pstm_clamp. rewrite E. cbn [rbind]. eexists. split; [reflexivity|].
  assert (Hraw : raw (mk_pstm m (if (m =? 0)%nat then false else sign a) (dp a))).
  { split; [cbn [used alloc dp]; unfold alloc in *; cbn; lia|]. cbn [used dp]. split; [exact Hd|].
    apply Forall_nth. intros i x Hi. rewrite (nth_indep _ x 0) by exact Hi. rewrite nth_skipn.
    rewrite length_skipn in Hi. symmetry. destruct (Nat.lt_ge_cases (m + i) (used a)); [apply Hzm; lia|].
    apply (raw_nth_above a); [repeat split; assumption|assumption]. }
  assert (Hok : ok (mk_pstm m (if (m =? 0)%nat then false else sign a) (dp a))).
  { split; [exact Hraw|]. split; [exact Ht|]. cbn [used sign]. intros ->. reflexivity. }
  split; [exact Hok|]. split; [reflexivity|]. split; [exact Hm|].
  pose proof (used_mag _ Hok) as Hz0. cbn [used mag dp] in Hz0. cbn [sign].
  change (mag _) with (mag a) in Hz0.
  destruct (Nat.eqb_spec m 0) as [->|Hn], (Z.eqb_spec (mag a) 0) as [|Hmz]; auto; tauto.
Qed.

(** The end of an operation: [out] are the new digits, [rest] what is left of
    the array, zero from the old [used] on. *)
Lemma finish_spec out rest m s :
  Forall digit out -> zeros (skipn (m - length out) rest) -> Forall digit rest -> (m <= length out + length rest)%nat ->
  exists c, (let! d := clear_digits (out ++ rest) (length out) m in pstm_clamp (mk_pstm (length out) s d)) = Ok c
    /\ ok c /\ mag c = dvalue out /\ alloc c = (length out + length rest)%nat
    /\ sign c = (if dvalue out =? 0 then false else s).
Proof.
  intros Ho Hz Hr Hm. destruct (clear_rest out rest m Ho Hz Hr Hm) as (d & E & Hd & Hl). rewrite E. cbn [rbind].
  assert (Hraw : raw (mk_pstm (length out) s (out ++ d))).
  { apply mk_raw; [rewrite length_app; lia| |].
    - apply Forall_app. split; [exact Ho|]. eapply Forall_impl; [|exact Hd]. intros x <-. unfold digit. pose proof Bpos. lia.
    - rewrite skipn_app, skipn_all, Nat.sub_diag. exact Hd. }
  assert (Em : mag (mk_pstm (length out) s (out ++ d)) = dvalue out).
  { unfold mag. cbn [dp]. rewrite dvalue_app, (zeros_dvalue d Hd). ring. }
  destruct (clamp_spec _ Hraw) as (c & Ec & Hok & Edp & _ & Es). exists c. split; [exact Ec|]. split; [exact Hok|].
  rewrite Em in Es. unfold mag, alloc in *. rewrite Edp. cbn [dp] in *. split; [exact Em|]. split; [rewrite length_app; lia|exact Es].
Qed.

(** What is left of an array whose first [k] digits were replaced. *)
Lemma rest_zeros c k : raw c -> zeros (skipn (used c - k) (skipn k (dp c))).
Proof.
  intros (Hu & _ & Hz). rewrite skipn_skipn. destruct (Nat.le_gt_cases k (used c)).
  - replace (used c - k + k)%nat with (used c) by lia. exact Hz.
  - replace (used c - k + k)%nat with (k - used c + used c)%nat by lia. rewrite <- skipn_skipn. apply Forall_skipn, Hz.
Qed.

Lemma pstm_copy_spec a b :
  raw a -> raw b -> exists c, pstm_copy a b = Ok c /\ raw c /\ used c = used a /\ sign c = sign a /\ mag c = mag a
    /\ alloc c = Nat.max (alloc b) (used a) /\ firstn (used a) (dp c) = firstn (used a) (dp a).
Proof.
  intros Ha Hb. unfold pstm_copy. rewrite grow_if. pose proof (grow_raw b (used a) Hb) as Hg.
  pose proof (grow_alloc b (used a)) as Eg. rewrite !grow_used. pose proof (grow_used b (used a)) as Eu.
  set (g := pstm_grow b (used a)) in *. clearbody g.
  pose proof (proj1 Ha) as Hla. unfold alloc in Hla, Eg.
  pose proof (copy_up (dp a) 0 (used a) 0 (dp g) ltac:(lia) ltac:(lia)) as E. cbn [Nat.add] in E. rewrite E. cbn [rbind].
  set (out := slice 0 (used a) (dp a)). assert (Hlo : length out = used a) by (unfold out; rewrite length_slice; lia).
  assert (Ho : Forall digit out) by (apply Forall_firstn, Forall_skipn, Ha).
  unfold blit. cbn [firstn app Nat.add]. rewrite <- Eu.
  destruct (clear_rest out (skipn (length out) (dp g)) (used g) Ho) as (d & Ed & Hd & Hl).
  { apply rest_zeros, Hg. } { apply Forall_skipn, Hg. } { rewrite length_skipn. destruct Hg as (Hg & _). unfold alloc in Hg. lia. }
  rewrite <- Hlo. rewrite Ed. cbn [rbind]. eexists. split; [reflexivity|].
  rewrite length_skipn in Hl. unfold alloc, mag. cbn [used sign dp].
  rewrite length_app, dvalue_app, (zeros_dvalue d Hd), Z.mul_0_r, Z.add_0_r.
  split; [|split; [lia|]; split; [reflexivity|]; split; [|split; [rewrite Hl; lia|]]].
  - apply mk_raw; [rewrite length_app; lia| |rewrite skipn_app, skipn_all, Nat.sub_diag; exact Hd].
    apply Forall_app. split; [exact Ho|]. eapply Forall_impl; [|exact Hd]. intros x <-. unfold digit. pose proof Bpos. lia.
  - symmetry. exact (raw_mag a Ha).
  - rewrite firstn_app, Nat.sub_diag, firstn_all, firstn_O, app_nil_r, Hlo. reflexivity.
Qed.

Lemma pstm_copy_ok a b :
  ok a -> raw b -> exists c, pstm_copy a b = Ok c /\ ok c /\ used c = used a /\ sign c = sign a /\ mag c = mag a
    /\ alloc c = Nat.max (alloc b) (used a).
Proof.
  intros (Ha & Ht & Hs) Hb. destruct (pstm_copy_spec a b Ha Hb) as (c & E & Hc & Eu & Es & Em & El & Ef).
  exists c. split; [exact E|]. split; [|auto]. split; [exact Hc|]. split.
  - rewrite Eu. destruct Ht as [Ht|Ht]; [left; exact Ht|right].
    destruct (Nat.eq_dec (used a) 0) as [E0|E0]; [destruct Ha as (Ha & _ & Hz)|].
    + rewrite (zeros_nth (dp a)) in Ht; [contradiction|]. rewrite E0 in Hz. exact Hz.
    + intros E1. apply Ht. apply (f_equal (fun l => nth (used a - 1) l 0)) in Ef.
      rewrite !nth_firstn in Ef. destruct (Nat.ltb_spec (used a - 1) (used a)); [|lia]. congruence.
  - rewrite Es, Eu. auto.
Qed.

(** A copy of a number to itself changes nothing. *)
Lemma copy_self a : raw a -> pstm_copy a a = Ok a.
Proof.
  intros Ha. pose proof (proj1 Ha) as Hl. unfold pstm_copy. rewrite grow_if.
  assert (Eg : pstm_grow a (used a) = a) by (unfold pstm_grow; destruct (Nat.ltb_spec (alloc a) (used a)); [lia|reflexivity]).
  rewrite Eg. unfold alloc in Hl. pose proof (copy_up (dp a) 0 (used a) 0 (dp a) ltac:(lia) ltac:(lia)) as E.
  cbn [Nat.add] in E. rewrite E. cbn [rbind]. unfold blit, slice. cbn [firstn skipn app Nat.add].
  rewrite length_firstn, Nat.min_l, firstn_skipn, clear_none by lia. cbn [rbind]. destruct a; reflexivity.
Qed.

Lemma pstm_zero_ok a : ok (pstm_zero a) /\ mag (pstm_zero a) = 0 /\ alloc (pstm_zero a) = alloc a.
Proof.
  unfold pstm_zero. split; [apply (init_size_ok (alloc a))|]. unfold mag, alloc. cbn [dp].
  rewrite dvalue_zeros, repeat_length. auto.
Qed.

(** [PSTM_LT], [PSTM_EQ] or [PSTM_GT] *)
Definition compare3 (x y : Z) : Z := if y <? x then PSTM_GT else if x <? y then PSTM_LT else PSTM_EQ.

Lemma cmp_digits_spec da db n :
  Forall digit da -> Forall digit db -> (n <= length da)%nat -> (n <= length db)%nat ->
  cmp_digits da db n = Ok (compare3 (dvalue (firstn n da)) (dvalue (firstn n db))).
Proof.
  intros Ha Hb. induction n as [|n IH]; intros Hla Hlb; cbn [cmp_digits]; [reflexivity|].
  rewrite !(load1_ok _ _ 0) by lia. cbn [rbind]. rewrite !dvalue_firstn_S by lia.
  pose proof (dvalue_range (firstn n da) (Forall_firstn _ _ _ Ha)) as Ra.
  pose proof (dvalue_range (firstn n db) (Forall_firstn _ _ _ Hb)) as Rb.
  rewrite length_firstn, Nat.min_l in Ra, Rb by lia. unfold compare3 in *.
  destruct (Z.ltb_spec (nth n db 0) (nth n da 0)); [|destruct (Z.ltb_spec (nth n da 0) (nth n db 0))].
  - destruct (Z.ltb_spec (dvalue (firstn n db) + pB n * nth n db 0) (dvalue (firstn n da) + pB n * nth n da 0)); [reflexivity|nia].
  - destruct (Z.ltb_spec (dvalue (firstn n db) + pB n * nth n db 0) (dvalue (firstn n da) + pB n * nth n da 0)); [nia|].
    destruct (Z.ltb_spec (dvalue (firstn n da) + pB n * nth n da 0) (dvalue (firstn n db) + pB n * nth n db 0)); [reflexivity|nia].
  - rewrite IH by lia. replace (nth n db 0) with (nth n da 0) by lia. f_equal.
    destruct (Z.ltb_spec (dvalue (firstn n db)) (dvalue (firstn n da))), (Z.ltb_spec (dvalue (firstn n da)) (dvalue (firstn n db))),
      (Z.ltb_spec (dvalue (firstn n db) + pB n * nth n da 0) (dvalue (firstn n da) + pB n * nth n da 0)),
      (Z.ltb_spec (dvalue (firstn n da) + pB n * nth n da 0) (dvalue (firstn n db) + pB n * nth n da 0)); lia || reflexivity.
Qed.

Lemma cmp_mag_spec a b : ok a -> ok b -> pstm_cmp_mag a b = Ok (compare3 (mag a) (mag b)).
Proof.
  intros Ha Hb. unfold pstm_cmp_mag.
  pose proof (raw_range a (ok_raw a Ha)) as Ra. pose proof (raw_range b (ok_raw b Hb)) as Rb.
  destruct (Nat.ltb_spec (used b) (used a)) as [H|H]; [|destruct (Nat.ltb_spec (used a) (used b)) as [H'|H']].
  - pose proof (ok_range a Ha ltac:(lia)). pose proof (pB_le (used b) (used a - 1) ltac:(lia)).
    unfold compare3. destruct (Z.ltb_spec (mag b) (mag a)); [reflexivity|lia].
  - pose proof (ok_range b Hb ltac:(lia)). pose proof (pB_le (used a) (used b - 1) ltac:(lia)).
    unfold compare3. destruct (Z.ltb_spec (mag b) (mag a)); [lia|]. destruct (Z.ltb_spec (mag a) (mag b)); [reflexivity|lia].
  - assert (E : used a = used b) by lia. rewrite !raw_mag by (apply ok_raw; assumption). rewrite <- E.
    destruct Ha as ((Hla & Hda & _) & _), Hb as ((Hlb & Hdb & _) & _). unfold alloc in *. apply cmp_digits_spec; auto; lia.
Qed.

(** ** Differences *)

Lemma u32_B z : u32 z = z mod B. Proof. reflexivity. Qed.
Lemma digit_u32 z : digit (u32 z). Proof. apply Z.mod_pos_bound. reflexivity. Qed.

Lemma u64_id z : 0 <= z < B * B -> u64 z = z.
Proof. intros H. apply Z.mod_small. exact H. Qed.

Lemma word_split z : 0 <= z -> u32 z + B * Z.shiftr z 32 = z.
Proof. intros H. rewrite u32_B, Z.shiftr_div_pow2 by lia. change (2 ^ 32) with B. pose proof (Z.div_mod z B ltac:(discriminate)). lia. Qed.

Lemma word_carry z : 0 <= z < B * B -> digit (Z.shiftr z 32).
Proof.
  intros H. rewrite Z.shiftr_div_pow2 by lia. change (2 ^ 32) with B. pose proof Bpos.
  split; [apply Z.div_pos; lia|apply Z.div_lt_upper_bound; lia].
Qed.

(** One digit of a difference with a borrow. *)
Lemma borrow_step a b t :
  digit a -> digit b -> 0 <= t <= 1 ->
  let w := u64 (a - u64 (b + t)) in
  digit (u32 w) /\ 0 <= Z.land (Z.shiftr w 32) 1 <= 1 /\ u32 w = a - b - t + B * Z.land (Z.shiftr w 32) 1.
Proof.
  intros Ha Hb Ht w. unfold digit in Ha, Hb. split; [apply digit_u32|].
  assert (HB : B = 4294967296) by reflexivity.
  assert (Ew : w = if a - b - t <? 0 then B * B + (a - b - t) else a - b - t).
  { unfold w. rewrite (u64_id (b + t)) by nia. destruct (Z.ltb_spec (a - b - t) 0).
    - unfold u64, wrap. change (2 ^ 64) with (B * B). symmetry. apply Z.mod_unique with (q := -1); [left; lia|ring_simplify; lia].
    - replace (a - (b + t)) with (a - b - t) by ring. apply u64_id. lia. }
  rewrite Ew, u32_B, Z.shiftr_div_pow2 by lia. change (2 ^ 32) with B. destruct (Z.ltb_spec (a - b - t) 0).
  - replace (B * B + (a - b - t)) with ((a - b - t + B) + (B - 1) * B) by ring.
    rewrite Z.mod_add, Z.div_add, Z.mod_small, Z.div_small by lia.
    replace (Z.land (0 + (B - 1)) 1) with 1 by reflexivity. lia.
  - rewrite Z.mod_small, Z.div_small by lia. cbn [Z.land]. lia.
Qed.

(** The difference is exact when no borrow crosses a zero digit above [b]. *)
Definition sub_exact (a b : pstm_int) : Prop :=
  (used a <= used b + 1)%nat \/ mag b <= dvalue (firstn (used b) (dp a)).

Lemma sub_low_loop (a b : pstm_int) (d : list Z) :
  raw a -> raw b -> (used b <= used a)%nat -> (used a <= length d)%nat ->
  exists out t, for_up (used b) 0
      (fun x '(d, t) =>
         let! va := load1 (dp a) x in
         let! vb := load1 (dp b) x in
         let t := u64 (va - u64 (vb + t)) in
         let! d := @store1 error Z d x (u32 t) in
         Ok (d, Z.land (Z.shiftr t 32) 1)) (d, 0) = Ok (out ++ skipn (used b) d, t)
    /\ length out = used b /\ Forall digit out /\ 0 <= t <= 1
    /\ dvalue out = dvalue (firstn (used b) (dp a)) - mag b + pB (used b) * t.
Proof.
  intros (Hla & Hda & _) Hb Hu Hd. pose proof Hb as (Hlb & Hdb & _). rewrite (raw_mag b Hb). unfold alloc in *.
  destruct (digits_up (fun k out t => Forall digit out /\ 0 <= t <= 1
      /\ dvalue out = dvalue (firstn k (dp a)) - dvalue (firstn k (dp b)) + pB k * t)
    (fun x '(d, t) =>
         let! va := load1 (dp a) x in
         let! vb := load1 (dp b) x in
         let t := u64 (va - u64 (vb + t)) in
         let! d := @store1 error Z d x (u32 t) in
         Ok (d, Z.land (Z.shiftr t 32) 1)) (used b) [] d 0) as (out & t & E & Hl & Ho & Ht & Ev).
  - lia.
  - split; [constructor|]. split; [lia|]. cbn. lia.
  - cbn [length app Nat.add]. intros k out t Hk Hl (Ho & Ht & Ev).
    destruct (borrow_step (nth k (dp a) 0) (nth k (dp b) 0) t) as (Hv & Ht' & Ew); auto using digit_nth.
    exists (u32 (u64 (nth k (dp a) 0 - u64 (nth k (dp b) 0 + t)))). eexists. split.
    + rewrite !(load1_ok _ _ 0) by lia. cbn [rbind]. rewrite store1_ok; [reflexivity|].
      rewrite length_app, length_skipn. lia.
    + split; [apply Forall_app; auto|]. split; [exact Ht'|]. rewrite dvalue_snoc, Hl, !dvalue_firstn_S, pB_S by lia.
      rewrite Ev, Ew. ring.
  - exists out, t. auto.
Qed.

(** The digits of [a] above [b], from which the borrow [t] is taken. *)
Lemma sub_high_loop (a : pstm_int) (u : nat) (pre rest : list Z) (t : Z) :
  raw a -> length pre = u -> (u <= used a)%nat -> (used a - u <= length rest)%nat ->
  0 <= t <= 1 -> t <= dvalue (slice u (used a - u) (dp a)) -> t = 0 \/ (used a <= u + 1)%nat ->
  exists out t', for_up (used a - u) u
      (fun x '(d, t) =>
         let! va := load1 (dp a) x in
         let t := u64 (va - t) in
         let! d := @store1 error Z d x (u32 t) in
         Ok (d, Z.shiftr t 32)) (pre ++ rest, t) = Ok (pre ++ out ++ skipn (used a - u) rest, t')
    /\ length out = (used a - u)%nat /\ Forall digit out /\ dvalue out = dvalue (slice u (used a - u) (dp a)) - t.
Proof.
  intros (Hla & Hda & _) <- Hu Hr Ht Hle Hcase. unfold alloc in *.
  assert (Hstep : forall k t, (length pre + k < used a)%nat -> digit t -> t <= nth (length pre + k) (dp a) 0 ->
    let w := u64 (nth (length pre + k) (dp a) 0 - t) in u32 w = nth (length pre + k) (dp a) 0 - t /\ Z.shiftr w 32 = 0).
  { intros k t1 _ Ht1 Hle1 w. pose proof (digit_nth (dp a) (length pre + k) Hda) as Hd. unfold digit in *.
    assert (HB : B = 4294967296) by reflexivity.
    assert (Ew : w = nth (length pre + k) (dp a) 0 - t1) by (apply u64_id; nia).
    rewrite Ew, u32_B, Z.shiftr_div_pow2 by lia. change (2 ^ 32) with B. rewrite Z.mod_small, Z.div_small by lia. auto. }
  destruct (digits_up (fun k out t1 => Forall digit out /\ (t1 = if (k =? 0)%nat then t else 0)
      /\ dvalue out = dvalue (slice (length pre) k (dp a)) - (if (k =? 0)%nat then 0 else t))
    (fun x '(d, t) =>
         let! va := load1 (dp a) x in
         let t := u64 (va - t) in
         let! d := @store1 error Z d x (u32 t) in
         Ok (d, Z.shiftr t 32)) (used a - length pre) pre rest t) as (out & t' & E & Hl & Ho & _ & Ev).
  - lia.
  - split; [constructor|]. split; [reflexivity|]. cbn. lia.
  - intros k out t1 Hk Hl (Ho & Et & Ev).
    assert (Ht1 : digit t1 /\ t1 <= nth (length pre + k) (dp a) 0).
    { pose proof (digit_nth (dp a) (length pre + k) Hda) as Hd. unfold digit in *. pose proof Bpos as HB.
      change B with 4294967296 in *. rewrite Et. destruct (Nat.eqb_spec k 0) as [->|]; [|lia]. split; [lia|].
      destruct Hcase as [->|Hc]; [lia|]. replace (used a - length pre)%nat with 1%nat in Hle by lia.
      unfold slice in Hle. rewrite (firstn_S_nth _ 0 0) in Hle by (rewrite length_skipn; lia).
      rewrite nth_skipn in Hle. cbn [firstn app dvalue] in Hle. lia. }
    destruct (Hstep k t1 ltac:(lia) (proj1 Ht1) (proj2 Ht1)) as (Ev1 & Et1).
    exists (u32 (u64 (nth (length pre + k) (dp a) 0 - t1))). eexists. split.
    + rewrite (load1_ok _ _ 0) by lia. cbn [rbind]. rewrite store1_ok; [reflexivity|].
      rewrite !length_app, length_skipn. lia.
    + split; [apply Forall_app; split; [exact Ho|constructor; [apply digit_u32|constructor]]|].
      cbn [Nat.eqb]. split; [exact Et1|]. rewrite dvalue_snoc, Hl, Ev, Ev1.
      unfold slice. rewrite dvalue_firstn_S, nth_skipn by (rewrite length_skipn; lia). rewrite Et.
      destruct (Nat.eqb_spec k 0) as [->|]; [rewrite pB_0; ring|]. ring.
  - exists out, t'. split; [exact E|]. split; [exact Hl|]. split; [exact Ho|]. rewrite Ev.
    destruct (Nat.eqb_spec (used a - length pre) 0) as [E0|]; [|reflexivity].
    rewrite E0 in *. cbn in Hle |- *. lia.
Qed.

Lemma s_pstm_sub_spec a b c :
  raw a -> raw b -> raw c -> (used b <= used a)%nat -> mag b <= mag a -> sub_exact a b ->
  exists r, s_pstm_sub a b c = Ok r /\ ok r /\ mag r = mag a - mag b /\ alloc r = Nat.max (alloc c) (used a)
    /\ sign r = (if mag r =? 0 then false else sign c).
Proof.
  intros Ha Hb Hc Hu Hm Hx. unfold s_pstm_sub. destruct (Nat.ltb_spec (used a) (used b)) as [|_]; [lia|].
  rewrite grow_if. pose proof (grow_raw c (used a) Hc) as Hg. pose proof (grow_alloc c (used a)) as Eg.
  pose proof (grow_used c (used a)) as Eu. rewrite (grow_sign c (used a)). set (g := pstm_grow c (used a)) in *. clearbody g.
  unfold alloc in Eg. destruct (sub_low_loop a b (dp g) Ha Hb Hu ltac:(lia)) as (out & t & E & Hl & Ho & Ht & Ev).
  cbv zeta in E |- *. rewrite E. cbn [rbind]. pose proof (proj1 Ha) as Hla. unfold alloc in Hla.
  assert (Esplit : mag a = dvalue (firstn (used b) (dp a)) + pB (used b) * dvalue (slice (used b) (used a - used b) (dp a))).
  { rewrite (raw_mag a Ha). unfold slice. rewrite <- (firstn_skipn (used b) (firstn (used a) (dp a))), firstn_firstn, Nat.min_l by lia.
    rewrite dvalue_app, length_firstn, Nat.min_l, skipn_firstn_comm by lia. reflexivity. }
  pose proof (pB_pos (used b)) as Hp. pose proof (dvalue_range out Ho) as Hro. rewrite Hl in Hro.
  pose proof (raw_range b Hb) as Hrb.
  pose proof (dvalue_range (firstn (used b) (dp a)) (Forall_firstn _ _ _ (proj1 (proj2 Ha)))) as Hlow.
  rewrite length_firstn, Nat.min_l in Hlow by lia.
  pose proof (dvalue_range (slice (used b) (used a - used b) (dp a)) (Forall_firstn _ _ _ (Forall_skipn _ _ _ (proj1 (proj2 Ha))))) as Hhi.
  destruct (sub_high_loop a (used b) out (skipn (used b) (dp g)) t Ha Hl Hu) as (out2 & t2 & E2 & Hl2 & Ho2 & Ev2).
  { rewrite length_skipn. lia. } { exact Ht. } 
  { destruct (Z.eq_dec (dvalue (slice (used b) (used a - used b) (dp a))) 0) as [E0|]; [|lia]. rewrite E0 in *.
    assert (t = 0 \/ t = 1) as [->| ->] by lia; lia. }
  { destruct Hx as [Hx|Hx]; [right; exact Hx|left]. assert (t = 0 \/ t = 1) as [->| ->] by lia; lia. }
  cbv zeta in E2. rewrite E2. cbn [rbind]. rewrite skipn_skipn. replace (used a - used b + used b)%nat with (used a) by lia.
  rewrite app_assoc. set (o := out ++ out2). assert (Hlo : length o = used a) by (unfold o; rewrite length_app; lia).
  destruct (finish_spec o (skipn (used a) (dp g)) (used g) (sign c)) as (r & Er & Hr & Em & Ea & Es).
  { apply Forall_app. auto. } { rewrite Hlo. apply rest_zeros, Hg. } { apply Forall_skipn, Hg. }
  { rewrite length_skipn, Hlo. destruct Hg as (Hg & _). unfold alloc in Hg. lia. }
  rewrite Hlo in Er. exists r. split; [exact Er|]. split; [exact Hr|].
  assert (Emr : mag r = mag a - mag b).
  { rewrite Em. unfold o. rewrite dvalue_app, Hl, Ev, Ev2, Esplit. ring. }
  split; [exact Emr|]. split; [rewrite Ea, length_skipn, Hlo; unfold alloc; lia|]. rewrite Es, Em. reflexivity.
Qed.

(** ** Sums *)

Lemma add_operand_spec a x : raw a -> ((x <= used a)%nat -> (x < alloc a)%nat) -> add_operand (dp a) (used a) x = Ok (nth x (dp a) 0).
Proof.
  intros Ha Hx. unfold add_operand. destruct (Nat.ltb_spec (used a) x).
  - rewrite (raw_nth_above a) by (assumption || lia). reflexivity.
  - apply load1_ok, Hx. lia.
Qed.

(** One digit of a sum with a carry. *)
Lemma carry_step a b t :
  digit a -> digit b -> 0 <= t <= 1 ->
  let w := u64 (t + u64 (a + b)) in digit (u32 w) /\ 0 <= Z.shiftr w 32 <= 1 /\ u32 w + B * Z.shiftr w 32 = a + b + t.
Proof.
  intros Ha Hb Ht w. unfold digit in Ha, Hb. split; [apply digit_u32|]. assert (HB : B = 4294967296) by reflexivity.
  assert (Ew : w = a + b + t) by (unfold w; rewrite (u64_id (a + b)) by nia; rewrite u64_id by nia; ring).
  rewrite word_split by lia. split; [|lia]. rewrite Ew, Z.shiftr_div_pow2 by lia. change (2 ^ 32) with B.
  split; [apply Z.div_pos; lia|]. apply Z.lt_succ_r, Z.div_lt_upper_bound; lia.
Qed.

(** Storing a last carry. *)
Lemma upd_here {A} (out rest : list A) x v : upd (out ++ x :: rest) (length out) v = out ++ v :: rest.
Proof. induction out as [|y out IH]; cbn [length app upd]; [reflexivity|]. rewrite IH. reflexivity. Qed.

Lemma top_carry_spec out rest t s y :
  length out = y -> digit t ->
  (let c := mk_pstm y s (out ++ rest) in
   let c := if (used c =? alloc c)%nat then pstm_grow c (alloc c + 1) else c in
   let! d := store1 (dp c) (used c) (u32 t) in Ok (mk_pstm (used c + 1) (sign c) d)) =
  @Ok error _ (mk_pstm (y + 1) s (out ++ [t] ++ tl rest)).
Proof.
  intros <- Ht. assert (Eu : u32 t = t) by (apply Z.mod_small; exact Ht). cbv zeta. unfold alloc. cbn [used dp sign].
  rewrite length_app, Eu. destruct rest as [|x rest]; cbn [length].
  - rewrite Nat.add_0_r, Nat.eqb_refl. unfold pstm_grow, alloc. cbn [used dp sign]. rewrite app_nil_r.
    destruct (Nat.ltb_spec (length out) (length out + 1)); [|lia]. cbn [used dp sign].
    replace (length out + 1 - length out)%nat with 1%nat by lia. cbn [repeat].
    rewrite store1_ok by (rewrite length_app; cbn; lia). cbn [rbind]. rewrite upd_here. reflexivity.
  - destruct (Nat.eqb_spec (length out) (length out + S (length rest))); [lia|]. cbn [used dp sign].
    rewrite store1_ok by (rewrite length_app; cbn; lia). cbn [rbind]. rewrite upd_here. reflexivity.
Qed.

Definition add_room (a b : pstm_int) : Prop := (used a < used b)%nat -> (used a < alloc a)%nat.

Lemma add_loop (c_is_a : bool) (a b : pstm_int) (y : nat) (d : list Z) :
  raw a -> raw b -> (c_is_a = true -> exists k, d = dp a ++ repeat 0 k) -> (c_is_a = false -> add_room a b) -> add_room b a ->
  y = Nat.max (used a) (used b) -> (y <= length d)%nat ->
  exists out t, for_up y 0
      (fun x '(d, t) =>
       let! va := (if c_is_a then add_operand d y x else add_operand (dp a) (used a) x) in
       let! vb := add_operand (dp b) (used b) x in
       let t := u64 (t + u64 (va + vb)) in
       let! d := @store1 error Z d x (u32 t) in
       Ok (d, Z.shiftr t 32)) (d, 0) = Ok (out ++ skipn y d, t)
    /\ length out = y /\ Forall digit out /\ 0 <= t <= 1 /\ dvalue out + pB y * t = mag a + mag b.
Proof.
  intros Ha Hb Hal Hra Hrb Hy Hd.
  destruct (digits_up (fun k out t => Forall digit out /\ 0 <= t <= 1
      /\ dvalue out + pB k * t = dvalue (firstn k (dp a)) + dvalue (firstn k (dp b)))
    (fun x '(d, t) =>
       let! va := (if c_is_a then add_operand d y x else add_operand (dp a) (used a) x) in
       let! vb := add_operand (dp b) (used b) x in
       let t := u64 (t + u64 (va + vb)) in
       let! d := @store1 error Z d x (u32 t) in
       Ok (d, Z.shiftr t 32)) y [] d 0) as (out & t & E & Hl & Ho & Ht & Ev).
  - lia.
  - split; [constructor|]. split; [lia|]. cbn. lia.
  - cbn [length app Nat.add]. intros k out t Hk Hl (Ho & Ht & Ev).
    assert (Eva : (if c_is_a then add_operand (out ++ skipn k d) y k else add_operand (dp a) (used a) k) = Ok (nth k (dp a) 0)).
    { destruct c_is_a.
      - unfold add_operand. destruct (Nat.ltb_spec y k); [lia|]. rewrite (load1_ok _ _ 0) by (rewrite length_app, length_skipn; lia).
        f_equal. pose proof (mid_nth [] out d k Hl) as En. cbn [length app Nat.add] in En. rewrite En.
        destruct (Hal eq_refl) as (j & ->). destruct (Nat.lt_ge_cases k (length (dp a))); [apply app_nth1; assumption|].
        rewrite app_nth2, nth_repeat, nth_overflow by lia. reflexivity.
      - apply add_operand_spec; [exact Ha|]. intros Hka. specialize (Hra eq_refl). unfold add_room, alloc in *.
        destruct Ha as (Ha & _). unfold alloc in Ha. destruct (Nat.eq_dec k (used a)); lia. }
    assert (Evb : add_operand (dp b) (used b) k = Ok (nth k (dp b) 0)).
    { apply add_operand_spec; [exact Hb|]. intros Hkb. unfold add_room, alloc in *. destruct Hb as (Hb & _). unfold alloc in Hb.
      destruct (Nat.eq_dec k (used b)); lia. }
    destruct (carry_step (nth k (dp a) 0) (nth k (dp b) 0) t) as (Hv & Ht' & Ew);
      [apply digit_nth, Ha|apply digit_nth, Hb|exact Ht|].
    do 2 eexists. split.
    + cbv beta iota. match goal with |- rbind ?m _ = _ => replace m with (@Ok error Z (nth k (dp a) 0)) by (symmetry; exact Eva) end.
      rewrite Evb. cbn [rbind]. rewrite store1_ok; [reflexivity|]. rewrite length_app, length_skipn. lia.
    + split; [apply Forall_app; auto|]. split; [exact Ht'|]. rewrite dvalue_snoc, Hl, !dvalue_firstn_S, pB_S. nia.
  - exists out, t. split; [exact E|]. split; [exact Hl|]. split; [exact Ho|]. split; [exact Ht|]. rewrite Ev.
    assert (G : forall n, raw n -> (used n <= y)%nat -> dvalue (firstn y (dp n)) = mag n).
    { intros n Hn Hu. rewrite (raw_mag n Hn). destruct Hn as (Hn & _ & Hz). unfold alloc in Hn.
      rewrite <- (firstn_skipn (used n) (firstn y (dp n))), firstn_firstn, Nat.min_l, dvalue_app by lia.
      rewrite skipn_firstn_comm, (zeros_dvalue (firstn (y - used n) (skipn (used n) (dp n)))) by apply Forall_firstn, Hz. ring. }
    rewrite !G by (assumption || lia). reflexivity.
Qed.

(** [s_pstm_add] into [c], which is [a] or another number. *)
Lemma s_pstm_add_spec (c_is_a : bool) a b c :
  raw a -> raw b -> raw c -> (c_is_a = true -> dp c = dp a) -> (c_is_a = false -> add_room a b) -> add_room b a ->
  (used a < PSTM_MAX_SIZE)%nat -> (used b < PSTM_MAX_SIZE)%nat ->
  exists r, s_pstm_add c_is_a a b c = Ok r /\ ok r /\ mag r = mag a + mag b /\ (alloc c <= alloc r)%nat
    /\ sign r = (if mag r =? 0 then false else sign c).
Proof.
  intros Ha Hb Hc Hal Hra Hrb Hma Hmb. unfold s_pstm_add. set (y := Nat.max (used a) (used b)).
  set (c1 := mk_pstm y (sign c) (dp c)). rewrite grow_if. destruct (grow_dp c1 y) as (k & Ed & Hlen).
  pose proof (grow_sign c1 y) as Es1. set (g := pstm_grow c1 y) in *. clearbody g. cbn [dp c1] in Ed, Hlen. unfold alloc in Hlen. cbn [dp c1] in Hlen.
  assert (Hlg : length (dp g) = (length (dp c) + k)%nat) by (rewrite Ed, length_app, repeat_length; reflexivity).
  assert (Hzg : zeros (skipn (used c) (dp g))).
  { rewrite Ed, skipn_app. apply Forall_app. split; [apply Hc|apply Forall_skipn, zeros_repeat]. }
  assert (Hdg : Forall digit (dp g)) by (rewrite Ed; apply Forall_app; split; [apply Hc|apply zero_digits]).
  assert (Huc : (used c <= length (dp c))%nat) by apply Hc.
  destruct (add_loop c_is_a a b y (dp g) Ha Hb) as (out & t & E & Hl & Ho & Ht & Ev); auto; [|lia|].
  { intros Hi. exists k. rewrite Ed, (Hal Hi). reflexivity. }
  cbv zeta in E |- *. rewrite E. cbn [rbind]. rewrite Es1. cbn [sign c1].
  assert (Hzr : zeros (skipn (used c - y) (skipn y (dp g)))).
  { rewrite skipn_skipn. destruct (Nat.le_gt_cases y (used c)).
    - replace (used c - y + y)%nat with (used c) by lia. exact Hzg.
    - replace (used c - y + y)%nat with (y - used c + used c)%nat by lia. rewrite <- skipn_skipn. apply Forall_skipn, Hzg. }
  destruct (Z.eqb_spec t 0) as [->|Hn]; cbn [negb andb rbind].
  - cbn [used dp sign].
    destruct (finish_spec out (skipn y (dp g)) (used c) (sign c) Ho) as (r & Er & Hr & Em & Ea & Es);
      [rewrite Hl; exact Hzr|apply Forall_skipn, Hdg|rewrite length_skipn; lia|].
    rewrite Hl in Er. exists r. split; [exact Er|]. split; [exact Hr|]. split; [lia|]. split; [rewrite Ea, length_skipn; unfold alloc; lia|].
    rewrite Es, Em. reflexivity.
  - destruct (Nat.ltb_spec y PSTM_MAX_SIZE); [|lia].
    pose proof (top_carry_spec out (skipn y (dp g)) t (sign c) y Hl) as Et. cbv zeta in Et.
    rewrite Et by (unfold digit; assert (B = 4294967296) by reflexivity; lia). clear Et. cbn [rbind used dp sign].
    destruct (finish_spec (out ++ [t]) (tl (skipn y (dp g))) (used c) (sign c)) as (r & Er & Hr & Em & Ea & Es).
    + apply Forall_app. split; [exact Ho|]. constructor; [|constructor]. unfold digit. assert (B = 4294967296) by reflexivity. lia.
    + rewrite length_app, Hl. cbn [length]. replace (tl (skipn y (dp g))) with (skipn 1 (skipn y (dp g))) by (destruct (skipn y (dp g)); reflexivity).
      rewrite !skipn_skipn. rewrite skipn_skipn in Hzr. destruct (Nat.le_gt_cases (y + 1) (used c)).
      * replace (used c - (y + 1) + 1 + y)%nat with (used c - y + y)%nat by lia. exact Hzr.
      * replace (used c - (y + 1) + 1 + y)%nat with (y + 1 - used c + used c)%nat by lia. rewrite <- skipn_skipn. apply Forall_skipn, Hzg.
    + destruct (skipn y (dp g)) as [|? l'] eqn:El; [constructor|]. cbn [tl]. pose proof (Forall_skipn _ y _ Hdg) as Hf. rewrite El in Hf. inversion Hf. assumption.
    + rewrite length_app, Hl. cbn [length]. pose proof (length_skipn y (dp g)). destruct (skipn y (dp g)); cbn [tl length] in *; lia.
    + rewrite length_app, Hl in Er. cbn [length] in Er. rewrite <- app_assoc in Er. exists r. split; [exact Er|]. split; [exact Hr|].
      assert (Emr : mag r = mag a + mag b).
      { rewrite Em, dvalue_snoc, Hl. lia. }
      split; [exact Emr|]. split; [|rewrite Es, Em; reflexivity]. rewrite Ea, length_app. cbn [length]. unfold alloc.
      pose proof (length_skipn y (dp g)). destruct (skipn y (dp g)); cbn [tl length] in *; lia.
Qed.

Lemma sval_of r s : sign r = (if mag r =? 0 then false else s) -> sval r = if s then - mag r else mag r.
Proof. intros E. unfold sval. rewrite E. destruct (Z.eqb_spec (mag r) 0) as [->|]; destruct s; reflexivity. Qed.

Lemma with_sign_raw a s : raw a -> raw (with_sign a s). Proof. exact (fun H => H). Qed.

(** What the signed operations need: room for one digit in the shorter
    operand of a sum, no long borrow in a difference. *)
Definition sum_ok (c_is_a : bool) (a b : pstm_int) : Prop :=
  (c_is_a = false -> add_room a b) /\ add_room b a /\ (used a < PSTM_MAX_SIZE)%nat /\ (used b < PSTM_MAX_SIZE)%nat.
Definition diff_ok (a b : pstm_int) : Prop := if mag a <? mag b then sub_exact b a else sub_exact a b.

Lemma signed_sum (c_is_a : bool) a b c s :
  ok a -> ok b -> raw c -> (c_is_a = true -> dp c = dp a) -> sum_ok c_is_a a b ->
  exists r, s_pstm_add c_is_a a b (with_sign c s) = Ok r /\ ok r /\ sval r = (if s then - (mag a + mag b) else mag a + mag b)
    /\ (alloc c <= alloc r)%nat.
Proof.
  intros Ha Hb Hc Hal (Hra & Hrb & Hma & Hmb).
  destruct (s_pstm_add_spec c_is_a a b (with_sign c s)) as (r & E & Hr & Em & El & Es); auto using ok_raw, with_sign_raw.
  exists r. split; [exact E|]. split; [exact Hr|]. split; [|exact El]. rewrite (sval_of r s Es), Em. reflexivity.
Qed.

Lemma signed_diff a b c s :
  ok a -> ok b -> raw c -> mag b <= mag a -> sub_exact a b ->
  exists r, s_pstm_sub a b (with_sign c s) = Ok r /\ ok r /\ sval r = (if s then mag b - mag a else mag a - mag b)
    /\ alloc r = Nat.max (alloc c) (used a).
Proof.
  intros Ha Hb Hc Hm Hx.
  destruct (s_pstm_sub_spec a b (with_sign c s)) as (r & E & Hr & Em & El & Es); auto using ok_raw, with_sign_raw.
  { apply used_mono; auto using ok_raw. }
  exists r. split; [exact E|]. split; [exact Hr|]. split; [|exact El]. rewrite (sval_of r s Es), Em. destruct s; ring.
Qed.

Lemma pstm_sub_spec c_is_a a b c :
  ok a -> ok b -> raw c -> (c_is_a = true -> dp c = dp a) ->
  (if Bool.eqb (sign a) (sign b) then diff_ok a b else sum_ok c_is_a a b) ->
  exists r, pstm_sub c_is_a a b c = Ok r /\ ok r /\ sval r = sval a - sval b /\ (alloc c <= alloc r)%nat.
Proof.
  intros Ha Hb Hc Hal Hx. unfold pstm_sub. destruct (Bool.eqb_spec (sign a) (sign b)) as [Es|Es]; cbn [negb].
  - rewrite cmp_mag_spec by assumption. cbn [rbind]. unfold compare3, diff_ok in *. unfold sval. rewrite <- Es.
    destruct (Z.ltb_spec (mag a) (mag b)) as [H|H].
    + destruct (Z.ltb_spec (mag b) (mag a)); [lia|]. cbn [Z.eqb negb PSTM_LT].
      destruct (signed_diff b a c (negb (sign a)) Hb Ha Hc ltac:(lia) Hx) as (r & E & Hr & Ev & El).
      exists r. split; [exact E|]. split; [exact Hr|]. unfold sval in Ev. rewrite Ev. split; [destruct (sign a); cbn [negb]; ring|lia].
    + assert (E1 : negb ((if mag b <? mag a then PSTM_GT else PSTM_EQ) =? PSTM_LT) = true) by (destruct (mag b <? mag a); reflexivity).
      rewrite E1. destruct (signed_diff a b c (sign a) Ha Hb Hc ltac:(lia) Hx) as (r & E & Hr & Ev & El).
      exists r. split; [exact E|]. split; [exact Hr|]. unfold sval in Ev. rewrite Ev. split; [destruct (sign a); ring|lia].
  - destruct (signed_sum c_is_a a b c (sign a) Ha Hb Hc Hal Hx) as (r & E & Hr & Ev & El).
    exists r. split; [exact E|]. split; [exact Hr|]. split; [|exact El]. rewrite Ev. unfold sval.
    destruct (sign a), (sign b); try congruence; ring.
Qed.

Lemma pstm_add_spec c_is_a a b c :
  ok a -> ok b -> raw c -> (c_is_a = true -> dp c = dp a) ->
  (if Bool.eqb (sign a) (sign b) then sum_ok c_is_a a b else diff_ok a b) ->
  exists r, pstm_add c_is_a a b c = Ok r /\ ok r /\ sval r = sval a + sval b /\ (alloc c <= alloc r)%nat.
Proof.
  intros Ha Hb Hc Hal Hx. unfold pstm_add. destruct (Bool.eqb_spec (sign a) (sign b)) as [Es|Es].
  - destruct (signed_sum c_is_a a b c (sign a) Ha Hb Hc Hal Hx) as (r & E & Hr & Ev & El).
    exists r. split; [exact E|]. split; [exact Hr|]. split; [|exact El]. rewrite Ev. unfold sval. rewrite <- Es. destruct (sign a); ring.
  - rewrite cmp_mag_spec by assumption. cbn [rbind]. unfold compare3, diff_ok in *. unfold sval.
    assert (Es' : sign b = negb (sign a)) by (destruct (sign a), (sign b); cbn [negb]; congruence).
    destruct (Z.ltb_spec (mag a) (mag b)) as [H|H].
    + destruct (Z.ltb_spec (mag b) (mag a)); [lia|]. cbn [Z.eqb PSTM_LT].
      destruct (signed_diff b a c (sign b) Hb Ha Hc ltac:(lia) Hx) as (r & E & Hr & Ev & El).
      exists r. split; [exact E|]. split; [exact Hr|]. unfold sval in Ev. rewrite Ev, Es'. split; [destruct (sign a); cbn [negb]; ring|lia].
    + assert (E1 : ((if mag b <? mag a then PSTM_GT else PSTM_EQ) =? PSTM_LT) = false) by (destruct (mag b <? mag a); reflexivity).
      rewrite E1. destruct (signed_diff a b c (sign a) Ha Hb Hc ltac:(lia) Hx) as (r & E & Hr & Ev & El).
      exists r. split; [exact E|]. split; [exact Hr|]. unfold sval in Ev. rewrite Ev, Es'. split; [destruct (sign a); cbn [negb]; ring|lia].
Qed.

End PstmV.
