(* ===== verification/PstmOps.v ===== *)
(** * Multiple-precision integers: shifts, products by a digit, bytes

    The operations of networking/tls_pstm.c that multiply or divide by a digit
    or a power of two, and the conversions from and to bytes. *)

From Stdlib Require Import ZArith List Lia Bool.
From S2P Require Import Prelude Words Mem Pstm PstmVal.
Import ListNotations.
Local Open Scope Z_scope.
Local Open Scope res_scope.

Module PstmO.
Import Pstm PstmV.

(** ** Multiplication by a small number *)

(** A loop that stores the digits of [m] times the digits of [src]. *)
Lemma scale_loop (m : Z) (src d : list Z) n (body : nat -> list Z * Z -> res error (list Z * Z)) :
  0 <= m <= B -> Forall digit src -> (n <= length d)%nat ->
  (forall k out t, (k < n)%nat -> length out = k -> 0 <= t <= Z.max 0 (m - 1) ->
     body k (out ++ skipn k d, t)
     = Ok (upd (out ++ skipn k d) k ((nth k src 0 * m + t) mod B), (nth k src 0 * m + t) / B)) ->
  exists out t, for_up n 0 body (d, 0) = Ok (out ++ skipn n d, t) /\ length out = n /\ Forall digit out
    /\ 0 <= t <= Z.max 0 (m - 1) /\ dvalue out + pB n * t = m * dvalue (firstn n src).
Proof.
  intros Hm Hs Hn Hb.
  destruct (digits_up (fun k out t => Forall digit out /\ 0 <= t <= Z.max 0 (m - 1) /\ dvalue out + pB k * t = m * dvalue (firstn k src))
    body n [] d 0 Hn) as (out & t & E & Hl & Ho & Ht & Ev).
  - split; [constructor|]. split; [lia|]. cbn. lia.
  - cbn [length app Nat.add]. intros k out t Hk Hl (Ho & Ht & Ev). do 2 eexists. split; [apply Hb; assumption|].
    pose proof (digit_nth src k Hs) as Hd. unfold digit in Hd. pose proof Bpos as HB.
    split; [apply Forall_app; split; [exact Ho|]; constructor; [apply Z.mod_pos_bound, HB|constructor]|].
    split; [split; [apply Z.div_pos; nia|apply Z.lt_succ_r, Z.div_lt_upper_bound; nia]|].
    rewrite dvalue_snoc, Hl, dvalue_firstn_S, pB_S.
    pose proof (Z.div_mod (nth k src 0 * m + t) B ltac:(lia)). nia.
  - exists out, t. auto.
Qed.

(** The end of [pstm_mul_d] and [pstm_mul_2]. *)
Lemma scaled_finish out rest t oldused (s : bool) :
  Forall digit out -> digit t -> Forall digit rest -> (0 < length rest)%nat ->
  zeros (skipn (oldused - length out) rest) -> (oldused <= length out + length rest)%nat ->
  exists c, (let! (d, n) := (if negb (t =? 0)
       then let! d := store1 (out ++ rest) (length out) t in Ok (d, length out + 1)%nat else Ok (out ++ rest, length out)) in
     let! d := clear_digits d n oldused in pstm_clamp (mk_pstm n s d)) = Ok c
    /\ ok c /\ mag c = dvalue out + pB (length out) * t /\ alloc c = (length out + length rest)%nat
    /\ sign c = (if mag c =? 0 then false else s).
Proof.
  intros Ho Ht Hr Hl Hz Hu. destruct rest as [|x rest]; [cbn in Hl; lia|]. destruct (Z.eqb_spec t 0) as [->|Hn]; cbn [negb rbind].
  - destruct (finish_spec out (x :: rest) oldused s Ho Hz Hr Hu) as (c & E & Hc & Em & Ea & Es).
    exists c. split; [exact E|]. split; [exact Hc|]. split; [lia|]. split; [exact Ea|]. rewrite Es, Em. reflexivity.
  - rewrite store1_ok by (rewrite length_app; cbn; lia). cbn [rbind]. rewrite upd_here.
    inversion Hr; subst. destruct (finish_spec (out ++ [t]) rest oldused s) as (c & E & Hc & Em & Ea & Es).
    + apply Forall_app. auto.
    + rewrite length_app. cbn [length]. destruct (Nat.le_gt_cases oldused (length out)).
      * replace (oldused - length out)%nat with O in Hz by lia. cbn [skipn] in Hz. inversion Hz. apply Forall_skipn. assumption.
      * replace (oldused - length out)%nat with (S (oldused - (length out + 1))) in Hz by lia. exact Hz.
    + assumption.
    + rewrite length_app. cbn [length] in *. lia.
    + rewrite length_app in E. cbn [length] in E. rewrite <- app_assoc in E. exists c. split; [exact E|]. split; [exact Hc|].
      rewrite dvalue_snoc in Em. split; [lia|]. split; [rewrite Ea, length_app; cbn [length]; lia|].
      rewrite Es, Em, dvalue_snoc. reflexivity.
Qed.

Lemma mul_d_spec a b c :
  raw a -> digit b -> raw c -> (used a < PSTM_MAX_SIZE)%nat ->
  exists r, pstm_mul_d a b c = Ok r /\ ok r /\ mag r = mag a * b /\ alloc r = Nat.max (alloc c) (used a + 1)
    /\ sign r = (if mag r =? 0 then false else sign a).
Proof.
  intros Ha Hb Hc Hm. unfold pstm_mul_d. rewrite grow_if. pose proof (grow_raw c (used a + 1) Hc) as Hg.
  pose proof (grow_alloc c (used a + 1)) as Eg. set (g := pstm_grow c (used a + 1)) in *. clearbody g. unfold alloc in Eg.
  pose proof (proj1 Ha) as Hla. unfold alloc in Hla. unfold digit in Hb.
  destruct (scale_loop b (dp a) (dp g) (used a)
    (fun x '(d, w) => let! v := load1 (dp a) x in let w := u64 (v * b + w) in
       let! d := store1 d x (u32 w) in Ok (d, Z.shiftr w 32))) as (out & t & E & Hl & Ho & Ht & Ev).
  - lia.
  - apply Ha.
  - lia.
  - intros k out t Hk Hl Ht. rewrite (load1_ok _ _ 0) by lia. cbn [rbind].
    pose proof (digit_nth (dp a) k (proj1 (proj2 Ha))) as Hd. unfold digit in Hd. pose proof Bpos as HB.
    rewrite u64_id by nia. rewrite store1_ok by (rewrite length_app, length_skipn; lia). cbn [rbind].
    rewrite u32_B, Z.shiftr_div_pow2 by lia. reflexivity.
  - cbv zeta in E |- *. rewrite E. cbn [rbind].
    destruct (Nat.eqb_spec (used a) PSTM_MAX_SIZE); [lia|]. rewrite andb_true_r.
    assert (Htd : digit t) by (unfold digit; pose proof Bpos; lia).
    assert (Eut : u32 t = t) by (apply Z.mod_small, Htd). rewrite Eut.
    destruct (scaled_finish out (skipn (used a) (dp g)) t (used g) (sign a)) as (r & Er & Hr & Em & Ea & Es); auto.
    + apply Forall_skipn, Hg.
    + rewrite length_skipn. lia.
    + rewrite Hl. apply rest_zeros, Hg.
    + rewrite length_skipn. destruct Hg as (Hg & _). unfold alloc in Hg. lia.
    + rewrite Hl in Er, Em, Ea. exists r. split; [exact Er|]. split; [exact Hr|].
      split; [rewrite Em, Ev, (raw_mag a Ha); ring|]. split; [|exact Es]. rewrite Ea, length_skipn. unfold alloc. lia.
Qed.

Lemma ok_of_range a : raw a -> (used a = O \/ pB (used a - 1) <= mag a) -> (used a = O -> sign a = false) -> ok a.
Proof.
  intros Ha Hm Hs. split; [exact Ha|]. split; [|exact Hs]. destruct Hm as [|Hm]; [left; assumption|].
  destruct (Nat.eq_dec (used a) 0) as [|Hu]; [left; assumption|right]. intros E.
  rewrite top_digit, E in Hm by (assumption || lia).
  pose proof (dvalue_range (firstn (used a - 1) (dp a)) (Forall_firstn _ _ _ (proj1 (proj2 Ha)))) as Hr.
  destruct Ha as (Ha & _). unfold alloc in Ha. rewrite length_firstn, Nat.min_l in Hr by lia. lia.
Qed.

(** [a = 2 a] *)
Lemma mul_2_spec a :
  ok a -> (used a < PSTM_MAX_SIZE - 1)%nat ->
  exists r, pstm_mul_2 a a = Ok r /\ ok r /\ mag r = 2 * mag a /\ alloc r = Nat.max (alloc a) (used a + 1) /\ sign r = sign a.
Proof.
  intros Ha Hm. unfold pstm_mul_2. rewrite grow_if. pose proof (grow_raw a (used a + 1) (ok_raw a Ha)) as Hg.
  pose proof (grow_alloc a (used a + 1)) as Eg. pose proof (grow_used a (used a + 1)) as Eu.
  set (g := pstm_grow a (used a + 1)) in *. clearbody g. unfold alloc in Eg.
  pose proof (ok_raw a Ha) as Hra. pose proof (proj1 Hra) as Hla. unfold alloc in Hla.
  destruct (scale_loop 2 (dp a) (dp g) (used a)
    (fun x '(d, r) => let! v := load1 (dp a) x in
       let! d := store1 d x (Z.lor (u32 (Z.shiftl v 1)) r) in Ok (d, Z.shiftr v 31))) as (out & t & E & Hl & Ho & Ht & Ev).
  - unfold B. lia.
  - apply Hra.
  - lia.
  - intros k out t Hk Hl Ht. rewrite (load1_ok _ _ 0) by lia. cbn [rbind].
    pose proof (digit_nth (dp a) k (proj1 (proj2 Hra))) as Hd. set (v := nth k (dp a) 0) in *. clearbody v. unfold digit, B in *.
    pose proof (Z.div_mod v (2 ^ 31) ltac:(lia)). pose proof (Z.mod_pos_bound v (2 ^ 31) ltac:(lia)).
    assert (E1 : Z.lor (u32 (Z.shiftl v 1)) t = (v * 2 + t) mod 2 ^ 32).
    { rewrite Z.shiftl_mul_pow2 by lia. unfold u32, wrap.
      assert (E2 : (v * 2 ^ 1) mod 2 ^ 32 = Z.shiftl (v mod 2 ^ 31) 1).
      { rewrite Z.shiftl_mul_pow2 by lia. change (2 ^ 32) with (2 ^ 31 * 2 ^ 1). rewrite Z.mul_mod_distr_r by lia. reflexivity. }
      rewrite E2, lor_shiftl by (unfold in_u; lia).
      apply Z.mod_unique with (q := v / 2 ^ 31); [left; lia|lia]. }
    assert (E3 : Z.shiftr v 31 = (v * 2 + t) / 2 ^ 32).
    { rewrite Z.shiftr_div_pow2 by lia. apply Z.div_unique with (r := v mod 2 ^ 31 * 2 + t); [left; lia|lia]. }
    rewrite store1_ok by (rewrite length_app, length_skipn; lia). cbn [rbind]. rewrite E1, E3. reflexivity.
  - cbv zeta in E |- *. rewrite E. cbn [rbind]. destruct (Nat.eqb_spec (used a) (PSTM_MAX_SIZE - 1)); [lia|]. rewrite andb_true_r.
    pose proof (raw_mag a Hra) as Ema. rewrite <- Ema in Ev.
    assert (Hgd : Forall digit (skipn (used a) (dp g)) /\ zeros (skipn (used a) (dp g))) by (split; [apply Forall_skipn, Hg|rewrite <- Eu; apply Hg]).
    assert (Hlg : length (skipn (used a) (dp g)) = (Nat.max (alloc a) (used a + 1) - used a)%nat) by (rewrite length_skipn; unfold alloc; lia).
    destruct (skipn (used a) (dp g)) as [|x rest]; [cbn [length] in Hlg; lia|].
    destruct Hgd as (Hgd & Hgz). inversion Hgd; subst. inversion Hgz; subst. cbn [length] in Hlg.
    destruct (Z.eqb_spec t 0) as [->|Hn]; cbn [negb rbind].
    + rewrite clear_none by lia. cbn [rbind]. eexists. split; [reflexivity|]. unfold mag, alloc. cbn [used sign dp].
      assert (Emr : dvalue (out ++ 0 :: rest) = 2 * mag a) by (rewrite dvalue_app, (zeros_dvalue (0 :: rest) Hgz); lia).
      fold (mag a). split; [|split; [exact Emr|]; split; [rewrite length_app; cbn [length]; unfold alloc in *; lia|reflexivity]].
      apply ok_of_range; [apply mk_raw; [rewrite length_app; lia|apply Forall_app; auto|]| |cbn [used sign]; apply Ha].
      * rewrite skipn_app, skipn_all2, Hl, Nat.sub_diag by lia. exact Hgz.
      * cbn [used]. unfold mag. cbn [dp]. rewrite Emr. destruct (Nat.eq_dec (used a) 0); [left; assumption|right].
        pose proof (ok_range a Ha ltac:(lia)). pose proof (pB_pos (used a - 1)). fold (mag a). lia.
    + assert (t = 1) as -> by lia. rewrite <- Hl. rewrite store1_ok by (rewrite length_app; cbn; lia). cbn [rbind].
      rewrite upd_here, clear_none by lia. cbn [rbind]. eexists. split; [reflexivity|]. unfold mag, alloc. cbn [used sign dp].
      assert (Emr : dvalue (out ++ 1 :: rest) = 2 * mag a).
      { rewrite dvalue_app, Hl. cbn [dvalue]. rewrite (zeros_dvalue rest) by assumption. lia. }
      fold (mag a). split; [|split; [exact Emr|]; split; [rewrite length_app; cbn [length]; unfold alloc in *; lia|reflexivity]].
      apply ok_of_range; [apply mk_raw; [rewrite length_app; cbn [length]; lia|apply Forall_app; split; [assumption|]; constructor; [split; reflexivity || discriminate|assumption]|]| |].
      * rewrite skipn_app, skipn_all2 by lia. replace (length out + 1 - length out)%nat with 1%nat by lia. assumption.
      * right. cbn [used]. unfold mag. cbn [dp]. rewrite dvalue_app. cbn [dvalue]. rewrite (zeros_dvalue rest) by assumption.
        replace (length out + 1 - 1)%nat with (length out) by lia. pose proof (dvalue_range out Ho). lia.
      * cbn [used]. lia.
Qed.

(** ** Shifts by whole digits *)

Lemma move_up (d : list Z) b n :
  (n + b <= length d)%nat ->
  for_down n (fun y d => let! v := @load1 error Z d y in store1 d (y + b) v) d = Ok (blit d b (firstn n d)).
Proof.
  revert d; induction n as [|n IH]; intros d H; cbn [for_down].
  - unfold blit. cbn [firstn app length]. rewrite Nat.add_0_r, firstn_skipn. reflexivity.
  - rewrite (load1_ok _ _ 0) by lia. cbn [rbind]. rewrite store1_ok by lia. cbn [rbind].
    rewrite IH by (rewrite length_upd; lia). f_equal.
    rewrite firstn_upd_above by lia. rewrite (firstn_S_nth d n 0) by lia. unfold blit.
    rewrite length_app, length_firstn, Nat.min_l by lia. cbn [length].
    rewrite firstn_upd_above, <- app_assoc by lia. do 2 f_equal. cbn [app].
    replace (n + b)%nat with (b + n)%nat by lia. rewrite (skipn_cons _ (b + n) 0) by (rewrite length_upd; lia).
    rewrite nth_upd_eq, (skipn_upd d (b + n)) by lia. do 2 f_equal. lia.
Qed.

Lemma lshd_spec a b :
  raw a -> exists r, pstm_lshd a b = Ok r /\ raw r /\ used r = (used a + b)%nat /\ mag r = mag a * pB b /\ sign r = sign a
    /\ alloc r = Nat.max (alloc a) (used a + b).
Proof.
  intros Ha. unfold pstm_lshd. destruct (Nat.eqb_spec b 0) as [->|Hb].
  { exists a. pose proof (proj1 Ha). rewrite pB_0, Nat.add_0_r. repeat split; try apply Ha; lia. }
  rewrite grow_if, !grow_used, grow_sign. pose proof (grow_raw a (used a + b) Ha) as Hg.
  pose proof (grow_alloc a (used a + b)) as Eg. pose proof (grow_used a (used a + b)) as Eu. pose proof (grow_mag a (used a + b)) as Em.
  set (g := pstm_grow a (used a + b)) in *. clearbody g. unfold alloc in Eg.
  rewrite move_up by lia. cbn [rbind]. set (l := firstn (used a) (dp g)).
  assert (Hl : length l = used a) by (unfold l; rewrite length_firstn; lia).
  rewrite clear_ok by (rewrite ?length_blit; lia). cbn [rbind]. eexists. split; [reflexivity|].
  assert (E : blit (blit (dp g) b l) 0 (repeat 0 (b - 0)) = repeat 0 b ++ l ++ skipn (used a + b) (dp g)).
  { unfold blit. cbn [firstn app Nat.add]. rewrite repeat_length, Nat.sub_0_r, skipn_app, skipn_all2, length_firstn by (rewrite length_firstn; lia).
    rewrite Nat.min_l, Nat.sub_diag, Hl by lia. cbn [skipn app]. do 2 f_equal. f_equal. lia. }
  rewrite E.
  assert (Hz : zeros (skipn (used a + b) (dp g))).
  { replace (used a + b)%nat with (b + used g)%nat by lia. rewrite <- skipn_skipn. apply Forall_skipn, Hg. }
  assert (Hlen : length (repeat 0 b ++ l ++ skipn (used a + b) (dp g)) = Nat.max (length (dp a)) (used a + b))
    by (rewrite !length_app, repeat_length, Hl, length_skipn; lia).
  split; [apply mk_raw|].
  - lia.
  - repeat (apply Forall_app; split); [apply zero_digits|apply Forall_firstn, Hg|apply Forall_skipn, Hg].
  - rewrite app_assoc, skipn_app, skipn_all2 by (rewrite length_app, repeat_length; lia).
    rewrite length_app, repeat_length, Hl. replace (used a + b - (b + used a))%nat with O by lia. exact Hz.
  - unfold mag at 1, alloc at 1. cbn [used sign dp]. split; [reflexivity|]. split; [|split; [reflexivity|rewrite Hlen; reflexivity]].
    rewrite !dvalue_app, dvalue_zeros, repeat_length, (zeros_dvalue _ Hz). rewrite <- Em, (raw_mag g Hg), Eu. fold l. ring.
Qed.

Lemma lshd_ok a b : ok a -> (0 < used a)%nat -> exists r, pstm_lshd a b = Ok r /\ ok r /\ used r = (used a + b)%nat
  /\ mag r = mag a * pB b /\ sign r = sign a /\ alloc r = Nat.max (alloc a) (used a + b).
Proof.
  intros Ha Hu. destruct (lshd_spec a b (ok_raw a Ha)) as (r & E & Hr & Eu & Em & Es & El).
  exists r. split; [exact E|]. split; [|auto]. apply ok_of_range; [exact Hr| |intros; lia]. right.
  rewrite Eu, Em. pose proof (ok_range a Ha Hu). replace (used a + b - 1)%nat with (used a - 1 + b)%nat by lia.
  rewrite pB_add. pose proof (pB_pos b). nia.
Qed.

Lemma move_down (d : list Z) x n a :
  (a + x + n <= length d)%nat ->
  for_up n a (fun y d => let! v := @load1 error Z d (y + x) in store1 d y v) d = Ok (blit d a (slice (a + x) n d)).
Proof.
  revert d a; induction n as [|n IH]; intros d a H; cbn [for_up].
  - unfold blit, slice. cbn [firstn app length]. rewrite Nat.add_0_r, firstn_skipn. reflexivity.
  - rewrite (load1_ok _ _ 0) by lia. cbn [rbind]. rewrite store1_ok by lia. cbn [rbind].
    rewrite IH by (rewrite length_upd; lia). f_equal. unfold slice. cbn [Nat.add]. rewrite skipn_upd by lia.
    unfold blit. rewrite firstn_upd by lia. rewrite !length_firstn, !length_skipn.
    replace (firstn (S n) (skipn (a + x) d)) with (nth (a + x) d 0 :: firstn n (skipn (S (a + x)) d)).
    + rewrite <- app_assoc. cbn [app]. do 3 f_equal. rewrite skipn_upd by lia. f_equal. lia.
    + rewrite (skipn_cons d (a + x) 0) by lia. reflexivity.
Qed.

Lemma rshd_spec a x :
  raw a -> (sign a = true -> mag a <> 0) -> exists r, pstm_rshd a x = Ok r /\ ok r /\ mag r = mag a / pB x /\ alloc r = alloc a
    /\ sign r = (if mag r =? 0 then false else sign a).
Proof.
  intros Ha Hs. pose proof (raw_range a Ha) as Hr. pose proof (pB_pos x) as Hp. unfold pstm_rshd.
  destruct (Nat.leb_spec (used a) x) as [Hx|Hx].
  { exists (pstm_zero a). destruct (pstm_zero_ok a) as (Hz & Em & El). split; [reflexivity|]. split; [exact Hz|].
    rewrite Em, El. pose proof (pB_le (used a) x Hx). rewrite Z.div_small by lia. auto. }
  pose proof (proj1 Ha) as Hla. unfold alloc in Hla.
  pose proof (move_down (dp a) x (used a - x) 0 ltac:(lia)) as E. cbn [Nat.add] in E. rewrite E. cbn [rbind].
  set (out := slice x (used a - x) (dp a)). assert (Hl : length out = (used a - x)%nat) by (unfold out; rewrite length_slice; lia).
  unfold blit. cbn [firstn app Nat.add].
  destruct (finish_spec out (skipn (length out) (dp a)) (used a) (sign a)) as (r & Er & Hok & Em & El & Es).
  { apply Forall_firstn, Forall_skipn, Ha. } { apply rest_zeros, Ha. } { apply Forall_skipn, Ha. } { rewrite length_skipn. lia. }
  rewrite Hl in Er |- *. exists r. split; [exact Er|]. split; [exact Hok|].
  split; [|split; [rewrite El, length_skipn; unfold alloc; lia|rewrite Es, Em; reflexivity]].
  rewrite Em, (raw_mag a Ha). apply Z.div_unique with (r := dvalue (firstn x (firstn (used a) (dp a)))).
  - left. pose proof (dvalue_range (firstn x (firstn (used a) (dp a))) (Forall_firstn _ _ _ (Forall_firstn _ _ _ (proj1 (proj2 Ha))))) as R.
    rewrite firstn_firstn, Nat.min_l, length_firstn, Nat.min_l in R by lia. rewrite firstn_firstn, Nat.min_l by lia. exact R.
  - rewrite (dvalue_firstn_skipn x) by (rewrite length_firstn; lia). rewrite skipn_firstn_comm. fold (slice x (used a - x) (dp a)).
    fold out. ring.
Qed.

(** ** The number of bits *)

(** [n] is the number of bits of [z]. *)
Definition bits (n : nat) (z : Z) : Prop := z = 0 /\ n = O \/ 0 < z /\ 2 ^ (Z.of_nat n - 1) <= z < 2 ^ Z.of_nat n.

Lemma count_loop_spec fuel r q :
  0 <= q < 2 ^ Z.of_nat fuel -> exists n, count_loop fuel r q = Ok (r + n)%nat /\ bits n q.
Proof.
  revert r q; induction fuel as [|fuel IH]; intros r q Hq.
  - cbn in Hq. assert (q = 0) as -> by lia. exists O. cbn. rewrite Nat.add_0_r. split; [reflexivity|left; auto].
  - cbn [count_loop]. destruct (Z.ltb_spec 0 q) as [Hp|Hp].
    + rewrite Z.shiftr_div_pow2 by lia. rewrite Nat2Z.inj_succ, Z.pow_succ_r in Hq by lia.
      destruct (IH (r + 1)%nat (q / 2 ^ 1)) as (n & E & Hn).
      { split; [apply Z.div_pos; lia|apply Z.div_lt_upper_bound; lia]. }
      exists (S n). rewrite E. split; [f_equal; lia|right; split; [exact Hp|]].
      pose proof (Z.div_mod q 2 ltac:(lia)). pose proof (Z.mod_pos_bound q 2 ltac:(lia)). change (2 ^ 1) with 2 in *.
      rewrite Nat2Z.inj_succ. replace (Z.succ (Z.of_nat n) - 1) with (Z.of_nat n) by lia. rewrite Z.pow_succ_r by lia.
      destruct Hn as [(Hz & ->)|(Hz & Hn)]; [rewrite Hz in *; change (2 ^ Z.of_nat 0) with 1; lia|].
      assert (2 ^ Z.of_nat n = 2 * 2 ^ (Z.of_nat n - 1)).
      { rewrite <- Z.pow_succ_r; [f_equal; lia|]. destruct n; [cbn in Hn; lia|lia]. }
      lia.
    + assert (q = 0) as -> by lia. exists O. rewrite Nat.add_0_r. split; [reflexivity|left; auto].
Qed.

Lemma pB_pow n : pB n = 2 ^ Z.of_nat (n * 32).
Proof. unfold pB, B. rewrite <- Z.pow_mul_r by lia. f_equal. lia. Qed.

Lemma count_bits_spec a : ok a -> exists n, pstm_count_bits a = Ok n /\ bits n (mag a).
Proof.
  intros Ha. unfold pstm_count_bits. destruct (Nat.eqb_spec (used a) 0) as [E|Hu].
  - exists O. split; [reflexivity|left]. split; [apply used_mag; assumption|reflexivity].
  - pose proof (proj1 (ok_raw a Ha)) as Hla. unfold alloc in Hla. rewrite (load1_ok _ _ 0) by lia. cbn [rbind].
    pose proof (digit_nth (dp a) (used a - 1) (proj1 (proj2 (ok_raw a Ha)))) as Hd. unfold digit, B in Hd.
    destruct (count_loop_spec DIGIT_BIT ((used a - 1) * DIGIT_BIT) (nth (used a - 1) (dp a) 0)) as (n & E & Hn); [exact Hd|].
    exists ((used a - 1) * DIGIT_BIT + n)%nat. split; [exact E|]. pose proof (ok_range a Ha ltac:(lia)) as Hr.
    rewrite (top_digit a (ok_raw a Ha)) in * by lia. set (x := nth (used a - 1) (dp a) 0) in *.
    set (low := dvalue (firstn (used a - 1) (dp a))) in *.
    assert (Hlow : 0 <= low < pB (used a - 1)).
    { pose proof (dvalue_range (firstn (used a - 1) (dp a)) (Forall_firstn _ _ _ (proj1 (proj2 (ok_raw a Ha))))) as R.
      rewrite length_firstn, Nat.min_l in R by lia. exact R. }
    pose proof (pB_pos (used a - 1)) as Hp. rewrite pB_pow in *. change DIGIT_BIT with 32%nat. set (k := ((used a - 1) * 32)%nat) in *.
    assert (Hx : 0 < x) by (destruct (proj1 (proj2 Ha)) as [|Hne]; [lia|]; fold x in Hne; lia).
    right. destruct Hn as [(H0 & _)|(_ & Hn)]; [lia|]. rewrite !Nat2Z.inj_add.
    assert (E1 : 2 ^ (Z.of_nat k + Z.of_nat n) = 2 ^ Z.of_nat k * 2 ^ Z.of_nat n) by (apply Z.pow_add_r; lia).
    assert (E2 : 2 ^ (Z.of_nat k + Z.of_nat n - 1) = 2 ^ Z.of_nat k * 2 ^ (Z.of_nat n - 1)).
    { rewrite <- Z.pow_add_r; [f_equal; lia|lia|]. destruct n; [cbn in Hn; lia|lia]. }
    rewrite E1, E2. split; [nia|]. split; nia.
Qed.

(** [n] is the number of bytes of [z]. *)
Definition nbytes (n : nat) (z : Z) : Prop := z = 0 /\ n = O \/ 256 ^ (Z.of_nat n - 1) <= z < 256 ^ Z.of_nat n.

Lemma bin_size_spec a : ok a -> exists n, pstm_unsigned_bin_size a = Ok n /\ nbytes n (mag a).
Proof.
  intros Ha. destruct (count_bits_spec a Ha) as (n & E & Hn). unfold pstm_unsigned_bin_size. rewrite E. cbn [rbind].
  eexists. split; [reflexivity|]. assert (El : Nat.land n 7 = (n mod 8)%nat) by (apply (Nat.land_ones n 3)). rewrite El.
  pose proof (Nat.div_mod_eq n 8) as Ed. pose proof (Nat.mod_upper_bound n 8 ltac:(lia)) as Hb.
  destruct Hn as [(-> & ->)|(Hp & Hn)]; [left; auto|right]. set (k := (n / 8)%nat) in *.
  assert (E256 : forall z, 0 <= z -> 256 ^ z = 2 ^ (8 * z)) by (intros z Hz; change 256 with (2 ^ 8); rewrite <- Z.pow_mul_r by lia; reflexivity).
  destruct (Nat.eqb_spec (n mod 8) 0) as [E0|E0].
  - destruct (Nat.eq_dec k 0) as [Ek|Ek]; [assert (n = O) by lia; subst n; cbn in Hn; lia|].
    rewrite Nat.add_0_r, !E256 by lia. split; [|replace (8 * Z.of_nat k) with (Z.of_nat n) by lia; lia].
    etransitivity; [|apply Hn]. apply Z.pow_le_mono_r; lia.
  - rewrite !E256 by lia. split; [etransitivity; [|apply Hn]; apply Z.pow_le_mono_r; lia|].
    eapply Z.lt_le_trans; [apply Hn|]. apply Z.pow_le_mono_r; lia.
Qed.

(** ** Shifts by bits *)

Lemma digit_shl v b t :
  digit v -> 0 < b < 32 -> 0 <= t < 2 ^ b ->
  u32 (u32 (Z.shiftl v b) + t) = (v * 2 ^ b + t) mod B /\ Z.shiftr v (32 - b) = (v * 2 ^ b + t) / B.
Proof.
  unfold digit, B. intros Hv Hb Ht. rewrite Z.shiftl_mul_pow2, Z.shiftr_div_pow2 by lia. unfold u32, wrap.
  rewrite Zplus_mod_idemp_l. split; [reflexivity|].
  assert (E : 2 ^ 32 = 2 ^ (32 - b) * 2 ^ b) by (rewrite <- Z.pow_add_r by lia; f_equal; lia).
  pose proof (Z.div_mod v (2 ^ (32 - b)) ltac:(apply Z.pow_nonzero; lia)).
  pose proof (Z.mod_pos_bound v (2 ^ (32 - b)) ltac:(apply Z.pow_pos_nonneg; lia)).
  pose proof (Z.pow_pos_nonneg 2 b ltac:(lia) ltac:(lia)).
  apply Z.div_unique with (r := v mod 2 ^ (32 - b) * 2 ^ b + t); [left; nia|nia].
Qed.

Lemma clamp_app l k s v n :
  Forall digit l -> zeros k -> dvalue l = v -> (v = 0 -> s = false) -> (n <= length l + length k)%nat ->
  exists r, pstm_clamp (mk_pstm (length l) s (l ++ k)) = Ok r /\ ok r /\ mag r = v /\ sign r = s /\ (n <= alloc r)%nat.
Proof.
  intros Hld Hk Ev Hs Hn. destruct (clamp_spec (mk_pstm (length l) s (l ++ k))) as (r & Er & Hr & Edp & _ & Es).
  - apply mk_raw; [rewrite length_app; lia| |rewrite skipn_app, skipn_all, Nat.sub_diag; exact Hk].
    apply Forall_app. split; [exact Hld|]. eapply Forall_impl; [|exact Hk]. intros x <-. unfold digit. pose proof Bpos. lia.
  - cbn [dp sign] in *. assert (Em : dvalue (l ++ k) = v) by (rewrite dvalue_app, (zeros_dvalue k Hk), Ev; ring).
    exists r. split; [exact Er|]. split; [exact Hr|]. unfold mag, alloc in *. rewrite Edp. cbn [dp] in *. rewrite Em in *.
    split; [reflexivity|]. split; [|rewrite length_app; lia]. rewrite Es.
    destruct (Z.eqb_spec v 0) as [E0|]; [symmetry; auto|reflexivity].
Qed.

(** [a = a * 2^b] for less than a digit *)
Lemma mul_2d_spec a b :
  ok a -> (0 < b < 32)%nat -> (used a < PSTM_MAX_SIZE)%nat ->
  exists r, pstm_mul_2d a b a = Ok r /\ ok r /\ mag r = mag a * 2 ^ Z.of_nat b /\ sign r = sign a /\ (alloc a <= alloc r)%nat.
Proof.
  intros Ha Hb Hm. pose proof (ok_raw a Ha) as Hra. unfold pstm_mul_2d. rewrite copy_self by exact Hra. cbn [rbind].
  destruct (Nat.leb_spec DIGIT_BIT b) as [H|_]; [unfold DIGIT_BIT in H; lia|]. cbn [rbind]. rewrite Nat.mod_small by (unfold DIGIT_BIT; lia).
  destruct (Nat.eqb_spec b 0); [lia|]. pose proof (proj1 Hra) as Hla. unfold alloc in Hla.
  assert (Hpow : 0 < 2 ^ Z.of_nat b <= B) by (split; [apply Z.pow_pos_nonneg; lia|apply Z.pow_le_mono_r; lia]).
  destruct (scale_loop (2 ^ Z.of_nat b) (dp a) (dp a) (used a)
    (fun x '(d, carry) => let! v := load1 d x in
       let! d := store1 d x (u32 (u32 (Z.shiftl v (Z.of_nat b)) + carry)) in
       Ok (d, Z.shiftr v (Z.of_nat (DIGIT_BIT - b))))) as (out & t & E & Hl & Ho & Ht & Ev).
  - lia.
  - apply Hra.
  - lia.
  - intros k out t Hk Hl Ht. rewrite (load1_ok _ _ 0) by (rewrite length_app, length_skipn; lia). cbn [rbind].
    pose proof (mid_nth [] out (dp a) k Hl) as En. cbn [length app Nat.add] in En. rewrite En.
    destruct (digit_shl (nth k (dp a) 0) (Z.of_nat b) t) as (E1 & E2); [apply digit_nth, Hra|lia|lia|].
    rewrite store1_ok by (rewrite length_app, length_skipn; lia). cbn [rbind]. rewrite E1, <- E2.
    replace (Z.of_nat (DIGIT_BIT - b)) with (32 - Z.of_nat b) by (unfold DIGIT_BIT; lia). reflexivity.
  - rewrite E. cbn [rbind]. cbn [used sign dp].
    assert (Htd : digit t) by (unfold digit; lia). rewrite <- (raw_mag a Hra) in Ev.
    assert (Hz : zeros (skipn (used a) (dp a))) by apply Hra.
    assert (Hsg : mag a * 2 ^ Z.of_nat b = 0 -> sign a = false) by (intros E0; apply Ha, used_mag; [exact Ha|nia]).
    destruct (Z.eqb_spec t 0) as [->|Hn]; cbn [negb andb rbind].
    + rewrite <- Hl. apply clamp_app; [exact Ho|rewrite Hl; exact Hz|lia|exact Hsg|rewrite length_skipn; unfold alloc; lia].
    + destruct (Nat.ltb_spec (used a) PSTM_MAX_SIZE); [|lia].
      pose proof (top_carry_spec out (skipn (used a) (dp a)) t (sign a) (used a) Hl Htd) as Et. cbv zeta in Et |- *.
      assert (Eut : u32 t = t) by (apply Z.mod_small, Htd). rewrite Eut in Et. cbn [used sign dp] in Et. rewrite Et. cbn [rbind].
      rewrite app_assoc. replace (used a + 1)%nat with (length (out ++ [t])) by (rewrite length_app, Hl; reflexivity). apply clamp_app.
      * apply Forall_app. auto.
      * destruct (skipn (used a) (dp a)); [constructor|]. inversion Hz. assumption.
      * rewrite dvalue_snoc, Hl. lia.
      * exact Hsg.
      * rewrite length_app, Hl. cbn [length]. unfold alloc. pose proof (length_skipn (used a) (dp a)). destruct (skipn (used a) (dp a)); cbn [tl length] in *; lia.
Qed.

(** A loop from the top digit down, with a carry. *)
Lemma digits_down {T} (I : nat -> list Z -> T -> Prop) (body : nat -> list Z * T -> res error (list Z * T)) n l rest t0 :
  length l = n -> I n [] t0 ->
  (forall k out t, (k < n)%nat -> length out = (n - S k)%nat -> I (S k) out t ->
     exists v t', body k (firstn (S k) l ++ out ++ rest, t) = Ok (firstn k l ++ (v :: out) ++ rest, t') /\ I k (v :: out) t') ->
  exists out t, for_down n body (l ++ rest, t0) = Ok (out ++ rest, t) /\ length out = n /\ I O out t.
Proof.
  intros Hl H0 Hb.
  assert (G : forall m out t, (m <= n)%nat -> length out = (n - m)%nat -> I m out t ->
    exists out' t', for_down m body (firstn m l ++ out ++ rest, t) = Ok (out' ++ rest, t') /\ length out' = n /\ I O out' t').
  { induction m as [|m IH]; intros out t Hm Ho Hi.
    - exists out, t. split; [reflexivity|]. split; [lia|exact Hi].
    - cbn [for_down]. destruct (Hb m out t ltac:(lia) Ho Hi) as (v & t' & E & Hi'). rewrite E. cbn [rbind].
      apply IH; [lia|cbn [length]; lia|exact Hi']. }
  specialize (G n [] t0 (le_n n) ltac:(cbn; lia) H0). rewrite <- Hl, firstn_all in G. rewrite Hl in G. exact G.
Qed.

Lemma digit_shr v r D :
  digit v -> 0 < D < 32 -> 0 <= r < 2 ^ D ->
  Z.lor (Z.shiftr v D) (u32 (Z.shiftl r (32 - D))) = (r * B + v) / 2 ^ D /\ Z.land v (Z.shiftl 1 D - 1) = (r * B + v) mod 2 ^ D
  /\ digit ((r * B + v) / 2 ^ D).
Proof.
  unfold digit, B. intros Hv HD Hr. pose proof (Z.pow_pos_nonneg 2 D ltac:(lia) ltac:(lia)) as Hp.
  assert (E : 2 ^ 32 = 2 ^ (32 - D) * 2 ^ D) by (rewrite <- Z.pow_add_r by lia; f_equal; lia).
  assert (Hp' : 0 < 2 ^ (32 - D)) by (apply Z.pow_pos_nonneg; lia).
  assert (Hvd : 0 <= v / 2 ^ D < 2 ^ (32 - D)) by (split; [apply Z.div_pos; lia|apply Z.div_lt_upper_bound; lia]).
  assert (Eq : (r * 2 ^ 32 + v) / 2 ^ D = r * 2 ^ (32 - D) + v / 2 ^ D).
  { rewrite E, Z.mul_assoc, Z.add_comm, Z.div_add by lia. ring. }
  split; [|split].
  - rewrite Eq, Z.shiftr_div_pow2 by lia. assert (Es : u32 (Z.shiftl r (32 - D)) = Z.shiftl r (32 - D)).
    { unfold u32, wrap. rewrite Z.shiftl_mul_pow2 by lia. apply Z.mod_small. nia. }
    rewrite Es, Z.lor_comm. apply lor_shiftl; [lia|exact Hvd].
  - rewrite Z.shiftl_mul_pow2, Z.mul_1_l by lia. replace (2 ^ D - 1) with (Z.ones D) by (rewrite Z.ones_equiv; lia).
    rewrite Z.land_ones by lia. rewrite E, Z.mul_assoc, Z.add_comm, Z.mod_add by lia. reflexivity.
  - rewrite Eq. nia.
Qed.

(** [a = a / 2^b] for less than a digit *)
Lemma div_2d_spec a b :
  ok a -> (b < 32)%nat ->
  exists r, pstm_div_2d a b a = Ok r /\ ok r /\ mag r = mag a / 2 ^ Z.of_nat b /\ alloc r = alloc a
    /\ sign r = (if mag r =? 0 then false else sign a).
Proof.
  intros Ha Hb. pose proof (ok_raw a Ha) as Hra. unfold pstm_div_2d. rewrite copy_self by exact Hra. cbn [rbind].
  destruct (Nat.eqb_spec b 0) as [->|Hb0].
  { exists a. change (2 ^ Z.of_nat 0) with 1. rewrite Z.div_1_r. split; [reflexivity|]. split; [exact Ha|]. split; [reflexivity|].
    split; [reflexivity|]. destruct (Z.eqb_spec (mag a) 0); [|reflexivity]. apply Ha, used_mag; assumption. }
  destruct (Nat.leb_spec DIGIT_BIT b) as [H|_]; [unfold DIGIT_BIT in H; lia|]. cbn [rbind]. rewrite Nat.mod_small by (unfold DIGIT_BIT; lia).
  cbv zeta. destruct (Z.eqb_spec (Z.of_nat b) 0); [lia|]. set (D := Z.of_nat b) in *.
  pose proof (proj1 Hra) as Hla. unfold alloc in Hla. pose proof (Z.pow_pos_nonneg 2 D ltac:(lia) ltac:(lia)) as Hp.
  set (l := firstn (used a) (dp a)). assert (Hl : length l = used a) by (unfold l; rewrite length_firstn; lia).
  assert (Hld : Forall digit l) by apply Forall_firstn, Hra.
  destruct (digits_down (fun k out r => Forall digit out /\ 0 <= r < 2 ^ D
      /\ dvalue out = dvalue (skipn k l) / 2 ^ D /\ r = dvalue (skipn k l) mod 2 ^ D)
    (fun x '(d, r) => let! v := load1 d x in
         let! d := store1 d x (Z.lor (Z.shiftr v D) (u32 (Z.shiftl r (Z.of_nat DIGIT_BIT - D)))) in
         Ok (d, Z.land v (Z.shiftl 1 D - 1))) (used a) l (skipn (used a) (dp a)) 0 Hl) as (out & t & E & Hlo & Ho & _ & Ev & _).
  - rewrite <- Hl, skipn_all. cbn [dvalue]. rewrite Z.mod_0_l, Z.div_0_l by lia. repeat split; auto; lia.
  - intros k out r Hk Hlo (Ho & Hr & Ev & Er).
    assert (Hlen : (k < length (firstn (S k) l ++ out ++ skipn (used a) (dp a)))%nat) by (rewrite !length_app, length_firstn; lia).
    assert (En : nth k (firstn (S k) l ++ out ++ skipn (used a) (dp a)) 0 = nth k l 0).
    { rewrite app_nth1 by (rewrite length_firstn; lia). rewrite nth_firstn. destruct (Nat.ltb_spec k (S k)); [reflexivity|lia]. }
    destruct (digit_shr (nth k l 0) r D) as (E1 & E2 & E3); [apply digit_nth, Hld|lia|exact Hr|].
    exists ((r * B + nth k l 0) / 2 ^ D), ((r * B + nth k l 0) mod 2 ^ D). split.
    + rewrite (load1_ok _ _ 0) by exact Hlen. cbn [rbind]. rewrite En, store1_ok by exact Hlen. cbn [rbind].
      change (Z.of_nat DIGIT_BIT) with 32. rewrite E1, E2. do 2 f_equal.
      rewrite (firstn_S_nth l k 0), <- app_assoc by lia. cbn [app].
      assert (Hlf : length (firstn k l) = k) by (rewrite length_firstn; lia). rewrite <- Hlf at 3. apply upd_here.
    + rewrite (skipn_cons l k 0) by lia. cbn [dvalue].
      pose proof (Z.div_mod (dvalue (skipn (S k) l)) (2 ^ D) ltac:(lia)) as Hdm. rewrite <- Ev, <- Er in Hdm.
      replace (nth k l 0 + B * dvalue (skipn (S k) l)) with (r * B + nth k l 0 + (B * dvalue out) * 2 ^ D) by nia.
      rewrite Z.div_add, Z.mod_add by lia.
      split; [constructor; assumption|]. split; [apply Z.mod_pos_bound; lia|]. split; [ring|reflexivity].
  - unfold l in E. rewrite firstn_skipn in E. rewrite E. cbn [rbind].
    assert (Hz : zeros (skipn (used a) (dp a))) by apply Hra. cbn [skipn] in Ev.
    destruct (clamp_spec (mk_pstm (used a) (sign a) (out ++ skipn (used a) (dp a)))) as (r & Er & Hr & Edp & _ & Es).
    + apply mk_raw; [rewrite length_app; lia|apply Forall_app; split; [exact Ho|apply Forall_skipn, Hra]|].
      rewrite skipn_app, skipn_all2, Hlo, Nat.sub_diag by lia. exact Hz.
    + exists r. split; [exact Er|]. split; [exact Hr|]. unfold mag, alloc in *. rewrite Edp. cbn [dp sign] in *.
      rewrite dvalue_app, (zeros_dvalue _ Hz), Z.mul_0_r, Z.add_0_r in *. split; [|split; [rewrite length_app, length_skipn; lia|exact Es]].
      rewrite Ev. fold (mag a). rewrite (raw_mag a Hra). reflexivity.
Qed.

(** ** Bytes *)

(** Storing a byte where the bytes up to it are zero. *)
Lemma store_byte_spec d i v :
  Forall digit d -> (i < 4 * length d)%nat -> 0 <= v < 256 -> (256 ^ (Z.of_nat i + 1) | dvalue d) ->
  exists d', store_byte d i v = Ok d' /\ Forall digit d' /\ length d' = length d /\ dvalue d' = dvalue d + v * 256 ^ Z.of_nat i.
Proof.
  intros Hd Hi Hv Hdiv. pose proof (Nat.div_mod_eq i 4) as Ed. pose proof (Nat.mod_upper_bound i 4 ltac:(lia)) as Hm.
  set (j := (i / 4)%nat) in *. set (m := (i mod 4)%nat) in *. assert (Hj : (j < length d)%nat) by lia.
  unfold store_byte. fold j m. rewrite (load1_ok _ _ 0) by exact Hj. cbn [rbind]. rewrite store1_ok by exact Hj.
  set (x := nth j d 0). set (k := 8 * Z.of_nat m).
  assert (Hx : digit x) by apply digit_nth, Hd. unfold digit, B in Hx.
  assert (Hpi : 256 ^ Z.of_nat i = pB j * 2 ^ k).
  { unfold pB, B, k. change 256 with (2 ^ 8). rewrite <- !Z.pow_mul_r, <- Z.pow_add_r by lia. f_equal. lia. }
  assert (Hk32 : 2 ^ 32 = 2 ^ (k + 8) * 2 ^ (24 - k)) by (rewrite <- Z.pow_add_r by lia; f_equal; lia).
  assert (Hk8 : 2 ^ (k + 8) = 256 * 2 ^ k) by (rewrite Z.pow_add_r by lia; change (2 ^ 8) with 256; ring).
  pose proof (Z.pow_pos_nonneg 2 k ltac:(lia) ltac:(lia)) as Hpk.
  pose proof (Z.pow_pos_nonneg 2 (24 - k) ltac:(lia) ltac:(lia)) as Hpk'.
  assert (Hxm : exists y, x = y * 2 ^ (k + 8)).
  { destruct Hdiv as (q & Eq). rewrite Z.pow_add_r, Hpi in Eq by lia. change (256 ^ 1) with 256 in Eq.
    rewrite (dvalue_firstn_skipn j) in Eq by lia. rewrite (skipn_cons d j 0) in Eq by exact Hj. cbn [dvalue] in Eq. fold x in Eq.
    set (low := dvalue (firstn j d)) in *. set (hi := dvalue (skipn (S j) d)) in *.
    assert (Hlow : 0 <= low < pB j).
    { pose proof (dvalue_range (firstn j d) (Forall_firstn _ _ _ Hd)) as R. rewrite length_firstn, Nat.min_l in R by lia. exact R. }
    pose proof (pB_pos j) as Hpj.
    assert (E0 : low = (q * (2 ^ k * 256) - (x + B * hi)) * pB j) by lia.
    assert (low = 0) by (rewrite <- (Z.mod_small low (pB j)), E0 by lia; apply Z.mod_mul; lia).
    exists (q - 2 ^ (24 - k) * hi). unfold B in Eq. rewrite Hk32, Hk8 in *. nia. }
  destruct Hxm as (y & Ey).
  assert (Eland : Z.land x (Z.lnot (Z.shiftl 255 k)) = x).
  { apply Z.bits_inj'. intros n Hn. rewrite Z.land_spec, Z.lnot_spec, Z.shiftl_spec by lia.
    destruct (Z.lt_ge_cases n (k + 8)) as [Hn8|Hn8].
    - rewrite Ey, Z.mul_pow2_bits_low by lia. reflexivity.
    - replace (Z.testbit 255 (n - k)) with false; [apply andb_true_r|].
      symmetry. apply (Z.bits_above_log2 255); [lia|]. change (Z.log2 255) with 7. lia. }
  assert (Elor : Z.lor x (Z.shiftl v k) = x + v * 2 ^ k).
  { rewrite Ey, <- (Z.shiftl_mul_pow2 y) by lia. rewrite lor_shiftl; [rewrite !Z.shiftl_mul_pow2 by lia; reflexivity|lia|].
    unfold in_u. rewrite Z.shiftl_mul_pow2, Hk8 by lia. nia. }
  rewrite Eland, Elor. eexists. split; [reflexivity|]. split; [|split; [apply length_upd|]].
  - apply Forall_upd; [exact Hd|]. unfold digit, B. rewrite Hk32 in *. rewrite Hk8 in *.
    assert (Hy : y + 1 <= 2 ^ (24 - k)) by nia. assert (Hy2 : (y + 1) * (256 * 2 ^ k) <= 2 ^ (24 - k) * (256 * 2 ^ k)) by (apply Z.mul_le_mono_nonneg_r; lia).
    nia.
  - rewrite dvalue_upd_last by exact Hj. fold x. rewrite Hpi. ring.
Qed.

Lemma be_word_snoc l x : be_word (l ++ [x]) = 256 * be_word l + x.
Proof. unfold be_word. rewrite rev_app_distr. cbn [rev app le_word]. ring. Qed.

Lemma read_loop_spec (b : list Z) c d :
  bytes b -> (c <= length b)%nat -> Forall digit d -> dvalue d = 0 -> (c <= 4 * length d)%nat ->
  exists d', for_down c (fun i d => let! v := load1 b (c - 1 - i) in store_byte d i v) d = Ok d'
    /\ Forall digit d' /\ length d' = length d /\ dvalue d' = be_word (firstn c b).
Proof.
  intros Hb Hc Hd E0 Hl.
  assert (G : forall m d, (m <= c)%nat -> Forall digit d -> (c <= 4 * length d)%nat -> dvalue d = be_word (firstn (c - m) b) * 256 ^ Z.of_nat m ->
    exists d', for_down m (fun i d => let! v := load1 b (c - 1 - i) in store_byte d i v) d = Ok d'
      /\ Forall digit d' /\ length d' = length d /\ dvalue d' = be_word (firstn c b)).
  { induction m as [|m IH]; intros d1 Hm Hd1 Hl1 E1; cbn [for_down].
    - rewrite Nat.sub_0_r in E1. exists d1. repeat split; auto. rewrite E1. change (256 ^ Z.of_nat 0) with 1. ring.
    - rewrite (load1_ok _ _ 0) by lia. cbn [rbind]. set (v := nth (c - 1 - m) b 0).
      assert (Hv : 0 <= v < 256) by (unfold bytes in Hb; rewrite Forall_forall in Hb; apply Hb, nth_In; lia).
      destruct (store_byte_spec d1 m v Hd1 ltac:(lia) Hv) as (d2 & E2 & Hd2 & Hl2 & Ev).
      { exists (be_word (firstn (c - S m) b)). rewrite E1. f_equal. f_equal. lia. }
      rewrite E2. cbn [rbind]. destruct (IH d2 ltac:(lia) Hd2 ltac:(lia)) as (d' & E' & Hd' & Hl' & Ev').
      + rewrite Ev, E1. replace (c - m)%nat with (S (c - S m)) by lia. rewrite (firstn_S_nth b _ 0), be_word_snoc by lia.
        replace (c - S m)%nat with (c - 1 - m)%nat by lia. fold v. rewrite Nat2Z.inj_succ, Z.pow_succ_r by lia. ring.
      + exists d'. rewrite Hl2 in Hl'. auto. }
  apply (G c d); auto. rewrite E0, Nat.sub_diag. reflexivity.
Qed.

Lemma read_bin_spec a b c :
  bytes b -> (c <= length b)%nat -> (c <= PSTM_MAX_SIZE * 4)%nat ->
  exists r, pstm_read_unsigned_bin a b c = Ok r /\ ok r /\ sign r = false /\ mag r = be_word (firstn c b)
    /\ alloc r = Nat.max (alloc a) ((c + 3) / 4).
Proof.
  intros Hb Hc Hm. unfold pstm_read_unsigned_bin. replace (c - PSTM_MAX_SIZE * 4)%nat with O by lia. rewrite Nat.sub_0_r.
  rewrite grow_if. set (n := ((c + 3) / 4)%nat). destruct (pstm_zero_ok a) as (Hz & Ez & Lz).
  pose proof (grow_raw (pstm_zero a) n (ok_raw _ Hz)) as Hg. pose proof (grow_alloc (pstm_zero a) n) as Eg.
  pose proof (grow_mag (pstm_zero a) n) as Em. rewrite Ez in Em. rewrite Lz in Eg. rewrite grow_sign.
  set (g := pstm_grow (pstm_zero a) n) in *. clearbody g. unfold alloc in Eg.
  assert (Hn : (c <= 4 * n /\ 4 * n <= c + 3)%nat) by (unfold n; pose proof (Nat.div_mod_eq (c + 3) 4); pose proof (Nat.mod_upper_bound (c + 3) 4 ltac:(lia)); lia).
  cbn [Nat.add]. destruct (read_loop_spec b c (dp g) Hb Hc (proj1 (proj2 Hg)) Em ltac:(lia)) as (d & E & Hd & Hl & Ev).
  rewrite E. cbn [rbind]. cbn [sign pstm_zero].
  assert (Hrange : dvalue d < pB n).
  { rewrite Ev. pose proof (be_word_range (firstn c b) (bytes_firstn c b Hb)) as R. rewrite length_firstn, Nat.min_l in R by lia.
    eapply Z.lt_le_trans; [apply R|]. unfold pB, B. change 256 with (2 ^ 8). rewrite <- !Z.pow_mul_r by lia. apply Z.pow_le_mono_r; lia. }
  destruct (clamp_spec (mk_pstm n false d)) as (r & Er & Hr & Edp & _ & Es).
  - apply mk_raw; [lia|exact Hd|]. apply zeros_of_dvalue; [apply Forall_skipn, Hd|].
    rewrite (dvalue_firstn_skipn n) in Hrange by lia. pose proof (dvalue_range (firstn n d) (Forall_firstn _ _ _ Hd)).
    pose proof (dvalue_range (skipn n d) (Forall_skipn _ _ _ Hd)). pose proof (pB_pos n). nia.
  - exists r. split; [exact Er|]. split; [exact Hr|]. unfold mag, alloc in *. rewrite Edp. cbn [dp sign] in *.
    split; [rewrite Es; destruct (_ =? _); reflexivity|]. split; [exact Ev|]. rewrite Hl. lia.
Qed.

Lemma nth_app_at (pre rest : list Z) x d : nth (length pre) (pre ++ x :: rest) d = x.
Proof. rewrite app_nth2, Nat.sub_diag by lia. reflexivity. Qed.

Lemma reverse_spec (n : nat) (pre seg post : list Z) :
  (length seg = 2 * n \/ length seg = 2 * n + 1)%nat ->
  pstm_reverse n (pre ++ seg ++ post) (length pre) (length pre + length seg - 1) = Ok (pre ++ rev seg ++ post).
Proof.
  revert pre seg post; induction n as [|n IH]; intros pre seg post Hn.
  - destruct seg as [|x [|y seg]]; cbn [length] in Hn; try lia; reflexivity.
  - destruct seg as [|x seg]; [cbn in Hn; lia|]. destruct seg as [|y mid _] using rev_ind; [cbn in Hn; lia|].
    cbn [length] in *. rewrite length_app in *. cbn [length] in *. set (P := length pre).
    assert (El : (P + S (length mid + 1) - 1 = length (pre ++ x :: mid))%nat) by (rewrite !length_app; cbn [length]; lia).
    assert (Eb : pre ++ (x :: mid ++ [y]) ++ post = (pre ++ x :: mid) ++ y :: post) by (cbn [app]; rewrite <- !app_assoc; reflexivity).
    cbn [pstm_reverse]. rewrite El, Eb.
    rewrite (load1_ok _ P 0) by (rewrite !length_app; cbn [length]; lia). cbn [rbind].
    rewrite (load1_ok _ _ 0) by (rewrite !length_app; cbn [length]; lia). cbn [rbind]. rewrite nth_app_at.
    replace (nth P ((pre ++ x :: mid) ++ y :: post) 0) with x by (rewrite <- app_assoc; cbn [app]; symmetry; apply nth_app_at).
    rewrite store1_ok by (rewrite !length_app; cbn [length]; lia). cbn [rbind].
    rewrite <- app_assoc. cbn [app]. unfold P at 1. rewrite upd_here.
    assert (Eb' : pre ++ y :: mid ++ y :: post = (pre ++ y :: mid) ++ y :: post) by (rewrite <- app_assoc; reflexivity).
    rewrite Eb'. replace (length (pre ++ x :: mid)) with (length (pre ++ y :: mid)) by (rewrite !length_app; reflexivity).
    rewrite store1_ok by (rewrite !length_app; cbn; lia). cbn [rbind]. rewrite upd_here.
    specialize (IH (pre ++ [y]) mid (x :: post) ltac:(lia)).
    replace (P + 1)%nat with (length (pre ++ [y])) by (rewrite length_app; reflexivity).
    replace (length (pre ++ y :: mid) - 1)%nat with (length (pre ++ [y]) + length mid - 1)%nat by (rewrite !length_app; cbn; lia).
    rewrite <- !app_assoc in *. cbn [app] in *. rewrite IH. f_equal.
    cbn [rev]. rewrite rev_app_distr. cbn [rev app]. rewrite <- app_assoc. reflexivity.
Qed.

Lemma low_byte a : ok a -> (0 < used a)%nat -> Z.land (nth 0 (dp a) 0) 255 = mag a mod 256.
Proof.
  intros Ha Hu. pose proof (proj1 (ok_raw a Ha)) as Hl. unfold alloc in Hl. unfold mag.
  destruct (dp a) as [|x d]; [cbn in Hl; lia|]. cbn [nth dvalue]. change 255 with (Z.ones 8). rewrite Z.land_ones by lia.
  unfold B. change (2 ^ 32) with (2 ^ 24 * 256). change (2 ^ 8) with 256.
  replace (x + 2 ^ 24 * 256 * dvalue d) with (x + (2 ^ 24 * dvalue d) * 256) by ring. rewrite Z.mod_add by lia. reflexivity.
Qed.

Lemma nbytes_S n z : nbytes (S n) z -> 0 < z /\ nbytes n (z / 256).
Proof.
  intros [(_ & H)|H]; [lia|]. rewrite Nat2Z.inj_succ, Z.pow_succ_r in H by lia.
  replace (Z.succ (Z.of_nat n) - 1) with (Z.of_nat n) in H by lia. pose proof (Z.pow_pos_nonneg 256 (Z.of_nat n) ltac:(lia) ltac:(lia)).
  split; [lia|]. destruct n as [|n]; [left; cbn in H; split; [apply Z.div_small; lia|reflexivity]|right].
  rewrite Nat2Z.inj_succ in *. replace (Z.succ (Z.of_nat n) - 1) with (Z.of_nat n) by lia. rewrite Z.pow_succ_r in * by lia.
  split; [apply Z.div_le_lower_bound; lia|apply Z.div_lt_upper_bound; lia].
Qed.

Lemma bin_loop_spec n fuel t b x :
  ok t -> nbytes n (mag t) -> (n <= fuel)%nat -> (x + n <= length b)%nat ->
  bin_loop fuel t b x = Ok (blit b x (le_bytes n (mag t)), (x + n)%nat).
Proof.
  revert fuel t b x; induction n as [|n IH]; intros fuel t b x Ht Hn Hf Hx.
  - assert (E0 : mag t = 0) by (destruct Hn as [(E & _)|Hn]; [exact E|cbn in Hn; pose proof (raw_range t (ok_raw t Ht)); lia]).
    pose proof (proj2 (used_mag t Ht) E0) as Eu. destruct fuel; cbn [bin_loop]; rewrite Eu; cbn [Nat.eqb le_bytes]; unfold blit; cbn [app length];
      rewrite Nat.add_0_r, firstn_skipn; reflexivity.
  - destruct fuel as [|fuel]; [lia|]. cbn [bin_loop]. destruct (nbytes_S n (mag t) Hn) as (Hp & Hn').
    destruct (Nat.eqb_spec (used t) 0) as [E0|E0]; [pose proof (proj1 (used_mag t Ht) E0); lia|].
    pose proof (proj1 (ok_raw t Ht)) as Hl. unfold alloc in Hl. rewrite (load1_ok _ _ 0) by lia. cbn [rbind].
    rewrite store1_ok by lia. cbn [rbind]. rewrite (low_byte t Ht) by lia.
    destruct (div_2d_spec t 8 Ht ltac:(lia)) as (r & Er & Hr & Em & _). rewrite Er. cbn [rbind]. change (2 ^ Z.of_nat 8) with 256 in Em.
    rewrite (IH fuel r _ (S x) Hr) by (rewrite ?Em, ?length_upd; auto; lia). rewrite Em. f_equal. f_equal; [|lia].
    cbn [le_bytes]. unfold blit. rewrite firstn_upd by lia. cbn [length]. rewrite !length_le_bytes, <- app_assoc. cbn [app].
    do 3 f_equal. rewrite skipn_upd by lia. f_equal. lia.
Qed.

Lemma mag_bytes a n : ok a -> nbytes n (mag a) -> (n <= 4 * used a)%nat.
Proof.
  intros Ha [(_ & ->)|Hn]; [lia|]. destruct (Nat.le_gt_cases n (4 * used a)) as [|Hgt]; [assumption|].
  pose proof (raw_range a (ok_raw a Ha)) as Hr. rewrite pB_pow in Hr.
  assert (2 ^ Z.of_nat (used a * 32) <= 256 ^ (Z.of_nat n - 1)).
  { change 256 with (2 ^ 8). rewrite <- Z.pow_mul_r by lia. apply Z.pow_le_mono_r; lia. }
  lia.
Qed.

Lemma to_bin_spec a b pos n :
  ok a -> nbytes n (mag a) -> (pos + n <= length b)%nat ->
  pstm_to_unsigned_bin a b pos = Ok (blit b pos (be_bytes n (mag a))).
Proof.
  intros Ha Hn Hp. unfold pstm_to_unsigned_bin, pstm_init_copy. cbn [andb].
  destruct (pstm_copy_ok a (pstm_init_size (alloc a)) Ha (ok_raw _ (init_size_ok _))) as (t & Et & Ht & Eu & _ & Em & _).
  rewrite Et. cbn [rbind]. rewrite (bin_loop_spec n) by (rewrite ?Em; auto using mag_bytes). cbn [rbind]. rewrite Em.
  replace (pos + n - pos)%nat with n by lia. unfold blit at 1. rewrite length_le_bytes.
  assert (Hlf : length (firstn pos b) = pos) by (rewrite length_firstn; lia).
  pose proof (reverse_spec (n / 2) (firstn pos b) (le_bytes n (mag a)) (skipn (pos + n) b)) as E.
  rewrite length_le_bytes, Hlf in E. rewrite E.
  - unfold blit, be_bytes. rewrite length_rev, length_le_bytes. reflexivity.
  - pose proof (Nat.div_mod_eq n 2). pose proof (Nat.mod_upper_bound n 2 ltac:(lia)). lia.
Qed.

End PstmO.
