(* ===== verification/PstmMul.v ===== *)
(** * Multiple-precision integers: products

    networking/tls_pstm_mul_comba.c and tls_pstm_sqr_comba.c: the columns of
    the product, each summed in an accumulator of three words, are the digits
    of the product and of the square. *)

From Stdlib Require Import ZArith List Lia Bool.
From S2P Require Import Prelude Words Mem Pstm PstmVal PstmOps.
Import ListNotations.
Local Open Scope Z_scope.
Local Open Scope res_scope.

Module PstmM.
Import Pstm PstmV PstmO.

(** ** Sums and columns *)

Fixpoint sum (n : nat) (f : nat -> Z) : Z := match n with O => 0 | S n => sum n f + f n end.

Lemma sum_ext n f g : (forall i, (i < n)%nat -> f i = g i) -> sum n f = sum n g.
Proof. induction n as [|n IH]; intros H; cbn [sum]; [reflexivity|]. rewrite IH, H by auto with arith. reflexivity. Qed.

Lemma sum_first n f : sum (S n) f = f O + sum n (fun i => f (S i)).
Proof. induction n as [|n IH]; [cbn; ring|]. change (sum (S (S n)) f) with (sum (S n) f + f (S n)). rewrite IH. cbn [sum]. ring. Qed.

Lemma sum_plus n f g : sum n (fun i => f i + g i) = sum n f + sum n g.
Proof. induction n as [|n IH]; cbn [sum]; [reflexivity|]. rewrite IH. ring. Qed.

Lemma sum_scale n c f : sum n (fun i => c * f i) = c * sum n f.
Proof. induction n as [|n IH]; cbn [sum]; [ring|]. rewrite IH. ring. Qed.

Lemma sum_zero n f : (forall i, (i < n)%nat -> f i = 0) -> sum n f = 0.
Proof. induction n as [|n IH]; intros H; cbn [sum]; [reflexivity|]. rewrite IH, H by auto with arith. reflexivity. Qed.

Lemma columns_app n m f : sum (n + m) f = sum n f + sum m (fun i => f (n + i)%nat).
Proof. induction m as [|m IH]; [rewrite Nat.add_0_r; cbn; ring|]. rewrite Nat.add_succ_r. cbn [sum]. rewrite IH. ring. Qed.

Lemma sum_rev n f : sum n f = sum n (fun i => f (n - 1 - i)%nat).
Proof.
  induction n as [|n IH]; [reflexivity|]. rewrite (sum_first n (fun i => f (S n - 1 - i)%nat)). cbn [sum].
  replace (S n - 1 - 0)%nat with n by lia. rewrite IH, Z.add_comm. f_equal. apply sum_ext. intros i Hi. f_equal. lia.
Qed.

Lemma columns_bound n f m : (forall i, (i < n)%nat -> 0 <= f i <= m) -> 0 <= sum n f <= Z.of_nat n * m.
Proof.
  induction n as [|n IH]; intros H; cbn [sum]; [lia|]. specialize (IH ltac:(auto with arith)). pose proof (H n ltac:(lia)). lia.
Qed.

Lemma sum_nonneg n f : (forall i, (i < n)%nat -> 0 <= f i) -> 0 <= sum n f.
Proof. induction n as [|n IH]; intros H; cbn [sum]; [lia|]. specialize (IH ltac:(auto with arith)). pose proof (H n ltac:(lia)). lia. Qed.

(** The column [k] of the product of two arrays. *)
Definition column (a b : list Z) (k : nat) : Z := sum (S k) (fun i => nth i a 0 * nth (k - i) b 0).

Lemma dvalue_sum l n : (length l <= n)%nat -> dvalue l = sum n (fun k => nth k l 0 * pB k).
Proof.
  revert n; induction l as [|x l IH]; intros n Hn.
  - rewrite sum_zero; [reflexivity|]. intros [|i] _; cbn [nth]; ring.
  - destruct n as [|n]; [cbn in Hn; lia|]. rewrite sum_first. cbn [nth dvalue length] in *. rewrite (IH n) by lia.
    rewrite <- sum_scale, pB_0. rewrite Z.mul_1_r. f_equal. apply sum_ext. intros i _. rewrite pB_S. ring.
Qed.

Lemma column_cons x a b k : column (x :: a) b k = x * nth k b 0 + match k with O => 0 | S k => column a b k end.
Proof. unfold column. rewrite sum_first, Nat.sub_0_r. cbn [nth]. f_equal. destruct k; reflexivity. Qed.

Lemma product_columns a b n : (length a + length b <= n)%nat -> dvalue a * dvalue b = sum n (fun k => column a b k * pB k).
Proof.
  revert n; induction a as [|x a IH]; intros n Hn.
  - rewrite sum_zero; [reflexivity|]. intros k _. unfold column. rewrite sum_zero; [ring|]. intros [|i] _; cbn [nth]; ring.
  - destruct n as [|n]; [cbn in Hn; lia|]. cbn [length dvalue] in *.
    rewrite (sum_ext (S n) _ (fun k => x * (nth k b 0 * pB k) + match k with O => 0 | S k => column a b k end * pB k))
      by (intros i _; rewrite column_cons; ring).
    rewrite sum_plus, sum_scale, <- (dvalue_sum b (S n)) by lia. rewrite sum_first, Z.mul_0_l, Z.add_0_l.
    rewrite Z.mul_add_distr_r, <- Z.mul_assoc, (IH n) by lia. rewrite <- sum_scale. f_equal. apply sum_ext. intros i _. rewrite pB_S. ring.
Qed.

(** ** The accumulator *)

Definition accv (c : acc3) : Z := let '(c0, c1, c2) := c in c0 + B * c1 + B * B * c2.
Definition acc_ok (c : acc3) : Prop := let '(c0, c1, c2) := c in digit c0 /\ digit c1 /\ digit c2.

Lemma add_product_spec c t :
  acc_ok c -> 0 <= t <= (B - 1) * (B - 1) -> accv c + t < B * B * B ->
  acc_ok (add_product c t) /\ accv (add_product c t) = accv c + t.
Proof.
  destruct c as [[c0 c1] c2]. unfold acc_ok, accv, add_product, digit. intros (H0 & H1 & H2) Ht Hb. pose proof Bpos as HB.
  assert (E1 : u64 (c0 + t) = c0 + t) by (apply u64_id; nia). rewrite E1.
  pose proof (word_split (c0 + t) ltac:(lia)) as W1. pose proof (word_carry (c0 + t) ltac:(nia)) as K1. unfold digit in K1.
  set (k1 := Z.shiftr (c0 + t) 32) in *. assert (HB2 : 2 <= B) by (unfold B; lia).
  assert (E2 : u64 (c1 + k1) = c1 + k1) by (apply u64_id; nia). rewrite E2.
  pose proof (word_split (c1 + k1) ltac:(lia)) as W2. pose proof (word_carry (c1 + k1) ltac:(nia)) as K2. unfold digit in K2.
  set (k2 := Z.shiftr (c1 + k1) 32) in *.
  pose proof (digit_u32 (c0 + t)) as D1. pose proof (digit_u32 (c1 + k1)) as D2. unfold digit in D1, D2.
  assert (E3 : u32 k2 = k2) by (apply Z.mod_small; exact K2). rewrite E3.
  assert (Hc2 : c2 + k2 < B).
  { apply Z.nle_gt. intros Hge. assert (B * B * B <= B * B * (c2 + k2)) by (apply Z.mul_le_mono_nonneg_l; nia). nia. }
  assert (E4 : u32 (c2 + k2) = c2 + k2) by (apply Z.mod_small; change (2 ^ 32) with B; lia). rewrite E4.
  split; [lia|]. nia.
Qed.

Lemma forward_spec c : acc_ok c -> acc_ok (COMBA_FORWARD c) /\ accv c = fst (fst c) + B * accv (COMBA_FORWARD c) /\ digit (fst (fst c)).
Proof.
  destruct c as [[c0 c1] c2]. unfold acc_ok, accv, COMBA_FORWARD, digit. pose proof Bpos. cbn [fst]. intros. split; [lia|]. split; [ring|tauto].
Qed.

(** The loop over the columns, for a column function that adds [colv k]. *)
Lemma columns_spec (body : nat -> list Z * acc3 -> res error (list Z * acc3)) (colv : nat -> Z) N pa dst0 :
  0 <= N < B -> (pa <= length dst0)%nat ->
  (forall k, (k < pa)%nat -> 0 <= colv k <= N * ((B - 1) * (B - 1))) ->
  (forall k d c, (k < pa)%nat -> (k < length d)%nat -> acc_ok c -> accv (COMBA_FORWARD c) <= N * B ->
     exists c', body k (d, c) = Ok (upd d k (fst (fst c')), c') /\ acc_ok c' /\ accv c' = accv (COMBA_FORWARD c) + colv k) ->
  exists out c r, for_up pa 0 body (dst0, (0, 0, 0)) = Ok (out ++ skipn pa dst0, c)
    /\ length out = pa /\ Forall digit out /\ 0 <= r /\ dvalue out + pB pa * r = sum pa (fun k => colv k * pB k).
Proof.
  intros HN Hpa Hcol Hbody. pose proof Bpos as HB.
  destruct (digits_up (fun k out c => Forall digit out /\ acc_ok c /\ accv (COMBA_FORWARD c) <= N * B
      /\ dvalue out + pB k * accv (COMBA_FORWARD c) = sum k (fun k => colv k * pB k)) body pa [] dst0 (0, 0, 0) Hpa)
    as (out & c & E & Hl & Ho & Hc & _ & Ev).
  - split; [constructor|]. unfold acc_ok, accv, digit. cbn. split; [lia|]. split; [nia|reflexivity].
  - cbn [length app Nat.add]. intros k out c Hk Hl (Ho & Hc & Hle & Ev).
    destruct (Hbody k (out ++ skipn k dst0) c Hk) as (c' & E & Hc' & Ec); auto; [rewrite length_app, length_skipn; lia|].
    exists (fst (fst c')), c'. split; [exact E|]. destruct (forward_spec c' Hc') as (Hf & Ef & Hd).
    split; [apply Forall_app; auto|]. split; [exact Hc'|]. pose proof (Hcol k Hk) as Hck. unfold digit in Hd.
    split; [nia|]. rewrite dvalue_snoc, Hl, pB_S. cbn [sum]. rewrite <- Ev. nia.
  - destruct (forward_spec c Hc) as (Hf & _ & _). exists out, c, (accv (COMBA_FORWARD c)). split; [exact E|]. split; [exact Hl|].
    split; [exact Ho|]. split; [|exact Ev]. destruct (COMBA_FORWARD c) as [[c0 c1] c2]. unfold acc_ok, digit in Hf. unfold accv. nia.
Qed.

(** The loop over the products of a column. *)
Lemma column_loop (term : nat -> acc3 -> acc3) (body : nat -> acc3 -> res error acc3) (f : nat -> Z) n c M :
  acc_ok c -> (forall iz c, (iz < n)%nat -> body iz c = Ok (term iz c)) ->
  (forall iz c, (iz < n)%nat -> acc_ok c -> accv c + f iz < B * B * B -> acc_ok (term iz c) /\ accv (term iz c) = accv c + f iz) ->
  (forall iz, (iz < n)%nat -> 0 <= f iz) -> accv c + sum n f <= M -> M < B * B * B ->
  exists c', for_up n 0 body c = Ok c' /\ acc_ok c' /\ accv c' = accv c + sum n f.
Proof.
  intros Hc Hbody Hterm Hf HM HB.
  assert (G : forall m k c1, (k + m = n)%nat -> acc_ok c1 -> accv c1 = accv c + sum k f ->
    exists c', for_up m k body c1 = Ok c' /\ acc_ok c' /\ accv c' = accv c + sum n f).
  { induction m as [|m IH]; intros k c1 Hk Hc1 E1; cbn [for_up].
    - exists c1. replace n with k by lia. auto.
    - rewrite Hbody by lia. cbn [rbind].
      assert (Hle : sum (S k) f <= sum n f).
      { replace n with (S k + m)%nat by lia. rewrite columns_app. pose proof (sum_nonneg m (fun i => f (S k + i)%nat) ltac:(intros; apply Hf; lia)). lia. }
      cbn [sum] in Hle. destruct (Hterm k c1) as (Hc2 & E2); [lia|exact Hc1|lia|].
      apply IH; [lia|exact Hc2|]. rewrite E2, E1. cbn [sum]. ring. }
  apply (G n O c); auto. cbn. ring.
Qed.

(** ** The product *)

Lemma nth_used a i : raw a -> (i < used a)%nat -> nth i (firstn (used a) (dp a)) 0 = nth i (dp a) 0.
Proof. intros _ H. rewrite nth_firstn. destruct (Nat.ltb_spec i (used a)); [reflexivity|lia]. Qed.

Definition digits_of (a : pstm_int) : list Z := firstn (used a) (dp a).

Lemma digits_of_spec a : raw a -> length (digits_of a) = used a /\ Forall digit (digits_of a) /\ dvalue (digits_of a) = mag a.
Proof.
  intros Ha. split; [|split; [apply Forall_firstn, Ha|symmetry; apply raw_mag, Ha]].
  unfold digits_of. rewrite length_firstn. destruct Ha as (Ha & _). unfold alloc in Ha. lia.
Qed.

(** The terms that are left out of a column are zero. *)
Lemma column_range (a b : list Z) k tx n :
  (tx + n <= S k)%nat -> (forall i, (i < tx)%nat -> (length b <= k - i)%nat) ->
  (forall i, (tx + n <= i <= k)%nat -> (length a <= i)%nat) ->
  column a b k = sum n (fun iz => nth (tx + iz) a 0 * nth (k - tx - iz) b 0).
Proof.
  intros Hn Hb Ha. unfold column. replace (S k) with (tx + n + (S k - (tx + n)))%nat by lia. rewrite !columns_app.
  rewrite (sum_zero tx) by (intros i Hi; rewrite (nth_overflow b) by auto; ring).
  rewrite (sum_zero (S k - (tx + n))) by (intros i Hi; rewrite (nth_overflow a) by (apply Ha; lia); ring).
  rewrite Z.add_0_l, Z.add_0_r. apply sum_ext. intros i Hi. do 2 f_equal. lia.
Qed.

Lemma product_bound x y : digit x -> digit y -> 0 <= x * y <= (B - 1) * (B - 1).
Proof. unfold digit. intros. pose proof Bpos. nia. Qed.

Lemma column_bound a b k : Forall digit a -> Forall digit b -> 0 <= column a b k <= Z.of_nat (length a) * ((B - 1) * (B - 1)).
Proof.
  intros Ha Hb. unfold column. pose proof Bpos.
  assert (Hp : forall i, 0 <= nth i a 0 * nth (k - i) b 0 <= (B - 1) * (B - 1)) by (intros; apply product_bound; apply digit_nth; assumption).
  destruct (Nat.le_gt_cases (S k) (length a)) as [H1|H1].
  - pose proof (columns_bound (S k) (fun i => nth i a 0 * nth (k - i) b 0) ((B - 1) * (B - 1)) ltac:(intros; apply Hp)). nia.
  - replace (S k) with (length a + (S k - length a))%nat by lia. rewrite columns_app.
    rewrite (sum_zero (S k - length a)) by (intros i Hi; rewrite (nth_overflow a) by lia; ring). rewrite Z.add_0_r. apply columns_bound. intros; apply Hp.
Qed.

Lemma comba_dst_spec pad pa : (pa <= length (comba_dst pad pa))%nat.
Proof.
  unfold comba_dst. destruct pad as [len|]; [|rewrite repeat_length; lia].
  destruct (Nat.ltb_spec len (4 * pa)); rewrite repeat_length; [lia|]. apply Nat.div_le_lower_bound; lia.
Qed.

Lemma comba_finish_spec out rest C pa s :
  length out = pa -> Forall digit out -> raw C -> (pa <= alloc C)%nat ->
  exists r, comba_finish (out ++ rest) pa s C = Ok r /\ ok r /\ mag r = dvalue out /\ alloc r = alloc C
    /\ sign r = (if mag r =? 0 then false else s).
Proof.
  intros Hl Ho HC Hpa. unfold comba_finish. unfold alloc in Hpa.
  pose proof (copy_up (out ++ rest) 0 pa 0 (dp C) ltac:(lia) ltac:(rewrite length_app; lia)) as E. cbn [Nat.add] in E. rewrite E. cbn [rbind].
  unfold slice, blit. cbn [skipn firstn app Nat.add]. rewrite firstn_app, <- Hl, firstn_all, Nat.sub_diag, firstn_O, app_nil_r.
  destruct (finish_spec out (skipn (length out) (dp C)) (used C) s Ho) as (r & Er & Hr & Em & Ea & Es).
  { apply rest_zeros, HC. } { apply Forall_skipn, HC. } { rewrite length_skipn. destruct HC as (HC & _). unfold alloc in HC. lia. }
  exists r. split; [exact Er|]. split; [exact Hr|]. split; [exact Em|]. split; [rewrite Ea, length_skipn; unfold alloc; lia|].
  rewrite Es, Em. reflexivity.
Qed.

(** The sizes for which no accumulator overflows. *)
Definition small (a : pstm_int) : Prop := Z.of_nat (used a) < B.

Lemma products_are_columns (a b : list Z) out r n :
  Forall digit a -> Forall digit b -> Forall digit out -> length out = n -> (length a + length b = n)%nat -> 0 <= r ->
  dvalue out + pB n * r = sum n (fun k => column a b k * pB k) -> dvalue out = dvalue a * dvalue b.
Proof.
  intros Ha Hb Ho Hl Hn Hr E. rewrite <- (product_columns a b n) in E by lia.
  pose proof (dvalue_range a Ha). pose proof (dvalue_range b Hb). pose proof (dvalue_range out Ho) as Hro. rewrite Hl in Hro.
  assert (dvalue a * dvalue b < pB n) by (rewrite <- Hn, pB_add; nia). pose proof (pB_pos n). assert (r = 0) by nia. subst r. lia.
Qed.

Lemma mul_comba_spec A B' C pad :
  raw A -> raw B' -> raw C -> small A ->
  exists r, pstm_mul_comba A B' C pad = Ok r /\ ok r /\ mag r = mag A * mag B' /\ alloc r = Nat.max (alloc C) (used A + used B')
    /\ sign r = (if mag r =? 0 then false else xorb (sign A) (sign B')).
Proof.
  intros HA HB HC Hs. unfold pstm_mul_comba, pstm_mul_comba_gen. rewrite grow_if. set (pa := (used A + used B')%nat).
  pose proof (grow_raw C pa HC) as Hg. pose proof (grow_alloc C pa) as Eg. set (g := pstm_grow C pa) in *. clearbody g.
  destruct (digits_of_spec A HA) as (LA & DA & VA). destruct (digits_of_spec B' HB) as (LB & DB & VB). unfold small in Hs.
  pose proof (proj1 HA) as HlA. pose proof (proj1 HB) as HlB. unfold alloc in HlA, HlB.
  match goal with |- context [for_up pa 0 ?b (?d, _)] =>
    destruct (columns_spec b (column (digits_of A) (digits_of B')) (Z.of_nat (used A)) pa d) as (out & c & r & E & Hl & Ho & Hr & Ev) end.
  - lia.
  - apply comba_dst_spec.
  - intros k Hk. rewrite <- LA. apply column_bound; assumption.
  - intros k d c Hk Hd Hc Hle. cbv beta iota.
    set (ty := Z.min (Z.of_nat k) (Z.of_nat (used B') - 1)). set (tx := Z.of_nat k - ty).
    set (iy := Z.min (Z.of_nat (used A) - tx) (ty + 1)). destruct (forward_spec c Hc) as (Hf & _ & _).
    assert (Ecol : column (digits_of A) (digits_of B') k
      = sum (Z.to_nat iy) (fun iz => nth (Z.to_nat tx + iz) (digits_of A) 0 * nth (Z.to_nat ty - iz) (digits_of B') 0)).
    { destruct (Z_le_gt_dec 0 ty) as [Hty|Hty].
      - rewrite (column_range _ _ k (Z.to_nat tx) (Z.to_nat iy)) by lia. apply sum_ext. intros i Hi. do 2 f_equal. lia.
      - assert (E0 : used B' = O) by lia. replace (Z.to_nat iy) with O by lia. unfold column. cbn [sum]. apply sum_zero with (n := S k).
        intros i Hi. rewrite (nth_overflow (digits_of B')) by lia. ring. }
    pose proof (column_bound (digits_of A) (digits_of B') k DA DB) as Hcb. rewrite LA in Hcb. pose proof Bpos as HBp.
    match goal with |- context [for_up (Z.to_nat iy) 0 ?b ?c0] =>
      destruct (column_loop (fun iz c => MULADD c (nth (Z.to_nat tx + iz) (digits_of A) 0) (nth (Z.to_nat ty - iz) (digits_of B') 0)) b
        (fun iz => nth (Z.to_nat tx + iz) (digits_of A) 0 * nth (Z.to_nat ty - iz) (digits_of B') 0)
        (Z.to_nat iy) c0 (Z.of_nat (used A) * (B * B))) as (c' & E' & Hc' & Ec') end.
    + exact Hf.
    + intros iz c1 Hiz. rewrite !(load1_ok _ _ 0) by lia. cbn [rbind]. unfold digits_of. rewrite !nth_used by (assumption || lia). reflexivity.
    + intros iz c1 _ Hc1 Hlt. apply add_product_spec; [exact Hc1|apply product_bound; apply digit_nth; assumption|exact Hlt].
    + intros. apply product_bound; apply digit_nth; assumption.
    + rewrite <- Ecol. nia.
    + nia.
    + exists c'. rewrite E'. cbn [rbind]. rewrite store1_ok by exact Hd. cbn [rbind]. split; [reflexivity|]. split; [exact Hc'|].
      rewrite Ec', Ecol. reflexivity.
  - rewrite E. cbn [rbind]. apply products_are_columns in Ev; auto; [|unfold pa; lia].
    destruct (comba_finish_spec out (skipn pa (comba_dst pad pa)) g pa (xorb (sign A) (sign B')) Hl Ho Hg) as (x & Ex & Hx & Em & Ea & Es); [lia|].
    exists x. split; [exact Ex|]. split; [exact Hx|]. split; [rewrite Em, Ev, VA, VB; reflexivity|]. split; [rewrite Ea; exact Eg|exact Es].
Qed.

(** ** The square *)

Lemma sum_sym h (odd : bool) f :
  let n := (h + (if odd then 1 else 0) + h)%nat in
  (forall i, (i < n)%nat -> f i = f (n - 1 - i)%nat) -> sum n f = 2 * sum h f + (if odd then f h else 0).
Proof.
  intros n Hf. unfold n. rewrite !columns_app.
  assert (E : sum h (fun i => f (h + (if odd then 1 else 0) + i)%nat) = sum h f).
  { rewrite sum_rev. apply sum_ext. intros i Hi. rewrite (Hf i) by (unfold n; lia). f_equal. unfold n. lia. }
  rewrite E. destruct odd; cbn [sum]; rewrite ?Nat.add_0_r; ring.
Qed.

(** A column of a square: the products of its first half count twice. *)
Lemma square_column (a : list Z) k :
  (k < 2 * length a)%nat ->
  let ty := Z.min (Z.of_nat (length a) - 1) (Z.of_nat k) in
  let tx := Z.of_nat k - ty in
  let iy := Z.min (Z.min (Z.of_nat (length a) - tx) (ty + 1)) (Z.shiftr (ty - tx + 1) 1) in
  column a a k = 2 * sum (Z.to_nat iy) (fun iz => nth (Z.to_nat tx + iz) a 0 * nth (Z.to_nat ty - iz) a 0)
                 + (if Nat.even k then nth (k / 2) a 0 * nth (k / 2) a 0 else 0).
Proof.
  intros Hk ty tx iy. set (x := Z.to_nat tx). set (y := Z.to_nat ty).
  assert (Hxy : (x + y = k /\ x <= y + 1 /\ y < length a)%nat).
  { unfold x, y, tx, ty. lia. }
  assert (Hh : exists h, Z.to_nat iy = h /\ (y + 1 = x + (h + (if Nat.even k then 1 else 0) + h))%nat).
  { exists (Z.to_nat iy). split; [reflexivity|]. 
    assert (Ez : iy = (ty - tx + 1) / 2) by (unfold iy; rewrite Z.shiftr_div_pow2 by lia; change (2 ^ 1) with 2; pose proof (Z.div_mod (ty - tx + 1) 2 ltac:(lia)); pose proof (Z.mod_pos_bound (ty - tx + 1) 2 ltac:(lia)); unfold tx, ty in *; lia).
    rewrite Ez. pose proof (Z.div_mod (ty - tx + 1) 2 ltac:(lia)). pose proof (Z.mod_pos_bound (ty - tx + 1) 2 ltac:(lia)).
    destruct (Nat.even k) eqn:Ek.
    - apply Nat.even_spec in Ek as (q & Eq). unfold x, y. assert (ty - tx = 2 * (ty - Z.of_nat q)) by (unfold tx in *; lia). lia.
    - assert (Eo : Nat.odd k = true) by (unfold Nat.odd; rewrite Ek; reflexivity). apply Nat.odd_spec in Eo as (q & Eq).
      unfold x, y. assert (ty - tx = 2 * (ty - Z.of_nat q) - 1) by (unfold tx in *; lia). lia. }
  destruct Hh as (h & -> & Hy).
  rewrite (column_range a a k x (h + (if Nat.even k then 1 else 0) + h)) by (unfold x, y, tx, ty in *; lia).
  rewrite (sum_sym h (Nat.even k)).
  - replace (k - x)%nat with y by lia. f_equal. destruct (Nat.even k) eqn:Ek; [|reflexivity].
    apply Nat.even_spec in Ek as (q & Eq). replace (k / 2)%nat with q by (rewrite Eq, Nat.mul_comm, Nat.div_mul; lia).
    replace (x + h)%nat with q by lia. replace (y - h)%nat with q by lia. reflexivity.
  - intros i Hi. rewrite Z.mul_comm. f_equal; f_equal; lia.
Qed.

Lemma sqradd2_spec c x y :
  acc_ok c -> digit x -> digit y -> accv c + 2 * (x * y) < B * B * B ->
  acc_ok (SQRADD2 c x y) /\ accv (SQRADD2 c x y) = accv c + 2 * (x * y).
Proof.
  intros Hc Hx Hy Hb. pose proof (product_bound x y Hx Hy) as Hp. unfold SQRADD2.
  destruct (add_product_spec c (x * y) Hc Hp ltac:(lia)) as (H1 & E1).
  destruct (add_product_spec (add_product c (x * y)) (x * y) H1 Hp ltac:(lia)) as (H2 & E2). split; [exact H2|lia].
Qed.

Lemma sqr_comba_spec A B' pad :
  raw A -> raw B' -> small A ->
  exists r, pstm_sqr_comba A B' pad = Ok r /\ ok r /\ mag r = mag A * mag A /\ alloc r = Nat.max (alloc B') (used A + used A)
    /\ sign r = (if mag r =? 0 then false else sign B').
Proof.
  intros HA HB Hs. unfold pstm_sqr_comba, pstm_sqr_comba_gen. rewrite grow_if. set (pa := (used A + used A)%nat).
  pose proof (grow_raw B' pa HB) as Hg. pose proof (grow_alloc B' pa) as Eg. rewrite grow_sign. set (g := pstm_grow B' pa) in *. clearbody g.
  destruct (digits_of_spec A HA) as (LA & DA & VA). unfold small in Hs. pose proof (proj1 HA) as HlA. unfold alloc in HlA.
  match goal with |- context [for_up pa 0 ?b (?d, _)] =>
    destruct (columns_spec b (column (digits_of A) (digits_of A)) (Z.of_nat (used A)) pa d) as (out & c & r & E & Hl & Ho & Hr & Ev) end.
  - lia.
  - apply comba_dst_spec.
  - intros k Hk. rewrite <- LA. apply column_bound; assumption.
  - intros k d c Hk Hd Hc Hle. cbv beta iota. destruct (forward_spec c Hc) as (Hf & _ & _).
    pose proof (square_column (digits_of A) k ltac:(unfold pa in *; lia)) as Ecol. cbv zeta in Ecol. rewrite LA in Ecol.
    set (ty := Z.min (Z.of_nat (used A) - 1) (Z.of_nat k)) in *. set (tx := Z.of_nat k - ty) in *.
    set (iy := Z.min (Z.min (Z.of_nat (used A) - tx) (ty + 1)) (Z.shiftr (ty - tx + 1) 1)) in *. rewrite <- sum_scale in Ecol.
    assert (Hiy : iy <= Z.of_nat (used A) - tx /\ iy <= ty + 1) by (unfold iy; lia).
    pose proof (column_bound (digits_of A) (digits_of A) k DA DA) as Hcb. rewrite LA in Hcb. pose proof Bpos as HBp.
    set (x := nth (k / 2) (digits_of A) 0) in *. assert (Hx : digit x) by apply digit_nth, DA. pose proof (product_bound x x Hx Hx) as Hxx.
    match goal with |- context [for_up (Z.to_nat iy) 0 ?b ?c0] =>
      destruct (column_loop (fun iz c => SQRADD2 c (nth (Z.to_nat tx + iz) (digits_of A) 0) (nth (Z.to_nat ty - iz) (digits_of A) 0)) b
        (fun iz => 2 * (nth (Z.to_nat tx + iz) (digits_of A) 0 * nth (Z.to_nat ty - iz) (digits_of A) 0))
        (Z.to_nat iy) c0 (Z.of_nat (used A) * (B * B))) as (c' & E' & Hc' & Ec') end.
    + exact Hf.
    + intros iz c1 Hiz. rewrite !(load1_ok _ _ 0) by (unfold tx, ty in *; lia). cbn [rbind]. unfold digits_of.
      rewrite !nth_used by (assumption || (unfold tx, ty in *; lia)). reflexivity.
    + intros iz c1 _ Hc1 Hlt. apply sqradd2_spec; [exact Hc1|apply digit_nth; assumption|apply digit_nth; assumption|exact Hlt].
    + intros iz _. pose proof (product_bound (nth (Z.to_nat tx + iz) (digits_of A) 0) (nth (Z.to_nat ty - iz) (digits_of A) 0)
        (digit_nth _ _ DA) (digit_nth _ _ DA)). lia.
    + destruct (Nat.even k); nia.
    + nia.
    + rewrite E'. cbn [rbind]. destruct (Nat.even k) eqn:Ek.
      * assert (Hk2 : (k / 2 < used A)%nat) by (apply Nat.Div0.div_lt_upper_bound; unfold pa in Hk; lia).
        rewrite (load1_ok _ _ 0) by lia. cbn [rbind]. rewrite store1_ok by exact Hd. cbn [rbind].
        rewrite <- (nth_used A (k / 2) HA Hk2). fold (digits_of A) x.
        destruct (add_product_spec c' (x * x) Hc' Hxx) as (Hc2 & Ec2); [nia|].
        eexists. split; [reflexivity|]. split; [exact Hc2|]. unfold SQRADD. rewrite Ec2, Ec', Ecol. ring.
      * cbn [rbind]. rewrite store1_ok by exact Hd. cbn [rbind]. eexists. split; [reflexivity|]. split; [exact Hc'|].
        rewrite Ec', Ecol. ring.
  - rewrite E. cbn [rbind]. apply products_are_columns in Ev; auto; [|unfold pa; lia].
    destruct (comba_finish_spec out (skipn pa (comba_dst pad pa)) g pa (sign B') Hl Ho Hg) as (x & Ex & Hx & Em & Ea & Es); [lia|].
    exists x. split; [exact Ex|]. split; [exact Hx|]. split; [rewrite Em, Ev, VA; reflexivity|]. split; [rewrite Ea; exact Eg|exact Es].
Qed.

End PstmM.
