(* ===== verification/PstmDiv.v ===== *)
(** * Multiple-precision integers: remainders

    [pstm_div], [pstm_mod] and [pstm_mulmod] of networking/tls_pstm.c compute
    remainders, when no borrow of the correction step has to pass a digit that
    is zero; when one has to, [pstm_mod] returns a wrong remainder. *)

From Stdlib Require Import ZArith List Lia Bool.
From S2P Require Import Prelude Words Mem Pstm PstmVal PstmOps PstmMul.
Import ListNotations.
Local Open Scope Z_scope.
Local Open Scope res_scope.

Module PstmD.
Import Pstm PstmV PstmO PstmM.

Lemma compare3_lt x y : (compare3 x y =? PSTM_LT) = (x <? y).
Proof. unfold compare3. destruct (Z.ltb_spec y x), (Z.ltb_spec x y); try lia; reflexivity. Qed.
Lemma compare3_gt x y : (compare3 x y =? PSTM_GT) = (y <? x).
Proof. unfold compare3. destruct (Z.ltb_spec y x), (Z.ltb_spec x y); try lia; reflexivity. Qed.

(** ** The estimate of a digit *)

(** The arithmetic of an estimate: [X] is divided by [Y * P]; [T] is the
    weight of the leading digit [yt] of [Y], [x01] are the two leading digits
    of [X], [l3] its three and [l2] the two of [Y]. *)
Section Estimate.
Variables (X Y P T yt x01 l2 l3 lx ly lx3 ly2 : Z).
Hypotheses (HP : 0 < P) (HT : 0 < T) (Hyt : 2 ^ 30 <= yt < 2 ^ 31).
Hypotheses (H0X : 0 <= X) (HX : X = lx + T * P * x01) (Hlx : 0 <= lx < T * P).
Hypotheses (HY : Y = ly + T * yt) (Hly : 0 <= ly < T).
Hypotheses (HX3 : X * B = lx3 + T * P * l3) (Hlx3 : 0 <= lx3 < T * P).
Hypotheses (HY2 : Y * B = ly2 + T * l2) (Hly2 : 0 <= ly2 < T).

Let Q := X / (Y * P).

Lemma Y_big : 2 ^ 30 * T <= Y.
Proof. nia. Qed.

Lemma quotient_facts : 0 <= Q /\ Q * (Y * P) <= X < (Q + 1) * (Y * P).
Proof.
  pose proof Y_big. assert (HYP : 0 < Y * P) by nia. unfold Q.
  pose proof (Z.div_mod X (Y * P) ltac:(lia)). pose proof (Z.mod_pos_bound X (Y * P) HYP).
  pose proof (Z.div_pos X (Y * P) H0X HYP). split; [assumption|]. nia.
Qed.

Lemma quotient_lead1 : Q * yt <= x01.
Proof.
  destruct quotient_facts as (HQ & Hle & _). apply Z.lt_succ_r, (Z.mul_lt_mono_pos_l (T * P)); [nia|].
  assert (Q * (T * yt) * P <= Q * (Y * P)) by (rewrite HY; nia). nia.
Qed.

Lemma quotient_lead2 : Q * l2 <= l3.
Proof.
  destruct quotient_facts as (HQ & Hle & _). pose proof Bpos as HB. apply Z.lt_succ_r, (Z.mul_lt_mono_pos_l (T * P)); [nia|].
  assert (H1 : Q * (T * l2) * P <= Q * (Y * B) * P) by (rewrite HY2; nia).
  assert (H2 : Q * (Y * B) * P <= X * B) by nia. nia.
Qed.

(** An estimate that passes the test is at most one too large. *)
Lemma estimate_upper q : 0 <= q < B -> q * yt <= x01 -> q * l2 <= l3 \/ q <= 3 -> q <= Q + 1.
Proof.
  intros Hq H1 H2. destruct quotient_facts as (HQ & _ & Hlt). pose proof Y_big as HYb. pose proof Bpos as HB.
  assert (HTP : 0 < T * P) by nia. assert (HYP : 2 ^ 30 * (T * P) <= Y * P) by nia.
  enough (Hlt' : q * (Y * P) < X + Y * P).
  { assert (q - 1 < Q + 1); [|lia]. apply (Z.mul_lt_mono_pos_r (Y * P)); [lia|]. lia. }
  destruct H2 as [H2|H2].
  - assert (E : q * (Y * P) * B = q * ly2 * P + T * P * (q * l2)) by (transitivity (q * P * (Y * B)); [ring|rewrite HY2; ring]).
    assert (q * ly2 * P <= q * (T * P)) by nia. assert (T * P * (q * l2) <= T * P * l3) by nia.
    assert (q * (Y * P) * B < (X + T * P) * B) by nia. assert (q * (Y * P) < X + T * P) by nia. nia.
  - assert (E : q * (Y * P) = q * ly * P + T * P * (q * yt)) by (rewrite HY; ring).
    assert (q * ly * P <= q * (T * P)) by nia. assert (T * P * (q * yt) <= T * P * x01) by nia. nia.
Qed.
End Estimate.

(** ** The leading digits *)

Lemma low_range (l : list Z) n : Forall digit l -> 0 <= dvalue (firstn n l) < pB n.
Proof.
  intros Hl. pose proof (dvalue_range (firstn n l) (Forall_firstn _ _ _ Hl)) as Hr.
  rewrite length_firstn in Hr. pose proof (pB_le (Nat.min n (length l)) n ltac:(lia)). lia.
Qed.

Lemma below_digits (l : list Z) n : Forall digit l -> dvalue l < pB n -> dvalue (firstn n l) = dvalue l.
Proof.
  intros Hl Hv. destruct (Nat.le_gt_cases (length l) n) as [H|H]; [rewrite firstn_all2 by lia; reflexivity|].
  rewrite (dvalue_firstn_skipn n l) in Hv by lia. rewrite (dvalue_firstn_skipn n l) by lia. pose proof (low_range l n Hl).
  pose proof (dvalue_range (skipn n l) (Forall_skipn _ _ _ Hl)). pose proof (pB_pos n).
  assert (dvalue (skipn n l) = 0) as -> by nia. ring.
Qed.

(** The digit before [j], zero for none. *)
Definition before (l : list Z) (j : nat) : Z := match j with O => 0 | S j => nth j l 0 end.

Lemma digit_before l j : Forall digit l -> digit (before l j).
Proof. intros Hl. destruct j; [|apply digit_nth, Hl]. unfold digit. pose proof Bpos. cbn. lia. Qed.

(** The value times [B], split before the digit [j]. *)
Lemma split_before (l : list Z) j : Forall digit l ->
  exists low, 0 <= low < pB j /\ B * dvalue (firstn j l) = low + pB j * before l j.
Proof.
  intros Hl. destruct j as [|j].
  - exists 0. rewrite pB_0. cbn. lia.
  - exists (B * dvalue (firstn j l)). cbn [before]. rewrite dvalue_firstn_S, pB_S. pose proof (low_range l j Hl). pose proof Bpos.
    split; [nia|ring].
Qed.

(** [Y]: its leading digit and its two leading digits. *)
Lemma lead_Y (ys : list Z) t : Forall digit ys -> dvalue ys < pB (S t) ->
  let yt := nth t ys 0 in let l2 := before ys t + B * yt in
  (exists ly, 0 <= ly < pB t /\ dvalue ys = ly + pB t * yt) /\ (exists ly2, 0 <= ly2 < pB t /\ dvalue ys * B = ly2 + pB t * l2).
Proof.
  intros Hd Hl yt l2. rewrite <- (below_digits ys (S t) Hd Hl), dvalue_firstn_S. split.
  - exists (dvalue (firstn t ys)). split; [apply low_range, Hd|reflexivity].
  - destruct (split_before ys t Hd) as (low & Hlow & E). exists low. split; [exact Hlow|]. unfold l2, yt. nia.
Qed.

(** [X]: its two and its three leading digits. *)
Lemma lead_X (xs : list Z) j : Forall digit xs -> dvalue xs < pB (S (S j)) ->
  let x01 := nth j xs 0 + B * nth (S j) xs 0 in let l3 := before xs j + B * x01 in
  (exists lx, 0 <= lx < pB j /\ dvalue xs = lx + pB j * x01) /\ (exists lx3, 0 <= lx3 < pB j /\ dvalue xs * B = lx3 + pB j * l3).
Proof.
  intros Hd Hl x01 l3. rewrite <- (below_digits xs (S (S j)) Hd Hl), !dvalue_firstn_S, pB_S. split.
  - exists (dvalue (firstn j xs)). split; [apply low_range, Hd|unfold x01; ring].
  - destruct (split_before xs j Hd) as (low & Hlow & E). exists low. split; [exact Hlow|]. unfold l3, x01. nia.
Qed.

(** ** The digit of the quotient *)

Lemma load_before (l : list Z) j : (j <= length l)%nat -> (if (j =? 0)%nat then Ok 0 else load1 l (j - 1)) = @Ok error Z (before l j).
Proof.
  intros H. destruct j as [|j]; [reflexivity|]. cbn [Nat.eqb before]. rewrite (load1_ok _ _ 0) by lia. do 2 f_equal. lia.
Qed.

Section Digit.
Variables (x y : pstm_int) (t k : nat).
Let j := (t + k)%nat.
Hypotheses (Hx : raw x) (Hy : raw y) (Hlx : (S (S j) <= alloc x)%nat) (Hly : (S t <= alloc y)%nat).
Hypotheses (HYr : 2 ^ 30 * pB t <= mag y < 2 ^ 31 * pB t) (HXY : mag x < mag y * pB (S k)).
Let yt := nth t (dp y) 0.
Let l2 := before (dp y) t + B * yt.
Let x01 := nth j (dp x) 0 + B * nth (S j) (dp x) 0.
Let l3 := before (dp x) j + B * x01.
Let Q := mag x / (mag y * pB k).

Lemma yt_range : 2 ^ 30 <= yt < 2 ^ 31.
Proof.
  pose proof (pB_pos t). destruct (lead_Y (dp y) t (proj1 (proj2 Hy))) as ((ly & Hl & E) & _).
  { rewrite pB_S. fold (mag y). unfold B. lia. }
  fold yt in E. fold (mag y) in E. nia.
Qed.

Lemma digit_facts :
  0 <= Q /\ Q * yt <= x01 /\ Q * l2 <= l3 /\ (forall q, 0 <= q < B -> q * yt <= x01 -> q * l2 <= l3 \/ q <= 3 -> q <= Q + 1)
  /\ Q * (mag y * pB k) <= mag x < (Q + 1) * (mag y * pB k) /\ Q < B.
Proof.
  pose proof (pB_pos t) as HT. pose proof (pB_pos k) as HP. pose proof yt_range as Hyt. pose proof (raw_range x Hx) as H0x.
  destruct (lead_Y (dp y) t (proj1 (proj2 Hy))) as ((ly & Hl & E) & (ly2 & Hl2 & E2)).
  { rewrite pB_S. fold (mag y). unfold B. lia. }
  destruct (lead_X (dp x) j (proj1 (proj2 Hx))) as ((lx & Hxl & Ex) & (lx3 & Hxl3 & Ex3)).
  { fold (mag x). unfold j. replace (S (S (t + k))) with (S t + S k)%nat by lia. rewrite pB_add, (pB_S t).
    pose proof (pB_pos (S k)). eapply Z.lt_le_trans; [exact HXY|]. apply Z.mul_le_mono_nonneg_r; [lia|]. unfold B. lia. }
  fold (mag y) yt l2 in E, E2. fold (mag x) x01 l3 in Ex, Ex3. fold l2 in E2. fold l3 in Ex3. unfold j in Hxl, Ex, Hxl3, Ex3. rewrite pB_add in *.
  pose proof (quotient_facts (mag x) (mag y) (pB k) (pB t) yt ly HP HT Hyt (proj1 H0x) E Hl) as (HQ0 & HQ1). fold Q in HQ0, HQ1.
  split; [exact HQ0|]. split; [exact (quotient_lead1 (mag x) (mag y) (pB k) (pB t) yt x01 lx ly HP HT Hyt (proj1 H0x) Ex Hxl E Hl)|].
  split; [exact (quotient_lead2 (mag x) (mag y) (pB k) (pB t) yt l2 l3 ly lx3 ly2 HP HT Hyt (proj1 H0x) E Hl Ex3 Hxl3 E2 Hl2)|].
  split; [exact (estimate_upper (mag x) (mag y) (pB k) (pB t) yt x01 l2 l3 lx ly lx3 ly2 HP HT Hyt (proj1 H0x) Ex Hxl E Hl Ex3 Hxl3 E2 Hl2)|].
  split; [exact HQ1|]. rewrite pB_S in HXY. pose proof (pB_pos k). assert (0 < mag y * pB k) by nia.
  apply (Z.mul_lt_mono_pos_r (mag y * pB k)); [assumption|]. nia.
Qed.

Lemma guess_spec : exists q, div_guess x y (S j) t = Ok q /\ 0 <= q < B /\ q * yt <= x01 /\ Q <= q.
Proof.
  destruct digit_facts as (HQ0 & HQ1 & _ & _ & _ & HQB). pose proof yt_range as Hyt. unfold alloc in Hlx, Hly.
  unfold div_guess. rewrite !(load1_ok _ _ 0) by lia. cbn [rbind]. fold yt. replace (S j - 1)%nat with j by lia.
  pose proof (digit_nth (dp x) j (proj1 (proj2 Hx))) as D0. pose proof (digit_nth (dp x) (S j) (proj1 (proj2 Hx))) as D1.
  set (x0 := nth j (dp x) 0) in *. set (x1 := nth (S j) (dp x) 0) in *. unfold digit in D0, D1.
  destruct (Z.eqb_spec x1 yt) as [E|Hne].
  - exists (B - 1). split; [reflexivity|]. unfold x01. split; [unfold B; lia|]. split; [rewrite E; nia|lia].
  - destruct (Z.eqb_spec yt 0); [lia|].
    assert (Ex : Z.lor (Z.shiftl x1 32) x0 = x01) by (rewrite lor_shiftl by (unfold in_u, B in *; lia); unfold x01, B; ring). rewrite Ex.
    assert (Hlt : x1 < yt).
    { pose proof (pB_pos t) as HT. pose proof (pB_pos k) as HP. destruct (Z.lt_ge_cases x1 yt) as [|Hge]; [assumption|exfalso].
      destruct (lead_X (dp x) j (proj1 (proj2 Hx))) as ((lx & Hxl & Exx) & _).
      { fold (mag x). unfold j. replace (S (S (t + k))) with (S t + S k)%nat by lia. rewrite pB_add, (pB_S t).
        pose proof (pB_pos (S k)). eapply Z.lt_le_trans; [exact HXY|]. apply Z.mul_le_mono_nonneg_r; [lia|]. unfold B. lia. }
      fold (mag x) x0 x1 x01 in Exx. destruct (lead_Y (dp y) t (proj1 (proj2 Hy))) as ((ly & Hl & Ey) & _).
      { rewrite pB_S. fold (mag y). unfold B. lia. }
      fold (mag y) yt in Ey. unfold j in *. rewrite pB_add, pB_S in *. pose proof Bpos as HB.
      assert (x1 >= yt + 1) by lia.
      assert (mag y < pB t * (yt + 1)) by nia. assert (mag y * (B * pB k) <= pB t * (yt + 1) * (B * pB k)) by nia.
      assert (pB t * pB k * (B * x1) <= mag x) by (unfold x01 in *; nia). nia. }
    assert (Hx01 : 0 <= x01 < B * yt) by (unfold x01; nia).
    exists (x01 / yt). assert (Hq : 0 <= x01 / yt < B) by (split; [apply Z.div_pos; lia|apply Z.div_lt_upper_bound; lia]).
    split; [f_equal; apply Z.mod_small; exact Hq|]. split; [exact Hq|].
    pose proof (Z.div_mod x01 yt ltac:(lia)). pose proof (Z.mod_pos_bound x01 yt ltac:(lia)).
    split; [nia|]. apply Z.div_le_lower_bound; lia.
Qed.

(** The state of the correction loop. *)
Definition temps_ok (t1 t2 : pstm_int) : Prop := raw t1 /\ (2 <= alloc t1)%nat /\ raw t2 /\ alloc t2 = 3%nat.

Lemma lead_test t1 t2 q :
  temps_ok t1 t2 -> 0 <= q < B ->
  exists t1' t2' c, div_test x y (S j) t t1 t2 q = Ok (t1', t2', c) /\ temps_ok t1' t2'
    /\ ((c =? PSTM_GT) = true <-> B * B <= q * l2 /\ l3 < q * l2).
Proof.
  intros (H1 & L1 & H2 & L2) Hq. unfold alloc in Hlx, Hly, L1, L2. unfold div_test. cbv zeta. rewrite load_before by lia. cbn [rbind].
  cbn [pstm_zero dp sign]. rewrite store1_ok by (rewrite repeat_length; unfold alloc; lia). cbn [rbind].
  rewrite (load1_ok _ _ 0) by lia. cbn [rbind]. fold yt. rewrite store1_ok by (rewrite length_upd, repeat_length; unfold alloc; lia). cbn [rbind].
  set (d := upd (upd (repeat 0 (alloc t1)) 0 (before (dp y) t)) 1 yt).
  assert (Hraw1 : raw (mk_pstm 2 false d)).
  { apply mk_raw; unfold d.
    - rewrite !length_upd, repeat_length. exact L1.
    - repeat apply Forall_upd; [apply zero_digits|apply digit_before, Hy|apply digit_nth, Hy].
    - rewrite !skipn_upd by lia. apply Forall_skipn, zeros_repeat. }
  assert (Em1 : mag (mk_pstm 2 false d) = l2).
  { unfold mag, d. cbn [dp]. rewrite !dvalue_upd_last by (rewrite ?length_upd, repeat_length; unfold alloc; lia).
    rewrite nth_upd_ne by lia. rewrite !nth_repeat, dvalue_zeros, pB_0, pB_1. unfold l2. ring. }
  destruct (mul_d_spec (mk_pstm 2 false d) q (mk_pstm 2 false d) Hraw1 Hq Hraw1) as (r & Er & Hr & Em & El & _); [cbn; unfold PSTM_MAX_SIZE; lia|].
  rewrite Er. cbn [rbind]. rewrite Em1 in Em.
  assert (Ex2 : (if (S j <? 2)%nat then Ok 0 else load1 (dp x) (S j - 2)) = @Ok error Z (before (dp x) j)).
  { replace (S j <? 2)%nat with (j =? 0)%nat by (destruct j as [|[|]]; reflexivity). replace (S j - 2)%nat with (j - 1)%nat by lia. apply load_before. lia. }
  rewrite Ex2. cbn [rbind]. rewrite store1_ok by lia. cbn [rbind]. replace (S j <? 1)%nat with false by (symmetry; apply Nat.ltb_ge; lia).
  replace (S j - 1)%nat with j by lia. rewrite (load1_ok _ _ 0) by lia. cbn [rbind]. rewrite store1_ok by (rewrite length_upd; lia). cbn [rbind].
  rewrite (load1_ok _ _ 0) by lia. cbn [rbind]. rewrite store1_ok by (rewrite !length_upd; lia). cbn [rbind].
  destruct (dp t2) as [|a [|b [|c [|]]]]; try discriminate. cbn [upd].
  set (d2 := [before (dp x) j; nth j (dp x) 0; nth (S j) (dp x) 0]).
  assert (Hd2 : Forall digit d2) by (repeat constructor; try apply digit_before; try apply digit_nth; apply Hx).
  assert (Ev2 : dvalue d2 = l3) by (unfold d2, l3, x01; cbn [dvalue]; ring).
  assert (Hr3 : (used r <= 3)%nat).
  { apply used_le; [exact Hr|]. rewrite Em. change (pB 3) with (B * (B * B)). pose proof yt_range. pose proof (digit_before (dp y) t (proj1 (proj2 Hy))) as Hb.
    unfold digit in Hb. unfold l2. assert (before (dp y) t + B * yt <= B * B) by (unfold B in *; nia). pose proof Bpos. nia. }
  assert (Hcmp : pstm_cmp_mag r (mk_pstm 3 (sign t2) d2) = Ok (if (used r <? 3)%nat then PSTM_LT else compare3 (q * l2) l3)).
  { unfold pstm_cmp_mag. cbn [used dp]. destruct (Nat.ltb_spec 3 (used r)); [lia|]. destruct (Nat.ltb_spec (used r) 3) as [|Hu]; [reflexivity|].
    replace (used r) with 3%nat by lia. rewrite cmp_digits_spec; [|apply Hr|exact Hd2| |cbn; lia].
    - change (firstn 3 d2) with d2. rewrite Ev2. replace 3%nat with (used r) by lia. rewrite <- (raw_mag r (ok_raw r Hr)), Em. do 2 f_equal. ring.
    - destruct (ok_raw r Hr) as (Hu' & _). unfold alloc in Hu'. lia. }
  rewrite Hcmp. cbn [rbind]. do 3 eexists. split; [reflexivity|]. split.
  - split; [apply ok_raw, Hr|]. split; [rewrite El; unfold alloc; cbn [used]; lia|]. split; [|reflexivity]. apply mk_raw; [cbn; lia|exact Hd2|constructor].
  - destruct (Nat.ltb_spec (used r) 3) as [Hu|Hu].
    + split; [discriminate|]. intros (Hge & _). exfalso. pose proof (used_ge r 2 (ok_raw r Hr)). rewrite Em in *. change (pB 2) with (B * B) in *. lia.
    + rewrite compare3_gt, Z.ltb_lt. split; [intros H; split; [|exact H]|tauto].
      pose proof (ok_range r Hr ltac:(lia)) as R. replace (used r) with 3%nat in R by lia. change (pB (3 - 1)) with (B * B) in R. lia.
Qed.

Lemma l2_lower : 2 ^ 30 * B <= l2.
Proof. pose proof yt_range. pose proof (digit_before (dp y) t (proj1 (proj2 Hy))) as Hb. unfold digit in Hb. unfold l2. pose proof Bpos. nia. Qed.

(** [fuel - 1] corrections are enough for an estimate that is [fuel - 1] too
    large at most. *)
Lemma div_fix_spec fuel : forall t1 t2 q,
  temps_ok t1 t2 -> let q0 := u32 (q - 1) in
  q0 * yt <= x01 -> Q <= q0 -> (1 <= fuel)%nat -> q0 * l2 <= l3 + (Z.of_nat fuel - 1) * l2 ->
  exists t1' t2' q', div_fix fuel x y (S j) t t1 t2 q = Ok (t1', t2', q') /\ temps_ok t1' t2' /\ Q <= q' <= Q + 1 /\ q' < B.
Proof.
  destruct digit_facts as (HQ0 & _ & HQ2 & Hup & _). pose proof l2_lower as Hl2. pose proof Bpos as HB.
  induction fuel as [|fuel IH]; intros t1 t2 q Ht q0 H1 HQ Hf Hl; [lia|]. cbn [div_fix]. fold q0.
  assert (Hq0 : 0 <= q0 < B) by apply digit_u32.
  destruct (lead_test t1 t2 q0 Ht Hq0) as (t1' & t2' & c & E & Ht' & Hc). rewrite E. cbn [rbind]. destruct (c =? PSTM_GT).
  - destruct Hc as ((Hbig & Hgt) & _); [reflexivity|]. assert (Q < q0) by nia.
    assert (Eq : u32 (q0 - 1) = q0 - 1) by (apply Z.mod_small; unfold B in Hq0; lia). assert (1 <= fuel)%nat by (destruct fuel; nia).
    apply IH; [exact Ht'|..]; rewrite ?Eq; pose proof yt_range; nia || lia.
  - exists t1', t2', q0. split; [reflexivity|]. split; [exact Ht'|]. split; [|lia]. split; [exact HQ|]. apply Hup; [exact Hq0|exact H1|].
    destruct (Z.le_gt_cases (q0 * l2) l3) as [Hle|Hgt]; [left; exact Hle|right]. destruct (Z.lt_ge_cases (q0 * l2) (B * B)) as [Hs|Hs].
    + unfold B in *. nia.
    + destruct Hc as (_ & Hc). specialize (Hc (conj ltac:(lia) ltac:(lia))). discriminate.
Qed.

(** The digit that is subtracted: the right one or one more. *)
Lemma digit_spec t1 t2 :
  temps_ok t1 t2 ->
  exists t1' t2' q', (let! q := div_guess x y (S j) t in div_fix DIV_FIX x y (S j) t t1 t2 (u32 (q + 1))) = Ok (t1', t2', q')
    /\ temps_ok t1' t2' /\ Q <= q' <= Q + 1 /\ 0 <= q' < B.
Proof.
  intros Ht. destruct guess_spec as (q & E & Hq & H1 & HQ). rewrite E. cbn [rbind].
  assert (Eq : u32 (u32 (q + 1) - 1) = q).
  { unfold u32, wrap. rewrite Zminus_mod_idemp_l. replace (q + 1 - 1) with q by ring. apply Z.mod_small. exact Hq. }
  destruct (div_fix_spec DIV_FIX t1 t2 (u32 (q + 1)) Ht) as (t1' & t2' & q' & E' & Ht' & HQ' & HB'); rewrite ?Eq.
  - exact H1.
  - exact HQ.
  - unfold DIV_FIX. lia.
  - pose proof l2_lower as Hl2. pose proof (digit_before (dp y) t (proj1 (proj2 Hy))) as Hb. unfold digit in Hb.
    assert (q * before (dp y) t <= B * B) by (apply Z.mul_le_mono_nonneg; lia). unfold l3. replace (q * l2) with (q * before (dp y) t + B * (q * yt)) by (unfold l2; ring).
    pose proof (digit_before (dp x) j (proj1 (proj2 Hx))) as Hb'. unfold digit in Hb'. pose proof Bpos.
    assert (B * (q * yt) <= B * x01) by (apply Z.mul_le_mono_nonneg_l; lia). assert (B * B <= 4 * l2) by (unfold B in *; lia). unfold DIV_FIX. lia.
  - exists t1', t2', q'. destruct digit_facts as (H0 & _). split; [exact E'|]. split; [exact Ht'|]. lia.
Qed.
End Digit.

Lemma sval_pos r : ok r -> 0 <= sval r -> sign r = false /\ mag r = sval r.
Proof.
  intros Hr Hv. pose proof (raw_range r (ok_raw r Hr)). unfold sval in *. destruct (sign r) eqn:Es; [|auto].
  assert (Em : mag r = 0) by lia. apply used_mag in Em; [|exact Hr]. apply Hr in Em. congruence.
Qed.

Lemma sval_neg r : ok r -> sval r < 0 -> sign r = true /\ mag r = - sval r.
Proof. intros Hr Hv. pose proof (raw_range r (ok_raw r Hr)). unfold sval in *. destruct (sign r); split; lia || reflexivity. Qed.

(** Nothing is subtracted, by a number that is longer than its value. *)
Lemma sub_zero a b :
  ok a -> raw b -> sign a = sign b -> mag b = 0 -> (used b < used a)%nat ->
  exists r, pstm_sub true a b a = Ok r /\ ok r /\ sval r = sval a /\ (alloc a <= alloc r)%nat.
Proof.
  intros Ha Hb Es Em Hu. unfold pstm_sub. rewrite Es, Bool.eqb_reflx. cbn [negb].
  assert (Ec : pstm_cmp_mag a b = Ok PSTM_GT) by (unfold pstm_cmp_mag; destruct (Nat.ltb_spec (used b) (used a)); [reflexivity|lia]).
  rewrite Ec. cbn [rbind]. change (negb (PSTM_GT =? PSTM_LT)) with true. cbn iota. rewrite <- Es.
  destruct (s_pstm_sub_spec a b (with_sign a (sign a))) as (r & E & Hr & Emr & El & Esr); try exact Hb; try apply with_sign_raw; try apply ok_raw, Ha; try lia.
  - rewrite Em. apply raw_range, ok_raw, Ha.
  - right. rewrite Em. apply (low_range (dp a) (used b)), Ha.
  - exists r. split; [exact E|]. split; [exact Hr|]. split; [|rewrite El; cbn; unfold alloc; lia].
    rewrite (sval_of r _ Esr), Emr, Em. unfold sval. cbn. destruct (sign a); lia.
Qed.

(** ** The subtraction of a multiple of the divisor *)

Lemma shifted_pos (Y : Z) t k : 2 ^ 30 * pB t <= Y < 2 ^ 31 * pB t -> 0 < Y * pB k.
Proof. intros H. pose proof (pB_pos t). pose proof (pB_pos k). nia. Qed.

Lemma shifted_bounds (Y : Z) t k : 2 ^ 30 * pB t <= Y < 2 ^ 31 * pB t -> 2 ^ 30 * pB (t + k) <= Y * pB k < 2 ^ 31 * pB (t + k).
Proof. intros H. rewrite pB_add. pose proof (pB_pos k). nia. Qed.

Section Reduce.
Variables (x y : pstm_int) (t k : nat).
Let W := mag y * pB k.
Let Q := mag x / W.
Hypotheses (Hx : ok x) (Hy : ok y) (Sx : sign x = false) (Sy : sign y = false) (Hux : (S (t + k) <= used x)%nat).
Hypotheses (HYr : 2 ^ 30 * pB t <= mag y < 2 ^ 31 * pB t) (Hmax : (used y < PSTM_MAX_SIZE)%nat).

Lemma quot_rem : mag x = Q * W + mag x mod W /\ 0 <= mag x mod W < W /\ 0 <= Q.
Proof.
  pose proof (shifted_pos (mag y) t k HYr) as HW. fold W in HW. pose proof (raw_range x (ok_raw x Hx)). pose proof (Z.div_mod (mag x) W ltac:(lia)). pose proof (Z.mod_pos_bound (mag x) W ltac:(lia)).
  split; [unfold Q; nia|]. split; [lia|]. apply Z.div_pos; lia.
Qed.

(** [x - q y B^k], with [q] the right digit or one more. *)
Lemma subtract_multiple_spec t1 q :
  raw t1 -> Q <= q <= Q + 1 -> 0 <= q < B ->
  exists t1' x', (let! t1 := pstm_mul_d y q t1 in let! t1 := pstm_lshd t1 k in let! x := pstm_sub true x t1 x in Ok (t1, x)) = Ok (t1', x')
    /\ raw t1' /\ (alloc t1 <= alloc t1')%nat /\ ok x' /\ sval x' = mag x - q * W /\ (alloc x <= alloc x')%nat.
Proof.
  intros Ht Hq Hqb. destruct quot_rem as (Ex & Hr & HQ). pose proof (shifted_pos (mag y) t k HYr) as HW. fold W in HW. pose proof (shifted_bounds (mag y) t k HYr) as HWb. fold W in HWb. pose proof Bpos.
  destruct (mul_d_spec y q t1 (ok_raw y Hy) Hqb Ht Hmax) as (t2 & E & H2 & Em2 & El2 & Es2). rewrite E. cbn [rbind]. clear E.
  assert (Ss2 : sign t2 = false) by (rewrite Es2, Sy; destruct (mag t2 =? 0); reflexivity).
  assert (Ev : sval x = mag x) by (unfold sval; rewrite Sx; reflexivity).
  destruct (Z.eq_dec q 0) as [->|Hq0].
  - destruct (lshd_spec t2 k (ok_raw t2 H2)) as (t3 & E & H3 & Eu3 & Em3 & Es3 & El3). rewrite E. cbn [rbind]. clear E.
    rewrite Z.mul_0_r in Em2. assert (Hu2 : used t2 = O) by (apply used_mag; assumption).
    destruct (sub_zero x t3) as (x' & E & Hx' & Ev' & El'); try assumption; [congruence|rewrite Em3, Em2; ring|lia|]. rewrite E. cbn [rbind].
    exists t3, x'. rewrite Ev', Ev. repeat split; try apply H3; try apply Hx'; try lia.
  - assert (Hm : 0 < mag t2) by (rewrite Em2; unfold W in HW; pose proof (pB_pos k); nia).
    assert (Hu2 : (0 < used t2)%nat) by (destruct (used t2) eqn:E0; [apply used_mag in E0; [lia|exact H2]|lia]).
    destruct (lshd_ok t2 k H2 Hu2) as (t3 & E & H3 & Eu3 & Em3 & Es3 & El3). rewrite E. cbn [rbind]. clear E.
    assert (ET : mag t3 = q * W) by (rewrite Em3, Em2; unfold W; ring).
    destruct (pstm_sub_spec true x t3 x) as (x' & E & Hx' & Ev' & El'); auto using ok_raw.
    + rewrite Sx, Es3, Ss2. cbn [Bool.eqb]. unfold diff_ok, sub_exact. rewrite ET. destruct (Z.ltb_spec (mag x) (q * W)) as [Hlt|Hge]; left.
      * assert (used t3 <= S (S (t + k)))%nat; [|lia]. apply used_le; [exact H3|]. rewrite ET, !pB_S. pose proof (pB_pos (t + k)). unfold B in *. nia.
      * apply used_le; [exact Hx|]. pose proof (raw_range t3 (ok_raw t3 H3)) as R3. rewrite ET in R3.
        rewrite Nat.add_1_r, pB_S. assert (mag x < 2 * (q * W)) by nia. unfold B in *. lia.
    + rewrite E. cbn [rbind]. exists t3, x'. rewrite Ev', Ev. unfold sval. rewrite Es3, Ss2, ET. repeat split; try apply H3; try apply Hx'; try lia.
Qed.

(** The borrow of [s_pstm_sub] is lost when the remainder is within [B^(t+k-1)]
    of the divisor and the digit was one too large. *)
Lemma reduce_spec t1 q :
  raw t1 -> Q <= q <= Q + 1 -> 0 <= q < B -> mag x mod W + pB (t + k - 1) <= W ->
  exists x' t1' q', div_reduce x y t1 k q = Ok (x', t1', q') /\ raw t1' /\ (alloc t1 <= alloc t1')%nat
    /\ ok x' /\ sign x' = false /\ mag x' = mag x mod W /\ (alloc x <= alloc x')%nat.
Proof.
  intros Ht Hq Hqb Hfar. destruct quot_rem as (Ex & Hr & HQ). pose proof (shifted_pos (mag y) t k HYr) as HW. fold W in HW. pose proof (shifted_bounds (mag y) t k HYr) as HWb. fold W in HWb.
  destruct (subtract_multiple_spec t1 q Ht Hq Hqb) as (t2 & x2 & E & H2 & L2 & Hx2 & Ev2 & Lx2). unfold div_reduce.
  destruct (pstm_mul_d y q t1) as [ta| | |]; try discriminate. cbn [rbind] in *.
  destruct (pstm_lshd ta k) as [tb| | |]; try discriminate. cbn [rbind] in *.
  destruct (pstm_sub true x tb x) as [xa| | |]; try discriminate. cbn [rbind] in *. injection E as -> ->.
  assert (Hv : q = Q /\ sval x2 = mag x mod W \/ q = Q + 1 /\ sval x2 = mag x mod W - W).
  { destruct (Z.eq_dec q Q) as [->|]; [left; split; lia|right]. assert (q = Q + 1) as -> by lia. split; [reflexivity|lia]. }
  destruct Hv as [(_ & Hv)|(_ & Hv)].
  - destruct (sval_pos x2 Hx2 ltac:(lia)) as (Sx2 & Em2). rewrite Sx2. exists x2, t2, q. rewrite Em2. auto 10.
  - destruct (sval_neg x2 Hx2 ltac:(lia)) as (Sx2 & Em2). rewrite Sx2.
    destruct (pstm_copy_ok y t2 Hy H2) as (t3 & E3 & H3 & Eu3 & Es3 & Em3 & L3). rewrite E3. cbn [rbind]. pose proof (pB_pos t).
    assert (Huy : used y = S t).
    { apply Nat.le_antisymm; [apply used_le; [exact Hy|rewrite pB_S; unfold B; lia]|]. apply used_ge; [apply ok_raw, Hy|lia]. }
    destruct (lshd_ok t3 k H3 ltac:(lia)) as (t4 & E4 & H4 & Eu4 & Em4 & Es4 & L4). rewrite E4. cbn [rbind]. rewrite Em3 in Em4. fold W in Em4.
    destruct (pstm_add_spec true x2 t4 x2) as (x5 & E5 & Hx5 & Ev5 & L5); auto using ok_raw.
    + rewrite Sx2, Es4, Es3, Sy. cbn [Bool.eqb]. unfold diff_ok, sub_exact. rewrite Em4, Em2, Hv.
      assert (Hge : (t + k <= used x2)%nat).
      { destruct (t + k)%nat as [|m] eqn:Etk; [lia|]. apply used_ge; [apply ok_raw, Hx2|]. rewrite Nat.sub_succ, Nat.sub_0_r in Hfar. lia. }
      destruct (Z.ltb_spec (- (mag x mod W - W)) W); left; [lia|]. assert (used x2 <= used t4)%nat; [|lia].
      apply used_mono; [exact Hx2|apply ok_raw, H4|]. rewrite Em4, Em2. lia.
    + rewrite E5. cbn [rbind]. assert (Ev5' : sval x5 = mag x mod W).
      { rewrite Ev5, Hv. unfold sval. rewrite Es4, Es3, Sy, Em4. ring. }
      destruct (sval_pos x5 Hx5 ltac:(lia)) as (Sx5 & Em5). exists x5, t4, (u32 (q - 1)).
      split; [reflexivity|]. split; [apply ok_raw, H4|]. split; [lia|]. rewrite Em5. repeat split; auto; try apply Hx5; lia.
Qed.
End Reduce.

(** ** The loop *)

Section Loop.
Variables (y : pstm_int) (t : nat).
Hypotheses (Hy : ok y) (Sy : sign y = false) (HYr : 2 ^ 30 * pB t <= mag y < 2 ^ 31 * pB t) (Hmax : (used y < PSTM_MAX_SIZE)%nat).

Definition clear_of (a w : Z) (n : nat) : Prop := a mod w + pB n <= w.

Definition step_state (A : Z) (n k : nat) (s : pstm_int * pstm_int * pstm_int * list Z) : Prop :=
  let '(x, t1, t2, qd) := s in
  ok x /\ sign x = false /\ mag x = A mod (mag y * pB k) /\ (S (t + n) <= alloc x)%nat /\ temps_ok t1 t2 /\ length qd = S n.

Lemma step_spec A n k s :
  step_state A n (S k) s -> (k < n)%nat -> clear_of A (mag y * pB k) (t + k - 1) ->
  exists s', div_step y t (t + 1 + k) s = Ok s' /\ step_state A n k s'.
Proof.
  destruct s as (((x & t1) & t2) & qd). intros (Hx & Sx & Em & Hl & Ht & Hq) Hk Hfar. pose proof (ok_raw y Hy) as Hry.
  pose proof (shifted_pos (mag y) t k HYr) as HW. pose proof (shifted_bounds (mag y) t k HYr) as HWb. pose proof Bpos as HB.
  assert (Emod : A mod (mag y * pB k) = mag x mod (mag y * pB k)).
  { rewrite Em, pB_S. symmetry. apply Z.mod_mod_divide. exists B. ring. }
  unfold clear_of in Hfar. unfold div_step. destruct (Nat.ltb_spec (used x) (t + 1 + k)) as [Hs|Hs].
  - eexists. split; [reflexivity|]. split; [exact Hx|]. split; [exact Sx|]. split; [|auto]. rewrite Emod, Z.mod_small; [reflexivity|].
    pose proof (raw_range x (ok_raw x Hx)). pose proof (pB_le (used x) (t + k) ltac:(lia)). pose proof (pB_pos (t + k)). lia.
  - replace (t + 1 + k)%nat with (S (t + k)) by lia. replace (S (t + k) - t - 1)%nat with k by lia.
    assert (HXY : mag x < mag y * pB (S k)).
    { rewrite Em. apply Z.mod_pos_bound. rewrite pB_S. nia. }
    assert (Hly : (S t <= alloc y)%nat).
    { destruct Hry as (Hu & _). pose proof (pB_pos t). pose proof (used_ge y t (ok_raw y Hy) ltac:(lia)). lia. }
    destruct (digit_spec x y t k (ok_raw x Hx) Hry ltac:(lia) Hly HYr HXY t1 t2 Ht) as (t1' & t2' & q & E & (H1 & L1 & H2) & HQ & Hqb).
    destruct (div_guess x y (S (t + k)) t) as [g| | |]; try discriminate. cbn [rbind] in *. rewrite E. cbn [rbind].
    destruct (reduce_spec x y t k Hx Hy Sx Sy ltac:(lia) HYr Hmax t1' q H1 HQ Hqb) as (x' & t1'' & q' & E' & H1'' & L1'' & Hx' & Sx' & Em' & Lx').
    { rewrite <- Emod. exact Hfar. }
    rewrite E'. cbn [rbind]. rewrite store1_ok by lia. cbn [rbind]. eexists. split; [reflexivity|].
    split; [exact Hx'|]. split; [exact Sx'|]. split; [congruence|]. split; [lia|]. split; [|rewrite length_upd; exact Hq].
    split; [exact H1''|]. split; [lia|exact H2].
Qed.

Lemma steps_spec A n m s :
  (m <= n)%nat -> step_state A n m s -> (forall k, (k < m)%nat -> clear_of A (mag y * pB k) (t + k - 1)) ->
  exists s', for_down m (fun k => div_step y t (t + 1 + k)) s = Ok s' /\ step_state A n 0 s'.
Proof.
  revert s; induction m as [|m IH]; intros s Hm Hs Hfar; cbn [for_down]; [eauto|].
  destruct (step_spec A n m s Hs ltac:(lia) (Hfar m ltac:(lia))) as (s' & E & Hs'). rewrite E. cbn [rbind].
  apply IH; [lia|exact Hs'|]. intros k Hk. apply Hfar. lia.
Qed.
End Loop.

(** The digit in front: at most [fuel] subtractions. *)
Lemma div_top_spec fuel : forall x y q,
  ok x -> ok y -> sign x = false -> sign y = false -> (used x <= used y)%nat -> 0 < mag y -> mag x < (Z.of_nat fuel + 1) * mag y ->
  exists x' q', div_top fuel x y q = Ok (x', q') /\ ok x' /\ sign x' = false /\ mag x' = mag x mod mag y /\ (alloc x <= alloc x')%nat.
Proof.
  induction fuel as [|fuel IH]; intros x y q Hx Hy Sx Sy Hu HY HX; cbn [div_top];
    (assert (Ec : pstm_cmp x y = Ok (compare3 (mag x) (mag y)))
       by (unfold pstm_cmp; rewrite Sx, Sy; cbn [Bool.eqb negb]; apply cmp_mag_spec; assumption));
    rewrite Ec; cbn [rbind]; rewrite compare3_lt; pose proof (raw_range x (ok_raw x Hx)) as Hr; destruct (Z.ltb_spec (mag x) (mag y)) as [Hlt|Hge]; try lia.
  1, 2: exists x, q; rewrite Z.mod_small by lia; auto.
  destruct (pstm_sub_spec true x y x) as (x' & E & Hx' & Ev & El); auto using ok_raw.
  { rewrite Sx, Sy. cbn [Bool.eqb]. unfold diff_ok. destruct (Z.ltb_spec (mag x) (mag y)); [lia|]. left. lia. }
  rewrite E. cbn [rbind]. unfold sval in Ev. rewrite Sx, Sy in Ev. fold (sval x') in Ev. destruct (sval_pos x' Hx' ltac:(lia)) as (Sx' & Em').
  destruct (IH x' y (u32 (q + 1)) Hx' Hy Sx' Sy) as (x2 & q2 & E2 & Hx2 & Sx2 & Em2 & L2); [|exact HY|lia|].
  - transitivity (used x); [|exact Hu]. apply used_mono; [exact Hx'|apply ok_raw, Hx|lia].
  - exists x2, q2. split; [exact E2|]. split; [exact Hx2|]. split; [exact Sx2|]. split; [|lia].
    rewrite Em2, Em', Ev. replace (mag x - mag y) with (mag x + (-1) * mag y) by ring. apply Z.mod_add. lia.
Qed.

(** ** The division *)

Lemma normalize_spec x y :
  ok x -> ok y -> 0 < mag y -> (used x < PSTM_MAX_SIZE)%nat -> (used y < PSTM_MAX_SIZE)%nat ->
  exists s x' y' t, div_normalize x y = Ok (s, x', y') /\ (s < 32)%nat /\ ok x' /\ ok y'
    /\ mag x' = mag x * 2 ^ Z.of_nat s /\ mag y' = mag y * 2 ^ Z.of_nat s /\ sign x' = sign x /\ sign y' = sign y
    /\ 2 ^ 30 * pB t <= mag y' < 2 ^ 31 * pB t /\ (alloc x <= alloc x')%nat.
Proof.
  intros Hx Hy HY Hmx Hmy. unfold div_normalize. destruct (count_bits_spec y Hy) as (n & E & Hb). rewrite E. cbn [rbind]. clear E.
  destruct Hb as [(H0 & _)|(_ & Hb)]; [lia|]. assert (Hn : (0 < n)%nat) by (destruct n; [cbn in Hb; lia|lia]). pose proof (Nat.mod_upper_bound n 32 ltac:(lia)) as Hm. pose proof (Nat.div_mod_eq n 32) as En.
  unfold DIGIT_BIT. set (m := (n mod 32)%nat) in *. set (d := (n / 32)%nat) in *.
  assert (Hshift : forall s, (m + s = 31)%nat -> 2 ^ 30 * pB d <= mag y * 2 ^ Z.of_nat s < 2 ^ 31 * pB d).
  { intros s Hs. rewrite pB_pow, <- !Z.pow_add_r by lia. assert (0 < 2 ^ Z.of_nat s) by (apply Z.pow_pos_nonneg; lia). split.
    - replace (30 + _) with ((Z.of_nat n - 1) + Z.of_nat s) by lia. rewrite Z.pow_add_r by lia. nia.
    - replace (31 + _) with (Z.of_nat n + Z.of_nat s) by lia. rewrite Z.pow_add_r by lia. nia. }
  destruct (Nat.ltb_spec m (32 - 1)) as [Hlt|Hge].
  - replace (32 - 1 - m)%nat with (31 - m)%nat by lia.
    destruct (mul_2d_spec x (31 - m) Hx ltac:(lia) Hmx) as (x' & Ex & Hx' & Emx & Sx' & Lx'). rewrite Ex. cbn [rbind].
    destruct (mul_2d_spec y (31 - m) Hy ltac:(lia) Hmy) as (y' & Ey & Hy' & Emy & Sy' & _). rewrite Ey. cbn [rbind].
    exists (31 - m)%nat, x', y', d. split; [reflexivity|]. split; [lia|]. rewrite Emy. repeat split; try apply Hx'; try apply Hy'; auto; apply Hshift; lia.
  - exists O, x, y, d. specialize (Hshift O ltac:(lia)). change (2 ^ Z.of_nat 0) with 1 in *. rewrite !Z.mul_1_r in *.
    repeat split; try apply Hx; try apply Hy; try apply Hshift; lia.
Qed.

(** No remainder of the division of [a] by [b B^k] is within [2^-62] of the
    divisor. *)
Definition far (a b : Z) : Prop :=
  forall k, b * pB k <= B * a -> b * pB k <= 2 ^ 62 * (b * pB k - a mod (b * pB k)).

Lemma far_apply a b k : ok a -> ok b -> 0 < mag a -> far (mag a) (mag b) -> (used b + k <= used a)%nat ->
  mag b * pB k <= 2 ^ 62 * (mag b * pB k - mag a mod (mag b * pB k)).
Proof.
  intros Ha Hb HA Hf Hk. apply Hf. assert (Hu : (0 < used a)%nat) by (destruct (used a) eqn:E; [apply used_mag in E; [lia|exact Ha]|lia]).
  pose proof (ok_range a Ha Hu). pose proof (raw_range b (ok_raw b Hb)). pose proof (pB_le _ _ Hk) as Hle. rewrite pB_add in Hle. pose proof (pB_pos k).
  replace (used a) with (S (used a - 1)) in Hle by lia. rewrite pB_S in Hle. pose proof Bpos. nia.
Qed.

Lemma far_clear (a b w p : Z) (j : nat) :
  0 < p -> w = b * p -> 2 ^ 30 * pB j <= w -> 0 < b -> b <= 2 ^ 62 * (b - a mod b) -> clear_of (a * p) w (j - 1).
Proof.
  intros Hp -> Hw Hb Hf. unfold clear_of. rewrite Z.mul_mod_distr_r by lia. pose proof (Z.mod_pos_bound a b Hb) as Hr.
  destruct j as [|j]; [cbn [Nat.sub]; rewrite pB_0; nia|]. rewrite Nat.sub_succ, Nat.sub_0_r. rewrite pB_S in Hw. unfold B in Hw. nia.
Qed.

(** The remainder of the normalised numbers. *)
Lemma div_digits_spec x y t m1 :
  ok x -> ok y -> sign x = false -> sign y = false -> 2 ^ 30 * pB t <= mag y < 2 ^ 31 * pB t -> (used x < PSTM_MAX_SIZE)%nat -> mag y <= mag x ->
  (2 <= m1)%nat -> (forall k, (k < used x - 1 - t)%nat -> clear_of (mag x) (mag y * pB k) (t + k - 1)) ->
  exists x' q', div_digits x y (pstm_init_size m1) (pstm_init_size 3) = Ok (x', q') /\ ok x' /\ sign x' = false /\ mag x' = mag x mod mag y.
Proof.
  intros Hx Hy Sx Sy HYr Hmx Hle Hm1 Hfar. pose proof (pB_pos t) as HT. pose proof Bpos as HB.
  assert (Hux : (t < used x)%nat) by (apply used_ge; [apply ok_raw, Hx|lia]).
  assert (Huy : used y = S t).
  { apply Nat.le_antisymm; [apply used_le; [exact Hy|rewrite pB_S; unfold B; lia]|]. apply used_ge; [apply ok_raw, Hy|lia]. }
  unfold div_digits. cbv zeta. replace (used y - 1)%nat with t by lia. set (n := (used x - 1)%nat) in *. set (q := repeat 0 (n - t + 1)).
  destruct (lshd_ok y (n - t) Hy ltac:(lia)) as (y1 & E & H1 & Eu1 & Em1 & Es1 & _). rewrite E. cbn [rbind]. clear E.
  rewrite (load1_ok _ _ 0) by (unfold q; rewrite repeat_length; lia). cbn [rbind].
  pose proof (shifted_bounds (mag y) t (n - t) HYr) as HW. pose proof (pB_pos (t + (n - t))). pose proof (raw_range x (ok_raw x Hx)) as HX.
  replace (used x) with (S (t + (n - t))) in HX by lia. rewrite pB_S in HX.
  destruct (div_top_spec DIV_TOP x y1 (nth (n - t) q 0) Hx H1 Sx ltac:(congruence) ltac:(lia)) as (x2 & q2 & E & H2 & S2 & Em2 & L2).
  { rewrite Em1. lia. }
  { rewrite Em1. change (Z.of_nat DIV_TOP + 1) with 5. unfold B in *. lia. }
  rewrite E. cbn [rbind]. clear E. rewrite store1_ok by (unfold q; rewrite repeat_length; lia). cbn [rbind].
  destruct (rshd_spec y1 (n - t) (ok_raw y1 H1) ltac:(congruence)) as (y2 & E & Hy2 & Emy2 & _ & Sy2). rewrite E. cbn [rbind]. clear E.
  rewrite Em1, Z.div_mul in Emy2 by (pose proof (pB_pos (n - t)); lia). assert (Ss2 : sign y2 = false) by (rewrite Sy2, Es1, Sy; destruct (mag y2 =? 0); reflexivity).
  assert (Huy2 : (used y2 < PSTM_MAX_SIZE)%nat).
  { eapply Nat.le_lt_trans; [|exact Hmx]. apply used_mono; [exact Hy2|apply ok_raw, Hx|lia]. }
  rewrite <- Emy2 in HYr, Hfar, Em1.
  destruct (steps_spec y2 t Hy2 Ss2 HYr Huy2 (mag x) (n - t) (n - t) (x2, pstm_init_size m1, pstm_init_size 3, upd q (n - t) q2)) as (s' & E & Hs'); [lia| | |].
  - split; [exact H2|]. split; [exact S2|]. split; [rewrite Em2, Em1; reflexivity|]. pose proof (proj1 (ok_raw x Hx)). split; [lia|].
    split; [|rewrite length_upd; unfold q; rewrite repeat_length; lia].
    split; [apply ok_raw, init_size_ok|]. split; [rewrite alloc_init; lia|]. split; [apply ok_raw, init_size_ok|reflexivity].
  - intros k Hk. apply Hfar. lia.
  - rewrite E. cbn [rbind]. destruct s' as (((x3 & t1) & t2) & q3). destruct Hs' as (H3 & S3 & Em3 & _). cbn [rbind].
    exists x3, q3. split; [reflexivity|]. rewrite pB_0, Z.mul_1_r in Em3. rewrite Em3, Emy2. auto.
Qed.

Lemma with_sign_ok a s : ok a -> (used a = O -> s = false) -> ok (with_sign a s).
Proof. intros (Hr & Ht & _) Hs. split; [exact Hr|]. split; [exact Ht|exact Hs]. Qed.

Lemma div_spec a b d :
  ok a -> ok b -> raw d -> sign b = false -> 0 < mag b -> (2 <= alloc a)%nat -> (used a + 1 < PSTM_MAX_SIZE)%nat -> far (mag a) (mag b) ->
  (used b <= alloc d)%nat ->
  exists r, pstm_div a b d = Ok r /\ ok r /\ sign r = (if mag r =? 0 then false else sign a) /\ mag r = mag a mod mag b /\ alloc r = alloc d.
Proof.
  intros Ha Hb Hd Sb HB0 Hla Hmax Hfar Hld. pose proof (raw_range a (ok_raw a Ha)) as HA.
  assert (Hub : used b <> O) by (intros E; apply used_mag in E; [lia|exact Hb]). unfold pstm_div. apply Nat.eqb_neq in Hub. rewrite Hub. apply Nat.eqb_neq in Hub.
  rewrite cmp_mag_spec by assumption. cbn [rbind]. rewrite compare3_lt. destruct (Z.ltb_spec (mag a) (mag b)) as [Hlt|Hge].
  { destruct (pstm_copy_ok a d Ha Hd) as (c & E & Hc & Eu & Es & Em & El). exists c. pose proof (used_mono a b Ha (ok_raw b Hb) ltac:(lia)).
    split; [exact E|]. split; [exact Hc|]. split; [|split; [rewrite Z.mod_small by lia; exact Em|lia]].
    destruct (Z.eqb_spec (mag c) 0) as [Ez|]; [|exact Es]. apply used_mag in Ez; [|exact Hc]. apply Hc, Ez. }
  unfold pstm_init_copy. cbn [andb].
  destruct (pstm_copy_ok a (pstm_init_size (alloc a)) Ha (ok_raw _ (init_size_ok _))) as (x0 & E & Hx0 & Eu0 & Es0 & Em0 & _). rewrite E. cbn [rbind]. clear E.
  destruct (pstm_copy_ok b (pstm_init_size (used b * 3)) Hb (ok_raw _ (init_size_ok _))) as (y0 & E & Hy0 & Euy & Esy & Emy & _). rewrite E. cbn [rbind]. clear E.
  pose proof (used_mono b a Hb (ok_raw a Ha) Hge) as Hba.
  destruct (normalize_spec (with_sign x0 false) (with_sign y0 false) (with_sign_ok x0 _ Hx0 ltac:(auto)) (with_sign_ok y0 _ Hy0 ltac:(auto)) ltac:(change (mag (with_sign y0 false)) with (mag y0); lia) ltac:(cbn; lia) ltac:(cbn; lia)) as (s & x & y & t & E & Hs & Hx & Hy & Emx & Emy' & Sx & Sy & Hr & _).
  rewrite E. cbn [rbind]. clear E. change (mag (with_sign x0 false)) with (mag x0) in Emx. change (mag (with_sign y0 false)) with (mag y0) in Emy'. cbn [with_sign sign] in Sx, Sy. rewrite Em0 in Emx. rewrite Emy in Emy'. set (p := 2 ^ Z.of_nat s) in *.
  assert (Hp : 0 < p <= 2 ^ 31) by (split; [apply Z.pow_pos_nonneg; lia|apply Z.pow_le_mono_r; lia]).
  assert (Hux : (used x <= used a + 1)%nat) by (apply used_le; [exact Hx|]; rewrite Emx, Nat.add_1_r, pB_S; unfold B; nia).
  pose proof (pB_pos t). assert (Hty : (used b <= t + 1)%nat) by (apply used_le; [exact Hb|]; rewrite Nat.add_1_r, pB_S; unfold B; nia).
  destruct (div_digits_spec x y t (alloc a) Hx Hy ltac:(congruence) ltac:(congruence) Hr ltac:(lia) ltac:(nia) Hla) as (x1 & q & E & Hx1 & Sx1 & Em1).
  { intros k Hk. rewrite Emx. apply far_clear with (b := mag b * pB k); [lia|rewrite Emy'; ring| | |apply far_apply; auto; lia].
    - apply shifted_bounds, Hr.
    - pose proof (pB_pos k). nia. }
  rewrite E. cbn [rbind]. clear E. set (x1s := with_sign x1 _).
  assert (Hx1s : ok x1s) by (apply with_sign_ok; [exact Hx1|]; intros ->; reflexivity).
  destruct (div_2d_spec x1s s Hx1s Hs) as (x2 & E & Hx2 & Em2 & _ & S2). rewrite E. cbn [rbind]. clear E. fold p in Em2.
  change (mag x1s) with (mag x1) in Em2. rewrite Em1, Emx, Emy', Z.mul_mod_distr_r, Z.div_mul in Em2 by lia. pose proof (Z.mod_pos_bound (mag a) (mag b) HB0) as Hrem.
  pose proof (used_mono x2 b Hx2 (ok_raw b Hb) ltac:(lia)) as Hu2. rewrite clear_none by exact Hu2. cbn [rbind].
  destruct (clamp_spec x2 (ok_raw x2 Hx2)) as (x3 & E & Hx3 & Ed3 & Hu3 & S3). replace (mk_pstm (used x2) (sign x2) (dp x2)) with x2 by (destruct x2; reflexivity).
  rewrite E. cbn [rbind]. destruct (pstm_copy_ok x3 d Hx3 Hd) as (r & E' & Hr' & Eu' & Es' & Em' & El'). exists r.
  split; [exact E'|]. split; [exact Hr'|]. split; [|split; [|lia]].
  - rewrite Es', S3, S2, Em'. unfold mag at 3. rewrite Ed3. fold (mag x2). destruct (Z.eqb_spec (mag x2) 0) as [Ez|Hnz]; [reflexivity|].
    unfold x1s. cbn [with_sign sign]. destruct (Nat.eqb_spec (used x1) 0) as [E0|]; [|reflexivity]. apply used_mag in E0; [|exact Hx1].
    rewrite Em1, Emx, Emy', Z.mul_mod_distr_r in E0 by lia. nia.
  - rewrite Em'. unfold mag at 1. rewrite Ed3. exact Em2.
Qed.

Lemma mod_spec a b c :
  ok a -> ok b -> sign a = false -> sign b = false -> 0 < mag b -> (2 <= alloc a)%nat -> (used a + 1 < PSTM_MAX_SIZE)%nat -> far (mag a) (mag b) ->
  exists r, pstm_mod a b c = Ok r /\ ok r /\ sign r = false /\ mag r = mag a mod mag b /\ alloc r = alloc b.
Proof.
  intros Ha Hb Sa Sb HB0 Hla Hmax Hfar. pose proof (proj1 (ok_raw b Hb)) as Hlb.
  pose proof (alloc_init (alloc b)) as El.
  destruct (div_spec a b (pstm_init_size (alloc b)) Ha Hb (ok_raw _ (init_size_ok _)) Sb HB0 Hla Hmax Hfar ltac:(lia)) as (r & E & Hr & Sr & Em & Lr).
  assert (Sr' : sign r = false) by (rewrite Sr, Sa; destruct (mag r =? 0); reflexivity). unfold pstm_mod. rewrite E. cbn [rbind]. rewrite Sr', Sb. exists r. rewrite <- El. auto.
Qed.

(** The borrow of [x - y], [y <= x], passes at most one digit. *)
Definition near (x y : Z) : Prop := y = 0 \/ x < B * y.

Lemma near_exact a b : ok a -> ok b -> mag b <= mag a -> near (mag a) (mag b) -> sub_exact a b.
Proof.
  intros Ha Hb Hle [H|H]; [right|left].
  - rewrite H. apply low_range, Ha.
  - apply used_le; [exact Ha|]. pose proof (raw_range b (ok_raw b Hb)). rewrite Nat.add_1_r, pB_S. pose proof Bpos. nia.
Qed.

(** The remainder of a negative number. *)
Lemma mod_spec_signed a b c :
  ok a -> ok b -> raw c -> sign b = false -> 0 < mag b -> (2 <= alloc a)%nat -> (used a + 1 < PSTM_MAX_SIZE)%nat -> far (mag a) (mag b) ->
  (sign a = true -> near (mag b) (mag a mod mag b)) ->
  exists r, pstm_mod a b c = Ok r /\ ok r /\ sign r = false /\ mag r = sval a mod mag b.
Proof.
  intros Ha Hb Hc Sb HB0 Hla Hmax Hfar Hnear. destruct (sign a) eqn:Sa.
  - pose proof (proj1 (ok_raw b Hb)) as Hlb. pose proof (alloc_init (alloc b)) as El. pose proof (Z.mod_pos_bound (mag a) (mag b) HB0) as Hr0.
    destruct (div_spec a b (pstm_init_size (alloc b)) Ha Hb (ok_raw _ (init_size_ok _)) Sb HB0 Hla Hmax Hfar ltac:(lia)) as (t & E & Ht & St & Em & _).
    unfold pstm_mod. rewrite E. cbn [rbind]. rewrite St, Sa, Sb. unfold sval. rewrite Sa. destruct (Z.eqb_spec (mag t) 0) as [Ez|Hnz]; cbn [Bool.eqb negb].
    + exists t. split; [reflexivity|]. split; [exact Ht|]. split; [exact St|]. rewrite Z.mod_opp_l_z; lia.
    + destruct (pstm_add_spec false t b c) as (r & E' & Hr & Ev & _); auto; [discriminate| |].
      * rewrite St, Sa, Sb. cbn [Bool.eqb]. unfold diff_ok.
        destruct (Z.ltb_spec (mag t) (mag b)); [|lia]. apply near_exact; auto; [lia|]. rewrite Em. apply Hnear. reflexivity.
      * assert (Ev' : sval r = mag b - mag t) by (rewrite Ev; unfold sval; rewrite St, Sa, Sb; ring).
        destruct (sval_pos r Hr ltac:(lia)) as (Sr & Emr). exists r. split; [exact E'|]. split; [exact Hr|]. split; [exact Sr|].
        rewrite Emr, Ev', Z.mod_opp_l_nz by lia. lia.
  - destruct (mod_spec a b c Ha Hb Sa Sb HB0 Hla Hmax Hfar) as (r & E & Hr & Sr & Em & _). exists r. unfold sval. rewrite Sa. auto.
Qed.

Lemma product_spec_signed d_is_a a b :
  ok a -> ok b -> (used a + used b + 1 < PSTM_MAX_SIZE)%nat ->
  let size := (used a + used b + 1)%nat in
  let size := if d_is_a && (size <? alloc a)%nat then alloc a else size in
  exists p, pstm_mul_comba a b (pstm_init_size size) None = Ok p /\ ok p /\ mag p = mag a * mag b /\ sval p = sval a * sval b
    /\ sign p = (if mag p =? 0 then false else xorb (sign a) (sign b)) /\ (used p <= used a + used b)%nat /\ (used a + used b + 1 <= alloc p)%nat.
Proof.
  intros Ha Hb Hmax s0 size. assert (Hsize : (used a + used b + 1 <= size)%nat).
  { unfold size, s0. destruct d_is_a; cbn [andb]; [|lia]. destruct (Nat.ltb_spec (used a + used b + 1) (alloc a)); lia. }
  assert (Hs : small a) by (unfold small, B; unfold PSTM_MAX_SIZE in Hmax; lia).
  destruct (mul_comba_spec a b (pstm_init_size size) None (ok_raw a Ha) (ok_raw b Hb) (ok_raw _ (init_size_ok _)) Hs) as (p & E & Hp & Em & El & Es).
  exists p. rewrite alloc_init in El. split; [exact E|]. split; [exact Hp|]. split; [exact Em|]. split; [|split; [exact Es|split; [|lia]]].
  - rewrite (sval_of p _ Es), Em. unfold sval. destruct (sign a), (sign b); cbn [xorb]; ring.
  - apply used_le; [exact Hp|]. rewrite Em, pB_add. pose proof (raw_range a (ok_raw a Ha)). pose proof (raw_range b (ok_raw b Hb)). nia.
Qed.

Lemma pstm_mulmod_spec d_is_a a b c d :
  ok a -> ok b -> ok c -> sign a = false -> sign b = false -> sign c = false -> 0 < mag c -> (0 < used a + used b)%nat ->
  (used a + used b + 1 < PSTM_MAX_SIZE)%nat -> far (mag a * mag b) (mag c) ->
  exists r, pstm_mulmod d_is_a a b c d = Ok r /\ ok r /\ sign r = false /\ mag r = (mag a * mag b) mod mag c /\ alloc r = alloc c.
Proof.
  intros Ha Hb Hc Sa Sb Sc HC Hu Hmax Hfar. unfold pstm_mulmod. destruct (product_spec_signed d_is_a a b Ha Hb Hmax) as (p & E & Hp & Em & _ & Es & Hup & Hl).
  rewrite E. cbn [rbind]. assert (Sp : sign p = false) by (rewrite Es, Sa, Sb; destruct (mag p =? 0); reflexivity).
  rewrite <- Em in *. apply mod_spec; auto; lia.
Qed.

Lemma mulmod_spec_signed d_is_a a b c d :
  ok a -> ok b -> ok c -> raw d -> sign b = false -> sign c = false -> 0 < mag c -> (0 < used a + used b)%nat ->
  (used a + used b + 1 < PSTM_MAX_SIZE)%nat -> far (mag a * mag b) (mag c) -> (sign a = true -> near (mag c) ((mag a * mag b) mod mag c)) ->
  exists r, pstm_mulmod d_is_a a b c d = Ok r /\ ok r /\ sign r = false /\ mag r = (sval a * mag b) mod mag c.
Proof.
  intros Ha Hb Hc Hd Sb Sc HC Hu Hmax Hfar Hnear. unfold pstm_mulmod. destruct (product_spec_signed d_is_a a b Ha Hb Hmax) as (p & E & Hp & Em & Ev & Es & Hup & Hl).
  rewrite E. cbn [rbind]. replace (sval a * mag b) with (sval p) by (rewrite Ev; unfold sval; rewrite Sb; reflexivity). rewrite <- Em in *.
  apply mod_spec_signed; auto; try lia. intros Sp. apply Hnear. rewrite Es, Sb, Bool.xorb_false_r in Sp. destruct (mag p =? 0); [discriminate|exact Sp].
Qed.

(** The remainder: for [a] of at most [PSTM_MAX_SIZE] digits and [b > 0],
    when no remainder of [a] by [b B^k] is within [2^-62] of [b B^k],
    [pstm_mod] touches no memory outside its numbers, its loops end within the
    fuel, and it returns [a mod b], without leading zeros and with the digits
    of [b] allocated. *)
Theorem pstm_mod_correct a b c :
  ok a -> ok b -> sign a = false -> sign b = false -> 0 < mag b -> (2 <= alloc a)%nat -> (used a + 1 < PSTM_MAX_SIZE)%nat -> far (mag a) (mag b) ->
  exists r, pstm_mod a b c = Ok r /\ ok r /\ sval r = mag a mod mag b /\ alloc r = alloc b.
Proof.
  intros Ha Hb Sa Sb HB Hla Hmax Hfar. destruct (mod_spec a b c Ha Hb Sa Sb HB Hla Hmax Hfar) as (r & E & Hr & Sr & Em & El).
  exists r. unfold sval. rewrite Sr. auto.
Qed.

(** The digits of a number. *)
Fixpoint digits (n : nat) (z : Z) : list Z := match n with O => [] | S n => z mod B :: digits n (z / B) end.
Definition num (n : nat) (z : Z) : pstm_int := mk_pstm n false (digits n z).

Definition ok_b (a : pstm_int) : bool :=
  (used a <=? alloc a)%nat && forallb (fun d => (0 <=? d) && (d <? B)) (dp a) && forallb (Z.eqb 0) (skipn (used a) (dp a))
  && ((used a =? 0)%nat || negb (nth (used a - 1) (dp a) 0 =? 0)) && implb (used a =? 0)%nat (negb (sign a)).

Lemma ok_b_ok a : ok_b a = true -> ok a.
Proof.
  unfold ok_b. rewrite !Bool.andb_true_iff, Bool.orb_true_iff, Nat.leb_le, !forallb_forall, Nat.eqb_eq. intros ((((Hu & Hd) & Hz) & Ht) & Hs).
  split; [split; [exact Hu|split]|split].
  - apply Forall_forall. intros d Hin. apply Hd in Hin. unfold digit. lia.
  - apply Forall_forall. intros d Hin. apply Hz in Hin. lia.
  - destruct Ht as [Ht|Ht]; [left; exact Ht|right]. apply Bool.negb_true_iff, Z.eqb_neq in Ht. exact Ht.
  - intros E. rewrite E in Hs. cbn in Hs. destruct (sign a); [discriminate|reflexivity].
Qed.

Definition far_b (n : nat) (a b : Z) : bool :=
  forallb (fun k => b * pB k <=? 2 ^ 62 * (b * pB k - a mod (b * pB k))) (seq 0 n).

Lemma far_b_far n a b : far_b n a b = true -> B * a < b * pB n -> 0 < b -> far a b.
Proof.
  unfold far_b. rewrite forallb_forall. intros H Hn Hb k Hk. apply Z.leb_le, H, in_seq. split; [lia|].
  destruct (Nat.lt_ge_cases k n) as [|Hge]; [assumption|]. pose proof (pB_le n k Hge). nia.
Qed.

Lemma pstm_mod_correct_witness :
  let a := num 5 (2 ^ 150 + 7) in let b := num 2 (2 ^ 40 + 15) in
  exists r, pstm_mod a b a = Ok r /\ ok r /\ sval r = mag a mod mag b /\ alloc r = alloc b.
Proof.
  intros a b. apply pstm_mod_correct; try reflexivity; try (apply ok_b_ok; reflexivity); try (unfold PSTM_MAX_SIZE; cbn; lia).
  apply (far_b_far 6); reflexivity.
Defined.

End PstmD.
