(* ===== verification/PstmMont.v ===== *)
(** * Multiple-precision integers: Montgomery reduction

    [pstm_montgomery_setup], [pstm_montgomery_calc_normalization] and
    [pstm_montgomery_reduce] of networking/tls_pstm.c and
    networking/tls_pstm_montgomery_reduce.c: the constant [-1/m mod B], the
    number [R = B^used mod m], and [a/R mod m]. *)

From Stdlib Require Import ZArith List Lia Bool.
From S2P Require Import Prelude Words Mem Pstm PstmVal PstmOps PstmMul PstmDiv.
Import ListNotations.
Local Open Scope Z_scope.
Local Open Scope res_scope.

Module PstmR.
Import Pstm PstmV PstmO PstmM PstmD.

(** The program returns, with a result that satisfies [P]. *)
Definition returns {A} (P : A -> Prop) (m : result A) : Prop := ends (fun _ : error => False) P m.

Lemma returns_ok {A} (P : A -> Prop) (m : result A) : returns P m <-> exists a, m = Ok a /\ P a.
Proof.
  split; [destruct m as [a| | |]; cbn; intros H; try contradiction; exists a; auto|]. intros (a & -> & H). exact H.
Qed.

Lemma returns_bind {A C} (P : A -> Prop) (Q : C -> Prop) (m : result A) (f : A -> result C) :
  returns P m -> (forall a, P a -> returns Q (f a)) -> returns Q (rbind m f).
Proof. apply ends_bind. Qed.

Lemma failing_ok {A} c (P : A -> Prop) (m : result A) : returns P m -> returns P (failing c m).
Proof. destruct m; cbn; auto; contradiction. Qed.

(** ** The constant of the reduction *)

Section Setup.
Variable b : Z.
Hypotheses (Hb : digit b) (Hodd : Z.land b 1 <> 0).

Definition inverse_mod (N x : Z) : Prop := (N | b * x - 1).

Lemma inverse_u32 N x : (N | B) -> inverse_mod N x -> inverse_mod N (u32 x).
Proof.
  intros (k & Hk) (c & Hc). pose proof (Z.div_mod x B ltac:(discriminate)) as E. unfold inverse_mod. change (u32 x) with (x mod B).
  exists (c - b * (x / B) * k). rewrite Z.mul_sub_distr_r, <- Hc, <- Z.mul_assoc, <- Hk. replace (x mod B) with (x - B * (x / B)) by lia. ring.
Qed.

Lemma newton_step N x : (N * N | B) -> inverse_mod N x -> inverse_mod (N * N) (u32 (x * u32 (2 - u32 (b * x)))).
Proof.
  intros HN (c & Hc). apply inverse_u32; [exact HN|]. destruct HN as (k & Hk). pose proof (Z.div_mod (b * x) B ltac:(discriminate)) as E1.
  change (u32 (b * x)) with ((b * x) mod B). set (w := (b * x) mod B) in *. pose proof (Z.div_mod (2 - w) B ltac:(discriminate)) as E2.
  change (u32 (2 - w)) with ((2 - w) mod B). set (v := (2 - w) mod B) in *. set (i := b * x / B) in *. set (i' := (2 - w) / B) in *.
  assert (Ev : v = 2 - b * x + B * (i - i')) by lia. exists (- c * c + b * x * (i - i') * k). rewrite Ev, Hk.
  assert (Ebx : b * x = 1 + c * N) by lia. transitivity (b * x * (2 - b * x) + b * x * (k * (N * N) * (i - i')) - 1); [ring|]. rewrite Ebx. ring.
Qed.

Lemma newton_start : inverse_mod 16 (u32 (u32 (Z.shiftl (Z.land (u32 (b + 2)) 4) 1) + b)).
Proof.
  assert (Hland : Z.land (u32 (b + 2)) 4 = Z.land ((b mod 16 + 2) mod 16) 4).
  { change 4 with (Z.land 15 4) at 1. rewrite Z.land_assoc. change 15 with (Z.ones 4). rewrite Z.land_ones by lia. f_equal.
    unfold u32, wrap. rewrite Z.mod_mod_divide by (exists (2 ^ 28); reflexivity). change (2 ^ 4) with 16. rewrite Zplus_mod_idemp_l. reflexivity. }
  apply inverse_u32; [exists (2 ^ 28); reflexivity|]. rewrite Hland. set (r := b mod 16).
  assert (Hr : Z.land r 1 <> 0).
  { unfold r. change 16 with (2 ^ 4). rewrite <- Z.land_ones, <- Z.land_assoc by lia. exact Hodd. }
  assert (Hin : In r (map Z.of_nat (seq 0 16))).
  { pose proof (Z.mod_pos_bound b 16 ltac:(lia)). apply in_map_iff. exists (Z.to_nat r). split; [lia|]. apply in_seq. lia. }
  unfold inverse_mod. pose proof (Z.div_mod b 16 ltac:(lia)) as E. fold r in E. rewrite E. clearbody r.
  set (s := u32 (Z.shiftl (Z.land ((r + 2) mod 16) 4) 1)).
  assert (Hs : (16 | r * (s + r) - 1)).
  { cbn in Hin. repeat (destruct Hin as [<-|Hin]; [first [contradiction (Hr eq_refl)|apply Z.mod_divide; [discriminate|reflexivity]]|]). contradiction. }
  destruct Hs as (k & Hk). set (d := b / 16) in *. exists (k + d * (s + r) + 16 * d * d + r * d). lia.
Qed.
End Setup.

Lemma setup_spec a :
  raw a -> (0 < used a)%nat -> Z.odd (mag a) = true ->
  exists mp, pstm_montgomery_setup a = Ok mp /\ digit mp /\ (B | mp * mag a + 1).
Proof.
  intros Ha Hu Ho. pose proof (proj1 Ha) as Hl. unfold alloc in Hl. unfold pstm_montgomery_setup. rewrite (load1_ok _ _ 0) by lia. cbn [rbind].
  set (b := nth 0 (dp a) 0). assert (Hb : digit b) by (apply digit_nth, Ha).
  assert (Ea : exists k, mag a = b + B * k) by (unfold mag, b; destruct (dp a) as [|d l]; [cbn in Hl; lia|]; exists (dvalue l); reflexivity).
  destruct Ea as (k & Ek). assert (Hodd : Z.land b 1 <> 0).
  { change 1 with (Z.ones 1). rewrite Z.land_ones by lia. change (2 ^ 1) with 2. rewrite Ek in Ho. rewrite Z.odd_add, Z.odd_mul in Ho.
    change (Z.odd B) with false in Ho. cbn in Ho. rewrite Bool.xorb_false_r in Ho. rewrite Zmod_odd, Ho. discriminate. }
  destruct (Z.eqb_spec (Z.land b 1) 0) as [|_]; [contradiction|]. cbv zeta.
  match goal with |- context [Z.shiftl 1 32 - ?z] => set (x := z) end. assert (Hx : inverse_mod b B x).
  { unfold x. change B with (2 ^ 16 * 2 ^ 16). apply newton_step; [exists 1; reflexivity|]. change (2 ^ 16) with (2 ^ 8 * 2 ^ 8).
    apply newton_step; [exists (2 ^ 16); reflexivity|]. change (2 ^ 8) with (16 * 16). apply newton_step; [exists (2 ^ 24); reflexivity|].
    apply newton_start; assumption. }
  assert (Hxr : digit x) by apply digit_u32. eexists. split; [reflexivity|]. split; [apply digit_u32|]. destruct Hx as (c & Hc).
  unfold digit in Hxr. change (Z.shiftl 1 32) with B. rewrite u64_id by (unfold B in *; lia). change (u32 (B - x)) with ((B - x) mod B).
  pose proof (Z.div_mod (B - x) B ltac:(discriminate)) as E. rewrite Ek. exists (b - b * ((B - x) / B) - c + ((B - x) mod B) * k).
  replace ((B - x) mod B) with (B - x - B * ((B - x) / B)) by lia. lia.
Qed.

(** ** The normalization *)

Lemma set_one a : raw a -> (1 <= alloc a)%nat -> exists r, pstm_set a 1 = Ok r /\ ok r /\ sign r = false /\ mag r = 1 /\ alloc r = alloc a.
Proof.
  intros Ha Hl. unfold pstm_set. cbn [pstm_zero dp sign]. unfold alloc in *. destruct (dp a) as [|d l]; [cbn in Hl; lia|]. cbn [length repeat].
  rewrite store1_ok by (cbn; lia). cbn [rbind upd]. eexists. split; [reflexivity|]. unfold mag, alloc. cbn [dp dvalue length].
  rewrite dvalue_zeros, repeat_length. split; [|auto]. apply ok_of_range.
  - apply mk_raw; [cbn; lia|constructor; [unfold digit, B; lia|apply zero_digits]|apply zeros_repeat].
  - right. unfold mag. cbn [dp used dvalue]. rewrite dvalue_zeros. reflexivity.
  - discriminate.
Qed.

Lemma expt_spec a b : raw a -> (b / 32 + 1 <= alloc a)%nat -> (b / 32 < PSTM_MAX_SIZE)%nat ->
  exists r, pstm_2expt a b = Ok r /\ ok r /\ sign r = false /\ mag r = 2 ^ Z.of_nat b /\ alloc r = alloc a.
Proof.
  intros Ha Hl Hm. unfold pstm_2expt. change DIGIT_BIT with 32%nat. cbn [pstm_zero dp sign]. destruct (Nat.leb_spec PSTM_MAX_SIZE (b / 32)); [lia|].
  unfold alloc. cbn [used dp]. fold (alloc a). rewrite repeat_length. destruct (Nat.ltb_spec (alloc a) (b / 32 + 1)); [lia|]. cbn [used dp sign].
  rewrite store1_ok by (rewrite repeat_length; lia). cbn [rbind]. pose proof (Nat.mod_upper_bound b 32 ltac:(lia)) as Hmod. set (z := (b / 32)%nat) in *.
  assert (Ev : u32 (Z.shiftl 1 (Z.of_nat (b mod 32))) = 2 ^ Z.of_nat (b mod 32)).
  { rewrite Z.shiftl_1_l. apply Z.mod_small. split; [apply Z.pow_nonneg; lia|apply Z.pow_lt_mono_r; lia]. }
  rewrite Ev. set (v := 2 ^ Z.of_nat (b mod 32)) in *. assert (Hv : 1 <= v < B) by (split; [apply (Z.pow_le_mono_r 2 0); lia|apply Z.pow_lt_mono_r; lia]).
  assert (Em : dvalue (upd (repeat 0 (alloc a)) z v) = pB z * v).
  { rewrite dvalue_upd_last, dvalue_zeros, nth_repeat by (rewrite repeat_length; lia). ring. }
  eexists. split; [reflexivity|]. split; [|split; [reflexivity|split; [|unfold alloc; cbn [dp]; rewrite length_upd, repeat_length; reflexivity]]].
  - apply ok_of_range; [|right|cbn; lia].
    + apply mk_raw; [rewrite length_upd, repeat_length; lia|apply Forall_upd; [apply zero_digits|unfold digit; lia]|].
      rewrite skipn_upd by lia. apply Forall_skipn, zeros_repeat.
    + unfold mag. cbn [dp used]. rewrite Em. replace (z + 1 - 1)%nat with z by lia. pose proof (pB_pos z). nia.
  - unfold mag. cbn [dp]. rewrite Em, pB_pow. unfold v. rewrite <- Z.pow_add_r by lia. f_equal. pose proof (Nat.div_mod_eq b 32). lia.
Qed.

(** One doubling modulo [b]. *)
Lemma double_spec a b :
  ok a -> ok b -> sign a = false -> mag a < mag b -> (used b < PSTM_MAX_SIZE - 1)%nat -> (used b + 1 <= alloc a)%nat ->
  returns (fun r => ok r /\ sign r = false /\ mag r = 2 * mag a mod mag b /\ alloc r = alloc a)
    (let! a := failing PS_MEM_FAIL (pstm_mul_2 a a) in
     let! cmp := pstm_cmp_mag a b in
     if negb (cmp =? PSTM_LT) then failing PS_MEM_FAIL (s_pstm_sub a b a) else Ok a).
Proof.
  intros Ha Hb Sa Hlt Hmax Hl. pose proof (used_mono a b Ha (ok_raw b Hb) ltac:(lia)) as Hu. pose proof (raw_range a (ok_raw a Ha)) as R.
  destruct (mul_2_spec a Ha ltac:(lia)) as (c & E & Hc & Em & El & Es). rewrite E. cbn [failing rbind].
  rewrite cmp_mag_spec by assumption. cbn [rbind]. rewrite compare3_lt. destruct (Z.ltb_spec (mag c) (mag b)) as [Hs|Hs]; cbn [negb].
  - apply returns_ok. exists c. split; [reflexivity|]. split; [exact Hc|]. split; [congruence|]. split; [rewrite Z.mod_small by lia; exact Em|lia].
  - apply failing_ok, returns_ok. pose proof (used_mono b c Hb (ok_raw c Hc) Hs) as Hbc. pose proof (raw_range b (ok_raw b Hb)) as Rb.
    assert (Huc : (used c <= used b + 1)%nat) by (apply used_le; [exact Hc|]; rewrite Nat.add_1_r, pB_S; unfold B; lia).
    destruct (s_pstm_sub_spec c b c (ok_raw c Hc) (ok_raw b Hb) (ok_raw c Hc) Hbc Hs (or_introl Huc)) as (r & E' & Hr & Em' & El' & Es').
    exists r. split; [exact E'|]. split; [exact Hr|]. split; [rewrite Es', Es, Sa; destruct (mag r =? 0); reflexivity|]. split; [|lia].
    rewrite Em', Em. rewrite <- (Z.mod_small (2 * mag a - mag b) (mag b)) by lia. replace (2 * mag a - mag b) with (2 * mag a + (-1) * mag b) by ring.
    apply Z.mod_add. lia.
Qed.

Lemma normalization_spec a b :
  raw a -> ok b -> 1 < mag b -> Z.odd (mag b) = true -> (used b < PSTM_MAX_SIZE - 1)%nat -> (used b + 1 <= alloc a)%nat ->
  exists r, pstm_montgomery_calc_normalization a b = Ok r /\ ok r /\ sign r = false /\ mag r = pB (used b) mod mag b /\ alloc r = alloc a.
Proof.
  intros Ha Hb Hb1 Ho Hmax Hl. unfold pstm_montgomery_calc_normalization. destruct (count_bits_spec b Hb) as (n & E & Hn). rewrite E. cbn [rbind]. clear E.
  destruct Hn as [(H0 & _)|(_ & Hn)]; [lia|]. pose proof (Nat.mod_upper_bound n 32 ltac:(lia)) as Hm. change DIGIT_BIT with 32%nat.
  assert (Hub : (0 < used b)%nat) by (destruct (used b) eqn:E; [apply used_mag in E; [lia|exact Hb]|lia]). pose proof (ok_range b Hb Hub) as Hr.
  set (k := if (n mod 32 =? 0)%nat then 32%nat else (n mod 32)%nat).
  assert (Hk : (1 <= k <= 32)%nat /\ exists m, (n + 32 = 32 * m + k)%nat).
  { unfold k. pose proof (Nat.div_mod_eq n 32). destruct (Nat.eqb_spec (n mod 32) 0); (split; [lia|]); [exists (n / 32)%nat|exists (n / 32 + 1)%nat]; lia. }
  destruct Hk as (Hk & m & Em). assert (En : n = ((used b - 1) * 32 + k)%nat).
  { rewrite !pB_pow in Hr. assert (Hlo : 2 ^ (Z.of_nat n - 1) < 2 ^ Z.of_nat (used b * 32)) by lia.
    apply Z.pow_lt_mono_r_iff in Hlo; [|lia|lia]. assert (Hhi : 2 ^ Z.of_nat ((used b - 1) * 32) < 2 ^ Z.of_nat n) by lia.
    apply Z.pow_lt_mono_r_iff in Hhi; [|lia|lia]. lia. }
  assert (Hstart : exists a0 k', (if (1 <? used b)%nat then let! a := pstm_2expt a ((used b - 1) * 32 + k - 1) in Ok (a, k)
                   else let! a := pstm_set a 1 in Ok (a, 1%nat)) = @Ok error _ (a0, k') /\ (1 <= k' <= 32)%nat
                   /\ ok a0 /\ sign a0 = false /\ mag a0 = 2 ^ Z.of_nat ((used b - 1) * 32 + k' - 1) /\ alloc a0 = alloc a /\ mag a0 < mag b).
  { destruct (Nat.ltb_spec 1 (used b)) as [Hu1|Hu1].
    - assert (Hq : (((used b - 1) * 32 + k - 1) / 32 = used b - 1)%nat) by (symmetry; apply (Nat.div_unique _ 32 _ (k - 1)); lia).
      destruct (expt_spec a ((used b - 1) * 32 + k - 1) Ha ltac:(lia) ltac:(lia)) as (r & E & Hr' & Sr & Emr & El). rewrite E. cbn [rbind].
      exists r, k. do 6 (split; [auto|]). rewrite Emr. replace (Z.of_nat _) with (Z.of_nat n - 1) by lia.
      destruct (Z.eq_dec (2 ^ (Z.of_nat n - 1)) (mag b)) as [Eq|]; [|lia]. rewrite <- Eq, Z.odd_pow in Ho by lia. discriminate.
    - destruct (set_one a Ha ltac:(lia)) as (r & E & Hr' & Sr & Emr & El). rewrite E. cbn [rbind]. exists r, 1%nat.
      replace ((used b - 1) * 32 + 1 - 1)%nat with O by lia. do 2 (split; [auto; lia|]). do 4 (split; [auto|]). lia. }
  destruct Hstart as (a0 & k' & E & Hk' & H0 & S0 & Em0 & L0 & Hlt). rewrite E. cbn [rbind]. clear E.
  apply returns_ok. eapply ends_impl.
  - apply (for_up_inv _ (fun i r => ok r /\ sign r = false /\ mag r = 2 ^ Z.of_nat ((used b - 1) * 32 + i) mod mag b /\ alloc r = alloc a)).
    + intros i r Hi (H1 & S1 & Em1 & L1). assert (Hb2 : 0 < mag b) by lia. pose proof (Z.mod_pos_bound (2 ^ Z.of_nat ((used b - 1) * 32 + i)) _ Hb2).
      eapply ends_impl; [apply (double_spec r b); auto; lia|]. intros c (Hc & Sc & Emc & Lc). split; [exact Hc|]. split; [exact Sc|]. split; [|lia].
      rewrite Emc, Em1, Zmult_mod_idemp_r. f_equal. rewrite Nat.add_succ_r, Nat2Z.inj_succ, Z.pow_succ_r by lia. reflexivity.
    + split; [exact H0|]. split; [exact S0|]. split; [|exact L0]. pose proof (raw_range a0 (ok_raw a0 H0)).
      replace ((used b - 1) * 32 + (k' - 1))%nat with ((used b - 1) * 32 + k' - 1)%nat by lia. rewrite <- Em0, Z.mod_small by lia. reflexivity.
  - cbn beta. intros r (H1 & S1 & Em1 & L1). split; [exact H1|]. split; [exact S1|]. split; [|exact L1].
    rewrite Em1, pB_pow. do 2 f_equal. lia.
Qed.

(** ** The reduction *)

Lemma digit_of (l : list Z) x : Forall digit l -> nth x l 0 = dvalue l / pB x mod B.
Proof.
  intros Hl. destruct (Nat.lt_ge_cases x (length l)) as [Hx|Hx].
  - rewrite (dvalue_firstn_skipn x l) by lia. pose proof (low_range l x Hl). pose proof (pB_pos x). rewrite (skipn_cons l x 0 Hx). cbn [dvalue].
    rewrite (Z.mul_comm (pB x)), Z.div_add, Z.div_small, Z.add_0_l by lia. rewrite (Z.mul_comm B), Z.mod_add by discriminate.
    symmetry. apply Z.mod_small, digit_nth, Hl.
  - rewrite nth_overflow by lia. pose proof (dvalue_range l Hl). pose proof (pB_le (length l) x Hx). rewrite Z.div_small by lia. reflexivity.
Qed.

(** [l] holds the value [v] in [n] digits. *)
Definition holds (n : nat) (v : Z) (l : list Z) : Prop := Forall digit l /\ length l = n /\ dvalue l = v.

Lemma prop_carry_spec fuel : forall c i cy n v,
  holds n v c -> digit cy -> (i <= n)%nat -> v + pB i * cy < pB n -> (n - i < fuel)%nat ->
  returns (holds n (v + pB i * cy)) (prop_carry fuel c i cy).
Proof.
  induction fuel as [|fuel IH]; intros c i cy n v (Hd & Hl & Hv) Hcy Hi Hlt Hf; cbn [prop_carry]; [lia|].
  pose proof (dvalue_range c Hd) as Hr. pose proof (pB_pos i) as Hp. unfold digit in Hcy.
  destruct (Z.eqb_spec cy 0) as [->|Hc0]; [rewrite Z.mul_0_r, Z.add_0_r; cbn; repeat split; assumption|].
  assert (Hin : (i < n)%nat) by (destruct (Nat.eq_dec i n) as [->|]; [nia|lia]).
  apply ends_load1 with (d := 0); [lia|]. pose proof (digit_nth c i Hd) as Hn. unfold digit in Hn. apply ends_store1; [lia|].
  change (u32 (nth i c 0 + cy)) with ((nth i c 0 + cy) mod B). pose proof Bpos as HB.
  set (w := nth i c 0 + cy) in *. assert (Hw : w = w mod B + B * b2z (w mod B <? cy) /\ 0 <= b2z (w mod B <? cy) <= 1).
  { pose proof (Z.mod_pos_bound w B HB). pose proof (Z.div_mod w B ltac:(lia)). destruct (Z.ltb_spec (w mod B) cy); cbn [b2z].
    - split; [|lia]. assert (w / B = 1) by (unfold w in *; nia). lia.
    - split; [|lia]. assert (w / B = 0) by (unfold w in *; nia). lia. }
  destruct Hw as (Ew & Hb). set (b := b2z (w mod B <? cy)) in *. set (w' := w mod B) in *.
  assert (Hv' : holds n (v + pB i * (w' - nth i c 0)) (upd c i w')).
  { split; [apply Forall_upd; [exact Hd|apply Z.mod_pos_bound, HB]|]. rewrite length_upd. split; [exact Hl|]. rewrite dvalue_upd_last by lia. lia. }
  assert (Es : v + pB i * cy = v + pB i * (w' - nth i c 0) + pB (S i) * b) by (rewrite pB_S; unfold w in Ew; nia).
  rewrite Es. apply IH; [exact Hv'|unfold digit; lia|lia|lia|lia].
Qed.

Section Montgomery.
Variables (m : pstm_int) (mp : Z).
Let pa := used m.
Let M := mag m.
Hypotheses (Hm : ok m) (HM : 1 < M) (Hmp : digit mp) (Hinv : (B | mp * M + 1)).

(** [c += mu * m * B^x], the carry apart *)
Lemma inner_loop_spec n v c x mu :
  holds n v c -> (x + pa <= n)%nat -> digit mu ->
  returns (fun '(c', cy) => digit cy /\ exists w, holds n w c' /\ w + pB (x + pa) * cy = v + pB x * (mu * M))
    (for_up pa 0
      (fun y '(c, cy) =>
         let! v := load1 c (x + y) in
         let! my := load1 (dp m) y in
         let (v, cy) := INNERMUL v cy mu my in
         let! c := store1 c (x + y) v in
         Ok (c, cy)) (c, 0)).
Proof.
  intros Hc Hx Hmu. pose proof (ok_raw m Hm) as Hrm. pose proof (proj1 Hrm) as Hla. unfold alloc in Hla. eapply ends_impl.
  - apply (for_up_inv _ (fun y '(c', cy) => digit cy /\ exists w, holds n w c' /\ w + pB (x + y) * cy = v + pB x * (mu * dvalue (firstn y (dp m))))).
    + intros y (c' & cy) Hy (Hcy & w & (Hd & Hl & Hw) & E). cbn [Nat.add] in Hy. apply ends_load1 with (d := 0); [lia|].
      apply ends_load1 with (d := 0); [unfold pa in *; lia|]. unfold INNERMUL.
      pose proof (digit_nth c' (x + y) Hd) as D1. pose proof (digit_nth (dp m) y (proj1 (proj2 Hrm))) as D2. unfold digit in *. pose proof Bpos as HB.
      set (d := nth (x + y) c' 0) in *. set (e := nth y (dp m) 0) in *. assert (He : 0 <= mu * e <= (B - 1) * (B - 1)) by (split; [nia|apply Z.mul_le_mono_nonneg; lia]).
      rewrite (u64_id (d + cy)), (u64_id (mu * e)), u64_id by nia. set (t := d + cy + mu * e). assert (Ht : 0 <= t < B * B) by (unfold t; nia).
      apply ends_store1; [lia|]. apply ends_ok. split; [apply word_carry, Ht|]. eexists. split.
      * split; [apply Forall_upd; [exact Hd|apply digit_u32]|]. rewrite length_upd. split; [exact Hl|]. apply dvalue_upd_last. lia.
      * fold d. rewrite dvalue_firstn_S, Nat.add_succ_r, pB_S, !pB_add. rewrite pB_add in E. fold e. pose proof (word_split t (proj1 Ht)) as Es.
        replace (dvalue c' + pB x * pB y * (u32 t - d) + B * (pB x * pB y) * Z.shiftr t 32) with (dvalue c' + pB x * pB y * (u32 t + B * Z.shiftr t 32 - d)) by ring.
        rewrite Es, Hw. unfold t. replace (pB x * (mu * (dvalue (firstn y (dp m)) + pB y * e))) with (pB x * (mu * dvalue (firstn y (dp m))) + pB x * pB y * (mu * e)) by ring.
        lia.
    + split; [unfold digit, B; lia|]. exists v. split; [exact Hc|]. cbn [firstn dvalue]. ring.
  - intros (c' & cy) (Hcy & w & Hw & E). split; [exact Hcy|]. exists w. split; [exact Hw|]. cbn [Nat.add] in E.
    unfold pa in E at 2. rewrite <- raw_mag in E by exact Hrm. exact E.
Qed.

(** A round makes the digit [x] zero. *)
Lemma round_spec n A k c x :
  holds n (A + k * M) c -> 0 <= k < pB x -> (pB x | A + k * M) -> A + M * pB (S x) <= pB n -> 0 <= A -> (x + pa < n)%nat ->
  returns (fun c' => exists k', holds n (A + k' * M) c' /\ 0 <= k' < pB (S x) /\ (pB (S x) | A + k' * M)) (mont_round m mp pa x c).
Proof.
  intros Hc Hk (w & Ew) Hlt HA Hx. pose proof Hc as (Hd & Hl & Hv). pose proof (pB_pos x) as Hp. pose proof Bpos as HB. unfold mont_round. apply ends_load1 with (d := 0); [lia|].
  rewrite (digit_of c x Hd), Hv, Ew, Z.div_mul by lia. set (mu := u32 (w mod B * mp)). assert (Hmu : digit mu) by apply digit_u32. unfold digit in Hmu.
  eapply returns_bind; [apply (inner_loop_spec n _ c x mu Hc); [lia|exact Hmu]|]. intros (c' & cy) (Hcy & w' & Hc' & E). cbv beta iota.
  assert (Ek : A + k * M + pB x * (mu * M) = A + (k + pB x * mu) * M) by ring.
  assert (Hk' : 0 <= k + pB x * mu < pB (S x)) by (rewrite pB_S; nia).
  replace (S (length c')) with (S n) by (destruct Hc' as (_ & El & _); congruence).
  eapply ends_impl; [apply (prop_carry_spec (S n) c' (x + pa) cy n w' Hc' Hcy); [lia| |lia]|].
  - rewrite E, Ek. nia.
  - cbn beta. intros c2 H2. exists (k + pB x * mu). rewrite E, Ek in H2. split; [exact H2|]. split; [exact Hk'|].
    destruct Hinv as (j & Hj). assert (Hz : (B | w + mu * M)).
    { unfold mu. change (u32 (w mod B * mp)) with ((w mod B * mp) mod B). pose proof (Z.div_mod w B ltac:(lia)). pose proof (Z.div_mod (w mod B * mp) B ltac:(lia)).
      exists (w / B + w mod B * j - w mod B * mp / B * M).
      replace (w mod B * mp mod B) with (w mod B * mp - B * (w mod B * mp / B)) by lia. rewrite H at 1. rewrite !Z.mul_sub_distr_r, Z.mul_add_distr_r.
      replace (w mod B * j * B) with (w mod B * (j * B)) by ring. rewrite <- Hj. ring. }
    destruct Hz as (z & Hz). exists z. rewrite pB_S. transitivity (pB x * (w + mu * M)); [|rewrite Hz; ring]. lia.
Qed.

Lemma rounds_spec n A c :
  holds n A c -> 0 <= A -> A + M * pB pa <= pB n -> (2 * pa < n)%nat ->
  returns (fun c' => exists k, holds n (A + k * M) c' /\ 0 <= k < pB pa /\ (pB pa | A + k * M)) (for_up pa 0 (mont_round m mp pa) c).
Proof.
  intros Hc HA Hlt Hn.
  apply (for_up_inv _ (fun x c' => exists k, holds n (A + k * M) c' /\ 0 <= k < pB x /\ (pB x | A + k * M))).
  - intros x c' Hx (k & H1 & H2 & H3). apply round_spec with (k := k); auto; try lia. pose proof (pB_le (S x) pa ltac:(lia)). nia.
  - exists 0. rewrite Z.mul_0_l, Z.add_0_r, pB_0. split; [exact Hc|]. split; [lia|]. apply Z.divide_1_l.
Qed.

(** The array after the input is copied to it. *)
Lemma mont_input a n :
  ok a -> (used a <= n)%nat ->
  returns (holds n (mag a)) (for_up (used a) 0 (fun x c => let! v := load1 (dp a) x in store1 c x v) (repeat 0 n)).
Proof.
  intros Ha Hn. pose proof (ok_raw a Ha) as Hr. pose proof (proj1 Hr) as Hla. unfold alloc in Hla. apply returns_ok.
  pose proof (copy_up (dp a) 0 (used a) 0 (repeat 0 n)) as E. cbn [Nat.add] in E. rewrite repeat_length in E. specialize (E Hn Hla).
  eexists. split; [exact E|]. unfold blit, slice. cbn [firstn skipn app Nat.add]. rewrite length_firstn, Nat.min_l by exact Hla. split; [|split].
  - apply Forall_app. split; [apply Forall_firstn, Hr|apply Forall_skipn, zero_digits].
  - rewrite length_app, length_firstn, length_skipn, repeat_length. lia.
  - rewrite dvalue_app, <- raw_mag by exact Hr. rewrite zeros_dvalue by apply Forall_skipn, zeros_repeat. ring.
Qed.

(** The upper half of the array, as the new digits of [a]. *)
Lemma mont_output a c n q :
  ok a -> sign a = false -> holds n (q * pB pa) c -> q < pB (S pa) -> (2 * pa < n)%nat -> (pa + 1 <= alloc a)%nat ->
  returns (fun r => ok r /\ sign r = false /\ mag r = q /\ alloc r = alloc a)
   (let! d := for_up (pa + 1) 0 (fun x d => let! v := load1 c (pa + x) in store1 d x v) (dp a) in
    let! d := clear_digits d (pa + 1) (used a) in pstm_clamp (mk_pstm (pa + 1) (sign a) d)).
Proof.
  intros Ha Sa (Hd & Hl & Hv) Hq Hn Hla. unfold alloc in *. pose proof (ok_raw a Ha) as Hra. apply returns_ok.
  pose proof (copy_up c pa (pa + 1) 0 (dp a) ltac:(lia) ltac:(lia)) as E. cbn [Nat.add] in E. rewrite E. cbn [rbind]. clear E. rewrite Nat.add_0_r.
  unfold blit. cbn [firstn app Nat.add]. set (out := slice pa (pa + 1) c).
  assert (Lo : length out = (pa + 1)%nat) by (unfold out, slice; rewrite length_firstn, length_skipn; lia).
  assert (Do : Forall digit out) by (apply Forall_firstn, Forall_skipn, Hd).
  assert (Vo : dvalue out = q).
  { pose proof (pB_pos pa). pose proof (low_range c pa Hd) as R. rewrite (dvalue_firstn_skipn pa c) in Hv by lia.
    assert (R0 : dvalue (firstn pa c) = 0).
    { assert (Ez : dvalue (firstn pa c) = (q - dvalue (skipn pa c)) * pB pa) by lia.
      rewrite <- (Z.mod_small (dvalue (firstn pa c)) (pB pa)) by exact R. rewrite Ez. apply Z.mod_mul. lia. }
    assert (Eq : dvalue (skipn pa c) = q) by nia. unfold out, slice. rewrite <- Eq, Nat.add_1_r. apply below_digits; [apply Forall_skipn, Hd|lia]. }
  rewrite <- Lo. rewrite Sa. destruct (finish_spec out (skipn (length out) (dp a)) (used a) false) as (r & E & Hr & Em & El & Es);
    [exact Do|apply rest_zeros, Hra|apply Forall_skipn, Hra|rewrite length_skipn; pose proof (proj1 Hra); unfold alloc in *; lia|].
  exists r. split; [exact E|]. split; [exact Hr|]. split; [rewrite Es; destruct (dvalue out =? 0); reflexivity|]. split; [congruence|].
  unfold alloc in El. rewrite El, length_skipn. lia.
Qed.

Lemma mont_reduce_spec a pad :
  ok a -> sign a = false -> mag a < M * pB pa -> (pa + 1 <= alloc a)%nat -> (2 * pa + 1 <= pad / 4)%nat ->
  returns (fun r => ok r /\ sign r = false /\ 0 <= mag r < M /\ (M | mag r * pB pa - mag a) /\ alloc r = alloc a)
    (pstm_montgomery_reduce a m mp pad).
Proof.
  intros Ha Sa Hlt Hla Hpad. pose proof (raw_range a (ok_raw a Ha)) as HA. pose proof (raw_range m (ok_raw m Hm)) as HR. fold M pa in HR. pose proof Bpos as HB.
  pose proof (pB_pos pa) as Hp. assert (Hn : M * pB pa < pB (2 * pa)) by (replace (2 * pa)%nat with (pa + pa)%nat by lia; rewrite pB_add; nia).
  assert (Hua : (used a <= 2 * pa)%nat) by (apply used_le; [exact Ha|lia]).
  unfold pstm_montgomery_reduce. cbv zeta. fold pa. destruct (Nat.ltb_spec (alloc a) pa); [lia|]. unfold mont_array.
  destruct (Nat.leb_spec (2 * pa + 1) pad) as [_|Hs]; [|pose proof (Nat.Div0.div_le_mono pad (2 * pa) 4 ltac:(lia)); pose proof (Nat.Div0.div_le_upper_bound (2 * pa) 4 (2 * pa) ltac:(lia)); lia].
  set (n := (pad / 4)%nat) in *. pose proof (pB_le (2 * pa + 1) n Hpad) as Hpn. rewrite Nat.add_1_r, pB_S in Hpn.
  eapply returns_bind; [apply (mont_input a n Ha); lia|]. intros c Hc.
  eapply returns_bind; [apply (rounds_spec n (mag a) c Hc); [lia|unfold B in *; lia|lia]|]. intros c' (k & Hc' & Hk & (q & Eq)).
  assert (Hq : 0 <= q < 2 * M) by nia. rewrite Eq in Hc'.
  pose proof (mont_output a c' n q Ha Sa Hc' ltac:(rewrite pB_S; unfold B in *; lia) ltac:(lia) Hla) as Hout. apply returns_ok in Hout. destruct Hout as (r & E & Hr & Sr & Em & El).
  destruct (for_up (pa + 1) 0 _ (dp a)) as [d| | |]; try discriminate. cbn [rbind] in *.
  destruct (clear_digits d (pa + 1) (used a)) as [d'| | |]; try discriminate. cbn [rbind] in *. rewrite E. cbn [rbind].
  rewrite cmp_mag_spec by assumption. cbn [rbind]. rewrite compare3_lt. fold M. rewrite Em. destruct (Z.ltb_spec q M) as [Hs|Hs]; cbn [negb].
  - apply ends_ok. rewrite Em. split; [exact Hr|]. split; [exact Sr|]. split; [lia|]. split; [exists k; lia|exact El].
  - apply failing_ok, returns_ok. pose proof (used_mono m r Hm (ok_raw r Hr) ltac:(fold M; lia)) as Hmr.
    assert (Hur : (used r <= used m + 1)%nat) by (apply used_le; [exact Hr|]; fold pa; rewrite Nat.add_1_r, pB_S; unfold B in *; lia).
    destruct (s_pstm_sub_spec r m r (ok_raw r Hr) (ok_raw m Hm) (ok_raw r Hr) Hmr ltac:(fold M; lia) (or_introl Hur)) as (r' & E' & Hr' & Em' & El' & Es').
    fold M in Em'. rewrite Em in Em'. exists r'. split; [exact E'|]. split; [exact Hr'|]. split; [rewrite Es', Sr; destruct (mag r' =? 0); reflexivity|].
    split; [lia|]. split; [|lia]. exists (k - pB pa). rewrite Em'. lia.
Qed.
End Montgomery.

(** ** An array that is too short *)

(** A fault, or a result that satisfies [P]. *)
Definition faults_or {A} (P : A -> Prop) (m : result A) : Prop := match m with Ok a => P a | Fault => True | _ => False end.

Lemma faults_or_bind {A C} (P : A -> Prop) (Q : C -> Prop) (m : result A) (f : A -> result C) :
  faults_or P m -> (forall a, P a -> faults_or Q (f a)) -> faults_or Q (rbind m f).
Proof. destruct m; cbn; auto. Qed.

Lemma faults_or_load1 {A C} (Q : C -> Prop) (l : list A) i (f : A -> result C) : (forall a, faults_or Q (f a)) -> faults_or Q (rbind (load1 l i) f).
Proof. intros H. unfold load1. destruct (nth_error l i); cbn; auto. Qed.

Lemma faults_or_store1 {A C} (Q : C -> Prop) (l : list A) i a (f : list A -> result C) :
  faults_or Q (f (upd l i a)) -> faults_or Q (rbind (store1 l i a) f).
Proof. intros H. unfold store1. destruct (i <? length l)%nat; cbn; auto. Qed.

Lemma faults_or_for_up {T} (P : T -> Prop) n a (body : nat -> T -> result T) s :
  P s -> (forall i s, P s -> faults_or P (body i s)) -> faults_or P (for_up n a body s).
Proof.
  intros Hs Hb. revert a s Hs; induction n as [|n IH]; intros a s Hs; cbn [for_up]; [exact Hs|].
  eapply faults_or_bind; [apply Hb, Hs|]. intros s' Hs'. apply IH, Hs'.
Qed.

Lemma prop_carry_faults fuel : forall c i cy,
  (0 < fuel)%nat -> (length c < i + fuel)%nat -> faults_or (fun c' => length c' = length c) (prop_carry fuel c i cy).
Proof.
  induction fuel as [|fuel IH]; intros c i cy H0 H; [lia|]. cbn [prop_carry]. destruct (cy =? 0); [reflexivity|].
  unfold load1. destruct (nth_error c i) as [v|] eqn:Ei; [|exact I]. cbn [rbind]. assert (Hi : (i < length c)%nat) by (apply nth_error_Some; congruence).
  apply faults_or_store1. specialize (IH (upd c i (u32 (v + cy))) (S i) (b2z (u32 (v + cy) <? cy))). rewrite length_upd in IH. apply IH; lia.
Qed.

Lemma mont_round_faults m mp pa x c : faults_or (fun c' => length c' = length c) (mont_round m mp pa x c).
Proof.
  unfold mont_round. apply faults_or_load1. intros cx.
  apply faults_or_bind with (P := fun s : list Z * Z => length (fst s) = length c).
  - apply faults_or_for_up; [reflexivity|]. intros y (c' & cy) Hc. cbn [fst] in Hc. apply faults_or_load1. intros v. apply faults_or_load1. intros my.
    unfold INNERMUL. apply faults_or_store1. cbn. rewrite length_upd. exact Hc.
  - intros (c' & cy) Hc. cbn [fst] in Hc. rewrite <- Hc. apply prop_carry_faults; lia.
Qed.

(** The copy out of the array reads [2*pa+1] digits of it. *)
Lemma mont_copy_faults {C} (c : list Z) pa n a d (f : list Z -> result C) :
  (length c <= pa + a + n)%nat ->
  rbind (for_up (n + 1) a (fun x d => let! v := load1 c (pa + x) in store1 d x v) d) f = Fault.
Proof.
  revert a d; induction n as [|n IH]; intros a d Hc; cbn [for_up Nat.add]; unfold load1 at 1.
  - rewrite (proj2 (nth_error_None c (pa + a))) by lia. reflexivity.
  - destruct (nth_error c (pa + a)); [|reflexivity]. cbn [rbind]. unfold store1 at 1. destruct (a <? length d)%nat; [|reflexivity]. cbn [rbind].
    apply IH. lia.
Qed.

Lemma mont_reduce_faults a m mp pad :
  (used m <= alloc a)%nat -> (length (mont_array pad (used m)) <= 2 * used m)%nat -> pstm_montgomery_reduce a m mp pad = Fault.
Proof.
  intros Ha Hl. unfold pstm_montgomery_reduce. cbv zeta. destruct (Nat.ltb_spec (alloc a) (used m)); [lia|]. set (c0 := mont_array pad (used m)) in *.
  match goal with |- rbind ?w _ = _ => assert (H1 : faults_or (fun c => length c = length c0) w) end.
  { apply faults_or_for_up; [reflexivity|]. intros i c Hc. apply faults_or_load1. intros v. unfold store1.
    destruct (i <? length c)%nat; cbn; [rewrite length_upd; exact Hc|exact I]. }
  destruct (for_up (used a) 0 _ c0) as [c1| | |]; cbn in H1; try contradiction; [|reflexivity]. cbn [rbind].
  match goal with |- rbind ?w _ = _ => assert (H2 : faults_or (fun c => length c = length c0) w) end.
  { apply faults_or_for_up; [exact H1|]. intros i c Hc. rewrite <- Hc. apply mont_round_faults. }
  destruct (for_up (used m) 0 _ c1) as [c2| | |]; cbn in H2; try contradiction; [|reflexivity]. cbn [rbind].
  apply mont_copy_faults; lia.
Qed.

(** Montgomery reduction: for an odd [m > 1] the constant of
    [pstm_montgomery_setup] is found, and with it [pstm_montgomery_reduce]
    returns the [r < m] with [r R = a (mod m)], [R = B^(used m)], for every
    [a < m R] with room for one digit more than [m], when the caller's array
    has the [2*pa+1] digits that are used. *)
Theorem pstm_montgomery_correct m :
  ok m -> Z.odd (mag m) = true -> 1 < mag m ->
  exists mp, pstm_montgomery_setup m = Ok mp
    /\ forall a pad, ok a -> sign a = false -> mag a < mag m * pB (used m) -> (used m + 1 <= alloc a)%nat -> (2 * used m + 1 <= pad / 4)%nat ->
       exists r, pstm_montgomery_reduce a m mp pad = Ok r /\ ok r /\ 0 <= sval r < mag m /\ (sval r * pB (used m)) mod mag m = mag a mod mag m.
Proof.
  intros Hm Ho HM. assert (Hu : (0 < used m)%nat) by (destruct (used m) eqn:E; [apply used_mag in E; [lia|exact Hm]|lia]).
  destruct (setup_spec m (ok_raw m Hm) Hu Ho) as (mp & E & Hmp & Hinv). exists mp. split; [exact E|]. intros a pad Ha Sa Hlt Hla Hpad.
  pose proof (mont_reduce_spec m mp Hm HM Hinv a pad Ha Sa Hlt Hla Hpad) as Hr. apply returns_ok in Hr. destruct Hr as (r & Er & Hr & Sr & Hrange & (k & Hk) & _).
  exists r. unfold sval. rewrite Sr. split; [exact Er|]. split; [exact Hr|]. split; [exact Hrange|].
  replace (mag r * pB (used m)) with (mag a + k * mag m) by lia. apply Z.mod_add. lia.
Qed.

Lemma pstm_montgomery_correct_witness :
  let m := num 2 (2 ^ 40 + 15) in let a := mk_pstm 3 false (digits 5 (2 ^ 70 + 1)) in
  exists mp, pstm_montgomery_setup m = Ok mp /\ exists r, pstm_montgomery_reduce a m mp 20 = Ok r /\ 0 <= sval r < mag m.
Proof.
  intros m a. destruct (pstm_montgomery_correct m) as (mp & E & H); [apply ok_b_ok; reflexivity|reflexivity|reflexivity|].
  exists mp. split; [exact E|]. destruct (H a 20%nat) as (r & Er & _ & Hr & _); [apply ok_b_ok; reflexivity|reflexivity|vm_compute; reflexivity|vm_compute; lia|vm_compute; lia|].
  exists r. split; [exact Er|exact Hr].
Defined.
End PstmR.
