(* ===== verification/PstmExp.v ===== *)
(** * Multiple-precision integers: modular exponentiation

    [pstm_exptmod] of networking/tls_pstm.c computes [G^X mod P] with a sliding
    window over the bits of [X], in Montgomery form; and the case where the
    array it hands to [pstm_montgomery_reduce] is too short. *)

From Stdlib Require Import ZArith List Lia Bool Znumtheory.
From S2P Require Import Prelude Words Mem Pstm PstmVal PstmOps PstmMul PstmDiv PstmMont.
Import ListNotations.
Local Open Scope Z_scope.
Local Open Scope res_scope.

Module PstmE.
Import Pstm PstmV PstmO PstmM PstmD PstmR.

(** ** Arithmetic *)

Lemma odd_cancel P n x : Z.odd P = true -> (P | 2 ^ Z.of_nat n * x) -> (P | x).
Proof.
  intros Ho. induction n as [|n IH]; intros H; [rewrite Z.mul_1_l in H; exact H|]. apply IH. rewrite Nat2Z.inj_succ, Z.pow_succ_r, <- Z.mul_assoc in H by lia.
  apply Z.gauss in H; [exact H|]. apply Z.bezout_1_gcd. exists 1, (- (P / 2)). pose proof (Zmod_odd P) as E. rewrite Ho in E. pose proof (Z.div_mod P 2 ltac:(lia)). lia.
Qed.

Lemma divide_mod P a b : 0 < P -> (P | a - b) -> a mod P = b mod P.
Proof. intros HP (k & Hk). replace a with (b + k * P) by lia. apply Z.mod_add. lia. Qed.

Lemma mod_divide P a : 0 < P -> (P | a mod P - a).
Proof. intros HP. exists (- (a / P)). pose proof (Z.div_mod a P ltac:(lia)). lia. Qed.

Lemma land_pow2 a k : 0 <= k -> Z.land a (2 ^ k) = a / 2 ^ k mod 2 * 2 ^ k.
Proof.
  intros Hk. rewrite <- Z.testbit_spec' by exact Hk. apply Z.bits_inj'. intros i Hi. rewrite Z.land_spec, Z.pow2_bits_eqb by exact Hk.
  destruct (Z.eqb_spec k i) as [->|Hne]; [rewrite Bool.andb_true_r|rewrite Bool.andb_false_r]; destruct (Z.testbit a _);
    cbn [Z.b2z]; rewrite ?Z.mul_1_l, ?Z.mul_0_l, ?Z.bits_0, ?Z.pow2_bits_eqb, ?Z.eqb_refl by lia; try reflexivity.
  symmetry. apply Z.eqb_neq. exact Hne.
Qed.

Section Powers.
Variables (P : pstm_int) (mp : Z) (pad : nat) (g : Z).
Let pa := used P.
Let N := mag P.
Let R := pB pa.
Hypotheses (HP : ok P) (HN : 1 < N) (Hodd : Z.odd N = true) (Hinv : (B | mp * N + 1)).
Hypotheses (Hmax : (pa < PSTM_MAX_SIZE)%nat) (Hpad : (2 * pa + 1 <= pad / 4)%nat).

(** [r] is [g^e], in Montgomery form; with room for a reduction. *)
Definition value (e : Z) (r : pstm_int) : Prop := ok r /\ sign r = false /\ mag r = (g ^ e * R) mod N.
Definition power (e : Z) (r : pstm_int) : Prop := value e r /\ (pa + 1 <= alloc r)%nat.

Lemma cancel_R x y : (N | x * R - y * R) -> x mod N = y mod N.
Proof.
  intros H. apply divide_mod; [lia|]. apply (odd_cancel N (pa * 32)); [exact Hodd|]. rewrite <- pB_pow. fold R.
  replace (R * (x - y)) with (x * R - y * R) by ring. exact H.
Qed.

(** The reduction of a product of two numbers in Montgomery form. *)
Lemma reduce_product e f c :
  0 <= e -> 0 <= f -> ok c -> sign c = false -> mag c = (g ^ e * R) mod N * ((g ^ f * R) mod N) -> (pa + 1 <= alloc c)%nat ->
  returns (power (e + f)) (pstm_montgomery_reduce c P mp pad).
Proof.
  intros He Hf Hc Sc Em Hl. pose proof (raw_range P (ok_raw P HP)) as HR. fold N pa R in HR.
  pose proof (Z.mod_pos_bound (g ^ e * R) N ltac:(lia)) as B1. pose proof (Z.mod_pos_bound (g ^ f * R) N ltac:(lia)) as B2.
  eapply ends_impl; [apply (mont_reduce_spec P mp HP HN Hinv c pad Hc Sc); [|exact Hl|exact Hpad]|].
  - fold N pa R. rewrite Em. nia.
  - cbn beta. fold N pa R. intros r (Hr & Sr & Hrange & Hd & El). split; [|rewrite El; exact Hl]. split; [exact Hr|]. split; [exact Sr|].
    rewrite <- (Z.mod_small (mag r) N) by exact Hrange. apply cancel_R. rewrite Em in Hd. rewrite Z.pow_add_r by assumption.
    set (u := g ^ e * R) in *. set (v := g ^ f * R) in *. replace (mag r * R - g ^ e * g ^ f * R * R) with (mag r * R - (u mod N) * (v mod N) + (u mod N * (v mod N) - u * v)) by (unfold u, v; ring).
    apply Z.divide_add_r; [exact Hd|]. destruct (mod_divide N u ltac:(lia)) as (i & Hi). destruct (mod_divide N v ltac:(lia)) as (j & Hj).
    exists (i * (v mod N) + u * j). replace (u mod N) with (u + i * N) by lia. replace (v mod N) with (v + j * N) by lia. ring.
Qed.

Lemma value_small e r : value e r -> small r.
Proof.
  intros (Hr & _ & Em). pose proof (raw_range P (ok_raw P HP)) as HR. fold N pa R in HR. pose proof (Z.mod_pos_bound (g ^ e * R) N ltac:(lia)).
  assert (used r <= pa)%nat by (apply used_le; [exact Hr|]; fold R; lia). unfold small, B. unfold PSTM_MAX_SIZE in Hmax. lia.
Qed.

Lemma mont_square_spec e r : 0 <= e -> power e r -> returns (power (2 * e)) (square P mp pad r).
Proof.
  intros He (Hv & Hl). pose proof (value_small e r Hv) as Hs. destruct Hv as (Hr & Sr & Em). unfold square.
  destruct (sqr_comba_spec r r (Some pad) (ok_raw r Hr) (ok_raw r Hr) Hs) as (c & E & Hc & Emc & El & Es). rewrite E. cbn [rbind].
  replace (2 * e) with (e + e) by ring. apply reduce_product; auto; [rewrite Es, Sr; destruct (mag c =? 0); reflexivity|rewrite Emc, Em; reflexivity|lia].
Qed.

Lemma squares_spec n : forall e r, 0 <= e -> power e r -> returns (power (2 ^ Z.of_nat n * e)) (squares P mp pad n r).
Proof.
  induction n as [|n IH]; intros e r He Hr; cbn [squares]; [rewrite Z.mul_1_l; exact Hr|].
  eapply returns_bind; [apply mont_square_spec; eassumption|]. intros r' Hr'.
  replace (2 ^ Z.of_nat (S n) * e) with (2 ^ Z.of_nat n * (2 * e)) by (rewrite Nat2Z.inj_succ, Z.pow_succ_r by lia; ring). apply IH; [lia|exact Hr'].
Qed.

Lemma product_spec e f a b c :
  0 <= e -> 0 <= f -> value e a -> value f b -> raw c -> (pa + 1 <= alloc c)%nat -> returns (power (e + f)) (product P mp pad a b c).
Proof.
  intros He Hf Ha Hb Hc Hl. pose proof (value_small e a Ha) as Hs. destruct Ha as (Ha & Sa & Ema). destruct Hb as (Hb & Sb & Emb). unfold product.
  destruct (mul_comba_spec a b c (Some pad) (ok_raw a Ha) (ok_raw b Hb) Hc Hs) as (r & E & Hr & Em & El & Es). rewrite E. cbn [rbind].
  apply reduce_product; auto; [rewrite Es, Sa, Sb; destruct (mag r =? 0); reflexivity|rewrite Em, Ema, Emb; reflexivity|lia].
Qed.

(** ** The table *)

Variables (w : nat) (M1 : pstm_int).
Hypotheses (Hw : (2 <= w <= 5)%nat) (HM1 : value 1 M1) (Hu1 : (pa <= used M1 + 2)%nat).
Let half := (2 ^ (w - 1))%nat.

Lemma half_facts : (2 <= half <= 16)%nat /\ Z.of_nat half = 2 ^ Z.of_nat (w - 1) /\ (2 ^ w = 2 * half)%nat.
Proof.
  unfold half. split; [|split; [rewrite Nat2Z.inj_pow; reflexivity|destruct w as [|w']; [lia|]; rewrite Nat.sub_succ, Nat.sub_0_r; reflexivity]].
  split; [apply (Nat.pow_le_mono_r 2 1); lia|apply (Nat.pow_le_mono_r 2 _ 4); lia].
Qed.

Definition entry (M : list (option pstm_int)) (x : nat) (Q : pstm_int -> Prop) : Prop := exists a, nth_error M x = Some (Some a) /\ Q a.

Definition table (M : list (option pstm_int)) : Prop :=
  entry M 1 (value 1) /\ forall x, (half <= x < 2 * half)%nat -> entry M x (power (Z.of_nat x)).

Lemma load_entry {C} M x Q (f : pstm_int -> result C) (T : C -> Prop) :
  entry M x Q -> (forall a, Q a -> returns T (f a)) -> returns T (rbind (load_M M x) f).
Proof. intros (a & E & Ha) Hf. unfold load_M, load1. rewrite E. cbn [rbind]. apply Hf, Ha. Qed.

Lemma entry_same M x a Q : (x < length M)%nat -> Q a -> entry (upd M x (Some a)) x Q.
Proof. intros Hx Ha. exists a. split; [|exact Ha]. rewrite (nth_error_nth' _ None) by (rewrite length_upd; exact Hx). rewrite nth_upd_eq by exact Hx. reflexivity. Qed.

Lemma entry_other M x y a Q : x <> y -> entry M y Q -> entry (upd M x (Some a)) y Q.
Proof.
  intros Hne (b & E & Hb). exists b. split; [|exact Hb]. assert (Hy : (y < length M)%nat) by (apply nth_error_Some; congruence).
  rewrite (nth_error_nth' _ None) by (rewrite length_upd; exact Hy). rewrite nth_upd_ne by lia. rewrite (nth_error_nth' _ None Hy) in E. exact E.
Qed.

Definition roomy (a : pstm_int) : Prop := raw a /\ (pa + 1 <= alloc a)%nat.

(** The table while it is filled: powers below [i], empty numbers from [i] to [j]. *)
Definition filling (i j : nat) (M : list (option pstm_int)) : Prop :=
  length M = 32%nat /\ entry M 1 (value 1) /\ (forall x, (half <= x < i)%nat -> entry M x (power (Z.of_nat x)))
  /\ forall x, (i <= x < j)%nat -> entry M x roomy.

Lemma start_spec : returns (power (2 ^ Z.of_nat (w - 1))) (let! a := failing PS_MEM_FAIL (pstm_init_copy M1 true) in squares P mp pad (w - 1) a).
Proof.
  destruct HM1 as (H1 & S1 & Em1). unfold pstm_init_copy. cbn [andb]. match goal with |- context [pstm_init_size ?n] => set (x := n) end.
  assert (Hx : (2 * used M1 + 3 <= x)%nat) by (unfold x; destruct (Nat.leb_spec (alloc M1) (used M1 * 2 + 2)); lia).
  destruct (pstm_copy_ok M1 (pstm_init_size x) H1 (ok_raw _ (init_size_ok _))) as (a & E & Ha & Eu & Es & Em & El). rewrite E. cbn [failing rbind].
  pose proof (alloc_init x) as Ex.
  rewrite <- (Z.mul_1_r (2 ^ _)). apply squares_spec; [lia|]. split; [|lia]. split; [exact Ha|]. split; congruence.
Qed.

Lemma fill_table_spec : returns table (fill_table P mp pad w M1).
Proof.
  destruct half_facts as (Hh & Eh & _). unfold fill_table. fold half. pose proof start_spec as Hs. apply returns_ok in Hs. destruct Hs as (a & E & Ha).
  destruct (failing PS_MEM_FAIL (pstm_init_copy M1 true)) as [a0| | |]; try discriminate. cbn [rbind] in *. rewrite E. cbn [rbind].
  set (M0 := upd (repeat None 32) 1 (Some M1)). assert (L0 : length M0 = 32%nat) by (unfold M0; rewrite length_upd, repeat_length; reflexivity).
  apply ends_store1; [lia|]. rewrite <- Eh in Ha.
  apply returns_bind with (P := filling (half + 1) (half + 1 + (half - 1))).
  - apply (for_up_inv _ (filling (half + 1))).
    + intros i M Hi (HL & H1 & H2 & H3). unfold store1. destruct (Nat.ltb_spec i (length M)); [|lia]. apply ends_ok. split; [rewrite length_upd; exact HL|].
      split; [apply entry_other; [lia|exact H1]|]. split; [intros x Hx; apply entry_other; [lia|apply H2; lia]|]. intros x Hx.
      destruct (Nat.eq_dec x i) as [->|]; [|apply entry_other; [lia|apply H3; lia]]. apply entry_same; [lia|].
      split; [apply ok_raw, init_size_ok|]. rewrite alloc_init. destruct Ha as (_ & Hla). lia.
    + split; [rewrite length_upd; exact L0|]. split; [apply entry_other; [lia|]; apply entry_same; [rewrite repeat_length; lia|exact HM1]|].
      split; [|intros; lia]. intros x Hx. replace x with half by lia. apply entry_same; [lia|exact Ha].
  - intros M HM. eapply ends_impl; [apply (for_up_inv _ (fun i => filling i (half + 1 + (half - 1)))); [|exact HM]|].
    + intros i M' Hi (HL & H1 & H2 & H3). apply (load_entry _ _ (power (Z.of_nat (i - 1)))); [apply H2; lia|]. intros p (Hp & _).
      apply (load_entry _ _ (value 1)); [exact H1|]. intros m1 Hm1. apply (load_entry _ _ roomy); [apply H3; lia|]. intros old (Ho & Hlo).
      eapply returns_bind; [apply (product_spec (Z.of_nat (i - 1)) 1 p m1 old); [lia|lia|exact Hp|exact Hm1|exact Ho|exact Hlo]|]. intros m Hm.
      replace (Z.of_nat (i - 1) + 1) with (Z.of_nat i) in Hm by lia. unfold store1. destruct (Nat.ltb_spec i (length M')); [|lia]. apply ends_ok.
      split; [rewrite length_upd; exact HL|]. split; [apply entry_other; [lia|exact H1]|].
      split; [|intros x Hx; apply entry_other; [lia|apply H3; lia]]. intros x Hx.
      destruct (Nat.eq_dec x i) as [->|]; [apply entry_same; [lia|exact Hm]|apply entry_other; [lia|apply H2; lia]].
    + cbn beta. intros M' (_ & H1 & H2 & _). split; [exact H1|]. intros x Hx. apply H2. lia.
Qed.

(** ** The window *)

(** The state after the exponent [e] was read: [e0] is done, the bits [b] are
    in the window. *)
Definition window_ok (e : Z) (s : window) : Prop :=
  exists e0 b, power e0 (acc s) /\ 0 <= e0 /\ e = e0 * 2 ^ Z.of_nat (bitcpy s) + b /\ 0 <= b < 2 ^ Z.of_nat (bitcpy s)
    /\ bitbuf s = b * 2 ^ Z.of_nat (w - bitcpy s) /\ (bitcpy s < w)%nat
    /\ match mode s with
       | O => e = 0 /\ bitcpy s = O
       | 1%nat => bitcpy s = O
       | 2%nat => (0 < bitcpy s)%nat /\ 2 ^ (Z.of_nat (bitcpy s) - 1) <= b
       | _ => False
       end.

(** The bits that are not yet read stay the same. *)
Definition same_bits (s s' : window) : Prop := bitcnt s' = bitcnt s /\ buf s' = buf s /\ digidx s' = digidx s.

Lemma window_bit M e s y :
  table M -> window_ok e s -> 0 <= y <= 1 -> (2 <= mode s)%nat \/ y = 1 ->
  let cpy := (bitcpy s + 1)%nat in
  let bits := Z.lor (bitbuf s) (Z.shiftl y (Z.of_nat (w - cpy))) in
  returns (fun s' => window_ok (2 * e + y) s' /\ same_bits s s')
    (if (cpy =? w)%nat then
      let! r := squares P mp pad w (acc s) in
      let! m := load_M M (Z.to_nat bits) in
      let! r := product P mp pad r m r in
      Ok (mk_window 1 (bitcnt s) (buf s) (digidx s) 0 0 r)
    else Ok (mk_window 2 (bitcnt s) (buf s) (digidx s) cpy bits (acc s))).
Proof.
  intros (HT1 & HT) (e0 & b & Hacc & He0 & Ee & Hb & Ebuf & Hc & Hmode) Hy Hbit cpy bits. destruct half_facts as (Hh & Eh & _).
  assert (Ebits : bits = (2 * b + y) * 2 ^ Z.of_nat (w - cpy)).
  { unfold bits. rewrite Ebuf. replace (w - bitcpy s)%nat with (S (w - cpy)) by lia. rewrite Nat2Z.inj_succ, Z.pow_succ_r, Z.shiftl_mul_pow2 by lia.
    set (p := 2 ^ Z.of_nat (w - cpy)). assert (Hp : 0 < p) by (apply Z.pow_pos_nonneg; lia).
    replace (b * (2 * p)) with (Z.shiftl (2 * b) (Z.of_nat (w - cpy))) by (rewrite Z.shiftl_mul_pow2 by lia; fold p; ring).
    replace (y * p) with (Z.shiftl y (Z.of_nat (w - cpy))) by (rewrite Z.shiftl_mul_pow2 by lia; reflexivity).
    rewrite <- Z.shiftl_lor, Z.shiftl_mul_pow2 by lia. fold p. f_equal. replace (2 * b) with (Z.shiftl b 1) at 1 by (rewrite Z.shiftl_mul_pow2 by lia; ring).
    rewrite lor_shiftl by (unfold in_u; lia). ring. }
  assert (Ecpy : 2 ^ Z.of_nat cpy = 2 * 2 ^ Z.of_nat (bitcpy s)) by (unfold cpy; rewrite Nat.add_1_r, Nat2Z.inj_succ, Z.pow_succ_r by lia; ring).
  assert (Hlow : 2 ^ (Z.of_nat cpy - 1) <= 2 * b + y).
  { replace (Z.of_nat cpy - 1) with (Z.of_nat (bitcpy s)) by lia. destruct (mode s) as [|[|[|?]]]; try (destruct Hbit; [lia|]).
    - destruct Hmode as (_ & Hc0). rewrite Hc0 in *. change (2 ^ Z.of_nat 0) with 1 in *. lia.
    - rewrite Hmode in *. change (2 ^ Z.of_nat 0) with 1 in *. lia.
    - destruct Hmode as (H1 & H2). replace (2 ^ Z.of_nat (bitcpy s)) with (2 * 2 ^ (Z.of_nat (bitcpy s) - 1)); [lia|].
      rewrite <- Z.pow_succ_r by lia. f_equal. lia.
    - contradiction. }
  destruct (Nat.eqb_spec cpy w) as [Ew|Hne].
  - eapply returns_bind; [apply (squares_spec w e0 (acc s) He0 Hacc)|]. intros r (Hr & Hlr). rewrite Ew in *. rewrite Nat.sub_diag, Z.mul_1_r in Ebits.
    rewrite Ebits. eapply load_entry.
    { apply HT. replace (Z.of_nat w - 1) with (Z.of_nat (w - 1)) in Hlow by lia. rewrite <- Eh in Hlow.
      assert (2 ^ Z.of_nat w = 2 * Z.of_nat half) by (rewrite Eh, <- Z.pow_succ_r by lia; f_equal; lia). lia. }
    intros m (Hm & _). rewrite Z2Nat.id in Hm by lia.
    assert (Hpos : 0 <= 2 ^ Z.of_nat w * e0) by (pose proof (Z.pow_nonneg 2 (Z.of_nat w)); nia).
    eapply returns_bind; [apply (product_spec (2 ^ Z.of_nat w * e0) (2 * b + y) r m r Hpos); [lia|exact Hr|exact Hm|apply ok_raw, Hr|exact Hlr]|].
    intros r' Hr'. apply ends_ok. split; [|repeat split]. exists (2 ^ Z.of_nat w * e0 + (2 * b + y)), 0. cbn [acc bitcpy bitbuf mode].
    split; [exact Hr'|]. split; [lia|]. split; [rewrite Ee; change (2 ^ Z.of_nat 0) with 1; rewrite Ecpy; ring|].
    split; [change (2 ^ Z.of_nat 0) with 1; lia|]. split; [reflexivity|]. split; [lia|reflexivity].
  - apply ends_ok. split; [|repeat split]. exists e0, (2 * b + y). cbn [acc bitcpy bitbuf mode]. split; [exact Hacc|]. split; [exact He0|].
    split; [rewrite Ee, Ecpy; ring|]. split; [lia|]. split; [exact Ebits|]. split; [lia|]. split; [lia|exact Hlow].
Qed.

Lemma exp_bit_spec M e s y :
  table M -> window_ok e s -> 0 <= y <= 1 -> returns (fun s' => window_ok (2 * e + y) s' /\ same_bits s s') (exp_bit P mp pad w M s y).
Proof.
  intros HT Hs Hy. unfold exp_bit. destruct (Nat.eqb_spec (mode s) 0) as [H0|H0]; [|destruct (Nat.eqb_spec (mode s) 1) as [H1|H1]];
    cbn [andb]; try (destruct (Z.eqb_spec y 0) as [->|Hy0]).
  - destruct Hs as (e0 & b & Hs). apply ends_ok. split; [|repeat split]. rewrite H0 in Hs. exists e0, b. rewrite H0.
    destruct Hs as (Hacc & He0 & Ee & Hb & Ebuf & Hc & (-> & Hc0)). replace (2 * 0 + 0) with 0 by ring. auto 10.
  - rewrite H0. cbn [Nat.eqb andb]. apply window_bit; auto. right. lia.
  - destruct Hs as (e0 & b & Hs). rewrite H1 in Hs. destruct Hs as (Hacc & He0 & Ee & Hb & Ebuf & Hc & Hc0). rewrite Hc0 in *. change (2 ^ Z.of_nat 0) with 1 in *.
    assert (b = 0) by lia. subst b. eapply returns_bind; [apply (mont_square_spec e0 _ He0 Hacc)|]. intros r Hr. apply ends_ok. split; [|repeat split].
    exists (2 * e0), 0. cbn [acc bitcpy bitbuf mode]. rewrite ?Hc0, H1. change (2 ^ Z.of_nat 0) with 1. split; [exact Hr|]. split; [lia|]. split; [lia|].
    split; [lia|]. split; [exact Ebuf|]. split; [exact Hc|reflexivity].
  - apply window_bit; auto. right. lia.
  - apply window_bit; auto. left. lia.
  - apply window_bit; auto. left. lia.
Qed.

Lemma top_bit_split (b : Z) n : (0 < n)%nat -> 0 <= b < 2 ^ Z.of_nat n ->
  exists y b', b = y * 2 ^ Z.of_nat (n - 1) + b' /\ 0 <= y <= 1 /\ 0 <= b' < 2 ^ Z.of_nat (n - 1).
Proof.
  intros Hn Hb. set (p := 2 ^ Z.of_nat (n - 1)). assert (E : 2 ^ Z.of_nat n = 2 * p) by (unfold p; rewrite <- Z.pow_succ_r by lia; f_equal; lia).
  assert (Hp : 0 < p) by (apply Z.pow_pos_nonneg; lia). exists (b / p), (b mod p). pose proof (Z.div_mod b p ltac:(lia)). pose proof (Z.mod_pos_bound b p Hp).
  split; [lia|]. split; [|lia]. split; [apply Z.div_pos; lia|]. assert (b / p < 2); [|lia]. apply Z.div_lt_upper_bound; lia.
Qed.

(** The bits that remain in the window at the end. *)
Lemma exp_rest_spec M n : forall bits hi b e r,
  table M -> power e r -> 0 <= e -> (n < w)%nat -> bits = hi * 2 ^ Z.of_nat w + b * 2 ^ Z.of_nat (w - n) -> 0 <= b < 2 ^ Z.of_nat n -> 0 <= hi ->
  returns (power (e * 2 ^ Z.of_nat n + b)) (exp_rest P mp pad w n M bits r).
Proof.
  induction n as [|n IH]; intros bits hi b e r HT Hr He Hn Ebits Hb Hhi; cbn [exp_rest].
  { change (2 ^ Z.of_nat 0) with 1 in *. replace (e * 1 + b) with e by lia. exact Hr. }
  destruct (top_bit_split b (S n) ltac:(lia) Hb) as (y & b' & Eb & Hy & Hb'). rewrite Nat.sub_succ, Nat.sub_0_r in *.
  eapply returns_bind; [apply (mont_square_spec e r He Hr)|]. intros r1 Hr1.
  assert (Epow : 2 ^ Z.of_nat w = 2 * 2 ^ Z.of_nat (w - S n) * 2 ^ Z.of_nat n) by (rewrite <- Z.pow_succ_r, <- Z.pow_add_r by lia; f_equal; lia).
  assert (E2 : Z.shiftl bits 1 = (2 * hi + y) * 2 ^ Z.of_nat w + b' * 2 ^ Z.of_nat (w - n)).
  { rewrite Z.shiftl_mul_pow2 by lia. replace (w - n)%nat with (S (w - S n)) by lia. rewrite Nat2Z.inj_succ, Z.pow_succ_r by lia. rewrite Ebits, Eb, Epow. ring. }
  assert (Htest : (Z.land (Z.shiftl bits 1) (Z.shiftl 1 (Z.of_nat w)) =? 0) = (y =? 0)).
  { rewrite Z.shiftl_1_l, land_pow2, E2 by lia. assert (Hpw : 0 < 2 ^ Z.of_nat w) by (apply Z.pow_pos_nonneg; lia).
    assert (Hs : 0 <= b' * 2 ^ Z.of_nat (w - n) < 2 ^ Z.of_nat w).
    { assert (0 < 2 ^ Z.of_nat (w - n)) by (apply Z.pow_pos_nonneg; lia). replace (2 ^ Z.of_nat w) with (2 ^ Z.of_nat n * 2 ^ Z.of_nat (w - n)) by (rewrite <- Z.pow_add_r by lia; f_equal; lia). nia. }
    rewrite Z.div_add_l, (Z.div_small (b' * _)), Z.add_0_r by lia. replace (2 * hi + y) with (y + hi * 2) by ring. rewrite Z.mod_add by lia.
    rewrite (Z.mod_small y) by lia. destruct (Z.eqb_spec y 0) as [->|]; [reflexivity|]. apply Z.eqb_neq. nia. }
  replace (e * 2 ^ Z.of_nat (S n) + b) with ((2 * e + y) * 2 ^ Z.of_nat n + b') by (rewrite Nat2Z.inj_succ, Z.pow_succ_r by lia; lia).
  eapply returns_bind with (P := power (2 * e + y)).
  - rewrite Htest. destruct (Z.eqb_spec y 0) as [->|Hy0]; [rewrite Z.add_0_r; exact Hr1|]. assert (y = 1) as -> by lia.
    apply (load_entry _ _ (value 1)); [apply HT|]. intros m1 Hm1. destruct Hr1 as (Hv1 & Hl1). apply product_spec; try assumption; try lia. apply ok_raw, Hv1.
  - intros r2 Hr2. apply (IH _ (2 * hi + y) b'); auto; lia.
Qed.

(** ** The bits of the exponent *)

Variable X : pstm_int.
Hypothesis HX : raw X.

(** [n] bits with the value [v] are not yet read. *)
Definition unread (n : nat) (v : Z) (s : window) : Prop :=
  exists c b, bitcnt s = S c /\ (c < 32)%nat /\ (digidx s <= used X)%nat /\ n = (c + 32 * digidx s)%nat /\ 0 <= b < 2 ^ Z.of_nat c
    /\ buf s = b * 2 ^ Z.of_nat (32 - c) /\ v = b * pB (digidx s) + dvalue (firstn (digidx s) (dp X)).

Lemma top_bit c b : (0 < c <= 32)%nat -> 0 <= b < 2 ^ Z.of_nat c ->
  exists y b', b = y * 2 ^ Z.of_nat (c - 1) + b' /\ 0 <= y <= 1 /\ 0 <= b' < 2 ^ Z.of_nat (c - 1)
    /\ Z.land (Z.shiftr (b * 2 ^ Z.of_nat (32 - c)) 31) 1 = y /\ u32 (Z.shiftl (b * 2 ^ Z.of_nat (32 - c)) 1) = b' * 2 ^ Z.of_nat (32 - (c - 1)).
Proof.
  intros Hc Hb. destruct (top_bit_split b c ltac:(lia) Hb) as (y & b' & Eb & Hy & Hb'). exists y, b'. split; [exact Eb|]. split; [exact Hy|]. split; [exact Hb'|].
  set (q := 2 ^ Z.of_nat (32 - c)). set (p := 2 ^ Z.of_nat (c - 1)) in *. assert (Hq : 0 < q) by (apply Z.pow_pos_nonneg; lia).
  assert (Epq : p * q = 2 ^ 31) by (unfold p, q; rewrite <- Z.pow_add_r by lia; f_equal; lia).
  assert (Eq : 2 ^ Z.of_nat (32 - (c - 1)) = 2 * q) by (unfold q; rewrite <- Z.pow_succ_r by lia; f_equal; lia). assert (Hbq : 0 <= b' * q < 2 ^ 31) by nia. split.
  - rewrite Z.shiftr_div_pow2 by lia. replace (b * q) with (y * 2 ^ 31 + b' * q) by (rewrite Eb, <- Epq; ring).
    rewrite Z.div_add_l, Z.div_small, Z.add_0_r by lia. change 1 with (Z.ones 1) at 1. rewrite Z.land_ones by lia. apply Z.mod_small. lia.
  - rewrite Eq, Z.shiftl_mul_pow2 by lia. unfold u32, wrap. replace (b * q * 2 ^ 1) with (b' * (2 * q) + y * 2 ^ 32).
    + rewrite Z.mod_add by lia. apply Z.mod_small. lia.
    + rewrite Eb. change (2 ^ 32) with (2 * 2 ^ 31). rewrite <- Epq. change (2 ^ 1) with 2. ring.
Qed.

Definition same_window (s s' : window) : Prop := mode s' = mode s /\ bitcpy s' = bitcpy s /\ bitbuf s' = bitbuf s /\ acc s' = acc s.

Lemma next_bit_spec n v s : unread n v s ->
  if (n =? 0)%nat then next_bit X s = Ok None
  else exists s' y v', next_bit X s = Ok (Some (s', y)) /\ 0 <= y <= 1 /\ v = y * 2 ^ Z.of_nat (n - 1) + v' /\ unread (n - 1) v' s' /\ same_window s s'.
Proof.
  intros (c & b & Ec & Hc & Hd & En & Hb & Ebuf & Ev). unfold next_bit. rewrite Ec. replace (S c - 1)%nat with c by lia. pose proof (proj1 HX) as Hl. unfold alloc in Hl.
  destruct (Nat.eqb_spec c 0) as [->|Hc0].
  - change (2 ^ Z.of_nat 0) with 1 in Hb. assert (b = 0) by lia. subst b. destruct (digidx s) as [|i]; [replace n with O by lia; reflexivity|].
    destruct (Nat.eqb_spec n 0); [lia|]. rewrite (load1_ok _ _ 0) by lia. cbn [rbind buf mode bitcnt digidx bitcpy bitbuf acc].
    set (d := nth i (dp X) 0) in *. pose proof (digit_nth (dp X) i (proj1 (proj2 HX))) as Hdig. fold d in Hdig.
    destruct (top_bit 32 d ltac:(lia) Hdig) as (y & b' & Eb & Hy & Hb' & Et & El). change (2 ^ Z.of_nat (32 - 32)) with 1 in *. rewrite Z.mul_1_r in *.
    exists (mk_window (mode s) DIGIT_BIT (u32 (Z.shiftl d 1)) i (bitcpy s) (bitbuf s) (acc s)), y, (b' * pB i + dvalue (firstn i (dp X))).
    split; [rewrite Et; reflexivity|]. split; [exact Hy|]. split.
    { rewrite Ev, dvalue_firstn_S. fold d. rewrite Eb. replace (n - 1)%nat with (31 + i * 32)%nat by lia. rewrite Nat2Z.inj_add, Z.pow_add_r, <- pB_pow by lia.
      change (Z.of_nat (32 - 1)) with (Z.of_nat 31). ring. }
    split; [|repeat split]. exists 31%nat, b'. cbn [bitcnt digidx buf]. repeat split; try apply Hb'; try lia. exact El.
  - destruct (Nat.eqb_spec n 0); [lia|]. cbn [rbind buf mode bitcnt digidx bitcpy bitbuf acc].
    destruct (top_bit c b ltac:(lia) Hb) as (y & b' & Eb & Hy & Hb' & Et & El). rewrite Ebuf, Et, El.
    do 3 eexists. split; [reflexivity|]. split; [exact Hy|]. split; [|split; [|repeat split]].
    + rewrite Ev, Eb. replace (n - 1)%nat with (c - 1 + digidx s * 32)%nat by lia. rewrite Nat2Z.inj_add, Z.pow_add_r, <- pB_pow by lia.
      instantiate (1 := b' * pB (digidx s) + dvalue (firstn (digidx s) (dp X))). ring.
    + exists (c - 1)%nat, b'. cbn [bitcnt digidx buf]. repeat split; try apply Hb'; lia.
Qed.

Lemma exptmod_loop_spec M fuel : forall n v e s,
  table M -> unread n v s -> window_ok e s -> (n <= fuel)%nat ->
  returns (window_ok (e * 2 ^ Z.of_nat n + v)) (exp_loop X P mp pad w fuel M s).
Proof.
  induction fuel as [|fuel IH]; intros n v e s HT Hu Hs Hf; cbn [exp_loop]; pose proof (next_bit_spec n v s Hu) as Hn; destruct (Nat.eqb_spec n 0) as [->|Hn0]; try lia.
  1, 2: rewrite Hn; cbn [rbind]; apply ends_ok; destruct Hu as (c & b & _ & _ & _ & En & Hb & _ & Ev);
    assert (Ec : c = O) by lia; assert (Ei : digidx s = O) by lia; rewrite Ec in Hb; rewrite Ei in Ev; change (2 ^ Z.of_nat 0) with 1 in *; rewrite pB_0 in Ev; cbn [firstn dvalue] in Ev;
    replace (e * 1 + v) with e by lia; exact Hs.
  destruct Hn as (s' & y & v' & E & Hy & Ev & Hu' & (Em & Ecp & Ebf & Ea)). rewrite E. cbn [rbind].
  assert (Hs' : window_ok e s') by (unfold window_ok; rewrite Em, Ecp, Ebf, Ea; exact Hs).
  eapply returns_bind; [apply (exp_bit_spec M e s' y HT Hs' Hy)|]. intros s2 (Hs2 & (E1 & E2 & E3)).
  replace (e * 2 ^ Z.of_nat n + v) with ((2 * e + y) * 2 ^ Z.of_nat (n - 1) + v').
  - apply IH; [exact HT| |exact Hs2|lia]. unfold unread. rewrite E1, E2, E3. exact Hu'.
  - rewrite Ev. replace (Z.of_nat n) with (Z.succ (Z.of_nat (n - 1))) by lia. rewrite Z.pow_succ_r by lia. ring.
Qed.

Lemma exponentiate_spec res :
  power 0 res -> returns (fun r => ok r /\ sign r = false /\ mag r = (g ^ mag X) mod N) (exponentiate X P mp pad w M1 res).
Proof.
  intros Hres. unfold exponentiate. eapply returns_bind; [apply fill_table_spec|]. intros M HT.
  pose proof (raw_range X HX) as HX0.
  eapply returns_bind; [apply (exptmod_loop_spec M (DIGIT_BIT * used X) (32 * used X) (mag X) 0); [exact HT| | |unfold DIGIT_BIT; lia]|].
  - exists O, 0. cbn [bitcnt digidx buf]. rewrite <- raw_mag by exact HX. repeat split; lia.
  - exists 0, 0. cbn [acc bitcpy bitbuf mode]. change (2 ^ Z.of_nat 0) with 1. repeat split; try apply Hres; try lia.
  - rewrite Z.mul_0_l, Z.add_0_l. intros s (e0 & b & Hacc & He0 & Ee & Hb & Ebuf & Hc & Hmode).
    eapply returns_bind with (P := power (mag X)).
    + destruct (Nat.eqb_spec (mode s) 2) as [E2|H2]; cbn [andb].
      * rewrite E2 in Hmode. destruct (Nat.ltb_spec 0 (bitcpy s)); [|lia]. rewrite Ee. apply (exp_rest_spec M (bitcpy s) _ 0 b); auto; lia.
      * assert (Hc0 : bitcpy s = O) by (destruct (mode s) as [|[|[|?]]]; [apply Hmode|exact Hmode|lia|contradiction]).
        rewrite Hc0 in *. change (2 ^ Z.of_nat 0) with 1 in *. replace (mag X) with e0 by lia. exact Hacc.
    + intros r ((Hr & Sr & Em) & Hl). pose proof (raw_range P (ok_raw P HP)) as HR. fold N pa R in HR. pose proof (Z.mod_pos_bound (g ^ mag X * R) N ltac:(lia)) as Hm.
      eapply ends_impl; [apply (mont_reduce_spec P mp HP HN Hinv r pad Hr Sr); [fold N pa R; nia|exact Hl|exact Hpad]|].
      cbn beta. fold N pa R. intros r' (Hr' & Sr' & Hrange & Hd & _). split; [exact Hr'|]. split; [exact Sr'|].
      rewrite <- (Z.mod_small (mag r') N) by exact Hrange. apply cancel_R. rewrite Em in Hd.
      replace (mag r' * R - g ^ mag X * R) with (mag r' * R - (g ^ mag X * R) mod N + ((g ^ mag X * R) mod N - g ^ mag X * R)) by ring.
      apply Z.divide_add_r; [exact Hd|]. apply mod_divide. lia.
Qed.
End Powers.

(** ** The exponentiation *)

(** A modulus: odd, and not too long. *)
Record modulus (P : pstm_int) : Prop := {
  mod_ok : ok P; mod_pos : sign P = false; mod_odd : Z.odd (mag P) = true; mod_big : 1 < mag P; mod_size : (2 * used P + 1 < PSTM_MAX_SIZE)%nat }.

(** A base. *)
Record operand (G : pstm_int) : Prop := {
  op_ok : ok G; op_pos : sign G = false; op_room : (2 <= alloc G)%nat; op_size : (used G + 1 < PSTM_MAX_SIZE)%nat }.

(** The two remainders that are computed by division do not meet the lost
    borrow. *)
Record divides_well (g : Z) (P : pstm_int) : Prop := {
  far_g : mag P <= g -> far g (mag P);
  far_M : far (g mod mag P * (pB (used P) mod mag P)) (mag P) }.

(** [M[1]], the base in Montgomery form. *)
Definition base (g : Z) (P : pstm_int) : Z := (g * pB (used P)) mod mag P.

Lemma exptmod_start G X P Y :
  modulus P -> operand G -> divides_well (mag G) P -> ok X ->
  exists mp res M1 w, pstm_exptmod G X P Y = (let! r := exponentiate X P mp ((used M1 + 3) * 2 * 4) w M1 res in pstm_copy r Y)
    /\ (B | mp * mag P + 1) /\ ok res /\ sign res = false /\ mag res = pB (used P) mod mag P /\ alloc res = (2 * used P + 1)%nat
    /\ ok M1 /\ sign M1 = false /\ mag M1 = base (mag G) P /\ alloc M1 = alloc P /\ (2 <= w <= 5)%nat.
Proof.
  intros [HP SP Ho HN HsP] [HG SG HlG HsG] [HfG HfM] HX. pose proof (raw_range G (ok_raw G HG)) as RG.
  assert (Hu : (0 < used P)%nat) by (destruct (used P) eqn:E; [apply used_mag in E; [lia|exact HP]|lia]).
  unfold pstm_exptmod. destruct (count_bits_spec X HX) as (n & E & _). rewrite E. cbn [rbind]. clear E. set (w := if (n <? 50)%nat then 2%nat else PS_EXPTMOD_WINSIZE).
  destruct (setup_spec P (ok_raw P HP) Hu Ho) as (mp & E & Hmp & Hinv). rewrite E. cbn [rbind]. clear E.
  destruct (normalization_spec (pstm_init_size (used P * 2 + 1)) P (ok_raw _ (init_size_ok _)) HP HN Ho ltac:(lia) ltac:(rewrite alloc_init; lia)) as (res & E & Hr & Sr & Emr & Elr).
  rewrite E. cbn [rbind]. clear E. rewrite alloc_init in Elr. rewrite cmp_mag_spec by assumption. cbn [rbind]. rewrite compare3_gt.
  assert (H1 : exists M, @eq (Mem.res error pstm_int) (if negb (mag G <? mag P) then pstm_mod G P (pstm_init_size (used res)) else pstm_copy G (pstm_init_size (used res))) (Ok M)
               /\ ok M /\ sign M = false /\ mag M = mag G mod mag P).
  { destruct (Z.ltb_spec (mag G) (mag P)) as [Hlt|Hge]; cbn [negb].
    - destruct (pstm_copy_ok G (pstm_init_size (used res)) HG (ok_raw _ (init_size_ok _))) as (M & E & HM & _ & EM & Em & _). exists M. rewrite Z.mod_small by lia.
      split; [exact E|]. split; [exact HM|]. split; congruence.
    - destruct (mod_spec G P (pstm_init_size (used res)) HG HP SG SP ltac:(lia) HlG HsG (HfG Hge)) as (M & E & HM & SM & Em & _). exists M. auto. }
  destruct H1 as (M & E & HM & SM & Em). rewrite E. cbn [rbind]. clear E. pose proof (Z.mod_pos_bound (mag G) (mag P) ltac:(lia)) as RM. rewrite <- Em in RM.
  assert (Hrpos : 0 < mag res).
  { pose proof (Z.mod_pos_bound (pB (used P)) (mag P) ltac:(lia)) as Rr. rewrite Emr. destruct (Z.eq_dec (pB (used P) mod mag P) 0) as [Ez|]; [|lia].
    apply Z.mod_divide in Ez; [|lia]. rewrite <- (Z.mul_1_r (pB _)), pB_pow in Ez. apply odd_cancel in Ez; [|exact Ho]. apply Z.divide_1_r_nonneg in Ez; lia. }
  pose proof (used_mono M P HM (ok_raw P HP) ltac:(lia)) as HuM.
  assert (Hur : (0 < used res <= used P)%nat).
  { split; [destruct (used res) eqn:E; [apply used_mag in E; [lia|exact Hr]|lia]|]. apply used_mono; [exact Hr|apply ok_raw, HP|].
    pose proof (Z.mod_pos_bound (pB (used P)) (mag P) ltac:(lia)). lia. }
  destruct (pstm_mulmod_spec true M res P M HM Hr HP SM Sr SP ltac:(lia) ltac:(lia) ltac:(lia)) as (M1 & E & H1 & S1 & Em1 & El1); [rewrite Em, Emr; exact HfM|].
  rewrite E. cbn [rbind]. exists mp, res, M1, w. split; [reflexivity|]. repeat (split; [first [assumption|lia]|]).
  split; [rewrite Em1, Em, Emr; unfold base; rewrite <- Zmult_mod; reflexivity|]. split; [exact El1|]. unfold w, PS_EXPTMOD_WINSIZE. destruct (n <? 50)%nat; lia.
Qed.

(** The length of [M[1]]: two digits less than the modulus are enough. *)
Definition base_fits (g : Z) (P : pstm_int) : Prop := (2 < used P)%nat -> pB (used P - 3) <= base g P.

Lemma base_used g P M : ok M -> mag M = base g P -> base_fits g P <-> (used P <= used M + 2)%nat.
Proof.
  intros HM Em. unfold base_fits. rewrite <- Em. split; intros H.
  - destruct (Nat.le_gt_cases (used P) 2) as [|Hgt]; [lia|]. pose proof (used_ge M (used P - 3) (ok_raw M HM) (H Hgt)). lia.
  - intros Hgt. pose proof (ok_range M HM ltac:(lia)). pose proof (pB_le (used P - 3) (used M - 1) ltac:(lia)). lia.
Qed.

Lemma exptmod_spec G X P Y :
  modulus P -> operand G -> divides_well (mag G) P -> ok X -> raw Y -> base_fits (mag G) P ->
  exists r, pstm_exptmod G X P Y = Ok r /\ ok r /\ sign r = false /\ mag r = (mag G ^ mag X) mod mag P /\ alloc r = Nat.max (alloc Y) (used r).
Proof.
  intros HP HG HD HX HY Hfit. destruct (exptmod_start G X P Y HP HG HD HX) as (mp & res & M1 & w & E & Hinv & Hr & Sr & Emr & Elr & H1 & S1 & Em1 & El1 & Hw).
  apply (base_used (mag G) P M1 H1 Em1) in Hfit. destruct HP as [HP SP Ho HN HsP].
  assert (Hpad : (2 * used P + 1 <= (used M1 + 3) * 2 * 4 / 4)%nat) by (rewrite Nat.div_mul by lia; lia).
  pose proof (exponentiate_spec P mp ((used M1 + 3) * 2 * 4) (mag G) HP HN Ho Hinv ltac:(lia) Hpad w M1 Hw) as Hexp.
  specialize (Hexp ltac:(split; [exact H1|split; [exact S1|rewrite Z.pow_1_r; exact Em1]]) Hfit X (ok_raw X HX) res).
  specialize (Hexp ltac:(split; [split; [exact Hr|split; [exact Sr|rewrite Z.pow_0_r, Z.mul_1_l; exact Emr]]|lia])). apply returns_ok in Hexp.
  destruct Hexp as (r & Er & Hr' & Sr' & Em). rewrite E, Er. cbn [rbind]. destruct (pstm_copy_ok r Y Hr' HY) as (r2 & E2 & H2 & Eu2 & S2 & Em2 & El2).
  exists r2. split; [exact E2|]. split; [exact H2|]. split; [congruence|]. split; [congruence|]. rewrite Eu2. exact El2.
Qed.

Lemma exptmod_faults G X P Y :
  modulus P -> operand G -> divides_well (mag G) P -> ok X -> ~ base_fits (mag G) P -> pstm_exptmod G X P Y = Fault.
Proof.
  intros HP HG HD HX Hfit. destruct (exptmod_start G X P Y HP HG HD HX) as (mp & res & M1 & w & E & Hinv & Hr & Sr & Emr & Elr & H1 & S1 & Em1 & El1 & Hw).
  rewrite (base_used (mag G) P M1 H1 Em1) in Hfit. destruct HP as [HP SP Ho HN HsP]. rewrite E. unfold exponentiate, fill_table.
  pose proof (proj1 (ok_raw P HP)) as HlP. unfold pstm_init_copy. match goal with |- context [pstm_init_size ?n] => set (x := n) end.
  assert (Hx : (alloc P <= x)%nat) by (unfold x; cbn [andb]; rewrite <- El1; destruct (Nat.leb_spec (alloc M1) (used M1 * 2 + 2)); lia).
  destruct (pstm_copy_ok M1 (pstm_init_size x) H1 (ok_raw _ (init_size_ok _))) as (a & Ea & Ha & Eua & _ & _ & Ela). rewrite Ea. cbn [failing rbind]. rewrite alloc_init in Ela.
  destruct w as [|[|w]]; try lia. cbn [Nat.sub squares]. unfold square at 1. assert (Hs : small a) by (unfold small, B; unfold PSTM_MAX_SIZE in HsP; lia).
  destruct (sqr_comba_spec a a (Some ((used M1 + 3) * 2 * 4)%nat) (ok_raw a Ha) (ok_raw a Ha) Hs) as (c & Ec & _ & _ & Elc & _). rewrite Ec. cbn [rbind].
  rewrite mont_reduce_faults; [reflexivity|lia|]. unfold mont_array. destruct (Nat.leb_spec (2 * used P + 1) ((used M1 + 3) * 2 * 4)); rewrite repeat_length.
  - rewrite Nat.div_mul by lia. lia.
  - pose proof (Nat.Div0.div_le_upper_bound (2 * used P + 1) 4 (2 * used P) ltac:(lia)). lia.
Qed.

(** C35. The exponentiation: for an odd modulus [P > 1], when the two remainders
    do not meet the lost borrow and [M[1] = G R mod P] is at most two digits
    shorter than [P], [pstm_exptmod] accesses no memory outside its numbers,
    its table and its array, the bit loop ends after the [32 * X->used] bits,
    and the result is [G^X mod P]. *)
Theorem pstm_exptmod_correct G X P Y :
  modulus P -> operand G -> divides_well (mag G) P -> ok X -> raw Y -> base_fits (mag G) P ->
  exists r, pstm_exptmod G X P Y = Ok r /\ ok r /\ sval r = (mag G ^ mag X) mod mag P.
Proof.
  intros HP HG HD HX HY Hfit. destruct (exptmod_spec G X P Y HP HG HD HX HY Hfit) as (r & E & Hr & Sr & Em & _).
  exists r. unfold sval. rewrite Sr. auto.
Qed.

(** The heap overflow: when [M[1]] is shorter than that, for a base that is
    zero or a multiple of [P] in particular, the array is too short for
    [pstm_montgomery_reduce], which tests it against a number of digits instead
    of bytes, or allocates bytes instead of digits; it is accessed out of
    bounds, whatever the exponent. *)
Theorem pstm_exptmod_overrun G X P Y :
  modulus P -> operand G -> divides_well (mag G) P -> ok X -> ~ base_fits (mag G) P -> pstm_exptmod G X P Y = Fault.
Proof. apply exptmod_faults. Qed.

Definition sample_P : pstm_int := num 4 (2 ^ 127 - 1).

Lemma sample_modulus : modulus sample_P.
Proof. split; [apply ok_b_ok; reflexivity|reflexivity|reflexivity|vm_compute; reflexivity|unfold PSTM_MAX_SIZE; cbn; lia]. Qed.

Lemma pstm_exptmod_correct_witness :
  exists r, pstm_exptmod (num 2 (2 ^ 40 + 3)) (num 2 (2 ^ 60 + 12345)) sample_P (pstm_init_size 4) = Ok r /\ ok r
    /\ sval r = (mag (num 2 (2 ^ 40 + 3)) ^ mag (num 2 (2 ^ 60 + 12345))) mod mag sample_P.
Proof.
  apply pstm_exptmod_correct.
  - apply sample_modulus.
  - split; [apply ok_b_ok; reflexivity|reflexivity|cbn; lia|unfold PSTM_MAX_SIZE; cbn; lia].
  - split.
    + intros H. exfalso. vm_compute in H. apply H. reflexivity.
    + apply (far_b_far 3); vm_compute; reflexivity.
  - apply ok_b_ok. reflexivity.
  - apply ok_raw, init_size_ok.
  - intros _. vm_compute. discriminate.
Defined.

Lemma pstm_exptmod_overrun_witness : pstm_exptmod (mk_pstm 0 false [0; 0]) (num 2 (2 ^ 60 + 12345)) sample_P (pstm_init_size 4) = Fault.
Proof.
  apply pstm_exptmod_overrun.
  - apply sample_modulus.
  - split; [apply ok_b_ok; reflexivity|reflexivity|cbn; lia|unfold PSTM_MAX_SIZE; cbn; lia].
  - split.
    + intros H. exfalso. vm_compute in H. apply H. reflexivity.
    + apply (far_b_far 0); vm_compute; reflexivity.
  - apply ok_b_ok. reflexivity.
  - intros H. assert (Hu : (2 < used sample_P)%nat) by (cbn; lia). apply H in Hu. vm_compute in Hu. apply Hu. reflexivity.
Defined.
End PstmE.
