(* ===== verification/Rsa.v ===== *)
(** * RSA

    networking/tls_rsa.c: the PKCS#1 padding, the operation with the public and
    with the private key (with its Chinese remainders), encryption, decryption
    and signature. A call of [psTraceCrypto] ends the program. *)

From Stdlib Require Import ZArith List Lia Bool.
From S2P Require Import Prelude Words Mem Pstm.
Import ListNotations.
Local Open Scope Z_scope.
Local Open Scope res_scope.

Module Rsa.
Import Pstm.

Definition PUBKEY_TYPE : Z := 1.
Definition PRIVKEY_TYPE : Z := 2.
Definition PS_UNSUPPORTED_FAIL : Z := -10.

Record psRsaKey := mk_key {
  key_e : pstm_int; key_d : pstm_int; key_N : pstm_int; key_qP : pstm_int; key_dP : pstm_int; key_dQ : pstm_int;
  key_p : pstm_int; key_q : pstm_int; size : nat; optimized : bool }.

(** [if (f() != PS_SUCCESS) psTraceCrypto(...)] *)
Definition tracing {A} (m : result A) : result A := match m with Die (Code _) => Die Exit | m => m end.

(** [random n] is what [tls_get_random] stores for [n] bytes. *)
Definition pkcs1Pad (random : nat -> list Z) (inb : list Z) (inlen : nat) (out : list Z) (outlen : nat) (cryptType : Z) : result (list Z) :=
  if (outlen <? 3 + inlen + 8)%nat then Die Exit else
  let randomLen := (outlen - 3 - inlen)%nat in
  let! out := store1 out 0 0 in
  let! out := store1 out 1 cryptType in
  let! out := (if cryptType =? PUBKEY_TYPE then for_up randomLen 2 (fun c out => store1 out c 255) out
               else
                 let! out := store out 2 (random randomLen) in
                 for_up randomLen 2 (fun c out => let! v := load1 out c in if v =? 0 then store1 out c 1 else Ok out) out) in
  let c := (2 + randomLen)%nat in
  let! out := store1 out c 0 in
  let! data := load inb 0 inlen in
  store out (c + 1) data.

(** The Chinese remainders: the numbers [c^dP mod p] and [c^dQ mod q] are
    combined. *)
Definition crt (key : psRsaKey) (tmp : pstm_int) : result pstm_int :=
  let tmpa := pstm_init_size (alloc (key_p key)) in
  let tmpb := pstm_init_size (alloc (key_q key)) in
  let! tmpa := tracing (pstm_exptmod tmp (key_dP key) (key_p key) tmpa) in
  let! tmpb := tracing (pstm_exptmod tmp (key_dQ key) (key_q key) tmpb) in
  let! tmp := tracing (pstm_sub false tmpa tmpb tmp) in
  let! tmp := tracing (pstm_mulmod true tmp (key_qP key) (key_p key) tmp) in
  let! tmp := tracing (pstm_mul_comba tmp (key_q key) tmp None) in
  tracing (pstm_add true tmp tmpb tmp).

(** The exponentiation with the private or the public key. *)
Definition rsa_power (key : psRsaKey) (type : Z) (tmp : pstm_int) : result pstm_int :=
  if type =? PRIVKEY_TYPE then
    if optimized key then crt key tmp else tracing (pstm_exptmod tmp (key_d key) (key_N key) tmp)
  else if type =? PUBKEY_TYPE then tracing (pstm_exptmod tmp (key_e key) (key_N key) tmp)
  else Die Exit.

(** [in] and [out] are the same array in all calls; the result is the array and
    the new [*outlen]. *)
Definition psRsaCrypt (key : psRsaKey) (type : Z) (buf : list Z) (inlen outlen : nat) : result (list Z * nat) :=
  let! tmp := failing PS_FAILURE (pstm_read_unsigned_bin (pstm_init_for_read_unsigned_bin (inlen + 4)) buf inlen) in
  let! c := pstm_cmp (key_N key) tmp in
  if c =? PSTM_LT then Die (Code PS_LIMIT_FAIL) else
  let! tmp := rsa_power key type tmp in
  let! x := pstm_unsigned_bin_size (key_N key) in
  if (outlen <? x)%nat then Die Exit else
  let pad := (size key - x)%nat in
  let! buf := for_up pad 0 (fun i buf => store1 buf i 0) buf in
  let x := (x + pad)%nat in
  let! buf := store buf pad (repeat 0 x) in
  let! n := pstm_unsigned_bin_size tmp in
  if (x <? n)%nat then Fault else
  let! buf := tracing (pstm_to_unsigned_bin tmp buf (pad + (x - n))) in
  Ok (buf, x).

(** The result is the array [out] and the length. *)
Definition psRsaEncryptPub (random : nat -> list Z) (key : psRsaKey) (inb : list Z) (inlen : nat) (out : list Z) (outlen : nat)
    : result (list Z * nat) :=
  if (outlen <? size key)%nat then Die Exit else
  let! out := tracing (pkcs1Pad random inb inlen out (size key) PRIVKEY_TYPE) in
  let! (out, outlen) := tracing (psRsaCrypt key PUBKEY_TYPE out (size key) outlen) in
  if negb (outlen =? size key)%nat then Die Exit else Ok (out, size key).

Definition psRsaEncryptPriv (random : nat -> list Z) (key : psRsaKey) (inb : list Z) (inlen : nat) (out : list Z) (outlen : nat)
    : result (list Z * nat) :=
  if (outlen <? size key)%nat then Die Exit else
  let! out := tracing (pkcs1Pad random inb inlen out (size key) PUBKEY_TYPE) in
  let! (out, outlen) := tracing (psRsaCrypt key PRIVKEY_TYPE out (size key) outlen) in
  if negb (outlen =? size key)%nat then Die Exit else Ok (out, size key).

Definition asn256dsWrap : list Z := [48; 49; 48; 13; 6; 9; 96; 134; 72; 1; 101; 3; 4; 2; 1; 5; 0; 4; 32].

Definition privRsaEncryptSignedElement (random : nat -> list Z) (key : psRsaKey) (inb : list Z) (inlen : nat) (out : list Z) (outlen : nat)
    : result (list Z * nat) :=
  if (inlen =? 32)%nat then
    let! data := load inb 0 inlen in
    psRsaEncryptPriv random key (asn256dsWrap ++ data) (inlen + length asn256dsWrap) out outlen
  else Die (Code PS_UNSUPPORTED_FAIL).

(** [while (c < end && *c != 0x00) c++;] *)
Fixpoint skip_padding (n : nat) (inb : list Z) (c : nat) : result nat :=
  match n with
  | O => Ok c
  | S n => let! v := load1 inb c in if v =? 0 then Ok c else skip_padding n inb (S c)
  end.

(** The result is [out] and the length of the message. *)
Definition pkcs1Unpad (inb : list Z) (inlen : nat) (out : list Z) (outlen : nat) : result (list Z * nat) :=
  if (inlen <? 11)%nat then Die Exit else
  let! b0 := load1 inb 0 in
  if negb (b0 =? 0) then Die Exit else
  let! b1 := load1 inb 1 in
  if negb (b1 =? 2) then Die Exit else
  let! c := skip_padding (inlen - 2) inb 2 in
  if (inlen <=? c)%nat then Die Exit else
  let c := (c + 1)%nat in
  let msglen := (inlen - c)%nat in
  if (outlen <? msglen)%nat then Die Exit else
  let! data := load inb c msglen in
  let! out := store out 0 data in
  Ok (out, msglen).

(** The result is the length, and the arrays [in] and [out]. *)
Definition psRsaDecryptPriv (key : psRsaKey) (inb : list Z) (inlen : nat) (out : list Z) (outlen : nat) : result (nat * list Z * list Z) :=
  if negb (inlen =? size key)%nat then Die Exit else
  let! (inb, ptLen) := tracing (psRsaCrypt key PRIVKEY_TYPE inb inlen inlen) in
  if negb (ptLen =? inlen)%nat then Die Exit else
  let! (out, err) := pkcs1Unpad inb inlen out outlen in
  let! inb := store inb 0 (repeat 0 inlen) in
  Ok (err, inb, out).
End Rsa.
