(* ===== verification/RsaSpec.v ===== *)
(** * RSA: what is computed

    The padding of networking/tls_rsa.c is removed again; [psRsaCrypt] computes
    [m^e mod N], and with the private key the number with the two remainders
    [c^dP mod p] and [c^dQ mod q]; decryption is the inverse of encryption; and
    a ciphertext of zeros makes the decryption access memory out of bounds. *)

From Stdlib Require Import ZArith List Lia Bool Zpow_facts.
From S2P Require Import Prelude Words Mem Pstm PstmVal PstmOps PstmMul PstmDiv PstmMont PstmExp Rsa.
Import ListNotations.
Local Open Scope Z_scope.
Local Open Scope res_scope.

Module RsaS.
Import Pstm PstmV PstmO PstmM PstmD PstmR PstmE Rsa.

(** ** Arrays in pieces *)

(** A loop that replaces each element of a piece. *)
Lemma map_up (f : Z -> Z) (body : nat -> list Z -> result (list Z)) (old : list Z) :
  (forall pre x rest, body (length pre) (pre ++ x :: rest) = Ok (pre ++ f x :: rest)) ->
  forall pre rest, for_up (length old) (length pre) body (pre ++ old ++ rest) = Ok (pre ++ map f old ++ rest).
Proof.
  intros Hb. induction old as [|x old IH]; intros pre rest; cbn [for_up length map app]; [reflexivity|]. rewrite Hb. cbn [rbind].
  specialize (IH (pre ++ [f x]) rest). rewrite length_app, Nat.add_1_r, <- !app_assoc in IH. exact IH.
Qed.

(** ** The padding *)

Definition no_zero (v : Z) : Z := if v =? 0 then 1 else v.

(** The padding string of type 2 and of type 1. *)
Definition padding (random : nat -> list Z) (n : nat) (type : Z) : list Z := if type =? PUBKEY_TYPE then repeat 255 n else map no_zero (random n).

Definition block (random : nat -> list Z) (outlen : nat) (type : Z) (msg : list Z) : list Z :=
  [0; type] ++ padding random (outlen - 3 - length msg) type ++ [0] ++ msg.

Section Padding.
Variable random : nat -> list Z.
Hypothesis Hrandom : forall n, length (random n) = n /\ bytes (random n).

Lemma length_padding n type : length (padding random n type) = n.
Proof. unfold padding. destruct (type =? PUBKEY_TYPE); [apply repeat_length|]. rewrite length_map. apply Hrandom. Qed.

Lemma length_block outlen type msg : (3 + length msg <= outlen)%nat -> length (block random outlen type msg) = outlen.
Proof. intros H. unfold block. rewrite !length_app, length_padding. cbn [length]. lia. Qed.

Lemma bytes_block outlen type msg : 0 <= type < 256 -> bytes msg -> bytes (block random outlen type msg).
Proof.
  intros Ht Hm. assert (Hz : in_u 8 0) by (unfold in_u; lia). unfold block, bytes. rewrite !Forall_app. split; [constructor; [exact Hz|constructor; [unfold in_u; lia|constructor]]|].
  split; [|split; [constructor; [exact Hz|constructor]|exact Hm]]. unfold padding. destruct (type =? PUBKEY_TYPE).
  - apply Forall_forall. intros x Hx. apply repeat_spec in Hx. subst x. unfold in_u. lia.
  - apply Forall_map. eapply Forall_impl; [|apply Hrandom]. intros v Hv. unfold no_zero, in_u in *. destruct (v =? 0); lia.
Qed.

Lemma pkcs1_pad_spec inb inlen out outlen type :
  (inlen <= length inb)%nat -> (inlen + 11 <= outlen <= length out)%nat ->
  pkcs1Pad random inb inlen out outlen type = Ok (block random outlen type (firstn inlen inb) ++ skipn outlen out).
Proof.
  intros Hin Hout. set (msg := firstn inlen inb). assert (Lm : length msg = inlen) by (unfold msg; rewrite length_firstn; lia). unfold pkcs1Pad, block. rewrite Lm.
  destruct (Nat.ltb_spec outlen (3 + inlen + 8)); [lia|]. set (n := (outlen - 3 - inlen)%nat).
  destruct out as [|o0 [|o1 o]]; cbn [length] in Hout; try lia.
  rewrite (store1_at [] o0 (o1 :: o)). cbn [rbind app]. rewrite (store1_at [0] o1 o). cbn [rbind].
  set (mid := firstn n o). set (rest := skipn (n + 1 + inlen) o). set (last := slice (n + 1) inlen o). set (z := nth n o 0).
  assert (Eo : o = mid ++ z :: last ++ rest).
  { unfold mid, z, last, rest, slice. replace (n + 1 + inlen)%nat with (inlen + (n + 1))%nat by lia. rewrite <- (skipn_skipn inlen (n + 1) o), firstn_skipn, Nat.add_1_r, <- skipn_cons by lia. rewrite firstn_skipn. reflexivity. }
  assert (Lmid : length mid = n) by (unfold mid; rewrite length_firstn; lia). assert (Llast : length last = inlen) by (unfold last, slice; rewrite length_firstn, length_skipn; lia).
  assert (Er : skipn outlen (o0 :: o1 :: o) = rest) by (unfold rest; replace outlen with (S (S (n + 1 + inlen))) by lia; reflexivity).
  rewrite Er. clearbody mid rest last z. subst o. cbn [app]. replace (0 :: type :: mid ++ z :: last ++ rest) with ([0; type] ++ mid ++ z :: last ++ rest) by reflexivity.
  assert (Epad : (if type =? PUBKEY_TYPE then for_up n 2 (fun c out => store1 out c 255) ([0; type] ++ mid ++ z :: last ++ rest)
          else let! out := store ([0; type] ++ mid ++ z :: last ++ rest) 2 (random n) in
               for_up n 2 (fun c out => let! v := load1 out c in if v =? 0 then store1 out c 1 else Ok out) out)
         = @Ok error _ ([0; type] ++ padding random n type ++ z :: last ++ rest)).
  { unfold padding. destruct (type =? PUBKEY_TYPE).
    - pose proof (map_up (fun _ => 255) (fun c out => store1 out c 255) mid (fun pre x rest => store1_at pre x rest 255) [0; type] (z :: last ++ rest)) as E.
      rewrite Lmid in E. cbn [length] in E. rewrite E. do 3 f_equal. rewrite map_const, Lmid. reflexivity.
    - destruct (Hrandom n) as (Lr & _). pose proof (store_at (E := error) [0; type] mid (random n) (z :: last ++ rest) ltac:(lia)) as Es. cbn [length] in Es. rewrite Es. cbn [rbind].
      pose proof (map_up no_zero (fun c out => let! v := load1 out c in if v =? 0 then store1 out c 1 else Ok out) (random n)) as E. rewrite Lr in E.
      refine (E _ [0; type] (z :: last ++ rest)). intros pre x rest'. rewrite (load1_ok _ _ 0) by (rewrite length_app; cbn; lia). cbn [rbind].
      rewrite nth_middle. unfold no_zero. destruct (x =? 0); [apply store1_at|reflexivity]. }
  rewrite Epad. cbn [rbind]. set (ps := padding random n type). assert (Lp : length ps = n) by apply length_padding.
  pose proof (store1_at (E := error) ([0; type] ++ ps) z (last ++ rest) 0) as E1. rewrite length_app, Lp, <- app_assoc in E1. cbn [length] in E1. rewrite E1. cbn [rbind].
  rewrite load_ok by lia. cbn [rbind]. change (slice 0 inlen inb) with msg.
  pose proof (store_at (E := error) ([0; type] ++ ps ++ [0]) last msg rest ltac:(lia)) as E2. rewrite !length_app, Lp, <- !app_assoc in E2. cbn [length app] in E2.
  replace (2 + (n + 1))%nat with (2 + n + 1)%nat in E2 by lia. cbn [app]. rewrite <- !app_assoc. exact E2.
Qed.

Lemma skip_padding_spec (ps : list Z) : Forall (fun v => v <> 0) ps -> forall pre rest n,
  (length ps < n)%nat -> skip_padding n (pre ++ ps ++ 0 :: rest) (length pre) = Ok (length pre + length ps)%nat.
Proof.
  induction 1 as [|v ps Hv Hps IH]; intros pre rest [|n] Hn; cbn [length] in Hn; try lia; cbn [skip_padding length app];
    rewrite (load1_ok _ _ 0) by (rewrite length_app; cbn; lia); cbn [rbind]; rewrite nth_middle.
  - rewrite Z.eqb_refl, Nat.add_0_r. reflexivity.
  - destruct (Z.eqb_spec v 0); [contradiction|]. specialize (IH (pre ++ [v]) rest n ltac:(lia)). rewrite length_app, Nat.add_1_r, <- app_assoc in IH.
    cbn [app] in IH. rewrite IH. f_equal. lia.
Qed.

Lemma padding_no_zero n : Forall (fun v => v <> 0) (padding random n PRIVKEY_TYPE).
Proof.
  unfold padding. change (PRIVKEY_TYPE =? PUBKEY_TYPE) with false. cbn iota. apply Forall_map, Forall_forall. intros v _. unfold no_zero.
  destruct (Z.eqb_spec v 0); lia.
Qed.

Lemma unpad_spec outlen msg rest out :
  (length msg + 11 <= outlen)%nat -> (length msg <= length out)%nat ->
  pkcs1Unpad (block random outlen PRIVKEY_TYPE msg ++ rest) outlen out (length out) = Ok (msg ++ skipn (length msg) out, length msg).
Proof.
  intros Hl Ho. unfold pkcs1Unpad. destruct (Nat.ltb_spec outlen 11); [lia|]. unfold block. set (ps := padding random (outlen - 3 - length msg) PRIVKEY_TYPE).
  assert (Lp : length ps = (outlen - 3 - length msg)%nat) by apply length_padding. rewrite <- !app_assoc. cbn [app load1 nth_error rbind Z.eqb negb].
  change (PRIVKEY_TYPE =? 2) with true. cbn [negb].
  pose proof (skip_padding_spec ps (padding_no_zero _) [0; PRIVKEY_TYPE] (msg ++ rest) (outlen - 2) ltac:(lia)) as Es. cbn [length app] in Es. rewrite Es. cbn [rbind].
  rewrite Lp. destruct (Nat.leb_spec outlen (2 + (outlen - 3 - length msg))); [lia|]. replace (outlen - (2 + (outlen - 3 - length msg) + 1))%nat with (length msg) by lia.
  destruct (Nat.ltb_spec (length out) (length msg)); [lia|]. pose proof (load_at (E := error) ([0; PRIVKEY_TYPE] ++ ps ++ [0]) msg rest) as El.
  rewrite !length_app, Lp, <- !app_assoc in El. cbn [length app] in El. replace (2 + (outlen - 3 - length msg + 1))%nat with (2 + (outlen - 3 - length msg) + 1)%nat in El by lia.
  rewrite El. cbn [rbind]. rewrite <- (firstn_skipn (length msg) out) at 1. pose proof (store_at (E := error) [] (firstn (length msg) out) msg (skipn (length msg) out)) as Es2.
  cbn [app length] in Es2. rewrite Es2 by (rewrite length_firstn; lia). reflexivity.
Qed.
End Padding.

(** ** The result as bytes *)

Lemma be_bytes_extend n x v : (n <= x)%nat -> 0 <= v < 256 ^ Z.of_nat n -> be_bytes x v = repeat 0 (x - n) ++ be_bytes n v.
Proof.
  intros Hn Hv. unfold be_bytes. replace x with (n + (x - n))%nat at 1 by lia. rewrite le_bytes_app, rev_app_distr. f_equal.
  rewrite Z.div_small by exact Hv. generalize (x - n)%nat as k. induction k as [|k IH]; [reflexivity|]. cbn [le_bytes rev repeat].
  change (0 / 256) with 0. rewrite IH. change (0 mod 256) with 0. rewrite <- repeat_cons. reflexivity.
Qed.

Lemma nbytes_range n z : nbytes n z -> 0 <= z < 256 ^ Z.of_nat n.
Proof. intros [(-> & ->)|H]; [lia|]. split; [|lia]. pose proof (Z.pow_nonneg 256 (Z.of_nat n - 1)). lia. Qed.

Lemma nbytes_le n m z w : nbytes n z -> nbytes m w -> z <= w -> (n <= m)%nat.
Proof.
  intros Hn Hm Hle. apply nbytes_range in Hm. destruct Hn as [(_ & ->)|(Hn & _)]; [lia|].
  destruct (Nat.le_gt_cases n m) as [|Hgt]; [assumption|exfalso]. pose proof (Z.pow_le_mono_r 256 (Z.of_nat m) (Z.of_nat n - 1) ltac:(lia) ltac:(lia)). lia.
Qed.

(** The end of [psRsaCrypt]. *)
Lemma write_back_spec N tmp (buf : list Z) x :
  ok N -> ok tmp -> mag tmp <= mag N -> nbytes x (mag N) -> (x <= length buf)%nat ->
  (let! buf := store buf 0 (repeat 0 x) in
   let! n := pstm_unsigned_bin_size tmp in
   if (x <? n)%nat then Fault else
   let! buf := tracing (pstm_to_unsigned_bin tmp buf (0 + (x - n))) in Ok (buf, x)) = Ok (be_bytes x (mag tmp) ++ skipn x buf, x).
Proof.
  intros HN Ht Hle Hx Hl. destruct (bin_size_spec tmp Ht) as (n & En & Hn). pose proof (nbytes_le n x _ _ Hn Hx Hle) as Hnx.
  rewrite store_ok by (rewrite repeat_length; exact Hl). cbn [rbind]. rewrite En. cbn [rbind]. destruct (Nat.ltb_spec x n); [lia|].
  rewrite (to_bin_spec tmp _ _ n Ht Hn) by (rewrite length_blit by (rewrite repeat_length; lia); lia). cbn [tracing rbind Nat.add]. do 2 f_equal.
  unfold blit at 2. cbn [firstn app Nat.add]. rewrite repeat_length. rewrite (be_bytes_extend n x) by (exact Hnx || apply nbytes_range, Hn).
  replace (repeat 0 x) with (repeat 0 (x - n) ++ repeat 0 n) by (rewrite <- repeat_app; f_equal; lia). rewrite <- !app_assoc.
  pose proof (store_at (E := error) (repeat 0 (x - n)) (repeat 0 n) (be_bytes n (mag tmp)) (skipn x buf)) as E. rewrite length_be_bytes, !repeat_length in E. specialize (E eq_refl).
  rewrite store_ok in E by (rewrite !length_app, !repeat_length, length_be_bytes; lia). injection E as E. exact E.
Qed.

(** ** The operation *)

Section Crypt.
Variable key : psRsaKey.
Let N := key_N key.
Hypotheses (HN : modulus N) (Hsize : nbytes (size key) (mag N)).

Lemma read_spec (buf : list Z) inlen :
  bytes buf -> (inlen <= length buf)%nat -> (inlen <= size key)%nat -> be_word (firstn inlen buf) <= mag N ->
  exists tmp, pstm_read_unsigned_bin (pstm_init_for_read_unsigned_bin (inlen + 4)) buf inlen = Ok tmp /\ operand tmp /\ mag tmp = be_word (firstn inlen buf).
Proof.
  intros Hb Hl Hs Hle. destruct HN as [HNo HNs Ho HN1 HNm]. pose proof (mag_bytes N _ HNo Hsize) as Hsz.
  destruct (read_bin_spec (pstm_init_for_read_unsigned_bin (inlen + 4)) buf inlen Hb Hl ltac:(lia)) as (r & E & Hr & Sr & Em & El).
  exists r. split; [exact E|]. split; [|exact Em]. split; [exact Hr|exact Sr| |].
  - rewrite El. unfold pstm_init_for_read_unsigned_bin. rewrite alloc_init. lia.
  - pose proof (used_mono r N Hr (ok_raw N HNo) ltac:(lia)). lia.
Qed.

(** [psRsaCrypt] with an operation that ends with [r]. *)
Lemma crypt_spec type (buf : list Z) inlen outlen r :
  bytes buf -> (inlen <= length buf)%nat -> (inlen <= size key)%nat -> (size key <= length buf)%nat -> (size key <= outlen)%nat -> be_word (firstn inlen buf) <= mag N ->
  (forall tmp, operand tmp -> mag tmp = be_word (firstn inlen buf) -> exists t, rsa_power key type tmp = Ok t /\ ok t /\ mag t = r) -> r <= mag N ->
  psRsaCrypt key type buf inlen outlen = Ok (be_bytes (size key) r ++ skipn (size key) buf, size key).
Proof.
  intros Hb Hl Hs Hsb Hso Hle Hop Hr. destruct (read_spec buf inlen Hb Hl Hs Hle) as (tmp & E & Htmp & Em). unfold psRsaCrypt. rewrite E. cbn [failing rbind]. clear E.
  pose proof Htmp as [Hto Hts _ _]. pose proof HN as [HNo HNs _ _ _].
  assert (Ec : pstm_cmp (key_N key) tmp = Ok (compare3 (mag N) (mag tmp))) by (unfold pstm_cmp; fold N; rewrite HNs, Hts; cbn [Bool.eqb negb]; apply cmp_mag_spec; assumption).
  rewrite Ec. cbn [rbind]. rewrite compare3_lt. destruct (Z.ltb_spec (mag N) (mag tmp)); [lia|].
  destruct (Hop tmp Htmp Em) as (t & Et & Hto' & Emt). rewrite Et. cbn [rbind]. destruct (bin_size_spec N HNo) as (x & Ex & Hx). fold N. rewrite Ex. cbn [rbind].
  assert (x = size key) as -> by (apply Nat.le_antisymm; eapply nbytes_le; eauto; lia).
  destruct (Nat.ltb_spec outlen (size key)); [lia|]. rewrite Nat.sub_diag. cbn [for_up rbind]. rewrite Nat.add_0_r.
  rewrite (write_back_spec N t buf (size key) HNo Hto' ltac:(lia) Hsize Hsb). rewrite Emt. reflexivity.
Qed.

(** The operation with the public key. *)
Lemma public_spec tmp :
  operand tmp -> ok (key_e key) -> divides_well (mag tmp) N -> base_fits (mag tmp) N ->
  exists t, rsa_power key PUBKEY_TYPE tmp = Ok t /\ ok t /\ mag t = (mag tmp ^ mag (key_e key)) mod mag N.
Proof.
  intros Ht He Hd Hf. unfold rsa_power. change (PUBKEY_TYPE =? PRIVKEY_TYPE) with false. rewrite Z.eqb_refl.
  destruct (exptmod_spec tmp (key_e key) N tmp HN Ht Hd He (ok_raw _ (op_ok tmp Ht)) Hf) as (r & E & Hr & _ & Em & _). fold N. rewrite E. exists r. auto.
Qed.
End Crypt.

(** ** The Chinese remainders *)

(** A private key with its remainders. *)
Record crt_key (key : psRsaKey) : Prop := {
  crt_p : modulus (key_p key); crt_q : modulus (key_q key); crt_room : (used (key_q key) < alloc (key_q key))%nat;
  crt_dP : ok (key_dP key); crt_dQ : ok (key_dQ key); crt_qP : ok (key_qP key); crt_sign : sign (key_qP key) = false;
  crt_len : (used (key_qP key) <= used (key_p key))%nat; crt_lens : (used (key_p key) + used (key_q key) + 1 < PSTM_MAX_SIZE)%nat;
  crt_N : mag (key_N key) = mag (key_p key) * mag (key_q key); crt_inv : (mag (key_qP key) * mag (key_q key)) mod mag (key_p key) = 1 }.

(** The two halves. *)
Definition half_p (key : psRsaKey) (c : Z) : Z := (c ^ mag (key_dP key)) mod mag (key_p key).
Definition half_q (key : psRsaKey) (c : Z) : Z := (c ^ mag (key_dQ key)) mod mag (key_q key).

(** No subtraction on the way loses a borrow, and no array is too short. *)
Record crt_well (key : psRsaKey) (c : Z) : Prop := {
  well_p : divides_well c (key_p key); well_q : divides_well c (key_q key);
  fits_p : base_fits c (key_p key); fits_q : base_fits c (key_q key);
  well_diff : near (Z.max (half_p key c) (half_q key c)) (Z.min (half_p key c) (half_q key c));
  well_mod : far (Z.abs (half_p key c - half_q key c) * mag (key_qP key)) (mag (key_p key));
  well_neg : half_p key c < half_q key c -> near (mag (key_p key)) (((half_q key c - half_p key c) * mag (key_qP key)) mod mag (key_p key)) }.

Section Crt.
Variables (key : psRsaKey) (c : Z).
Let p := mag (key_p key).
Let q := mag (key_q key).
Let a := half_p key c.
Let b := half_q key c.
Hypotheses (HK : crt_key key) (HW : crt_well key c).

(** [h = (a - b) / q mod p]; the result is [b + h q]. *)
Let h := ((a - b) * mag (key_qP key)) mod p.
Let z := b + h * q.

Lemma crt_bounds : 1 < p /\ 1 < q /\ 0 <= a < p /\ 0 <= b < q /\ 0 <= h < p /\ 0 <= z < p * q.
Proof.
  pose proof (mod_big _ (crt_p key HK)) as Hp. pose proof (mod_big _ (crt_q key HK)) as Hq. fold p in Hp. fold q in Hq.
  assert (Ha : 0 <= a < p) by (apply Z.mod_pos_bound; fold p; lia). assert (Hb : 0 <= b < q) by (apply Z.mod_pos_bound; fold q; lia).
  assert (Hh : 0 <= h < p) by (apply Z.mod_pos_bound; lia).
  assert (Hhq : 0 <= h * q <= (p - 1) * q) by (split; [apply Z.mul_nonneg_nonneg; lia|apply Z.mul_le_mono_nonneg_r; lia]).
  repeat split; unfold z; lia.
Qed.

Lemma crt_residues : z mod q = b /\ z mod p = a.
Proof.
  destruct crt_bounds as (Hp & Hq & Ha & Hb & Hh & Hz). split.
  - unfold z. rewrite Z.mod_add by lia. apply Z.mod_small. lia.
  - rewrite <- (Z.mod_small a p) by lia. apply divide_mod; [lia|]. pose proof (crt_inv key HK) as Hinv. fold p q in Hinv.
    set (u := mag (key_qP key)) in *. destruct (mod_divide p ((a - b) * u) ltac:(lia)) as (i & Hi). fold h in Hi.
    pose proof (Z.div_mod (u * q) p ltac:(lia)) as Hd. rewrite Hinv in Hd. exists (i * q + (a - b) * (u * q / p)). unfold z.
    replace h with (i * p + (a - b) * u) by lia. replace (b + (i * p + (a - b) * u) * q - a) with (i * q * p + (a - b) * (u * q - 1)) by ring.
    replace (u * q - 1) with (p * (u * q / p)) by lia. ring.
Qed.

Lemma diff_near x y : ok x -> ok y -> mag x = a -> mag y = b -> diff_ok x y.
Proof.
  intros Hx Hy Ex Ey. pose proof (well_diff key c HW) as Hn. fold a b in Hn. unfold diff_ok. destruct (Z.ltb_spec (mag x) (mag y)); apply near_exact; auto; try lia.
  - rewrite Ex, Ey. replace (Z.max a b) with b in Hn by lia. replace (Z.min a b) with a in Hn by lia. exact Hn.
  - rewrite Ex, Ey. replace (Z.max a b) with a in Hn by lia. replace (Z.min a b) with b in Hn by lia. exact Hn.
Qed.

Lemma crt_spec tmp : operand tmp -> mag tmp = c -> exists t, crt key tmp = Ok t /\ ok t /\ mag t = z.
Proof.
  intros Ht Ec. destruct crt_bounds as (Hp & Hq & Ha & Hb & Hh & Hz). pose proof HK as [Kp Kq Kr KdP KdQ KqP KqPs Kl Kls KN Kinv]. fold p q in KN, Kinv.
  pose proof HW as [Wp Wq Fp Fq Wd Wm Wn]. fold a b p in Wd, Wm, Wn. rewrite <- Ec in Wp, Wq, Fp, Fq. unfold crt.
  destruct (exptmod_spec tmp (key_dP key) (key_p key) (pstm_init_size (alloc (key_p key))) Kp Ht Wp KdP (ok_raw _ (init_size_ok _)) Fp) as (ta & E & Hta & Sta & Ema & _).
  rewrite E. cbn [tracing rbind]. clear E. rewrite Ec in Ema. fold (half_p key c) a in Ema.
  destruct (exptmod_spec tmp (key_dQ key) (key_q key) (pstm_init_size (alloc (key_q key))) Kq Ht Wq KdQ (ok_raw _ (init_size_ok _)) Fq) as (tb & E & Htb & Stb & Emb & Elb).
  rewrite E. cbn [tracing rbind]. clear E. rewrite Ec in Emb. fold (half_q key c) b in Emb. rewrite alloc_init in Elb.
  pose proof (used_mono ta (key_p key) Hta (ok_raw _ (mod_ok _ Kp)) ltac:(fold p; lia)) as Hua. pose proof (used_mono tb (key_q key) Htb (ok_raw _ (mod_ok _ Kq)) ltac:(fold q; lia)) as Hub.
  destruct (pstm_sub_spec false ta tb tmp Hta Htb (ok_raw _ (op_ok _ Ht)) ltac:(discriminate)) as (s & E & Hs & Es & _).
  { rewrite Sta, Stb. cbn [Bool.eqb]. apply diff_near; assumption. }
  rewrite E. cbn [tracing rbind]. clear E. assert (Evs : sval s = a - b) by (rewrite Es; unfold sval; rewrite Sta, Stb; lia).
  assert (Ems : mag s = Z.abs (a - b)) by (destruct (Z.lt_ge_cases (a - b) 0); [pose proof (sval_neg s Hs ltac:(lia))|pose proof (sval_pos s Hs ltac:(lia))]; lia).
  assert (Hus : (used s <= Nat.max (used (key_p key)) (used (key_q key)))%nat).
  { destruct (Z.le_gt_cases a b); [transitivity (used (key_q key)); [|lia]|transitivity (used (key_p key)); [|lia]]; apply used_mono; auto; try apply ok_raw; try apply mod_ok; auto; fold p q; lia. }
  assert (Hu0 : (0 < used (key_qP key))%nat).
  { destruct (used (key_qP key)) eqn:E0; [|lia]. apply used_mag in E0; [|exact KqP]. rewrite E0, Z.mul_0_l, Z.mod_0_l in Kinv by lia. discriminate. }
  pose proof (mod_size _ Kp). pose proof (mod_size _ Kq).
  destruct (mulmod_spec_signed true s (key_qP key) (key_p key) s Hs KqP (mod_ok _ Kp) (ok_raw _ Hs) KqPs (mod_pos _ Kp) ltac:(fold p; lia) ltac:(lia) ltac:(lia)) as (m & E & Hm & Sm & Emm).
  { fold p. rewrite Ems. exact Wm. }
  { intros Sn. fold p. rewrite Ems. assert (Hlt : a < b) by (unfold sval in Evs; rewrite Sn in Evs; pose proof (raw_range s (ok_raw s Hs)); destruct (Z.eq_dec (mag s) 0) as [E0|]; [|lia]; apply used_mag in E0; [|exact Hs]; apply Hs in E0; congruence).
    replace (Z.abs (a - b)) with (b - a) by lia. apply Wn, Hlt. }
  rewrite E. cbn [tracing rbind]. clear E. fold p in Emm. rewrite Evs in Emm. fold h in Emm.
  pose proof (used_mono m (key_p key) Hm (ok_raw _ (mod_ok _ Kp)) ltac:(fold p; lia)) as Hum.
  destruct (mul_comba_spec m (key_q key) m None (ok_raw m Hm) (ok_raw _ (mod_ok _ Kq)) (ok_raw m Hm)) as (t & E & Ht' & Emt & _ & St); [unfold small, B; unfold PSTM_MAX_SIZE in *; lia|].
  rewrite E. cbn [tracing rbind]. clear E. fold q in Emt. rewrite Emm in Emt. assert (St' : sign t = false) by (rewrite St, Sm, (mod_pos _ Kq); destruct (mag t =? 0); reflexivity).
  assert (Hut : (used t <= used (key_p key) + used (key_q key))%nat).
  { apply used_le; [exact Ht'|]. rewrite Emt, pB_add. pose proof (raw_range _ (ok_raw _ (mod_ok _ Kp))) as Rp. pose proof (raw_range _ (ok_raw _ (mod_ok _ Kq))) as Rq. fold p in Rp. fold q in Rq. nia. }
  destruct (pstm_add_spec true t tb t Ht' Htb (ok_raw t Ht')) as (r & E & Hr & Ev & _); [reflexivity| |].
  { rewrite St', Stb. cbn [Bool.eqb]. split; [discriminate|]. split; [intros _; lia|lia]. }
  rewrite E. exists r. split; [reflexivity|]. split; [exact Hr|]. assert (Ev' : sval r = z) by (rewrite Ev; unfold sval, z; rewrite St', Stb, Emt, Emb; ring).
  destruct (sval_pos r Hr ltac:(lia)) as (_ & ->). exact Ev'.
Qed.
End Crt.

(** ** Encryption and decryption *)

Lemma be_word_zero_head l : bytes l -> be_word (0 :: l) = be_word l.
Proof.
  intros Hl. change (0 :: l) with ([0] ++ l). rewrite be_word_app by exact Hl. change (be_word [0]) with 0. rewrite Z.shiftl_0_l, Z.lxor_0_r. reflexivity.
Qed.

(** The number of a padded message is less than the modulus. *)
Lemma block_range random n type msg N :
  (forall n, length (random n) = n /\ bytes (random n)) -> bytes msg -> 0 <= type < 256 -> (length msg + 11 <= n)%nat -> nbytes n (mag N) ->
  0 <= be_word (block random n type msg) < mag N.
Proof.
  intros Hr Hm Ht Hl Hn. pose proof (bytes_block random Hr n type msg Ht Hm) as Hb. pose proof (length_block random Hr n type msg ltac:(lia)) as Ll.
  unfold block in *. cbn [app] in *. inversion Hb as [|? ? _ Hb']; subst. cbn [length] in Ll. rewrite be_word_zero_head by exact Hb'. pose proof (be_word_range _ Hb') as R.
  destruct Hn as [(_ & Hn)|(Hn & _)]; [lia|]. replace (Z.of_nat n - 1) with (Z.of_nat (n - 1)) in Hn by lia.
  match type of R with 0 <= _ < 256 ^ Z.of_nat ?l => replace l with (n - 1)%nat in R by (cbn [length] in Ll |- *; lia) end. lia.
Qed.

Section Messages.
Variable random : nat -> list Z.
Hypothesis Hrandom : forall n, length (random n) = n /\ bytes (random n).

(** The number that is encrypted. *)
Definition plain (key : psRsaKey) (msg : list Z) : Z := be_word (block random (size key) PRIVKEY_TYPE msg).

Lemma encrypt_spec key msg out :
  modulus (key_N key) -> nbytes (size key) (mag (key_N key)) -> ok (key_e key) -> bytes msg -> bytes out -> (length msg + 11 <= size key)%nat ->
  (size key <= length out)%nat -> divides_well (plain key msg) (key_N key) -> base_fits (plain key msg) (key_N key) ->
  psRsaEncryptPub random key msg (length msg) out (length out)
  = Ok (be_bytes (size key) ((plain key msg ^ mag (key_e key)) mod mag (key_N key)) ++ skipn (size key) out, size key).
Proof.
  intros HN Hs He Hm Ho Hl Hlo Hd Hf. unfold psRsaEncryptPub. destruct (Nat.ltb_spec (length out) (size key)); [lia|].
  rewrite pkcs1_pad_spec by (auto; lia). rewrite firstn_all. cbn [tracing rbind]. set (bl := block random (size key) PRIVKEY_TYPE msg).
  assert (Ll : length bl = size key) by (apply length_block; auto; lia). assert (Hb : bytes bl) by (apply bytes_block; auto; unfold PRIVKEY_TYPE; lia).
  assert (Hrange : 0 <= be_word bl < mag (key_N key)) by (apply block_range; auto; unfold PRIVKEY_TYPE; lia).
  assert (Ef : firstn (size key) (bl ++ skipn (size key) out) = bl) by (rewrite firstn_app, <- Ll, firstn_all, Nat.sub_diag; cbn [firstn]; apply app_nil_r).
  rewrite (crypt_spec key HN Hs PUBKEY_TYPE _ (size key) (length out) ((be_word bl ^ mag (key_e key)) mod mag (key_N key))); rewrite ?Ef; try lia.
  - cbn [tracing rbind]. rewrite Nat.eqb_refl. cbn [negb]. rewrite skipn_app, <- Ll, skipn_all, Nat.sub_diag, !Ll. reflexivity.
  - apply Forall_app. split; [exact Hb|]. apply Forall_skipn, Ho.
  - rewrite length_app, length_skipn. lia.
  - rewrite length_app, length_skipn. lia.
  - intros tmp Ht Et. pose proof (public_spec key HN tmp Ht He) as H'. rewrite Et in H'. apply H'; assumption.
  - pose proof (Z.mod_pos_bound (be_word bl ^ mag (key_e key)) (mag (key_N key)) ltac:(lia)). lia.
Qed.

(** The private operation on a ciphertext, with Chinese remainders. *)
Lemma private_spec key c rest :
  modulus (key_N key) -> nbytes (size key) (mag (key_N key)) -> optimized key = true -> crt_key key -> crt_well key c -> bytes rest -> 0 <= c <= mag (key_N key) ->
  exists z, psRsaCrypt key PRIVKEY_TYPE (be_bytes (size key) c ++ rest) (size key) (size key) = Ok (be_bytes (size key) z ++ rest, size key)
    /\ 0 <= z < mag (key_N key) /\ z mod mag (key_p key) = half_p key c /\ z mod mag (key_q key) = half_q key c.
Proof.
  intros HN Hs Hopt HK HW Hr Hc. destruct (crt_residues key c HK) as (Hq & Hp). destruct (crt_bounds key c HK) as (_ & _ & _ & _ & _ & Hz).
  match type of Hz with 0 <= ?z' < _ => set (z := z') in * end. exists z. split; [|rewrite (crt_N key HK); auto].
  assert (Ef : firstn (size key) (be_bytes (size key) c ++ rest) = be_bytes (size key) c).
  { rewrite firstn_app, length_be_bytes, Nat.sub_diag. cbn [firstn]. rewrite app_nil_r. apply firstn_all2. rewrite length_be_bytes. lia. }
  assert (Ec : be_word (be_bytes (size key) c) = c).
  { rewrite be_word_be_bytes. apply Z.mod_small. pose proof (nbytes_range _ _ Hs). lia. }
  rewrite (crypt_spec key HN Hs PRIVKEY_TYPE _ (size key) (size key) z); rewrite ?Ef, ?Ec, ?length_app, ?length_be_bytes; try lia.
  - rewrite skipn_app, length_be_bytes, Nat.sub_diag, skipn_all2 by (rewrite length_be_bytes; lia). reflexivity.
  - apply Forall_app. split; [apply bytes_be_bytes|exact Hr].
  - intros tmp Ht Et. unfold rsa_power. rewrite Z.eqb_refl, Hopt. apply (crt_spec key c HK HW tmp Ht Et).
  - rewrite (crt_N key HK). lia.
Qed.

(** Two residues determine a number below the product. *)
Lemma crt_unique p q u x y : 1 < p -> 1 < q -> (u * q) mod p = 1 -> 0 <= x < p * q -> 0 <= y < p * q -> x mod p = y mod p -> x mod q = y mod q -> x = y.
Proof.
  intros Hp Hq Hu Hx Hy Ep Eq. assert (Dq : (q | x - y)) by (apply Z.mod_divide; [lia|]; rewrite Zminus_mod, Eq, Z.sub_diag; apply Z.mod_0_l; lia).
  destruct Dq as (k & Hk). assert (Dp : (p | q * k)) by (exists ((x - y) / p); rewrite Z.mul_comm, <- Hk; assert (D : (x - y) mod p = 0) by (rewrite Zminus_mod, Ep, Z.sub_diag; apply Z.mod_0_l; lia); pose proof (Z.div_mod (x - y) p ltac:(lia)); lia).
  apply Z.gauss in Dp; [|apply Z.bezout_1_gcd; exists (- (u * q / p)), u; pose proof (Z.div_mod (u * q) p ltac:(lia)); lia].
  destruct Dp as (j & Hj). assert (Ej : x - y = j * (p * q)) by (rewrite Hk, Hj; ring).
  assert (0 < p * q) by lia. assert (-1 < j < 1) by (split; apply (Z.mul_lt_mono_pos_r (p * q)); lia). assert (j = 0) as -> by lia. lia.
Qed.

(** A public and a private key that belong together. *)
Record key_pair (pub priv : psRsaKey) : Prop := {
  pair_N : key_N pub = key_N priv; pair_size : size pub = size priv; pair_modulus : modulus (key_N priv);
  pair_bytes : nbytes (size priv) (mag (key_N priv)); pair_e : ok (key_e pub); pair_opt : optimized priv = true; pair_crt : crt_key priv }.

(** For the message [m] the exponents of the keys are inverse. *)
Definition inverse_for (pub priv : psRsaKey) (m : Z) : Prop :=
  m ^ (mag (key_e pub) * mag (key_dP priv)) mod mag (key_p priv) = m mod mag (key_p priv)
  /\ m ^ (mag (key_e pub) * mag (key_dQ priv)) mod mag (key_q priv) = m mod mag (key_q priv).

Lemma pow_of_mod m e d n k : 0 < n -> 0 < k -> 0 <= e -> 0 <= d -> ((m ^ e mod (n * k)) ^ d) mod n = m ^ (e * d) mod n.
Proof.
  intros Hn Hk He Hd. rewrite Z.pow_mul_r by assumption. rewrite <- Z.mod_pow_l. rewrite Z.mod_mod_divide by (exists k; ring). apply Z.mod_pow_l.
Qed.

Lemma decrypt_of_encrypt pub priv msg rest :
  key_pair pub priv -> bytes msg -> bytes rest -> (length msg + 11 <= size pub)%nat ->
  let m := plain pub msg in let c := (m ^ mag (key_e pub)) mod mag (key_N priv) in
  crt_well priv c -> inverse_for pub priv m ->
  psRsaCrypt priv PRIVKEY_TYPE (be_bytes (size priv) c ++ rest) (size priv) (size priv) = Ok (block random (size priv) PRIVKEY_TYPE msg ++ rest, size priv).
Proof.
  intros [EN Es HN Hs He Hopt HK] Hm Hr Hl m c HW (Ip & Iq). pose proof (mod_big _ HN) as HN1.
  assert (Hc : 0 <= c <= mag (key_N priv)) by (pose proof (Z.mod_pos_bound (m ^ mag (key_e pub)) (mag (key_N priv)) ltac:(lia)); unfold c; lia).
  destruct (private_spec priv c rest HN Hs Hopt HK HW Hr Hc) as (z & E & Hz & Ep & Eq). rewrite E. do 3 f_equal.
  assert (Hmr : 0 <= m < mag (key_N priv)) by (unfold m, plain; rewrite Es; apply block_range; auto; [unfold PRIVKEY_TYPE; lia|lia]).
  pose proof (mod_big _ (crt_p priv HK)) as Hp. pose proof (mod_big _ (crt_q priv HK)) as Hq. pose proof (crt_N priv HK) as Hpq.
  pose proof (raw_range _ (ok_raw _ He)). pose proof (raw_range _ (ok_raw _ (crt_dP priv HK))). pose proof (raw_range _ (ok_raw _ (crt_dQ priv HK))).
  assert (Ez : z = m).
  { apply (crt_unique (mag (key_p priv)) (mag (key_q priv)) (mag (key_qP priv))); auto; try lia; [apply crt_inv, HK|..].
    - rewrite Ep. unfold half_p, c. rewrite Hpq, pow_of_mod by lia. exact Ip.
    - rewrite Eq. unfold half_q, c. rewrite Hpq, Z.mul_comm, pow_of_mod by lia. exact Iq. }
  rewrite Ez. unfold m, plain. rewrite Es. set (bl := block random (size priv) PRIVKEY_TYPE msg).
  assert (Ll : length bl = size priv) by (apply length_block; auto; lia). rewrite <- Ll. apply be_bytes_be_word. apply bytes_block; auto. unfold PRIVKEY_TYPE. lia.
Qed.

(** The number of the ciphertext of a message. *)
Definition cipher (pub priv : psRsaKey) (msg : list Z) : Z := (plain pub msg ^ mag (key_e pub)) mod mag (key_N priv).

Lemma decrypt_spec pub priv msg rest pt :
  key_pair pub priv -> bytes msg -> bytes rest -> (length msg + 11 <= size pub)%nat -> (length msg <= length pt)%nat ->
  crt_well priv (cipher pub priv msg) -> inverse_for pub priv (plain pub msg) ->
  psRsaDecryptPriv priv (be_bytes (size priv) (cipher pub priv msg) ++ rest) (size priv) pt (length pt)
  = Ok (length msg, repeat 0 (size priv) ++ rest, msg ++ skipn (length msg) pt).
Proof.
  intros HP Hm Hr Hl Hpt HW HI. pose proof HP as [EN Es HN Hs He Hopt HK]. unfold psRsaDecryptPriv. rewrite Nat.eqb_refl. cbn [negb].
  pose proof (decrypt_of_encrypt pub priv msg rest HP Hm Hr Hl HW HI) as D. fold (cipher pub priv msg) in D. rewrite D. cbn [tracing rbind].
  rewrite Nat.eqb_refl. cbn [negb]. rewrite unpad_spec by (auto; lia). cbn [rbind].
  pose proof (store_at (E := error) [] (block random (size priv) PRIVKEY_TYPE msg) (repeat 0 (size priv)) rest) as E.
  rewrite repeat_length, length_block in E by (auto; lia). specialize (E eq_refl). cbn [app length] in E. rewrite E. reflexivity.
Qed.

(** C34. Decryption is the inverse of encryption: for keys that belong together, a
    message that fits and random bytes of the right number, [psRsaEncryptPub]
    pads and encrypts it, and [psRsaDecryptPriv] of the result, with Chinese
    remainders, returns its length and stores it; unless one of the four
    exponentiations and divisions on the way meets the lost borrow or the short
    array. *)
Theorem rsa_roundtrip pub priv msg out pt :
  key_pair pub priv -> bytes msg -> bytes out -> (length msg + 11 <= size pub <= length out)%nat -> (length msg <= length pt)%nat ->
  let m := plain pub msg in let c := (m ^ mag (key_e pub)) mod mag (key_N priv) in
  divides_well m (key_N pub) -> base_fits m (key_N pub) -> crt_well priv c -> inverse_for pub priv m ->
  exists ct inb, psRsaEncryptPub random pub msg (length msg) out (length out) = Ok (ct, size pub)
    /\ psRsaDecryptPriv priv ct (size priv) pt (length pt) = Ok (length msg, inb, msg ++ skipn (length msg) pt).
Proof.
  intros HP Hm Ho Hl Hpt m c Hd Hf HW HI. pose proof HP as [EN Es HN Hs He Hopt HK].
  rewrite (encrypt_spec pub msg out); rewrite ?EN, ?Es; auto; try lia; try (rewrite <- EN; assumption).
  do 2 eexists. split; [reflexivity|]. apply (decrypt_spec pub priv msg); auto; [apply bytes_skipn, Ho|lia].
Qed.
End Messages.

(** C36. The heap overflow can be reached from the network: a ciphertext of zeros
    makes [psRsaDecryptPriv] access memory out of bounds, for every private key
    with a prime [p] of three digits or more. *)
Theorem zero_ciphertext_overrun key rest out outlen :
  modulus (key_N key) -> nbytes (size key) (mag (key_N key)) -> optimized key = true -> modulus (key_p key) -> (2 < used (key_p key))%nat -> ok (key_dP key) ->
  bytes rest -> psRsaDecryptPriv key (repeat 0 (size key) ++ rest) (size key) out outlen = Fault.
Proof.
  intros HN Hs Hopt Hp Hu Hd Hr. pose proof HN as [HNo HNs _ HN1 _].
  assert (Ef : firstn (size key) (repeat 0 (size key) ++ rest) = repeat 0 (size key)).
  { rewrite firstn_app, repeat_length, Nat.sub_diag. cbn [firstn]. rewrite app_nil_r. apply firstn_all2. rewrite repeat_length. lia. }
  assert (Ez : be_word (repeat 0 (size key)) = 0).
  { assert (E : be_bytes (size key) 0 = repeat 0 (size key)).
    { rewrite (be_bytes_extend 0 (size key) 0) by (cbn; lia). rewrite Nat.sub_0_r. apply app_nil_r. }
    rewrite <- E, be_word_be_bytes. apply Z.mod_0_l. apply Z.pow_nonzero; lia. }
  destruct (read_spec key HN Hs (repeat 0 (size key) ++ rest) (size key)) as (tmp & E & Ht & Em).
  { apply Forall_app. split; [|exact Hr]. apply Forall_forall. intros x Hx. apply repeat_spec in Hx. subst x. unfold in_u. lia. }
  { rewrite length_app, repeat_length. lia. }
  { lia. }
  { rewrite Ef, Ez. lia. }
  rewrite Ef, Ez in Em. unfold psRsaDecryptPriv. rewrite Nat.eqb_refl. cbn [negb]. unfold psRsaCrypt. rewrite E. cbn [failing rbind].
  assert (Ec : pstm_cmp (key_N key) tmp = Ok (compare3 (mag (key_N key)) (mag tmp))) by (unfold pstm_cmp; rewrite HNs, (op_pos _ Ht); cbn [Bool.eqb negb]; apply cmp_mag_spec; [exact HNo|apply op_ok, Ht]).
  rewrite Ec. cbn [rbind]. rewrite compare3_lt, Em. destruct (Z.ltb_spec (mag (key_N key)) 0); [lia|]. unfold rsa_power. rewrite Z.eqb_refl, Hopt. unfold crt.
  pose proof (mod_big _ Hp) as Hp1. assert (Hfar : far 0 (mag (key_p key))) by (intros k Hk; rewrite Z.mul_0_r in Hk; pose proof (pB_pos k); nia).
  rewrite exptmod_faults; auto; rewrite Em.
  - split; [lia|]. rewrite Z.mod_0_l, Z.mul_0_l by lia. exact Hfar.
  - intros Hfit. specialize (Hfit Hu). unfold base in Hfit. rewrite Z.mul_0_l, Z.mod_0_l in Hfit by lia. pose proof (pB_pos (used (key_p key) - 3)). lia.
Qed.

(** ** A key *)

Definition sample_random (n : nat) : list Z := repeat 7 n.

Definition sample_key : psRsaKey :=
  let p := 255258070706747 in let q := 217747151580923 in
  mk_key (num 1 3) (num 1 1) (num 3 (p * q)) (num 2 186244508916617) (num 2 170172047137831) (num 2 145164767720615)
    (mk_pstm 2 false (digits 3 p)) (mk_pstm 2 false (digits 3 q)) 12 true.

Definition sample_m : Z := 2451037838199071699304513.
Definition sample_c : Z := 47949414019190474716403865601.

Lemma sample_halves : half_p sample_key sample_c = 50452381644811 /\ half_q sample_key sample_c = 97323000555326.
Proof. unfold half_p, half_q. rewrite <- !Zpow_mod_correct by (vm_compute; first [reflexivity|discriminate]). split; vm_compute; reflexivity. Qed.

Lemma sample_pair : key_pair sample_key sample_key.
Proof.
  assert (Hm : forall P, ok_b P = true -> negb (sign P) && Z.odd (mag P) && (1 <? mag P) && (2 * used P + 1 <? PSTM_MAX_SIZE)%nat = true -> modulus P).
  { intros P H1 H2. rewrite !Bool.andb_true_iff, Bool.negb_true_iff, Z.ltb_lt, Nat.ltb_lt in H2. destruct H2 as (((H2 & H3) & H4) & H5). split; auto using ok_b_ok. }
  split; try reflexivity; [apply Hm; vm_compute; reflexivity|right; vm_compute; split; [discriminate|reflexivity]|apply ok_b_ok; reflexivity|].
  split; try (apply Hm; vm_compute; reflexivity); try (apply ok_b_ok; vm_compute; reflexivity); try (vm_compute; reflexivity); try (cbn; lia).
Qed.

Lemma sample_well : crt_well sample_key sample_c.
Proof.
  destruct sample_halves as (Ea & Eb). split; rewrite ?Ea, ?Eb.
  1, 2: split; [intros _|]; apply (far_b_far 5); vm_compute; reflexivity.
  1, 2: intros H; exfalso; cbn in H; lia.
  - right. vm_compute. reflexivity.
  - apply (far_b_far 5); vm_compute; reflexivity.
  - intros _. right. vm_compute. reflexivity.
Qed.

Lemma sample_inverse : inverse_for sample_key sample_key sample_m.
Proof. unfold inverse_for. rewrite <- !Zpow_mod_correct by (vm_compute; first [reflexivity|discriminate]). split; vm_compute; reflexivity. Qed.

Lemma rsa_roundtrip_witness :
  exists ct inb, psRsaEncryptPub sample_random sample_key [65] 1 (repeat 0 20) 20 = Ok (ct, 12%nat)
    /\ psRsaDecryptPriv sample_key ct 12 [9; 9; 9] 3 = Ok (1%nat, inb, [65; 9; 9]).
Proof.
  assert (Em : plain sample_random sample_key [65] = sample_m) by (vm_compute; reflexivity).
  assert (Ec : sample_m ^ mag (key_e sample_key) mod mag (key_N sample_key) = sample_c) by (vm_compute; reflexivity).
  apply (rsa_roundtrip sample_random ltac:(intros n; split; [apply repeat_length|apply Forall_forall; intros x Hx; apply repeat_spec in Hx; subst x; split; reflexivity || discriminate])
    sample_key sample_key [65] (repeat 0 20) [9; 9; 9]).
  - apply sample_pair.
  - repeat constructor; discriminate.
  - repeat constructor; discriminate.
  - cbn. lia.
  - cbn. lia.
  - rewrite Em. split; [intros H; exfalso; vm_compute in H; apply H; reflexivity|]. apply (far_b_far 5); vm_compute; reflexivity.
  - rewrite Em. intros _. vm_compute. discriminate.
  - rewrite Em, Ec. apply sample_well.
  - rewrite Em. apply sample_inverse.
Defined.

Definition long_key : psRsaKey :=
  mk_key (num 1 3) (num 1 1) (num 4 (2 ^ 127 - 1)) (num 1 1) (num 1 5) (num 1 5) (num 3 (2 ^ 89 - 1)) (num 2 (2 ^ 61 - 1)) 16 true.

Lemma zero_ciphertext_overrun_witness : psRsaDecryptPriv long_key (repeat 0 16 ++ [1]) 16 (repeat 0 48) 48 = Fault.
Proof.
  apply (zero_ciphertext_overrun long_key [1]).
  - apply sample_modulus.
  - right. vm_compute. split; [discriminate|reflexivity].
  - reflexivity.
  - split; [apply ok_b_ok; reflexivity|reflexivity|reflexivity|vm_compute; reflexivity|unfold PSTM_MAX_SIZE; cbn; lia].
  - cbn. lia.
  - apply ok_b_ok. reflexivity.
  - repeat constructor; discriminate.
Defined.
End RsaS.
