(* ===== verification/Der.v ===== *)
(** * DER: certificates and private keys

    The DER parser of networking/tls.c: [get_der_len] to [find_key_in_der_cert],
    [get_server_cert], [process_server_key] and [load_rsa_priv_key]. Pointers
    into an array are indices, and every access is checked. *)

From Stdlib Require Import ZArith List Lia Bool.
From S2P Require Import Prelude Words Mem Pstm Rsa.
Import ListNotations.
Local Open Scope Z_scope.
Local Open Scope res_scope.

Module Der.
Import Pstm Rsa.

Definition GOT_CERT_RSA_KEY_ALG : Z := Z.shiftl 1 1.
Definition GOT_EC_KEY : Z := Z.shiftl 1 3.
Definition USE_EC_CURVE_X25519 : Z := Z.shiftl 1 4.
Definition HANDSHAKE_CERTIFICATE : Z := 11.

Definition get24be (buf : list Z) (p : nat) : result Z :=
  let! a := load1 buf p in
  let! b := load1 buf (p + 1) in
  let! c := load1 buf (p + 2) in
  Ok (256 * (256 * a + b) + c).

Definition binary_to_pstm (buf : list Z) (bin_ptr len : nat) : result pstm_int :=
  pstm_read_unsigned_bin (pstm_init_for_read_unsigned_bin len) (skipn bin_ptr buf) len.

(** [p - q] *)
Definition distance (p q : nat) : Z := Z.of_nat p - Z.of_nat q.

(** [*bodyp] and the length. *)
Definition get_der_len (buf : list Z) (der bound : nat) : result (nat * nat) :=
  if distance bound der <? 2 then Die Exit else
  let! len := load1 buf (der + 1) in
  let! (der, len) := (if 0x80 <=? len then
      if (len =? 0x80) || (distance bound der <? len - 0x7e) then Die Exit else
      let! len1 := load1 buf (der + 2) in
      if 0x82 <? len then Die Exit else
      if len =? 0x82 then let! yy := load1 buf (der + 3) in Ok ((der + 1 + 1)%nat, 0x100 * len1 + yy)
      else Ok ((der + 1)%nat, len1)
    else Ok (der, len)) in
  let der := (der + 2)%nat in
  if distance bound der <? len then Die Exit else Ok (der, Z.to_nat len).

(** The new [der] and the new [end]. *)
Definition enter_der_item (buf : list Z) (der bound : nat) : result (nat * nat) :=
  let! (new_der, len) := get_der_len buf der bound in
  Ok (new_der, (new_der + len)%nat).

Definition skip_der_item (buf : list Z) (der bound : nat) : result nat :=
  let! (new_der, len) := get_der_len buf der bound in
  Ok (new_der + len)%nat.

Definition der_binary_to_pstm (buf : list Z) (der bound : nat) : result pstm_int :=
  let! (bin_ptr, len) := get_der_len buf der bound in
  binary_to_pstm buf bin_ptr len.

Definition OID_RSA_KEY_ALG : list Z := [0x30; 0x0d; 0x06; 0x09; 0x2a; 0x86; 0x48; 0x86; 0xf7; 0x0d; 0x01; 0x01; 0x01].
Definition OID_ECDSA_KEY_ALG : list Z := [0x30; 0x13; 0x06; 0x07; 0x2a; 0x86; 0x48; 0xce; 0x3d; 0x02; 0x01].

(** [memcmp(der, oid, sizeof(oid)) == 0] *)
Definition memcmp_eq (buf : list Z) (der : nat) (oid : list Z) : result bool :=
  let! d := load buf der (length oid) in
  Ok (if list_eq_dec Z.eq_dec d oid then true else false).

(** The public key in a certificate: [N], [e] and the size. *)
Definition public_key (buf : list Z) (der bound : nat) : result (pstm_int * pstm_int * nat) :=
  let! der := skip_der_item buf der bound in
  let! (der, bound) := enter_der_item buf der bound in
  if distance bound der <? 14 then Die Exit else
  let! b := load1 buf der in
  if negb (b =? 0) then Die Exit else
  let der := (der + 1)%nat in
  let! (der, bound) := enter_der_item buf der bound in
  let! N := der_binary_to_pstm buf der bound in
  let! der := skip_der_item buf der bound in
  let! e := der_binary_to_pstm buf der bound in
  let! size := pstm_unsigned_bin_size N in
  Ok (N, e, size).

(** The new flags, and the key when it is an RSA key. *)
Definition find_key_in_der_cert (flags : Z) (buf : list Z) (der len : nat) : result (Z * option (pstm_int * pstm_int * nat)) :=
  let bound := (der + len)%nat in
  let! (der, bound) := enter_der_item buf der bound in
  let! (der, bound) := enter_der_item buf der bound in
  let! tag := load1 buf der in
  let! der := (if tag =? 0xa0 then skip_der_item buf der bound else Ok der) in
  let! der := skip_der_item buf der bound in
  let! der := skip_der_item buf der bound in
  let! der := skip_der_item buf der bound in
  let! der := skip_der_item buf der bound in
  let! der := skip_der_item buf der bound in
  let! (der, bound) := enter_der_item buf der bound in
  let! rsa := memcmp_eq buf der OID_RSA_KEY_ALG in
  let! flags := (if rsa then Ok (Z.lor flags GOT_CERT_RSA_KEY_ALG) else
                 let! ecdsa := memcmp_eq buf der OID_ECDSA_KEY_ALG in
                 if ecdsa then Ok flags else Die Exit) in
  if Z.land flags GOT_CERT_RSA_KEY_ALG =? 0 then Ok (flags, None) else
  let! key := public_key buf der bound in
  Ok (flags, Some key).

(** [inbuf] holds a record with [len] bytes after its header of five bytes. *)
Definition get_server_cert (flags : Z) (inbuf : list Z) (len : nat) : result (Z * option (pstm_int * pstm_int * nat)) :=
  let certbuf := 5%nat in
  let! type := load1 inbuf certbuf in
  if negb (type =? HANDSHAKE_CERTIFICATE) then Die Exit else
  let len := Z.of_nat len in
  let! len1 := get24be inbuf (certbuf + 1) in
  if len - 4 <? len1 then Die Exit else
  let len := len1 in
  let! len1 := get24be inbuf (certbuf + 4) in
  if len - 3 <? len1 then Die Exit else
  let len := len1 in
  let! len1 := get24be inbuf (certbuf + 7) in
  if len - 3 <? len1 then Die Exit else
  let len := len1 in
  if len =? 0 then Ok (flags, None) else find_key_in_der_cert flags inbuf (certbuf + 10) (Z.to_nat len).

(** The new flags and the new [ecc_pub_key32]. *)
Definition process_server_key (flags : Z) (ecc_pub_key32 inbuf : list Z) (len : nat) : result (Z * list Z) :=
  let keybuf := 5%nat in
  let! len1 := get24be inbuf (keybuf + 1) in
  if Z.of_nat len - 4 <? len1 then Die Exit else
  if len1 <? 1 + 2 + 1 + 32 then Die Exit else
  let keybuf := (keybuf + 4)%nat in
  let! t32 := load inbuf keybuf 4 in
  let keybuf := (keybuf + 4)%nat in
  let! (flags, key) := (if list_eq_dec Z.eq_dec t32 [0x03; 0x00; 0x1d; 0x20] then
      let! d := load inbuf keybuf 32 in
      let! key := store ecc_pub_key32 0 d in
      Ok (Z.lor flags USE_EC_CURVE_X25519, key)
    else if list_eq_dec Z.eq_dec t32 [0x03; 0x00; 0x17; 0x41] then
      let! b := load1 inbuf keybuf in
      if negb (b =? 4) then Die Exit else
      let! d := load inbuf (keybuf + 1) (2 * 32) in
      let! key := store ecc_pub_key32 0 d in
      Ok (flags, key)
    else Die Exit) in
  Ok (Z.lor flags GOT_EC_KEY, key).

(** The numbers of a PKCS#1 key, after the version. *)
Definition key_components (buf : list Z) (der bound : nat) : result psRsaKey :=
  let! N := der_binary_to_pstm buf der bound in
  let! der := skip_der_item buf der bound in
  let! e := der_binary_to_pstm buf der bound in
  let! der := skip_der_item buf der bound in
  let! d := der_binary_to_pstm buf der bound in
  let! der := skip_der_item buf der bound in
  let! p := der_binary_to_pstm buf der bound in
  let! der := skip_der_item buf der bound in
  let! q := der_binary_to_pstm buf der bound in
  let! der := skip_der_item buf der bound in
  let! dP := der_binary_to_pstm buf der bound in
  let! der := skip_der_item buf der bound in
  let! dQ := der_binary_to_pstm buf der bound in
  let! der := skip_der_item buf der bound in
  let! qP := der_binary_to_pstm buf der bound in
  let! size := pstm_unsigned_bin_size N in
  Ok (mk_key e d N qP dP dQ p q size true).

Definition load_rsa_priv_key (buf : list Z) (sz : nat) : result psRsaKey :=
  let! (der, bound) := enter_der_item buf 0 sz in
  let! der := skip_der_item buf der bound in
  let! tag := load1 buf der in
  let! (der, bound) := (if tag =? 0x30 then
      let! der := skip_der_item buf der bound in
      let! (der, bound) := enter_der_item buf der bound in
      let! (der, bound) := enter_der_item buf der bound in
      let! der := skip_der_item buf der bound in
      Ok (der, bound)
    else Ok (der, bound)) in
  key_components buf der bound.
End Der.
