(* ===== verification/DerSpec.v ===== *)
(** * DER: what is parsed

    The parser of networking/tls.c stays inside the array it is given, but for
    13 bytes behind a certificate; an encoded private key is read back. *)

From Stdlib Require Import ZArith List Lia Bool.
From S2P Require Import Prelude Words Mem Pstm PstmVal PstmOps Rsa Der.
Import ListNotations.
Local Open Scope Z_scope.
Local Open Scope res_scope.

Module DerS.
Import Pstm PstmV PstmO Rsa Der.

(** ** Numbers of any length *)

(** The bytes that are read: the last [4 * PSTM_MAX_SIZE]. *)
Definition significant (b : list Z) : list Z := skipn (length b - PSTM_MAX_SIZE * 4) b.

Lemma for_down_ext {S} n (f g : nat -> S -> result S) : (forall i s, (i < n)%nat -> f i s = g i s) -> forall s, for_down n f s = for_down n g s.
Proof.
  induction n as [|n IH]; intros H s; cbn [for_down]; [reflexivity|]. rewrite H by lia. destruct (g n s) as [s'| | |]; try reflexivity. cbn [rbind].
  apply IH. intros i s0 Hi. apply H. lia.
Qed.

Lemma load1_skipn (b : list Z) k i : @load1 error Z (skipn k b) i = load1 b (k + i).
Proof. unfold load1. rewrite nth_error_skipn. reflexivity. Qed.

Lemma read_excess a b c : (PSTM_MAX_SIZE * 4 < c)%nat ->
  pstm_read_unsigned_bin a b c = pstm_read_unsigned_bin a (skipn (c - PSTM_MAX_SIZE * 4) b) (PSTM_MAX_SIZE * 4).
Proof.
  intros Hc. unfold pstm_read_unsigned_bin. rewrite Nat.sub_diag, Nat.sub_0_r. set (m := (PSTM_MAX_SIZE * 4)%nat) in *. replace (c - (c - m))%nat with m by lia.
  erewrite for_down_ext; [reflexivity|]. intros i s Hi. cbv beta. rewrite load1_skipn. reflexivity.
Qed.

Lemma binary_spec (buf : list Z) pos (l rest : list Z) :
  bytes buf -> skipn pos buf = l ++ rest ->
  exists n, binary_to_pstm buf pos (length l) = Ok n /\ ok n /\ sign n = false /\ mag n = be_word (significant l) /\ (used n < alloc n)%nat /\ (2 <= alloc n)%nat.
Proof.
  intros Hb E. unfold binary_to_pstm. rewrite E. assert (Hlr : bytes (l ++ rest)) by (rewrite <- E; apply Forall_skipn, Hb).
  set (m := (PSTM_MAX_SIZE * 4)%nat). set (a := pstm_init_for_read_unsigned_bin (length l)).
  assert (La : alloc a = (length l / 4 * (4 * 8) / 32 + 2)%nat) by apply alloc_init. change (4 * 8)%nat with 32%nat in La. rewrite Nat.div_mul in La by lia.
  assert (Hlen : forall c, (c <= length l)%nat -> ((c + 3) / 4 <= length l / 4 + 1)%nat).
  { intros c Hc. transitivity ((length l + 3) / 4)%nat; [apply Nat.Div0.div_le_mono; lia|]. apply Nat.lt_succ_r, Nat.Div0.div_lt_upper_bound. pose proof (Nat.div_mod_eq (length l) 4). pose proof (Nat.mod_upper_bound (length l) 4 ltac:(lia)). lia. }
  assert (Hread : exists b' c, pstm_read_unsigned_bin a (l ++ rest) (length l) = pstm_read_unsigned_bin a b' c /\ bytes b' /\ (c <= length b')%nat /\ (c <= m)%nat
     /\ (c <= length l)%nat /\ firstn c b' = significant l).
  { unfold significant. fold m. destruct (Nat.le_gt_cases (length l) m) as [Hle|Hgt].
    - exists (l ++ rest), (length l). split; [reflexivity|]. split; [exact Hlr|]. split; [rewrite length_app; lia|]. split; [exact Hle|]. split; [lia|].
      replace (length l - m)%nat with O by lia. rewrite firstn_app, Nat.sub_diag, firstn_all. cbn [firstn skipn]. apply app_nil_r.
    - exists (skipn (length l - m) (l ++ rest)), m. split; [apply read_excess; exact Hgt|]. split; [apply Forall_skipn, Hlr|].
      rewrite length_skipn, length_app. split; [lia|]. split; [lia|]. split; [lia|]. rewrite skipn_app. replace (length l - m - length l)%nat with O by lia.
      cbn [skipn]. rewrite firstn_app, length_skipn. replace (m - (length l - (length l - m)))%nat with O by lia. cbn [firstn]. rewrite app_nil_r.
      apply firstn_all2. rewrite length_skipn. lia. }
  destruct Hread as (b' & c & Er & Hb' & Hc & Hcm & Hcl & Ef). rewrite Er.
  destruct (read_bin_spec a b' c Hb' Hc Hcm) as (n & En & Hn & Sn & Em & El). exists n. rewrite Ef in Em. specialize (Hlen c Hcl).
  assert (Hu : (used n <= (c + 3) / 4)%nat).
  { apply used_le; [exact Hn|]. rewrite Em, <- Ef, pB_pow. assert (Hbf : bytes (firstn c b')) by (apply Forall_firstn, Hb'). pose proof (be_word_range _ Hbf) as R.
    rewrite length_firstn, Nat.min_l in R by exact Hc. change 256 with (2 ^ 8) in R. rewrite <- Z.pow_mul_r in R by lia. eapply Z.lt_le_trans; [apply R|].
    apply Z.pow_le_mono_r; [lia|]. pose proof (Nat.div_mod_eq (c + 3) 4). pose proof (Nat.mod_upper_bound (c + 3) 4 ltac:(lia)). lia. }
  split; [exact En|]. split; [exact Hn|]. split; [exact Sn|]. split; [exact Em|]. split; lia.
Qed.

(** ** No access outside the array *)

(** The program ends, with a result that satisfies [P] or with an error. *)
Definition alive {A} (P : A -> Prop) (m : result A) : Prop := ends (fun _ : error => True) P m.

Lemma alive_bind {A C} (P : A -> Prop) (Q : C -> Prop) (m : result A) (f : A -> result C) :
  alive P m -> (forall a, P a -> alive Q (f a)) -> alive Q (rbind m f).
Proof. apply ends_bind. Qed.

Lemma alive_die {A} (P : A -> Prop) e : alive P (Die e).
Proof. exact I. Qed.

Section Safety.
Variable buf : list Z.
Hypothesis Hb : bytes buf.

Lemma byte_at i : 0 <= nth i buf 0 < 256.
Proof.
  destruct (Nat.lt_ge_cases i (length buf)) as [Hi|Hi]; [|rewrite nth_overflow by exact Hi; lia].
  unfold bytes in Hb. rewrite Forall_forall in Hb. apply Hb, nth_In, Hi.
Qed.

Lemma der_len_safe der bound : (bound <= length buf)%nat -> alive (fun '(body, len) => (der + 2 <= body)%nat /\ (body + len <= bound)%nat) (get_der_len buf der bound).
Proof.
  intros Hl. unfold get_der_len, distance. destruct (Z.ltb_spec (Z.of_nat bound - Z.of_nat der) 2) as [|H2]; [exact I|].
  apply ends_load1 with (d := 0); [lia|]. pose proof (byte_at (der + 1)) as Hlen. set (len := nth (der + 1) buf 0) in *.
  apply alive_bind with (P := fun '(d, l) => (der <= d)%nat /\ (d + 2 <= bound)%nat /\ 0 <= l).
  - destruct (Z.leb_spec 128 len) as [Hlong|Hshort]; [|cbn; lia]. destruct (Z.eqb_spec len 128) as [|Hne]; [exact I|]. cbn [orb].
    destruct (Z.ltb_spec (Z.of_nat bound - Z.of_nat der) (len - 126)) as [|Hge]; [exact I|]. apply ends_load1 with (d := 0); [lia|]. pose proof (byte_at (der + 2)).
    destruct (Z.ltb_spec 130 len); [exact I|]. destruct (Z.eqb_spec len 130); [|cbn; lia]. apply ends_load1 with (d := 0); [lia|]. pose proof (byte_at (der + 3)). apply ends_ok. cbv beta iota. lia.
  - intros (d & l) (H1 & H3 & H4). cbv beta iota. destruct (Z.ltb_spec (Z.of_nat bound - Z.of_nat (d + 2)) l); [exact I|]. cbn. lia.
Qed.

Lemma enter_safe der bound : (bound <= length buf)%nat -> alive (fun '(d, b) => (d <= b)%nat /\ (b <= bound)%nat) (enter_der_item buf der bound).
Proof. intros Hl. eapply alive_bind; [apply der_len_safe, Hl|]. intros (body & len) (H1 & H2). cbn. lia. Qed.

Lemma skip_safe der bound : (bound <= length buf)%nat -> alive (fun d => (d <= bound)%nat) (skip_der_item buf der bound).
Proof. intros Hl. eapply alive_bind; [apply der_len_safe, Hl|]. intros (body & len) (H1 & H2). cbn. lia. Qed.

Definition number (n : pstm_int) : Prop := ok n /\ sign n = false /\ (used n < alloc n)%nat.

Lemma number_safe der bound : (bound <= length buf)%nat -> alive number (der_binary_to_pstm buf der bound).
Proof.
  intros Hl. eapply alive_bind; [apply der_len_safe, Hl|]. intros (body & len) (H1 & H2). cbv beta iota.
  destruct (binary_spec buf body (firstn len (skipn body buf)) (skipn len (skipn body buf)) Hb) as (n & E & Hn & Sn & _ & Hu & _); [symmetry; apply firstn_skipn|].
  rewrite length_firstn, length_skipn, Nat.min_l in E by lia. rewrite E. split; [exact Hn|]. split; [exact Sn|exact Hu].
Qed.

Lemma memcmp_safe der oid : (der + length oid <= length buf)%nat -> alive (fun _ => True) (memcmp_eq buf der oid).
Proof. intros Hl. unfold memcmp_eq. rewrite load_ok by exact Hl. exact I. Qed.

Lemma get24be_safe p : (p + 3 <= length buf)%nat -> alive (fun v => 0 <= v) (get24be buf p).
Proof.
  intros Hl. pose proof (byte_at p). pose proof (byte_at (p + 1)). pose proof (byte_at (p + 2)). unfold get24be.
  do 3 (apply ends_load1 with (d := 0); [lia|]). apply ends_ok. lia.
Qed.

(** A key with two numbers and the number of bytes of the first. *)
Definition key_found (k : pstm_int * pstm_int * nat) : Prop := let '(N, e, size) := k in number N /\ number e /\ nbytes size (mag N).

Ltac skip_item := eapply alive_bind; [apply skip_safe; lia|cbv beta; intros].
Ltac enter_item := eapply alive_bind; [apply enter_safe; lia|intros [? ?] [? ?]; cbv beta iota].

Lemma public_key_safe der bound : (bound <= length buf)%nat -> alive key_found (public_key buf der bound).
Proof.
  intros Hl. unfold public_key. skip_item. enter_item. unfold distance. destruct (Z.ltb_spec (Z.of_nat n0 - Z.of_nat n) 14); [exact I|].
  apply ends_load1 with (d := 0); [lia|]. destruct (negb _); [exact I|]. enter_item.
  eapply alive_bind; [apply number_safe; lia|]. intros N HN. skip_item. eapply alive_bind; [apply number_safe; lia|]. intros e He.
  destruct (bin_size_spec N (proj1 HN)) as (k & E & Hk). rewrite E. split; [exact HN|]. split; [exact He|exact Hk].
Qed.

(** The comparison with the object identifiers reads up to 13 bytes behind the certificate. *)
Lemma find_key_safe flags der len : (der + len + 13 <= length buf)%nat ->
  alive (fun '(_, k) => match k with Some k => key_found k | None => True end) (find_key_in_der_cert flags buf der len).
Proof.
  intros Hl. unfold find_key_in_der_cert. enter_item. enter_item. apply ends_load1 with (d := 0); [lia|].
  eapply alive_bind with (P := fun d => (d <= n2)%nat); [destruct (_ =? _); [apply skip_safe; lia|cbn; lia]|]. intros d Hd. do 5 skip_item. enter_item.
  eapply alive_bind; [apply memcmp_safe; cbn [OID_RSA_KEY_ALG length]; lia|]. intros rsa _.
  eapply alive_bind with (P := fun _ => True).
  { destruct rsa; [exact I|]. eapply alive_bind; [apply memcmp_safe; cbn [OID_ECDSA_KEY_ALG length]; lia|]. intros ecdsa _. destruct ecdsa; exact I. }
  intros flags' _. destruct (_ =? 0); [exact I|]. eapply alive_bind; [apply public_key_safe; lia|]. intros k Hk. exact Hk.
Qed.

Lemma server_cert_safe flags len : (10 <= len)%nat -> (5 + len + 13 <= length buf)%nat ->
  alive (fun '(_, k) => match k with Some k => key_found k | None => True end) (get_server_cert flags buf len).
Proof.
  intros H10 Hl. unfold get_server_cert. apply ends_load1 with (d := 0); [lia|]. destruct (negb _); [exact I|].
  eapply alive_bind; [apply get24be_safe; lia|]. intros l1 H1. destruct (Z.ltb_spec (Z.of_nat len - 4) l1); [exact I|].
  eapply alive_bind; [apply get24be_safe; lia|]. intros l2 H2. destruct (Z.ltb_spec (l1 - 3) l2); [exact I|].
  eapply alive_bind; [apply get24be_safe; lia|]. intros l3 H3. destruct (Z.ltb_spec (l2 - 3) l3); [exact I|].
  destruct (l3 =? 0); [exact I|]. apply find_key_safe. lia.
Qed.

Lemma components_safe der bound : (bound <= length buf)%nat ->
  alive (fun k => Forall number [key_N k; key_e k; key_d k; key_p k; key_q k; key_dP k; key_dQ k; key_qP k] /\ nbytes (size k) (mag (key_N k))) (key_components buf der bound).
Proof.
  intros Hl. unfold key_components. do 7 (eapply alive_bind; [apply number_safe; lia|]; intros ? ?; skip_item).
  eapply alive_bind; [apply number_safe; lia|]. intros ? ?. match goal with |- context [pstm_unsigned_bin_size ?N] => destruct (bin_size_spec N) as (k & E & Hk) end; [match goal with H : number ?N |- ok ?N => apply H end|].
  rewrite E. apply ends_ok. cbn [key_N key_e key_d key_p key_q key_dP key_dQ key_qP size].
  split; [repeat (apply Forall_cons; [assumption|]); apply Forall_nil|exact Hk].
Qed.

(** One byte behind the key is read. *)
Lemma load_rsa_safe sz : (sz < length buf)%nat ->
  alive (fun k => Forall number [key_N k; key_e k; key_d k; key_p k; key_q k; key_dP k; key_dQ k; key_qP k] /\ nbytes (size k) (mag (key_N k))) (load_rsa_priv_key buf sz).
Proof.
  intros Hl. unfold load_rsa_priv_key. enter_item. skip_item. apply ends_load1 with (d := 0); [lia|].
  eapply alive_bind with (P := fun '(_, b) => (b <= sz)%nat).
  { destruct (_ =? _); [|cbn; lia]. skip_item. enter_item. enter_item. skip_item. cbn. lia. }
  intros [d b] Hdb. apply components_safe. lia.
Qed.
End Safety.

(** ** Encoded items *)

Definition der_len (n : nat) : list Z :=
  if (n <? 128)%nat then [Z.of_nat n] else if (n <? 256)%nat then [0x81; Z.of_nat n] else [0x82; Z.of_nat (n / 256); Z.of_nat (n mod 256)].
Definition item (tag : Z) (body : list Z) : list Z := tag :: der_len (length body) ++ body.

(** A key as in PKCS#1, and as in PKCS#8. *)
Definition key_body (ns : list (list Z)) : list Z := concat (map (item 2) ([0] :: ns)).
Definition pkcs1 (ns : list (list Z)) : list Z := item 0x30 (key_body ns).
Definition wrapper (alg : list Z) (ns : list (list Z)) : list Z := item 2 [0] ++ item 0x30 alg ++ item 4 (pkcs1 ns).
Definition pkcs8 (alg : list Z) (ns : list (list Z)) : list Z := item 0x30 (wrapper alg ns).

Lemma load1_from (buf l : list Z) pos k : skipn pos buf = l -> @load1 error Z buf (pos + k) = load1 l k.
Proof. intros <-. symmetry. apply load1_skipn. Qed.

Lemma skipn_next {A} (l a b : list A) pos : skipn pos l = a ++ b -> skipn (pos + length a) l = b.
Proof. intros E. rewrite Nat.add_comm, <- skipn_skipn, E, skipn_app, skipn_all, Nat.sub_diag. reflexivity. Qed.

Section Items.
Variable buf : list Z.
Hypothesis Hb : bytes buf.

Definition hdr (body : list Z) : nat := S (length (der_len (length body))).

Lemma length_item tag body : length (item tag body) = (hdr body + length body)%nat.
Proof. unfold item, hdr. cbn [length]. rewrite length_app. lia. Qed.

Lemma len_at pos bound tag body rest :
  skipn pos buf = item tag body ++ rest -> (length body < 256 * 256)%nat -> (pos + length (item tag body) <= bound)%nat ->
  get_der_len buf pos bound = Ok ((pos + hdr body)%nat, length body) /\ skipn (pos + hdr body) buf = body ++ rest.
Proof.
  intros E Hl Hbound. rewrite length_item in Hbound. split.
  2:{ unfold item in E. rewrite app_comm_cons, <- app_assoc in E. apply skipn_next in E. exact E. }
  unfold get_der_len, distance. unfold hdr in *. set (n := length body) in *.
  assert (Hh : (1 <= length (der_len n) <= 3)%nat) by (unfold der_len; destruct (n <? 128)%nat; [|destruct (n <? 256)%nat]; cbn; lia).
  destruct (Z.ltb_spec (Z.of_nat bound - Z.of_nat pos) 2); [lia|]. rewrite !(load1_from buf _ pos _ E). unfold item. fold n. unfold der_len in *.
  destruct (Nat.ltb_spec n 128) as [H1|H1]; [|destruct (Nat.ltb_spec n 256) as [H2|H2]]; cbn [app length load1 nth_error rbind] in *.
  - destruct (Z.leb_spec 128 (Z.of_nat n)); [lia|]. cbn [rbind]. destruct (Z.ltb_spec (Z.of_nat bound - Z.of_nat (pos + 2)) (Z.of_nat n)); [lia|]. rewrite Nat2Z.id. reflexivity.
  - change (128 <=? 129) with true. change (129 =? 128) with false. change (130 <? 129) with false. change (129 =? 130) with false. cbn [orb].
    destruct (Z.ltb_spec (Z.of_nat bound - Z.of_nat pos) (129 - 126)); [lia|]. cbn [rbind].
    destruct (Z.ltb_spec (Z.of_nat bound - Z.of_nat (pos + 1 + 2)) (Z.of_nat n)); [lia|]. rewrite Nat2Z.id. do 2 f_equal. lia.
  - change (128 <=? 130) with true. change (130 =? 128) with false. change (130 <? 130) with false. change (130 =? 130) with true. cbn [orb].
    destruct (Z.ltb_spec (Z.of_nat bound - Z.of_nat pos) (130 - 126)); [lia|]. cbn [rbind]. pose proof (Nat.div_mod_eq n 256) as En.
    destruct (Z.ltb_spec (Z.of_nat bound - Z.of_nat (pos + 1 + 1 + 2)) (256 * Z.of_nat (n / 256) + Z.of_nat (n mod 256))); [lia|]. do 2 f_equal; lia.
Qed.

Lemma enter_at pos bound tag body rest :
  skipn pos buf = item tag body ++ rest -> (length body < 256 * 256)%nat -> (pos + length (item tag body) <= bound)%nat ->
  enter_der_item buf pos bound = Ok ((pos + hdr body)%nat, (pos + length (item tag body))%nat) /\ skipn (pos + hdr body) buf = body ++ rest.
Proof.
  intros E Hl Hbound. destruct (len_at pos bound tag body rest E Hl Hbound) as (Eg & Es). split; [|exact Es]. unfold enter_der_item. rewrite Eg. cbn [rbind].
  rewrite length_item. do 2 f_equal. lia.
Qed.

Lemma skip_at pos bound tag body rest :
  skipn pos buf = item tag body ++ rest -> (length body < 256 * 256)%nat -> (pos + length (item tag body) <= bound)%nat ->
  skip_der_item buf pos bound = Ok (pos + length (item tag body))%nat /\ skipn (pos + length (item tag body)) buf = rest.
Proof.
  intros E Hl Hbound. destruct (len_at pos bound tag body rest E Hl Hbound) as (Eg & _). split; [|apply skipn_next, E]. unfold skip_der_item. rewrite Eg. cbn [rbind].
  rewrite length_item. f_equal. lia.
Qed.

Lemma number_at pos bound tag body rest :
  skipn pos buf = item tag body ++ rest -> (length body <= PSTM_MAX_SIZE * 4)%nat -> (pos + length (item tag body) <= bound)%nat ->
  exists n, der_binary_to_pstm buf pos bound = Ok n /\ number n /\ mag n = be_word body.
Proof.
  intros E Hl Hbound. destruct (len_at pos bound tag body rest E ltac:(unfold PSTM_MAX_SIZE in *; lia) Hbound) as (Eg & Es). unfold der_binary_to_pstm. rewrite Eg. cbn [rbind].
  destruct (binary_spec buf (pos + hdr body) body rest Hb Es) as (n & En & Hn & Sn & Em & Hu & _). exists n. split; [exact En|]. split; [split; auto|].
  rewrite Em. unfold significant. replace (length body - PSTM_MAX_SIZE * 4)%nat with O by lia. reflexivity.
Qed.
End Items.

(** ** A key is read back *)

Definition numbers (k : psRsaKey) : list pstm_int := [key_N k; key_e k; key_d k; key_p k; key_q k; key_dP k; key_dQ k; key_qP k].

(** The key that is read for the byte strings [ns]. *)
Definition key_of (ns : list (list Z)) (k : psRsaKey) : Prop :=
  map mag (numbers k) = map be_word ns /\ Forall number (numbers k) /\ nbytes (size k) (mag (key_N k)) /\ optimized k = true.

(** Eight byte strings, of at most [4 * PSTM_MAX_SIZE] bytes. *)
Definition eight (ns : list (list Z)) : Prop := length ns = 8%nat /\ Forall (fun l => (length l <= PSTM_MAX_SIZE * 4)%nat) ns.

Lemma load1_head (buf l : list Z) pos x : skipn pos buf = x :: l -> @load1 error Z buf pos = Ok x.
Proof. intros E. rewrite <- (Nat.add_0_r pos), (load1_from buf _ pos 0 E). reflexivity. Qed.

Section Key.
Variable buf : list Z.
Hypothesis Hb : bytes buf.

Lemma components_at pos bound ns rest :
  skipn pos buf = concat (map (item 2) ns) ++ rest -> eight ns -> (pos + length (concat (map (item 2) ns)) <= bound)%nat ->
  exists k, key_components buf pos bound = Ok k /\ key_of ns k.
Proof.
  intros E (Hlen & Hns) Hbound. unfold key_components. assert (Hmax : (PSTM_MAX_SIZE * 4 < 256 * 256)%nat) by (unfold PSTM_MAX_SIZE; lia).
  do 8 (destruct ns as [|?b ns]; [discriminate Hlen|]; cbn [length] in Hlen; apply Nat.succ_inj in Hlen; apply Forall_cons_iff in Hns; destruct Hns as (? & Hns)).
  destruct ns; [|discriminate]. clear Hns Hlen. cbn [map concat] in E, Hbound. rewrite !length_app in Hbound. rewrite <- !app_assoc in E. cbn [length] in Hbound.
  do 7 (match type of E with skipn ?p _ = item 2 ?b ++ ?r =>
    let n := fresh "n" in
    destruct (number_at buf Hb p bound 2 b r E ltac:(assumption) ltac:(lia)) as (n & -> & ? & ?); cbn [rbind];
    let Es := fresh in destruct (skip_at buf p bound 2 b r E ltac:(lia) ltac:(lia)) as (Es & E'); rewrite Es; cbn [rbind]; clear E Es; rename E' into E end).
  cbn [app] in E. match type of E with skipn ?p _ = item 2 ?b ++ ?r =>
    destruct (number_at buf Hb p bound 2 b r E ltac:(assumption) ltac:(lia)) as (n7 & -> & ? & ?); cbn [rbind] end.
  match goal with |- context [pstm_unsigned_bin_size ?N] => destruct (bin_size_spec N) as (k & Ek & Hk) end; [match goal with H : number ?N |- ok ?N => apply H end|].
  rewrite Ek. cbn [rbind]. eexists. split; [reflexivity|]. unfold key_of, numbers. cbn [key_N key_e key_d key_p key_q key_dP key_dQ key_qP size optimized map].
  split; [congruence|]. split; [repeat (apply Forall_cons; [assumption|]); apply Forall_nil|]. split; [exact Hk|reflexivity].
Qed.

Lemma version_at pos bound rest : skipn pos buf = item 2 [0] ++ rest -> (pos + 3 <= bound)%nat ->
  skip_der_item buf pos bound = Ok (pos + 3)%nat /\ skipn (pos + 3) buf = rest.
Proof. intros E H. apply (skip_at buf pos bound 2 [0] rest E); [cbn [length]; lia|cbn; lia]. Qed.

Lemma pkcs1_at pos bound ns rest :
  skipn pos buf = pkcs1 ns ++ rest -> eight ns -> (length (key_body ns) < 256 * 256)%nat -> (pos + length (pkcs1 ns) <= bound)%nat ->
  exists d e, enter_der_item buf pos bound = Ok (d, e) /\ skip_der_item buf d e = Ok (d + 3)%nat /\ (e <= bound)%nat /\
    skipn (d + 3) buf = concat (map (item 2) ns) ++ rest /\ exists k, key_components buf (d + 3) e = Ok k /\ key_of ns k.
Proof.
  intros E H8 Hlen Hbound. destruct (enter_at buf pos bound 0x30 _ rest E Hlen Hbound) as (Ee & Es). set (body := key_body ns) in *. do 2 eexists. split; [exact Ee|].
  unfold pkcs1 in Hbound. fold body in Hbound. rewrite length_item in Hbound. rewrite length_item. assert (Lb : length body = (3 + length (concat (map (item 2) ns)))%nat) by (unfold body, key_body; cbn [map concat]; rewrite length_app; reflexivity).
  assert (Es0 : skipn (pos + hdr body) buf = item 2 [0] ++ concat (map (item 2) ns) ++ rest) by (rewrite Es; unfold body, key_body; cbn [map concat]; rewrite <- app_assoc; reflexivity).
  destruct (version_at _ (pos + (hdr body + length body))%nat _ Es0 ltac:(lia)) as (Ev & Es').
  split; [exact Ev|]. split; [lia|]. split; [exact Es'|]. apply (components_at _ _ ns rest Es' H8). lia.
Qed.
End Key.

Lemma read_pkcs1 ns rest :
  eight ns -> (length (key_body ns) < 256 * 256)%nat -> bytes (pkcs1 ns ++ rest) -> exists k, load_rsa_priv_key (pkcs1 ns ++ rest) (length (pkcs1 ns)) = Ok k /\ key_of ns k.
Proof.
  intros H8 Hl Hb. destruct (pkcs1_at _ Hb 0 (length (pkcs1 ns)) ns rest eq_refl H8 Hl ltac:(lia)) as (d & e & E1 & E2 & _ & Es & k & Ek & Hk).
  exists k. split; [|exact Hk]. unfold load_rsa_priv_key. rewrite E1. cbn [rbind]. rewrite E2. cbn [rbind].
  destruct ns as [|n ns]; [destruct H8; discriminate|]. rewrite (load1_head _ _ _ _ Es). cbn [rbind]. change (2 =? 48) with false. cbn [rbind]. exact Ek.
Qed.

Lemma read_pkcs8 alg ns rest :
  eight ns -> (length alg < 256 * 256)%nat -> (length (key_body ns) < 256 * 256)%nat -> (length (pkcs1 ns) < 256 * 256)%nat ->
  (length (wrapper alg ns) < 256 * 256)%nat -> bytes (pkcs8 alg ns ++ rest) ->
  exists k, load_rsa_priv_key (pkcs8 alg ns ++ rest) (length (pkcs8 alg ns)) = Ok k /\ key_of ns k.
Proof.
  intros H8 Ha Hl H1 Hall Hb. unfold load_rsa_priv_key. set (buf := pkcs8 alg ns ++ rest) in *.
  destruct (enter_at buf 0 (length (pkcs8 alg ns)) 0x30 _ rest eq_refl Hall (Nat.le_refl _)) as (E1 & Es). fold (pkcs8 alg ns) in E1. rewrite E1. cbn [rbind]. cbn [Nat.add] in *.
  set (body := wrapper alg ns) in *. assert (Lb : length body = (3 + (length (item 0x30 alg) + length (item 4 (pkcs1 ns))))%nat) by (unfold body, wrapper; rewrite !length_app; reflexivity).
  assert (Lt : length (pkcs8 alg ns) = (hdr body + length body)%nat) by apply length_item. assert (Es0 : skipn (hdr body) buf = item 2 [0] ++ item 0x30 alg ++ item 4 (pkcs1 ns) ++ rest) by (rewrite Es; unfold body, wrapper; rewrite <- !app_assoc; reflexivity).
  destruct (version_at buf _ (length (pkcs8 alg ns)) _ Es0 ltac:(lia)) as (E2 & Es2). rewrite E2. cbn [rbind].
  rewrite (load1_head _ _ _ _ Es2). cbn [rbind]. change (48 =? 48) with true. cbn iota.
  destruct (skip_at buf _ (length (pkcs8 alg ns)) 0x30 alg _ Es2 Ha ltac:(lia)) as (E3 & Es3). rewrite E3. cbn [rbind].
  destruct (enter_at buf _ (length (pkcs8 alg ns)) 4 (pkcs1 ns) rest Es3 H1 ltac:(lia)) as (E4 & Es4). rewrite E4. cbn [rbind].
  destruct (pkcs1_at buf Hb _ (hdr body + 3 + length (item 48 alg) + length (item 4 (pkcs1 ns)))%nat ns rest Es4 H8 Hl) as (d & e & E5 & E6 & _ & _ & k & Ek & Hk); [rewrite (length_item 4); lia|].
  rewrite E5. cbn [rbind]. rewrite E6. cbn [rbind]. exists k. split; [exact Ek|exact Hk].
Qed.

(** ** The elliptic-curve key of the server *)

Lemma server_key_safe flags ecc buf len : bytes buf -> (78 <= length buf)%nat -> length ecc = 64%nat ->
  alive (fun '(_, key) => length key = 64%nat) (process_server_key flags ecc buf len).
Proof.
  intros Hb Hl He. assert (Hs : forall (d : list Z) fl, (length d <= 64)%nat -> alive (fun '(_, key) => length key = 64%nat) (let! key := store ecc 0 d in @Ok error _ (fl : Z, key))).
  { intros d fl Hd. rewrite store_ok by lia. apply ends_ok. cbv beta iota. rewrite length_blit by lia. exact He. }
  unfold process_server_key. eapply alive_bind; [apply (get24be_safe buf Hb); lia|]. intros l1 _. destruct (_ <? l1); [exact I|]. destruct (l1 <? _); [exact I|].
  rewrite load_ok by lia. cbn [rbind]. eapply alive_bind with (P := fun '(_, key) => length key = 64%nat); [|intros [fl key] Hk; exact Hk].
  destruct (list_eq_dec _ _ _); [|destruct (list_eq_dec _ _ _); [|exact I]].
  - rewrite load_ok by lia. apply Hs. unfold slice. rewrite length_firstn. lia.
  - apply ends_load1 with (d := 0); [lia|]. destruct (negb _); [exact I|]. rewrite load_ok by lia. apply Hs. unfold slice. rewrite length_firstn. lia.
Qed.

(** The length of a P256 key is not tested: with a message of 36 bytes, the key is
    taken from behind the record. *)
Example p256_key_behind_record :
  let record := [22; 3; 3; 0; 40; 12; 0; 0; 36; 3; 0; 0x17; 0x41; 4] ++ repeat 7 31 in
  exists k1 k2, process_server_key 0 (repeat 0 64) (record ++ repeat 1 40) 40 = Ok (GOT_EC_KEY, k1)
    /\ process_server_key 0 (repeat 0 64) (record ++ repeat 2 40) 40 = Ok (GOT_EC_KEY, k2) /\ length record = 45%nat /\ k1 <> k2.
Proof. do 2 eexists. repeat split; try (vm_compute; reflexivity). vm_compute. discriminate. Qed.

(** A certificate that ends with an empty [subjectPublicKeyInfo], in an array
    without room behind it: the object identifiers are compared with bytes
    behind the array. *)
Example certificate_overread :
  let cert := item 0x30 (item 0x30 (concat (map (item 0x30) [[]; []; []; []; []; []]))) in
  get_server_cert 0 ([22; 3; 3; 0; 26; 11; 0; 0; 22; 0; 0; 19; 0; 0; 16] ++ cert) 26 = Fault.
Proof. vm_compute. reflexivity. Qed.

(** C38. The DER parser stays inside the array: whatever the bytes are, the parsing
    of the certificate message of the server with 13 bytes behind it, and the
    loading of a private key with one byte behind it, access no other memory and
    end; with an error, or with numbers without leading zeros that have a digit
    of room (as the sum of the Chinese remainders needs), and the number of bytes
    of the modulus. *)
Theorem der_parser_safe buf :
  bytes buf ->
  (forall flags len, (10 <= len)%nat -> (5 + len + 13 <= length buf)%nat ->
     alive (fun '(_, k) => match k with Some k => key_found k | None => True end) (get_server_cert flags buf len))
  /\ (forall sz, (sz < length buf)%nat ->
     alive (fun k => Forall number (numbers k) /\ nbytes (size k) (mag (key_N k))) (load_rsa_priv_key buf sz)).
Proof. intros Hb. split; [intros flags len; apply server_cert_safe, Hb|intros sz; apply load_rsa_safe, Hb]. Qed.

Definition sample_numbers : list (list Z) := [[12; 34; 56]; [3]; [0; 200]; [17]; [0; 129]; [5]; [7]; [1; 0; 1]].

Lemma der_parser_safe_witness : alive (fun k => Forall number (numbers k) /\ nbytes (size k) (mag (key_N k))) (load_rsa_priv_key (pkcs1 sample_numbers ++ [0]) 35).
Proof.
  apply (der_parser_safe (pkcs1 sample_numbers ++ [0])).
  - repeat (constructor; [split; [discriminate|reflexivity]|]). constructor.
  - cbn. lia.
Defined.

(** C39. Private keys are read back: for eight byte strings, the key loaded from
    their PKCS#1 encoding, or from the PKCS#8 encoding around it, has their
    numbers, in the order of the standard, and is marked for the Chinese
    remainders. *)
Theorem private_key_roundtrip alg ns rest :
  eight ns -> (length (wrapper alg ns) < 256 * 256)%nat -> bytes (pkcs1 ns ++ rest) -> bytes (pkcs8 alg ns ++ rest) ->
  (exists k, load_rsa_priv_key (pkcs1 ns ++ rest) (length (pkcs1 ns)) = Ok k /\ key_of ns k)
  /\ (exists k, load_rsa_priv_key (pkcs8 alg ns ++ rest) (length (pkcs8 alg ns)) = Ok k /\ key_of ns k).
Proof.
  intros H8 Hl H1 H2. assert (Lw : length (wrapper alg ns) = (3 + (length (item 0x30 alg) + length (item 4 (pkcs1 ns))))%nat) by (unfold wrapper; rewrite !length_app; reflexivity).
  assert (Lp : length (pkcs1 ns) = (hdr (key_body ns) + length (key_body ns))%nat) by apply length_item. rewrite !length_item in Lw.
  split; [apply read_pkcs1|apply read_pkcs8]; auto; lia.
Qed.

Lemma private_key_roundtrip_witness :
  exists k, load_rsa_priv_key (pkcs8 [6; 1; 42] sample_numbers ++ [0]) (length (pkcs8 [6; 1; 42] sample_numbers)) = Ok k /\ key_of sample_numbers k.
Proof.
  apply private_key_roundtrip.
  - split; [reflexivity|]. repeat (constructor; [cbn [length]; unfold PSTM_MAX_SIZE; lia|]). constructor.
  - change (length (wrapper [6; 1; 42] sample_numbers)) with 45%nat. lia.
  - repeat (constructor; [split; [discriminate|reflexivity]|]). constructor.
  - repeat (constructor; [split; [discriminate|reflexivity]|]). constructor.
Defined.
End DerS.
