(* ===== verification/Kex.v ===== *)
(** * The key exchange of TLS

    The end of the handshake of networking/tls.c: the client's key exchange
    message with its premaster secret, the derivation of the keys of both sides
    from it, the change of the cipher and the finished messages. The arithmetic
    of the curve P-256 (networking/tls_sp_c32.c) is an argument. *)

From Stdlib Require Import String ZArith List Lia Bool.
From S2P Require Import Prelude Words HashBuf HashCtx Hmac Aes Mem TlsRecord Fe Pstm Rsa Der.
Import ListNotations HashCtx Hmac.
Local Open Scope Z_scope.
Local Open Scope res_scope.

Module Kex.
Import TLS.

Definition HANDSHAKE_CLIENT_KEY_EXCHANGE : Z := 16.
Definition HANDSHAKE_FINISHED : Z := 20.
Definition RSA_PREMASTER_SIZE : nat := 48.
Definition CURVE25519_KEYSIZE : nat := 32.
Definition P256_KEYSIZE : nat := 32.

(** The messages the program exits with. *)
Inductive error :=
| record_layer (e : TLS.error)
| rsa (e : Pstm.error)
| server_cert_is_not_RSA
| server_did_not_provide_EC_key
| bad_encrypted_premaster_length
| RSA_decrypt_failed (ret : nat)
| bad_premaster_secret_version
| bad_x25519_public_key_length
| bad_P256_public_key_length
| compressed_EC_points_not_supported.

Definition result (A : Type) := res error A.

Definition lift {E A} (f : E -> error) (m : res E A) : result A :=
  match m with Ok a => Ok a | Die e => Die (f e) | Fault => Fault | Diverge => Diverge end.

(** ** The state *)

(** The handshake data without its hash context, which is in [tls_state_t]. *)
Record handshake_data := mk_hs {
  client_and_server_rand32 : list Z;
  master_secret : list Z;
  server_rsa_pub_key : Rsa.psRsaKey;
  ecc_pub_key32 : list Z;
  rsa_priv_key : Rsa.psRsaKey;
  ecc_priv_key32 : list Z
}.

(** [key_block] is the array with its continuations [key_block2] to
    [key_block6]; the pointers into it are the rest of the array from there. *)
Record conn := mk_conn { tls : tls_state_t; hs : handshake_data; key_block : list Z; peer_write_MAC_key : list Z }.

Definition set_tls (c : conn) (t : tls_state_t) : conn := mk_conn t (hs c) (key_block c) (peer_write_MAC_key c).
Definition set_params (t : tls_state_t) (p : tls_params) : tls_state_t :=
  mk_tls p (outbuf t) (write_seq64_be t) (inbuf t) (ofs_to_buffered t) (buffered_size t) (hsd t).

Section Code.
Variable bld : build.

(** ** Keys *)

Definition prf (outbuf_size : nat) (secret label seed : list Z) : result (list Z) :=
  let cfg := hash_config bld in
  fuelled (prf_hmac_sha256 sha256_begin (md5_hash cfg) (sha1_end cfg) (ipad0 bld) (opad0 bld) (hmac_ctx0 bld)
             outbuf_size secret label seed).

Definition derive_master_secret_and_keys (c : conn) (premaster : list Z) : result conn :=
  let p := params (tls c) in
  let rand32 := client_and_server_rand32 (hs c) in
  let! seed := load rand32 0 64 in
  let! out := prf 48 premaster (bytes_of "master secret") seed in
  let! ms := store (master_secret (hs c)) 0 out in
  let! server := load rand32 32 32 in
  let! client := load rand32 0 32 in
  let! out := prf (Z.to_nat (2 * (MAC_size p + key_size p + IV_size p))) ms (bytes_of "key expansion") (server ++ client) in
  let! kb := store (key_block c) 0 out in
  let h := hs c in
  Ok (mk_conn (tls c)
        (mk_hs rand32 ms (server_rsa_pub_key h) (ecc_pub_key32 h) (rsa_priv_key h) (ecc_priv_key32 h))
        kb (peer_write_MAC_key c)).

(** [ptr + n] *)
Definition advance (ptr : list Z) (n : Z) : list Z := skipn (Z.to_nat n) ptr.

(** The pointers are set, and [initialize_aes_keys] is called. *)
Definition set_keys (c : conn) (our_MAC peer_MAC our_key peer_key our_IV peer_IV : list Z) : conn :=
  let p := params (tls c) in
  let with_keys dec enc h :=
    {| flags := flags p; cipher_id := cipher_id p; MAC_size := MAC_size p; key_size := key_size p; IV_size := IV_size p;
       expecting_first_packet := expecting_first_packet p; min_encrypted_len_on_read := min_encrypted_len_on_read p;
       our_write_MAC_key := our_MAC; our_write_key := our_key; peer_write_key := peer_key;
       our_write_IV := our_IV; peer_write_IV := peer_IV; aes_encrypt := enc; aes_decrypt := dec; H := h |} in
  let '(dec, enc, h) := initialize_aes_keys (with_keys (aes_decrypt p) (aes_encrypt p) (H p)) in
  mk_conn (set_params (tls c) (with_keys dec enc h)) (hs c) (key_block c) peer_MAC.

Definition client_keys (c : conn) : conn :=
  let p := params (tls c) in
  let our_MAC := key_block c in
  let peer_MAC := advance (key_block c) (MAC_size p) in
  let our_key := advance peer_MAC (MAC_size p) in
  let peer_key := advance our_key (key_size p) in
  let our_IV := advance peer_key (key_size p) in
  let peer_IV := advance our_IV (IV_size p) in
  set_keys c our_MAC peer_MAC our_key peer_key our_IV peer_IV.

Definition server_keys (c : conn) : conn :=
  let p := params (tls c) in
  let peer_MAC := key_block c in
  let our_MAC := advance (key_block c) (MAC_size p) in
  let peer_key := advance our_MAC (MAC_size p) in
  let our_key := advance peer_key (key_size p) in
  let peer_IV := advance our_key (key_size p) in
  let our_IV := advance peer_IV (IV_size p) in
  set_keys c our_MAC peer_MAC our_key peer_key our_IV peer_IV.

(** ** The client's key exchange *)

(** Where [record->key] is in [outbuf], and its size. *)
Definition key_ofs : nat := OUTBUF_PFX + 4.
Definition key_room : nat := 2 + 4 * 1024.

(** The RSA branch: [outbuf], the premaster secret and [len]. [premaster] is
    what [tls_get_random] stored, [random] what it stores for the padding. *)
Definition rsa_premaster (premaster : list Z) (random : nat -> list Z) (key : Rsa.psRsaKey) (ob : list Z)
    : result (list Z * list Z * nat) :=
  let! premaster := store1 premaster 0 TLS_MAJ in
  let! premaster := store1 premaster 1 TLS_MIN in
  let! room := load ob (key_ofs + 2) (key_room - 2) in
  let! (out, len) := lift rsa (Rsa.psRsaEncryptPub random key premaster RSA_PREMASTER_SIZE room (key_room - 2)) in
  let! ob := store ob (key_ofs + 2) out in
  let! ob := store1 ob key_ofs (u8 (Z.shiftr (Z.of_nat len) 8)) in
  let! ob := store1 ob (key_ofs + 1) (u8 (Z.of_nat len)) in
  Ok (ob, premaster, (len + 2)%nat).

Section Client.
(** The random bytes and the old contents of an array of Curve25519, and the
    function for P-256: from a point, the public key and the secret. *)
Variable ec_random : list Z.
Variable fe_old : Z.
Variable curve_P256_compute_pubkey_and_premaster : list Z -> list Z * list Z.

Definition ec_premaster (fl : Z) (ecc_pub : list Z) (ob : list Z) : result (list Z * list Z * nat) :=
  let! (ob, premaster, len) :=
    (if negb (Z.land fl Der.USE_EC_CURVE_X25519 =? 0) then
       let! point := load ecc_pub 0 CURVE25519_KEYSIZE in
       let '(pubkey, premaster) := Fe.curve_x25519_compute_pubkey_and_premaster fe_old ec_random point in
       let! ob := store ob (key_ofs + 1) pubkey in
       Ok (ob, premaster, CURVE25519_KEYSIZE)
     else
       let! point := load ecc_pub 0 (2 * P256_KEYSIZE) in
       let '(pubkey, premaster) := curve_P256_compute_pubkey_and_premaster point in
       let! ob := store ob (key_ofs + 2) pubkey in
       let! ob := store1 ob (key_ofs + 1) 4 in
       Ok (ob, premaster, (1 + P256_KEYSIZE * 2)%nat)) in
  let! ob := store1 ob key_ofs (u8 (Z.of_nat len)) in
  Ok (ob, firstn P256_KEYSIZE premaster, (len + 1)%nat).

(** The state, and the bytes written to the connection. *)
Definition send_client_key_exchange (premaster : list Z) (random : nat -> list Z) (c : conn) : result (conn * list Z) :=
  let! t := lift record_layer (tls_get_zeroed_outbuf bld (tls c) (Z.of_nat (4 + key_room))) in
  let fl := flags (params t) in
  let! (ob, premaster, len) :=
    (if Z.land fl NEED_EC_KEY =? 0 then
       if Z.land fl Der.GOT_CERT_RSA_KEY_ALG =? 0 then Die server_cert_is_not_RSA else
       rsa_premaster premaster random (server_rsa_pub_key (hs c)) (outbuf t)
     else
       if Z.land fl Der.GOT_EC_KEY =? 0 then Die server_did_not_provide_EC_key else
       ec_premaster fl (ecc_pub_key32 (hs c)) (outbuf t)) in
  let! ob := store1 ob OUTBUF_PFX HANDSHAKE_CLIENT_KEY_EXCHANGE in
  let! ob := store1 ob (OUTBUF_PFX + 2) (u8 (Z.shiftr (Z.of_nat len) 8)) in
  let! ob := store1 ob (OUTBUF_PFX + 3) (u8 (Z.of_nat len)) in
  let! (t, out) := lift record_layer (xwrite_and_update_handshake_hash bld (set_outbuf t ob) (len + 4)) in
  let! c := derive_master_secret_and_keys (set_tls c t) premaster in
  Ok (client_keys c, out).
End Client.

(** ** The server's side *)

Section Server.
Variable fe_old : Z.
Variable curve_P256_compute_premaster : list Z -> list Z -> list Z.
(** The contents of the array [premaster] before. *)
Variable premaster0 : list Z.

(** [key_data] in [inbuf]. *)
Definition key_data : nat := RECHDR_LEN + 4.

Definition rsa_secret (key : Rsa.psRsaKey) (t : tls_state_t) : result (tls_state_t * list Z) :=
  let! hi := load1 (inbuf t) key_data in
  let! lo := load1 (inbuf t) (key_data + 1) in
  let enckey_len := Z.lor (Z.shiftl hi 8) lo in
  if (enckey_len <? 128) || (512 <? enckey_len) then Die bad_encrypted_premaster_length else
  let pos := (key_data + 2)%nat in
  let! (ret, inb, premaster) :=
    lift rsa (Rsa.psRsaDecryptPriv key (skipn pos (inbuf t)) (Z.to_nat enckey_len) premaster0 RSA_PREMASTER_SIZE) in
  let t := set_inbuf t (firstn pos (inbuf t) ++ inb) in
  if negb (ret =? RSA_PREMASTER_SIZE)%nat then Die (RSA_decrypt_failed ret) else
  let! p0 := load1 premaster 0 in
  let! p1 := load1 premaster 1 in
  if negb (p0 =? 3) || negb (p1 =? 3) then Die bad_premaster_secret_version else
  Ok (t, premaster).

Definition ec_secret (priv : list Z) (t : tls_state_t) : result (list Z) :=
  let! pubkey_len := load1 (inbuf t) key_data in
  let client_pubkey := (key_data + 1)%nat in
  if negb (Z.land (flags (params t)) Der.USE_EC_CURVE_X25519 =? 0) then
    if negb (pubkey_len =? Z.of_nat CURVE25519_KEYSIZE) then Die bad_x25519_public_key_length else
    let! point := load (inbuf t) client_pubkey CURVE25519_KEYSIZE in
    Ok (Fe.curve_x25519_compute_premaster fe_old priv point)
  else
    if negb (pubkey_len =? Z.of_nat (1 + 2 * P256_KEYSIZE)) then Die bad_P256_public_key_length else
    let! b := load1 (inbuf t) client_pubkey in
    if negb (b =? 4) then Die compressed_EC_points_not_supported else
    let! point := load (inbuf t) (client_pubkey + 1) (2 * P256_KEYSIZE) in
    Ok (curve_P256_compute_premaster priv point).

Definition get_client_key_exchange (fuel : nat) (c : conn) (evs : list read_event) : result (conn * list read_event) :=
  let! (t, evs, len) := lift record_layer (tls_xread_handshake_block bld fuel (tls c) evs 5) in
  let! type := load1 (inbuf t) RECHDR_LEN in
  if negb (type =? HANDSHAKE_CLIENT_KEY_EXCHANGE) then lift record_layer (bad_record_die t len) else
  let! (t, premaster) :=
    (if Z.land (flags (params t)) NEED_EC_KEY =? 0 then rsa_secret (rsa_priv_key (hs c)) t
     else let! premaster := ec_secret (ecc_priv_key32 (hs c)) t in Ok (t, premaster)) in
  let! c := derive_master_secret_and_keys (set_tls c t) premaster in
  Ok (server_keys c, evs).
End Server.

(** ** The change of the cipher *)

Definition rec_CHANGE_CIPHER_SPEC : list Z := [RECORD_TYPE_CHANGE_CIPHER_SPEC; TLS_MAJ; TLS_MIN; 0; 1; 1].

Definition set_min_encrypted_len (p : tls_params) (n : Z) : tls_params :=
  {| flags := flags p; cipher_id := cipher_id p; MAC_size := MAC_size p; key_size := key_size p; IV_size := IV_size p;
     expecting_first_packet := expecting_first_packet p; min_encrypted_len_on_read := n;
     our_write_MAC_key := our_write_MAC_key p; our_write_key := our_write_key p; peer_write_key := peer_write_key p;
     our_write_IV := our_write_IV p; peer_write_IV := peer_write_IV p;
     aes_encrypt := aes_encrypt p; aes_decrypt := aes_decrypt p; H := H p |}.

Definition get_change_cipher_spec (fuel : nat) (c : conn) (evs : list read_event) : result (conn * list read_event) :=
  let! (t, evs, len) := lift record_layer (tls_xread_record bld fuel (tls c) evs) in
  let! same := (if len =? 1 then
                  let! d := load (inbuf t) 0 6 in
                  Ok (if list_eq_dec Z.eq_dec d rec_CHANGE_CIPHER_SPEC then true else false)
                else Ok false) in
  if same : bool then Ok (set_tls c (set_params t (set_min_encrypted_len (params t) (min_len_after_change bld (params t)))), evs)
  else lift record_layer (bad_record_die t len).

(** ** The finished messages *)

(** The four bytes of the header of a message of [len] bytes. *)
Definition fill_handshake_record_hdr (ob : list Z) (pos : nat) (type : Z) (len : nat) : result (list Z) :=
  let len := Z.of_nat len - 4 in
  store ob pos [u8 type; u8 (Z.shiftr len 16); u8 (Z.shiftr len 8); u8 len].

Definition get_outbuf_fill_handshake_record (t : tls_state_t) (type : Z) (len : nat) : result tls_state_t :=
  let! t := lift record_layer (tls_get_zeroed_outbuf bld t (Z.of_nat len)) in
  let! ob := fill_handshake_record_hdr (outbuf t) OUTBUF_PFX type len in
  Ok (set_outbuf t ob).

(** [iv]: the random bytes of a CBC record. *)
Definition send_finished (iv : list Z) (c : conn) (msg_to_encrypt : list Z) : result (conn * list Z) :=
  let! t := get_outbuf_fill_handshake_record (tls c) HANDSHAKE_FINISHED 16 in
  match hsd t with
  | None => Fault
  | Some ctx =>
      let! (ctx, handshake_hash, len) := fuelled (sha1_end (hash_config bld) ctx) in
      let! secret := load (master_secret (hs c)) 0 48 in
      let! out := prf 12 secret msg_to_encrypt (firstn (Z.to_nat len) handshake_hash) in
      let! ob := store (outbuf t) (OUTBUF_PFX + 4) out in
      let! (t, out) := lift record_layer (xwrite_encrypted bld iv (set_hsd (set_outbuf t ob) (Some ctx)) 16 RECORD_TYPE_HANDSHAKE) in
      Ok (set_tls c t, out)
  end.

Definition get_finished (fuel : nat) (c : conn) (evs : list read_event) : result (conn * list read_event) :=
  let! (t, evs, len) := lift record_layer (tls_xread_record bld fuel (tls c) evs) in
  if len <? 4 then lift record_layer (bad_record_die t len) else
  let! type := load1 (inbuf t) RECHDR_LEN in
  if negb (type =? HANDSHAKE_FINISHED) then lift record_layer (bad_record_die t len) else
  Ok (set_tls c t, evs).

End Code.
End Kex.
