(* ===== verification/KexSpec.v ===== *)
(** * The key exchange of TLS: what the two sides agree on

    The messages with which the client of networking/tls.c ends the handshake,
    with a key encrypted with RSA, are accepted by the server; after them both
    have the master secret and the keys of RFC 5246, and what one side writes
    the other side can read. *)

From Stdlib Require Import String ZArith List Lia Bool Zpow_facts.
From S2P Require Import Prelude Words HashBuf HashCtx Hmac Aes Mem TlsRecord TlsRead TlsWrite TlsLink.
From S2P Require Import Pstm PstmVal PstmOps PstmMul PstmDiv PstmMont PstmExp Rsa RsaSpec Der Kex.
Import ListNotations HashCtx Hmac.
Local Open Scope Z_scope.
Local Open Scope res_scope.

Module KexS.
Import TLS TLSRead TLSWrite TLSLink Kex.

(** ** RFC 5246 *)

Definition PRF (secret label seed : list Z) (n : nat) : list Z :=
  firstn n (P_hash (digest sha256_process_block64) secret (label ++ seed) (n / 32 + 1)).

Lemma length_P_hash secret seed n : length (P_hash (digest sha256_process_block64) secret seed n) = (32 * n)%nat.
Proof.
  unfold P_hash. induction n as [|n IH]; [reflexivity|]. rewrite seq_S, map_app, concat_app, length_app, IH. cbn [map concat]. rewrite app_nil_r.
  unfold rfc_hmac. rewrite length_digest. cbn [words]. lia.
Qed.

Lemma length_PRF secret label seed n : length (PRF secret label seed n) = n.
Proof.
  unfold PRF. rewrite length_firstn, length_P_hash. pose proof (Nat.div_mod_eq n 32). pose proof (Nat.mod_upper_bound n 32). lia.
Qed.

Lemma bytes_PRF secret label seed n : bytes (PRF secret label seed n).
Proof.
  apply bytes_firstn. unfold P_hash. apply Forall_concat, Forall_map, Forall_forall. intros i _. apply bytes_digest.
Qed.

(** Section 8.1: the master secret, from the random bytes of client and server. *)
Definition master (premaster rand : list Z) : list Z := PRF premaster (bytes_of "master secret") rand 48.

(** Section 6.3: the key block. *)
Definition key_length (p : tls_params) : nat := Z.to_nat (2 * (MAC_size p + key_size p + IV_size p)).
Definition expansion (p : tls_params) (premaster rand : list Z) : list Z :=
  PRF (master premaster rand) (bytes_of "key expansion") (slice 32 32 rand ++ slice 0 32 rand) (key_length p).

(** Its parts, of the sizes of a cipher: [i] is the start, [n] the length. *)
Definition part (kb : list Z) (i n : Z) : list Z := slice (Z.to_nat i) (Z.to_nat n) kb.
Definition client_write_key (p : tls_params) (kb : list Z) : list Z := part kb (2 * MAC_size p) (key_size p).
Definition server_write_key (p : tls_params) (kb : list Z) : list Z := part kb (2 * MAC_size p + key_size p) (key_size p).

Record partition (kb : list Z) (pc ps : tls_params) : Prop := {
  client_write_MAC_key : firstn (Z.to_nat (MAC_size pc)) (our_write_MAC_key pc) = part kb 0 (MAC_size pc);
  server_write_MAC_key : firstn (Z.to_nat (MAC_size pc)) (our_write_MAC_key ps) = part kb (MAC_size pc) (MAC_size pc);
  client_write_IV : firstn (Z.to_nat (IV_size pc)) (our_write_IV pc) = part kb (2 * (MAC_size pc + key_size pc)) (IV_size pc);
  server_write_IV : firstn (Z.to_nat (IV_size pc)) (our_write_IV ps) = part kb (2 * (MAC_size pc + key_size pc) + IV_size pc) (IV_size pc) }.

Section Exchange.
Variable bld : build.
Hypothesis bld_ok : build_ok bld.
Hypothesis arrays : arrays_ok (ipad0 bld) (opad0 bld) (hmac_ctx0 bld).

(** The sizes [set_cipher_parameters] sets. *)
Record suite_ok (p : tls_params) : Prop := {
  suite_key : key_size p = 16 \/ key_size p = 32;
  suite_gcm : is_gcm p = true -> MAC_size p = 0 /\ IV_size p = 4;
  suite_cbc : is_gcm p = false -> IV_size p = 0 /\ (MAC_size p = 32 \/ TLS_SHA1 bld = true /\ MAC_size p = 20) }.

Lemma suite_of_parameters p fl id0 id1 :
  Z.land fl ENCRYPTION_AESGCM = 0 ->
  set_cipher_parameters bld fl id0 id1 = mk_cp (flags p) (cipher_id p) (key_size p) (MAC_size p) (IV_size p) -> suite_ok p.
Proof.
  intros Hf E. assert (H0 : forall x, Z.land x ENCRYPTION_AESGCM = 0 -> Z.land (Z.lor x NEED_EC_KEY) ENCRYPTION_AESGCM = 0)
    by (intros x Hx; rewrite Z.land_lor_distr_l, Hx; reflexivity).
  assert (H1 : forall x, Z.land x ENCRYPTION_AESGCM = 0 -> Z.land (Z.lor x ENCRYPTION_AESGCM) ENCRYPTION_AESGCM = 32)
    by (intros x Hx; rewrite Z.land_lor_distr_l, Hx; reflexivity).
  unfold set_cipher_parameters in E. unfold AES256_KEYSIZE, AES128_KEYSIZE in E. split.
  - repeat match type of E with context [if ?b then _ else _] => destruct b end; injection E; intros; lia.
  - unfold is_gcm. repeat match type of E with context [if ?b then _ else _] => destruct b end; injection E as E1 _ _ E2 E3; rewrite <- E1, <- ?E2, <- ?E3, ?H1, ?H0 by auto; rewrite ?Hf; try discriminate; auto.
  - unfold is_gcm. destruct (TLS_SHA1 bld); cbn [andb] in E; repeat match type of E with context [if ?b then _ else _] => destruct b end; injection E as E1 _ _ E2 E3; rewrite <- E1, <- ?E2, <- ?E3, ?H1, ?H0 by auto; rewrite ?Hf; try discriminate; auto.
Qed.

(** One side before the exchange; [key_block] is as [xzalloc] made it. *)
Record side (c : conn) : Prop := {
  side_rand : length (client_and_server_rand32 (hs c)) = 64%nat /\ bytes (client_and_server_rand32 (hs c));
  side_master : length (master_secret (hs c)) = 48%nat;
  side_block : key_block c = repeat 0 136;
  side_encrypt : AES.ctx_array (aes_encrypt (params (tls c)));
  side_decrypt : AES.ctx_array (aes_decrypt (params (tls c)));
  side_suite : suite_ok (params (tls c)) }.

Lemma suite_sizes p : suite_ok p ->
  0 <= MAC_size p <= 32 /\ (key_size p = 16 \/ key_size p = 32) /\ 0 <= IV_size p <= 4 /\ 2 * (MAC_size p + key_size p + IV_size p) <= 128.
Proof. intros [Hk Hg Hc]. destruct (is_gcm p); [destruct (Hg eq_refl)|destruct (Hc eq_refl) as (? & [?|(_ & ?)])]; lia. Qed.

Lemma prf_spec n secret label seed : bytes secret -> bytes label -> bytes seed -> prf bld n secret label seed = Ok (PRF secret label seed n).
Proof.
  intros Hs Hl Hd. unfold prf. destruct arrays as (Hi & Ho & Oi & Oo). destruct bld_ok as (_ & Hst & _).
  rewrite (prf_rfc (SH := sha256_stream_hash Hst)) by (auto; split; assumption). reflexivity.
Qed.

(** What is at [key_block]: the keys, and the zeros behind them. *)
Definition filled (p : tls_params) (premaster rand : list Z) : list Z := expansion p premaster rand ++ repeat 0 (136 - key_length p).

Definition set_master (h : handshake_data) (ms : list Z) : handshake_data :=
  mk_hs (client_and_server_rand32 h) ms (server_rsa_pub_key h) (ecc_pub_key32 h) (rsa_priv_key h) (ecc_priv_key32 h).

Lemma derive_spec c premaster : side c -> bytes premaster ->
  derive_master_secret_and_keys bld c premaster
  = Ok (mk_conn (tls c) (set_master (hs c) (master premaster (client_and_server_rand32 (hs c))))
          (filled (params (tls c)) premaster (client_and_server_rand32 (hs c))) (peer_write_MAC_key c)).
Proof.
  intros [(Lr & Br) Lm Eb _ _ Hs] Hp. pose proof (suite_sizes _ Hs) as (Hm & Hk & Hi & Ht). unfold derive_master_secret_and_keys.
  set (rand := client_and_server_rand32 (hs c)) in *. set (p := params (tls c)) in *.
  rewrite !load_ok by lia. cbn [rbind]. replace (slice 0 64 rand) with rand by (unfold slice; cbn [skipn]; rewrite firstn_all2 by lia; reflexivity).
  rewrite prf_spec by (auto; apply is_bytes_ok; reflexivity). cbn [rbind]. fold (master premaster rand).
  assert (L48 : length (master premaster rand) = 48%nat) by apply length_PRF.
  rewrite store_ok by lia. cbn [rbind]. replace (blit (master_secret (hs c)) 0 (master premaster rand)) with (master premaster rand)
    by (unfold blit; cbn [firstn app Nat.add]; rewrite skipn_all2, app_nil_r by lia; reflexivity).
  rewrite prf_spec; [|apply bytes_PRF|apply is_bytes_ok; reflexivity|apply bytes_app; apply bytes_slice, Br]. cbn [rbind].
  fold (key_length p). fold (expansion p premaster rand). rewrite Eb.
  assert (Le : length (expansion p premaster rand) = key_length p) by apply length_PRF. unfold key_length in Le.
  rewrite store_ok by (rewrite repeat_length; lia). cbn [rbind]. unfold filled, blit. cbn [firstn app Nat.add]. rewrite Le.
  replace 136%nat with (key_length p + (136 - key_length p))%nat at 1 by (unfold key_length; lia). rewrite repeat_app, skipn_app, skipn_all2, repeat_length by (rewrite repeat_length; unfold key_length; lia).
  unfold key_length at 1. rewrite Nat.sub_diag. reflexivity.
Qed.

(** ** The keys of both sides *)

(** The keys with which a side writes. *)
Definition writes (p : tls_params) (key : list Z) : Prop :=
  (exists aes0, AES.ctx_array aes0 /\ aes_encrypt p = AES.aes_setkey aes0 key) /\ AES.key_ok key /\ write_keys_ok bld p.

(** After [get_change_cipher_spec]. *)
Definition changed (p : tls_params) : tls_params := set_min_encrypted_len p (min_len_after_change bld p).

Record same_suite (pc ps : tls_params) : Prop := {
  same_MAC : MAC_size ps = MAC_size pc; same_key : key_size ps = key_size pc; same_IV : IV_size ps = IV_size pc; same_mode : is_gcm ps = is_gcm pc }.

(** The pointers of one side, as [set_keys] sets them. *)
Record pointers := mk_ptr { our_MAC : list Z; peer_MAC : list Z; our_key : list Z; peer_key : list Z; our_IV : list Z; peer_IV : list Z }.
Definition set_pointers (c : conn) (q : pointers) : conn := set_keys c (our_MAC q) (peer_MAC q) (our_key q) (peer_key q) (our_IV q) (peer_IV q).

(** [key] is at a pointer. *)
Definition key_at (p : tls_params) (ptr : list Z) : list Z := firstn (Z.to_nat (key_size p)) ptr.

Lemma key_at_ok p ptr : suite_ok p -> bytes ptr -> (32 <= length ptr)%nat -> AES.key_ok (key_at p ptr).
Proof.
  intros Hs Hb Hl. pose proof (suite_key p Hs). unfold key_at. split; [rewrite length_firstn; lia|apply bytes_firstn, Hb].
Qed.

Lemma set_pointers_writes c q :
  AES.ctx_array (aes_encrypt (params (tls c))) -> suite_ok (params (tls c)) -> bytes (our_MAC q) -> bytes (our_key q) -> bytes (our_IV q) ->
  (32 <= length (our_MAC q))%nat -> (32 <= length (our_key q))%nat -> (4 <= length (our_IV q))%nat ->
  writes (params (tls (set_pointers c q))) (key_at (params (tls c)) (our_key q)).
Proof.
  intros Ha Hs Bm Bk Bi Lm Lk Li. split; [|split; [apply key_at_ok; auto|]].
  - exists (aes_encrypt (params (tls c))). split; [exact Ha|reflexivity].
  - unfold write_keys_ok. change (is_gcm (params (tls (set_pointers c q)))) with (is_gcm (params (tls c))). destruct (is_gcm (params (tls c))) eqn:Hg.
    + split; [exact Li|]. split; [exact Bi|reflexivity].
    + destruct (suite_cbc _ Hs Hg) as (_ & Hm). unfold mac_size_ok, TLS_MAC_SIZE, SHA1_OUTSIZE, SHA256_OUTSIZE.
      change (MAC_size (params (tls (set_pointers c q)))) with (MAC_size (params (tls c))). change (our_write_MAC_key (params (tls (set_pointers c q)))) with (our_MAC q).
      destruct Hm as [-> | (-> & ->)]; (split; [auto|]); (split; [|exact Bm]); destruct (TLS_SHA1 bld); lia.
Qed.

Lemma set_pointers_reads cw cr qw qr :
  AES.ctx_array (aes_decrypt (params (tls cr))) -> suite_ok (params (tls cw)) -> same_suite (params (tls cw)) (params (tls cr)) ->
  our_key qw = peer_key qr -> our_IV qw = peer_IV qr -> bytes (our_key qw) -> bytes (our_IV qw) -> (32 <= length (our_key qw))%nat -> (4 <= length (our_IV qw))%nat ->
  reader_ok bld (params (tls (set_pointers cw qw))) (changed (params (tls (set_pointers cr qr)))) (key_at (params (tls cw)) (our_key qw)).
Proof.
  intros Ha Hs [Em Ek Ei Eg] Ekey Eiv Bk Bi Lk Li. split; [exists (aes_decrypt (params (tls cr))); split; [exact Ha|]|].
  { unfold key_at. rewrite Ekey, <- Ek. reflexivity. }
  split; [apply key_at_ok; auto|]. split; [exact Eg|]. split; [exact Em|]. split; [reflexivity|].
  change (peer_write_IV (changed (params (tls (set_pointers cr qr))))) with (peer_IV qr). change (our_write_IV (params (tls (set_pointers cw qw)))) with (our_IV qw).
  rewrite <- Eiv. auto.
Qed.

Definition client_pointers (p : tls_params) (kb : list Z) : pointers :=
  let at_ n := advance kb n in
  mk_ptr kb (at_ (MAC_size p)) (at_ (2 * MAC_size p)) (at_ (2 * MAC_size p + key_size p)) (at_ (2 * (MAC_size p + key_size p))) (at_ (2 * (MAC_size p + key_size p) + IV_size p)).
Definition swap_pointers (q : pointers) : pointers := mk_ptr (peer_MAC q) (our_MAC q) (peer_key q) (our_key q) (peer_IV q) (our_IV q).

Lemma advance_advance kb a b : 0 <= a -> 0 <= b -> advance (advance kb a) b = advance kb (a + b).
Proof. intros Ha Hb. unfold advance. rewrite skipn_skipn. f_equal. lia. Qed.

Lemma client_keys_spec c : suite_ok (params (tls c)) -> client_keys c = set_pointers c (client_pointers (params (tls c)) (key_block c)).
Proof.
  intros Hs. pose proof (suite_sizes _ Hs) as (Hm & Hk & Hi & _). unfold client_keys, set_pointers, client_pointers. cbn [our_MAC peer_MAC our_key peer_key our_IV peer_IV].
  rewrite !advance_advance by lia. f_equal; f_equal; lia.
Qed.

Lemma server_keys_spec c : suite_ok (params (tls c)) -> server_keys c = set_pointers c (swap_pointers (client_pointers (params (tls c)) (key_block c))).
Proof.
  intros Hs. pose proof (suite_sizes _ Hs) as (Hm & Hk & Hi & _). unfold server_keys, set_pointers, swap_pointers, client_pointers. cbn [our_MAC peer_MAC our_key peer_key our_IV peer_IV].
  rewrite !advance_advance by lia. f_equal; f_equal; lia.
Qed.

(** Each side reads what the other side writes, the server at once, the client
    after the server's [ChangeCipherSpec]; the keys are the parts of the key
    block. *)
Record agreed (kb : list Z) (pc ps : tls_params) : Prop := {
  agreed_parts : partition kb pc ps;
  client_to_server : writes pc (client_write_key pc kb) /\ reader_ok bld pc ps (client_write_key pc kb);
  server_to_client : writes ps (server_write_key pc kb) /\ reader_ok bld ps (changed pc) (server_write_key pc kb) }.

Lemma advance_part kb rest i n : 0 <= i -> 0 <= n -> i + n <= Z.of_nat (length kb) -> firstn (Z.to_nat n) (advance (kb ++ rest) i) = part kb i n.
Proof.
  intros Hi Hn Hl. unfold advance, part, slice. rewrite skipn_app, firstn_app, length_skipn. replace (Z.to_nat n - (length kb - Z.to_nat i))%nat with 0%nat by lia.
  cbn [firstn]. apply app_nil_r.
Qed.

Ltac fields := unfold client_pointers, swap_pointers; cbn [our_MAC peer_MAC our_key peer_key our_IV peer_IV].

Lemma keys_agreed c s kb :
  suite_ok (params (tls c)) -> same_suite (params (tls c)) (params (tls s)) ->
  AES.ctx_array (aes_encrypt (params (tls c))) -> AES.ctx_array (aes_decrypt (params (tls c))) ->
  AES.ctx_array (aes_encrypt (params (tls s))) -> AES.ctx_array (aes_decrypt (params (tls s))) ->
  length kb = key_length (params (tls c)) -> bytes kb ->
  key_block c = kb ++ repeat 0 (136 - length kb) -> key_block s = key_block c ->
  agreed kb (params (tls (client_keys c))) (changed (params (tls (server_keys s)))).
Proof.
  intros Hs Hss Ce Cd Se Sd Lk Bk Ekc Eks. pose proof Hss as [Em Ek Ei Eg]. pose proof (suite_sizes _ Hs) as (Hm & Hk & Hi & Ht). unfold key_length in Lk.
  assert (Hs' : suite_ok (params (tls s))) by (destruct Hs; split; rewrite ?Em, ?Ek, ?Ei, ?Eg; assumption).
  assert (Hss' : same_suite (params (tls s)) (params (tls c))) by (split; symmetry; assumption).
  rewrite client_keys_spec, server_keys_spec by assumption. set (pc := params (tls c)) in *. set (ps := params (tls s)) in *.
  replace (client_pointers ps (key_block s)) with (client_pointers pc (key_block c)) by (unfold client_pointers; rewrite Eks, Em, Ek, Ei; reflexivity).
  assert (Ba : forall i, bytes (advance (key_block c) i)) by (intros i; apply bytes_skipn; rewrite Ekc; apply bytes_app; [exact Bk|apply bytes_zeros]).
  assert (La : forall i, 0 <= i -> length (advance (key_block c) i) = (136 - Z.to_nat i)%nat).
  { intros i H0. unfold advance. rewrite length_skipn, Ekc, length_app, repeat_length. lia. }
  assert (Bm := Ba 0). assert (Lm := La 0 ltac:(lia)). change (advance (key_block c) 0) with (key_block c) in *.
  assert (Eck : client_write_key pc kb = key_at pc (advance (key_block c) (2 * MAC_size pc))) by (unfold key_at; rewrite Ekc, advance_part by lia; reflexivity).
  assert (Esk : server_write_key pc kb = key_at pc (advance (key_block c) (2 * MAC_size pc + key_size pc))) by (unfold key_at; rewrite Ekc, advance_part by lia; reflexivity).
  assert (Esk' : key_at pc (advance (key_block c) (2 * MAC_size pc + key_size pc)) = key_at ps (advance (key_block c) (2 * MAC_size pc + key_size pc))) by (unfold key_at; rewrite Ek; reflexivity).
  split; [split|split|split].
  - change (firstn (Z.to_nat (MAC_size pc)) (advance (key_block c) 0) = part kb 0 (MAC_size pc)). rewrite Ekc. apply advance_part; lia.
  - change (firstn (Z.to_nat (MAC_size pc)) (advance (key_block c) (MAC_size pc)) = part kb (MAC_size pc) (MAC_size pc)). rewrite Ekc. apply advance_part; lia.
  - change (firstn (Z.to_nat (IV_size pc)) (advance (key_block c) (2 * (MAC_size pc + key_size pc))) = part kb (2 * (MAC_size pc + key_size pc)) (IV_size pc)). rewrite Ekc. apply advance_part; lia.
  - change (firstn (Z.to_nat (IV_size pc)) (advance (key_block c) (2 * (MAC_size pc + key_size pc) + IV_size pc)) = part kb (2 * (MAC_size pc + key_size pc) + IV_size pc) (IV_size pc)). rewrite Ekc. apply advance_part; lia.
  - change (client_write_key _ kb) with (client_write_key pc kb). rewrite Eck. apply set_pointers_writes; fields; auto; rewrite ?La by lia; lia.
  - change (client_write_key _ kb) with (client_write_key pc kb). rewrite Eck. apply set_pointers_reads; fields; auto; rewrite ?La by lia; lia.
  - change (server_write_key _ kb) with (server_write_key pc kb). rewrite Esk, Esk'. match goal with |- writes (changed ?p) ?k => change (writes p k) end. apply set_pointers_writes; fields; auto; rewrite ?La by lia; lia.
  - change (server_write_key _ kb) with (server_write_key pc kb). rewrite Esk, Esk'. match goal with |- reader_ok _ (changed ?p) ?q ?k => change (reader_ok bld p q k) end. apply set_pointers_reads; fields; auto; rewrite ?La by lia; lia.
Qed.

(** ** Messages that are written *)

Definition HASH : block_fn := sha256_process_block64.

(** The array [outbuf] with a message at its place. *)
Definition framed (ob msg : list Z) : Prop :=
  exists pre rest, ob = pre ++ msg ++ rest /\ length pre = OUTBUF_PFX /\ (OUTBUF_SFX <= length rest)%nat /\ bytes pre /\ bytes rest.

Lemma zeroed_spec t n : bytes (outbuf t) -> Z.of_nat n <= TLS_MAX_OUTBUF ->
  exists ob, tls_get_zeroed_outbuf bld t (Z.of_nat n) = Ok (set_outbuf t ob) /\ framed ob (repeat 0 n).
Proof.
  intros Hb Hn. unfold tls_get_zeroed_outbuf, tls_get_outbuf. destruct (Z.ltb_spec TLS_MAX_OUTBUF (Z.of_nat n)); [lia|]. cbv zeta.
  set (len := Z.of_nat n + Z.of_nat (OUTBUF_PFX + OUTBUF_SFX)). assert (Hlen : len = Z.of_nat (24 + n + 48)) by (unfold len, OUTBUF_PFX, OUTBUF_SFX, AES_BLOCK_SIZE, TLS_MAX_MAC_SIZE, TLS_MAX_CRYPTBLOCK_SIZE; lia).
  assert (Hob : exists ob, @eq (TLS.result tls_state_t) (if Z.of_nat (length (outbuf t)) <? len then Ok (set_outbuf t (xrealloc bld (outbuf t) (Z.to_nat len))) else Ok t) (Ok (set_outbuf t ob))
      /\ bytes ob /\ (24 + n + 48 <= length ob)%nat).
  { destruct bld_ok as (_ & _ & Hf). destruct (Z.ltb_spec (Z.of_nat (length (outbuf t))) len).
    - eexists. split; [reflexivity|]. unfold xrealloc. destruct (Hf (Z.to_nat len - length (outbuf t))%nat) as (Lf & Bf).
      split; [apply bytes_app; auto using bytes_firstn|]. rewrite length_app, length_firstn, Lf. lia.
    - exists (outbuf t). split; [destruct t; reflexivity|]. split; [exact Hb|lia]. }
  destruct Hob as (ob & E & Bo & Lo). rewrite E. cbn [rbind outbuf set_outbuf]. rewrite Nat2Z.id.
  rewrite store_ok by (rewrite repeat_length; unfold OUTBUF_PFX, AES_BLOCK_SIZE; lia). cbn [rbind]. eexists. split; [reflexivity|].
  exists (firstn 24 ob), (skipn (24 + n) ob). unfold blit. rewrite repeat_length.
  repeat split; auto using bytes_firstn, bytes_skipn; [rewrite length_firstn; unfold OUTBUF_PFX, AES_BLOCK_SIZE; lia|rewrite length_skipn; unfold OUTBUF_SFX, TLS_MAX_MAC_SIZE, TLS_MAX_CRYPTBLOCK_SIZE; lia].
Qed.

(** The handshake hash of the messages so far. *)
Definition logged (t : tls_state_t) (log : list Z) : Prop := exists ctx, hsd t = Some ctx /\ represents (hash_config bld) HASH ctx log.

Lemma write_message t msg log : framed (outbuf t) msg -> bytes msg -> Z.of_nat (length msg) < 65536 -> logged t log ->
  exists t', xwrite_and_update_handshake_hash bld t (length msg) = Ok (t', rfc_record RECORD_TYPE_HANDSHAKE msg)
    /\ params t' = params t /\ write_seq64_be t' = write_seq64_be t /\ bytes (outbuf t') /\ logged t' (log ++ msg).
Proof.
  intros (pre & rest & Eo & Lp & _ & Bp & Br) Bm Lm (ctx & Eh & Hr). unfold xwrite_and_update_handshake_hash, xwrite_handshake_record.
  assert (Ehd : record_hdr RECORD_TYPE_HANDSHAKE (length msg) = [22; 3; 3] ++ be_bytes 2 (Z.of_nat (length msg))) by (apply header_bytes; [split; [discriminate|reflexivity]|exact Lm]).
  set (hdr := record_hdr RECORD_TYPE_HANDSHAKE (length msg)) in *. assert (Lh : length hdr = 5%nat) by reflexivity. clearbody hdr.
  rewrite <- (firstn_skipn 19 pre) in Eo. rewrite <- app_assoc in Eo. set (pa := firstn 19 pre) in *. set (pb := skipn 19 pre) in *. unfold OUTBUF_PFX, AES_BLOCK_SIZE in *.
  assert (La : length pa = 19%nat) by (unfold pa; rewrite length_firstn; lia). assert (Lb : length pb = 5%nat) by (unfold pb; rewrite length_skipn; lia).
  assert (Ba : bytes pa) by apply bytes_firstn, Bp.
  assert (Bh : bytes hdr) by (rewrite Ehd; apply bytes_app; [apply is_bytes_ok; reflexivity|apply bytes_be_bytes]).
  pose proof (store_at (E := TLS.error) pa pb hdr (msg ++ rest) ltac:(lia)) as E1. rewrite La in E1.
  pose proof (load_at (E := TLS.error) pa (hdr ++ msg) rest) as E2. rewrite La, length_app, Lh, <- app_assoc in E2.
  pose proof (load_at (E := TLS.error) (pa ++ hdr) msg rest) as E3. rewrite length_app, La, Lh, <- app_assoc in E3.
  change (8 + 16 - RECHDR_LEN)%nat with 19%nat. change (RECHDR_LEN + length msg)%nat with (5 + length msg)%nat. change (8 + 16)%nat with (19 + 5)%nat.
  rewrite Eo, E1. cbn [rbind]. rewrite E2. cbn [rbind outbuf set_outbuf]. rewrite E3. cbn [rbind]. unfold hash_handshake. cbn [hsd set_outbuf]. rewrite Eh.
  destruct (hash_represents (hash_config bld) HASH ctx log msg Hr Bm) as (ctx' & -> & Hr'). cbn [fuelled rbind].
  eexists. split; [do 2 f_equal; unfold rfc_record; rewrite Ehd, <- app_assoc; reflexivity|]. cbn [params write_seq64_be outbuf hsd set_hsd set_outbuf].
  split; [reflexivity|]. split; [reflexivity|]. split; [apply bytes_app; [exact Ba|apply bytes_app; [exact Bh|apply bytes_app; assumption]]|].
  exists ctx'. split; [reflexivity|exact Hr'].
Qed.

(** The key exchange message with an encrypted premaster secret. *)
Definition kex_message (ct : list Z) : list Z :=
  [HANDSHAKE_CLIENT_KEY_EXCHANGE; 0] ++ be_bytes 2 (Z.of_nat (length ct + 2)) ++ be_bytes 2 (Z.of_nat (length ct)) ++ ct.

Lemma two_bytes n : be_bytes 2 n = [u8 (Z.shiftr n 8); u8 n].
Proof. unfold be_bytes. cbn [le_bytes rev app]. unfold u8, wrap. rewrite Z.shiftr_div_pow2 by lia. reflexivity. Qed.

(** The premaster secret, from random bytes. *)
Definition rsa_secret_of (rnd : list Z) : list Z := 3 :: 3 :: skipn 2 rnd.

Section Rsa.
Variable random : nat -> list Z.
Hypothesis Hrandom : forall n, length (random n) = n /\ bytes (random n).

(** The ciphertext of a secret. *)
Definition encrypted (pub priv : Rsa.psRsaKey) (secret : list Z) : list Z := be_bytes (Rsa.size pub) (RsaS.cipher random pub priv secret).

(** The keys are fit for the secret: they belong together, and no operation on
    the way meets a defect of the integers. *)
Record keys_fit (pub priv : Rsa.psRsaKey) (secret : list Z) : Prop := {
  fit_pair : RsaS.key_pair pub priv;
  fit_size : (128 <= Rsa.size pub <= 512)%nat;
  fit_divides : PstmE.divides_well (RsaS.plain random pub secret) (Rsa.key_N pub);
  fit_base : PstmE.base_fits (RsaS.plain random pub secret) (Rsa.key_N pub);
  fit_crt : RsaS.crt_well priv (RsaS.cipher random pub priv secret);
  fit_inverse : RsaS.inverse_for pub priv (RsaS.plain random pub secret) }.

Lemma room_split : repeat 0 (4 + key_room) = [0; 0; 0; 0; 0; 0] ++ repeat 0 (key_room - 2).
Proof. replace (4 + key_room)%nat with (6 + (key_room - 2))%nat by (unfold key_room; lia). rewrite repeat_app. reflexivity. Qed.

Lemma rsa_premaster_spec pub priv rnd pre rest :
  keys_fit pub priv (rsa_secret_of rnd) -> length rnd = 48%nat -> bytes rnd -> length pre = 24%nat ->
  rsa_premaster rnd random pub (pre ++ repeat 0 (4 + key_room) ++ rest)
  = Ok (pre ++ [0; 0; 0; 0] ++ be_bytes 2 (Z.of_nat (Rsa.size pub)) ++ encrypted pub priv (rsa_secret_of rnd) ++ repeat 0 (key_room - 2 - Rsa.size pub) ++ rest,
        rsa_secret_of rnd, (Rsa.size pub + 2)%nat).
Proof.
  intros [HP Hsz Hd Hf _ _] Lr Br Lp. pose proof HP as [EN Es HN Hs He _ _]. unfold rsa_premaster.
  destruct rnd as [|r0 [|r1 rnd]]; [discriminate|discriminate|]. set (pm := rsa_secret_of (r0 :: r1 :: rnd)) in *.
  change (store1 (r0 :: r1 :: rnd) 0 TLS_MAJ) with (@Ok error _ (3 :: r1 :: rnd)). cbn [rbind].
  change (store1 (3 :: r1 :: rnd) 1 TLS_MIN) with (@Ok error _ pm). cbn [rbind].
  assert (Lpm : length pm = 48%nat) by exact Lr. assert (Bpm : bytes pm).
  { unfold pm, rsa_secret_of. cbn [skipn]. inversion Br as [|? ? _ Br']; subst. inversion Br' as [|? ? _ Br'']; subst. repeat (constructor; [split; [discriminate|reflexivity]|]). exact Br''. }
  rewrite room_split. assert (Hroom : (512 <= key_room - 2)%nat) by (unfold key_room; lia). set (n := (key_room - 2)%nat) in *. clearbody n.
  pose proof (load_at (E := error) (pre ++ [0; 0; 0; 0; 0; 0]) (repeat 0 n) rest) as E1. rewrite length_app, Lp, repeat_length, <- app_assoc in E1.
  cbn [length Nat.add] in E1. change (key_ofs + 2)%nat with 30%nat. rewrite <- app_assoc, E1. cbn [rbind].
  pose proof (RsaS.encrypt_spec random Hrandom pub pm (repeat 0 n)) as E2. rewrite repeat_length, Lpm in E2. unfold RSA_PREMASTER_SIZE.
  rewrite E2; auto using bytes_zeros; [|rewrite EN; exact HN|rewrite EN, Es; exact Hs|lia|lia]. cbn [lift rbind]. clear E2.
  assert (Ect : be_bytes (Rsa.size pub) ((RsaS.plain random pub pm ^ PstmV.mag (Rsa.key_e pub)) mod PstmV.mag (Rsa.key_N pub)) = encrypted pub priv pm) by (unfold encrypted, RsaS.cipher; rewrite EN; reflexivity).
  rewrite Ect. assert (Lct : length (encrypted pub priv pm) = Rsa.size pub) by apply length_be_bytes. set (ct := encrypted pub priv pm) in *. clearbody ct.
  replace (skipn (Rsa.size pub) (repeat 0 n)) with (repeat 0 (n - Rsa.size pub)).
  2: { replace n with (Rsa.size pub + (n - Rsa.size pub))%nat at 2 by lia. rewrite repeat_app, skipn_app, skipn_all2, repeat_length, Nat.sub_diag by (rewrite repeat_length; lia). reflexivity. }
  pose proof (store_at (E := error) (pre ++ [0; 0; 0; 0; 0; 0]) (repeat 0 n) (ct ++ repeat 0 (n - Rsa.size pub)) rest) as E3.
  rewrite !length_app, Lp, !repeat_length, <- !app_assoc in E3. specialize (E3 ltac:(lia)). cbn [length Nat.add] in E3. rewrite E3. cbn [rbind].
  change key_ofs with (24 + 4)%nat. rewrite <- Lp. rewrite store1_in. cbn [store1 app length Nat.ltb Nat.leb upd firstn skipn rbind].
  rewrite <- Nat.add_assoc, store1_in. rewrite two_bytes. reflexivity.
Qed.

(** The state of a side after the exchange, but for the pointers. *)
Definition derived (c : conn) (t : tls_state_t) (secret : list Z) : conn :=
  mk_conn t (set_master (hs c) (master secret (client_and_server_rand32 (hs c))))
    (filled (params (tls c)) secret (client_and_server_rand32 (hs c))) (peer_write_MAC_key c).

Lemma derive_at c t secret : side c -> params t = params (tls c) -> bytes secret ->
  derive_master_secret_and_keys bld (set_tls c t) secret = Ok (derived c t secret).
Proof.
  intros [Hr Hm Hb He Hd Hs] Ep Bs. rewrite derive_spec; [|split; cbn [tls hs key_block set_tls]; rewrite ?Ep; assumption|exact Bs].
  unfold derived. cbn [tls hs peer_write_MAC_key set_tls]. rewrite Ep. reflexivity.
Qed.

Lemma bytes_secret rnd : bytes rnd -> bytes (rsa_secret_of rnd).
Proof. intros H. repeat (constructor; [split; [discriminate|reflexivity]|]). apply bytes_skipn, H. Qed.

Lemma kex_message_ok ct : bytes ct -> bytes (kex_message ct) /\ length (kex_message ct) = (length ct + 6)%nat.
Proof.
  intros H. unfold kex_message. split; [|rewrite !length_app, !length_be_bytes; cbn [length]; lia].
  apply bytes_app; [apply is_bytes_ok; reflexivity|]. apply bytes_app; [apply bytes_be_bytes|]. apply bytes_app; [apply bytes_be_bytes|exact H].
Qed.

Record client_ready (c : conn) (log : list Z) : Prop := {
  client_side : side c; client_rsa : Z.land (flags (params (tls c))) NEED_EC_KEY = 0;
  client_cert : Z.land (flags (params (tls c))) Der.GOT_CERT_RSA_KEY_ALG <> 0; client_outbuf : bytes (outbuf (tls c)); client_log : logged (tls c) log }.

Lemma send_spec ec_random fe_old p256 c priv rnd log :
  client_ready c log -> length rnd = 48%nat -> bytes rnd ->
  let pub := server_rsa_pub_key (hs c) in let secret := rsa_secret_of rnd in keys_fit pub priv secret ->
  let msg := kex_message (encrypted pub priv secret) in
  exists t, send_client_key_exchange bld ec_random fe_old p256 rnd random c
      = Ok (client_keys (derived c t secret), rfc_record RECORD_TYPE_HANDSHAKE msg)
    /\ params t = params (tls c) /\ write_seq64_be t = write_seq64_be (tls c) /\ bytes (outbuf t) /\ logged t (log ++ msg).
Proof.
  intros [Hside Hec Hcert Bo Hlog] Lr Br pub secret Hfit msg. unfold send_client_key_exchange.
  destruct (zeroed_spec (tls c) (4 + key_room) Bo) as (ob & E & pre & rest & Eob & Lp & Lrest & Bp & Brest); [unfold key_room, TLS_MAX_OUTBUF; cbn; lia|].
  rewrite E. cbn [lift rbind params set_outbuf outbuf]. rewrite Hec. cbn [Z.eqb]. destruct (Z.eqb_spec (Z.land (flags (params (tls c))) Der.GOT_CERT_RSA_KEY_ALG) 0); [contradiction|].
  fold pub. change OUTBUF_PFX with 24%nat in *. rewrite Eob, (rsa_premaster_spec pub priv) by assumption. cbn [rbind]. fold secret. pose proof (fit_size _ _ _ Hfit) as Hsz.
  set (ct := encrypted pub priv secret) in *. assert (Lct : length ct = Rsa.size pub) by apply length_be_bytes. assert (Bct : bytes ct) by apply bytes_be_bytes.
  set (pad := repeat 0 (key_room - 2 - Rsa.size pub)). assert (Bpad : bytes pad) by apply bytes_zeros. clearbody pad.
  assert (E0 : forall v l, @store1 error Z (pre ++ 0 :: l) 24 v = Ok (pre ++ v :: l)) by (intros v l; rewrite <- Lp; apply store1_at).
  cbn [app]. rewrite E0. cbn [rbind].
  replace (24 + 2)%nat with (length pre + 2)%nat by lia. rewrite store1_in. cbn [store1 length Nat.ltb Nat.leb upd rbind].
  replace (24 + 3)%nat with (length pre + 3)%nat by lia. rewrite store1_in. cbn [store1 length Nat.ltb Nat.leb upd rbind].
  destruct (kex_message_ok ct Bct) as (Bmsg & Lmsg). fold msg in Bmsg, Lmsg.
  match goal with |- context [set_outbuf _ ?o] => match o with pre ++ _ => set (ob1 := o) end end.
  assert (Eob1 : ob1 = pre ++ msg ++ pad ++ rest).
  { unfold ob1, msg, kex_message, HANDSHAKE_CLIENT_KEY_EXCHANGE. rewrite Lct, (two_bytes (Z.of_nat (Rsa.size pub + 2))), <- !app_assoc. reflexivity. }
  clearbody ob1. change (set_outbuf (set_outbuf (tls c) ?o) ob1) with (set_outbuf (tls c) ob1). replace (Rsa.size pub + 2 + 4)%nat with (length msg) by lia.
  destruct (write_message (set_outbuf (tls c) ob1) msg log) as (t & Et & Ep & Ew & Bt & Hl); auto.
  - exists pre, (pad ++ rest). split; [exact Eob1|]. split; [exact Lp|]. split; [rewrite length_app; lia|]. split; [exact Bp|apply bytes_app; assumption].
  - lia.
  - rewrite Et. cbn [lift rbind]. rewrite derive_at; [|exact Hside|exact Ep|apply bytes_secret, Br]. cbn [rbind]. exists t. repeat split; assumption.
Qed.

(** ** Messages that are read *)

(** A record that is not encrypted. *)
Lemma receive_clear r evs type body rest :
  inbuf_ok r -> SSL_SERVER bld && expecting_first_packet (params r) = false -> min_encrypted_len_on_read (params r) = 0 -> delivers evs ->
  in_u 8 type -> bytes body -> Z.of_nat (length body) <= 16384 + 2048 -> pending r evs = rfc_record type body ++ rest ->
  exists t evs', received_record r t evs' type body rest
    /\ forall fuel, tls_xread_record bld (S fuel) r evs
       = (let! (tls, nxt) := handle_record bld t (Z.of_nat (length body)) in
          match nxt with Return sz => Ok (tls, evs', sz) | Again => tls_xread_record bld fuel tls evs' end).
Proof.
  intros Hi Hver Hmin Hd Ht Hb Hl Hp. destruct (receive bld bld_ok r evs type body rest Hi Hver Hd Ht Hb Hl Hp) as (t & evs' & Hr & E).
  exists t, evs'. split; [exact Hr|]. intros fuel. rewrite E. unfold decrypt_record. destruct Hr as (Ep & _). rewrite Ep, Hmin. reflexivity.
Qed.

(** A handshake message is hashed. *)
Lemma handle_message t msg log :
  nth 0 (inbuf t) 0 = RECORD_TYPE_HANDSHAKE -> slice 5 (length msg) (inbuf t) = msg -> (5 + length msg <= length (inbuf t))%nat -> bytes msg -> logged t log ->
  exists ctx, handle_record bld t (Z.of_nat (length msg)) = Ok (set_hsd t (Some ctx), Return (Z.of_nat (length msg))) /\ logged (set_hsd t (Some ctx)) (log ++ msg).
Proof.
  intros Et Em Hl Bm (ctx & Eh & Hr). unfold handle_record. destruct (Z.ltb_spec (Z.of_nat (length msg)) 0); [lia|].
  rewrite (load1_ok _ _ 0) by lia. cbn [rbind]. rewrite Et. cbn [RECORD_TYPE_HANDSHAKE RECORD_TYPE_ALERT Z.eqb Pos.eqb andb].
  unfold RECHDR_LEN. rewrite Nat2Z.id, load_ok by lia. cbn [rbind]. rewrite Em. unfold hash_handshake. rewrite Eh.
  destruct (hash_represents (hash_config bld) HASH ctx log msg Hr Bm) as (ctx' & -> & Hr'). cbn [fuelled rbind]. exists ctx'. split; [reflexivity|]. exists ctx'. auto.
Qed.

Lemma length_back n : (128 <= n <= 512)%nat -> Z.lor (Z.shiftl (u8 (Z.shiftr (Z.of_nat n) 8)) 8) (u8 (Z.of_nat n)) = Z.of_nat n.
Proof.
  intros H. assert (C : forallb (fun n => Z.lor (Z.shiftl (u8 (Z.shiftr (Z.of_nat n) 8)) 8) (u8 (Z.of_nat n)) =? Z.of_nat n) (seq 128 385) = true) by (vm_compute; reflexivity).
  rewrite forallb_forall in C. apply Z.eqb_eq, C, in_seq. lia.
Qed.

(** The buffer of a record that was received. *)
Lemma record_split t n (body : list Z) : slice 5 (length body) (inbuf t) = body -> n = (5 + length body)%nat -> (n <= length (inbuf t))%nat ->
  inbuf t = firstn 5 (inbuf t) ++ body ++ skipn n (inbuf t).
Proof.
  intros Eb -> Hl. rewrite <- Eb at 1. unfold slice. rewrite (Nat.add_comm 5), <- skipn_skipn, firstn_skipn, firstn_skipn. reflexivity.
Qed.

Record server_ready (s : conn) (log : list Z) : Prop := {
  server_side : side s; server_rsa : Z.land (flags (params (tls s))) NEED_EC_KEY = 0; server_inbuf : inbuf_ok (tls s);
  server_clear : min_encrypted_len_on_read (params (tls s)) = 0; server_version : SSL_SERVER bld && expecting_first_packet (params (tls s)) = false;
  server_log : logged (tls s) log }.

Lemma rsa_secret_spec pub priv secret premaster0 t head tail :
  keys_fit pub priv secret -> length secret = 48%nat -> bytes secret -> firstn 2 secret = [3; 3] -> length premaster0 = 48%nat ->
  inbuf t = head ++ kex_message (encrypted pub priv secret) ++ tail -> length head = 5%nat -> bytes tail ->
  exists b, rsa_secret premaster0 priv t = Ok (set_inbuf t (head ++ b ++ tail), secret) /\ length b = length (kex_message (encrypted pub priv secret)) /\ bytes b.
Proof.
  intros Hfit Ls Bs E33 Lp Ei Lh Bt. pose proof (fit_size _ _ _ Hfit) as Hsz. pose proof (fit_pair _ _ _ Hfit) as HP. pose proof (RsaS.pair_size _ _ HP) as Es.
  set (ct := encrypted pub priv secret) in *. assert (Lct : length ct = Rsa.size pub) by apply length_be_bytes.
  assert (Em : kex_message ct = [16; 0; u8 (Z.shiftr (Z.of_nat (Rsa.size pub + 2)) 8); u8 (Z.of_nat (Rsa.size pub + 2)); u8 (Z.shiftr (Z.of_nat (Rsa.size pub)) 8); u8 (Z.of_nat (Rsa.size pub))] ++ ct)
    by (unfold kex_message; rewrite Lct, !two_bytes; reflexivity).
  rewrite Em in *. clear Em. set (m6 := [16; 0; _; _; _; _]) in *.
  assert (Enth : forall k, (k < 6)%nat -> @load1 error Z (inbuf t) (5 + k) = Ok (nth k m6 0)).
  { intros k Hk. rewrite (load1_ok _ _ 0) by (rewrite Ei, !length_app, Lh; cbn [length m6]; lia). rewrite Ei, app_nth2, Lh by lia. replace (5 + k - 5)%nat with k by lia.
    rewrite <- app_assoc, app_nth1 by (cbn [length m6]; lia). reflexivity. }
  unfold rsa_secret. change key_data with (5 + 4)%nat. rewrite Enth by lia. cbn [rbind]. change (5 + 4 + 1)%nat with (5 + 5)%nat. rewrite Enth by lia. cbn [rbind nth m6].
  rewrite length_back by lia. destruct (Z.ltb_spec (Z.of_nat (Rsa.size pub)) 128); [lia|]. destruct (Z.ltb_spec 512 (Z.of_nat (Rsa.size pub))); [lia|]. cbn [orb].
  change (5 + 4 + 2)%nat with 11%nat. assert (Ei' : inbuf t = (head ++ m6) ++ ct ++ tail) by (rewrite Ei, <- !app_assoc; reflexivity).
  assert (L11 : length (head ++ m6) = 11%nat) by (rewrite length_app, Lh; reflexivity).
  assert (Esk : skipn 11 (inbuf t) = ct ++ tail) by (rewrite Ei', skipn_app, skipn_all2, L11, Nat.sub_diag by lia; reflexivity).
  assert (Efi : firstn 11 (inbuf t) = head ++ m6) by (rewrite Ei', firstn_app, firstn_all2, L11, Nat.sub_diag, app_nil_r by lia; reflexivity).
  rewrite Esk, Efi, Nat2Z.id. unfold ct, encrypted. rewrite Es. unfold RSA_PREMASTER_SIZE. rewrite <- Lp.
  rewrite (RsaS.decrypt_spec random Hrandom pub priv secret tail premaster0 HP Bs Bt) by (try apply Hfit; lia). cbn [lift rbind].
  rewrite Ls, Lp, skipn_all2, app_nil_r by lia. cbn [Nat.eqb negb].
  destruct secret as [|s0 [|s1 secret]]; try discriminate. injection E33 as -> ->. cbn [load1 nth_error rbind Z.eqb Pos.eqb negb orb].
  exists (m6 ++ repeat 0 (Rsa.size priv)). split; [rewrite <- !app_assoc; reflexivity|]. split; [rewrite !length_app, repeat_length, length_be_bytes; lia|].
  apply bytes_app; [|apply bytes_zeros]. unfold m6, u8. repeat (constructor; [first [split; [discriminate|reflexivity]|apply wrap_range; lia]|]). constructor.
Qed.

Lemma get_spec fe_old p256 premaster0 pub s secret log evs rest fuel :
  server_ready s log -> keys_fit pub (rsa_priv_key (hs s)) secret -> length secret = 48%nat -> bytes secret -> firstn 2 secret = [3; 3] -> length premaster0 = 48%nat ->
  delivers evs -> let msg := kex_message (encrypted pub (rsa_priv_key (hs s)) secret) in
  pending (tls s) evs = rfc_record RECORD_TYPE_HANDSHAKE msg ++ rest ->
  exists t evs', get_client_key_exchange bld fe_old p256 premaster0 (S fuel) s evs = Ok (server_keys (derived s t secret), evs')
    /\ params t = params (tls s) /\ inbuf_ok t /\ pending t evs' = rest /\ delivers evs' /\ logged t (log ++ msg).
Proof.
  intros [Hside Hec Hin Hclear Hver Hlog] Hfit Ls Bs E33 Lp Hd msg Hpend. destruct (kex_message_ok (encrypted pub (rsa_priv_key (hs s)) secret) (bytes_be_bytes _ _)) as (Bm & Lm). fold msg in Bm, Lm.
  pose proof (fit_size _ _ _ Hfit) as Hsz. unfold encrypted in Lm. rewrite length_be_bytes in Lm.
  destruct (receive_clear (tls s) evs RECORD_TYPE_HANDSHAKE msg rest Hin Hver Hclear Hd) as (t & evs' & (Ep & Eh & Hit & Hl & Eb & En & Eofs & Epend & Hd' & _) & E); auto; [split; [discriminate|reflexivity]|lia|].
  destruct (handle_message t msg log En Eb Hl Bm) as (ctx & E2 & Hlog2); [destruct Hlog as (c0 & Hc0); exists c0; rewrite Eh; exact Hc0|].
  unfold get_client_key_exchange, tls_xread_handshake_block. rewrite E, E2. cbn [rbind]. rewrite (load1_ok _ _ 0) by (cbn [inbuf set_hsd]; lia). cbn [rbind inbuf set_hsd].
  rewrite En, Z.eqb_refl. destruct (Z.ltb_spec (Z.of_nat (length msg)) 5); [lia|]. cbn [orb negb lift rbind inbuf set_hsd].
  set (t1 := set_hsd t (Some ctx)) in *. pose proof (record_split t1 (5 + length msg) msg Eb eq_refl Hl) as Ei. set (head := firstn 5 (inbuf t1)) in *. set (tail := skipn (5 + length msg) (inbuf t1)) in *.
  assert (Lh : length head = 5%nat) by (unfold head; rewrite length_firstn; cbn [inbuf set_hsd t1]; lia). destruct Hit as (Hmax & Bib & Hb0 & Hbuf).
  assert (Bt : bytes tail) by apply bytes_skipn, Bib.
  rewrite (load1_ok _ _ 0) by (unfold RECHDR_LEN; lia). cbn [rbind]. replace (nth RECHDR_LEN (inbuf t) 0) with 16.
  2: { change (inbuf t) with (inbuf t1). rewrite Ei. change RECHDR_LEN with 5%nat. rewrite app_nth2, Lh by lia. reflexivity. }
  change (16 =? HANDSHAKE_CLIENT_KEY_EXCHANGE) with true. cbn [negb]. change (params t1) with (params t). rewrite Ep, Hec. cbn [Z.eqb].
  destruct (rsa_secret_spec pub (rsa_priv_key (hs s)) secret premaster0 t1 head tail Hfit Ls Bs E33 Lp Ei Lh Bt) as (b & E3 & Lb & Bb). fold msg in Lb. rewrite E3. cbn [rbind].
  rewrite derive_at by auto. cbn [rbind]. exists (set_inbuf t1 (head ++ b ++ tail)), evs'. split; [reflexivity|]. split; [exact Ep|].
  assert (Ll : length (head ++ b ++ tail) = length (inbuf t)) by (change (inbuf t) with (inbuf t1); rewrite Ei, !length_app, Lb; reflexivity).
  split; [split; [cbn [inbuf set_inbuf]; rewrite Ll; exact Hmax|split; [apply bytes_app; [apply bytes_firstn, Bib|apply bytes_app; assumption]|]]|].
  { split; [exact Hb0|]. cbn [inbuf set_inbuf]. rewrite Ll. exact Hbuf. }
  split; [|split; [exact Hd'|exact Hlog2]]. rewrite <- Epend. unfold pending. change (inbuf t) with (inbuf t1). change (ofs_to_buffered (set_inbuf t1 _)) with (ofs_to_buffered t). change (buffered_size (set_inbuf t1 _)) with (buffered_size t).
  rewrite Eofs, Nat2Z.id. f_equal. unfold slice. f_equal. cbn [inbuf set_inbuf]. fold tail.
  rewrite app_assoc, skipn_app, skipn_all2, length_app, Lh, Lb, Nat.sub_diag by (rewrite length_app; lia). reflexivity.
Qed.

(** ** The change of the cipher *)

Lemma change_record : rec_CHANGE_CIPHER_SPEC = rfc_record RECORD_TYPE_CHANGE_CIPHER_SPEC [1].
Proof. reflexivity. Qed.

Lemma change_spec c evs rest log fuel :
  inbuf_ok (tls c) -> SSL_SERVER bld && expecting_first_packet (params (tls c)) = false -> min_encrypted_len_on_read (params (tls c)) = 0 -> delivers evs -> logged (tls c) log ->
  pending (tls c) evs = rec_CHANGE_CIPHER_SPEC ++ rest ->
  exists t evs', get_change_cipher_spec bld (S fuel) c evs = Ok (set_tls c t, evs')
    /\ params t = changed (params (tls c)) /\ inbuf_ok t /\ pending t evs' = rest /\ delivers evs' /\ logged t log.
Proof.
  intros Hi Hver Hmin Hd Hlog Hp. rewrite change_record in Hp.
  destruct (receive_clear (tls c) evs RECORD_TYPE_CHANGE_CIPHER_SPEC [1] rest Hi Hver Hmin Hd) as (t & evs' & (Ep & Eh & Hit & Hl & _ & En & _ & Epend & Hd' & Efull) & E); auto;
    [split; [discriminate|reflexivity]|apply is_bytes_ok; reflexivity|cbn; lia|]. cbn [length] in *.
  unfold get_change_cipher_spec. rewrite E. unfold handle_record. cbn [Z.of_nat Z.ltb Z.compare]. rewrite (load1_ok _ _ 0) by lia. cbn [rbind]. rewrite En. cbn [RECORD_TYPE_CHANGE_CIPHER_SPEC RECORD_TYPE_ALERT RECORD_TYPE_HANDSHAKE Z.eqb Pos.eqb andb rbind lift].
  change (Z.pos (Pos.of_succ_nat 0) =? 1) with true. rewrite load_ok by lia. cbn [rbind]. change (slice 0 6 (inbuf t)) with (firstn (5 + 1) (inbuf t)). rewrite Efull, <- change_record.
  destruct (list_eq_dec Z.eq_dec rec_CHANGE_CIPHER_SPEC rec_CHANGE_CIPHER_SPEC); [|contradiction]. exists (set_params t (changed (params t))), evs'.
  split; [reflexivity|]. rewrite Ep. split; [reflexivity|]. split; [exact Hit|]. split; [exact Epend|]. split; [exact Hd'|]. destruct Hlog as (ctx & Hc & Hr). exists ctx. split; [|exact Hr].
  change (hsd t = Some ctx). congruence.
Qed.

(** ** The finished messages *)

(** Section 7.4.9: the messages [log] were sent and received before. *)
Definition finished (label ms log : list Z) : list Z := [HANDSHAKE_FINISHED; 0; 0; 12] ++ PRF ms label (digest HASH log) 12.

Lemma finished_ok label ms log : bytes (finished label ms log) /\ length (finished label ms log) = 16%nat.
Proof. split; [apply bytes_app; [apply is_bytes_ok; reflexivity|apply bytes_PRF]|]. unfold finished. rewrite length_app, length_PRF. reflexivity. Qed.

Lemma send_finished_spec iv c key seq label log :
  writes (params (tls c)) key -> write_seq64_be (tls c) = bswap_64 seq -> 0 <= seq < 2 ^ 64 -> bytes (outbuf (tls c)) -> logged (tls c) log ->
  length (master_secret (hs c)) = 48%nat -> bytes (master_secret (hs c)) -> bytes label -> AES.block iv ->
  exists w c', send_finished bld iv c label = Ok (c', rfc_output bld (params w) key iv seq RECORD_TYPE_HANDSHAKE (content w 16))
    /\ writer_ok w key seq 16 /\ params w = params (tls c) /\ content w 16 = finished label (master_secret (hs c)) log
    /\ params (tls c') = params (tls c) /\ hs c' = hs c /\ write_seq64_be (tls c') = bswap_64 (u64 (seq + 1)).
Proof.
  intros (Haes & Hk & Hw) Eseq Hseq Bo (ctx & Eh & Hr) Lm Bm Bl Hiv. unfold send_finished, get_outbuf_fill_handshake_record.
  destruct (zeroed_spec (tls c) 16 Bo) as (ob & E & pre & rest & Eob & Lp & Lrest & Bp & Brest); [unfold TLS_MAX_OUTBUF; cbn; lia|].
  change (Z.of_nat 16) with 16 in *. rewrite E. cbn [lift rbind outbuf set_outbuf]. unfold fill_handshake_record_hdr. change (repeat 0 16) with ([0; 0; 0; 0] ++ repeat 0 12) in Eob.
  pose proof (store_at (E := error) pre [0; 0; 0; 0] [20; 0; 0; 12] (repeat 0 12 ++ rest) eq_refl) as E1. rewrite Lp in E1. rewrite Eob, <- app_assoc.
  change [u8 HANDSHAKE_FINISHED; u8 (Z.shiftr (Z.of_nat 16 - 4) 16); u8 (Z.shiftr (Z.of_nat 16 - 4) 8); u8 (Z.of_nat 16 - 4)] with [20; 0; 0; 12]. rewrite E1. cbn [rbind hsd set_outbuf]. rewrite Eh.
  destruct bld_ok as (_ & Hst & _). destruct (sha1_end_digest (hash_config bld) Hst HASH ctx log ltac:(discriminate) Hr) as (ctx' & E2 & _). rewrite E2. cbn [fuelled rbind].
  rewrite load_ok by lia. cbn [rbind]. replace (slice 0 48 (master_secret (hs c))) with (master_secret (hs c)) by (unfold slice; cbn [skipn]; rewrite firstn_all2 by lia; reflexivity).
  rewrite firstn_all2 by (rewrite length_digest; reflexivity). rewrite prf_spec by (auto; apply bytes_digest). cbn [rbind]. set (d := PRF _ label _ 12).
  assert (Ld : length d = 12%nat) by apply length_PRF. assert (Bd : bytes d) by apply bytes_PRF.
  pose proof (store_at (E := error) (pre ++ [20; 0; 0; 12]) (repeat 0 12) d rest Ld) as E3. rewrite length_app, Lp, <- !app_assoc in E3. cbn [outbuf set_outbuf].
  cbn [length] in E3. rewrite E3. cbn [rbind].
  match goal with |- context [xwrite_encrypted bld iv ?x 16] => set (w := x) end.
  assert (Ew : outbuf w = pre ++ finished label (master_secret (hs c)) log ++ rest) by reflexivity.
  assert (Cw : content w 16 = finished label (master_secret (hs c)) log).
  { destruct (finished_ok label (master_secret (hs c)) log) as (_ & Lf). unfold content, slice. rewrite Ew, <- Lp, skipn_app, skipn_all, Nat.sub_diag. cbn [app skipn]. rewrite <- Lf, firstn_app, firstn_all, Nat.sub_diag. apply app_nil_r. }
  assert (Hwr : writer_ok w key seq 16).
  { split; [exact Haes|]. split; [exact Hk|]. split; [exact Eseq|]. split; [exact Hseq|]. destruct (finished_ok label (master_secret (hs c)) log) as (Bf & Lf).
    split; [rewrite Ew; apply bytes_app; [exact Bp|apply bytes_app; assumption]|]. split; [rewrite Ew, !length_app, Lf, Lp; lia|discriminate]. }
  destruct (write_rfc bld bld_ok iv w key seq 16 RECORD_TYPE_HANDSHAKE arrays Hwr Hw ltac:(split; [discriminate|reflexivity]) Hiv) as (w' & E4 & Hwn).
  rewrite E4. cbn [lift rbind]. exists w, (set_tls c w'). split; [reflexivity|]. split; [exact Hwr|]. split; [reflexivity|]. split; [exact Cw|].
  destruct Hwn as (Hp' & Hs' & _). split; [exact Hp'|]. split; [reflexivity|exact Hs'].
Qed.

Lemma get_finished_spec iv w key seq s label ms log slog evs rest fuel :
  writer_ok w key seq 16 -> write_keys_ok bld (params w) -> AES.block iv -> content w 16 = finished label ms log ->
  inbuf_ok (tls s) -> reader_ok bld (params w) (params (tls s)) key -> SSL_SERVER bld && expecting_first_packet (params (tls s)) = false -> logged (tls s) slog -> delivers evs ->
  pending (tls s) evs = rfc_output bld (params w) key iv seq RECORD_TYPE_HANDSHAKE (content w 16) ++ rest ->
  exists t evs', get_finished bld (S fuel) s evs = Ok (set_tls s t, evs')
    /\ params t = params (tls s) /\ inbuf_ok t /\ pending t evs' = rest /\ delivers evs' /\ logged t (slog ++ finished label ms log).
Proof.
  intros Hwr Hk Hiv Cw Hi Hr Hver Hlog Hd Hp. destruct (finished_ok label ms log) as (Bf & Lf).
  destruct (link_decrypted bld bld_ok iv w (tls s) key seq 16 RECORD_TYPE_HANDSHAKE evs rest Hwr Hk Hiv ltac:(split; [discriminate|reflexivity]) Hi Hr Hver Hd Hp)
    as (t & evs' & E & Et & En & Hl & Epend & Hit & Ep & Eh & Hd').
  rewrite Cw in Et. destruct (handle_message t (finished label ms log) slog En) as (ctx & E2 & Hlog2); rewrite ?Lf; auto; [destruct Hlog as (c0 & H1 & H2); exists c0; split; [congruence|exact H2]|].
  rewrite Lf in E2. unfold get_finished. rewrite E, E2. cbn [rbind lift]. change (Z.of_nat 16 <? 4) with false. cbn [inbuf set_hsd]. rewrite (load1_ok _ _ 0) by (unfold RECHDR_LEN; lia). cbn [rbind].
  replace (nth RECHDR_LEN (inbuf t) 0) with 20; [|rewrite <- (Nat.add_0_r RECHDR_LEN), <- (nth_slice (inbuf t) RECHDR_LEN 16 0 0), Et by lia; reflexivity].
  change (negb (20 =? HANDSHAKE_FINISHED)) with false. cbn iota. exists (set_hsd t (Some ctx)), evs'. split; [reflexivity|]. auto.
Qed.

(** The server's side of it, for what the client wrote with [w]. *)
Lemma server_accepts fe_old p256 premaster0 iv pub w key label ms log s secret slog evs rest fuel :
  server_ready s slog -> keys_fit pub (rsa_priv_key (hs s)) secret -> length secret = 48%nat -> bytes secret -> firstn 2 secret = [3; 3] -> length premaster0 = 48%nat ->
  writer_ok w key 0 16 -> write_keys_ok bld (params w) -> AES.block iv -> content w 16 = finished label ms log ->
  (forall t, params t = params (tls s) -> reader_ok bld (params w) (changed (params (tls (server_keys (derived s t secret))))) key) ->
  delivers evs ->
  pending (tls s) evs = rfc_record RECORD_TYPE_HANDSHAKE (kex_message (encrypted pub (rsa_priv_key (hs s)) secret)) ++ rec_CHANGE_CIPHER_SPEC
    ++ rfc_output bld (params w) key iv 0 RECORD_TYPE_HANDSHAKE (content w 16) ++ rest ->
  exists s1 evs1 s2 evs2 s3 evs3 t,
    get_client_key_exchange bld fe_old p256 premaster0 (S fuel) s evs = Ok (s1, evs1)
    /\ get_change_cipher_spec bld (S fuel) s1 evs1 = Ok (s2, evs2) /\ get_finished bld (S fuel) s2 evs2 = Ok (s3, evs3)
    /\ pending (tls s3) evs3 = rest /\ inbuf_ok (tls s3) /\ delivers evs3
    /\ params t = params (tls s) /\ hs s3 = hs (derived s t secret) /\ params (tls s3) = changed (params (tls (server_keys (derived s t secret)))).
Proof.
  intros Hs Hfit Ls Bs E33 Lp Hwr Hk Hiv Cw Hread Hd Hp. set (kx := kex_message _) in *.
  destruct (get_spec fe_old p256 premaster0 pub s secret slog evs _ fuel Hs Hfit Ls Bs E33 Lp Hd Hp) as (t1 & evs1 & E1 & Ep1 & Hi1 & Hp1 & Hd1 & Hl1).
  set (s1 := server_keys (derived s t1 secret)) in *. pose proof Hs as [_ _ _ Hclear Hver _].
  edestruct (change_spec s1 evs1 (rfc_output bld (params w) key iv 0 RECORD_TYPE_HANDSHAKE (content w 16) ++ rest) (slog ++ kx) fuel Hi1) as (t2 & evs2 & E2 & Ep2 & Hi2 & Hp2 & Hd2 & Hl2); [..|exact Hd1|exact Hl1|exact Hp1|].
  { change (SSL_SERVER bld && expecting_first_packet (params t1) = false). rewrite Ep1. exact Hver. }
  { change (min_encrypted_len_on_read (params t1) = 0). rewrite Ep1. exact Hclear. }
  destruct (get_finished_spec iv w key 0 (set_tls s1 t2) label ms log (slog ++ kx) evs2 rest fuel Hwr Hk Hiv Cw Hi2) as (t3 & evs3 & E3 & Ep3 & Hi3 & Hp3 & Hd3 & _); auto.
  { cbn [tls set_tls]. rewrite Ep2. apply Hread, Ep1. }
  { cbn [tls set_tls]. rewrite Ep2. change (SSL_SERVER bld && expecting_first_packet (params t1) = false). rewrite Ep1. exact Hver. }
  exists s1, evs1, (set_tls s1 t2), evs2, (set_tls (set_tls s1 t2) t3), evs3, t1. cbn [tls set_tls] in *. rewrite Ep3, Ep2. do 7 (split; [assumption|]). split; reflexivity.
Qed.

(** C40. The key exchange. A client and a server that chose the same cipher and
    exchanged their random bytes, with an RSA key: the client's
    [send_client_key_exchange] and [send_finished] write messages that the
    server's [get_client_key_exchange], [get_change_cipher_spec] and
    [get_finished] accept, whatever the pieces in which they arrive, leaving
    what follows them. Then both sides have the master secret of RFC 5246, the
    parts of its key block are their keys, and each side decrypts with the key
    the other side encrypts with. *)
Theorem key_exchange_agrees ec_random fe_old p256_pair fe_old' p256 premaster0 iv c s rnd clog slog :
  client_ready c clog -> server_ready s slog -> same_suite (params (tls c)) (params (tls s)) ->
  client_and_server_rand32 (hs s) = client_and_server_rand32 (hs c) -> write_seq64_be (tls c) = 0 ->
  length rnd = 48%nat -> bytes rnd -> keys_fit (server_rsa_pub_key (hs c)) (rsa_priv_key (hs s)) (rsa_secret_of rnd) ->
  AES.block iv -> length premaster0 = 48%nat ->
  let ms := master (rsa_secret_of rnd) (client_and_server_rand32 (hs c)) in
  let kb := expansion (params (tls c)) (rsa_secret_of rnd) (client_and_server_rand32 (hs c)) in
  exists c1 out1 c2 out2,
    send_client_key_exchange bld ec_random fe_old p256_pair rnd random c = Ok (c1, out1)
    /\ send_finished bld iv c1 (bytes_of "client finished") = Ok (c2, out2) /\ bytes (out1 ++ rec_CHANGE_CIPHER_SPEC ++ out2)
    /\ forall evs rest fuel, delivers evs -> pending (tls s) evs = out1 ++ rec_CHANGE_CIPHER_SPEC ++ out2 ++ rest ->
       exists s1 evs1 s2 evs2 s3 evs3,
         get_client_key_exchange bld fe_old' p256 premaster0 (S fuel) s evs = Ok (s1, evs1)
         /\ get_change_cipher_spec bld (S fuel) s1 evs1 = Ok (s2, evs2) /\ get_finished bld (S fuel) s2 evs2 = Ok (s3, evs3)
         /\ pending (tls s3) evs3 = rest /\ inbuf_ok (tls s3) /\ delivers evs3
         /\ master_secret (hs c2) = ms /\ master_secret (hs s3) = ms /\ agreed kb (params (tls c2)) (params (tls s3)).
Proof.
  intros Hc Hs Hss Er Eseq Lr Br Hfit Hiv Lp ms kb. pose proof (client_side _ _ Hc) as [Hcr _ _ Ce Cd Csuite]. pose proof (server_side _ _ Hs) as [_ _ _ Se Sd _].
  set (secret := rsa_secret_of rnd) in *. assert (Bs : bytes secret) by (apply bytes_secret, Br). assert (Ls : length secret = 48%nat) by (unfold secret, rsa_secret_of; cbn [length]; rewrite length_skipn; lia).
  destruct (send_spec ec_random fe_old p256_pair c (rsa_priv_key (hs s)) rnd clog Hc Lr Br Hfit) as (t & Esend & Ept & Ewt & Bt & Hlt). fold secret in Esend, Hlt.
  assert (Lkb : length kb = key_length (params (tls c))) by apply length_PRF.
  assert (Hagree : forall t', params t' = params (tls s) -> agreed kb (params (tls (client_keys (derived c t secret)))) (changed (params (tls (server_keys (derived s t' secret)))))).
  { intros t' Ept'. apply keys_agreed; unfold derived; cbn [tls key_block]; rewrite ?Ept, ?Ept'; auto; [apply bytes_PRF|rewrite Lkb; reflexivity|].
    unfold filled, expansion, key_length. destruct Hss as [-> -> -> _]. rewrite Er. reflexivity. }
  destruct (Hagree (tls s) eq_refl) as [_ (Hwrites & _) _].
  destruct (send_finished_spec iv (client_keys (derived c t secret)) _ 0 (bytes_of "client finished") (clog ++ kex_message (encrypted (server_rsa_pub_key (hs c)) (rsa_priv_key (hs s)) secret)) Hwrites) as (w & c2 & Efin & Hwr & Epw & Cw & Epc2 & Ehs & _);
    [exact (eq_trans Ewt Eseq)|lia|exact Bt|exact Hlt|apply length_PRF|apply bytes_PRF|apply is_bytes_ok; reflexivity|exact Hiv|].
  do 4 eexists. split; [exact Esend|]. split; [exact Efin|].
  assert (Hk : write_keys_ok bld (params w)) by (rewrite Epw; apply Hwrites). split.
  { apply bytes_app; [apply rfc_record_ok; [split; [discriminate|reflexivity]|apply kex_message_ok, bytes_be_bytes]|].
    apply bytes_app; [apply is_bytes_ok; reflexivity|apply output_bytes; auto; split; [discriminate|reflexivity]]. }
  intros evs rest fuel Hd Hp.
  edestruct (server_accepts fe_old' p256 premaster0 iv (server_rsa_pub_key (hs c)) w) with (fuel := fuel) as (s1 & evs1 & s2 & evs2 & s3 & evs3 & t1 & E1 & E2 & E3 & Hp3 & Hi3 & Hd3 & Ep1 & Eh3 & Ep3);
    [exact Hs|exact Hfit|exact Ls|exact Bs|reflexivity|exact Lp|exact Hwr|exact Hk|exact Hiv|exact Cw| |exact Hd|exact Hp|].
  - intros t' Ept'. rewrite Epw. apply (Hagree t' Ept').
  - exists s1, evs1, s2, evs2, s3, evs3. do 6 (split; [assumption|]). rewrite Ehs, Eh3, Epc2, Ep3. split; [reflexivity|]. split; [|apply Hagree, Ep1].
    unfold ms. rewrite <- Er. reflexivity.
Qed.
End Rsa.
End Exchange.

(** ** A connection *)

(** A key of 1024 bits; its factors are products of small primes, so that the
    short exponents 17 and 7631153 are inverse to each other. *)
Definition factor_p : Z :=
  0xa2feece881bef11675911f801fced9ffcb94c45d52ab2155b81f00af60ce1a0fc483d632e2858eea4832b2d1ec279540d78f1aaeefc640a197bc5b332df299e1.
Definition factor_q : Z :=
  0xe2895281a2a622a0ac1a23af3db36f3160d8d5bfd3e7212219f736d3518b3bfd5164f6cbbb425cea469eafe8d0b23885e34b7ffec8745e60e31b0a558ca70e33.
Definition rsa_key : Rsa.psRsaKey :=
  Rsa.mk_key (PstmD.num 1 17) (PstmD.num 1 7631153) (PstmD.num 32 (factor_p * factor_q))
    (PstmD.num 16 0x3929a435f537475f69fc1dbd058d46bfb95f2ce98c3af885d2ef46e2591fcd5bed92a5d77f062c075d916fae4a095acba06d8536a7b5e7f8613b8c547c823e6a)
    (PstmD.num 1 7631153) (PstmD.num 1 7631153)
    (Pstm.mk_pstm 16 false (PstmD.digits 17 factor_p)) (Pstm.mk_pstm 16 false (PstmD.digits 17 factor_q)) 128 true.

Definition sample_rnd : list Z := repeat 5 48.
Definition padding_bytes (n : nat) : list Z := repeat 7 n.
Definition number : Z := RsaS.plain padding_bytes rsa_key (rsa_secret_of sample_rnd).
Definition ciphertext : Z :=
  0x81234b598c64f2b47538b0f3b2d53d86d056629f0e042011df0fc429cc37d16512b2f0934e5cd6c2a6b7605021293b6e8c7e1b295afa5ff23dc0c7042f98990bfd3dc01fc482791f3236d65e9d9db872c76f3b261170833ba07c6c61c0cfe75a21fdfd8b0c80549154d2fc3c20518b1b3d4faba62d95acc8fe91ce57f666c53e.

Lemma padding_bytes_ok n : length (padding_bytes n) = n /\ bytes (padding_bytes n).
Proof. split; [apply repeat_length|]. apply Forall_forall. intros x Hx. apply repeat_spec in Hx as ->. split; [discriminate|reflexivity]. Qed.

Lemma cipher_value : RsaS.cipher padding_bytes rsa_key rsa_key (rsa_secret_of sample_rnd) = ciphertext.
Proof. unfold RsaS.cipher. fold number. rewrite <- Zpow_mod_correct by (vm_compute; discriminate). vm_compute. reflexivity. Qed.

Lemma halves_value : RsaS.half_p rsa_key ciphertext = number mod factor_p /\ RsaS.half_q rsa_key ciphertext = number mod factor_q.
Proof.
  unfold RsaS.half_p, RsaS.half_q. rewrite <- !Zpow_mod_correct by (vm_compute; discriminate). split; vm_compute; reflexivity.
Qed.

Lemma rsa_modulus P : PstmD.ok_b P = true -> negb (Pstm.sign P) && Z.odd (PstmV.mag P) && (1 <? PstmV.mag P) && (2 * Pstm.used P + 1 <? Pstm.PSTM_MAX_SIZE)%nat = true -> PstmE.modulus P.
Proof.
  intros H1 H2. rewrite !andb_true_iff, negb_true_iff, Z.ltb_lt, Nat.ltb_lt in H2. destruct H2 as (((H2 & H3) & H4) & H5). split; auto using PstmD.ok_b_ok.
Qed.

Lemma rsa_key_pair : RsaS.key_pair rsa_key rsa_key.
Proof.
  split; try reflexivity; [apply rsa_modulus; vm_compute; reflexivity|right; vm_compute; split; [discriminate|reflexivity]|apply PstmD.ok_b_ok; vm_compute; reflexivity|].
  split; try (apply rsa_modulus; vm_compute; reflexivity); try (apply PstmD.ok_b_ok; vm_compute; reflexivity); try (vm_compute; reflexivity); try (cbn; lia).
Qed.

Lemma rsa_key_well : RsaS.crt_well rsa_key ciphertext.
Proof.
  destruct halves_value as (Ea & Eb). split; rewrite ?Ea, ?Eb.
  1, 2: split; [intros _|]; apply (PstmD.far_b_far 18); vm_compute; reflexivity.
  1, 2: intros _; vm_compute; discriminate.
  - right. vm_compute. reflexivity.
  - apply (PstmD.far_b_far 18); vm_compute; reflexivity.
  - intros _. right. vm_compute. reflexivity.
Qed.

Lemma rsa_key_inverse : RsaS.inverse_for rsa_key rsa_key number.
Proof.
  unfold RsaS.inverse_for. rewrite <- !Zpow_mod_correct by (vm_compute; discriminate). split; vm_compute; reflexivity.
Qed.

Lemma rsa_key_fit : keys_fit padding_bytes rsa_key rsa_key (rsa_secret_of sample_rnd).
Proof.
  split; fold number; rewrite ?cipher_value.
  - exact rsa_key_pair.
  - cbn. lia.
  - split; [intros H; exfalso; vm_compute in H; apply H; reflexivity|]. apply (PstmD.far_b_far 34); vm_compute; reflexivity.
  - intros _. vm_compute. discriminate.
  - exact rsa_key_well.
  - exact rsa_key_inverse.
Qed.

(** AES-128-GCM, before the exchange. *)
Definition hello_params (fl : Z) : tls_params :=
  {| flags := fl; cipher_id := 0x9C; MAC_size := 0; key_size := 16; IV_size := 4; expecting_first_packet := false;
     min_encrypted_len_on_read := 0; our_write_MAC_key := []; our_write_key := []; peer_write_key := [];
     our_write_IV := []; peer_write_IV := []; aes_encrypt := aes_zero; aes_decrypt := aes_zero; H := [] |}.
Definition hello (fl : Z) : conn :=
  mk_conn (mk_tls (hello_params fl) [] 0 [] 0 0 (Some (sha256_begin ctx0)))
    (mk_hs (repeat 1 64) (repeat 0 48) rsa_key [] rsa_key []) (repeat 0 136) [].
Definition client0 : conn := hello (Z.lor ENCRYPTION_AESGCM Der.GOT_CERT_RSA_KEY_ALG).
Definition server0 : conn := hello ENCRYPTION_AESGCM.

Lemma hello_side fl : is_gcm (hello_params fl) = true -> side build0 (hello fl).
Proof.
  intros Hg. split; try reflexivity; try exact aes_zero_array.
  - split; [reflexivity|apply is_bytes_ok; reflexivity].
  - split; [left; reflexivity|split; reflexivity|intros E; cbn [tls hello params] in E; congruence].
Qed.

Lemma hello_logged fl : logged build0 (tls (hello fl)) [].
Proof. exists (sha256_begin ctx0). split; [reflexivity|]. apply sha256_begin_represents, hash_ctx0_ok. Qed.

(** The three messages in one piece, with a byte after them. *)
Lemma key_exchange_agrees_witness :
  let kb := expansion (params (tls client0)) (rsa_secret_of sample_rnd) (repeat 1 64) in
  exists c1 out1 c2 out2 s1 evs1 s2 evs2 s3 evs3,
    send_client_key_exchange build0 [] 0 (fun _ => ([], [])) sample_rnd padding_bytes client0 = Ok (c1, out1)
    /\ send_finished build0 iv0 c1 (bytes_of "client finished") = Ok (c2, out2)
    /\ get_client_key_exchange build0 0 (fun _ _ => []) (repeat 0 48) 1 server0 [Data (out1 ++ rec_CHANGE_CIPHER_SPEC ++ out2 ++ [23])] = Ok (s1, evs1)
    /\ get_change_cipher_spec build0 1 s1 evs1 = Ok (s2, evs2) /\ get_finished build0 1 s2 evs2 = Ok (s3, evs3)
    /\ pending (tls s3) evs3 = [23] /\ agreed build0 kb (params (tls c2)) (params (tls s3)).
Proof.
  intros kb.
  destruct (key_exchange_agrees build0 build0_ok arrays0_ok padding_bytes padding_bytes_ok [] 0 (fun _ => ([], [])) 0 (fun _ _ => []) (repeat 0 48) iv0
    client0 server0 sample_rnd [] []) as (c1 & out1 & c2 & out2 & E1 & E2 & B & Hread).
  - split; [apply hello_side; reflexivity|reflexivity|discriminate|constructor|apply hello_logged].
  - split; [apply hello_side; reflexivity|reflexivity|apply empty_inbuf_ok|reflexivity|reflexivity|apply hello_logged].
  - split; reflexivity.
  - reflexivity.
  - reflexivity.
  - reflexivity.
  - apply is_bytes_ok. reflexivity.
  - exact rsa_key_fit.
  - exact iv0_block.
  - reflexivity.
  - destruct (Hread [Data (out1 ++ rec_CHANGE_CIPHER_SPEC ++ out2 ++ [23])] [23] 0%nat) as (s1 & evs1 & s2 & evs2 & s3 & evs3 & F1 & F2 & F3 & Hp & _ & _ & _ & _ & Ha).
    + constructor; [|constructor]. split; [destruct out1; discriminate|]. rewrite !app_assoc. apply bytes_app; [rewrite <- app_assoc; exact B|apply is_bytes_ok; reflexivity].
    + unfold pending. cbn [stream]. rewrite app_nil_r. reflexivity.
    + exists c1, out1, c2, out2, s1, evs1, s2, evs2, s3, evs3. do 6 (split; [assumption|]). exact Ha.
Defined.
End KexS.
